(* ===== verification/_CoqProject ===== *)
-Q . S2P
Prelude.v
Text.v
Errors.v
Diagnostics.v
Facts.v
LockIds.v
LockIdsProps.v
FactQueries.v
DataRace.v
DataRaceProps.v
LockOrder.v
LockOrderProps.v
MissingJoin.v
MissingJoinProps.v
Checkers.v
ReportBuilder.v
ProgramIndex.v
SingleTU.v
InterTU.v
InterTUProps.v
CallGraph.v
CallCycles.v
CallCyclesProps.v
Rounds.v
KeyIndex.v
Kept.v
Finite.v
Lifecycles.v
LifecyclesProps.v
SymbolClassifier.v
SymbolClassifierProps.v
LockEffects.v
SyncEffects.v
LockScope.v
LockScopeProps.v
LockOrderCollector.v
LockOrderCollectorProps.v
LockWrappers.v
LockWrappersProps.v
LockPropagation.v
LockPropagationProps.v
LockOrderFacts.v
LockOrderFactsProps.v
AccessFacts.v
AccessFactsProps.v
LiveUnits.v
CompilerDiag.v
Json.v
Renderer.v
RendererProps.v
CommandBuilder.v
Paths.v
WaitFacts.v
WaitFactsProps.v
RecursiveLocks.v
UnitFacts.v
UnitFactsProps.v
UnitFactsTotal.v
CompDb.v
IRCache.v
Compiler.v
CliOptions.v
Main.v
MainProps.v
