(* ===== verification/Prelude.v ===== *)
(** * A verification library for the CoreTrace concurrency analyzer

    The program is a static analyzer for C and C++.  It compiles each unit to LLVM
    IR, extracts the facts of the unit (thread creations, accesses to shared
    objects with the locks held, lock acquisitions in order, joins and detaches,
    forks, waits, publications), runs one checker per family of rules on the facts,
    and renders the findings.  In project mode it does so for every unit, lets
    each unit see what the others established, and merges the reports.

    This library models the program around the extraction of facts: from the
    command line, the compilation database and the bitcode cache to the facts of
    a unit, and from the facts to the text of the report and the exit code.  Paths
    below are relative to src/; [A] stands for src/internal/analysis.

    ** Files, and the code each of them models

    - Prelude.v: strings, ordered and unordered containers, [std::sort] as an
      interface ([StdSort], satisfied by [merge_std_sort]), iteration order of
      hash tables as an interface ([HashOrder], satisfied by
      [sorted_hash_order]), loops with an early exit, hints and tactics.
    - Text.v: cutting, trimming and splitting strings, decimal numbers.
    - Errors.v: include/coretrace_concurrency_error.hpp and
      src/coretrace_concurrency_error.cpp: codes, phases, the error category.
    - Diagnostics.v: the rules, options, locations, diagnostics and reports of
      include/coretrace_concurrency_analysis.hpp, the catalogue of
      src/internal/diagnostics/diagnostic_catalog.cpp and the chained builder of
      diagnostic_builder.hpp (a function from a diagnostic to a diagnostic per
      method, chained with [|>]).
    - Facts.v: A/facts.hpp: memory regions with their 64-bit offsets, overlap,
      merge keys, and the record of every fact.
    - LockIds.v, LockIdsProps.v: the names of locks, from A/ir_utils.cpp
      ([parameterLockPlace], [lockIdAt], [lockIdRoot]).
    - FactQueries.v: A/fact_queries.hpp and A/fact_selection.hpp: which tasks may
      run in parallel, and which facts and cross-unit channels a set of rules needs.
    - DataRace.v, DataRaceProps.v: A/data_race_checker.cpp ([DataRaceChecker_run]).
    - LockOrder.v, LockOrderProps.v: A/lock_order_analyzer.cpp
      ([LockOrderAnalyzer_run]).
    - MissingJoin.v, MissingJoinProps.v: A/missing_join_detector.cpp
      ([MissingJoinDetector_run]).
    - Checkers.v: A/process_lifecycle_checker.cpp, condition_wait_checker.cpp and
      publication_ordering_checker.cpp.
    - ReportBuilder.v: A/report_builder.cpp: order, ids, summary and function
      summaries of a report.
    - ProgramIndex.v: A/cross_tu/program_symbol_index.cpp and the test
      [crossTUChangesFacts] of A/cross_tu/inter_tu_coordinator.cpp.
    - SingleTU.v: src/coretrace_concurrency_analysis.cpp: the run of the selected
      checkers on one unit, and the source of a project's units.
    - InterTU.v, InterTUProps.v: A/cross_tu/inter_tu_coordinator.cpp: the two
      concurrent passes and the merge.
    - CallGraph.v: A/thread_context_propagator.cpp: the thread entries that reach
      each function over the direct calls of A/interprocedural_bindings.hpp.
    - CallCycles.v, CallCyclesProps.v: [callsClosingCycles] of
      A/interprocedural_bindings.cpp, the strongly connected components of the
      call graph.
    - Rounds.v: the loops that go over the calls until a round changes nothing, with
      one lemma for all of them: an invariant, a measure that grows with every
      change, and what is settled when nothing does.
    - KeyIndex.v, Kept.v, Finite.v: facts kept once per key beside their threads (the
      interface [Threaded], satisfied by lock orders and by accesses), and the finite
      sets of keys that bound what is kept.
    - Lifecycles.v, LifecyclesProps.v: the part of A/tu_facts_builder.cpp that
      carries what callees do to thread handles to their callers.
    - SymbolClassifier.v, SymbolClassifierProps.v:
      A/concurrency_symbol_classifier.cpp, from the name of a callee to what the
      call does.
    - LockEffects.v: A/lock_effect_application.cpp: what an instruction does to the
      locks held.
    - SyncEffects.v: A/synchronization_effects.cpp: the effects of a call on locks,
      by the classifier and the summaries of wrappers.
    - LockWrappers.v, LockWrappersProps.v: A/lock_wrapper_summaries.cpp.
    - LockScope.v, LockScopeProps.v: A/lock_scope_tracker.cpp ([collectHeldLocks]).
    - LockOrderCollector.v, LockOrderCollectorProps.v: A/lock_order_collector.cpp: the
      orders a function takes locks in, their gates, and the pairs it takes lower
      address first.
    - LockPropagation.v, LockPropagationProps.v: A/lock_state_propagator.cpp.
    - LockOrderFacts.v, LockOrderFactsProps.v: the lock orders of
      A/tu_facts_builder.cpp: what each function takes, and what the orders a helper
      leaves open come to at each call.
    - AccessFacts.v, AccessFactsProps.v: the accesses of A/tu_facts_builder.cpp, from
      the pending ones of each function to those of the unit, and the guards of static
      initialization of A/publication_analysis.cpp.
    - LiveUnits.v: the atomic gauge of live units of
      A/cross_tu/inter_tu_coordinator.cpp, as a step relation.
    - CompilerDiag.v: src/internal/diagnostics/compiler_diagnostic_parser.cpp.
    - Json.v: the values of LLVM's JSON library that the renderer builds and the
      database reads.
    - Renderer.v, RendererProps.v: src/internal/reporting/report_renderer.cpp.
    - CommandBuilder.v: src/internal/compile_command_builder.cpp, with the requests
      of include/coretrace_concurrency_analyzer.hpp.
    - Paths.v: the operations of [std::filesystem::path] the code uses, on POSIX
      paths.
    - WaitFacts.v, WaitFactsProps.v: the forks, condition waits and outstanding
      lifecycles of A/tu_facts_builder.cpp, with the places of A/ir_utils.cpp they are
      reported at.
    - RecursiveLocks.v: [collectRecursiveLockIds] of A/tu_facts_builder.cpp.
    - UnitFacts.v, UnitFactsProps.v, UnitFactsTotal.v: [TUFactsBuilder::build], which
      composes the collectors above, gated by the selection of facts, and adds what the
      rest of the program says; [collectProgramSymbolFacts].  The record [UnitModule]
      holds what the collectors read of LLVM's IR.
    - CompDb.v: src/internal/compilation_database.cpp.
    - IRCache.v: src/internal/ir_cache.cpp.
    - Compiler.v: src/coretrace_concurrency_analyzer.cpp, with the wrappers of
      src/internal/compilation_backend.cpp and src/internal/ir_loader.cpp.
    - CliOptions.v: the options of main.cpp.
    - Main.v, MainProps.v: the rest of main.cpp, which composes all of the above.

    ** How the code is represented

    A C++ struct is a record, an enum an inductive type with constructors named
    Enum_Value, a switch a match.  A [std::map] or [std::set] is a [gmap] or [gset]
    visited in key order.  A loop is a fold, or a loop with an early exit; a
    recursion that is not structural takes fuel and returns [None] when it runs
    out, and a theorem shows that the fuel given is enough: the length of the
    graph plus two for the walk over locks (a path repeats no lock) and plus one
    for its marking loop, the number of parents for the union-find, the number of
    callees for a queue over calls, the calls and functions of the graph for the walk
    over its cycles, the derivations of a fact over calls without a cycle for the
    lifecycle rounds, the length of a name for its tags, for the lock dataflows the number of
    times a state can change, blocks or callees times locks, the functions there are for
    the rounds over waits and forks, and for the orders and accesses carried along calls
    a number the theorems show to exist: at most 64 orders per function beside those on
    the locks that calls outside cycles bring, and one access per key, the keys ranging
    over the names, objects and 64-bit offsets of the unit.  Counters are
    [nat] where they count elements of a container in memory, and [N] or [Z] with
    the wrap-around written out where the width matters: byte offsets in Facts.v,
    the atomic counters in LiveUnits.v.  Tasks of the thread pool are folded in an
    order left open by the interface [PoolSchedule]; atomic operations interleave
    freely in LiveUnits.v.  The file system is a [gmap] from paths to contents, in
    which the record [Faults] says which writes stop and what they leave.  Where the
    code compacts an array of strings in place, the model has the array, and a
    string moved from holds an arbitrary text.  Output is the list of texts written
    to the two streams.  The IR fact builder, the compiler library, LLVM's parsers
    of IR, bitcode, JSON and shell words, its printer of JSON, SHA-256, MD5 and the
    digest of a unit, the clock, the resolver of lock effects and the reachability
    of the dominator tree are parameters.

    ** What the theorems show

    - Data races: every finding is a race of the unit's tasks and every conflict
      gives a finding on its symbol; consistent locking silences the checker; the
      merged conflict of a location stands for all its pairs.
    - Deadlocks: the bounded search ends; what it reports can deadlock; without the
      limit notice it reports every elementary cycle that can, once; locks taken
      by rank are never reported.
    - Missing joins: the union-find computes the least handle of each class of
      moved handles; findings carry exact counts; leaks are reported and resolved
      threads are not.
    - Other checkers: one finding per fact and rule; publications exactly when two
      tasks overlap.
    - Lock state: both dataflows end; a tracked instruction gets exactly the locks
      every path to it holds, and a function is entered with exactly the locks
      every call of it holds; a function is filed under exactly the thread entries
      that run it.
    - Calls: the walk over the call graph records exactly the calls on a cycle; the
      kind of a call follows from its callee's name, tags removed, and the memo
      never changes it; effects have the shape their users assume; a wrapper's
      summary holds on every way through it; the name of a lock can be read back;
      over calls without a cycle, what callees do to handles is carried to exactly
      the callers that pass them.
    - Facts of a unit: the collector records an order exactly when a path takes the
      second lock with the first held; instantiating orders at calls, and carrying
      accesses to callers, threads and calls, end, keep only what the functions' own
      facts lead to, and leave nothing to do; a call on a cycle moves no access; bare
      waits are reported exactly at the functions that owe the loop; a lock is recursive
      exactly by its type, a call or an attribute; building the facts of a unit ends, and
      building only those the selected rules ask for loses none of their findings.
    - Reports: a permutation in the stated order, numbered, with exact summaries.
    - Project: the index answers for the program; the result does not depend on
      the schedule and is that of a sequential reading; the merge keeps one
      finding per key and loses none; the gauge is a high-water mark and its loop
      ends.
    - Program: every command line ends with code 0, 1 or 2; code 0 of a project
      means that every command became a loaded unit; each command is reused,
      compiled or listed as failed; without the cache no file is touched.
    - Compiling: a result is a module or an error, never both; the in-place
      compactions are the list functions they mean to be; -O0 ends the arguments
      kept, and is the only level in a replayed command.
    - Database and cache: one command per source, the richest, found again under
      its file; keys separate commands; a store is found as long as its
      dependencies hash the same; dependency files round-trip.
    - Text: the compiler's messages, the JSON report and the options round-trip;
      documents repeat no member; SARIF describes each rule once.
    - Errors of the code: the order of accesses decides whether approximations are
      weighed down; the summary kept of a helper depends on the order of units; the
      merge can list a shared finding twice; failures are unsorted when no unit
      loads; a trailing output option swallows -O0, and an -Xclang pair can be
      split; fingerprints merge places; a cache hit survives bytes moved between
      dependencies, and a stopped store leaves new bitcode under the old stamp;
      selecting rules resets the bound on live units; line numbers wrap; a project
      with skipped units counts as complete; a function that guards its parameter
      is summarised as keeping the lock; a long number in a mangled name throws or
      keeps the classifier looping; a recursion that passes on the next thread
      handle keeps the lifecycle rounds going for ever; a wait in a function that calls
      itself is reported nowhere; a lock released on the way round a loop stays the gate
      of an order; the access of a thread is dropped for the copy of a direct call of
      its entry, and the race between them with it.

    ** What is not modelled, and the plan

    The walkers over LLVM IR that build the facts read classes and analyses of a
    library outside the repository; what they find in a function is the input here.
    Planned, in this order: the fixpoints of
    A/task_concurrency_analyzer.cpp and A/thread_completion_analysis.cpp over an
    abstract control-flow graph, and A/parameter_footprints.cpp.  The
    timing of loads and the ownership of LLVM objects are left out. *)

From Stdlib Require Export Ascii.
From stdpp Require Export strings gmap list sorting pretty fin_maps.

(** This file holds what the components share: string and ordered-container
    helpers standing for the parts of the C++ standard library the program
    uses, the interface of [std::sort], loops with an early exit, the hint
    database [coretrace] and the tactics of the development. *)

(** ** Strings *)

(** [std::string::starts_with]. *)
Definition starts_with (s prefix : string) : bool := String.prefix prefix s.

(** [std::string::operator<]: bytes compared as unsigned characters. *)
Definition str_lt (s t : string) : bool := String.ltb s t.

(** Every character satisfies [p]; the first one, if any, does not. *)
Fixpoint all_chars (p : ascii → bool) (s : string) : bool :=
  match s with "" => true | String c s' => p c && all_chars p s' end.

Definition head_not (p : ascii → bool) (s : string) : bool :=
  match s with "" => true | String c _ => negb (p c) end.

(** [std::isdigit] in the C locale. *)
Definition is_digit (c : ascii) : bool :=
  let n := N_of_ascii c in (48 <=? n)%N && (n <=? 57)%N.

(** The characters [std::to_string] writes a signed integer with. *)
Definition is_digit_or_dash (c : ascii) : bool := is_digit c || Ascii.eqb c "-".

(** Values written to a stream one after the other, [", "] between them. *)
Definition join_with (sep : string) (values : list string) : string :=
  String.concat sep values.

(** The helper that the data race checker and the lock order analyzer both
    declare with this body. *)
Definition joinValues (values : list string) : string := join_with ", " values.

(** ** Ordered containers

    A [std::map] keyed by strings is a [gmap]; iterating it visits the keys in
    increasing order.  A [std::set<std::string>] is a [gset], visited the same
    way.  An [unordered_map] or [unordered_set] is a [gmap] or [gset] too; the
    code tests membership in those or sorts what it reads, except where
    [HashOrder] below is used. *)

Definition key_le {A} (x y : string * A) : Prop := String.le x.1 y.1.

#[global] Instance key_le_dec {A} (x y : string * A) : Decision (key_le x y).
Proof. unfold key_le. apply _. Defined.

Definition map_items {A} (m : gmap string A) : list (string * A) :=
  merge_sort key_le (map_to_list m).

Definition sort_strings (l : list string) : list string := merge_sort String.le l.

Definition sorted_elements (X : gset string) : list string := sort_strings (elements X).

(** Iterating an [unordered_map] visits the entries in an order the standard
    leaves open.  Components whose code iterates one and could depend on that
    order are verified against this interface. *)
Class HashOrder := {
  hash_items : ∀ {A : Type}, gmap string A → list (string * A);
  hash_items_perm : ∀ {A} (m : gmap string A), hash_items m ≡ₚ map_to_list m;
}.

(** Some element of [X] is in [Y]: the [any_of]/[contains] idiom. *)
Definition intersects (X Y : gset string) : bool :=
  existsb (λ x, bool_decide (x ∈ Y)) (elements X).

(** ** [std::sort]

    The library function is unstable: elements the comparator does not tell
    apart come out in an unspecified order.  Components that sort records are
    verified against this interface, so their theorems hold for every
    conforming sort; [merge_std_sort] shows that there is one. *)

Class StrictWeakOrder {A} (lt : A → A → bool) : Prop := {
  swo_asym : ∀ x y, lt x y = true → lt y x = false;
  swo_cotrans : ∀ x y z, lt x z = true → lt x y = true ∨ lt y z = true;
}.

Class StdSort := {
  std_sort : ∀ {A : Type}, (A → A → bool) → list A → list A;
  std_sort_perm : ∀ {A} (lt : A → A → bool) `{!StrictWeakOrder lt} l,
    std_sort lt l ≡ₚ l;
  std_sort_sorted : ∀ {A} (lt : A → A → bool) `{!StrictWeakOrder lt} l,
    StronglySorted (λ x y, lt y x = false) (std_sort lt l);
}.

Definition not_after {A} (lt : A → A → bool) (x y : A) : Prop := lt y x = false.

#[global] Instance not_after_dec {A} (lt : A → A → bool) x y : Decision (not_after lt x y).
Proof. unfold not_after. apply _. Defined.

(** ** Comparison of tuples

    [std::tie(a, b) < std::tie(c, d)] compares the first components, then the
    others when neither is less. *)

Definition lt_then {A} (lt1 lt2 : A → A → bool) (x y : A) : bool :=
  lt1 x y || (negb (lt1 y x) && lt2 x y).

Definition lt_on {A B} (f : A → B) (lt : B → B → bool) (x y : A) : bool := lt (f x) (f y).

Definition N_lt (x y : N) : bool := (x <? y)%N.

(** ** Loops with an early exit

    [loop_while f l s] runs the body over [l]; [None] is a body that ran out
    of fuel, [false] one that asked to leave every enclosing loop. *)
Fixpoint loop_while {A S} (f : A → S → option (bool * S)) (l : list A) (s : S)
  : option (bool * S) :=
  match l with
  | [] => Some (true, s)
  | x :: l' =>
      match f x s with
      | None => None
      | Some (true, s') => loop_while f l' s'
      | Some (false, s') => Some (false, s')
      end
  end.

(** ** Automation *)

Create HintDb coretrace discriminated.

Ltac deex :=
  repeat match goal with
  | H : ∃ _, _ |- _ => destruct H
  | H : _ ∧ _ |- _ => destruct H
  end.

(** Turns boolean tests of the code into propositions. *)
Ltac breflect :=
  repeat match goal with
  | H : context [?b = true] |- _ => progress
      rewrite ?andb_true_iff, ?orb_true_iff, ?negb_true_iff, ?bool_decide_eq_true,
        ?bool_decide_eq_false in H
  | H : context [?b = false] |- _ => progress
      rewrite ?andb_false_iff, ?orb_false_iff, ?negb_false_iff, ?bool_decide_eq_true,
        ?bool_decide_eq_false in H
  end;
  rewrite ?andb_true_iff, ?orb_true_iff, ?negb_true_iff, ?bool_decide_eq_true,
    ?andb_false_iff, ?orb_false_iff, ?negb_false_iff, ?bool_decide_eq_false;
  deex.

(** ** Lemmas on strings *)

Lemma str_lt_spec s t : str_lt s t = true ↔ String.le s t ∧ s ≠ t.
Proof.
  unfold str_lt, String.ltb, String.le, String.leb.
  destruct (String.compare s t) eqn:E; simpl.
  - apply String.compare_eq_iff in E as ->. naive_solver.
  - split; [|done]. intros _. split; [done|]. intros ->.
    pose proof (String.compare_antisym t t) as H. by rewrite E in H.
  - naive_solver.
Qed.

Lemma str_lt_false s t : str_lt s t = false ↔ String.le t s.
Proof.
  rewrite <-not_true_iff_false, str_lt_spec. split.
  - intros H. destruct (total String.le s t) as [Hst|]; [|done].
    destruct (decide (s = t)) as [->|]; [done|]. naive_solver.
  - intros Hts [Hst Hne]. apply Hne, (anti_symm String.le); done.
Qed.

#[global] Instance str_lt_swo : StrictWeakOrder str_lt.
Proof.
  split.
  - intros x y [? ?]%str_lt_spec. by apply str_lt_false.
  - intros x y z Hxz. destruct (str_lt x y) eqn:Hxy; [by left|right].
    apply str_lt_false in Hxy. apply str_lt_spec in Hxz as [Hle Hne].
    apply str_lt_spec. split; [by etrans|].
    intros ->. apply Hne, (anti_symm String.le); done.
Qed.

Lemma str_lt_irrefl s : str_lt s s = false.
Proof. by apply str_lt_false. Qed.

Lemma str_lt_trans s t u : str_lt s t = true → str_lt t u = true → str_lt s u = true.
Proof.
  rewrite !str_lt_spec. intros [Hst Hne] [Htu Hne']. split; [by etrans|].
  intros ->. apply Hne, (anti_symm String.le); done.
Qed.

Lemma str_lt_trichotomy s t : str_lt s t = true ∨ s = t ∨ str_lt t s = true.
Proof.
  destruct (str_lt s t) eqn:E; [by left|right].
  apply str_lt_false in E. destruct (decide (s = t)) as [|]; [by left|right].
  apply str_lt_spec. naive_solver.
Qed.

Lemma append_assoc (s t u : string) : (s +:+ t) +:+ u = s +:+ (t +:+ u).
Proof. induction s as [|c s IH]; [done|]. change (String c ((s +:+ t) +:+ u) = String c (s +:+ (t +:+ u))). by rewrite IH. Qed.

Lemma append_nil_r (s : string) : s +:+ "" = s.
Proof. induction s as [|c s IH]; [done|]. change (String c (s +:+ "") = String c s). by rewrite IH. Qed.

Lemma all_chars_app p s t : all_chars p (s +:+ t) = all_chars p s && all_chars p t.
Proof.
  induction s as [|c s IH]; [done|].
  change (p c && all_chars p (s +:+ t) = (p c && all_chars p s) && all_chars p t).
  by rewrite IH, andb_assoc.
Qed.

Lemma all_chars_mono (p q : ascii → bool) s :
  (∀ c, p c = true → q c = true) → all_chars p s = true → all_chars q s = true.
Proof. intros H. induction s as [|c s IH]; [done|]. simpl. rewrite !andb_true_iff. naive_solver. Qed.

(** A text is cut in one way only into a longest run of [p] and the rest. *)
Lemma span_unique p s1 r1 s2 r2 :
  all_chars p s1 = true → all_chars p s2 = true →
  head_not p r1 = true → head_not p r2 = true →
  s1 +:+ r1 = s2 +:+ r2 → s1 = s2 ∧ r1 = r2.
Proof.
  revert s2. induction s1 as [|c s1 IH]; intros [|d s2] H1 H2 Hr1 Hr2 E.
  - done.
  - change (r1 = String d (s2 +:+ r2)) in E. subst r1. simpl in *.
    rewrite andb_true_iff in H2. destruct H2 as [H2 _]. by rewrite H2 in Hr1.
  - change (String c (s1 +:+ r1) = r2) in E. subst r2. simpl in *.
    rewrite andb_true_iff in H1. destruct H1 as [H1 _]. by rewrite H1 in Hr2.
  - change (String c (s1 +:+ r1) = String d (s2 +:+ r2)) in E. injection E as -> E.
    simpl in *. rewrite andb_true_iff in H1, H2.
    destruct H1 as [_ H1], H2 as [_ H2].
    destruct (IH s2 H1 H2 Hr1 Hr2 E) as [-> ->]. done.
Qed.

Lemma pretty_N_digits (n : N) : all_chars is_digit (pretty n) = true.
Proof.
  assert (∀ x s, all_chars is_digit s = true → all_chars is_digit (pretty_N_go x s) = true) as Hgo.
  { intros x. induction (N.lt_wf_0 x) as [x _ IH]; intros s Hs.
    assert (x = 0 ∨ 0 < x)%N as [->|Hx] by lia; [by rewrite pretty_N_go_0|].
    rewrite pretty_N_go_step by done. apply IH; [by apply N.div_lt|].
    simpl. rewrite Hs, andb_true_r. unfold pretty_N_char. by repeat case_match. }
  unfold pretty, pretty_N. case_decide; [done|]. by apply Hgo.
Qed.

Lemma pretty_Z_digits (z : Z) : all_chars is_digit_or_dash (pretty z) = true.
Proof.
  assert (∀ p : positive, all_chars is_digit_or_dash (pretty p) = true) as Hp.
  { intros p. apply (all_chars_mono is_digit); [|apply pretty_N_digits].
    intros c Hc. unfold is_digit_or_dash. by rewrite Hc. }
  destruct z; [done|apply Hp|]. apply (Hp p).
Qed.

(** Two numbers printed in front of a separator are read back uniquely. *)
Lemma pretty_Z_span (z z' : Z) r r' :
  head_not is_digit_or_dash r = true → head_not is_digit_or_dash r' = true →
  pretty z +:+ r = pretty z' +:+ r' → z = z' ∧ r = r'.
Proof.
  intros Hr Hr' E. apply (span_unique is_digit_or_dash) in E as [E ->]; auto using pretty_Z_digits.
  split; [|done]. by apply (inj pretty) in E.
Qed.

Lemma pretty_N_span (n n' : N) r r' :
  head_not is_digit r = true → head_not is_digit r' = true →
  pretty n +:+ r = pretty n' +:+ r' → n = n' ∧ r = r'.
Proof.
  intros Hr Hr' E. apply (span_unique is_digit) in E as [E ->]; auto using pretty_N_digits.
  split; [|done]. by apply (inj pretty) in E.
Qed.

(** ** Lemmas on ordered containers *)

#[global] Instance key_le_trans {A} : Transitive (@key_le A).
Proof. intros x y z. unfold key_le. apply transitivity. Qed.

#[global] Instance key_le_total {A} : Total (@key_le A).
Proof. intros x y. unfold key_le. apply total, _. Qed.

Lemma elem_of_map_items {A} (m : gmap string A) k v : (k, v) ∈ map_items m ↔ m !! k = Some v.
Proof. unfold map_items. by rewrite merge_sort_Permutation, elem_of_map_to_list. Qed.

(** Visiting the keys in increasing order is one such order. *)
Definition sorted_hash_order : HashOrder := {|
  hash_items A m := map_items m;
  hash_items_perm A m := merge_sort_Permutation key_le (map_to_list m);
|}.

Lemma elem_of_hash_items `{!HashOrder} {A} (m : gmap string A) k v :
  (k, v) ∈ hash_items m ↔ m !! k = Some v.
Proof. by rewrite hash_items_perm, elem_of_map_to_list. Qed.

Lemma NoDup_map_items_fst {A} (m : gmap string A) : NoDup (map_items m).*1.
Proof. unfold map_items. rewrite merge_sort_Permutation. apply NoDup_fst_map_to_list. Qed.

Lemma map_items_nil {A} (m : gmap string A) : map_items m = [] ↔ m = ∅.
Proof.
  unfold map_items. split.
  - intros H. apply map_to_list_empty_iff. apply Permutation_nil.
    rewrite <-H. apply merge_sort_Permutation.
  - intros ->. rewrite map_to_list_empty. done.
Qed.

Lemma map_items_sorted {A} (m : gmap string A) : StronglySorted String.le (map_items m).*1.
Proof.
  apply (StronglySorted_fmap fst key_le String.le); [done|].
  apply (StronglySorted_merge_sort key_le).
Qed.

Lemma sort_strings_perm l : sort_strings l ≡ₚ l.
Proof. apply merge_sort_Permutation. Qed.

Lemma sort_strings_sorted l : StronglySorted String.le (sort_strings l).
Proof. apply (StronglySorted_merge_sort String.le). Qed.

Lemma sort_strings_unique l l' :
  l' ≡ₚ l → StronglySorted String.le l' → l' = sort_strings l.
Proof.
  intros Hp Hs. eapply (StronglySorted_unique String.le); [done|apply sort_strings_sorted|].
  by rewrite sort_strings_perm.
Qed.

Lemma elem_of_sorted_elements (X : gset string) x : x ∈ sorted_elements X ↔ x ∈ X.
Proof. unfold sorted_elements. by rewrite sort_strings_perm, elem_of_elements. Qed.

Lemma sorted_elements_NoDup (X : gset string) : NoDup (sorted_elements X).
Proof. unfold sorted_elements. rewrite sort_strings_perm. apply NoDup_elements. Qed.

Lemma sorted_elements_inj (X Y : gset string) : sorted_elements X = sorted_elements Y → X = Y.
Proof.
  intros H. apply set_eq. intros x. rewrite <-!elem_of_sorted_elements. by rewrite H.
Qed.

Lemma sorted_elements_nil (X : gset string) : sorted_elements X = [] ↔ X = ∅.
Proof.
  split; [|intros ->; done].
  intros H. apply set_eq. intros x. rewrite <-elem_of_sorted_elements, H. set_solver.
Qed.

Lemma intersects_spec X Y : intersects X Y = true ↔ ∃ x, x ∈ X ∧ x ∈ Y.
Proof.
  unfold intersects. rewrite existsb_exists. split.
  - intros (x & Hx & Hy%bool_decide_eq_true). exists x. split; [|done].
    by apply elem_of_elements, list_elem_of_In.
  - intros (x & Hx & Hy). exists x. split; [|by apply bool_decide_eq_true].
    by apply list_elem_of_In, elem_of_elements.
Qed.

Lemma intersects_comm X Y : intersects X Y = intersects Y X.
Proof. apply eq_bool_prop_intro. rewrite !Is_true_true, !intersects_spec. naive_solver. Qed.

Lemma existsb_elem {A} (f : A → bool) l : existsb f l = true ↔ ∃ x, x ∈ l ∧ f x = true.
Proof. rewrite existsb_exists. by setoid_rewrite list_elem_of_In. Qed.

Lemma existsb_elem_false {A} (f : A → bool) l : existsb f l = false ↔ ∀ x, x ∈ l → f x = false.
Proof.
  rewrite <-not_true_iff_false, existsb_elem. split.
  - intros H x Hx. apply not_true_iff_false. naive_solver.
  - intros H (x & Hx & Hf). rewrite H in Hf; done.
Qed.

Lemma forallb_elem {A} (f : A → bool) l : forallb f l = true ↔ ∀ x, x ∈ l → f x = true.
Proof. rewrite forallb_forall. by setoid_rewrite list_elem_of_In. Qed.

Lemma filter_all {A} (P : A → Prop) `{!∀ x, Decision (P x)} (l : list A) : Forall P l → filter P l = l.
Proof. induction 1 as [|x l Hx Hl IH]; [done|]. rewrite filter_cons, decide_True, IH; done. Qed.

Lemma elem_of_filter_bool {A} (f : A → bool) l x : x ∈ List.filter f l ↔ x ∈ l ∧ f x = true.
Proof. rewrite !list_elem_of_In, List.filter_In. done. Qed.

(** Lists consumed one or two elements at a time. *)
Lemma list_pair_ind {A} (P : list A → Prop) :
  P [] → (∀ x l, P l → (∀ y l', l = y :: l' → P l') → P (x :: l)) → ∀ l, P l.
Proof.
  intros H0 Hstep l. enough (P l ∧ ∀ x, P (x :: l)) as [? _] by done.
  induction l as [|y l [IH1 IH2]].
  - split; [done|]. intros x. apply Hstep; [done|]. by intros y l'.
  - split; [apply IH2|]. intros x. apply Hstep; [apply IH2|]. by intros y' l' [= <- <-].
Qed.

(** A guard that leaves with [false]: the [continue] idiom. *)
Lemma guard_spec (b c : bool) : (if b then false else c) = true ↔ b = false ∧ c = true.
Proof. destruct b; intuition congruence. Qed.

Lemma guard_none {A} (b : bool) (x : option A) y :
  (if b then None else x) = Some y ↔ b = false ∧ x = Some y.
Proof. destruct b; intuition congruence. Qed.

(** ** Comparison of tuples is a strict weak order *)

#[global] Instance lt_then_swo {A} (lt1 lt2 : A → A → bool) :
  StrictWeakOrder lt1 → StrictWeakOrder lt2 → StrictWeakOrder (lt_then lt1 lt2).
Proof.
  intros [A1 C1] [A2 C2]. unfold lt_then. split.
  - intros x y. destruct (lt1 x y) eqn:E1; simpl.
    + intros _. by rewrite (A1 _ _ E1).
    + destruct (lt1 y x); simpl; [done|]. apply A2.
  - intros x y z. pose proof (C1 x y z). pose proof (C1 y z x). pose proof (C1 z x y).
    pose proof (C2 x y z). pose proof (eq_refl true). assert (false ≠ true) by done.
    destruct (lt1 x z), (lt1 z x), (lt1 x y), (lt1 y x), (lt1 y z), (lt1 z y); simpl in *; tauto.
Qed.

#[global] Instance lt_on_swo {A B} (f : A → B) lt : StrictWeakOrder lt → StrictWeakOrder (lt_on f lt).
Proof. intros [H1 H2]. unfold lt_on. split; eauto. Qed.

#[global] Instance N_lt_swo : StrictWeakOrder N_lt.
Proof.
  unfold N_lt. split; intros *; rewrite ?N.ltb_lt, ?N.ltb_ge; lia.
Qed.

(** ** [std::sort] exists *)

Section merge_std_sort.
Context {A : Type} (lt : A → A → bool) `{!StrictWeakOrder lt}.

#[local] Instance not_after_total : Total (not_after lt).
Proof.
  intros x y. unfold not_after. destruct (lt y x) eqn:E; [|by left].
  right. by apply swo_asym.
Qed.

#[local] Instance not_after_trans : Transitive (not_after lt).
Proof.
  intros x y z. unfold not_after. intros Hxy Hyz.
  destruct (lt z x) eqn:E; [|done]. destruct (swo_cotrans z y x E); congruence.
Qed.

Lemma merge_sort_not_after_sorted l : StronglySorted (not_after lt) (merge_sort (not_after lt) l).
Proof. apply (StronglySorted_merge_sort (not_after lt)). Qed.
End merge_std_sort.

Definition merge_std_sort : StdSort := {|
  std_sort A lt l := merge_sort (not_after lt) l;
  std_sort_perm A lt _ l := merge_sort_Permutation (not_after lt) l;
  std_sort_sorted A lt H l := @merge_sort_not_after_sorted A lt H l;
|}.

(** ** Loops *)

Lemma loop_while_inv {A S} (I : S → Prop) (f : A → S → option (bool * S)) l s b s' :
  (∀ x s b s', x ∈ l → I s → f x s = Some (b, s') → I s') →
  I s → loop_while f l s = Some (b, s') → I s'.
Proof.
  revert s. induction l as [|x l IH]; intros s Hstep Hs H; simplify_eq/=; [done|].
  destruct (f x s) as [[[] s1]|] eqn:E; simplify_eq/=.
  - eapply (IH s1); [|eapply Hstep; [left|done|done]|done].
    intros y ?? ? Hy. apply Hstep. by right.
  - eapply Hstep; [left|done|done].
Qed.

(** A loop that ran to its end visited every element, from a state later than its
    first one and earlier than its last. *)
Lemma loop_while_visits {A S} (R : relation S) `{!PreOrder R} (f : A → S → option (bool * S))
    l s s' x :
  (∀ x s b s', x ∈ l → f x s = Some (b, s') → R s s') →
  loop_while f l s = Some (true, s') → x ∈ l →
  ∃ s1 s2, f x s1 = Some (true, s2) ∧ R s2 s'.
Proof.
  revert s. induction l as [|y l IH]; intros s Hstep H Hx; [by apply elem_of_nil in Hx|].
  simpl in H. destruct (f y s) as [[[] s1]|] eqn:E; [|done..].
  assert (∀ x s b s', x ∈ l → f x s = Some (b, s') → R s s') as Hstep'.
  { intros z ????. apply Hstep. by right. }
  apply elem_of_cons in Hx as [->|Hx]; [|by eapply IH].
  exists s, s1. split; [done|].
  apply (loop_while_inv (λ s2, R s1 s2) f l s1 true); [|reflexivity|done].
  intros z s2 b s3 Hz H12 H23. etrans; [done|]. by eapply Hstep'.
Qed.

Lemma loop_while_total {A S} (I : S → Prop) (f : A → S → option (bool * S)) l s :
  (∀ x s, x ∈ l → I s → ∃ b s', f x s = Some (b, s') ∧ I s') →
  I s → ∃ b s', loop_while f l s = Some (b, s') ∧ I s'.
Proof.
  revert s. induction l as [|x l IH]; intros s Hstep Hs; simpl; [eauto|].
  destruct (Hstep x s) as ([] & s1 & -> & Hs1); [by left|done| |eauto].
  apply IH; [|done]. intros y ? Hy. apply Hstep. by right.
Qed.

Lemma foldl_inv {A B} (I : B → Prop) (f : B → A → B) l b :
  I b → (∀ b a, a ∈ l → I b → I (f b a)) → I (foldl f b l).
Proof.
  revert b. induction l as [|a l IH]; intros b Hb Hf; simpl; [done|].
  apply IH; [apply Hf; [left|done]|]. intros b' a' Ha'. apply Hf. by right.
Qed.

#[export] Hint Resolve str_lt_irrefl str_lt_trans sorted_elements_NoDup : coretrace.
#[export] Hint Rewrite @elem_of_map_items elem_of_sorted_elements : coretrace.
