(* ===== verification/Text.v ===== *)
(** Text handling shared by the parsers of the program: the character classes of
    the C locale, cutting a text at a character ([find] and [substr]), trimming,
    reading decimal digits into a machine word, and the lemmas the round trips
    of the parsers rest on. *)

From S2P Require Import Prelude.

(** ** Operations *)

(** [std::isspace] in the C locale: space, and tab to carriage return. *)
Definition is_space (c : ascii) : bool :=
  let n := N_of_ascii c in (n =? 32)%N || ((9 <=? n)%N && (n <=? 13)%N).

Definition newline : ascii := "010".

(** The text before the first [c], and the text after it. *)
Fixpoint cut (c : ascii) (s : string) : option (string * string) :=
  match s with
  | "" => None
  | String d s' =>
      if Ascii.eqb d c then Some ("", s')
      else match cut c s' with
           | Some (before, after) => Some (String d before, after)
           | None => None
           end
  end.

(** The longest prefix of characters in [p] and the rest. *)
Fixpoint skip_while (p : ascii → bool) (s : string) : string :=
  match s with
  | "" => ""
  | String c s' => if p c then skip_while p s' else s
  end.

(** The text without its longest suffix of characters in [p]. *)
Fixpoint drop_suffix_while (p : ascii → bool) (s : string) : string :=
  match s with
  | "" => ""
  | String c s' =>
      match drop_suffix_while p s' with
      | "" => if p c then "" else String c ""
      | rest => String c rest
      end
  end.

(** A character is not [c]. *)
Definition other_than (c d : ascii) : bool := negb (Ascii.eqb d c).

(** The value of a digit: [ch - '0']. *)
Definition digit_value (c : ascii) : N := (N_of_ascii c - 48)%N.

(** Digits read in base ten, without a bound. *)
Fixpoint decimal_value (acc : N) (s : string) : N :=
  match s with
  | "" => acc
  | String c s' => decimal_value (acc * 10 + digit_value c)%N s'
  end.

(** The value of a [w]-bit unsigned integer after wrap-around. *)
Definition wrap (w : N) (n : N) : N := (n mod 2 ^ w)%N.

(** The last character of a non-empty text is not in [p]. *)
Fixpoint last_not (p : ascii → bool) (s : string) : bool :=
  match s with
  | "" => true
  | String c "" => negb (p c)
  | String _ s' => last_not p s'
  end.

(** A text that starts and ends with no character in [p]: [trim] keeps it. *)
Definition trimmed (s : string) : bool := head_not is_space s && last_not is_space s.

(** The text occurs in [s]. *)
Fixpoint contains (s text : string) : bool :=
  starts_with s text || match s with "" => false | String _ s' => contains s' text end.

(** The digits a string starts with, and what follows them. *)
Fixpoint span_digits (s : string) : string * string :=
  match s with
  | "" => ("", "")
  | String c rest =>
      if is_digit c then let '(digits, rest') := span_digits rest in (String c digits, rest')
      else ("", s)
  end.

(** [substr(n)], for [n] up to the length. *)
Fixpoint drop_prefix (n : nat) (s : string) : string :=
  match n, s with
  | O, _ => s
  | S _, "" => ""
  | S n, String _ s' => drop_prefix n s'
  end.

(** [x ←! r; k]: leaves with the error of [r]. *)
Definition bind_ok {A B E} (r : A + E) (k : A → B + E) : B + E :=
  match r with inl a => k a | inr e => inr e end.
Notation "x ←! r ; k" := (bind_ok r (λ x, k)) (at level 20, r at level 100, k at level 200,
  right associativity, only parsing) : stdpp_scope.

(** ** Lemmas on texts *)

Lemma append_cons c (s t : string) : String c s +:+ t = String c (s +:+ t).
Proof. reflexivity. Qed.

Lemma string_length_app (s t : string) : String.length (s +:+ t) = String.length s + String.length t.
Proof. induction s as [|c s IH]; [done|]. rewrite append_cons. cbn. by rewrite IH. Qed.

Lemma append_eq_empty (s t : string) : s +:+ t = "" ↔ s = "" ∧ t = "".
Proof. destruct s; split; [done|naive_solver| |]; intros H; [discriminate H|destruct H; done]. Qed.

Lemma append_inj_l (s t u : string) : s +:+ t = s +:+ u → t = u.
Proof. induction s as [|c s IH]; [done|]. rewrite !append_cons. intros H. injection H. exact IH. Qed.

Lemma cut_app c s t : all_chars (other_than c) s = true → cut c (s +:+ String c t) = Some (s, t).
Proof.
  induction s as [|d s IH].
  - intros _. change (cut c (String c t) = Some ("", t)). simpl. by rewrite Ascii.eqb_refl.
  - rewrite append_cons. simpl. rewrite andb_true_iff. intros [Hd Hs].
    unfold other_than in Hd. apply negb_true_iff in Hd. rewrite Hd, IH; done.
Qed.

Lemma cut_None c s : cut c s = None ↔ all_chars (other_than c) s = true.
Proof.
  induction s as [|d s IH]; [done|]. simpl. unfold other_than at 1.
  destruct (Ascii.eqb d c); simpl; [done|]. rewrite <-IH.
  destruct (cut c s) as [[??]|]; done.
Qed.

Lemma cut_Some c s a b :
  cut c s = Some (a, b) → s = a +:+ String c b ∧ all_chars (other_than c) a = true.
Proof.
  revert a. induction s as [|d s IH]; intros a; simpl; [done|].
  destruct (Ascii.eqb d c) eqn:E.
  - intros [= <- <-]. apply Ascii.eqb_eq in E as ->. done.
  - destruct (cut c s) as [[a' b']|] eqn:Ec; [|done]. intros [= <- <-].
    destruct (IH a' eq_refl) as [-> Ha]. split; [done|].
    simpl. rewrite Ha. unfold other_than. by rewrite E.
Qed.

Lemma skip_while_head p s : head_not p (skip_while p s) = true.
Proof. induction s as [|c s IH]; simpl; [done|]. destruct (p c) eqn:E; simpl; [done|by rewrite E]. Qed.

Lemma skip_while_id p s : head_not p s = true → skip_while p s = s.
Proof. destruct s as [|c s]; simpl; [done|]. by destruct (p c). Qed.

Lemma skip_while_app p s t : all_chars p s = true → skip_while p (s +:+ t) = skip_while p t.
Proof.
  induction s as [|c s IH]; [done|]. rewrite append_cons. simpl.
  rewrite andb_true_iff. intros [-> Hs]. auto.
Qed.

Lemma drop_suffix_while_nil p s : drop_suffix_while p s = "" ↔ all_chars p s = true.
Proof.
  induction s as [|c s IH]; simpl; [done|].
  destruct (drop_suffix_while p s) eqn:E.
  - assert (all_chars p s = true) as -> by (by apply IH). destruct (p c); done.
  - split; [done|]. rewrite andb_true_iff. intros [_ H%IH]. done.
Qed.

Lemma drop_suffix_while_last p s : last_not p (drop_suffix_while p s) = true.
Proof.
  induction s as [|c s IH]; simpl; [done|].
  destruct (drop_suffix_while p s) eqn:E; [|done].
  destruct (p c) eqn:Ec; simpl; [done|by rewrite Ec].
Qed.

Lemma drop_suffix_while_id p s : last_not p s = true → drop_suffix_while p s = s.
Proof.
  induction s as [|c s IH]; [done|]. intros H. simpl. destruct s as [|d s].
  - simpl in *. by destruct (p c).
  - rewrite IH by exact H. done.
Qed.

Lemma last_not_app p s t : t ≠ "" → last_not p (s +:+ t) = last_not p t.
Proof.
  intros Ht. induction s as [|c s IH]; [done|]. rewrite append_cons, <-IH. simpl.
  destruct (s +:+ t) eqn:E; [|done]. by apply append_eq_empty in E as [_ ->].
Qed.

Lemma head_not_app p s t : s ≠ "" → head_not p (s +:+ t) = head_not p s.
Proof. by destruct s. Qed.

Lemma digit_not_space c : is_digit c = true → is_space c = false.
Proof.
  unfold is_digit, is_space. rewrite andb_true_iff, !N.leb_le. intros [H1 H2].
  rewrite orb_false_iff, andb_false_iff, N.eqb_neq, !N.leb_gt. lia.
Qed.

Lemma digit_other_than c d : is_digit d = false → is_digit c = true → other_than d c = true.
Proof. intros Hd Hc. unfold other_than. destruct (Ascii.eqb_spec c d); [congruence|done]. Qed.

Lemma starts_with_cons c s d prefix :
  starts_with (String c s) (String d prefix) = Ascii.eqb c d && starts_with s prefix.
Proof.
  unfold starts_with. cbn [String.prefix]. destruct (ascii_dec d c) as [->|Hne].
  - by rewrite Ascii.eqb_refl.
  - rewrite (proj2 (Ascii.eqb_neq c d)) by done. done.
Qed.

Lemma starts_with_nil s : starts_with s "" = true.
Proof. by destruct s. Qed.

Lemma starts_with_app prefix s : starts_with (prefix +:+ s) prefix = true.
Proof.
  induction prefix as [|c prefix IH]; [apply starts_with_nil|].
  by rewrite append_cons, starts_with_cons, Ascii.eqb_refl.
Qed.

Lemma drop_prefix_app pre s : drop_prefix (String.length pre) (pre +:+ s) = s.
Proof. induction pre as [|c pre IH]; [by destruct s|]. by rewrite append_cons. Qed.

(** ** Decimal numbers *)

Lemma decimal_value_app acc s t : decimal_value acc (s +:+ t) = decimal_value (decimal_value acc s) t.
Proof. revert acc. induction s as [|c s IH]; intros acc; [done|]. rewrite append_cons. apply IH. Qed.

Lemma decimal_value_wrap w acc s : wrap w (decimal_value (wrap w acc) s) = wrap w (decimal_value acc s).
Proof.
  unfold wrap. assert (2 ^ w ≠ 0)%N as Hw by (apply N.pow_nonzero; done).
  revert acc. induction s as [|c s IH]; intros acc; simpl.
  - by apply N.Div0.mod_mod.
  - rewrite <-(IH (acc mod 2 ^ w * 10 + _)%N), <-(IH (acc * 10 + _)%N). do 2 f_equal.
    rewrite <-(N.Div0.add_mod_idemp_l (_ mod _ * 10)), <-(N.Div0.add_mod_idemp_l (acc * 10)).
    by rewrite N.Div0.mul_mod_idemp_l.
Qed.

Lemma pretty_N_char_value x : (x < 10)%N → digit_value (pretty_N_char x) = x.
Proof.
  intros H. unfold digit_value, pretty_N_char.
  destruct (decide (x = 0 ∨ x = 1 ∨ x = 2 ∨ x = 3 ∨ x = 4 ∨ x = 5 ∨ x = 6 ∨ x = 7 ∨ x = 8 ∨ x = 9)%N)
    as [Hx|Hx]; [|lia]. by destruct_or! Hx; subst x.
Qed.

(** Reading back the digits [std::to_string] writes. *)
Lemma decimal_value_pretty (n : N) : decimal_value 0 (pretty n) = n.
Proof.
  assert (∀ x s, decimal_value 0 (pretty_N_go x s) = decimal_value x s) as Hgo.
  { intros x. induction (N.lt_wf_0 x) as [x _ IH]; intros s.
    assert (x = 0 ∨ 0 < x)%N as [->|Hx] by lia; [by rewrite pretty_N_go_0|].
    rewrite pretty_N_go_step by done. rewrite IH by (by apply N.div_lt). simpl.
    rewrite pretty_N_char_value by (by apply N.mod_lt). f_equal.
    rewrite (N.div_mod x 10) at 3 by done. lia. }
  unfold pretty, pretty_N. case_decide; [by subst|]. by rewrite Hgo.
Qed.

Lemma pretty_N_nonempty (n : N) : pretty n ≠ "".
Proof.
  intros H. pose proof (decimal_value_pretty n) as E. rewrite H in E. simpl in E. subst n.
  discriminate H.
Qed.

#[export] Hint Rewrite append_cons append_assoc : text.

(** ** Digits at the start of a text *)

Lemma span_digits_app digits s :
  all_chars is_digit digits = true → head_not is_digit s = true →
  span_digits (digits +:+ s) = (digits, s).
Proof.
  intros Hd Hs. induction digits as [|c digits IH].
  - destruct s as [|c s]; [done|]. cbn [head_not] in Hs. apply negb_true_iff in Hs. 
    change (span_digits (String c s) = ("", String c s)). cbn [span_digits]. by rewrite Hs.
  - rewrite append_cons. cbn [span_digits]. cbn [all_chars] in Hd. apply andb_true_iff in Hd as [Hc Hd]. by rewrite Hc, IH.
Qed.

Lemma span_digits_none s : head_not is_digit s = true → span_digits s = ("", s).
Proof. apply (span_digits_app ""). done. Qed.

Lemma span_digits_spec s digits rest :
  span_digits s = (digits, rest) → s = digits +:+ rest ∧ all_chars is_digit digits = true.
Proof.
  revert digits rest. induction s as [|c s IH]; intros digits rest; cbn [span_digits].
  { by intros [= <- <-]. }
  destruct (is_digit c) eqn:Ec; [|by intros [= <- <-]].
  destruct (span_digits s) as [d r]. intros [= <- <-]. destruct (IH d r eq_refl) as [-> Hd].
  rewrite append_cons. cbn [all_chars]. by rewrite Ec, Hd.
Qed.

Lemma span_digits_all digits : all_chars is_digit digits = true → span_digits digits = (digits, "").
Proof. intros Hd. by rewrite <- (append_nil_r digits) at 1; apply span_digits_app. Qed.

(** ** Pieces between separators *)

(** The pieces of a text between the occurrences of [c]; at least one. *)
Fixpoint split_on (c : ascii) (s : string) : list string :=
  match s with
  | "" => [""]
  | String d s' =>
      if Ascii.eqb d c then "" :: split_on c s'
      else match split_on c s' with
           | [] => [String d ""]
           | word :: words => String d word :: words
           end
  end.

Lemma split_on_app c word rest :
  all_chars (other_than c) word = true →
  split_on c (word +:+ String c rest) = word :: split_on c rest.
Proof.
  induction word as [|d word IH].
  - intros _. change (split_on c (String c rest) = "" :: split_on c rest). simpl.
    by rewrite Ascii.eqb_refl.
  - rewrite append_cons. simpl. rewrite andb_true_iff. intros [Hd Hw].
    unfold other_than in Hd. apply negb_true_iff in Hd. by rewrite Hd, IH.
Qed.

Lemma split_on_single c word : all_chars (other_than c) word = true → split_on c word = [word].
Proof.
  induction word as [|d word IH]; [done|]. simpl. rewrite andb_true_iff. intros [Hd Hw].
  unfold other_than in Hd. apply negb_true_iff in Hd. by rewrite Hd, IH.
Qed.

Lemma concat_cons sep word words :
  words ≠ [] → String.concat sep (word :: words) = word +:+ sep +:+ String.concat sep words.
Proof. by destruct words. Qed.

Lemma split_on_concat c words :
  words ≠ [] → Forall (λ w, all_chars (other_than c) w = true) words →
  split_on c (String.concat (String c "") words) = words.
Proof.
  intros Hne Hws. induction Hws as [|w words Hw Hws IH]; [done|].
  destruct words as [|w' words]; [by apply split_on_single|].
  rewrite concat_cons by done.
  change (String c "" +:+ ?x) with (String c x).
  rewrite split_on_app by done. by rewrite IH.
Qed.

Lemma split_on_pieces c s : Forall (λ w, all_chars (other_than c) w = true) (split_on c s).
Proof.
  induction s as [|d s IH]; simpl; [by repeat constructor|].
  destruct (Ascii.eqb d c) eqn:E; [by constructor|].
  destruct (split_on c s) as [|w ws]; [by repeat constructor; simpl; unfold other_than; rewrite E|].
  apply Forall_cons in IH as [Hw Hws]. constructor; [|done]. simpl. unfold other_than at 1. by rewrite E.
Qed.

(** ** Lines *)

(** The pieces between newlines; no piece follows a newline at the very end. *)
Fixpoint linesOf (text : string) : list string :=
  match text with
  | "" => []
  | String c rest =>
      if Ascii.eqb c newline then "" :: linesOf rest
      else match linesOf rest with
           | [] => [String c ""]
           | line :: lines => String c line :: lines
           end
  end.

Lemma linesOf_app line rest :
  all_chars (other_than newline) line = true →
  linesOf (line +:+ String newline rest) = line :: linesOf rest.
Proof.
  induction line as [|c line IH]; [done|]. rewrite append_cons. simpl.
  rewrite andb_true_iff. intros [Hc Hl]. unfold other_than in Hc. apply negb_true_iff in Hc.
  by rewrite Hc, IH.
Qed.

(** Lines, each ended by a newline. *)
Fixpoint unlines (lines : list string) : string :=
  match lines with
  | [] => ""
  | line :: rest => line +:+ String newline (unlines rest)
  end.

Lemma linesOf_unlines lines :
  Forall (λ l, all_chars (other_than newline) l = true) lines → linesOf (unlines lines) = lines.
Proof.
  induction 1 as [|l lines Hl Hls IH]; [done|]. simpl. rewrite linesOf_app by done. by rewrite IH.
Qed.
