(* ===== verification/Errors.v ===== *)
(** Errors of the compilation pipeline: the phases, the error codes, their
    texts and [formatCompileError]
    (include/coretrace_concurrency_error.hpp, src/coretrace_concurrency_error.cpp). *)

From S2P Require Import Prelude.

Inductive CompilePhase :=
| CompilePhase_None
| CompilePhase_ValidateInput
| CompilePhase_BuildCommand
| CompilePhase_BackendCompile
| CompilePhase_IRParse.

Inductive CompileErrc :=
| CompileErrc_Success
| CompileErrc_InvalidRequest
| CompileErrc_InputFileAccessFailed
| CompileErrc_InputFileDoesNotExist
| CompileErrc_InputFileNotRegular
| CompileErrc_InputFileNotReadable
| CompileErrc_TemporaryBitcodeFileCreationFailed
| CompileErrc_BackendCompilationFailed
| CompileErrc_MissingIROutput
| CompileErrc_BitcodeReadFailed
| CompileErrc_IRParseFailed
| CompileErrc_BitcodeParseFailed.

#[global] Instance CompilePhase_eq_dec : EqDecision CompilePhase.
Proof. solve_decision. Defined.
#[global] Instance CompileErrc_eq_dec : EqDecision CompileErrc.
Proof. solve_decision. Defined.

(** The underlying integers of the enumeration, in declaration order. *)
Definition errc_value (e : CompileErrc) : Z :=
  match e with
  | CompileErrc_Success => 0
  | CompileErrc_InvalidRequest => 1
  | CompileErrc_InputFileAccessFailed => 2
  | CompileErrc_InputFileDoesNotExist => 3
  | CompileErrc_InputFileNotRegular => 4
  | CompileErrc_InputFileNotReadable => 5
  | CompileErrc_TemporaryBitcodeFileCreationFailed => 6
  | CompileErrc_BackendCompilationFailed => 7
  | CompileErrc_MissingIROutput => 8
  | CompileErrc_BitcodeReadFailed => 9
  | CompileErrc_IRParseFailed => 10
  | CompileErrc_BitcodeParseFailed => 11
  end.

(** The enumerator with a given value; a cast of any other integer names none. *)
Definition errc_of_value (v : Z) : option CompileErrc :=
  match v with
  | 0 => Some CompileErrc_Success
  | 1 => Some CompileErrc_InvalidRequest
  | 2 => Some CompileErrc_InputFileAccessFailed
  | 3 => Some CompileErrc_InputFileDoesNotExist
  | 4 => Some CompileErrc_InputFileNotRegular
  | 5 => Some CompileErrc_InputFileNotReadable
  | 6 => Some CompileErrc_TemporaryBitcodeFileCreationFailed
  | 7 => Some CompileErrc_BackendCompilationFailed
  | 8 => Some CompileErrc_MissingIROutput
  | 9 => Some CompileErrc_BitcodeReadFailed
  | 10 => Some CompileErrc_IRParseFailed
  | 11 => Some CompileErrc_BitcodeParseFailed
  | _ => None
  end%Z.

(** [CompileErrorCategory::message]. *)
Definition CompileErrorCategory_message (condition : Z) : string :=
  match errc_of_value condition with
  | Some CompileErrc_Success => "success"
  | Some CompileErrc_InvalidRequest => "invalid compile request"
  | Some CompileErrc_InputFileAccessFailed => "failed to access input file"
  | Some CompileErrc_InputFileDoesNotExist => "input file does not exist"
  | Some CompileErrc_InputFileNotRegular => "input path is not a regular file"
  | Some CompileErrc_InputFileNotReadable => "input file is not readable"
  | Some CompileErrc_TemporaryBitcodeFileCreationFailed =>
      "failed to create temporary bitcode file"
  | Some CompileErrc_BackendCompilationFailed => "compiler backend failed"
  | Some CompileErrc_MissingIROutput =>
      "compiler backend did not produce expected LLVM IR output"
  | Some CompileErrc_BitcodeReadFailed => "failed to read bitcode output"
  | Some CompileErrc_IRParseFailed => "failed to parse LLVM IR"
  | Some CompileErrc_BitcodeParseFailed => "failed to parse LLVM bitcode"
  | None => "unknown compile error"
  end.

(** An error category: the analyzer's own, or one of another library, which
    names itself and words its own conditions. *)
Inductive error_category :=
| compileErrorCategory
| otherCategory (name : string) (message : Z → string).

Definition category_name (c : error_category) : string :=
  match c with
  | compileErrorCategory => "coretrace.concurrency.compile"
  | otherCategory name _ => name
  end.

Definition category_message (c : error_category) (v : Z) : string :=
  match c with
  | compileErrorCategory => CompileErrorCategory_message v
  | otherCategory _ message => message v
  end.

Record error_code := ErrorCode { ec_value : Z; ec_category : error_category }.

Definition ec_message (c : error_code) : string := category_message (ec_category c) (ec_value c).

(** Conversion of an [std::error_code] to [bool]: a non-zero value. *)
Definition ec_is_error (c : error_code) : bool := negb (bool_decide (ec_value c = 0%Z)).

Definition make_error_code (e : CompileErrc) : error_code :=
  ErrorCode (errc_value e) compileErrorCategory.

Record CompileError := MkCompileError {
  err_code : error_code;
  err_phase : CompilePhase;
  err_message : string;
}.

(** A default-constructed [CompileError]: value 0 of the system category. *)
Definition no_error : CompileError :=
  MkCompileError (ErrorCode 0 (otherCategory "system" (λ _, "Success"))) CompilePhase_None "".

Definition hasError (e : CompileError) : bool := ec_is_error (err_code e).

Definition toString_phase (p : CompilePhase) : string :=
  match p with
  | CompilePhase_None => "none"
  | CompilePhase_ValidateInput => "validate_input"
  | CompilePhase_BuildCommand => "build_command"
  | CompilePhase_BackendCompile => "backend_compile"
  | CompilePhase_IRParse => "ir_parse"
  end.

(** [toString(CompileErrc)], on the integer the code carries: a value outside
    the enumeration falls through the switch. *)
Definition toString_errc (v : Z) : string :=
  match errc_of_value v with
  | Some CompileErrc_Success => "success"
  | Some CompileErrc_InvalidRequest => "invalid_request"
  | Some CompileErrc_InputFileAccessFailed => "input_file_access_failed"
  | Some CompileErrc_InputFileDoesNotExist => "input_file_does_not_exist"
  | Some CompileErrc_InputFileNotRegular => "input_file_not_regular"
  | Some CompileErrc_InputFileNotReadable => "input_file_not_readable"
  | Some CompileErrc_TemporaryBitcodeFileCreationFailed =>
      "temporary_bitcode_file_creation_failed"
  | Some CompileErrc_BackendCompilationFailed => "backend_compilation_failed"
  | Some CompileErrc_MissingIROutput => "missing_ir_output"
  | Some CompileErrc_BitcodeReadFailed => "bitcode_read_failed"
  | Some CompileErrc_IRParseFailed => "ir_parse_failed"
  | Some CompileErrc_BitcodeParseFailed => "bitcode_parse_failed"
  | None => "unknown_compile_error"
  end.

Definition formatCompileError (error : CompileError) : string :=
  if negb (ec_is_error (err_code error)) then ""
  else
    let codeName :=
      match ec_category (err_code error) with
      | compileErrorCategory => toString_errc (ec_value (err_code error))
      | otherCategory name _ => name
      end in
    let formatted :=
      if bool_decide (err_phase error ≠ CompilePhase_None)
      then toString_phase (err_phase error) +:+ ": " else "" in
    let formatted := formatted +:+ codeName +:+ ": " +:+ ec_message (err_code error) in
    if bool_decide (err_message error ≠ "")
    then formatted +:+ " (" +:+ err_message error +:+ ")" else formatted.

(** ** Lemmas *)

Lemma errc_of_value_of e : errc_of_value (errc_value e) = Some e.
Proof. by destruct e. Qed.

Lemma toString_errc_inj e e' : toString_errc (errc_value e) = toString_errc (errc_value e') → e = e'.
Proof. unfold toString_errc. rewrite !errc_of_value_of. by destruct e, e'. Qed.

Lemma append_eq_nil (s t : string) : s +:+ t = "" → s = "" ∧ t = "".
Proof. destruct s; [done|]. intros H. discriminate H. Qed.

Lemma formatCompileError_empty_iff e : formatCompileError e = "" ↔ hasError e = false.
Proof.
  unfold formatCompileError, hasError. destruct (ec_is_error (err_code e)); [|done].
  simpl. split; [|done]. intros H. exfalso. revert H.
  case_bool_decide as H1; intros H.
  all: repeat match goal with
    | H : _ +:+ _ = "" |- _ => apply append_eq_nil in H as [??]
    end; done.
Qed.
