(* ===== verification/Diagnostics.v ===== *)
(** The diagnostic data model of include/coretrace_concurrency_analysis.hpp,
    the rule catalog (diagnostics/diagnostic_catalog.cpp) and the builder the
    checkers emit findings through (diagnostics/diagnostic_builder.hpp). *)

From S2P Require Import Prelude.

Declare Scope coretrace_scope.
Open Scope coretrace_scope.

(** [d |> f] chains the builder's methods the way the source does. *)
Notation "d |> f" := (f d) (at level 61, left associativity, only parsing) : coretrace_scope.

(** ** Enumerations *)

Inductive AccessKind := AccessKind_Read | AccessKind_Write.
Inductive AliasProvenance :=
| AliasProvenance_Direct | AliasProvenance_MustAlias | AliasProvenance_MayAlias.
Inductive Severity := Severity_Info | Severity_Warning | Severity_Error.
Inductive RuleId :=
| RuleId_CompilerDiagnostic
| RuleId_DataRaceGlobal
| RuleId_MissingJoin
| RuleId_DeadlockLockOrder
| RuleId_ConditionWaitWithoutPredicate
| RuleId_ForkAfterThreadCreation
| RuleId_UnreapedChildProcess
| RuleId_ThreadArgumentEscapesFrame
| RuleId_UnsafeSignalHandler
| RuleId_WeakPublicationOrdering
| RuleId_ThreadArgumentFreedEarly
| RuleId_ThreadLocalOutlivesThread.
Inductive ConfidenceLevel := Confidence_Low | Confidence_Medium | Confidence_High.
Inductive OutputFormat := OutputFormat_Human | OutputFormat_Json | OutputFormat_Sarif.

#[global] Instance AccessKind_eq_dec : EqDecision AccessKind.
Proof. solve_decision. Defined.
#[global] Instance AliasProvenance_eq_dec : EqDecision AliasProvenance.
Proof. solve_decision. Defined.
#[global] Instance Severity_eq_dec : EqDecision Severity.
Proof. solve_decision. Defined.
#[global] Instance RuleId_eq_dec : EqDecision RuleId.
Proof. solve_decision. Defined.
#[global] Instance ConfidenceLevel_eq_dec : EqDecision ConfidenceLevel.
Proof. solve_decision. Defined.
#[global] Instance OutputFormat_eq_dec : EqDecision OutputFormat.
Proof. solve_decision. Defined.

(** The underlying integers, which the sorts and tuples of the code compare. *)
Definition RuleId_index (r : RuleId) : nat :=
  match r with
  | RuleId_CompilerDiagnostic => 0
  | RuleId_DataRaceGlobal => 1
  | RuleId_MissingJoin => 2
  | RuleId_DeadlockLockOrder => 3
  | RuleId_ConditionWaitWithoutPredicate => 4
  | RuleId_ForkAfterThreadCreation => 5
  | RuleId_UnreapedChildProcess => 6
  | RuleId_ThreadArgumentEscapesFrame => 7
  | RuleId_UnsafeSignalHandler => 8
  | RuleId_WeakPublicationOrdering => 9
  | RuleId_ThreadArgumentFreedEarly => 10
  | RuleId_ThreadLocalOutlivesThread => 11
  end.

Definition Confidence_index (c : ConfidenceLevel) : nat :=
  match c with Confidence_Low => 0 | Confidence_Medium => 1 | Confidence_High => 2 end.

(** ** Records *)

Record SourceLocation := MkSourceLocation {
  loc_file : string;
  loc_line : N;
  loc_column : N;
  loc_endLine : N;
  loc_endColumn : N;
  loc_function : string;
}.
#[global] Instance SourceLocation_eq_dec : EqDecision SourceLocation.
Proof. solve_decision. Defined.

Definition no_location : SourceLocation := MkSourceLocation "" 0 0 0 0 "".

Record TaxonomyRef := MkTaxonomyRef { tax_scheme : string; tax_id : string; tax_title : string }.
#[global] Instance TaxonomyRef_eq_dec : EqDecision TaxonomyRef.
Proof. solve_decision. Defined.

Record RelatedLocation := MkRelatedLocation { rel_label : string; rel_location : SourceLocation }.
#[global] Instance RelatedLocation_eq_dec : EqDecision RelatedLocation.
Proof. solve_decision. Defined.

Record DiagnosticNote := MkNote { note_text : string }.
#[global] Instance DiagnosticNote_eq_dec : EqDecision DiagnosticNote.
Proof. solve_decision. Defined.

Inductive DiagnosticPropertyValue :=
| PBool (b : bool) | PInt (z : Z) | PString (s : string) | PStrings (l : list string).
#[global] Instance DiagnosticPropertyValue_eq_dec : EqDecision DiagnosticPropertyValue.
Proof. solve_decision. Defined.

Record Diagnostic := MkDiagnostic {
  diag_id : string;
  diag_severity : Severity;
  diag_ruleId : RuleId;
  diag_confidence : option ConfidenceLevel;
  diag_taxonomies : list TaxonomyRef;
  diag_location : SourceLocation;
  diag_relatedLocations : list RelatedLocation;
  diag_message : string;
  diag_notes : list DiagnosticNote;
  diag_properties : gmap string DiagnosticPropertyValue;
}.
#[global] Instance Diagnostic_eq_dec : EqDecision Diagnostic.
Proof. solve_decision. Defined.

Record DiagnosticSummary := MkSummary { sum_info : nat; sum_warning : nat; sum_error : nat }.

Record FunctionSummary := MkFunctionSummary {
  fs_file : string;
  fs_name : string;
  fs_threadReachable : bool;
  fs_threadEntries : list string;
  fs_sharedAccessCount : option nat;
  fs_protectedAccessCount : option nat;
  fs_writeAccessCount : option nat;
  fs_hasDiagnostics : bool;
}.

Record AnalysisNotice := MkNotice {
  notice_id : string; notice_ruleId : RuleId; notice_message : string }.
#[global] Instance AnalysisNotice_eq_dec : EqDecision AnalysisNotice.
Proof. solve_decision. Defined.

Record DiagnosticReport := MkReport {
  rep_functions : list FunctionSummary;
  rep_diagnostics : list Diagnostic;
  rep_summary : DiagnosticSummary;
  rep_notices : list AnalysisNotice;
}.

Definition empty_report : DiagnosticReport := MkReport [] [] (MkSummary 0 0 0) [].

(** ** Options *)

Record AnalysisOptions := MkOptions {
  enabledRules : list RuleId;
  maxLiveUnits : N;
}.

(** A default-constructed [AnalysisOptions], which [allAvailable] returns. *)
Definition allAvailable : AnalysisOptions := {|
  enabledRules :=
    [RuleId_DataRaceGlobal; RuleId_MissingJoin; RuleId_DeadlockLockOrder;
     RuleId_ConditionWaitWithoutPredicate; RuleId_ForkAfterThreadCreation;
     RuleId_UnreapedChildProcess; RuleId_ThreadArgumentEscapesFrame;
     RuleId_UnsafeSignalHandler; RuleId_WeakPublicationOrdering;
     RuleId_ThreadArgumentFreedEarly; RuleId_ThreadLocalOutlivesThread];
  maxLiveUnits := 0;
|}.

Definition isEnabled (options : AnalysisOptions) (ruleId : RuleId) : bool :=
  existsb (λ enabledRule, bool_decide (enabledRule = ruleId)) (enabledRules options).

(** ** Names *)

Definition toString_access (kind : AccessKind) : string :=
  match kind with AccessKind_Read => "read" | AccessKind_Write => "write" end.

Definition toString_alias (provenance : AliasProvenance) : string :=
  match provenance with
  | AliasProvenance_Direct => "direct"
  | AliasProvenance_MustAlias => "must_alias"
  | AliasProvenance_MayAlias => "may_alias"
  end.

Definition toString_severity (severity : Severity) : string :=
  match severity with
  | Severity_Info => "info" | Severity_Warning => "warning" | Severity_Error => "error"
  end.

Definition toString_rule (ruleId : RuleId) : string :=
  match ruleId with
  | RuleId_CompilerDiagnostic => "CompilerDiagnostic"
  | RuleId_DataRaceGlobal => "DataRaceGlobal"
  | RuleId_MissingJoin => "MissingJoin"
  | RuleId_DeadlockLockOrder => "DeadlockLockOrder"
  | RuleId_ConditionWaitWithoutPredicate => "ConditionWaitWithoutPredicate"
  | RuleId_ForkAfterThreadCreation => "ForkAfterThreadCreation"
  | RuleId_UnreapedChildProcess => "UnreapedChildProcess"
  | RuleId_ThreadArgumentEscapesFrame => "ThreadArgumentEscapesFrame"
  | RuleId_UnsafeSignalHandler => "UnsafeSignalHandler"
  | RuleId_WeakPublicationOrdering => "WeakPublicationOrdering"
  | RuleId_ThreadArgumentFreedEarly => "ThreadArgumentFreedEarly"
  | RuleId_ThreadLocalOutlivesThread => "ThreadLocalOutlivesThread"
  end.

Definition toString_confidence (confidence : ConfidenceLevel) : string :=
  match confidence with
  | Confidence_Low => "low" | Confidence_Medium => "medium" | Confidence_High => "high"
  end.

Definition toString_format (format : OutputFormat) : string :=
  match format with
  | OutputFormat_Human => "human" | OutputFormat_Json => "json" | OutputFormat_Sarif => "sarif"
  end.

(** ** The rule catalog *)

Record TaxonomyMetadata := MkTaxonomyMetadata {
  tm_scheme : string; tm_id : string; tm_title : string }.

Record RuleMetadata := MkRuleMetadata {
  rm_ruleId : RuleId;
  rm_title : string;
  rm_shortDescription : string;
  rm_defaultSeverity : Severity;
  rm_primaryTaxonomy : option TaxonomyMetadata;
}.

Definition kCompilerDiagnostic : RuleMetadata := {|
  rm_ruleId := RuleId_CompilerDiagnostic;
  rm_title := "Compiler diagnostic";
  rm_shortDescription :=
    "Represents a compiler-originated diagnostic captured during IR generation.";
  rm_defaultSeverity := Severity_Error;
  rm_primaryTaxonomy := None;
|}.

Definition kDataRaceGlobal : RuleMetadata := {|
  rm_ruleId := RuleId_DataRaceGlobal;
  rm_title := "Unsynchronized concurrent access to a shared global";
  rm_shortDescription :=
    "Detects shared global accesses that can run concurrently without a common recognized lock.";
  rm_defaultSeverity := Severity_Error;
  rm_primaryTaxonomy := Some (MkTaxonomyMetadata "CWE" "362"
        "Concurrent Execution using Shared Resource with Improper Synchronization ('Race Condition')");
|}.

Definition kMissingJoin : RuleMetadata := {|
  rm_ruleId := RuleId_MissingJoin;
  rm_title := "Thread handle is not joined before scope exit";
  rm_shortDescription :=
    "Detects thread creation sites whose handle is not joined before the enclosing scope completes.";
  rm_defaultSeverity := Severity_Warning;
  rm_primaryTaxonomy := None;
|}.

Definition kDeadlockLockOrder : RuleMetadata := {|
  rm_ruleId := RuleId_DeadlockLockOrder;
  rm_title := "Potential deadlock caused by inconsistent lock order";
  rm_shortDescription :=
    "Detects conflicting lock acquisition orders that can lead to circular wait.";
  rm_defaultSeverity := Severity_Error;
  rm_primaryTaxonomy := Some (MkTaxonomyMetadata "CWE" "833"
        "Deadlock");
|}.

Definition kConditionWaitWithoutPredicate : RuleMetadata := {|
  rm_ruleId := RuleId_ConditionWaitWithoutPredicate;
  rm_title := "Condition-variable wait rechecks nothing on wake-up";
  rm_shortDescription :=
    "Detects a condition-variable wait with neither a predicate nor a loop around it, which treats any wake-up as proof that the condition holds.";
  rm_defaultSeverity := Severity_Error;
  rm_primaryTaxonomy := Some (MkTaxonomyMetadata "CWE" "662"
        "Improper Synchronization");
|}.

Definition kForkAfterThreadCreation : RuleMetadata := {|
  rm_ruleId := RuleId_ForkAfterThreadCreation;
  rm_title := "Fork in a threaded program without an exec in the child";
  rm_shortDescription :=
    "Detects a fork performed by a program that creates threads, where the child keeps running instead of replacing its process image.";
  rm_defaultSeverity := Severity_Error;
  rm_primaryTaxonomy := Some (MkTaxonomyMetadata "CWE" "662"
        "Improper Synchronization");
|}.

Definition kUnreapedChildProcess : RuleMetadata := {|
  rm_ruleId := RuleId_UnreapedChildProcess;
  rm_title := "Child process is never collected";
  rm_shortDescription :=
    "Detects a program that forks but never waits on its children, leaving them as zombies in the process table.";
  rm_defaultSeverity := Severity_Warning;
  rm_primaryTaxonomy := Some (MkTaxonomyMetadata "CWE" "404"
        "Improper Resource Shutdown or Release");
|}.

Definition kThreadArgumentEscapesFrame : RuleMetadata := {|
  rm_ruleId := RuleId_ThreadArgumentEscapesFrame;
  rm_title := "Thread argument points into the frame that created it";
  rm_shortDescription :=
    "Detects a thread started with a pointer to a local variable of a function that returns without waiting for it.";
  rm_defaultSeverity := Severity_Error;
  rm_primaryTaxonomy := Some (MkTaxonomyMetadata "CWE" "562"
        "Return of Stack Variable Address");
|}.

Definition kUnsafeSignalHandler : RuleMetadata := {|
  rm_ruleId := RuleId_UnsafeSignalHandler;
  rm_title := "Signal handler calls a function it may not call";
  rm_shortDescription :=
    "Detects a signal handler that reaches an allocation, a stream or a lock, none of which is async-signal-safe.";
  rm_defaultSeverity := Severity_Error;
  rm_primaryTaxonomy := Some (MkTaxonomyMetadata "CWE" "479"
        "Signal Handler Use of a Non-reentrant Function");
|}.

Definition kThreadArgumentFreedEarly : RuleMetadata := {|
  rm_ruleId := RuleId_ThreadArgumentFreedEarly;
  rm_title := "Thread argument freed before the thread is joined";
  rm_shortDescription :=
    "Detects memory handed to a thread that its creator frees while the thread may still use it.";
  rm_defaultSeverity := Severity_Error;
  rm_primaryTaxonomy := Some (MkTaxonomyMetadata "CWE" "416"
        "Use After Free");
|}.

Definition kThreadLocalOutlivesThread : RuleMetadata := {|
  rm_ruleId := RuleId_ThreadLocalOutlivesThread;
  rm_title := "Thread-local object used after its thread ended";
  rm_shortDescription :=
    "Detects a thread-local object reached through a pointer its thread published, after that thread has been joined.";
  rm_defaultSeverity := Severity_Error;
  rm_primaryTaxonomy := Some (MkTaxonomyMetadata "CWE" "825"
        "Expired Pointer Dereference");
|}.

Definition kWeakPublicationOrdering : RuleMetadata := {|
  rm_ruleId := RuleId_WeakPublicationOrdering;
  rm_title := "Atomic flag publishes data without release/acquire ordering";
  rm_shortDescription :=
    "Detects data published through an atomic flag whose store does not release or whose observing load does not acquire, so the reader may see the flag set and the data stale.";
  rm_defaultSeverity := Severity_Warning;
  rm_primaryTaxonomy := Some (MkTaxonomyMetadata "CWE" "362"
        "Concurrent Execution using Shared Resource with Improper Synchronization ('Race Condition')");
|}.

Definition lookupRuleMetadata (ruleId : RuleId) : RuleMetadata :=
  match ruleId with
  | RuleId_CompilerDiagnostic => kCompilerDiagnostic
  | RuleId_DataRaceGlobal => kDataRaceGlobal
  | RuleId_MissingJoin => kMissingJoin
  | RuleId_DeadlockLockOrder => kDeadlockLockOrder
  | RuleId_ConditionWaitWithoutPredicate => kConditionWaitWithoutPredicate
  | RuleId_ForkAfterThreadCreation => kForkAfterThreadCreation
  | RuleId_UnreapedChildProcess => kUnreapedChildProcess
  | RuleId_ThreadArgumentEscapesFrame => kThreadArgumentEscapesFrame
  | RuleId_UnsafeSignalHandler => kUnsafeSignalHandler
  | RuleId_ThreadArgumentFreedEarly => kThreadArgumentFreedEarly
  | RuleId_ThreadLocalOutlivesThread => kThreadLocalOutlivesThread
  | RuleId_WeakPublicationOrdering => kWeakPublicationOrdering
  end.

Record RuleDescription := MkRuleDescription {
  rd_title : string; rd_description : string; rd_defaultSeverity : Severity }.

Definition describeRule (ruleId : RuleId) : RuleDescription :=
  let metadata := lookupRuleMetadata ruleId in
  MkRuleDescription (rm_title metadata) (rm_shortDescription metadata)
    (rm_defaultSeverity metadata).

(** ** The builder

    The C++ builder owns the diagnostic under construction and mutates it; here
    each method maps the diagnostic it is given to the next one. *)

Definition DiagnosticBuilder (ruleId : RuleId) : Diagnostic :=
  let metadata := lookupRuleMetadata ruleId in {|
    diag_id := "";
    diag_severity := rm_defaultSeverity metadata;
    diag_ruleId := ruleId;
    diag_confidence := None;
    diag_taxonomies :=
      match rm_primaryTaxonomy metadata with
      | Some taxonomy =>
          [MkTaxonomyRef (tm_scheme taxonomy) (tm_id taxonomy) (tm_title taxonomy)]
      | None => []
      end;
    diag_location := no_location;
    diag_relatedLocations := [];
    diag_message := "";
    diag_notes := [];
    diag_properties := ∅;
  |}.

Definition severity (s : Severity) (d : Diagnostic) : Diagnostic :=
  MkDiagnostic (diag_id d) s (diag_ruleId d) (diag_confidence d) (diag_taxonomies d)
    (diag_location d) (diag_relatedLocations d) (diag_message d) (diag_notes d)
    (diag_properties d).

Definition confidence (c : ConfidenceLevel) (d : Diagnostic) : Diagnostic :=
  MkDiagnostic (diag_id d) (diag_severity d) (diag_ruleId d) (Some c) (diag_taxonomies d)
    (diag_location d) (diag_relatedLocations d) (diag_message d) (diag_notes d)
    (diag_properties d).

Definition primaryLocation (l : SourceLocation) (d : Diagnostic) : Diagnostic :=
  MkDiagnostic (diag_id d) (diag_severity d) (diag_ruleId d) (diag_confidence d)
    (diag_taxonomies d) l (diag_relatedLocations d) (diag_message d) (diag_notes d)
    (diag_properties d).

Definition relatedLocation (label : string) (l : SourceLocation) (d : Diagnostic) : Diagnostic :=
  MkDiagnostic (diag_id d) (diag_severity d) (diag_ruleId d) (diag_confidence d)
    (diag_taxonomies d) (diag_location d) (diag_relatedLocations d ++ [MkRelatedLocation label l])
    (diag_message d) (diag_notes d) (diag_properties d).

Definition message (m : string) (d : Diagnostic) : Diagnostic :=
  MkDiagnostic (diag_id d) (diag_severity d) (diag_ruleId d) (diag_confidence d)
    (diag_taxonomies d) (diag_location d) (diag_relatedLocations d) m (diag_notes d)
    (diag_properties d).

Definition note (text : string) (d : Diagnostic) : Diagnostic :=
  MkDiagnostic (diag_id d) (diag_severity d) (diag_ruleId d) (diag_confidence d)
    (diag_taxonomies d) (diag_location d) (diag_relatedLocations d) (diag_message d)
    (diag_notes d ++ [MkNote text]) (diag_properties d).

Definition taxonomy (scheme id title : string) (d : Diagnostic) : Diagnostic :=
  MkDiagnostic (diag_id d) (diag_severity d) (diag_ruleId d) (diag_confidence d)
    (diag_taxonomies d ++ [MkTaxonomyRef scheme id title]) (diag_location d)
    (diag_relatedLocations d) (diag_message d) (diag_notes d) (diag_properties d).

Definition property (key : string) (value : DiagnosticPropertyValue) (d : Diagnostic) : Diagnostic :=
  MkDiagnostic (diag_id d) (diag_severity d) (diag_ruleId d) (diag_confidence d)
    (diag_taxonomies d) (diag_location d) (diag_relatedLocations d) (diag_message d)
    (diag_notes d) (<[key := value]> (diag_properties d)).

(** A builder call the source makes under a condition. *)
Definition when (b : bool) (f : Diagnostic → Diagnostic) (d : Diagnostic) : Diagnostic :=
  if b then f d else d.

Definition emit (report : DiagnosticReport) (d : Diagnostic) : DiagnosticReport :=
  MkReport (rep_functions report) (rep_diagnostics report ++ [d]) (rep_summary report)
    (rep_notices report).

Definition emit_all (report : DiagnosticReport) (ds : list Diagnostic) : DiagnosticReport :=
  foldl emit report ds.

(** ** Lemmas *)

Lemma toString_rule_inj r r' : toString_rule r = toString_rule r' → r = r'.
Proof. by destruct r, r'. Qed.

Lemma RuleId_index_inj r r' : RuleId_index r = RuleId_index r' → r = r'.
Proof. by destruct r, r'. Qed.

Lemma isEnabled_spec options r : isEnabled options r = true ↔ r ∈ enabledRules options.
Proof.
  unfold isEnabled. rewrite existsb_elem. split.
  - intros (x & Hx & <-%bool_decide_eq_true). done.
  - intros H. exists r. by rewrite bool_decide_eq_true.
Qed.

Lemma emit_all_diagnostics report ds :
  rep_diagnostics (emit_all report ds) = rep_diagnostics report ++ ds.
Proof.
  revert report. induction ds as [|d ds IH]; intros report; simpl.
  - by rewrite app_nil_r.
  - unfold emit_all in IH. rewrite IH. simpl. by rewrite <-app_assoc.
Qed.

Lemma emit_all_notices report ds : rep_notices (emit_all report ds) = rep_notices report.
Proof.
  revert report. induction ds as [|d ds IH]; intros report; [done|].
  transitivity (rep_notices (emit report d)); [apply IH|done].
Qed.

Lemma emit_all_app report ds ds' :
  emit_all report (ds ++ ds') = emit_all (emit_all report ds) ds'.
Proof. apply foldl_app. Qed.

(** What a conditional note or related location leaves alone. *)
Lemma when_note b text d :
  diag_location (when b (note text) d) = diag_location d ∧
  diag_properties (when b (note text) d) = diag_properties d ∧
  diag_relatedLocations (when b (note text) d) = diag_relatedLocations d.
Proof. by destruct b. Qed.

Lemma when_relatedLocation b label l d :
  diag_location (when b (relatedLocation label l) d) = diag_location d ∧
  diag_properties (when b (relatedLocation label l) d) = diag_properties d ∧
  length (diag_relatedLocations (when b (relatedLocation label l) d))
    = Nat.b2n b + length (diag_relatedLocations d).
Proof. destruct b; simpl; [|done]. rewrite length_app. simpl. split_and!; [done..|lia]. Qed.

(** Projects through the builder's methods without touching the texts. *)
Ltac diag_simpl :=
  cbn [diag_id diag_severity diag_ruleId diag_confidence diag_taxonomies diag_location
       diag_relatedLocations diag_message diag_notes diag_properties
       severity confidence primaryLocation relatedLocation message note taxonomy property].
