(* ===== verification/Facts.v ===== *)
(** The facts a translation unit is reduced to (src/internal/analysis/facts.hpp
    and the summaries of lock_wrapper_summaries.hpp and
    thread_completion_analysis.hpp it carries): memory regions with their
    overlap test, the facts each checker reads, and [TUFacts] itself. *)

From Stdlib Require Import ZArith.
From S2P Require Import Prelude Diagnostics.

(** ** Threads *)

Abbreviation ThreadEntrySet := (gset string).

Definition rootTaskId : string := "<main-task>".

Definition isRootTask (entryId : string) : bool := bool_decide (entryId = rootTaskId).

Record EntryConcurrencyInfo := MkEntryConcurrency {
  staticSpawnCount : nat;
  hasSpawnInLoop : bool;
}.

Definition info_isSelfConcurrent (info : EntryConcurrencyInfo) : bool :=
  (2 <=? staticSpawnCount info) || hasSpawnInLoop info.

Record SpawnFact := MkSpawn {
  spawn_entryFunctionId : string;
  spawn_location : SourceLocation;
  spawn_insideLoop : bool;
}.

(** ** Memory regions *)

Inductive ElementOwner :=
| ElementOwner_None
| ElementOwner_AccessingThread
| ElementOwner_NotYetHandedOver
| ElementOwner_JoinedThisRound.

#[global] Instance ElementOwner_eq_dec : EqDecision ElementOwner.
Proof. solve_decision. Defined.

Definition ElementOwner_index (o : ElementOwner) : Z :=
  match o with
  | ElementOwner_None => 0
  | ElementOwner_AccessingThread => 1
  | ElementOwner_NotYetHandedOver => 2
  | ElementOwner_JoinedThisRound => 3
  end.

Definition heldBySpawningThread (owner : ElementOwner) : bool :=
  bool_decide (owner = ElementOwner_NotYetHandedOver)
  || bool_decide (owner = ElementOwner_JoinedThisRound).

(** [byteOffset] is an [int64_t], [byteSize] a [uint64_t]. *)
Record MemoryRegion := MkRegion {
  hasKnownOffset : bool;
  byteOffset : Z;
  byteSize : Z;
  elementOwner : ElementOwner;
  elementEntry : string;
}.

#[global] Instance MemoryRegion_eq_dec : EqDecision MemoryRegion.
Proof. solve_decision. Defined.

(** A default-constructed region: the whole object. *)
Definition default_region : MemoryRegion := MkRegion true 0 0 ElementOwner_None "".

(** [static_cast<std::int64_t>], and what 64-bit addition leaves.  Signed
    overflow is undefined in C++: [region_in_bounds] below is the range in which
    the addition is exact. *)
Definition wrap_i64 (z : Z) : Z := ((z + 2 ^ 63) mod 2 ^ 64 - 2 ^ 63)%Z.

Definition region_end (r : MemoryRegion) : Z :=
  wrap_i64 (byteOffset r + wrap_i64 (byteSize r)).

Definition mayOverlap (r other : MemoryRegion) : bool :=
  if bool_decide (elementOwner r = ElementOwner_AccessingThread)
     && bool_decide (elementOwner other = ElementOwner_AccessingThread)
     && bool_decide (elementEntry r = elementEntry other)
  then false
  else if negb (hasKnownOffset r) || negb (hasKnownOffset other) then true
  else if bool_decide (byteSize r = 0%Z) || bool_decide (byteSize other = 0%Z) then true
  else bool_decide (byteOffset r < region_end other)%Z
       && bool_decide (byteOffset other < region_end r)%Z.

Definition rebasedOn (r argument designated : MemoryRegion) : MemoryRegion :=
  if hasKnownOffset r && bool_decide (byteOffset r = 0%Z) && bool_decide (byteSize r = 0%Z)
  then designated
  else MkRegion (hasKnownOffset r && hasKnownOffset argument)
         (wrap_i64 (byteOffset r + byteOffset argument))
         (byteSize r) (elementOwner r) (elementEntry r).

Definition orderedWithElementOwner (r other : MemoryRegion) : bool :=
  bool_decide (elementEntry r = elementEntry other)
  && ((bool_decide (elementOwner r = ElementOwner_AccessingThread)
       && heldBySpawningThread (elementOwner other))
      || (bool_decide (elementOwner other = ElementOwner_AccessingThread)
          && heldBySpawningThread (elementOwner r))).

Definition placeInElement (r : MemoryRegion) (owner : ElementOwner) (entry : string)
  : MemoryRegion :=
  if hasKnownOffset r then r
  else MkRegion (hasKnownOffset r) (byteOffset r) (byteSize r) owner entry.

Definition identity (r : MemoryRegion) : string :=
  let key := (if hasKnownOffset r then "@" +:+ pretty (byteOffset r) else "@?") +:+ "+" +:+
             pretty (byteSize r) in
  if bool_decide (elementOwner r ≠ ElementOwner_None)
  then key +:+ "/" +:+ pretty (ElementOwner_index (elementOwner r)) +:+ ":" +:+ elementEntry r
  else key.

Definition suffix (r : MemoryRegion) : string :=
  if negb (hasKnownOffset r) then
    match elementOwner r with
    | ElementOwner_AccessingThread => "[own]"
    | ElementOwner_NotYetHandedOver => "[next]"
    | ElementOwner_JoinedThisRound => "[joined]"
    | ElementOwner_None => "[*]"
    end
  else if bool_decide (byteOffset r = 0%Z) then "" else "+" +:+ pretty (byteOffset r).

(** ** Facts *)

Record AccessFact := MkAccess {
  acc_symbol : string;
  acc_region : MemoryRegion;
  acc_functionId : string;
  acc_kind : AccessKind;
  acc_aliasProvenance : AliasProvenance;
  acc_loweredLocation : SourceLocation;
  acc_userLocation : SourceLocation;
  acc_allowCallsiteProjection : bool;
  acc_isAtomic : bool;
  acc_coarseCallEffect : bool;
  acc_guessedIdentity : bool;
  acc_sharedObject : bool;
  acc_inRootTask : bool;
  acc_liveEntries : ThreadEntrySet;
  acc_startedEntries : ThreadEntrySet;
  acc_boundBySpawn : bool;
  acc_instanceOwner : string;
  acc_heldLocks : gset string;
  acc_beforeRelease : gset string;
  acc_afterAcquire : gset string;
}.

Record LockOrderFact := MkLockOrder {
  lo_functionId : string;
  lo_firstLockId : string;
  lo_secondLockId : string;
  lo_location : SourceLocation;
  lo_heldLocks : gset string;
  lo_inRootTask : bool;
  lo_liveEntries : ThreadEntrySet;
  lo_startedEntries : ThreadEntrySet;
  lo_lowerAddressFirst : bool;
  lo_secondIsRecursive : bool;
  lo_boundBySpawn : bool;
}.

Inductive ThreadHandleKind := ThreadHandleKind_PThread | ThreadHandleKind_StdThread.
Inductive ThreadLifecycleAction :=
| ThreadLifecycleAction_Create
| ThreadLifecycleAction_Join
| ThreadLifecycleAction_Detach
| ThreadLifecycleAction_Move.

#[global] Instance ThreadHandleKind_eq_dec : EqDecision ThreadHandleKind.
Proof. solve_decision. Defined.
#[global] Instance ThreadLifecycleAction_eq_dec : EqDecision ThreadLifecycleAction.
Proof. solve_decision. Defined.

Record ThreadLifecycleFact := MkLifecycle {
  tl_handleKind : ThreadHandleKind;
  tl_action : ThreadLifecycleAction;
  tl_handleGroupId : string;
  tl_sourceHandleGroupId : option string;
  tl_functionId : string;
  tl_location : SourceLocation;
  tl_resolvedOnAllPaths : bool;
  tl_insideLoop : bool;
  tl_escapedToUntrackedStorage : bool;
  tl_propagated : bool;
}.

(** Two entries a join separates, the smaller id first. *)
Definition makeEntryPair (lhs rhs : string) : string * string :=
  if str_lt rhs lhs then (rhs, lhs) else (lhs, rhs).

Record ConditionWaitFact := MkConditionWait {
  cw_functionId : string;
  cw_location : SourceLocation;
  cw_loweredLocation : SourceLocation;
  cw_guardedByLoop : bool;
  cw_viaHelper : bool;
}.

Record ThreadArgumentEscapeFact := MkEscape {
  esc_functionId : string;
  esc_entryFunctionId : string;
  esc_location : SourceLocation;
}.

Record SignalHandlerFact := MkSignalHandler {
  sh_location : SourceLocation;
  sh_handlerFunctionId : string;
  sh_unsafeCallLocation : SourceLocation;
  sh_unsafeCallFunctionId : string;
}.

Record ThreadArgumentFreeFact := MkArgumentFree {
  taf_functionId : string;
  taf_entryFunctionId : string;
  taf_creationLocation : SourceLocation;
  taf_freeLocation : SourceLocation;
}.

Record ExpiredThreadLocalFact := MkExpired {
  etl_functionId : string;
  etl_entryFunctionId : string;
  etl_threadLocal : string;
  etl_pointer : string;
  etl_publishLocation : SourceLocation;
  etl_useLocation : SourceLocation;
}.

Record WeakPublicationFact := MkWeakPublication {
  wp_flag : string;
  wp_data : list string;
  wp_storeReleases : bool;
  wp_loadAcquires : bool;
  wp_storeLocation : SourceLocation;
  wp_loadLocation : SourceLocation;
  wp_publisherFunctionId : string;
  wp_readerFunctionId : string;
}.

Record ProcessForkFact := MkFork {
  fork_functionId : string;
  fork_location : SourceLocation;
  fork_execReachable : bool;
}.

Record ParameterLockEffect := MkParameterLockEffect {
  ple_argumentIndex : N;
  ple_acquires : bool;
  ple_recursiveLock : bool;
}.

#[global] Instance ParameterLockEffect_eq_dec : EqDecision ParameterLockEffect.
Proof. solve_decision. Defined.

Record JoinedParameter := MkJoinedParameter {
  jp_index : N;
  jp_byValue : bool;
  jp_offset : Z;
  jp_ended : bool;
  jp_reported : bool;
}.

Record ProgramSymbolFacts := MkProgramSymbols {
  abiKey : string;
  definedGlobals : gset string;
  declaredGlobals : gset string;
  functionSymbolsById : gmap string string;
  declaredFunctions : gset string;
  settlingFunctions : gset string;
  handleSymbolsByGroupId : gmap string string;
}.

Record TUFacts := MkTUFacts {
  spawns : list SpawnFact;
  accesses : list AccessFact;
  lockOrders : list LockOrderFact;
  threadLifecycles : list ThreadLifecycleFact;
  conditionWaits : list ConditionWaitFact;
  processForks : list ProcessForkFact;
  threadArgumentEscapes : list ThreadArgumentEscapeFact;
  threadArgumentFrees : list ThreadArgumentFreeFact;
  expiredThreadLocals : list ExpiredThreadLocalFact;
  signalHandlers : list SignalHandlerFact;
  weakPublications : list WeakPublicationFact;
  reapsChildProcesses : bool;
  programCreatesThreads : bool;
  entryConcurrency : gmap string EntryConcurrencyInfo;
  lockWrapperSummaries : gmap string (list ParameterLockEffect);
  joiningHelpers : gmap string (list JoinedParameter);
  resolvedGlobalHandleIds : gset string;
  reachableThreadEntriesByFunction : gmap string ThreadEntrySet;
  recursiveLockIds : gset string;
  sequencedEntryPairs : gset (string * string);
  program : ProgramSymbolFacts;
}.

(** A default-constructed [TUFacts]. *)
Definition no_symbols : ProgramSymbolFacts := MkProgramSymbols "" ∅ ∅ ∅ ∅ ∅ ∅.
Definition no_facts : TUFacts :=
  MkTUFacts [] [] [] [] [] [] [] [] [] [] [] false false ∅ ∅ ∅ ∅ ∅ ∅ ∅ no_symbols.

(** ** Lemmas on regions *)

(** The bytes a region covers, and the range in which its end is exact. *)
Definition covers (r : MemoryRegion) (byte : Z) : Prop :=
  (byteOffset r ≤ byte < byteOffset r + byteSize r)%Z.

Definition region_in_bounds (r : MemoryRegion) : Prop :=
  (- 2 ^ 63 ≤ byteOffset r ∧ 0 ≤ byteSize r < 2 ^ 63 ∧ byteOffset r + byteSize r < 2 ^ 63)%Z.

Lemma wrap_i64_id z : (- 2 ^ 63 ≤ z < 2 ^ 63)%Z → wrap_i64 z = z.
Proof. intros H. unfold wrap_i64. rewrite Z.mod_small; lia. Qed.

Lemma wrap_i64_range z : (- 2 ^ 63 ≤ wrap_i64 z < 2 ^ 63)%Z.
Proof.
  unfold wrap_i64. pose proof (Z.mod_pos_bound (z + 2 ^ 63) (2 ^ 64) ltac:(lia)). lia.
Qed.

Lemma region_end_exact r : region_in_bounds r → region_end r = (byteOffset r + byteSize r)%Z.
Proof.
  intros (H1 & H2 & H3). unfold region_end.
  rewrite (wrap_i64_id (byteSize r)) by lia. apply wrap_i64_id. lia.
Qed.

Lemma mayOverlap_comm r r' : mayOverlap r r' = mayOverlap r' r.
Proof.
  unfold mayOverlap.
  rewrite (bool_decide_ext (elementEntry r = elementEntry r') (elementEntry r' = elementEntry r))
    by naive_solver.
  repeat case_bool_decide; destruct (hasKnownOffset r), (hasKnownOffset r'); naive_solver.
Qed.

Lemma orderedWithElementOwner_comm r r' :
  orderedWithElementOwner r r' = orderedWithElementOwner r' r.
Proof.
  unfold orderedWithElementOwner.
  rewrite (bool_decide_ext (elementEntry r = elementEntry r') (elementEntry r' = elementEntry r))
    by naive_solver.
  by rewrite (orb_comm (bool_decide (elementOwner r = _) && _)).
Qed.

Lemma makeEntryPair_comm lhs rhs : makeEntryPair lhs rhs = makeEntryPair rhs lhs.
Proof.
  unfold makeEntryPair. destruct (str_lt rhs lhs) eqn:E1, (str_lt lhs rhs) eqn:E2; [|done..|].
  - apply swo_asym in E1; congruence.
  - destruct (str_lt_trichotomy lhs rhs) as [|[->|]]; congruence.
Qed.

Lemma rebasedOn_range r argument designated :
  (- 2 ^ 63 ≤ byteOffset designated < 2 ^ 63)%Z →
  (- 2 ^ 63 ≤ byteOffset (rebasedOn r argument designated) < 2 ^ 63)%Z.
Proof. intros H. unfold rebasedOn. case_match; [done|]. simpl. apply wrap_i64_range. Qed.

Lemma identity_tail_head r s :
  head_not is_digit_or_dash (if bool_decide (elementOwner r ≠ ElementOwner_None)
    then String "/" s else "") = true.
Proof. by case_bool_decide. Qed.

Lemma ElementOwner_index_inj o o' : ElementOwner_index o = ElementOwner_index o' → o = o'.
Proof. by destruct o, o'. Qed.

(** [identity] as a chain of fields, each ended by a separator. *)
Lemma identity_unfold r :
  identity r =
    (if hasKnownOffset r then String "@" (pretty (byteOffset r)) else "@?") +:+
    String "+" (pretty (byteSize r) +:+
      (if bool_decide (elementOwner r ≠ ElementOwner_None)
       then String "/" (pretty (ElementOwner_index (elementOwner r)) +:+
              String ":" (elementEntry r)) else "")).
Proof.
  unfold identity. case_bool_decide; rewrite ?append_nil_r; [|done].
  destruct (hasKnownOffset r); by rewrite !append_assoc.
Qed.

Lemma identity_offset_inj r r' t t' :
  (if hasKnownOffset r then String "@" (pretty (byteOffset r)) else "@?") +:+ String "+" t =
  (if hasKnownOffset r' then String "@" (pretty (byteOffset r')) else "@?") +:+ String "+" t' →
  hasKnownOffset r = hasKnownOffset r' ∧
  (hasKnownOffset r = true → byteOffset r = byteOffset r') ∧ t = t'.
Proof.
  pose proof (pretty_Z_digits (byteOffset r)) as Hd.
  pose proof (pretty_Z_digits (byteOffset r')) as Hd'.
  destruct (hasKnownOffset r), (hasKnownOffset r'); simpl; intros [= E].
  - by apply pretty_Z_span in E as [-> [= ->]].
  - exfalso. destruct (pretty (byteOffset r)) as [|c p]; [done|]. injection E as -> E. done.
  - exfalso. destruct (pretty (byteOffset r')) as [|c p]; [done|]. injection E as <- E. done.
  - done.
Qed.

(** ** Properties *)

(** C28: two accesses whose offsets and extents are known, in the range where
    the byte arithmetic does not overflow, may overlap exactly when some byte
    belongs to both ranges, unless both lie in the elements two instances of one
    entry own. *)
Theorem mayOverlap_exact r r' :
  region_in_bounds r → region_in_bounds r' →
  hasKnownOffset r = true → hasKnownOffset r' = true →
  byteSize r ≠ 0%Z → byteSize r' ≠ 0%Z →
  elementOwner r ≠ ElementOwner_AccessingThread →
  mayOverlap r r' = true ↔ ∃ byte, covers r byte ∧ covers r' byte.
Proof.
  intros Hb Hb' Hk Hk' Hs Hs' Ho. unfold mayOverlap. rewrite Hk, Hk'.
  rewrite !region_end_exact by done. rewrite (bool_decide_eq_false_2 (elementOwner r = _)) by done.
  rewrite !(bool_decide_eq_false_2 (byteSize _ = _)) by done. simpl.
  rewrite andb_true_iff, !bool_decide_eq_true. unfold covers, region_in_bounds in *. split.
  - intros [H1 H2]. exists (Z.max (byteOffset r) (byteOffset r')). lia.
  - intros (b & H1 & H2). lia.
Qed.

Lemma mayOverlap_exact_witness :
  mayOverlap (MkRegion true 0 4 ElementOwner_None "") (MkRegion true 2 4 ElementOwner_None "")
    = true.
Proof.
  apply mayOverlap_exact; try done; try (by unfold region_in_bounds; simpl; lia).
  exists 2%Z. unfold covers. simpl. lia.
Defined.

(** the key that merges accesses tells two regions apart by everything that
    matters: equal identities have the same known offset, extent, element owner
    and, when placed in an element, the same entry. *)
Theorem identity_inj r r' :
  identity r = identity r' →
  hasKnownOffset r = hasKnownOffset r' ∧
  (hasKnownOffset r = true → byteOffset r = byteOffset r') ∧
  byteSize r = byteSize r' ∧ elementOwner r = elementOwner r' ∧
  (elementOwner r ≠ ElementOwner_None → elementEntry r = elementEntry r').
Proof.
  rewrite !identity_unfold. intros E.
  apply identity_offset_inj in E as (Hk & Ho & E).
  apply pretty_Z_span in E as [Hs E]; [|apply identity_tail_head..].
  do 3 (split; [done|]).
  case_bool_decide as H1; case_bool_decide as H2; [|done..|].
  - injection E as E. apply pretty_Z_span in E as [Hi [= He]]; [|done..].
    by apply ElementOwner_index_inj in Hi.
  - destruct (decide (elementOwner r = ElementOwner_None)) as [->|]; [|done].
    destruct (decide (elementOwner r' = ElementOwner_None)) as [->|]; done.
Qed.

Lemma identity_inj_witness :
  elementOwner (MkRegion false 8 4 ElementOwner_AccessingThread "worker")
  = elementOwner (MkRegion false 0 4 ElementOwner_AccessingThread "worker").
Proof. apply identity_inj. reflexivity. Defined.
