(* ===== verification/LockIds.v ===== *)
(** The text a lock is named by, and reading it back
    (src/internal/analysis/ir_utils.cpp: [parameterLockPlace], [lockIdAt] and
    [lockIdRoot], on the root bindings of facts.hpp). *)

From S2P Require Import Prelude Text Diagnostics Facts.

Inductive RootBindingKind := RootBindingKind_Global | RootBindingKind_Argument.
#[global] Instance RootBindingKind_eq_dec : EqDecision RootBindingKind.
Proof. solve_decision. Defined.

Record LinearIndex := MkLinearIndex {
  li_parameter : option N;
  li_scale : Z;
  li_offset : Z;
  li_widened : bool;
}.

Record RootBinding := MkRootBinding {
  rb_kind : RootBindingKind;
  rb_symbol : string;
  rb_argumentIndex : N;
  rb_region : MemoryRegion;
  rb_designated : MemoryRegion;
  rb_index : option LinearIndex;
}.

Definition RootBinding_global (symbol : string) (region : MemoryRegion) : RootBinding :=
  MkRootBinding RootBindingKind_Global symbol 0 region default_region None.
Definition RootBinding_argument (index : N) (region : MemoryRegion) : RootBinding :=
  MkRootBinding RootBindingKind_Argument "" index region default_region None.

Record ParameterLockPlace := MkParameterLockPlace {
  plp_argumentIndex : N;
  plp_place : MemoryRegion;
}.

(** The exceptions of the conversions of <string>. *)
Inductive ConversionError := ConversionError_InvalidArgument | ConversionError_OutOfRange.

(** A number with its sign, in the range of [std::int64_t]. *)
Definition signed_value (negative : bool) (digits : string) : option Z :=
  let value := Z.of_N (decimal_value 0 digits) in
  let value := if negative then (- value)%Z else value in
  if bool_decide (- 2 ^ 63 ≤ value < 2 ^ 63)%Z then Some value else None.

(** An optional minus sign. *)
Definition cut_minus (s : string) : bool * string :=
  match s with String "-" rest => (true, rest) | _ => (false, s) end.

(** [std::stoul] on a text of digits, and [std::stoll]: white space, a sign,
    digits, and a rest that is ignored. *)
Definition stoul_digits (digits : string) : N + ConversionError :=
  let value := decimal_value 0 digits in
  if (2 ^ 64 <=? value)%N then inr ConversionError_OutOfRange else inl value.

Definition stoll (s : string) : Z + ConversionError :=
  let s := skip_while is_space s in
  let '(negative, s) := match s with String "+" rest => (false, rest) | _ => cut_minus s end in
  let '(digits, _) := span_digits s in
  if bool_decide (digits = "") then inr ConversionError_InvalidArgument
  else match signed_value negative digits with
       | Some value => inl value
       | None => inr ConversionError_OutOfRange
       end.

(** [std::from_chars] into [std::int64_t], when it reads the whole text. *)
Definition from_chars_all (s : string) : option Z :=
  let '(negative, s) := cut_minus s in
  let '(digits, rest) := span_digits s in
  if bool_decide (digits = "") || negb (bool_decide (rest = "")) then None
  else signed_value negative digits.

Definition kParameterLockPrefix : string := "%arg".

(** A region of which only the place is given. *)
Definition place_at (hasKnownOffset : bool) (byteOffset : Z) : MemoryRegion :=
  MkRegion hasKnownOffset byteOffset 0 ElementOwner_None "".

Definition parameterLockPlace (lockId : string) : option ParameterLockPlace + ConversionError :=
  if negb (starts_with lockId kParameterLockPrefix) then inl None
  else
    let '(index, suffix) := span_digits (drop_prefix (String.length kParameterLockPrefix) lockId) in
    if bool_decide (index = "") then inl None
    else
      argument ←! stoul_digits index;
      let result place := Some (MkParameterLockPlace (wrap 32 argument) place) in
      if bool_decide (suffix = "[*]") then inl (result (place_at false 0))
      else if starts_with suffix "+" then
        byteOffset ←! stoll (drop_prefix 1 suffix); inl (result (place_at true byteOffset))
      else if negb (bool_decide (suffix = "")) then inl None
      else inl (result (place_at true 0)).

Definition lockIdAt (object : RootBinding) (place : MemoryRegion) : string :=
  let position :=
    place_at (hasKnownOffset (rb_region object) && hasKnownOffset place)
      (wrap_i64 (byteOffset (rb_region object) + byteOffset place)) in
  if bool_decide (rb_kind object = RootBindingKind_Argument)
  then kParameterLockPrefix +:+ pretty (rb_argumentIndex object) +:+ suffix position
  else rb_symbol object +:+ suffix position.

(** The text before the last [c], and the text after it. *)
Fixpoint cut_last (c : ascii) (s : string) : option (string * string) :=
  match s with
  | "" => None
  | String d s' =>
      match cut_last c s' with
      | Some (before, after) => Some (String d before, after)
      | None => if Ascii.eqb d c then Some ("", s') else None
      end
  end.

(** The text before a suffix, when it is one. *)
Fixpoint cut_suffix (suffix s : string) : option string :=
  if bool_decide (s = suffix) then Some ""
  else match s with
       | "" => None
       | String c s' => String c <$> cut_suffix suffix s'
       end.

Definition lockIdRoot (lockId : string) : RootBinding + ConversionError :=
  place ←! parameterLockPlace lockId;
  match place with
  | Some place => inl (RootBinding_argument (plp_argumentIndex place) (plp_place place))
  | None =>
      inl (match cut_suffix "[*]" lockId with
           | Some symbol => RootBinding_global symbol (place_at false 0)
           | None =>
               match cut_last "+" lockId with
               | None => RootBinding_global lockId default_region
               | Some (before, offset) =>
                   match from_chars_all offset with
                   | Some byteOffset => RootBinding_global before (place_at true byteOffset)
                   | None => RootBinding_global lockId default_region
                   end
               end
           end)
  end.
