(* ===== verification/LockIdsProps.v ===== *)
(** A lock's name can be read back: the object and the place written into it, and
    moving a place twice is moving it once by both offsets. *)

From S2P Require Import Prelude Text Diagnostics Facts LockIds.

(** ** Numbers *)

Lemma pretty_N_head (n : N) : ∃ c s, pretty n = String c s ∧ is_digit c = true.
Proof.
  pose proof (pretty_N_digits n) as Hd. pose proof (pretty_N_nonempty n) as Hne.
  destruct (pretty n) as [|c s]; [done|]. cbn [all_chars] in Hd. apply andb_true_iff in Hd as [Hc _].
  by exists c, s.
Qed.

Lemma cut_minus_pretty (z : Z) : cut_minus (pretty z) = (bool_decide (z < 0)%Z, pretty (Z.abs_N z)).
Proof.
  assert (∀ n : N, cut_minus (pretty n) = (false, pretty n)) as Hpos.
  { intros n. destruct (pretty_N_head n) as (c & s & -> & Hc). unfold cut_minus.
    destruct c as [[] [] [] [] [] [] [] []]; try done. }
  destruct z as [|p|p]; [reflexivity| |reflexivity]. exact (Hpos (N.pos p)).
Qed.

Lemma signed_value_pretty (z : Z) :
  (- 2 ^ 63 ≤ z < 2 ^ 63)%Z → signed_value (bool_decide (z < 0)%Z) (pretty (Z.abs_N z)) = Some z.
Proof.
  intros Hz. unfold signed_value. rewrite decimal_value_pretty, N2Z.inj_abs_N.
  assert ((if bool_decide (z < 0)%Z then (- Z.abs z)%Z else Z.abs z) = z) as ->.
  { case_bool_decide; lia. }
  by rewrite bool_decide_eq_true_2.
Qed.

Lemma from_chars_pretty (z : Z) : (- 2 ^ 63 ≤ z < 2 ^ 63)%Z → from_chars_all (pretty z) = Some z.
Proof.
  intros Hz. unfold from_chars_all. rewrite cut_minus_pretty, span_digits_all by apply pretty_N_digits.
  rewrite bool_decide_eq_false_2 by apply pretty_N_nonempty. rewrite bool_decide_eq_true_2 by done.
  by apply signed_value_pretty.
Qed.

Lemma pretty_Z_head (z : Z) : ∃ c s, pretty z = String c s ∧ is_digit_or_dash c = true.
Proof.
  pose proof (pretty_Z_digits z) as Hd. destruct (pretty z) as [|c s] eqn:E.
  - pose proof (cut_minus_pretty z) as Hc. rewrite E in Hc. injection Hc as _ Hc.
    by destruct (pretty_N_nonempty (Z.abs_N z)).
  - cbn [all_chars] in Hd. apply andb_true_iff in Hd as [Hc _]. by exists c, s.
Qed.

Lemma stoll_pretty (z : Z) : (- 2 ^ 63 ≤ z < 2 ^ 63)%Z → stoll (pretty z) = inl z.
Proof.
  intros Hz. destruct (pretty_Z_head z) as (c & s & E & Hc).
  assert (skip_while is_space (pretty z) = pretty z) as Hskip.
  { apply skip_while_id. rewrite E. cbn [head_not]. by destruct c as [[] [] [] [] [] [] [] []]. }
  unfold stoll. rewrite Hskip.
  assert (match pretty z with String "+" rest => (false, rest) | _ => cut_minus (pretty z) end =
    cut_minus (pretty z)) as ->.
  { rewrite E. by destruct c as [[] [] [] [] [] [] [] []]. }
  rewrite cut_minus_pretty, span_digits_all by apply pretty_N_digits.
  rewrite bool_decide_eq_false_2 by apply pretty_N_nonempty. by rewrite signed_value_pretty.
Qed.

(** ** Names *)

(** The place a name carries: an unknown offset has none. *)
Definition position (object : RootBinding) (place : MemoryRegion) : MemoryRegion :=
  let known := hasKnownOffset (rb_region object) && hasKnownOffset place in
  place_at known
    (if known then wrap_i64 (byteOffset (rb_region object) + byteOffset place) else 0).

Lemma suffix_cases object place :
  let written := suffix (place_at (hasKnownOffset (rb_region object) && hasKnownOffset place)
    (wrap_i64 (byteOffset (rb_region object) + byteOffset place))) in
  (written = "[*]" ∧ position object place = place_at false 0) ∨
  (written = "" ∧ position object place = place_at true 0) ∨
  (∃ z, written = "+" +:+ pretty z ∧ (- 2 ^ 63 ≤ z < 2 ^ 63)%Z ∧ position object place = place_at true z).
Proof.
  cbn zeta. unfold position, suffix.
  destruct (hasKnownOffset (rb_region object) && hasKnownOffset place); [|by left].
  cbn [place_at hasKnownOffset negb byteOffset]. case_bool_decide as E.
  - right; left. by rewrite E.
  - right; right. eexists. split; [done|]. split; [apply wrap_i64_range|done].
Qed.

Lemma parameterLockPlace_argument (index : N) (written : string) :
  head_not is_digit written = true → (index < 2 ^ 32)%N →
  parameterLockPlace (kParameterLockPrefix +:+ pretty index +:+ written) =
  let result place := Some (MkParameterLockPlace index place) in
  if bool_decide (written = "[*]") then inl (result (place_at false 0))
  else if starts_with written "+" then
    byteOffset ←! stoll (drop_prefix 1 written); inl (result (place_at true byteOffset))
  else if negb (bool_decide (written = "")) then inl None
  else inl (result (place_at true 0)).
Proof.
  intros Hw Hi. unfold parameterLockPlace.
  assert (starts_with (kParameterLockPrefix +:+ pretty index +:+ written) kParameterLockPrefix = true) as ->.
  { unfold kParameterLockPrefix, starts_with. cbn. by destruct (_ +:+ written). }
  cbn [negb]. change (drop_prefix (String.length kParameterLockPrefix)
    (kParameterLockPrefix +:+ pretty index +:+ written)) with (pretty index +:+ written).
  rewrite span_digits_app by (apply pretty_N_digits || done).
  rewrite bool_decide_eq_false_2 by apply pretty_N_nonempty.
  unfold stoul_digits. rewrite decimal_value_pretty, (proj2 (N.leb_gt _ _)) by lia. cbn [bind_ok].
  unfold wrap. by rewrite N.mod_small.
Qed.

(** Reading a parameter's lock gives back the parameter and the place. *)
Lemma parameter_lock_roundtrip (object : RootBinding) (place : MemoryRegion) :
  rb_kind object = RootBindingKind_Argument → (rb_argumentIndex object < 2 ^ 32)%N →
  parameterLockPlace (lockIdAt object place) =
  inl (Some (MkParameterLockPlace (rb_argumentIndex object) (position object place))).
Proof.
  intros Hkind Hi. unfold lockIdAt. rewrite bool_decide_eq_true_2 by done.
  pose proof (suffix_cases object place) as Hcases. cbn zeta in Hcases.
  destruct Hcases as [[-> ->]|[[-> ->]|(z & -> & Hz & ->)]].
  - by rewrite parameterLockPlace_argument.
  - by rewrite parameterLockPlace_argument.
  - rewrite parameterLockPlace_argument by done. change ("+" +:+ pretty z) with (String "+" (pretty z)).
    rewrite bool_decide_eq_false_2 by done. rewrite starts_with_cons, starts_with_nil.
    cbn [drop_prefix Ascii.eqb Bool.eqb andb]. by rewrite stoll_pretty.
Qed.

(** ** Global names *)

Lemma cut_suffix_spec written s before : cut_suffix written s = Some before → s = before +:+ written.
Proof.
  revert before. induction s as [|c s IH]; intros before; cbn [cut_suffix]; case_bool_decide as E; try done.
  - by intros [= <-].
  - by intros [= <-].
  - destruct (cut_suffix written s) as [b|]; [|done]. intros [= <-]. by rewrite (IH b), append_cons.
Qed.

Lemma cut_suffix_app written s :
  cut_suffix written (s +:+ written) ≠ None.
Proof.
  induction s as [|c s IH].
  - change ("" +:+ written) with written. by destruct written; cbn [cut_suffix]; rewrite bool_decide_eq_true_2.
  - rewrite append_cons. cbn [cut_suffix]. case_bool_decide; [done|].
    by destruct (cut_suffix written (s +:+ written)).
Qed.

Lemma cut_last_app c s t :
  all_chars (other_than c) t = true → cut_last c (s +:+ String c t) = Some (s, t).
Proof.
  intros Ht. assert (cut_last c t = None) as Hnone.
  { induction t as [|d t IH]; [done|]. cbn [all_chars] in Ht. apply andb_true_iff in Ht as [Hd Ht].
    cbn [cut_last]. rewrite IH by done. unfold other_than in Hd. apply negb_true_iff in Hd. by rewrite Hd. }
  induction s as [|d s IH].
  - change ("" +:+ String c t) with (String c t). cbn [cut_last]. by rewrite Hnone, Ascii.eqb_refl.
  - rewrite append_cons. cbn [cut_last]. by rewrite IH.
Qed.

Lemma starts_with_app_false (s t p : string) (d : ascii) :
  starts_with s p = false → all_chars (other_than d) p = true →
  t = "" ∨ (∃ t', t = String d t') → starts_with (s +:+ t) p = false.
Proof.
  revert s. induction p as [|e p IH]; intros s Hs Hp Ht; [by rewrite starts_with_nil in Hs|].
  cbn [all_chars] in Hp. apply andb_true_iff in Hp as [He Hp]. destruct s as [|c s].
  - destruct Ht as [->|[t' ->]]; [done|]. change ("" +:+ String d t') with (String d t').
    rewrite starts_with_cons. unfold other_than in He. apply negb_true_iff in He.
    rewrite Ascii.eqb_sym, He. done.
  - rewrite append_cons, starts_with_cons in *. apply andb_false_iff in Hs as [->|Hs]; [done|].
    rewrite IH by done. apply andb_false_r.
Qed.

(** A symbol that cannot be taken for a place in another one. *)
Definition plain_symbol (symbol : string) : Prop :=
  starts_with symbol kParameterLockPrefix = false ∧ cut_suffix "[*]" symbol = None ∧
  ∀ before offset, cut_last "+" symbol = Some (before, offset) → from_chars_all offset = None.

Definition nameable (object : RootBinding) : Prop :=
  match rb_kind object with
  | RootBindingKind_Argument => rb_symbol object = "" ∧ (rb_argumentIndex object < 2 ^ 32)%N
  | RootBindingKind_Global => plain_symbol (rb_symbol object) ∧ rb_argumentIndex object = 0%N
  end.

Lemma starred_symbol symbol : cut_suffix "[*]" (symbol +:+ "[*]") = Some symbol.
Proof.
  destruct (cut_suffix "[*]" (symbol +:+ "[*]")) as [before|] eqn:E; [|by apply cut_suffix_app in E].
  apply cut_suffix_spec in E. f_equal.
  assert (∀ s t : string, s +:+ "[*]" = t +:+ "[*]" → s = t) as Hinj; [|by symmetry; apply Hinj].
  clear. induction s as [|c s IH]; intros [|d t] E; [done| | |].
  - apply (f_equal String.length) in E. rewrite !string_length_app in E. cbn in E. lia.
  - apply (f_equal String.length) in E. rewrite !string_length_app in E. cbn in E. lia.
  - rewrite !append_cons in E. injection E as -> E. by rewrite (IH t).
Qed.

Lemma offset_symbol symbol z :
  cut_suffix "[*]" (symbol +:+ "+" +:+ pretty z) = None ∧
  cut_last "+" (symbol +:+ "+" +:+ pretty z) = Some (symbol, pretty (z : Z)).
Proof.
  destruct (pretty_Z_head z) as (c & s & E & _). split.
  - destruct (cut_suffix _ _) as [before|] eqn:Ec; [|done]. exfalso. apply cut_suffix_spec in Ec.
    apply (f_equal (last_not is_digit_or_dash)) in Ec.
    rewrite !(last_not_app _ before), !(last_not_app _ symbol), (last_not_app _ "+") in Ec by (by rewrite ?E).
    assert (∀ s, all_chars is_digit_or_dash s = true → s ≠ "" → last_not is_digit_or_dash s = false) as Hlast.
    { clear. induction s as [|c s IH]; [done|]. cbn [all_chars]. rewrite andb_true_iff. intros [Hc Hs] _.
      destruct s as [|d s]; [cbn [last_not]; by rewrite Hc|]. by apply IH. }
    rewrite Hlast in Ec by (apply pretty_Z_digits || by rewrite E). done.
  - change ("+" +:+ pretty z) with (String "+" (pretty z)). apply cut_last_app.
    eapply all_chars_mono; [|apply pretty_Z_digits].
    intros d Hd. by destruct d as [[] [] [] [] [] [] [] []].
Qed.

Lemma global_lock_roundtrip object place :
  rb_kind object = RootBindingKind_Global → plain_symbol (rb_symbol object) →
  lockIdRoot (lockIdAt object place) =
  inl (RootBinding_global (rb_symbol object) (position object place)).
Proof.
  intros Hkind (Hprefix & Hstar & Hplus). unfold lockIdAt. rewrite bool_decide_eq_false_2 by (by rewrite Hkind).
  pose proof (suffix_cases object place) as Hcases. cbn zeta in Hcases.
  set (symbol := rb_symbol object) in *. unfold lockIdRoot, parameterLockPlace.
  destruct Hcases as [[-> ->]|[[-> ->]|(z & -> & Hz & ->)]].
  - rewrite (starts_with_app_false _ _ _ "[") by (done || eauto). cbn [negb bind_ok].
    by rewrite starred_symbol.
  - rewrite append_nil_r, Hprefix. cbn [negb bind_ok]. rewrite Hstar.
    destruct (cut_last "+" symbol) as [[before offset]|] eqn:E; [|done]. by rewrite (Hplus _ _ eq_refl).
  - rewrite (starts_with_app_false _ _ _ "+") by (done || (right; by eexists)). cbn [negb bind_ok].
    destruct (offset_symbol symbol z) as [-> ->]. by rewrite from_chars_pretty.
Qed.

Lemma root_of_lock_id object place :
  nameable object → lockIdRoot (lockIdAt object place) =
  inl (MkRootBinding (rb_kind object) (rb_symbol object) (rb_argumentIndex object)
    (position object place) default_region None).
Proof.
  intros Hobject. unfold nameable in Hobject. destruct (rb_kind object) eqn:Hkind.
  - destruct Hobject as [Hplain ->]. by rewrite global_lock_roundtrip.
  - destruct Hobject as [-> Hi]. unfold lockIdRoot. by rewrite parameter_lock_roundtrip.
Qed.

(** Moving by two places is moving by their sum. *)
Definition place_sum (p q : MemoryRegion) : MemoryRegion :=
  place_at (hasKnownOffset p && hasKnownOffset q) (byteOffset p + byteOffset q).

(** C40: The name of a lock can be read back.  For a parameter below 2^32, or a
    symbol that cannot itself be taken for a place in another, the name written
    for a place in the object gives back the object and the place; and naming a
    place in what was read back names the place moved by both offsets, in 64 bits,
    so that passing a lock through several calls adds up. *)
Theorem lock_id_roundtrip (object : RootBinding) (place further : MemoryRegion) :
  nameable object →
  ∃ root, lockIdRoot (lockIdAt object place) = inl root ∧
    rb_kind root = rb_kind object ∧ rb_symbol root = rb_symbol object ∧
    rb_argumentIndex root = rb_argumentIndex object ∧
    rb_region root = position object place ∧
    lockIdAt root further = lockIdAt object (place_sum place further).
Proof.
  intros Hobject. rewrite root_of_lock_id by done. eexists. split; [done|].
  split_and!; try done. unfold lockIdAt.
  assert (suffix (place_at (hasKnownOffset (position object place) && hasKnownOffset further)
      (wrap_i64 (byteOffset (position object place) + byteOffset further))) =
    suffix (place_at (hasKnownOffset (rb_region object) && hasKnownOffset (place_sum place further))
      (wrap_i64 (byteOffset (rb_region object) + byteOffset (place_sum place further))))) as E;
    [|cbn [rb_kind rb_argumentIndex rb_symbol rb_region]; by rewrite E].
  unfold position, place_sum. cbn [place_at hasKnownOffset byteOffset].
  rewrite andb_assoc. destruct (hasKnownOffset (rb_region object) && hasKnownOffset place); [|done].
  do 2 f_equal. unfold wrap_i64.
  set (a := byteOffset (rb_region object)). set (b := byteOffset place). set (c := byteOffset further).
  replace ((a + b + 2 ^ 63) mod 2 ^ 64 - 2 ^ 63 + c + 2 ^ 63)%Z
    with ((a + b + 2 ^ 63) mod 2 ^ 64 + c)%Z by lia.
  rewrite Zplus_mod_idemp_l. do 2 f_equal. lia.
Qed.

Lemma lock_id_roundtrip_witness :
  ∃ root, lockIdRoot (lockIdAt (RootBinding_global "table" default_region) (place_at true 8)) = inl root ∧
    rb_kind root = RootBindingKind_Global ∧ rb_symbol root = "table" ∧ rb_argumentIndex root = 0%N ∧
    rb_region root = position (RootBinding_global "table" default_region) (place_at true 8) ∧
    lockIdAt root (place_at true (-8)) =
      lockIdAt (RootBinding_global "table" default_region) (place_sum (place_at true 8) (place_at true (-8))).
Proof.
  apply (lock_id_roundtrip (RootBinding_global "table" default_region)).
  split; [|reflexivity]. split; [reflexivity|]. split; [reflexivity|]. intros before offset E. discriminate E.
Defined.

(** A symbol that ends like an offset is read as a place in a shorter symbol. *)
Lemma offset_like_symbol_misread :
  lockIdRoot (lockIdAt (RootBinding_global "m+8" default_region) (place_at true 0)) =
  inl (RootBinding_global "m" (place_at true 8)).
Proof. vm_compute. reflexivity. Qed.
