(* ===== verification/FactQueries.v ===== *)
(** The may-happen-in-parallel relation every checker queries
    (src/internal/analysis/fact_queries.hpp) and the selection of facts a set of
    rules needs (src/internal/analysis/fact_selection.hpp).

    The C++ templates over a [FactType] become a typeclass; the relation is
    related to an abstract model of tasks at the end of the file. *)

From S2P Require Import Prelude Diagnostics Facts.

(** What the templates read of a fact: whether the initial thread executes it
    and the spawned entries running at that moment. *)
Class ConcurrentFact (F : Type) := {
  fact_inRootTask : F → bool;
  fact_liveEntries : F → ThreadEntrySet;
}.

#[global] Instance AccessFact_concurrent : ConcurrentFact AccessFact := {|
  fact_inRootTask := acc_inRootTask; fact_liveEntries := acc_liveEntries |}.

#[global] Instance LockOrderFact_concurrent : ConcurrentFact LockOrderFact := {|
  fact_inRootTask := lo_inRootTask; fact_liveEntries := lo_liveEntries |}.

(** ** Queries *)

(** [entryConcurrency.find(entry)], then [isSelfConcurrent] of what it found. *)
Definition entrySelfConcurrent (facts : TUFacts) (entry : string) : bool :=
  match entryConcurrency facts !! entry with
  | Some info => info_isSelfConcurrent info
  | None => false
  end.

Definition isSelfConcurrent (entries : ThreadEntrySet) (facts : TUFacts) : bool :=
  existsb (entrySelfConcurrent facts) (elements entries).

Definition mayRunConcurrently (lhsEntries rhsEntries : ThreadEntrySet) (facts : TUFacts) : bool :=
  existsb (λ lhsEntry,
    existsb (λ rhsEntry,
      if bool_decide (lhsEntry ≠ rhsEntry)
      then negb (bool_decide (makeEntryPair lhsEntry rhsEntry ∈ sequencedEntryPairs facts))
      else entrySelfConcurrent facts lhsEntry)
    (elements rhsEntries)) (elements lhsEntries).

Definition racesWithRootTask `{!ConcurrentFact F} (rootSide : F) (otherEntries : ThreadEntrySet)
  : bool :=
  if negb (fact_inRootTask rootSide) then false
  else existsb (λ entry, bool_decide (entry ∈ fact_liveEntries rootSide)) (elements otherEntries).

Definition mayHappenInParallel `{!ConcurrentFact F} (lhs : F) (lhsEntries : ThreadEntrySet)
    (rhs : F) (rhsEntries : ThreadEntrySet) (facts : TUFacts) : bool :=
  if racesWithRootTask lhs rhsEntries || racesWithRootTask rhs lhsEntries then true
  else if bool_decide (lhsEntries = ∅) || bool_decide (rhsEntries = ∅) then false
  else mayRunConcurrently lhsEntries rhsEntries facts.

Definition sortedThreadEntries (entries : ThreadEntrySet) : list string :=
  sorted_elements entries.

(** ** Fact selection *)

Record CrossUnitChannels := MkChannels {
  ch_externGlobals : bool;
  ch_helperLockEffects : bool;
  ch_entryConcurrency : bool;
  ch_programThreads : bool;
  ch_programReaps : bool;
  ch_resolvedHandles : bool;
  ch_helperJoins : bool;
}.

Record FactSelection := MkSelection {
  sel_accesses : bool;
  sel_lockOrders : bool;
  sel_recursiveLockIds : bool;
  sel_threadLifecycles : bool;
  sel_conditionWaits : bool;
  sel_processLifecycle : bool;
  sel_threadArgumentEscapes : bool;
  sel_threadArgumentFrees : bool;
  sel_expiredThreadLocals : bool;
  sel_signalHandlers : bool;
  sel_weakPublications : bool;
  sel_threadEntries : bool;
  sel_program : bool;
  sel_channels : CrossUnitChannels;
}.

Definition no_channels : CrossUnitChannels :=
  MkChannels false false false false false false false.
Definition no_selection : FactSelection :=
  MkSelection false false false false false false false false false false false false false
    no_channels.

Definition sel_directCallSites (s : FactSelection) : bool :=
  sel_accesses s || sel_lockOrders s || sel_threadLifecycles s || sel_conditionWaits s
  || sel_processLifecycle s || sel_signalHandlers s || sel_threadEntries s.
Definition sel_spawns (s : FactSelection) : bool :=
  sel_threadEntries s || sel_processLifecycle s || ch_programThreads (sel_channels s).
Definition sel_lockWrapperSummaries (s : FactSelection) : bool :=
  sel_accesses s || sel_lockOrders s || ch_helperLockEffects (sel_channels s).
Definition sel_lockState (s : FactSelection) : bool := sel_accesses s || sel_lockOrders s.
Definition sel_taskConcurrency (s : FactSelection) : bool :=
  sel_threadEntries s || sel_accesses s || sel_lockOrders s.

(** Setting flags to [true] on a selection is joining it with the flags set. *)
Definition join_channels (a b : CrossUnitChannels) : CrossUnitChannels :=
  MkChannels
    (ch_externGlobals a || ch_externGlobals b)
    (ch_helperLockEffects a || ch_helperLockEffects b)
    (ch_entryConcurrency a || ch_entryConcurrency b)
    (ch_programThreads a || ch_programThreads b)
    (ch_programReaps a || ch_programReaps b)
    (ch_resolvedHandles a || ch_resolvedHandles b)
    (ch_helperJoins a || ch_helperJoins b).

Definition join_selection (a b : FactSelection) : FactSelection :=
  MkSelection
    (sel_accesses a || sel_accesses b)
    (sel_lockOrders a || sel_lockOrders b)
    (sel_recursiveLockIds a || sel_recursiveLockIds b)
    (sel_threadLifecycles a || sel_threadLifecycles b)
    (sel_conditionWaits a || sel_conditionWaits b)
    (sel_processLifecycle a || sel_processLifecycle b)
    (sel_threadArgumentEscapes a || sel_threadArgumentEscapes b)
    (sel_threadArgumentFrees a || sel_threadArgumentFrees b)
    (sel_expiredThreadLocals a || sel_expiredThreadLocals b)
    (sel_signalHandlers a || sel_signalHandlers b)
    (sel_weakPublications a || sel_weakPublications b)
    (sel_threadEntries a || sel_threadEntries b)
    (sel_program a || sel_program b)
    (join_channels (sel_channels a) (sel_channels b)).

(** The flags one case of the switch in [forRules] sets. *)
Definition rule_selection (rule : RuleId) : FactSelection :=
  match rule with
  | RuleId_DataRaceGlobal =>
      MkSelection true false false false false false false false false false false true false
        (MkChannels true true true false false false true)
  | RuleId_DeadlockLockOrder =>
      MkSelection false true true false false false false false false false false true false
        (MkChannels false true true false false false true)
  | RuleId_MissingJoin =>
      MkSelection false false false true false false false false false false false false false
        (MkChannels false false false false false true true)
  | RuleId_ConditionWaitWithoutPredicate =>
      MkSelection false false false false true false false false false false false false false
        no_channels
  | RuleId_ForkAfterThreadCreation =>
      MkSelection false false false false false true false false false false false false false
        (MkChannels false false false true false false false)
  | RuleId_UnreapedChildProcess =>
      MkSelection false false false false false true false false false false false false false
        (MkChannels false false false false true false false)
  | RuleId_ThreadArgumentEscapesFrame =>
      MkSelection false false false false false false true false false false false false false
        (MkChannels false false false false false false true)
  | RuleId_ThreadArgumentFreedEarly =>
      MkSelection false false false false false false false true false false false false false
        (MkChannels false false false false false false true)
  | RuleId_ThreadLocalOutlivesThread =>
      MkSelection false false false false false false false false true false false false false
        (MkChannels false false false false false false true)
  | RuleId_UnsafeSignalHandler =>
      MkSelection false false false false false false false false false true false false false
        no_channels
  | RuleId_WeakPublicationOrdering =>
      MkSelection true false false false false false false false false false true true false
        (MkChannels true false true false false false true)
  | RuleId_CompilerDiagnostic => no_selection
  end.

Definition forRules (rules : list RuleId) (projectAnalysis : bool) : FactSelection :=
  let selection := foldl (λ s rule, join_selection s (rule_selection rule)) no_selection rules in
  if projectAnalysis then
    MkSelection (sel_accesses selection) (sel_lockOrders selection)
      (sel_recursiveLockIds selection)
      (sel_threadLifecycles selection || ch_resolvedHandles (sel_channels selection))
      (sel_conditionWaits selection) (sel_processLifecycle selection)
      (sel_threadArgumentEscapes selection) (sel_threadArgumentFrees selection)
      (sel_expiredThreadLocals selection) (sel_signalHandlers selection)
      (sel_weakPublications selection)
      (sel_threadEntries selection || ch_entryConcurrency (sel_channels selection))
      true (sel_channels selection)
  else
    MkSelection (sel_accesses selection) (sel_lockOrders selection)
      (sel_recursiveLockIds selection) (sel_threadLifecycles selection)
      (sel_conditionWaits selection) (sel_processLifecycle selection)
      (sel_threadArgumentEscapes selection) (sel_threadArgumentFrees selection)
      (sel_expiredThreadLocals selection) (sel_signalHandlers selection)
      (sel_weakPublications selection) (sel_threadEntries selection)
      (sel_program selection) no_channels.

Definition everything : FactSelection := forRules (enabledRules allAvailable) true.

(** ** Abstract model of tasks

    A task is the initial thread or one instance of a thread entry; an entry
    started at most once has one instance, a self-concurrent one has a second. *)

Inductive Task := RootTask | EntryInstance (entry : string) (second : bool).

(** The tasks that may execute a point described by a fact and its entries. *)
Inductive executes `{!ConcurrentFact F} (facts : TUFacts) (f : F) (entries : ThreadEntrySet)
  : Task → Prop :=
| executes_root : fact_inRootTask f = true → executes facts f entries RootTask
| executes_instance entry second :
    entry ∈ entries → (second = true → entrySelfConcurrent facts entry = true) →
    executes facts f entries (EntryInstance entry second).

(** Two tasks that may be running at once, the initial thread being at [f]. *)
Inductive tasks_overlap `{!ConcurrentFact F} (facts : TUFacts) (f g : F) : Task → Task → Prop :=
| overlap_root_left entry i :
    entry ∈ fact_liveEntries f → tasks_overlap facts f g RootTask (EntryInstance entry i)
| overlap_root_right entry i :
    entry ∈ fact_liveEntries g → tasks_overlap facts f g (EntryInstance entry i) RootTask
| overlap_entries e i e' j :
    e ≠ e' → makeEntryPair e e' ∉ sequencedEntryPairs facts →
    tasks_overlap facts f g (EntryInstance e i) (EntryInstance e' j)
| overlap_instances e i j :
    i ≠ j → tasks_overlap facts f g (EntryInstance e i) (EntryInstance e j).

(** ** Lemmas *)

Lemma isSelfConcurrent_spec entries facts :
  isSelfConcurrent entries facts = true ↔
  ∃ e, e ∈ entries ∧ entrySelfConcurrent facts e = true.
Proof. unfold isSelfConcurrent. rewrite existsb_elem. by setoid_rewrite elem_of_elements. Qed.

Lemma mayRunConcurrently_spec L R facts :
  mayRunConcurrently L R facts = true ↔
  ∃ l r, l ∈ L ∧ r ∈ R ∧
    ((l ≠ r ∧ makeEntryPair l r ∉ sequencedEntryPairs facts) ∨
     (l = r ∧ entrySelfConcurrent facts l = true)).
Proof.
  unfold mayRunConcurrently. rewrite existsb_elem. setoid_rewrite existsb_elem.
  setoid_rewrite elem_of_elements. split.
  - intros (l & Hl & r & Hr & H). exists l, r. do 2 (split; [done|]).
    case_bool_decide; [left|right]; [|naive_solver].
    split; [done|]. by rewrite negb_true_iff, bool_decide_eq_false in H.
  - intros (l & r & Hl & Hr & H). exists l. split; [done|]. exists r. split; [done|].
    destruct H as [[Hne Hseq]|[-> Hself]].
    + by rewrite bool_decide_true, negb_true_iff, bool_decide_eq_false by done.
    + rewrite bool_decide_false by naive_solver. done.
Qed.

Lemma racesWithRootTask_spec `{!ConcurrentFact F} (f : F) entries :
  racesWithRootTask f entries = true ↔
  fact_inRootTask f = true ∧ ∃ e, e ∈ entries ∧ e ∈ fact_liveEntries f.
Proof.
  unfold racesWithRootTask. destruct (fact_inRootTask f); simpl; [|naive_solver].
  rewrite existsb_elem. setoid_rewrite elem_of_elements.
  setoid_rewrite bool_decide_eq_true. naive_solver.
Qed.

Lemma mayHappenInParallel_spec `{!ConcurrentFact F} (f : F) L (g : F) R facts :
  mayHappenInParallel f L g R facts = true ↔
  racesWithRootTask f R = true ∨ racesWithRootTask g L = true ∨
  mayRunConcurrently L R facts = true.
Proof.
  unfold mayHappenInParallel.
  assert (∀ b c d, (if b || c then true else d) = true ↔ b = true ∨ c = true ∨ d = true) as ->.
  { by intros [] [] []; intuition. }
  enough ((if bool_decide (L = ∅) || bool_decide (R = ∅) then false
           else mayRunConcurrently L R facts) = mayRunConcurrently L R facts) as -> by done.
  destruct (_ || _) eqn:H; [|done]. symmetry. apply not_true_iff_false.
  rewrite orb_true_iff, !bool_decide_eq_true in H. rewrite mayRunConcurrently_spec. set_solver.
Qed.

Lemma mayHappenInParallel_comm `{!ConcurrentFact F} (f : F) L (g : F) R facts :
  mayHappenInParallel f L g R facts = mayHappenInParallel g R f L facts.
Proof.
  apply eq_bool_prop_intro. rewrite !Is_true_true, !mayHappenInParallel_spec,
    !mayRunConcurrently_spec.
  assert (∀ L R : ThreadEntrySet, (∃ l r, l ∈ L ∧ r ∈ R ∧
      ((l ≠ r ∧ makeEntryPair l r ∉ sequencedEntryPairs facts) ∨
       (l = r ∧ entrySelfConcurrent facts l = true))) →
    ∃ l r, l ∈ R ∧ r ∈ L ∧
      ((l ≠ r ∧ makeEntryPair l r ∉ sequencedEntryPairs facts) ∨
       (l = r ∧ entrySelfConcurrent facts l = true))) as Hsym.
  { intros L' R' (l & r & ? & ? & [[??]|[-> ?]]); exists r.
    - exists l. rewrite makeEntryPair_comm. eauto 6.
    - exists r. eauto 6. }
  split; intros [?|[?|?%Hsym]]; auto.
Qed.

(** Code no spawned entry reaches, on a thread with nothing running beside it. *)
Lemma mayHappenInParallel_alone `{!ConcurrentFact F} (f : F) (g : F) facts :
  mayHappenInParallel f ∅ g ∅ facts = false.
Proof.
  apply not_true_iff_false. rewrite mayHappenInParallel_spec, mayRunConcurrently_spec,
    !racesWithRootTask_spec. set_solver.
Qed.

Lemma mayHappenInParallel_tasks `{!ConcurrentFact F}
    (f : F) L (g : F) R facts :
  mayHappenInParallel f L g R facts = true ↔
  ∃ t u, executes facts f L t ∧ executes facts g R u ∧ tasks_overlap facts f g t u.
Proof.
  rewrite mayHappenInParallel_spec, !racesWithRootTask_spec, mayRunConcurrently_spec. split.
  - intros [(Hr & e & He & Hl)|[(Hr & e & He & Hl)|(l & r & Hl & Hr & [[Hne Hs]|[-> Hs]])]].
    + exists RootTask, (EntryInstance e false). by repeat constructor.
    + exists (EntryInstance e false), RootTask. by repeat constructor.
    + exists (EntryInstance l false), (EntryInstance r false). by repeat constructor.
    + exists (EntryInstance r false), (EntryInstance r true). by repeat constructor.
  - intros (t & u & Ht & Hu & Hov).
    destruct Hov as [e i Hl|e i Hl|e i e' j Hne Hs|e i j Hij]; inv Ht; inv Hu.
    + left. eauto.
    + right; left. eauto.
    + right; right. exists e, e'. eauto 6.
    + right; right. exists e, e. do 2 (split; [done|]). right. split; [done|].
      destruct i, j; naive_solver.
Qed.

(** Every flag of a selection; they determine it and join by disjunction. *)
Definition selection_flags : list (FactSelection → bool) :=
  [sel_accesses; sel_lockOrders; sel_recursiveLockIds; sel_threadLifecycles; sel_conditionWaits;
   sel_processLifecycle; sel_threadArgumentEscapes; sel_threadArgumentFrees;
   sel_expiredThreadLocals; sel_signalHandlers; sel_weakPublications; sel_threadEntries;
   sel_program; λ s, ch_externGlobals (sel_channels s); λ s, ch_helperLockEffects (sel_channels s);
   λ s, ch_entryConcurrency (sel_channels s); λ s, ch_programThreads (sel_channels s);
   λ s, ch_programReaps (sel_channels s); λ s, ch_resolvedHandles (sel_channels s);
   λ s, ch_helperJoins (sel_channels s)].

Lemma selection_ext a b : Forall (λ flag : FactSelection → bool, flag a = flag b) selection_flags → a = b.
Proof.
  destruct a as [????????????? []], b as [????????????? []]. intros H.
  repeat (apply Forall_cons in H as [? H]; simpl in *; simplify_eq). done.
Qed.

Lemma selection_flags_join :
  Forall (λ flag : FactSelection → bool,
    (∀ a b, flag (join_selection a b) = flag a || flag b) ∧ flag no_selection = false)
    selection_flags.
Proof. repeat constructor. Qed.

(** A flag is set by [forRules]' loop exactly when some rule sets it. *)
Lemma fold_selection_flag (flag : FactSelection → bool) rules s :
  (∀ a b, flag (join_selection a b) = flag a || flag b) →
  flag (foldl (λ s rule, join_selection s (rule_selection rule)) s rules)
  = flag s || existsb (λ rule, flag (rule_selection rule)) rules.
Proof.
  intros Hj. revert s. induction rules as [|r rules IH]; intros s; simpl.
  - by rewrite orb_false_r.
  - by rewrite IH, Hj, orb_assoc.
Qed.

Lemma existsb_same_elements {A} (f : A → bool) l l' :
  (∀ x, x ∈ l ↔ x ∈ l') → existsb f l = existsb f l'.
Proof.
  intros H. apply eq_bool_prop_intro. rewrite !Is_true_true, !existsb_elem.
  by setoid_rewrite H.
Qed.

Lemma fold_selection_same_elements rules rules' :
  (∀ r, r ∈ rules ↔ r ∈ rules') →
  foldl (λ s rule, join_selection s (rule_selection rule)) no_selection rules =
  foldl (λ s rule, join_selection s (rule_selection rule)) no_selection rules'.
Proof.
  intros H. apply selection_ext. eapply Forall_impl; [apply selection_flags_join|].
  intros flag [Hj _]. rewrite !fold_selection_flag by done.
  by rewrite (existsb_same_elements _ rules rules').
Qed.

(** ** Properties *)

(** C27: the may-happen-in-parallel relation of the checkers is exactly the
    overlap of two tasks: it answers true precisely when some task executing the
    one point and some other task executing the other may be running at once. *)
Theorem mayHappenInParallel_refines_tasks `{!ConcurrentFact F}
    (f : F) L (g : F) R facts :
  mayHappenInParallel f L g R facts = true ↔
  ∃ t u, executes facts f L t ∧ executes facts g R u ∧ tasks_overlap facts f g t u.
Proof. apply mayHappenInParallel_tasks. Qed.

(** what a rule selection makes the analysis build depends on the set of
    selected rules only, not on their order or repetitions. *)
Theorem forRules_set_of_rules rules rules' projectAnalysis :
  (∀ r, r ∈ rules ↔ r ∈ rules') →
  forRules rules projectAnalysis = forRules rules' projectAnalysis.
Proof. intros H. unfold forRules. by rewrite (fold_selection_same_elements rules rules'). Qed.

Lemma forRules_set_of_rules_witness :
  forRules [RuleId_MissingJoin; RuleId_DataRaceGlobal] true =
  forRules [RuleId_DataRaceGlobal; RuleId_MissingJoin; RuleId_DataRaceGlobal] true.
Proof. apply forRules_set_of_rules. set_solver. Defined.
