(* ===== verification/DataRace.v ===== *)
(** The data race checker (src/internal/analysis/data_race_checker.cpp): which
    pairs of accesses conflict, how the conflicts of one symbol are merged into
    one finding per location and context, and the findings [DataRaceChecker::run]
    emits. *)

From Stdlib Require Import ZArith.
From S2P Require Import Prelude Diagnostics Facts FactQueries.

Definition kMaxRelatedConflictSites : nat := 6.

(** ** Pairs of accesses *)

Definition shareRecognizedLock (lhs rhs : AccessFact) : bool :=
  if bool_decide (acc_heldLocks lhs = ∅) || bool_decide (acc_heldLocks rhs = ∅) then false
  else intersects (acc_heldLocks lhs) (acc_heldLocks rhs).

Definition orderedByPublication (lhs rhs : AccessFact) : bool :=
  intersects (acc_beforeRelease lhs) (acc_afterAcquire rhs)
  || intersects (acc_beforeRelease rhs) (acc_afterAcquire lhs).

Definition isRaceFreeAtomicPair (lhs rhs : AccessFact) : bool :=
  acc_isAtomic lhs && acc_isAtomic rhs.

Definition isMixedAtomicPair (lhs rhs : AccessFact) : bool :=
  negb (Bool.eqb (acc_isAtomic lhs) (acc_isAtomic rhs)).

Definition hasPreciseRegions (lhs rhs : AccessFact) : bool :=
  if acc_coarseCallEffect lhs || acc_coarseCallEffect rhs then false
  else hasKnownOffset (acc_region lhs) && hasKnownOffset (acc_region rhs)
       && negb (bool_decide (byteSize (acc_region lhs) = 0%Z))
       && negb (bool_decide (byteSize (acc_region rhs) = 0%Z)).

Definition describeSymbol (access : AccessFact) : string := acc_symbol access.

Definition describeConflictSubject (access : AccessFact) : string :=
  if acc_sharedObject access
  then "unsynchronized concurrent access to an object shared with a thread"
  else "unsynchronized concurrent access to global '" +:+ describeSymbol access +:+ "'".

Definition sortedLocks (access : AccessFact) : list string :=
  sorted_elements (acc_heldLocks access).

Definition formatLocation (location : SourceLocation) : string :=
  (if bool_decide (loc_file location ≠ "") then loc_file location else "<unknown-file>") +:+
  (if bool_decide (loc_line location ≠ 0%N)
   then ":" +:+ pretty (loc_line location) +:+ ":" +:+ pretty (loc_column location) else "") +:+
  (if bool_decide (loc_function location ≠ "") then " in " +:+ loc_function location else "").

Definition conflictLocationKey (lhs rhs : AccessFact) (lhsEntries rhsEntries : ThreadEntrySet)
  : string :=
  let place :=
    if negb (hasKnownOffset (acc_region lhs)) || negb (hasKnownOffset (acc_region rhs))
    then "[*]"
    else "+" +:+ pretty (Z.min (byteOffset (acc_region lhs)) (byteOffset (acc_region rhs))) in
  let contexts :=
    sort_strings [joinValues (sortedThreadEntries lhsEntries);
                  joinValues (sortedThreadEntries rhsEntries)] in
  foldl (λ key context, key +:+ "|" +:+ context) (acc_symbol lhs +:+ place) contexts.

Definition sameSourceLocation (lhs rhs : SourceLocation) : bool :=
  bool_decide (loc_file lhs = loc_file rhs) && bool_decide (loc_line lhs = loc_line rhs)
  && bool_decide (loc_column lhs = loc_column rhs)
  && bool_decide (loc_function lhs = loc_function rhs).

Definition hasDistinctLoweredLocation (access : AccessFact) : bool :=
  negb (sameSourceLocation (acc_userLocation access) (acc_loweredLocation access)).

Definition racesWithItself (access : AccessFact) (entries : ThreadEntrySet) (facts : TUFacts)
  : bool :=
  if acc_boundBySpawn access then false
  else if racesWithRootTask access entries then true
  else existsb (λ lhsEntry,
    existsb (λ rhsEntry,
      str_lt lhsEntry rhsEntry && mayRunConcurrently {[lhsEntry]} {[rhsEntry]} facts)
    (elements entries)) (elements entries).

Definition inOwnObjectsOfInstances (lhs rhs : AccessFact) : bool :=
  bool_decide (acc_instanceOwner lhs ≠ "")
  && bool_decide (acc_instanceOwner lhs = acc_instanceOwner rhs).

Definition shareSelfConcurrentEntry (lhsEntries rhsEntries : ThreadEntrySet) (facts : TUFacts)
  : bool :=
  existsb (λ lhsEntry,
    if negb (bool_decide (lhsEntry ∈ rhsEntries)) then false
    else entrySelfConcurrent facts lhsEntry) (elements lhsEntries).

(** ** What a finding says *)

Definition conflictKindLabel (lhsKind rhsKind : AccessKind) : string :=
  if bool_decide (lhsKind = AccessKind_Write) && bool_decide (rhsKind = AccessKind_Write)
  then "write/write"
  else if bool_decide (lhsKind = AccessKind_Read) && bool_decide (rhsKind = AccessKind_Read)
  then "read/read" else "read/write".

Definition collectConflictKinds (lhs rhs : AccessFact) (lhsEntries rhsEntries : ThreadEntrySet)
    (facts : TUFacts) : list string :=
  let conflictKinds : gset string := {[conflictKindLabel (acc_kind lhs) (acc_kind rhs)]} in
  sorted_elements
    (if sameSourceLocation (acc_loweredLocation lhs) (acc_loweredLocation rhs)
        && shareSelfConcurrentEntry lhsEntries rhsEntries facts
        && (bool_decide (acc_kind lhs = AccessKind_Write)
            || bool_decide (acc_kind rhs = AccessKind_Write))
     then {["write/write"]} ∪ conflictKinds else conflictKinds).

Definition collectAliasProvenances (lhs rhs : AccessFact) : list string :=
  sorted_elements {[toString_alias (acc_aliasProvenance lhs);
                    toString_alias (acc_aliasProvenance rhs)]}.

Definition inferConfidence (lhs rhs : AccessFact) : ConfidenceLevel :=
  if bool_decide (acc_aliasProvenance lhs = AliasProvenance_MayAlias)
     || bool_decide (acc_aliasProvenance rhs = AliasProvenance_MayAlias)
  then Confidence_Low
  else if bool_decide (acc_aliasProvenance lhs = AliasProvenance_MustAlias)
     || bool_decide (acc_aliasProvenance rhs = AliasProvenance_MustAlias)
  then Confidence_Medium else Confidence_High.

Definition inferConfidence1 (access : AccessFact) : ConfidenceLevel :=
  if bool_decide (acc_aliasProvenance access = AliasProvenance_MayAlias) then Confidence_Low
  else if bool_decide (acc_aliasProvenance access = AliasProvenance_MustAlias)
  then Confidence_Medium else Confidence_High.

Definition describeAccess (access : AccessFact) (entries : list string) : string :=
  (if acc_isAtomic access then "atomic " else "") +:+
  toString_access (acc_kind access) +:+ " at " +:+ formatLocation (acc_userLocation access) +:+
  (if bool_decide (entries ≠ []) then " (thread entries: " +:+ joinValues entries +:+ ")"
   else if acc_inRootTask access then " (initial thread)" else "") +:+
  (if bool_decide (acc_heldLocks access ≠ ∅)
   then " under recognized lock(s): " +:+ joinValues (sortedLocks access) else "").

Definition describeContext (access : AccessFact) (entries : ThreadEntrySet) : list string :=
  let ordered := sortedThreadEntries entries in
  if bool_decide (ordered = []) && acc_inRootTask access then ordered ++ [rootTaskId] else ordered.

Definition emitPairDiagnostic (lhs rhs : AccessFact) (lhsEntries rhsEntries : ThreadEntrySet)
    (facts : TUFacts) (additionalConflictingPairs : nat)
    (relatedConflictSites : list (string * SourceLocation)) : Diagnostic :=
  let orderedLhsEntries := describeContext lhs lhsEntries in
  let orderedRhsEntries := describeContext rhs rhsEntries in
  let conflictKinds := collectConflictKinds lhs rhs lhsEntries rhsEntries facts in
  let variableAliasing := collectAliasProvenances lhs rhs in
  let builder := DiagnosticBuilder RuleId_DataRaceGlobal
    |> confidence (inferConfidence lhs rhs)
    |> primaryLocation (acc_userLocation lhs)
    |> relatedLocation "Conflicting access" (acc_userLocation rhs)
    |> message (describeConflictSubject lhs)
    |> note ("first access: " +:+ describeAccess lhs orderedLhsEntries)
    |> note ("conflicting access: " +:+ describeAccess rhs orderedRhsEntries)
    |> note ("possible conflict kinds: " +:+ joinValues conflictKinds)
    |> when (isMixedAtomicPair lhs rhs)
         (note "one side is atomic while the other is a plain access: atomicity on only one side does not order the pair")
    |> note "no common recognized lock protects the conflicting accesses"
    |> when (negb (bool_decide (additionalConflictingPairs = 0)))
         (note ("additional conflicting access pairs on this location: " +:+
                pretty additionalConflictingPairs))
    |> property "symbol" (PString (describeSymbol lhs))
    |> property "firstAccessKind" (PString (toString_access (acc_kind lhs)))
    |> property "secondAccessKind" (PString (toString_access (acc_kind rhs)))
    |> property "firstAliasProvenance" (PString (toString_alias (acc_aliasProvenance lhs)))
    |> property "secondAliasProvenance" (PString (toString_alias (acc_aliasProvenance rhs)))
    |> property "firstProtected" (PBool (negb (bool_decide (acc_heldLocks lhs = ∅))))
    |> property "secondProtected" (PBool (negb (bool_decide (acc_heldLocks rhs = ∅))))
    |> property "firstThreadEntries" (PStrings orderedLhsEntries)
    |> property "secondThreadEntries" (PStrings orderedRhsEntries)
    |> property "conflictKinds" (PStrings conflictKinds)
    |> property "variableAliasing" (PStrings variableAliasing)
    |> property "firstAtomic" (PBool (acc_isAtomic lhs))
    |> property "secondAtomic" (PBool (acc_isAtomic rhs))
    |> property "additionalConflictingPairs" (PInt (Z.of_nat additionalConflictingPairs))
    |> when (hasDistinctLoweredLocation lhs)
         (relatedLocation "Lowered first access" (acc_loweredLocation lhs))
    |> when (hasDistinctLoweredLocation rhs)
         (relatedLocation "Lowered conflicting access" (acc_loweredLocation rhs)) in
  foldl (λ d site, relatedLocation site.1 site.2 d) builder relatedConflictSites.

Definition emitSelfConcurrentDiagnostic (access : AccessFact) (entries : ThreadEntrySet)
  : Diagnostic :=
  let orderedEntries := describeContext access entries in
  let entryLabel :=
    if bool_decide (orderedEntries = []) then acc_functionId access
    else joinValues orderedEntries in
  let conflictKinds := ["write/write"] in
  let variableAliasing := [toString_alias (acc_aliasProvenance access)] in
  DiagnosticBuilder RuleId_DataRaceGlobal
    |> confidence (inferConfidence1 access)
    |> primaryLocation (acc_userLocation access)
    |> relatedLocation "Concurrent invocation" (acc_userLocation access)
    |> message (describeConflictSubject access)
    |> note ("access: " +:+ describeAccess access orderedEntries)
    |> note ("conflicts with another concurrent invocation reachable from thread entry '" +:+
             entryLabel +:+ "'")
    |> note ("possible conflict kinds: " +:+ joinValues conflictKinds)
    |> note "no common recognized lock protects the conflicting accesses"
    |> property "symbol" (PString (describeSymbol access))
    |> property "firstAccessKind" (PString (toString_access (acc_kind access)))
    |> property "secondAccessKind" (PString (toString_access (acc_kind access)))
    |> property "firstAliasProvenance" (PString (toString_alias (acc_aliasProvenance access)))
    |> property "secondAliasProvenance" (PString (toString_alias (acc_aliasProvenance access)))
    |> property "firstProtected" (PBool (negb (bool_decide (acc_heldLocks access = ∅))))
    |> property "secondProtected" (PBool (negb (bool_decide (acc_heldLocks access = ∅))))
    |> property "firstThreadEntries" (PStrings orderedEntries)
    |> property "secondThreadEntries" (PStrings orderedEntries)
    |> property "conflictKinds" (PStrings conflictKinds)
    |> property "variableAliasing" (PStrings variableAliasing)
    |> when (hasDistinctLoweredLocation access)
         (relatedLocation "Lowered access" (acc_loweredLocation access)).

(** ** Scanning the accesses of one symbol *)

Definition entriesOf (facts : TUFacts) (access : AccessFact) : ThreadEntrySet :=
  default ∅ (reachableThreadEntriesByFunction facts !! acc_functionId access).

(** Code some task executes: a spawned entry or the initial thread. *)
Definition participates (facts : TUFacts) (access : AccessFact) : bool :=
  bool_decide (is_Some (reachableThreadEntriesByFunction facts !! acc_functionId access))
  || acc_inRootTask access.

Definition accessesBySymbol (facts : TUFacts) : gmap string (list AccessFact) :=
  foldl (λ groups access,
    if negb (participates facts access) then groups
    else <[acc_symbol access := default [] (groups !! acc_symbol access) ++ [access]]> groups)
    ∅ (accesses facts).

(** The [continue]s of the pair loop, in order, up to the weighing of
    approximations. *)
Definition pairConflicts (facts : TUFacts) (lhs rhs : AccessFact) : bool :=
  if bool_decide (acc_kind lhs ≠ AccessKind_Write) && bool_decide (acc_kind rhs ≠ AccessKind_Write)
  then false
  else if negb (mayOverlap (acc_region lhs) (acc_region rhs)) then false
  else if orderedWithElementOwner (acc_region lhs) (acc_region rhs) then false
  else if isRaceFreeAtomicPair lhs rhs then false
  else if isMixedAtomicPair lhs rhs && negb (hasPreciseRegions lhs rhs) then false
  else if negb (mayHappenInParallel lhs (entriesOf facts lhs) rhs (entriesOf facts rhs) facts)
  then false
  else if inOwnObjectsOfInstances lhs rhs then false
  else if shareRecognizedLock lhs rhs || orderedByPublication lhs rhs then false
  else true.

(** A pair observed on instructions whose symbol was resolved, not guessed. *)
Definition isPrecisePair (lhs rhs : AccessFact) : bool :=
  negb (acc_coarseCallEffect lhs) && negb (acc_coarseCallEffect rhs)
  && negb (acc_guessedIdentity lhs) && negb (acc_guessedIdentity rhs).

Record LocationConflict := MkConflict {
  lc_pair : option (AccessFact * AccessFact);
  lc_confidence : ConfidenceLevel;
  lc_isWriteWrite : bool;
  lc_isPrecise : bool;
  lc_showsLoweredOrigin : bool;
  lc_additionalPairs : nat;
  lc_relatedSites : list (string * SourceLocation);
  lc_seenSiteKeys : gset string;
}.

Definition new_conflict : LocationConflict :=
  MkConflict None Confidence_Low false false false 0 [] ∅.

(** [std::tuple] comparison: lexicographic on the components' values. *)
Fixpoint lex_lt (xs ys : list nat) : bool :=
  match xs, ys with
  | x :: xs', y :: ys' => (x <? y) || ((x =? y) && lex_lt xs' ys')
  | _, _ => false
  end.

Definition candidate_rank (isPrecise showsLoweredOrigin : bool) (c : ConfidenceLevel)
    (isWriteWrite : bool) : list nat :=
  [Nat.b2n isPrecise; Nat.b2n showsLoweredOrigin; Confidence_index c; Nat.b2n isWriteWrite].

Definition conflict_rank (c : LocationConflict) : list nat :=
  candidate_rank (lc_isPrecise c) (lc_showsLoweredOrigin c) (lc_confidence c) (lc_isWriteWrite c).

Definition pair_rank (lhs rhs : AccessFact) : list nat :=
  candidate_rank (isPrecisePair lhs rhs) (hasDistinctLoweredLocation lhs) (inferConfidence lhs rhs)
    (bool_decide (acc_kind lhs = AccessKind_Write) && bool_decide (acc_kind rhs = AccessKind_Write)).

(** Keeps the better of the represented pair and the new one, and counts the other. *)
Definition updateRepresentative (lhs rhs : AccessFact) (c : LocationConflict) : LocationConflict :=
  if bool_decide (lc_pair c = None) || lex_lt (conflict_rank c) (pair_rank lhs rhs)
  then MkConflict (Some (lhs, rhs)) (inferConfidence lhs rhs)
         (bool_decide (acc_kind lhs = AccessKind_Write)
          && bool_decide (acc_kind rhs = AccessKind_Write))
         (isPrecisePair lhs rhs) (hasDistinctLoweredLocation lhs)
         (if bool_decide (lc_pair c = None) then lc_additionalPairs c
          else S (lc_additionalPairs c))
         (lc_relatedSites c) (lc_seenSiteKeys c)
  else MkConflict (lc_pair c) (lc_confidence c) (lc_isWriteWrite c) (lc_isPrecise c)
         (lc_showsLoweredOrigin c) (S (lc_additionalPairs c)) (lc_relatedSites c)
         (lc_seenSiteKeys c).

(** One round of the loop listing a pair's sites; past the limit the source
    leaves the loop, which every later round here does too. *)
Definition addRelatedSite (c : LocationConflict) (site : AccessFact) : LocationConflict :=
  if kMaxRelatedConflictSites <=? length (lc_relatedSites c) then c
  else
    let siteKey := formatLocation (acc_userLocation site) in
    if bool_decide (siteKey ∈ lc_seenSiteKeys c) then c
    else MkConflict (lc_pair c) (lc_confidence c) (lc_isWriteWrite c) (lc_isPrecise c)
           (lc_showsLoweredOrigin c) (lc_additionalPairs c)
           (lc_relatedSites c ++ [("Conflicting site", acc_userLocation site)])
           ({[siteKey]} ∪ lc_seenSiteKeys c).

Definition recordPair (lhs rhs : AccessFact) (c : LocationConflict) : LocationConflict :=
  foldl addRelatedSite (updateRepresentative lhs rhs c) [lhs; rhs].

(** [conflictsByLocation] and [preciseConflictSymbols] of the source. *)
Record ScanState := MkScan {
  conflictsByLocation : gmap string LocationConflict;
  preciseConflictSymbols : gset string;
}.

Definition pairKey (facts : TUFacts) (lhs rhs : AccessFact) : string :=
  conflictLocationKey lhs rhs (entriesOf facts lhs) (entriesOf facts rhs).

Definition recordConflict (facts : TUFacts) (lhs rhs : AccessFact)
    (conflicts : gmap string LocationConflict) : gmap string LocationConflict :=
  let key := pairKey facts lhs rhs in
  <[key := recordPair lhs rhs (default new_conflict (conflicts !! key))]> conflicts.

Definition scanPair (facts : TUFacts) (lhs rhs : AccessFact) (st : ScanState) : ScanState :=
  if negb (pairConflicts facts lhs rhs) then st
  else if isPrecisePair lhs rhs then
    MkScan (recordConflict facts lhs rhs (conflictsByLocation st))
      ({[acc_symbol lhs]} ∪ preciseConflictSymbols st)
  else if bool_decide (acc_symbol lhs ∈ preciseConflictSymbols st) then st
  else MkScan (recordConflict facts lhs rhs (conflictsByLocation st)) (preciseConflictSymbols st).

(** Every pair of two accesses, the earlier one on the left. *)
Section scan.
Context (facts : TUFacts).

Fixpoint scanPairs (group : list AccessFact) (st : ScanState) : ScanState :=
  match group with
  | [] => st
  | lhs :: rest =>
      scanPairs rest (foldl (λ st rhs, scanPair facts lhs rhs st) st rest)
  end.
End scan.

Definition isPreciseAccess (access : AccessFact) : bool :=
  negb (acc_coarseCallEffect access) && negb (acc_guessedIdentity access).

(** An access compared with itself, over contexts no pair reported. *)
Definition scanSelf (facts : TUFacts) (st : ScanState) (access : AccessFact) : ScanState :=
  if bool_decide (acc_kind access ≠ AccessKind_Write) || acc_isAtomic access then st
  else if negb (racesWithItself access (entriesOf facts access) facts) then st
  else if shareRecognizedLock access access then st
  else if negb (isPreciseAccess access)
          && bool_decide (acc_symbol access ∈ preciseConflictSymbols st) then st
  else
    let key := pairKey facts access access in
    match conflictsByLocation st !! key with
    | Some _ => st
    | None =>
        MkScan (<[key := MkConflict (Some (access, access)) (inferConfidence1 access) true
                           (isPreciseAccess access) (hasDistinctLoweredLocation access) 0 [] ∅]>
                  (conflictsByLocation st))
          (preciseConflictSymbols st)
    end.

Definition scanSymbol (facts : TUFacts) (group : list AccessFact) : ScanState :=
  foldl (scanSelf facts) (scanPairs facts group (MkScan ∅ ∅)) group.

(** ** Findings *)

(** The representative pair already carries both of its own locations. *)
Definition otherSites (lhs rhs : AccessFact) (sites : list (string * SourceLocation))
  : list (string * SourceLocation) :=
  List.filter (λ site : string * SourceLocation,
    negb (sameSourceLocation site.2 (acc_userLocation lhs)
          || sameSourceLocation site.2 (acc_userLocation rhs))) sites.

Definition conflictDiagnostic (facts : TUFacts) (c : LocationConflict) : option Diagnostic :=
  match lc_pair c with
  | None => None
  | Some (lhs, rhs) =>
      Some (emitPairDiagnostic lhs rhs (entriesOf facts lhs) (entriesOf facts rhs) facts
              (lc_additionalPairs c) (otherSites lhs rhs (lc_relatedSites c)))
  end.

(** The guards of the self-concurrent report. *)
Definition selfConcurrentConflict (facts : TUFacts) (access : AccessFact) : bool :=
  if bool_decide (acc_kind access ≠ AccessKind_Write) || acc_isAtomic access then false
  else if negb (isSelfConcurrent (entriesOf facts access) facts) then false
  else if inOwnObjectsOfInstances access access then false
  else if negb (mayOverlap (acc_region access) (acc_region access)) then false
  else if shareRecognizedLock access access then false
  else true.

Definition selfConcurrentDiagnostics (facts : TUFacts) (group : list AccessFact)
  : list Diagnostic :=
  match List.find (selfConcurrentConflict facts) group with
  | Some access => [emitSelfConcurrentDiagnostic access (entriesOf facts access)]
  | None => []
  end.

Definition symbolDiagnostics (facts : TUFacts) (group : list AccessFact) : list Diagnostic :=
  let conflicts := conflictsByLocation (scanSymbol facts group) in
  if bool_decide (conflicts = ∅) then selfConcurrentDiagnostics facts group
  else omap (λ item, conflictDiagnostic facts item.2) (map_items conflicts).

Definition DataRaceChecker_run (facts : TUFacts) : DiagnosticReport :=
  foldl (λ report group, emit_all report (symbolDiagnostics facts group.2)) empty_report
    (map_items (accessesBySymbol facts)).
