(* ===== verification/DataRaceProps.v ===== *)
(** Theorems on the data race checker of DataRace.v: the conflict test against
    an abstract notion of race, soundness and completeness of the report, what
    the merged findings count and show, and the order dependence of the
    weighing of approximations. *)

From Stdlib Require Import ZArith.
From S2P Require Import Prelude Diagnostics Facts FactQueries DataRace.

(** ** The abstract notion of race *)

(** Two accesses to one symbol, at least one of them a write and one of them
    not atomic, with no lock held at both, executed by two tasks that may be
    running at once. *)
Record Race (facts : TUFacts) (lhs rhs : AccessFact) : Prop := {
  race_symbol : acc_symbol lhs = acc_symbol rhs;
  race_write : acc_kind lhs = AccessKind_Write ∨ acc_kind rhs = AccessKind_Write;
  race_atomicity : acc_isAtomic lhs = false ∨ acc_isAtomic rhs = false;
  race_unlocked : acc_heldLocks lhs ## acc_heldLocks rhs;
  race_region : mayOverlap (acc_region lhs) (acc_region rhs) = true ∨ lhs = rhs;
  race_parallel : ∃ t u,
    executes facts lhs (entriesOf facts lhs) t ∧ executes facts rhs (entriesOf facts rhs) u ∧
    tasks_overlap facts lhs rhs t u;
}.

(** Every pair of a list, the earlier element first. *)
Fixpoint all_pairs {A} (l : list A) : list (A * A) :=
  match l with
  | [] => []
  | x :: l' => (pair x <$> l') ++ all_pairs l'
  end.

(** ** Lemmas on the pair tests *)

Lemma shareRecognizedLock_spec lhs rhs :
  shareRecognizedLock lhs rhs = true ↔ ∃ lock, lock ∈ acc_heldLocks lhs ∧ lock ∈ acc_heldLocks rhs.
Proof.
  unfold shareRecognizedLock. rewrite <-intersects_spec.
  destruct (_ || _) eqn:H; [|done]. rewrite orb_true_iff, !bool_decide_eq_true in H.
  split; [done|]. rewrite intersects_spec. set_solver.
Qed.

Lemma shareRecognizedLock_comm lhs rhs : shareRecognizedLock lhs rhs = shareRecognizedLock rhs lhs.
Proof.
  apply eq_bool_prop_intro. rewrite !Is_true_true, !shareRecognizedLock_spec. naive_solver.
Qed.

Lemma shareRecognizedLock_false lhs rhs :
  shareRecognizedLock lhs rhs = false ↔ acc_heldLocks lhs ## acc_heldLocks rhs.
Proof. rewrite <-not_true_iff_false, shareRecognizedLock_spec. set_solver. Qed.

Lemma orderedByPublication_comm lhs rhs :
  orderedByPublication lhs rhs = orderedByPublication rhs lhs.
Proof. apply orb_comm. Qed.

Lemma isMixedAtomicPair_comm lhs rhs : isMixedAtomicPair lhs rhs = isMixedAtomicPair rhs lhs.
Proof. unfold isMixedAtomicPair. by destruct (acc_isAtomic lhs), (acc_isAtomic rhs). Qed.

Lemma hasPreciseRegions_comm lhs rhs : hasPreciseRegions lhs rhs = hasPreciseRegions rhs lhs.
Proof.
  unfold hasPreciseRegions.
  destruct (acc_coarseCallEffect lhs), (acc_coarseCallEffect rhs); try done.
  destruct (hasKnownOffset (acc_region lhs)), (hasKnownOffset (acc_region rhs)); try done.
  apply andb_comm.
Qed.

Lemma inOwnObjectsOfInstances_comm lhs rhs :
  inOwnObjectsOfInstances lhs rhs = inOwnObjectsOfInstances rhs lhs.
Proof.
  apply eq_bool_prop_intro. unfold inOwnObjectsOfInstances.
  rewrite !andb_True, !bool_decide_spec. split; intros [Hne Heq]; by rewrite <-Heq.
Qed.

(** The guards of the pair loop, read as propositions. *)
Lemma pairConflicts_spec facts lhs rhs :
  pairConflicts facts lhs rhs = true ↔
  (acc_kind lhs = AccessKind_Write ∨ acc_kind rhs = AccessKind_Write) ∧
  mayOverlap (acc_region lhs) (acc_region rhs) = true ∧
  orderedWithElementOwner (acc_region lhs) (acc_region rhs) = false ∧
  isRaceFreeAtomicPair lhs rhs = false ∧
  (isMixedAtomicPair lhs rhs = true → hasPreciseRegions lhs rhs = true) ∧
  mayHappenInParallel lhs (entriesOf facts lhs) rhs (entriesOf facts rhs) facts = true ∧
  inOwnObjectsOfInstances lhs rhs = false ∧
  shareRecognizedLock lhs rhs = false ∧ orderedByPublication lhs rhs = false.
Proof.
  assert (∀ b c : bool, (b = true → c = true) ↔ b && negb c = false) as Hm by (by intros [] []; intuition).
  assert (∀ k k' : AccessKind, (k = AccessKind_Write ∨ k' = AccessKind_Write) ↔
    bool_decide (k ≠ AccessKind_Write) && bool_decide (k' ≠ AccessKind_Write) = false) as Hk.
  { intros [] []; vm_compute; intuition congruence. }
  unfold pairConflicts. rewrite !guard_spec, !negb_false_iff, orb_false_iff, Hm, Hk. tauto.
Qed.

Lemma pairConflicts_comm facts lhs rhs : pairConflicts facts lhs rhs = pairConflicts facts rhs lhs.
Proof.
  apply eq_bool_prop_intro. rewrite !Is_true_true, !pairConflicts_spec.
  rewrite (mayOverlap_comm (acc_region lhs)), (orderedWithElementOwner_comm (acc_region lhs)),
    (isMixedAtomicPair_comm lhs), (hasPreciseRegions_comm lhs),
    (mayHappenInParallel_comm lhs), (inOwnObjectsOfInstances_comm lhs),
    (shareRecognizedLock_comm lhs), (orderedByPublication_comm lhs).
  unfold isRaceFreeAtomicPair. rewrite (andb_comm (acc_isAtomic lhs)).
  by rewrite (or_comm (acc_kind lhs = _)).
Qed.

Lemma pairConflicts_Race facts lhs rhs :
  acc_symbol lhs = acc_symbol rhs → pairConflicts facts lhs rhs = true → Race facts lhs rhs.
Proof.
  rewrite pairConflicts_spec. intros Hs (Hw & Ho & _ & Hat & _ & Hp & _ & Hl & _). split.
  - done.
  - done.
  - by apply andb_false_iff.
  - by apply shareRecognizedLock_false.
  - by left.
  - by apply mayHappenInParallel_tasks.
Qed.

(** ** Lemmas on an access compared with itself *)

Lemma racesWithItself_tasks facts a :
  racesWithItself a (entriesOf facts a) facts = true →
  ∃ t u, executes facts a (entriesOf facts a) t ∧ executes facts a (entriesOf facts a) u ∧
         tasks_overlap facts a a t u.
Proof.
  unfold racesWithItself. destruct (acc_boundBySpawn a); [done|].
  destruct (racesWithRootTask a _) eqn:Hr.
  - intros _. apply racesWithRootTask_spec in Hr as (Hr & e & He & Hl).
    exists RootTask, (EntryInstance e false). by repeat constructor.
  - rewrite existsb_elem. intros (l & Hl & H). rewrite existsb_elem in H.
    destruct H as (r & Hr' & H). rewrite elem_of_elements in Hl, Hr'.
    rewrite andb_true_iff, mayRunConcurrently_spec in H.
    destruct H as (Hlt & l' & r' & Hl' & Hr'' & H).
    apply elem_of_singleton in Hl' as ->. apply elem_of_singleton in Hr'' as ->.
    destruct H as [[Hne Hs]|[-> _]]; [|by rewrite str_lt_irrefl in Hlt].
    exists (EntryInstance l false), (EntryInstance r false). by repeat constructor.
Qed.

Lemma self_Race facts a :
  acc_kind a = AccessKind_Write → acc_isAtomic a = false → shareRecognizedLock a a = false →
  (∃ t u, executes facts a (entriesOf facts a) t ∧ executes facts a (entriesOf facts a) u ∧
          tasks_overlap facts a a t u) →
  Race facts a a.
Proof. intros Hw Ha Hl Hp. split; auto. by apply shareRecognizedLock_false. Qed.

(** The first guard of both loops over single accesses. *)
Lemma plain_write_guard a :
  bool_decide (acc_kind a ≠ AccessKind_Write) || acc_isAtomic a = false →
  acc_kind a = AccessKind_Write ∧ acc_isAtomic a = false.
Proof.
  rewrite orb_false_iff, bool_decide_eq_false. intros [H ?]. split; [|done].
  destruct (acc_kind a); [|done]. by exfalso; apply H.
Qed.

Lemma selfConcurrentConflict_Race facts a : selfConcurrentConflict facts a = true → Race facts a a.
Proof.
  unfold selfConcurrentConflict. rewrite !guard_spec, !negb_false_iff.
  intros (H%plain_write_guard & Hs & _ & _ & Hl & _). destruct H as [Hw Ha].
  apply self_Race; auto. apply isSelfConcurrent_spec in Hs as (e & He & Hs).
  exists (EntryInstance e false), (EntryInstance e true). by repeat constructor.
Qed.

(** ** Lemmas on the scan *)

Lemma elem_of_all_pairs {A} (l : list A) x y : (x, y) ∈ all_pairs l → x ∈ l ∧ y ∈ l.
Proof.
  induction l as [|z l IH]; simpl; [set_solver|].
  rewrite elem_of_app, list_elem_of_fmap. intros [(y' & [= -> ->] & Hy)|H]; set_solver.
Qed.

Lemma all_pairs_lookup {A} (l : list A) i j x y :
  i < j → l !! i = Some x → l !! j = Some y → (x, y) ∈ all_pairs l.
Proof.
  revert i j. induction l as [|z l IH]; intros i j Hij Hi Hj; [done|].
  destruct i as [|i], j as [|j]; simplify_eq/=; [lia| |lia|].
  - apply elem_of_app. left. apply list_elem_of_fmap. exists y.
    split; [done|]. by eapply list_elem_of_lookup_2.
  - apply elem_of_app. right. apply (IH i j); auto. lia.
Qed.

Lemma scanPairs_all_pairs facts group st :
  scanPairs facts group st = foldl (λ st p, scanPair facts p.1 p.2 st) st (all_pairs group).
Proof.
  revert st. induction group as [|lhs rest IH]; intros st; simpl; [done|].
  rewrite foldl_app, IH. f_equal. clear IH. revert st.
  induction rest as [|rhs rest IH]; intros st; simpl; [done|]. apply IH.
Qed.

Lemma lc_pair_addRelatedSite c site : lc_pair (addRelatedSite c site) = lc_pair c.
Proof. unfold addRelatedSite. by repeat case_match. Qed.

Lemma lc_pair_recordPair lhs rhs c :
  lc_pair (recordPair lhs rhs c) = Some (lhs, rhs) ∨
  (lc_pair c ≠ None ∧ lc_pair (recordPair lhs rhs c) = lc_pair c).
Proof.
  unfold recordPair. simpl. rewrite !lc_pair_addRelatedSite. unfold updateRepresentative.
  destruct (_ || _) eqn:H; simpl; [by left|right].
  rewrite orb_false_iff, bool_decide_eq_false in H. naive_solver.
Qed.

Lemma relatedSites_bound_recordPair lhs rhs c :
  length (lc_relatedSites c) ≤ kMaxRelatedConflictSites →
  length (lc_relatedSites (recordPair lhs rhs c)) ≤ kMaxRelatedConflictSites.
Proof.
  assert (∀ c site, length (lc_relatedSites c) ≤ kMaxRelatedConflictSites →
    length (lc_relatedSites (addRelatedSite c site)) ≤ kMaxRelatedConflictSites) as Hadd.
  { intros c' site H. unfold addRelatedSite.
    destruct (Nat.leb_spec kMaxRelatedConflictSites (length (lc_relatedSites c'))); [done|].
    case_bool_decide; simpl; [done|]. rewrite length_app. simpl. lia. }
  intros H. unfold recordPair. simpl. do 2 apply Hadd.
  unfold updateRepresentative. by case_match.
Qed.

(** What the scan of a group guarantees of every conflict it holds. *)
Definition conflict_ok (facts : TUFacts) (group : list AccessFact) (c : LocationConflict) : Prop :=
  (∃ l r, lc_pair c = Some (l, r) ∧ l ∈ group ∧ r ∈ group ∧ Race facts l r) ∧
  length (lc_relatedSites c) ≤ kMaxRelatedConflictSites.

Definition scan_ok (facts : TUFacts) (group : list AccessFact) (st : ScanState) : Prop :=
  map_Forall (λ _ c, conflict_ok facts group c) (conflictsByLocation st) ∧
  (conflictsByLocation st = ∅ → preciseConflictSymbols st = ∅).

Lemma scan_ok_record facts group st l r X :
  scan_ok facts group st → l ∈ group → r ∈ group → Race facts l r →
  scan_ok facts group (MkScan (recordConflict facts l r (conflictsByLocation st)) X).
Proof.
  intros [Hst _] Hl Hr HR. split; simpl.
  2: { unfold recordConflict. intros H. by apply insert_non_empty in H. }
  apply map_Forall_insert_2; [|done].
  set (old := default new_conflict _).
  assert (lc_pair old ≠ None → conflict_ok facts group old) as Hold.
  { unfold old. destruct (conflictsByLocation st !! _) as [c|] eqn:E; simpl; [|done].
    intros _. by apply (Hst _ _ E). }
  assert (length (lc_relatedSites old) ≤ kMaxRelatedConflictSites) as Hlen.
  { unfold old. destruct (conflictsByLocation st !! _) as [c|] eqn:E; simpl.
    - by apply (Hst _ _ E).
    - unfold kMaxRelatedConflictSites. lia. }
  split; [|by apply relatedSites_bound_recordPair].
  destruct (lc_pair_recordPair l r old) as [H|[Hne H]]; rewrite H; [by eauto 7|].
  by apply Hold.
Qed.

Lemma scan_ok_pair facts group st l r :
  (∀ x y, x ∈ group → y ∈ group → acc_symbol x = acc_symbol y) →
  scan_ok facts group st → l ∈ group → r ∈ group → scan_ok facts group (scanPair facts l r st).
Proof.
  intros Hsym Hst Hl Hr. unfold scanPair.
  destruct (pairConflicts facts l r) eqn:HC; simpl; [|done].
  assert (Race facts l r) by (apply pairConflicts_Race; auto).
  case_match; [by apply scan_ok_record|]. case_match; [done|]. by apply scan_ok_record.
Qed.

Lemma scan_ok_self facts group st a :
  scan_ok facts group st → a ∈ group → scan_ok facts group (scanSelf facts st a).
Proof.
  intros Hst Ha. unfold scanSelf.
  destruct (_ || _) eqn:Hg; [done|]. apply plain_write_guard in Hg as [Hw Hat].
  destruct (racesWithItself _ _ _) eqn:Hr; simpl; [|done].
  destruct (shareRecognizedLock a a) eqn:Hl; [done|]. case_match; [done|].
  destruct (conflictsByLocation st !! _) eqn:E; [done|].
  assert (Race facts a a) by (apply self_Race; auto; by apply racesWithItself_tasks).
  destruct Hst as [Hst _]. split; simpl.
  - apply map_Forall_insert_2; [|done]. split; simpl; [by eauto 7|].
    unfold kMaxRelatedConflictSites. lia.
  - intros H'. by apply insert_non_empty in H'.
Qed.

Lemma scan_ok_pairs facts group :
  (∀ x y, x ∈ group → y ∈ group → acc_symbol x = acc_symbol y) →
  scan_ok facts group (scanPairs facts group (MkScan ∅ ∅)).
Proof.
  intros Hsym. rewrite scanPairs_all_pairs. apply foldl_inv.
  - split; [apply map_Forall_empty|done].
  - intros st [l r] [??]%elem_of_all_pairs Hst. by apply scan_ok_pair.
Qed.

Lemma scan_ok_symbol facts group :
  (∀ x y, x ∈ group → y ∈ group → acc_symbol x = acc_symbol y) →
  scan_ok facts group (scanSymbol facts group).
Proof.
  intros Hsym. unfold scanSymbol. apply foldl_inv; [by apply scan_ok_pairs|].
  intros st a Ha Hst. by apply scan_ok_self.
Qed.

(** ** Lemmas on the grouping by symbol *)

(** The accesses some task executes to one symbol, in the order collected. *)
Definition symbolGroup (facts : TUFacts) (s : string) : list AccessFact :=
  List.filter (λ a, participates facts a && bool_decide (acc_symbol a = s)) (accesses facts).

Lemma elem_of_symbolGroup facts s a :
  a ∈ symbolGroup facts s ↔ a ∈ accesses facts ∧ participates facts a = true ∧ acc_symbol a = s.
Proof.
  unfold symbolGroup. rewrite list_elem_of_In, filter_In, andb_true_iff, bool_decide_eq_true.
  by rewrite <-list_elem_of_In.
Qed.

Lemma accessesBySymbol_group facts s :
  accessesBySymbol facts !! s =
  if bool_decide (symbolGroup facts s = []) then None else Some (symbolGroup facts s).
Proof.
  unfold accessesBySymbol, symbolGroup. induction (accesses facts) as [|a l IH] using rev_ind.
  { simpl. by rewrite lookup_empty. }
  rewrite foldl_snoc, List.filter_app. simpl.
  destruct (participates facts a); simpl; [|by rewrite app_nil_r].
  destruct (decide (acc_symbol a = s)) as [<-|Hne].
  - rewrite lookup_insert_eq, IH, (bool_decide_true (acc_symbol a = acc_symbol a)) by done.
    destruct (List.filter _ l); by case_bool_decide.
  - rewrite lookup_insert_ne, IH, (bool_decide_false (acc_symbol a = s)) by done.
    by rewrite app_nil_r.
Qed.

Lemma accessesBySymbol_Some facts s g :
  accessesBySymbol facts !! s = Some g → g = symbolGroup facts s.
Proof. rewrite accessesBySymbol_group. case_bool_decide; congruence. Qed.

Lemma symbolGroup_same_symbol facts s x y :
  x ∈ symbolGroup facts s → y ∈ symbolGroup facts s → acc_symbol x = acc_symbol y.
Proof. rewrite !elem_of_symbolGroup. intros (_ & _ & ->) (_ & _ & ->). done. Qed.

(** ** Lemmas on the findings *)

Lemma run_diagnostics facts d :
  d ∈ rep_diagnostics (DataRaceChecker_run facts) ↔
  ∃ s, symbolGroup facts s ≠ [] ∧ d ∈ symbolDiagnostics facts (symbolGroup facts s).
Proof.
  assert (∀ (items : list (string * list AccessFact)) report,
    rep_diagnostics (foldl (λ report group, emit_all report (symbolDiagnostics facts group.2))
                       report items) =
    rep_diagnostics report ++ concat ((λ group, symbolDiagnostics facts group.2) <$> items)) as Hf.
  { induction items as [|g items IH]; intros report; simpl; [by rewrite app_nil_r|].
    by rewrite IH, emit_all_diagnostics, app_assoc. }
  unfold DataRaceChecker_run. rewrite Hf. simpl.
  rewrite list_elem_of_In, in_concat. setoid_rewrite <-list_elem_of_In.
  setoid_rewrite list_elem_of_fmap. split.
  - intros (ds & ([s g] & -> & Hg) & Hd). rewrite elem_of_map_items in Hg. simpl in Hd.
    exists s. rewrite accessesBySymbol_group in Hg. case_bool_decide; by simplify_eq.
  - intros (s & Hne & Hd). eexists. split; [|done]. exists (s, symbolGroup facts s).
    split; [done|]. rewrite elem_of_map_items, accessesBySymbol_group. by case_bool_decide.
Qed.

Lemma foldl_relatedLocation (d : Diagnostic) (sites : list (string * SourceLocation)) :
  let d' := foldl (λ d site, relatedLocation site.1 site.2 d) d sites in
  diag_location d' = diag_location d ∧ diag_properties d' = diag_properties d ∧
  length (diag_relatedLocations d') = length (diag_relatedLocations d) + length sites.
Proof.
  revert d. induction sites as [|s sites IH]; intros d; simpl; [by rewrite Nat.add_0_r|].
  destruct (IH (relatedLocation s.1 s.2 d)) as (-> & -> & ->). simpl.
  rewrite length_app. simpl. split_and!; [done|done|lia].
Qed.

Lemma emitPairDiagnostic_fields lhs rhs L R facts n sites :
  let d := emitPairDiagnostic lhs rhs L R facts n sites in
  diag_location d = acc_userLocation lhs ∧
  diag_properties d !! "symbol" = Some (PString (acc_symbol lhs)) ∧
  length (diag_relatedLocations d) ≤ 3 + length sites.
Proof.
  unfold emitPairDiagnostic.
  match goal with |- context [foldl _ ?b sites] => pose proof (foldl_relatedLocation b sites) as H end.
  cbv zeta in H |- *. destruct H as (-> & -> & ->).
  repeat match goal with |- context [when ?b (relatedLocation ?t ?l) ?d] =>
    destruct (when_relatedLocation b t l d) as (-> & -> & ->) end.
  diag_simpl. repeat match goal with |- context [when ?b (note ?t) ?d] =>
    destruct (when_note b t d) as (-> & -> & ->); diag_simpl end.
  split_and!; [done| |destruct (hasDistinctLoweredLocation lhs), (hasDistinctLoweredLocation rhs); simpl; lia].
  rewrite !lookup_insert_ne by done. apply lookup_insert_eq.
Qed.

Lemma emitSelfConcurrentDiagnostic_fields a entries :
  let d := emitSelfConcurrentDiagnostic a entries in
  diag_location d = acc_userLocation a ∧
  diag_properties d !! "symbol" = Some (PString (acc_symbol a)) ∧
  length (diag_relatedLocations d) ≤ 2.
Proof.
  unfold emitSelfConcurrentDiagnostic.
  destruct (hasDistinctLoweredLocation a); simpl; split_and!; try done; try lia;
    rewrite !lookup_insert_ne by done; apply lookup_insert_eq.
Qed.

(** Everything the report says, for one group of accesses. *)
Lemma symbolDiagnostics_sound facts group d :
  (∀ x y, x ∈ group → y ∈ group → acc_symbol x = acc_symbol y) →
  d ∈ symbolDiagnostics facts group →
  ∃ l r, l ∈ group ∧ r ∈ group ∧ Race facts l r ∧
    diag_location d = acc_userLocation l ∧
    diag_properties d !! "symbol" = Some (PString (acc_symbol l)) ∧
    length (diag_relatedLocations d) ≤ 3 + kMaxRelatedConflictSites.
Proof.
  intros Hsym. unfold symbolDiagnostics. case_bool_decide as He.
  - unfold selfConcurrentDiagnostics. destruct (List.find _ group) as [a|] eqn:Ef; [|set_solver].
    intros ->%list_elem_of_singleton. apply List.find_some in Ef as [Ha Hc].
    apply list_elem_of_In in Ha.
    destruct (emitSelfConcurrentDiagnostic_fields a (entriesOf facts a)) as (H1 & H2 & H3).
    exists a, a. split_and!; auto using selfConcurrentConflict_Race. lia.
  - rewrite list_elem_of_omap. intros ([k c] & Hk & Hd). rewrite elem_of_map_items in Hk.
    destruct (scan_ok_symbol facts group Hsym) as [Hok _].
    destruct (Hok k c Hk) as [(l & r & Hp & Hl & Hr & HR) Hlen]. simpl in Hd.
    unfold conflictDiagnostic in Hd. rewrite Hp in Hd. simplify_eq.
    destruct (emitPairDiagnostic_fields l r (entriesOf facts l) (entriesOf facts r) facts
      (lc_additionalPairs c) (otherSites l r (lc_relatedSites c))) as (H1 & H2 & H3).
    exists l, r. split_and!; auto.
    pose proof (List.filter_length_le (λ site : string * SourceLocation,
      negb (sameSourceLocation site.2 (acc_userLocation l)
          || sameSourceLocation site.2 (acc_userLocation r))) (lc_relatedSites c)).
    unfold otherSites in *. lia.
Qed.

Lemma run_sound_lemma facts d :
  d ∈ rep_diagnostics (DataRaceChecker_run facts) →
  ∃ l r, l ∈ accesses facts ∧ r ∈ accesses facts ∧ Race facts l r ∧
    diag_location d = acc_userLocation l ∧
    diag_properties d !! "symbol" = Some (PString (acc_symbol l)) ∧
    length (diag_relatedLocations d) ≤ 3 + kMaxRelatedConflictSites.
Proof.
  rewrite run_diagnostics. intros (s & _ & Hd).
  apply symbolDiagnostics_sound in Hd as (l & r & Hl & Hr & H);
    [|by apply symbolGroup_same_symbol].
  rewrite elem_of_symbolGroup in Hl, Hr. destruct Hl as [Hl _], Hr as [Hr _]. by exists l, r.
Qed.

(** Recording never forgets a location, and a scan that met a conflict holds one. *)
Lemma scanPair_nonempty facts l r st :
  (conflictsByLocation st = ∅ → preciseConflictSymbols st = ∅) →
  conflictsByLocation st ≠ ∅ ∨ pairConflicts facts l r = true →
  conflictsByLocation (scanPair facts l r st) ≠ ∅.
Proof.
  intros Hinv H. unfold scanPair. destruct (pairConflicts facts l r); simpl; [|naive_solver].
  destruct (isPrecisePair l r); simpl; [apply insert_non_empty|].
  case_bool_decide as Hp; [|apply insert_non_empty].
  intros H'. rewrite Hinv in Hp by done. set_solver.
Qed.

Lemma scanPairs_nonempty facts group l r :
  (∀ x y, x ∈ group → y ∈ group → acc_symbol x = acc_symbol y) →
  (l, r) ∈ all_pairs group → pairConflicts facts l r = true →
  conflictsByLocation (scanPairs facts group (MkScan ∅ ∅)) ≠ ∅.
Proof.
  intros Hsym Hin HC. rewrite scanPairs_all_pairs.
  apply list_elem_of_split in Hin as (before & after & E). rewrite E, foldl_app. simpl.
  assert (∀ p, p ∈ all_pairs group → p.1 ∈ group ∧ p.2 ∈ group) as Hps.
  { intros [x y] ?%elem_of_all_pairs. done. }
  rewrite E in Hps.
  set (I st := scan_ok facts group st ∧ conflictsByLocation st ≠ ∅).
  assert (scan_ok facts group (foldl (λ st p, scanPair facts p.1 p.2 st) (MkScan ∅ ∅) before)) as Hb.
  { apply foldl_inv; [split; [apply map_Forall_empty|done]|].
    intros st p Hp Hst. apply scan_ok_pair; auto; apply Hps; set_solver. }
  apply (foldl_inv I).
  - split.
    + apply scan_ok_pair; auto; apply (Hps (l, r)); set_solver.
    + apply scanPair_nonempty; [apply Hb|by right].
  - intros st p Hp [Hst Hne]. split.
    + apply scan_ok_pair; auto; apply Hps; set_solver.
    + apply scanPair_nonempty; [apply Hst|by left].
Qed.

Lemma scanSelf_keeps facts st a k c :
  conflictsByLocation st !! k = Some c → conflictsByLocation (scanSelf facts st a) !! k = Some c.
Proof.
  intros Hk. unfold scanSelf. repeat case_match; try done. simpl.
  rewrite lookup_insert_ne by congruence. done.
Qed.

Lemma scanSymbol_keeps facts group k c :
  conflictsByLocation (scanPairs facts group (MkScan ∅ ∅)) !! k = Some c →
  conflictsByLocation (scanSymbol facts group) !! k = Some c.
Proof.
  intros Hk. unfold scanSymbol.
  apply (foldl_inv (λ st, conflictsByLocation st !! k = Some c)); [done|].
  intros st a _. apply scanSelf_keeps.
Qed.

(** ** Lemmas on the merge of a location's pairs *)

(** The conflicting pairs of a group that fall on one location and context. *)
Definition location_pairs (facts : TUFacts) (pairs : list (AccessFact * AccessFact)) (key : string)
  : list (AccessFact * AccessFact) :=
  List.filter (λ p, pairConflicts facts p.1 p.2 && bool_decide (pairKey facts p.1 p.2 = key)) pairs.

(** [c] represents [pairs]: it counts all of them but one, and shows one that
    no other outranks. *)
Definition represents (pairs : list (AccessFact * AccessFact)) (c : LocationConflict) : Prop :=
  S (lc_additionalPairs c) = length pairs ∧
  ∃ p, p ∈ pairs ∧ lc_pair c = Some p ∧ conflict_rank c = pair_rank p.1 p.2 ∧
       ∀ q, q ∈ pairs → lex_lt (pair_rank p.1 p.2) (pair_rank q.1 q.2) = false.

Lemma lex_lt_irrefl xs : lex_lt xs xs = false.
Proof. induction xs as [|x xs IH]; simpl; [done|]. by rewrite IH, Nat.ltb_irrefl, andb_false_r. Qed.

Lemma lex_lt_trans xs ys zs : lex_lt xs ys = true → lex_lt ys zs = true → lex_lt xs zs = true.
Proof.
  revert ys zs. induction xs as [|x xs IH]; intros [|y ys] [|z zs]; simpl; try done.
  rewrite !orb_true_iff, !andb_true_iff, !Nat.ltb_lt, !Nat.eqb_eq.
  intros [?|[-> ?]] [?|[-> ?]]; [left; lia|left; lia|left; lia|right; eauto].
Qed.

#[local] Arguments lex_lt : simpl never.

Lemma addRelatedSite_represents pairs c site : represents pairs c → represents pairs (addRelatedSite c site).
Proof. unfold addRelatedSite. by repeat case_match. Qed.

Lemma recordPair_represents pairs l r c :
  represents pairs c → represents (pairs ++ [(l, r)]) (recordPair l r c).
Proof.
  intros (Hn & p & Hp & Hcp & Hrk & Hmax). unfold recordPair. simpl.
  do 2 apply addRelatedSite_represents. unfold updateRepresentative.
  rewrite !(bool_decide_eq_false_2 (lc_pair c = None)) by (by rewrite Hcp). rewrite orb_false_l.
  destruct (lex_lt (conflict_rank c) (pair_rank l r)) eqn:Hlt;
    (split; [rewrite length_app; simpl; clear -Hn; lia|]).
  - exists (l, r). split_and!; [set_solver|done|done|].
    intros q [Hq| ->%list_elem_of_singleton]%elem_of_app; [|apply lex_lt_irrefl].
    apply not_true_iff_false. intros Hlt'. rewrite Hrk in Hlt.
    specialize (Hmax q Hq). by rewrite (lex_lt_trans _ _ _ Hlt Hlt') in Hmax.
  - exists p. split_and!; [set_solver|done|done|].
    intros q [Hq| ->%list_elem_of_singleton]%elem_of_app; [by apply Hmax|]. by rewrite <-Hrk.
Qed.

Lemma recordPair_represents_first l r : represents [(l, r)] (recordPair l r new_conflict).
Proof.
  unfold recordPair. simpl. do 2 apply addRelatedSite_represents. split; [done|].
  exists (l, r). split_and!; [set_solver|done|done|].
  intros q ->%list_elem_of_singleton. apply lex_lt_irrefl.
Qed.

Lemma scan_represents facts pairs :
  Forall (λ p, isPrecisePair p.1 p.2 = true) pairs →
  ∀ key, match conflictsByLocation (foldl (λ st p, scanPair facts p.1 p.2 st) (MkScan ∅ ∅) pairs)
                 !! key with
         | Some c => represents (location_pairs facts pairs key) c
         | None => location_pairs facts pairs key = []
         end.
Proof.
  induction pairs as [|[l r] pairs IH] using rev_ind; intros Hprec key.
  { simpl. by rewrite lookup_empty. }
  apply Forall_app in Hprec as [Hprec [Hp _]%Forall_cons].
  specialize (IH Hprec key). rewrite foldl_snoc. simpl in Hp |- *.
  unfold location_pairs in *. rewrite List.filter_app. simpl.
  unfold scanPair. rewrite Hp. destruct (pairConflicts facts l r); simpl.
  2: { by rewrite app_nil_r. }
  unfold recordConflict. case_bool_decide as Hk; simpl.
  - subst key. rewrite lookup_insert_eq. destruct (conflictsByLocation _ !! _) eqn:E; simpl.
    + by apply recordPair_represents.
    + rewrite IH. apply recordPair_represents_first.
  - rewrite lookup_insert_ne, app_nil_r by done. done.
Qed.

(** ** Sample facts

    A function [worker] run by two threads, accessing [counter] on the lines
    given: the concrete inputs of the witnesses below. *)

Definition sample_location (line : N) : SourceLocation :=
  MkSourceLocation "a.c" line 1 line 2 "worker".

Definition sample_access (kind : AccessKind) (offset : Z) (guessed : bool) (locks : gset string)
    (line : N) : AccessFact :=
  MkAccess "counter" (MkRegion true offset 4 ElementOwner_None "") "worker" kind
    AliasProvenance_Direct (sample_location line) (sample_location line) true false false guessed
    false false ∅ ∅ false "" locks ∅ ∅.

Definition sample_facts (accs : list AccessFact) : TUFacts :=
  MkTUFacts [] accs [] [] [] [] [] [] [] [] [] false true
    {["worker" := MkEntryConcurrency 2 false]} ∅ ∅ ∅ {["worker" := {["worker"]}]} ∅ ∅ no_symbols.

Definition racy_facts : TUFacts :=
  sample_facts [sample_access AccessKind_Write 0 false ∅ 1;
                sample_access AccessKind_Read 0 false ∅ 2].

Definition first_finding (facts : TUFacts) : Diagnostic :=
  default (DiagnosticBuilder RuleId_DataRaceGlobal)
    (head (rep_diagnostics (DataRaceChecker_run facts))).

(** ** Properties *)

(** C1: soundness.  Every reported data race is one: it names the location and
    the symbol of an access that races with an access of the unit to the same
    symbol, on two tasks that may run at once, with no lock held at both. *)
Theorem run_reports_races_only facts d :
  d ∈ rep_diagnostics (DataRaceChecker_run facts) →
  ∃ lhs rhs, lhs ∈ accesses facts ∧ rhs ∈ accesses facts ∧ Race facts lhs rhs ∧
    diag_location d = acc_userLocation lhs ∧
    diag_properties d !! "symbol" = Some (PString (acc_symbol lhs)).
Proof.
  intros (l & r & Hl & Hr & HR & Hloc & Hsym & _)%run_sound_lemma. by exists l, r.
Qed.

(** C2: completeness.  Two accesses some task executes, to one symbol and
    passing the conflict test, never go unreported: the symbol has a finding. *)
Theorem run_reports_every_conflict facts i j lhs rhs :
  i ≠ j → symbolGroup facts (acc_symbol lhs) !! i = Some lhs →
  symbolGroup facts (acc_symbol lhs) !! j = Some rhs →
  pairConflicts facts lhs rhs = true →
  ∃ d, d ∈ rep_diagnostics (DataRaceChecker_run facts) ∧
       diag_properties d !! "symbol" = Some (PString (acc_symbol lhs)).
Proof.
  intros Hij Hi Hj HC. set (group := symbolGroup facts (acc_symbol lhs)) in *.
  pose proof (symbolGroup_same_symbol facts (acc_symbol lhs)) as Hsym. fold group in Hsym.
  assert (conflictsByLocation (scanPairs facts group (MkScan ∅ ∅)) ≠ ∅) as Hne.
  { assert (i < j ∨ j < i) as [Hlt|Hlt] by lia.
    - eapply scanPairs_nonempty; [done|by eapply all_pairs_lookup|done].
    - eapply scanPairs_nonempty; [done|by eapply all_pairs_lookup|by rewrite pairConflicts_comm]. }
  apply map_choose in Hne as (k & c & Hk). apply scanSymbol_keeps in Hk.
  destruct (scan_ok_symbol facts group Hsym) as [Hok _].
  destruct (Hok k c Hk) as [(l & r & Hp & Hl & Hr & HR) _].
  eexists. split.
  - apply run_diagnostics. exists (acc_symbol lhs). fold group. split; [by destruct group|].
    unfold symbolDiagnostics. rewrite bool_decide_false by (intros E; rewrite E in Hk; done).
    apply list_elem_of_omap. exists (k, c). split; [by apply elem_of_map_items|].
    unfold conflictDiagnostic. simpl. by rewrite Hp.
  - destruct (emitPairDiagnostic_fields l r (entriesOf facts l) (entriesOf facts r) facts
      (lc_additionalPairs c) (otherSites l r (lc_relatedSites c))) as (_ & -> & _).
    do 2 f_equal. apply Hsym; [done|]. by eapply list_elem_of_lookup_2.
Qed.

(** the lockset discipline is enough.  When every symbol has a lock that
    each of its accesses holds, the checker reports nothing. *)
Theorem run_silent_under_consistent_locking facts :
  (∀ s, ∃ lock, ∀ a, a ∈ accesses facts → acc_symbol a = s → lock ∈ acc_heldLocks a) →
  rep_diagnostics (DataRaceChecker_run facts) = [].
Proof.
  intros H. apply elem_of_nil_inv. intros d (l & r & Hl & Hr & HR & _)%run_sound_lemma.
  destruct (H (acc_symbol l)) as [lock Hlock].
  pose proof (Hlock l Hl eq_refl). pose proof (Hlock r Hr (eq_sym (race_symbol _ _ _ HR))).
  pose proof (race_unlocked _ _ _ HR). set_solver.
Qed.

(** A program whose code no thread entry reaches has no data race: the
    initial thread alone never races with itself. *)
Theorem run_silent_without_threads facts :
  reachableThreadEntriesByFunction facts = ∅ →
  rep_diagnostics (DataRaceChecker_run facts) = [].
Proof.
  intros H. apply elem_of_nil_inv. intros d (l & r & Hl & Hr & HR & _)%run_sound_lemma.
  destruct (race_parallel _ _ _ HR) as (t & u & Ht & Hu & Hov).
  unfold entriesOf in *. rewrite H, lookup_empty in Ht, Hu.
  inv Ht; inv Hu; [inv Hov|set_solver..].
Qed.


(** A finding lists at most six further conflicting sites, so that with the
    conflicting access and the lowered locations it never carries more than nine
    related locations. *)
Theorem run_related_locations_bound facts d :
  d ∈ rep_diagnostics (DataRaceChecker_run facts) → length (diag_relatedLocations d) ≤ 9.
Proof. by intros (l & r & _ & _ & _ & _ & _ & H)%run_sound_lemma. Qed.

(** the weighing of approximations depends on the order of the accesses:
    one set of facts, in two orders, yields one finding in one order and two in
    the other.  A guessed conflict is only dropped when a precise one on the
    symbol was scanned before it. *)
Theorem approximation_weighing_depends_on_order :
  ∃ facts facts',
    accesses facts ≡ₚ accesses facts' ∧
    entryConcurrency facts = entryConcurrency facts' ∧
    reachableThreadEntriesByFunction facts = reachableThreadEntriesByFunction facts' ∧
    length (rep_diagnostics (DataRaceChecker_run facts)) = 1 ∧
    length (rep_diagnostics (DataRaceChecker_run facts')) = 2.
Proof.
  exists (sample_facts [sample_access AccessKind_Write 8 false ∅ 3;
                        sample_access AccessKind_Write 8 false ∅ 4;
                        sample_access AccessKind_Write 0 true ∅ 1;
                        sample_access AccessKind_Write 0 true ∅ 2]).
  exists (sample_facts [sample_access AccessKind_Write 0 true ∅ 1;
                        sample_access AccessKind_Write 0 true ∅ 2;
                        sample_access AccessKind_Write 8 false ∅ 3;
                        sample_access AccessKind_Write 8 false ∅ 4]).
  split; [apply (Permutation_app_comm [_; _] [_; _])|].
  do 2 (split; [reflexivity|]). split; vm_compute; reflexivity.
Qed.

(** ** Witnesses *)

Lemma run_reports_races_only_witness :
  ∃ d, d ∈ rep_diagnostics (DataRaceChecker_run racy_facts) ∧
  ∃ lhs rhs, lhs ∈ accesses racy_facts ∧ rhs ∈ accesses racy_facts ∧ Race racy_facts lhs rhs ∧
    diag_location d = acc_userLocation lhs ∧
    diag_properties d !! "symbol" = Some (PString (acc_symbol lhs)).
Proof.
  exists (first_finding racy_facts).
  assert (Hd : first_finding racy_facts ∈ rep_diagnostics (DataRaceChecker_run racy_facts)).
  { apply (list_elem_of_lookup_2 _ 0). vm_compute. reflexivity. }
  split; [exact Hd|]. exact (run_reports_races_only _ _ Hd).
Defined.

Lemma run_reports_every_conflict_witness :
  ∃ d, d ∈ rep_diagnostics (DataRaceChecker_run racy_facts) ∧
       diag_properties d !! "symbol" = Some (PString "counter").
Proof.
  apply (run_reports_every_conflict racy_facts 0 1 (sample_access AccessKind_Write 0 false ∅ 1)
           (sample_access AccessKind_Read 0 false ∅ 2)); [lia|vm_compute; reflexivity..].
Defined.

Lemma run_silent_under_consistent_locking_witness :
  rep_diagnostics (DataRaceChecker_run
    (sample_facts [sample_access AccessKind_Write 0 false {["m"]} 1;
                   sample_access AccessKind_Write 0 false {["m"; "n"]} 2])) = [].
Proof.
  apply run_silent_under_consistent_locking. intros s. exists "m".
  intros a Ha _. simpl in Ha. apply elem_of_cons in Ha as [->|Ha]; [set_solver|].
  apply list_elem_of_singleton in Ha as ->. simpl. set_solver.
Defined.

Lemma run_silent_without_threads_witness :
  rep_diagnostics (DataRaceChecker_run
    (MkTUFacts [] [sample_access AccessKind_Write 0 false ∅ 1] [] [] [] [] [] [] [] [] []
       false false ∅ ∅ ∅ ∅ ∅ ∅ ∅ no_symbols)) = [].
Proof. apply run_silent_without_threads. reflexivity. Defined.


Lemma run_related_locations_bound_witness :
  ∃ d, d ∈ rep_diagnostics (DataRaceChecker_run racy_facts) ∧ length (diag_relatedLocations d) ≤ 9.
Proof.
  exists (first_finding racy_facts).
  assert (Hd : first_finding racy_facts ∈ rep_diagnostics (DataRaceChecker_run racy_facts)).
  { apply (list_elem_of_lookup_2 _ 0). vm_compute. reflexivity. }
  split; [exact Hd|]. exact (run_related_locations_bound _ _ Hd).
Defined.
