(* ===== verification/LockOrder.v ===== *)
(** The lock order analyzer (src/internal/analysis/lock_order_analyzer.cpp): the
    numbering of locks, the bounded search for elementary cycles of acquisitions
    that may deadlock, and the report of [LockOrderAnalyzer::run].

    The source recurses through [std::function]s; here the recursions take fuel
    and return [None] when it runs out, and LockOrderProps.v shows that the fuel
    given is always enough.  [path] and [onPath], which the source pushes and
    pops around each recursive call on every way out of it, are arguments. *)

From S2P Require Import Prelude Diagnostics Facts FactQueries.

Definition locationLabel (location : SourceLocation) : string :=
  (if bool_decide (loc_file location ≠ "") then loc_file location else "<unknown-file>") +:+
  (if bool_decide (loc_line location ≠ 0%N)
   then ":" +:+ pretty (loc_line location) +:+ ":" +:+ pretty (loc_column location) else "") +:+
  (if bool_decide (loc_function location ≠ "") then " in " +:+ loc_function location else "").

Definition entriesFor (fact : LockOrderFact) (facts : TUFacts) : ThreadEntrySet :=
  default ∅ (reachableThreadEntriesByFunction facts !! lo_functionId fact).

Definition participatesInConcurrency (fact : LockOrderFact) (facts : TUFacts) : bool :=
  bool_decide (is_Some (reachableThreadEntriesByFunction facts !! lo_functionId fact))
  || lo_inRootTask fact.

Definition contextLabel (fact : LockOrderFact) (facts : TUFacts) : list string :=
  let entries := sortedThreadEntries (entriesFor fact facts) in
  if bool_decide (entries = []) && lo_inRootTask fact then entries ++ [rootTaskId] else entries.

(** ** Findings *)

Definition orderNote (facts : TUFacts) (index : nat) (edge : LockOrderFact) : string :=
  let label := if bool_decide (index = 0) then "first order" else "conflicting order" in
  label +:+ ": acquire '" +:+ lo_secondLockId edge +:+ "' while holding '" +:+
  lo_firstLockId edge +:+ "' at " +:+ locationLabel (lo_location edge) +:+
  " (thread entries: " +:+ joinValues (contextLabel edge facts) +:+ ")".

(** [cycle.front()] and [cycle.back()] are undefined on an empty vector: there
    the result is [None]. *)
Definition cycleDiagnostic (facts : TUFacts) (cycle : list LockOrderFact) : option Diagnostic :=
  match head cycle, last cycle with
  | Some first, Some back =>
      let isInversion := bool_decide (length cycle = 2) in
      let builder := DiagnosticBuilder RuleId_DeadlockLockOrder
        |> primaryLocation (lo_location first)
        |> message (if isInversion
                    then "potential deadlock caused by inconsistent lock acquisition order"
                    else "potential deadlock caused by a cycle of " +:+
                         pretty (length cycle) +:+ " lock acquisitions") in
      let cycleLocks := lo_firstLockId <$> cycle in
      let builder := foldl (λ d item,
          d |> note (orderNote facts item.1 item.2)
            |> when (negb (bool_decide (item.1 = 0)))
                 (relatedLocation "Conflicting lock order" (lo_location item.2)))
        builder (imap pair cycle) in
      Some (builder
        |> property "firstLock" (PString (lo_firstLockId first))
        |> property "secondLock" (PString (lo_secondLockId first))
        |> property "cycleLocks" (PStrings cycleLocks)
        |> property "firstThreadEntries" (PStrings (contextLabel first facts))
        |> property "secondThreadEntries" (PStrings (contextLabel back facts)))
  | _, _ => None
  end.

Definition emitCycleDiagnostic (facts : TUFacts) (cycle : list LockOrderFact)
    (report : DiagnosticReport) : DiagnosticReport :=
  match cycleDiagnostic facts cycle with
  | Some d => emit report d
  | None => report
  end.

Definition selfDeadlockDiagnostic (fact : LockOrderFact) : Diagnostic :=
  DiagnosticBuilder RuleId_DeadlockLockOrder
    |> primaryLocation (lo_location fact)
    |> relatedLocation "Reacquired lock" (lo_location fact)
    |> message "potential deadlock caused by reacquiring a non-recursive lock"
    |> note ("reacquires '" +:+ lo_secondLockId fact +:+ "' while it is already held at " +:+
             locationLabel (lo_location fact))
    |> property "firstLock" (PString (lo_firstLockId fact))
    |> property "secondLock" (PString (lo_secondLockId fact)).

(** ** Judging a cycle *)

Definition cycleLockSet (cycle : list LockOrderFact) : gset string :=
  list_to_set (lo_firstLockId <$> cycle) ∪ list_to_set (lo_secondLockId <$> cycle).

Definition hasCommonGateLock (cycle : list LockOrderFact) : bool :=
  let cycleLocks := cycleLockSet cycle in
  let gates := foldl (λ gates edge,
      let candidates := filter (λ lock, lock ∉ cycleLocks) (lo_heldLocks edge) in
      match gates with
      | None => Some candidates
      | Some gates => Some (gates ∩ candidates)
      end) None cycle in
  match gates with
  | Some gates => negb (bool_decide (gates = ∅))
  | None => false
  end.

Definition isAddressOrdered (cycle : list LockOrderFact) : bool :=
  forallb lo_lowerAddressFirst cycle.

Definition cycleNodes (cycle : list LockOrderFact) : gset string :=
  list_to_set ((λ edge, lo_firstLockId edge +:+ "->" +:+ lo_secondLockId edge) <$> cycle).

Definition cycleKey (cycle : list LockOrderFact) : string :=
  foldl (λ key node, key +:+ node +:+ "||") "" (sorted_elements (cycleNodes cycle)).

Definition mayHappenInParallelWithEach (order : LockOrderFact) (taken : list LockOrderFact)
    (facts : TUFacts) : bool :=
  forallb (λ other, mayHappenInParallel other (entriesFor other facts) order
                      (entriesFor order facts) facts) taken.

(** ** The lock graph *)

Abbreviation EdgesByFirstLock := (gmap string (list LockOrderFact)).

Record LockSuccessor := MkSuccessor {
  succ_lock : nat;
  succ_orders : list LockOrderFact;
}.

Abbreviation LockGraph := (list (list LockSuccessor)).

(** The recursive lambda [number] of [buildLockGraph]. *)
Fixpoint number (edges : EdgesByFirstLock) (fuel : nat) (lockId : string)
    (numbers : gmap string nat) : option (gmap string nat) :=
  match fuel with
  | O => None
  | S fuel =>
      match numbers !! lockId with
      | Some _ => Some numbers
      | None =>
          let numbers := <[lockId := size numbers]> numbers in
          match edges !! lockId with
          | None => Some numbers
          | Some es =>
              foldl (λ acc edge, acc ≫= number edges fuel (lo_secondLockId edge))
                (Some numbers) es
          end
      end
  end.

(** Every lock the orders name. *)
Definition locksOf (edges : EdgesByFirstLock) : gset string :=
  dom edges ∪ list_to_set (map_items edges ≫= λ item, lo_secondLockId <$> item.2).

Definition numberLocks (edges : EdgesByFirstLock) : option (gmap string nat) :=
  foldl (λ acc lockId, acc ≫= number edges (S (size (locksOf edges))) lockId)
    (Some ∅) (map_items edges).*1.

(** One round of the loop filling a lock's successors; [at] throws on a lock
    without a number. *)
Definition addOrder (numbers : gmap string nat)
    (acc : option (gmap nat nat * list LockSuccessor)) (edge : LockOrderFact)
  : option (gmap nat nat * list LockSuccessor) :=
  '(positions, successors) ← acc;
  target ← numbers !! lo_secondLockId edge;
  let '(positions, successors, position) :=
    match positions !! target with
    | Some position => (positions, successors, position)
    | None => (<[target := length successors]> positions,
               successors ++ [MkSuccessor target []], length successors)
    end in
  Some (positions,
        alter (λ s, MkSuccessor (succ_lock s) (succ_orders s ++ [edge])) position successors).

Definition lockSuccessors (numbers : gmap string nat) (edges : list LockOrderFact)
  : option (list LockSuccessor) :=
  snd <$> foldl (addOrder numbers) (Some (∅, [])) edges.

Definition buildLockGraph (edges : EdgesByFirstLock) : option LockGraph :=
  numbers ← numberLocks edges;
  foldl (λ acc item,
      graph ← acc;
      lock ← numbers !! item.1;
      successors ← lockSuccessors numbers item.2;
      Some (<[lock := successors]> graph))
    (Some (replicate (size numbers) [])) (map_items edges).

(** ** The search *)

Definition kMaxOrdersExaminedPerLock : N := 2 ^ 16.

Record SearchState := MkSearch {
  ss_report : DiagnosticReport;
  ss_emittedCycleKeys : gset string;
  ss_addressOrderedCycles : list (list LockOrderFact);
  ss_addressOrderedKeys : gset string;
  ss_examined : N;
}.

Definition emitOnce (facts : TUFacts) (cycle : list LockOrderFact) (st : SearchState)
  : SearchState :=
  if bool_decide (cycleKey cycle ∈ ss_emittedCycleKeys st) then st
  else MkSearch (emitCycleDiagnostic facts cycle (ss_report st))
         ({[cycleKey cycle]} ∪ ss_emittedCycleKeys st) (ss_addressOrderedCycles st)
         (ss_addressOrderedKeys st) (ss_examined st).

Definition set_examined (n : N) (st : SearchState) : SearchState :=
  MkSearch (ss_report st) (ss_emittedCycleKeys st) (ss_addressOrderedCycles st)
    (ss_addressOrderedKeys st) n.

(** What the walk does with a path an order closes. *)
Definition closeCycle (facts : TUFacts) (path : list LockOrderFact) (st : SearchState)
  : SearchState :=
  if hasCommonGateLock path then st
  else if negb (isAddressOrdered path) then emitOnce facts path st
  else if bool_decide (cycleKey path ∈ ss_addressOrderedKeys st) then st
  else MkSearch (ss_report st) (ss_emittedCycleKeys st) (ss_addressOrderedCycles st ++ [path])
         ({[cycleKey path]} ∪ ss_addressOrderedKeys st) (ss_examined st).

Section walk.
Context (facts : TUFacts) (graph : LockGraph) (start : nat) (leadsToStart : gset nat).

(** The body of the loop over a successor's orders; [descend] is the recursive
    call from the successor. *)
Definition examineOrder (closes : bool) (path : list LockOrderFact)
    (descend : list LockOrderFact → SearchState → option (bool * SearchState))
    (order : LockOrderFact) (st : SearchState) : option (bool * SearchState) :=
  let st := set_examined (ss_examined st + 1)%N st in
  if bool_decide (kMaxOrdersExaminedPerLock < ss_examined st)%N then Some (false, st)
  else if negb (mayHappenInParallelWithEach order path facts) then Some (true, st)
  else if negb closes then descend (path ++ [order]) st
  else Some (true, closeCycle facts (path ++ [order]) st).

(** [vector<bool> onPath] is the set of the locks it marks. *)
Fixpoint walk (fuel : nat) (path : list LockOrderFact) (onPath : gset nat) (lock : nat)
    (st : SearchState) : option (bool * SearchState) :=
  match fuel with
  | O => None
  | S fuel =>
      loop_while (λ successor st,
          let closes := bool_decide (succ_lock successor = start) in
          if negb closes && (negb (bool_decide (succ_lock successor ∈ leadsToStart))
                             || bool_decide (succ_lock successor ∈ onPath))
          then Some (true, st)
          else loop_while (examineOrder closes path
                 (λ path st, walk fuel path ({[succ_lock successor]} ∪ onPath)
                                (succ_lock successor) st))
                 (succ_orders successor) st)
        (default [] (graph !! lock)) st
  end.
End walk.

Definition predecessorsOf (graph : LockGraph) : list (list nat) :=
  foldl (λ predecessors item,
      foldl (λ predecessors successor,
          alter (λ locks, locks ++ [item.1]) (succ_lock successor) predecessors)
        predecessors item.2)
    (replicate (length graph) []) (imap pair graph).

(** One predecessor in the loop marking the locks that lead to [start]; the head
    of [pending] is the back of the source's vector. *)
Definition markPredecessor (start : nat) (acc : gset nat * list nat) (predecessor : nat)
  : gset nat * list nat :=
  if (start <? predecessor) && negb (bool_decide (predecessor ∈ acc.1))
  then ({[predecessor]} ∪ acc.1, predecessor :: acc.2) else acc.

Fixpoint markLeading (predecessors : list (list nat)) (start fuel : nat) (pending : list nat)
    (leads : gset nat) : option (gset nat) :=
  match pending, fuel with
  | [], _ => Some leads
  | _ :: _, O => None
  | reached :: pending, S fuel =>
      let '(leads, pending) :=
        foldl (markPredecessor start) (leads, pending)
          (default [] (predecessors !! reached)) in
      markLeading predecessors start fuel pending leads
  end.

(** The body of the loop over [start]. *)
Definition searchFrom (facts : TUFacts) (graph : LockGraph) (acc : option (bool * SearchState))
    (start : nat) : option (bool * SearchState) :=
  '(complete, st) ← acc;
  leads ← markLeading (predecessorsOf graph) start (S (length graph)) [start] ∅;
  '(within, st) ← walk facts graph start leads (S (S (length graph))) [] ∅ start
                    (set_examined 0 st);
  Some (complete && within, st).

(** [false] when the walk from some lock stopped at the bound. *)
Definition reportDeadlockingCycles (report : DiagnosticReport) (graph : LockGraph)
    (facts : TUFacts) : option (bool * DiagnosticReport) :=
  '(complete, st) ← foldl (searchFrom facts graph)
                      (Some (true, MkSearch report ∅ [] ∅ 0)) (seq 0 (length graph));
  Some (complete : bool,
        if complete then ss_report st
        else ss_report (foldl (λ st cycle, emitOnce facts cycle st) st
                          (ss_addressOrderedCycles st))).

(** ** [LockOrderAnalyzer::run] *)

Definition isSelfDeadlock (facts : TUFacts) (fact : LockOrderFact) : bool :=
  bool_decide (lo_firstLockId fact = lo_secondLockId fact)
  && negb (bool_decide (lo_secondLockId fact ∈ recursiveLockIds facts)).

(** An order that takes part in the lock graph. *)
Definition isGraphOrder (facts : TUFacts) (fact : LockOrderFact) : bool :=
  negb (bool_decide (lo_firstLockId fact = lo_secondLockId fact)
        || negb (participatesInConcurrency fact facts)).

Definition edgesByFirstLock (facts : TUFacts) : EdgesByFirstLock :=
  foldl (λ edges fact,
    if negb (isGraphOrder facts fact) then edges
    else <[lo_firstLockId fact := default [] (edges !! lo_firstLockId fact) ++ [fact]]> edges)
    ∅ (lockOrders facts).

Definition searchLimitNotice : AnalysisNotice :=
  MkNotice "cycle-search-limit-reached" RuleId_DeadlockLockOrder
    "lock-order cycle search incomplete: exploration limit reached; some lock-order cycles may not be reported".

Definition add_notice (report : DiagnosticReport) (n : AnalysisNotice) : DiagnosticReport :=
  MkReport (rep_functions report) (rep_diagnostics report) (rep_summary report)
    (rep_notices report ++ [n]).

Definition LockOrderAnalyzer_run (facts : TUFacts) : option DiagnosticReport :=
  let report := foldl (λ report fact,
      if negb (isSelfDeadlock facts fact) then report
      else emit report (selfDeadlockDiagnostic fact)) empty_report (lockOrders facts) in
  graph ← buildLockGraph (edgesByFirstLock facts);
  '(complete, report) ← reportDeadlockingCycles report graph facts;
  Some (if negb complete then add_notice report searchLimitNotice else report).
