(* ===== verification/LockOrderProps.v ===== *)
(** Theorems on the lock order analyzer of LockOrder.v: the search terminates,
    every reported cycle may deadlock, every cycle that may deadlock is reported
    when the search stays within its bound, and ranked locks are never reported. *)

From S2P Require Import Prelude Diagnostics Facts FactQueries LockOrder.

(** ** The abstract notion of deadlock *)

(** A closed chain of acquisitions, each of the lock the next one holds, that as
    many threads can reach at once with no lock held at all of them. *)
Record DeadlockCycle (facts : TUFacts) (cycle : list LockOrderFact) : Prop := {
  dc_facts : ∀ o, o ∈ cycle → o ∈ lockOrders facts ∧ isGraphOrder facts o = true;
  dc_elementary : NoDup (lo_firstLockId <$> cycle);
  dc_chained : ∀ i a b, cycle !! i = Some a → cycle !! S i = Some b →
    lo_secondLockId a = lo_firstLockId b;
  dc_closed : ∃ a b, head cycle = Some a ∧ last cycle = Some b ∧
    lo_secondLockId b = lo_firstLockId a;
  dc_parallel : ∀ i j a b, i < j → cycle !! i = Some a → cycle !! j = Some b →
    mayHappenInParallel a (entriesFor a facts) b (entriesFor b facts) facts = true;
  dc_ungated : ∀ lock, (∀ o, o ∈ cycle → lock ∈ lo_heldLocks o) → lock ∈ cycleLockSet cycle;
}.

(** ** Lemmas on the numbering *)

Definition numbering_ok (numbers : gmap string nat) : Prop :=
  (∀ k n, numbers !! k = Some n → n < size numbers) ∧
  (∀ k k' n, numbers !! k = Some n → numbers !! k' = Some n → k = k').

Section numbering.
Context (edges : EdgesByFirstLock) (locks : gset string).
Hypothesis edges_closed : ∀ k es e, edges !! k = Some es → e ∈ es → lo_secondLockId e ∈ locks.

(** [numbers'] extends [numbers], and the orders of every lock it adds lead to
    locks it numbers. *)
Definition extends (numbers numbers' : gmap string nat) : Prop :=
  numbers ⊆ numbers' ∧ dom numbers' ⊆ locks ∧ numbering_ok numbers' ∧
  ∀ k es e, k ∈ dom numbers' → k ∉ dom numbers → edges !! k = Some es → e ∈ es →
    lo_secondLockId e ∈ dom numbers'.

Lemma extends_refl numbers : dom numbers ⊆ locks → numbering_ok numbers → extends numbers numbers.
Proof. intros ? ?. split_and!; [done..|]. intros; done. Qed.

Lemma extends_trans a b c : extends a b → extends b c → extends a c.
Proof.
  intros (Hab & _ & _ & Sb) (Hbc & Dc & Oc & Sc). split_and!; [by etrans|done..|].
  intros k es e Hk Hka He Hin. destruct (decide (k ∈ dom b)) as [Hkb|]; [|eauto].
  apply (subseteq_dom _ _ Hbc). eauto.
Qed.

Lemma numbering_ok_insert numbers lockId :
  numbering_ok numbers → numbers !! lockId = None →
  numbering_ok (<[lockId := size numbers]> numbers).
Proof.
  intros [Hlt Hinj] Hn. assert (size (<[lockId:=size numbers]> numbers) = S (size numbers)) as Hs.
  { by apply map_size_insert_None. }
  split.
  - intros k n. rewrite Hs, lookup_insert_Some. intros [[<- <-]|[_ H%Hlt]]; lia.
  - intros k k' n. rewrite !lookup_insert_Some.
    intros [[<- <-]|[Hne H]] [[<- H2]|[Hne' H']]; [done| | |by eapply Hinj].
    + apply Hlt in H'. lia.
    + subst n. apply Hlt in H. lia.
Qed.

Lemma fold_number_total (f : string → gmap string nat → option (gmap string nat)) ls numbers :
  (∀ l numbers', l ∈ ls → extends numbers numbers' →
     ∃ r, f l numbers' = Some r ∧ extends numbers' r ∧ l ∈ dom r) →
  dom numbers ⊆ locks → numbering_ok numbers →
  ∃ r, foldl (λ acc l, acc ≫= f l) (Some numbers) ls = Some r ∧ extends numbers r ∧
       ∀ l, l ∈ ls → l ∈ dom r.
Proof.
  intros Hf Hd Hok. induction ls as [|l ls IH] using rev_ind.
  - exists numbers. split_and!; [done|by apply extends_refl|by intros ? ?%elem_of_nil].
  - destruct IH as (r & Hr & Hext & Hin).
    { intros l' ? ?. apply Hf. set_solver. }
    destruct (Hf l r) as (r' & Hr' & Hext' & Hl); [set_solver|done|].
    exists r'. rewrite foldl_snoc, Hr. split_and!; [done|by eapply extends_trans|].
    intros l' [Hl'| ->%list_elem_of_singleton]%elem_of_app; [|done].
    destruct Hext' as [Hsub _]. apply (subseteq_dom _ _ Hsub). auto.
Qed.

Lemma foldl_bind_map {A} (g : A → string) (f : string → gmap string nat → option (gmap string nat))
    l init :
  foldl (λ acc a, acc ≫= f (g a)) init l = foldl (λ acc s, acc ≫= f s) init (g <$> l).
Proof. revert init. induction l as [|a l IH]; intros init; simpl; auto. Qed.

Lemma number_total fuel lockId numbers :
  lockId ∈ locks → dom numbers ⊆ locks → numbering_ok numbers →
  size (locks ∖ dom numbers) < fuel →
  ∃ r, number edges fuel lockId numbers = Some r ∧ extends numbers r ∧ lockId ∈ dom r.
Proof.
  revert lockId numbers. induction fuel as [|fuel IH]; intros lockId numbers Hl Hd Hok Hf; [lia|].
  simpl. destruct (numbers !! lockId) as [n|] eqn:E.
  { exists numbers. split_and!; [done|by apply extends_refl|by apply elem_of_dom]. }
  set (numbers1 := <[lockId := size numbers]> numbers).
  assert (dom numbers1 ⊆ locks) as Hd1 by (unfold numbers1; rewrite dom_insert_L; set_solver).
  assert (numbering_ok numbers1) as Hok1 by (by apply numbering_ok_insert).
  assert (numbers ⊆ numbers1) as Hsub1 by (by apply insert_subseteq).
  assert (lockId ∈ dom numbers1) as Hin1 by (unfold numbers1; rewrite dom_insert_L; set_solver).
  assert (size (locks ∖ dom numbers1) < fuel) as Hf1.
  { enough (size (locks ∖ dom numbers1) < size (locks ∖ dom numbers)) by lia.
    apply subset_size. unfold numbers1. rewrite dom_insert_L.
    apply not_elem_of_dom in E. split; [set_solver|]. intros H. specialize (H lockId). set_solver. }
  assert (∀ r, extends numbers1 r →
    (∀ es e, edges !! lockId = Some es → e ∈ es → lo_secondLockId e ∈ dom r) →
    extends numbers r ∧ lockId ∈ dom r) as Hfin.
  { intros r (Hsub & Hdr & Hokr & Hs) Hsucc. split.
    - split_and!; [by etrans|done..|]. intros k es e Hk Hkn He Hin.
      destruct (decide (k = lockId)) as [->|Hne]; [eauto|]. eapply Hs; [done| |done..].
      unfold numbers1. rewrite dom_insert_L. set_solver.
    - by apply (subseteq_dom _ _ Hsub). }
  destruct (edges !! lockId) as [es|] eqn:Ees; [|exists numbers1].
  - destruct (fold_number_total (number edges fuel) (lo_secondLockId <$> es) numbers1)
      as (r & Hr & Hext & Hin); [|done..|].
    + intros l numbers' (e & -> & He)%list_elem_of_fmap (Hsub & Hd' & Hok' & _).
      apply IH; [by eauto|done..|]. apply (Nat.le_lt_trans _ (size (locks ∖ dom numbers1))); [|done].
      apply subseteq_size. apply subseteq_dom in Hsub. set_solver.
    + exists r. rewrite foldl_bind_map. split; [done|]. apply Hfin; [done|].
      intros es' e [= <-] He. apply Hin. by apply list_elem_of_fmap_2.
  - split; [done|]. apply Hfin; [by apply extends_refl|done].
Qed.
End numbering.

Lemma elem_of_locksOf edges k es e :
  edges !! k = Some es → e ∈ es → lo_secondLockId e ∈ locksOf edges.
Proof.
  intros Hk He. unfold locksOf. apply elem_of_union_r, elem_of_list_to_set, list_elem_of_bind.
  exists (k, es). split; [by apply list_elem_of_fmap_2|by apply elem_of_map_items].
Qed.

Lemma numberLocks_total edges :
  ∃ numbers, numberLocks edges = Some numbers ∧ numbering_ok numbers ∧
    ∀ k es, edges !! k = Some es →
      k ∈ dom numbers ∧ ∀ e, e ∈ es → lo_secondLockId e ∈ dom numbers.
Proof.
  unfold numberLocks. pose proof (elem_of_locksOf edges) as Hc.
  destruct (fold_number_total edges (locksOf edges) Hc (number edges (S (size (locksOf edges))))
    (map_items edges).*1 ∅) as (r & Hr & (_ & _ & Hok & Hs) & Hin).
  - intros l numbers' ([k es] & -> & He%elem_of_map_items)%list_elem_of_fmap (_ & Hd & Hok & _).
    apply (number_total _ _ Hc); [|done..|].
    + unfold locksOf. apply elem_of_union_l, elem_of_dom. eauto.
    + apply Nat.lt_succ_r, subseteq_size. set_solver.
  - set_solver.
  - split; intros *; rewrite lookup_empty; done.
  - exists r. split_and!; [done..|]. intros k es Hk.
    assert (k ∈ dom r) as Hkr.
    { apply Hin, list_elem_of_fmap. exists (k, es). by rewrite elem_of_map_items. }
    split; [done|]. intros e He. eapply Hs; [done| |done..]. set_solver.
Qed.

(** ** Lemmas on the graph *)

(** A lock's row holds its orders, each under the number of the lock it takes. *)
Definition row_ok (numbers : gmap string nat) (es : list LockOrderFact)
    (row : list LockSuccessor) : Prop :=
  (∀ s, s ∈ row → ∃ k, numbers !! k = Some (succ_lock s)) ∧
  (∀ s o, s ∈ row → o ∈ succ_orders s →
     o ∈ es ∧ numbers !! lo_secondLockId o = Some (succ_lock s)) ∧
  (∀ o, o ∈ es → ∃ s, s ∈ row ∧ o ∈ succ_orders s).

Definition positions_ok (positions : gmap nat nat) (row : list LockSuccessor) : Prop :=
  ∀ t p, positions !! t = Some p → ∃ s, row !! p = Some s ∧ succ_lock s = t.

(** Appending an order to the successor at a position. *)
Lemma row_ok_alter numbers es row p s e :
  row_ok numbers es row → row !! p = Some s → numbers !! lo_secondLockId e = Some (succ_lock s) →
  row_ok numbers (es ++ [e])
    (alter (λ s, MkSuccessor (succ_lock s) (succ_orders s ++ [e])) p row).
Proof.
  intros (Hnum & Hs & Hes) Hp He. set (s' := MkSuccessor (succ_lock s) (succ_orders s ++ [e])).
  assert (∀ t, t ∈ alter (λ s, MkSuccessor (succ_lock s) (succ_orders s ++ [e])) p row →
    t = s' ∨ t ∈ row) as Halt.
  { intros t [i Hi]%list_elem_of_lookup. rewrite list_lookup_alter in Hi.
    case_decide as Hip; [|right; by eapply list_elem_of_lookup_2]. subst i.
    rewrite Hp in Hi. simpl in Hi. left. by injection Hi as <-. }
  assert (s' ∈ alter (λ s, MkSuccessor (succ_lock s) (succ_orders s ++ [e])) p row) as Hs'.
  { apply (list_elem_of_lookup_2 _ p). by rewrite list_lookup_alter_eq, Hp. }
  assert (s ∈ row) as Hsr by (by eapply list_elem_of_lookup_2).
  split_and!.
  - intros t [->|Ht]%Halt; [by apply (Hnum s)|by apply Hnum].
  - intros t o [->|Ht]%Halt Ho; simpl in *.
    + apply elem_of_app in Ho as [Ho| ->%list_elem_of_singleton]; [|set_solver].
      destruct (Hs s o Hsr Ho). set_solver.
    + destruct (Hs t o Ht Ho). set_solver.
  - intros o [Ho| ->%list_elem_of_singleton]%elem_of_app; [|exists s'; simpl; set_solver].
    destruct (Hes o Ho) as (t & [i Hi]%list_elem_of_lookup & Hot).
    destruct (decide (i = p)) as [->|Hne].
    + rewrite Hp in Hi. injection Hi as <-. exists s'. simpl. set_solver.
    + exists t. split; [|done]. apply (list_elem_of_lookup_2 _ i).
      by rewrite list_lookup_alter_ne.
Qed.

Lemma row_ok_snoc_empty numbers es row t k :
  row_ok numbers es row → numbers !! k = Some t → row_ok numbers es (row ++ [MkSuccessor t []]).
Proof.
  intros (Hnum & Hs & Hes) Hk. split_and!.
  - intros s [?| ->%list_elem_of_singleton]%elem_of_app; eauto.
  - intros s o [?| ->%list_elem_of_singleton]%elem_of_app Ho; [eauto|].
    by apply elem_of_nil in Ho.
  - intros o Ho. destruct (Hes o Ho) as (s & ? & ?). exists s. set_solver.
Qed.

Lemma positions_ok_alter positions row f p :
  (∀ s, succ_lock (f s) = succ_lock s) → positions_ok positions row →
  positions_ok positions (alter f p row).
Proof.
  intros Hf Hpos t q Hq. destruct (Hpos t q Hq) as (s & Hs & <-).
  rewrite list_lookup_alter. case_decide as Hqp; [|by exists s]. subst q.
  exists (f s). by rewrite Hs.
Qed.

Lemma positions_ok_snoc positions row t :
  positions_ok positions row →
  positions_ok (<[t := length row]> positions) (row ++ [MkSuccessor t []]).
Proof.
  intros Hpos t' p. rewrite lookup_insert_Some. intros [[<- <-]|[_ Hp]].
  - eexists. by rewrite lookup_app_r, Nat.sub_diag by done.
  - destruct (Hpos t' p Hp) as (s & Hs & ?). exists s. split; [|done].
    by apply lookup_app_l_Some.
Qed.

Lemma lockSuccessors_ok numbers es :
  (∀ e, e ∈ es → lo_secondLockId e ∈ dom numbers) →
  ∃ row, lockSuccessors numbers es = Some row ∧ row_ok numbers es row.
Proof.
  intros Hd. unfold lockSuccessors.
  enough (∃ positions row, foldl (addOrder numbers) (Some (∅, [])) es = Some (positions, row) ∧
    positions_ok positions row ∧ row_ok numbers es row) as (ps & row & -> & _ & ?) by eauto.
  induction es as [|e es IH] using rev_ind.
  { exists ∅, []. split_and!; [done|by intros ???%lookup_empty_Some|].
    split_and!; intros *; rewrite ?elem_of_nil; done. }
  destruct IH as (ps & row & Hf & Hps & Hrow); [set_solver|].
  rewrite foldl_snoc, Hf. simpl.
  assert (lo_secondLockId e ∈ dom numbers) as [t Ht]%elem_of_dom by set_solver.
  rewrite Ht. simpl. destruct (ps !! t) as [p|] eqn:Ep.
  - destruct (Hps t p Ep) as (s & Hp & <-). do 2 eexists. split; [done|]. split.
    + by apply positions_ok_alter.
    + by eapply row_ok_alter.
  - do 2 eexists. split; [done|]. split.
    + by apply positions_ok_alter, positions_ok_snoc.
    + apply (row_ok_alter _ _ _ _ (MkSuccessor t [])); [by eapply row_ok_snoc_empty| |done].
      by rewrite lookup_app_r, Nat.sub_diag by done.
Qed.

Lemma elem_of_edges facts k e :
  (∃ es, edgesByFirstLock facts !! k = Some es ∧ e ∈ es) ↔
  e ∈ lockOrders facts ∧ isGraphOrder facts e = true ∧ lo_firstLockId e = k.
Proof.
  unfold edgesByFirstLock. induction (lockOrders facts) as [|f l IH] using rev_ind.
  { split; [|by intros [?%elem_of_nil _]]. intros (es & H & _). simpl in H.
    by apply lookup_empty_Some in H. }
  rewrite foldl_snoc, elem_of_app, list_elem_of_singleton.
  destruct (isGraphOrder facts f) eqn:Ef; simpl.
  2: { rewrite IH. split; [intros (? & ? & ?); auto|].
       intros ([?| ->] & ? & ?); [auto|congruence]. }
  set (edges := foldl _ _ l) in *. destruct (decide (lo_firstLockId f = k)) as [<-|Hne].
  - rewrite lookup_insert_eq. split.
    + intros (es & [= <-] & [He| ->%list_elem_of_singleton]%elem_of_app); [|by auto].
      destruct (edges !! lo_firstLockId f) eqn:E; simpl in He; [|by apply elem_of_nil in He].
      destruct IH as [IH _]. destruct IH as (? & ? & ?); [by eauto|]. auto.
    + intros ([Hl| ->] & He & Hk); eexists; (split; [done|]); apply elem_of_app;
        [left|right; by apply list_elem_of_singleton].
      destruct IH as [_ IH]. destruct IH as (es & -> & ?); [done|]. done.
  - rewrite lookup_insert_ne by done. rewrite IH. split; [intros (? & ? & ?); auto|].
    intros ([?| ->] & ? & ?); [auto|congruence].
Qed.

(** What the search relies on: the rows hold the orders of the unit that take
    part in the graph, filed under the numbers of their two locks. *)
Record graph_ok (facts : TUFacts) (numbers : gmap string nat) (graph : LockGraph) : Prop := {
  go_numbering : numbering_ok numbers;
  go_length : length graph = size numbers;
  go_targets : ∀ n row s, graph !! n = Some row → s ∈ row → succ_lock s < length graph;
  go_orders : ∀ n row s o, graph !! n = Some row → s ∈ row → o ∈ succ_orders s →
    o ∈ lockOrders facts ∧ isGraphOrder facts o = true ∧
    numbers !! lo_firstLockId o = Some n ∧ numbers !! lo_secondLockId o = Some (succ_lock s);
  go_complete : ∀ o, o ∈ lockOrders facts → isGraphOrder facts o = true →
    ∃ n row s, numbers !! lo_firstLockId o = Some n ∧ graph !! n = Some row ∧ s ∈ row ∧
      o ∈ succ_orders s ∧ numbers !! lo_secondLockId o = Some (succ_lock s);
}.

Lemma buildRows_ok numbers (items : list (string * list LockOrderFact)) :
  numbering_ok numbers → NoDup items.*1 →
  (∀ k es, (k, es) ∈ items → k ∈ dom numbers ∧ ∀ e, e ∈ es → lo_secondLockId e ∈ dom numbers) →
  ∃ graph, foldl (λ acc item, graph ← acc; lock ← numbers !! item.1;
      successors ← lockSuccessors numbers item.2; Some (<[lock := successors]> graph))
    (Some (replicate (size numbers) [])) items = Some graph ∧
    length graph = size numbers ∧
    (∀ n row s, graph !! n = Some row → s ∈ row →
       ∃ k es, (k, es) ∈ items ∧ numbers !! k = Some n ∧ row_ok numbers es row) ∧
    (∀ k es, (k, es) ∈ items → ∃ n row, numbers !! k = Some n ∧ graph !! n = Some row ∧
       row_ok numbers es row).
Proof.
  intros [Hlt Hinj]. induction items as [|[k es] items IH] using rev_ind; intros Hnd Hd.
  { exists (replicate (size numbers) []). split_and!; [done|by rewrite length_replicate| |].
    - intros n row s [-> _]%lookup_replicate Hs. by apply elem_of_nil in Hs.
    - by intros ?? ?%elem_of_nil. }
  rewrite fmap_app, NoDup_app in Hnd. destruct Hnd as (Hnd & Hdisj & _).
  destruct IH as (graph & Hf & Hlen & Hrows & Hitems); [done|set_solver|].
  destruct (Hd k es) as [[n Hn]%elem_of_dom Hes]; [set_solver|].
  destruct (lockSuccessors_ok numbers es Hes) as (row & Hrow & Hok).
  exists (<[n := row]> graph). rewrite foldl_snoc, Hf. simpl. rewrite Hn. simpl. rewrite Hrow.
  assert (n < length graph) as Hng by (rewrite Hlen; eauto).
  split_and!; [done|by rewrite length_insert| |].
  - intros m row' s. rewrite list_lookup_insert. case_decide as Hm.
    + intros [= <-] _. exists k, es. destruct Hm as [<- _]. set_solver.
    + intros Hm' Hs. destruct (Hrows m row' s Hm' Hs) as (k' & es' & ? & ? & ?).
      exists k', es'. set_solver.
  - intros k' es' [Hin|[= -> ->]%list_elem_of_singleton]%elem_of_app.
    + destruct (Hitems k' es' Hin) as (m & row' & Hm & Hg & ?). exists m, row'.
      split_and!; [done| |done]. rewrite list_lookup_insert_ne; [done|]. intros ->.
      apply (Hdisj k'); [by apply (list_elem_of_fmap_2 fst _ (k', es'))|].
      rewrite (Hinj k' k m) by done. set_solver.
    + exists n, row. by rewrite list_lookup_insert_eq.
Qed.

Lemma buildLockGraph_ok facts :
  ∃ numbers graph, buildLockGraph (edgesByFirstLock facts) = Some graph ∧
    graph_ok facts numbers graph.
Proof.
  unfold buildLockGraph.
  destruct (numberLocks_total (edgesByFirstLock facts)) as (numbers & -> & Hok & Hd). simpl.
  destruct (buildRows_ok numbers (map_items (edgesByFirstLock facts)))
    as (graph & Hg & Hlen & Hrows & Hitems); [done|apply NoDup_map_items_fst| |].
  { intros k es ?%elem_of_map_items. auto. }
  exists numbers, graph. split; [exact Hg|]. split; [done..| | |].
  - intros n row s Hn Hs. destruct (Hrows n row s Hn Hs) as (k & es & _ & _ & Hr & _).
    destruct (Hr s Hs) as [k' Hk']. rewrite Hlen. by eapply Hok.
  - intros n row s o Hn Hs Ho.
    destruct (Hrows n row s Hn Hs) as (k & es & Hk%elem_of_map_items & Hnk & _ & Hr & _).
    destruct (Hr s o Hs Ho) as [Hin ?].
    destruct (proj1 (elem_of_edges facts k o)) as (? & ? & <-); [by eauto|]. done.
  - intros o Ho Hgo. destruct (proj2 (elem_of_edges facts (lo_firstLockId o) o)) as (es & He & Hin);
      [done|].
    destruct (Hitems (lo_firstLockId o) es) as (n & row & Hn & Hg' & _ & Hr & Hin');
      [by apply elem_of_map_items|].
    destruct (Hin' o Hin) as (s & Hs & Hos). exists n, row, s.
    destruct (Hr s o Hs Hos). done.
Qed.

(** ** Lemmas on the locks that lead to the start *)

Lemma addPredecessors_spec lock row (preds : list (list nat)) p r :
  r < length preds →
  p ∈ default [] (foldl (λ preds s, alter (λ locks, locks ++ [lock]) (succ_lock s) preds) preds row
                    !! r) ↔
  p ∈ default [] (preds !! r) ∨ (p = lock ∧ ∃ s, s ∈ row ∧ succ_lock s = r).
Proof.
  revert preds. induction row as [|s row IH]; intros preds Hr; simpl.
  { split; [auto|]. intros [?|(_ & s & []%elem_of_nil & _)]; done. }
  rewrite IH by (by rewrite length_alter). rewrite list_lookup_alter.
  setoid_rewrite elem_of_cons. case_decide as Hs.
  - subst r. destruct (lookup_lt_is_Some_2 preds (succ_lock s) Hr) as [locks ->]. simpl.
    rewrite elem_of_app, list_elem_of_singleton. split; [|naive_solver].
    intros [[?| ->]|(-> & s' & ? & ?)]; naive_solver.
  - naive_solver.
Qed.

Lemma foldl_rows_length (items : list (nat * list LockSuccessor)) (preds : list (list nat)) :
  length (foldl (λ preds item, foldl (λ preds s,
    alter (λ locks, locks ++ [item.1]) (succ_lock s) preds) preds item.2) preds items) = length preds.
Proof.
  apply (foldl_inv (λ l, length l = length preds)); [done|]. intros l item _ <-.
  apply (foldl_inv (λ l', length l' = length l)); [done|]. intros l' s _ <-. apply length_alter.
Qed.

Lemma predecessorsOf_spec (graph : LockGraph) p r :
  r < length graph →
  p ∈ default [] (predecessorsOf graph !! r) ↔
  ∃ row s, graph !! p = Some row ∧ s ∈ row ∧ succ_lock s = r.
Proof.
  intros Hr. unfold predecessorsOf.
  assert (∀ items : list (nat * list LockSuccessor),
    p ∈ default [] (foldl (λ preds item, foldl (λ preds s,
        alter (λ locks, locks ++ [item.1]) (succ_lock s) preds) preds item.2)
        (replicate (length graph) []) items !! r) ↔
    ∃ row s, (p, row) ∈ items ∧ s ∈ row ∧ succ_lock s = r) as ->.
  { intros items. induction items as [|[lock row] items IH] using rev_ind.
    { simpl. rewrite lookup_replicate_2 by done. simpl.
      split; [by intros []%elem_of_nil|by intros (? & ? & []%elem_of_nil & _)]. }
    rewrite foldl_snoc, addPredecessors_spec, IH
      by (rewrite foldl_rows_length, length_replicate; done). simpl.
    setoid_rewrite elem_of_app. setoid_rewrite list_elem_of_singleton. split.
    - intros [(row' & s & ? & ? & ?)|(-> & s & ? & ?)]; [exists row', s|exists row, s]; auto.
    - intros (row' & s & [?|[= -> ->]] & ? & ?); [left; eauto|right; eauto]. }
  apply exist_proper. intros row. apply exist_proper. intros s.
  enough ((p, row) ∈ imap pair graph ↔ graph !! p = Some row) by tauto.
  rewrite list_elem_of_lookup. setoid_rewrite list_lookup_imap_Some. split.
  - intros (i & row' & ? & [= -> ->]). done.
  - intros. eauto.
Qed.

Section leading.
Context (preds : list (list nat)) (start n : nat).
Hypothesis preds_bound : ∀ r p, p ∈ default [] (preds !! r) → p < n.

Abbreviation universe := (set_seq 0 n : gset nat).

Definition leads_bound (leads : gset nat) : Prop := ∀ p, p ∈ leads → start < p < n.

Lemma markPredecessors_spec ps leads pending :
  (∀ p, p ∈ ps → p < n) → leads_bound leads →
  let '(leads', pending') := foldl (markPredecessor start) (leads, pending) ps in
  leads ⊆ leads' ∧ leads_bound leads' ∧ (∀ p, p ∈ ps → start < p → p ∈ leads') ∧
  (∀ p, p ∈ pending → p ∈ pending') ∧ (∀ p, p ∈ leads' → p ∈ leads ∨ p ∈ pending') ∧
  length pending' + size (universe ∖ leads') ≤ length pending + size (universe ∖ leads).
Proof.
  intros Hps Hb. induction ps as [|p ps IH] using rev_ind.
  { simpl. split_and!; try done; [set_solver|auto]. }
  rewrite foldl_snoc. destruct (foldl _ _ ps) as [leads1 pending1].
  destruct IH as (Hsub & Hb1 & Hin & Hp & Hl & Hm); [set_solver|].
  unfold markPredecessor. simpl. destruct (start <? p) eqn:Elt; simpl.
  2: { apply Nat.ltb_ge in Elt. split_and!; try done.
       intros q [?| ->%list_elem_of_singleton]%elem_of_app ?; [auto|lia]. }
  case_bool_decide as Hpl; simpl.
  { split_and!; try done. intros q [?| ->%list_elem_of_singleton]%elem_of_app ?; auto. }
  apply Nat.ltb_lt in Elt. assert (p < n) as Hpn by (apply Hps; set_solver). split_and!.
  - set_solver.
  - intros q [->%elem_of_singleton|?]%elem_of_union; [done|auto].
  - intros q [?| ->%list_elem_of_singleton]%elem_of_app ?; [|set_solver].
    apply elem_of_union_r; auto.
  - intros q ?. right. auto.
  - intros q [->%elem_of_singleton|?]%elem_of_union; [right; left|].
    destruct (Hl q); [done|by left|right; by right].
  - enough (size (universe ∖ ({[p]} ∪ leads1)) < size (universe ∖ leads1)) by lia.
    apply subset_size. split; [set_solver|]. intros H.
    assert (p ∈ universe ∖ leads1) as Hpu; [|specialize (H p Hpu); set_solver].
    apply elem_of_difference. split; [apply elem_of_set_seq; lia|done].
Qed.

Lemma markLeading_total fuel pending leads :
  length pending + size (universe ∖ leads) ≤ fuel → leads_bound leads →
  (∀ r, r = start ∨ r ∈ leads → r ∈ pending ∨
     ∀ p, p ∈ default [] (preds !! r) → start < p → p ∈ leads) →
  ∃ L, markLeading preds start fuel pending leads = Some L ∧ leads_bound L ∧
    ∀ r p, r = start ∨ r ∈ L → p ∈ default [] (preds !! r) → start < p → p ∈ L.
Proof.
  revert pending leads. induction fuel as [|fuel IH]; intros [|reached pending] leads Hf Hb Hc;
    simpl in *; try lia.
  1, 2: exists leads; split_and!; [done..|]; intros r p Hr;
    destruct (Hc r Hr) as [[]%elem_of_nil|]; auto.
  pose proof (markPredecessors_spec (default [] (preds !! reached)) leads pending) as H.
  destruct (foldl _ _ _) as [leads1 pending1].
  destruct H as (Hsub & Hb1 & Hin & Hp & Hl & Hm); [apply preds_bound|done|].
  apply IH; [lia|done|]. intros r Hr. destruct (decide (r = reached)) as [->|Hne]; [by right|].
  assert ((r = start ∨ r ∈ leads) ∨ r ∈ pending1) as [Hr'|]; [|..|by left].
  { destruct Hr as [->|[?|?]%Hl]; auto. }
  destruct (Hc r Hr') as [[->|?]%elem_of_cons|Hc']; [done|left; auto|right].
  intros p Hpp Hlt. apply Hsub. auto.
Qed.
End leading.

(** ** Lemmas on judging a cycle *)

Lemma commonGates_spec (locks : gset string) (cycle : list LockOrderFact) :
  match foldl (λ gates edge,
      let candidates := filter (λ lock, lock ∉ locks) (lo_heldLocks edge) in
      match gates with
      | None => Some candidates
      | Some gates => Some (gates ∩ candidates)
      end) None cycle with
  | None => cycle = []
  | Some G => cycle ≠ [] ∧ ∀ x, x ∈ G ↔ x ∉ locks ∧ ∀ o, o ∈ cycle → x ∈ lo_heldLocks o
  end.
Proof.
  induction cycle as [|e cycle IH] using rev_ind; [done|]. rewrite foldl_snoc. simpl.
  destruct (foldl _ _ cycle) as [G|].
  - destruct IH as [Hne IH]. split; [by destruct cycle|]. intros x.
    rewrite elem_of_intersection, elem_of_filter, IH. setoid_rewrite elem_of_app.
    setoid_rewrite list_elem_of_singleton. split.
    + intros [[? H] [_ ?]]. split; [done|]. intros o [?| ->]; auto.
    + intros [? H]. auto.
  - subst cycle. split; [done|]. intros x. rewrite elem_of_filter. simpl.
    setoid_rewrite list_elem_of_singleton. split.
    + intros [? ?]. split; [done|]. by intros o ->.
    + intros [? H]. auto.
Qed.

Lemma hasCommonGateLock_false cycle :
  cycle ≠ [] → hasCommonGateLock cycle = false ↔
  ∀ lock, (∀ o, o ∈ cycle → lock ∈ lo_heldLocks o) → lock ∈ cycleLockSet cycle.
Proof.
  intros Hne. unfold hasCommonGateLock. pose proof (commonGates_spec (cycleLockSet cycle) cycle) as H.
  cbv zeta in *. destruct (foldl _ _ cycle) as [G|]; [|done]. destruct H as [_ H].
  rewrite negb_false_iff, bool_decide_eq_true. split.
  - intros -> lock Hl. destruct (decide (lock ∈ cycleLockSet cycle)) as [|Hn]; [done|].
    by assert (lock ∈ (∅ : gset string)) as []%elem_of_empty by (by apply H).
  - intros Hall. apply set_eq. intros x. split; [|by intros ?%elem_of_empty].
    intros [Hn Hx]%H. by apply Hall in Hx.
Qed.

Lemma mayHappenInParallelWithEach_spec order taken facts :
  mayHappenInParallelWithEach order taken facts = true ↔
  ∀ o, o ∈ taken →
    mayHappenInParallel o (entriesFor o facts) order (entriesFor order facts) facts = true.
Proof. unfold mayHappenInParallelWithEach. apply forallb_elem. Qed.

Lemma cycleDiagnostic_Some facts cycle :
  cycle ≠ [] → ∃ d, cycleDiagnostic facts cycle = Some d.
Proof.
  intros Hne. unfold cycleDiagnostic. destruct cycle as [|a cycle]; [done|]. simpl head.
  destruct (last (a :: cycle)) as [b|] eqn:E; [eauto|]. by apply last_None in E.
Qed.

Lemma DeadlockCycle_nonempty facts cycle : DeadlockCycle facts cycle → cycle ≠ [].
Proof. intros H ->. destruct (dc_closed _ _ H) as (? & ? & ? & _). done. Qed.

(** ** The state of the search *)

(** The report lists the diagnostics of deadlock cycles with distinct keys, after
    those in it at the start. *)
Record search_ok (facts : TUFacts) (base : list Diagnostic) (st : SearchState) : Prop := {
  so_found : ∃ cycles, rep_diagnostics (ss_report st) = base ++ omap (cycleDiagnostic facts) cycles ∧
    Forall (DeadlockCycle facts) cycles ∧ NoDup (cycleKey <$> cycles) ∧
    ∀ key, key ∈ ss_emittedCycleKeys st ↔ key ∈ cycleKey <$> cycles;
  so_address : Forall (DeadlockCycle facts) (ss_addressOrderedCycles st);
  so_notices : rep_notices (ss_report st) = [];
}.

Lemma search_ok_emitOnce facts base cycle st :
  DeadlockCycle facts cycle → search_ok facts base st → search_ok facts base (emitOnce facts cycle st).
Proof.
  intros Hc [(cycles & Hd & Hall & Hnd & Hk) Ha Hn]. unfold emitOnce.
  case_bool_decide as Hin; [by split; eauto|].
  destruct (cycleDiagnostic_Some facts cycle) as [d Hcd]; [by eapply DeadlockCycle_nonempty|].
  split; [|done|by unfold emitCycleDiagnostic; rewrite Hcd].
  exists (cycles ++ [cycle]). simpl. unfold emitCycleDiagnostic. rewrite Hcd. simpl.
  rewrite Hd, omap_app, fmap_app. simpl. rewrite Hcd. split_and!.
  - by rewrite app_assoc.
  - apply Forall_app. auto.
  - apply NoDup_app. split_and!; [done| |apply NoDup_singleton].
    intros key Hkey ->%list_elem_of_singleton. by apply Hin, Hk.
  - intros key. rewrite elem_of_union, elem_of_singleton, Hk, elem_of_app, list_elem_of_singleton.
    tauto.
Qed.

Lemma search_ok_closeCycle facts base path st :
  (hasCommonGateLock path = false → DeadlockCycle facts path) →
  search_ok facts base st → search_ok facts base (closeCycle facts path st).
Proof.
  intros Hp Hst. unfold closeCycle. destruct (hasCommonGateLock path); [done|].
  destruct (isAddressOrdered path); simpl; [|by apply search_ok_emitOnce; auto].
  case_bool_decide; [done|]. destruct Hst. split; [done| |done]. apply Forall_app. auto.
Qed.

Lemma search_ok_examined facts base n st :
  search_ok facts base st → search_ok facts base (set_examined n st).
Proof. intros []. by split. Qed.

(** Keys are only ever added. *)
Definition keys_grow (st st' : SearchState) : Prop :=
  ss_emittedCycleKeys st ⊆ ss_emittedCycleKeys st'.

#[local] Instance keys_grow_preorder : PreOrder keys_grow.
Proof. split; [intros a|intros a b c]; unfold keys_grow; [done|apply transitivity]. Qed.

Lemma keys_grow_emitOnce facts cycle st : keys_grow st (emitOnce facts cycle st).
Proof. unfold emitOnce, keys_grow. case_bool_decide; set_solver. Qed.

Lemma keys_grow_closeCycle facts cycle st : keys_grow st (closeCycle facts cycle st).
Proof.
  unfold closeCycle. repeat case_match; try apply keys_grow_emitOnce; by unfold keys_grow.
Qed.

Lemma emitOnce_key facts cycle st : cycleKey cycle ∈ ss_emittedCycleKeys (emitOnce facts cycle st).
Proof. unfold emitOnce. case_bool_decide; simpl; set_solver. Qed.

(** ** Lemmas on the walk *)

Section walk_lemmas.
Context (facts : TUFacts) (numbers : gmap string nat) (graph : LockGraph).
Context (start : nat) (leads : gset nat).
Hypothesis Hgraph : graph_ok facts numbers graph.
Hypothesis Hleads : leads_bound start (length graph) leads.

Abbreviation parallel a b :=
  (mayHappenInParallel a (entriesFor a facts) b (entriesFor b facts) facts = true).

Lemma numbers_inj k k' n : numbers !! k = Some n → numbers !! k' = Some n → k = k'.
Proof. apply (go_numbering _ _ _ Hgraph). Qed.

(** What holds of the path each time the walk stands at [lock]. *)
Record path_ok (path : list LockOrderFact) (onPath : gset nat) (lock : nat) : Prop := {
  po_lock : lock = start ∨ lock ∈ onPath;
  po_onPath : onPath ⊆ leads;
  po_facts : ∀ o, o ∈ path → o ∈ lockOrders facts ∧ isGraphOrder facts o = true;
  po_firsts : ∀ o, o ∈ path → ∃ n, numbers !! lo_firstLockId o = Some n ∧
    (n = start ∨ n ∈ onPath) ∧ n ≠ lock;
  po_elementary : NoDup (lo_firstLockId <$> path);
  po_chained : ∀ i a b, path !! i = Some a → path !! S i = Some b →
    lo_secondLockId a = lo_firstLockId b;
  po_head : ∀ a, head path = Some a → numbers !! lo_firstLockId a = Some start;
  po_last : ∀ b, last path = Some b → numbers !! lo_secondLockId b = Some lock;
  po_nil : path = [] → lock = start;
  po_parallel : ∀ i j a b, i < j → path !! i = Some a → path !! j = Some b → parallel a b;
}.

Lemma path_ok_start : path_ok [] ∅ start.
Proof.
  split; try done; [by left|by intros ? ?%elem_of_nil..|constructor].
Qed.

(** The chain and the parallelism of a path one order longer. *)
Lemma chained_snoc path onPath lock o :
  path_ok path onPath lock → numbers !! lo_firstLockId o = Some lock →
  ∀ i a b, (path ++ [o]) !! i = Some a → (path ++ [o]) !! S i = Some b →
    lo_secondLockId a = lo_firstLockId b.
Proof.
  intros Hp Ho i a b Ha Hb. apply lookup_snoc_Some in Ha as [[Hi Ha]|[-> ->]];
    apply lookup_snoc_Some in Hb as [[Hj Hb]|[Hj Hb]]; try lia.
  - by eapply (po_chained _ _ _ Hp).
  - subst b. assert (last path = Some a) as Hlast.
    { rewrite last_lookup. by replace (pred (length path)) with i by lia. }
    apply (po_last _ _ _ Hp) in Hlast. by eapply numbers_inj.
Qed.

Lemma parallel_snoc path onPath lock o :
  path_ok path onPath lock → mayHappenInParallelWithEach o path facts = true →
  ∀ i j a b, i < j → (path ++ [o]) !! i = Some a → (path ++ [o]) !! j = Some b → parallel a b.
Proof.
  intros Hp Ho i j a b Hij Ha Hb. apply lookup_snoc_Some in Hb as [[Hj Hb]|[-> ->]].
  - rewrite lookup_app_l in Ha by lia. exact (po_parallel _ _ _ Hp i j a b Hij Ha Hb).
  - rewrite lookup_app_l in Ha by lia. rewrite mayHappenInParallelWithEach_spec in Ho.
    apply Ho. by eapply list_elem_of_lookup_2.
Qed.

Lemma firsts_snoc path onPath lock o :
  path_ok path onPath lock → numbers !! lo_firstLockId o = Some lock →
  NoDup (lo_firstLockId <$> path ++ [o]).
Proof.
  intros Hp Ho. rewrite fmap_app. apply NoDup_app. split_and!; [apply Hp| |apply NoDup_singleton].
  intros s (o' & -> & Ho')%list_elem_of_fmap Hs%list_elem_of_singleton.
  destruct (po_firsts _ _ _ Hp o' Ho') as (n & Hn & _ & Hne). rewrite Hs, Ho in Hn. by simplify_eq.
Qed.

Lemma head_snoc {A} (l : list A) x : head (l ++ [x]) = Some (default x (head l)).
Proof. by destruct l. Qed.

Lemma head_snoc_start path onPath lock o a :
  path_ok path onPath lock → numbers !! lo_firstLockId o = Some lock →
  head (path ++ [o]) = Some a → numbers !! lo_firstLockId a = Some start.
Proof.
  intros Hp Ho. rewrite head_snoc. intros [= <-]. destruct (head path) as [a|] eqn:E; simpl.
  - by apply (po_head _ _ _ Hp).
  - rewrite Ho. f_equal. apply (po_nil _ _ _ Hp). by apply head_None in E.
Qed.

(** Taking an order toward a lock that is neither the start nor on the path. *)
Lemma path_ok_descend path onPath lock row s o :
  path_ok path onPath lock → graph !! lock = Some row → s ∈ row → o ∈ succ_orders s →
  mayHappenInParallelWithEach o path facts = true →
  succ_lock s ≠ start → succ_lock s ∈ leads → succ_lock s ∉ onPath →
  path_ok (path ++ [o]) ({[succ_lock s]} ∪ onPath) (succ_lock s).
Proof.
  intros Hp Hrow Hs Ho Hpar Hne Hl Hon.
  destruct (go_orders _ _ _ Hgraph _ _ _ _ Hrow Hs Ho) as (Hof & Hog & H1 & H2). split.
  - right. set_solver.
  - pose proof (po_onPath _ _ _ Hp). set_solver.
  - intros o' [?| ->%list_elem_of_singleton]%elem_of_app; [by apply Hp|done].
  - intros o' [Ho'| ->%list_elem_of_singleton]%elem_of_app.
    + destruct (po_firsts _ _ _ Hp o' Ho') as (n & Hn & Hns & _). exists n.
      split_and!; [done|set_solver|]. intros ->. destruct Hns; done.
    + exists lock. pose proof (po_lock _ _ _ Hp) as Hlo. split_and!; [done|set_solver|].
      intros ->. by destruct Hlo.
  - by eapply firsts_snoc.
  - by eapply chained_snoc.
  - intros a. by eapply head_snoc_start.
  - intros b. rewrite last_snoc. by intros [= <-].
  - by intros []%app_nil.
  - by eapply parallel_snoc.
Qed.

(** Closing the path at the start. *)
Lemma path_ok_close path onPath lock row s o :
  path_ok path onPath lock → graph !! lock = Some row → s ∈ row → o ∈ succ_orders s →
  mayHappenInParallelWithEach o path facts = true → succ_lock s = start →
  hasCommonGateLock (path ++ [o]) = false → DeadlockCycle facts (path ++ [o]).
Proof.
  intros Hp Hrow Hs Ho Hpar Hst Hgate.
  destruct (go_orders _ _ _ Hgraph _ _ _ _ Hrow Hs Ho) as (Hof & Hog & H1 & H2). split.
  - intros o' [?| ->%list_elem_of_singleton]%elem_of_app; [by apply Hp|done].
  - by eapply firsts_snoc.
  - by eapply chained_snoc.
  - exists (default o (head path)), o. rewrite head_snoc, last_snoc. split_and!; [done..|].
    eapply numbers_inj; [by rewrite H2, Hst|].
    eapply head_snoc_start; [done..|apply head_snoc].
  - by eapply parallel_snoc.
  - apply hasCommonGateLock_false; [by destruct path|done].
Qed.

Lemma elem_of_row lock s : s ∈ default [] (graph !! lock) → graph !! lock = Some (default [] (graph !! lock)).
Proof. destruct (graph !! lock); [done|]. by intros ?%elem_of_nil. Qed.

(** The fuel decreases with the locks not yet on the path. *)
Lemma walk_total base fuel path onPath lock st :
  size ((set_seq 0 (length graph) : gset nat) ∖ onPath) < fuel →
  path_ok path onPath lock → search_ok facts base st →
  ∃ b st', walk facts graph start leads fuel path onPath lock st = Some (b, st') ∧
    search_ok facts base st'.
Proof.
  revert path onPath lock st. induction fuel as [|fuel IH]; intros path onPath lock st Hf Hp Hst;
    [lia|]. simpl.
  apply (loop_while_total (search_ok facts base)); [|done]. clear st Hst.
  intros s st Hs Hst. pose proof (elem_of_row _ _ Hs) as Hrow.
  destruct (negb _ && _) eqn:Eskip; [by exists true, st|].
  apply (loop_while_total (search_ok facts base)); [|done]. clear st Hst.
  intros o st Ho Hst. unfold examineOrder.
  set (st1 := set_examined _ st). assert (search_ok facts base st1) as Hst1
    by (by apply search_ok_examined).
  destruct (bool_decide (_ < _)%N); [by exists false, st1|].
  destruct (mayHappenInParallelWithEach o path facts) eqn:Epar; simpl; [|by exists true, st1].
  case_bool_decide as Hclose; simpl in *.
  - do 2 eexists. split; [done|]. apply search_ok_closeCycle; [|done].
    intros. by eapply path_ok_close.
  - apply orb_false_iff in Eskip as [Hl%negb_false_iff Ho'].
    apply bool_decide_eq_true in Hl. apply bool_decide_eq_false in Ho'.
    apply IH; [|by eapply path_ok_descend|done].
    enough (size (set_seq 0 (length graph) ∖ ({[succ_lock s]} ∪ onPath) : gset nat)
      < size (set_seq 0 (length graph) ∖ onPath : gset nat)) by lia.
    apply subset_size. split; [set_solver|]. intros H. specialize (H (succ_lock s)).
    specialize (Hleads _ Hl). rewrite !elem_of_difference, elem_of_set_seq in H. set_solver by lia.
Qed.

Lemma examineOrder_grows closes path descend o st b st' :
  (∀ path st b st', descend path st = Some (b, st') → keys_grow st st') →
  examineOrder facts closes path descend o st = Some (b, st') → keys_grow st st'.
Proof.
  intros Hd. unfold examineOrder.
  change (keys_grow st st') with (keys_grow (set_examined (ss_examined st + 1) st) st').
  destruct (bool_decide (_ < _)%N); [by intros [= <- <-]|].
  destruct (negb _); [by intros [= <- <-]|]. destruct closes; simpl; [|apply Hd].
  intros [= <- <-]. apply keys_grow_closeCycle.
Qed.

Lemma walk_grows fuel path onPath lock st b st' :
  walk facts graph start leads fuel path onPath lock st = Some (b, st') → keys_grow st st'.
Proof.
  revert path onPath lock st b st'. induction fuel as [|fuel IH]; intros path onPath lock st b st'; [done|].
  simpl. apply (loop_while_inv (keys_grow st)); [|reflexivity].
  intros s st1 b1 st2 Hs H1. destruct (negb _ && _); [by intros [= <- <-]|].
  apply (loop_while_inv (keys_grow st)); [|done].
  intros o st3 b3 st4 Ho H3 H. etrans; [exact H3|].
  eapply examineOrder_grows; [|exact H]. intros ????. apply IH.
Qed.

(** A way through the graph back to the start, along locks the walk may take. *)
Inductive route : gset nat → nat → list LockOrderFact → Prop :=
| route_close onPath lock row s o :
    graph !! lock = Some row → s ∈ row → o ∈ succ_orders s → succ_lock s = start →
    route onPath lock [o]
| route_step onPath lock row s o rest :
    graph !! lock = Some row → s ∈ row → o ∈ succ_orders s →
    succ_lock s ≠ start → succ_lock s ∈ leads → succ_lock s ∉ onPath →
    route ({[succ_lock s]} ∪ onPath) (succ_lock s) rest →
    route onPath lock (o :: rest).

(** A walk that was not cut short visits each order of each lock it stands at. *)
Lemma walk_visits fuel path onPath lock st st' row s o :
  walk facts graph start leads (S fuel) path onPath lock st = Some (true, st') →
  graph !! lock = Some row → s ∈ row → o ∈ succ_orders s →
  succ_lock s = start ∨ (succ_lock s ∈ leads ∧ succ_lock s ∉ onPath) →
  ∃ st1 st2, examineOrder facts (bool_decide (succ_lock s = start)) path
      (λ path st, walk facts graph start leads fuel path ({[succ_lock s]} ∪ onPath) (succ_lock s) st)
      o st1 = Some (true, st2) ∧ keys_grow st2 st'.
Proof.
  intros Hw Hrow Hs Ho Htake. simpl in Hw. rewrite Hrow in Hw. simpl in Hw.
  eapply (loop_while_visits keys_grow) with (x := s) in Hw as (st1 & st2 & H & Hg); [|..|done].
  - destruct (negb _ && _) eqn:Eskip.
    { apply andb_true_iff in Eskip as [?%negb_true_iff%bool_decide_eq_false Hor].
      apply orb_true_iff in Hor as [?%negb_true_iff%bool_decide_eq_false|?%bool_decide_eq_true];
        destruct Htake as [|[]]; done. }
    eapply (loop_while_visits keys_grow) with (x := o) in H as (st3 & st4 & H & Hg'); [|..|done].
    + exists st3, st4. split; [done|]. by etrans.
    + intros ????? H0. eapply examineOrder_grows; [|exact H0]. intros ????. apply walk_grows.
  - intros s' st3 b st4 _. destruct (negb _ && _); [by intros [= <- <-]|].
    apply (loop_while_inv (keys_grow st3)); [|reflexivity].
    intros ????? H1 H2. etrans; [exact H1|]. eapply examineOrder_grows; [|exact H2].
    intros ????. apply walk_grows.
Qed.

(** Of a choice of orders that passes every test, the examination of one order
    does not skip it. *)
Lemma examineOrder_takes closes path descend o rest st st' :
  (∀ i j a b, i < j → (path ++ o :: rest) !! i = Some a → (path ++ o :: rest) !! j = Some b →
     parallel a b) →
  examineOrder facts closes path descend o st = Some (true, st') →
  ∃ st1, (if closes then Some (true, closeCycle facts (path ++ [o]) st1)
          else descend (path ++ [o]) st1) = Some (true, st').
Proof.
  intros Hpar. unfold examineOrder. destruct (bool_decide (_ < _)%N); [done|].
  assert (mayHappenInParallelWithEach o path facts = true) as ->.
  { apply mayHappenInParallelWithEach_spec. intros a [i Hi]%list_elem_of_lookup.
    apply (Hpar i (length path)); [by eapply lookup_lt_Some|by apply lookup_app_l_Some|].
    by rewrite lookup_app_r, Nat.sub_diag by done. }
  intros H. exists (set_examined (ss_examined st + 1) st). by destruct closes.
Qed.

Lemma walk_complete onPath lock rest :
  route onPath lock rest → ∀ fuel path st st',
  walk facts graph start leads fuel path onPath lock st = Some (true, st') →
  (∀ i j a b, i < j → (path ++ rest) !! i = Some a → (path ++ rest) !! j = Some b → parallel a b) →
  hasCommonGateLock (path ++ rest) = false → isAddressOrdered (path ++ rest) = false →
  cycleKey (path ++ rest) ∈ ss_emittedCycleKeys st'.
Proof.
  induction 1 as [onPath lock row s o Hrow Hs Ho Hst|onPath lock row s o rest Hrow Hs Ho Hne Hl Hon Hr IH];
    intros [|fuel] path st st' Hw Hpar Hgate Haddr; [done| |done|].
  - eapply walk_visits in Hw as (st1 & st2 & He & Hg); [|done..|by left].
    apply (examineOrder_takes _ _ _ _ []) in He as (st3 & He); [|done].
    rewrite bool_decide_true in He by done. injection He as <-. apply Hg.
    unfold closeCycle. rewrite Hgate, Haddr. simpl. apply emitOnce_key.
  - eapply walk_visits in Hw as (st1 & st2 & He & Hg); [|done..|by right].
    apply (examineOrder_takes _ _ _ _ rest) in He as (st3 & He); [|done].
    rewrite bool_decide_false in He by done. apply Hg.
    rewrite (cons_middle o path rest) in *. rewrite app_assoc in *. by eapply IH.
Qed.
End walk_lemmas.

(** ** Lemmas on rotating a cycle *)

Lemma cycleKey_ext cycle cycle' :
  (∀ o, o ∈ cycle ↔ o ∈ cycle') → cycleKey cycle = cycleKey cycle'.
Proof.
  intros H. unfold cycleKey. replace (cycleNodes cycle') with (cycleNodes cycle); [done|].
  apply set_eq. intros x. unfold cycleNodes.
  rewrite !elem_of_list_to_set, !list_elem_of_fmap. by setoid_rewrite H.
Qed.

Lemma cycleLockSet_ext cycle cycle' x :
  (∀ o, o ∈ cycle ↔ o ∈ cycle') → x ∈ cycleLockSet cycle ↔ x ∈ cycleLockSet cycle'.
Proof.
  intros H. unfold cycleLockSet.
  rewrite !elem_of_union, !elem_of_list_to_set, !list_elem_of_fmap. by setoid_rewrite H.
Qed.

Lemma isAddressOrdered_ext cycle cycle' :
  (∀ o, o ∈ cycle ↔ o ∈ cycle') → isAddressOrdered cycle = isAddressOrdered cycle'.
Proof.
  intros H. apply eq_bool_prop_intro. rewrite !Is_true_true. unfold isAddressOrdered.
  rewrite !forallb_elem. by setoid_rewrite H.
Qed.

Lemma DeadlockCycle_rotate1 facts a l : DeadlockCycle facts (a :: l) → DeadlockCycle facts (l ++ [a]).
Proof.
  intros H. assert (∀ o, o ∈ l ++ [a] ↔ o ∈ a :: l) as Hin by set_solver.
  destruct (dc_closed _ _ H) as (a' & b & [= <-] & Hb & Hclosed).
  split.
  - intros o Ho%Hin. by apply H.
  - rewrite fmap_app. simpl. rewrite Permutation_app_comm. apply H.
  - intros i x y Hx Hy.
    apply lookup_snoc_Some in Hy as [[Hi Hy]|[Hi ->]];
      rewrite lookup_app_l in Hx by lia; [by apply (dc_chained _ _ H (S i))|].
    rewrite <-Hclosed. f_equal. rewrite last_lookup in Hb. simpl in Hb.
    rewrite <-Hi in Hb. simpl in Hb. congruence.
  - destruct l as [|b' l]; [by exists a, a; simplify_eq/=|].
    exists b', a. rewrite last_snoc. split_and!; [done..|]. by apply (dc_chained _ _ H 0).
  - intros i j x y Hij Hx Hy.
    apply lookup_snoc_Some in Hy as [[Hj Hy]|[Hj ->]]; rewrite lookup_app_l in Hx by lia.
    + by apply (dc_parallel _ _ H (S i) (S j)); [lia|..].
    + rewrite mayHappenInParallel_comm. by apply (dc_parallel _ _ H 0 (S i)); [lia|..].
  - intros lock Hl. rewrite (cycleLockSet_ext _ _ _ Hin). apply H. intros o Ho. by apply Hl, Hin.
Qed.

Lemma DeadlockCycle_rotate facts l1 l2 : DeadlockCycle facts (l1 ++ l2) → DeadlockCycle facts (l2 ++ l1).
Proof.
  revert l2. induction l1 as [|a l1 IH]; intros l2 H; [by rewrite app_nil_r|].
  apply DeadlockCycle_rotate1 in H. rewrite <-app_assoc in H. apply IH in H.
  by rewrite <-app_assoc in H.
Qed.

(** ** Lemmas on the cycles the search finds *)

Section routes.
Context (facts : TUFacts) (numbers : gmap string nat) (graph : LockGraph).
Context (start : nat) (leads : gset nat) (cycle : list LockOrderFact).
Hypothesis Hgraph : graph_ok facts numbers graph.
Hypothesis Hclosure : ∀ r p, r = start ∨ r ∈ leads →
  p ∈ default [] (predecessorsOf graph !! r) → start < p → p ∈ leads.
Hypothesis Hcycle : DeadlockCycle facts cycle.
Hypothesis Hhead : ∀ a, head cycle = Some a → numbers !! lo_firstLockId a = Some start.
Hypothesis Hlowest : ∀ o n, o ∈ cycle → numbers !! lo_firstLockId o = Some n → start ≤ n.

(** The lock an order of the cycle takes is the one the next order holds. *)
Lemma next_lock pre o rest :
  cycle = pre ++ o :: rest →
  match rest with
  | [] => numbers !! lo_secondLockId o = Some start
  | o2 :: _ => lo_secondLockId o = lo_firstLockId o2
  end.
Proof.
  intros Hc. destruct rest as [|o2 rest].
  - destruct (dc_closed _ _ Hcycle) as (a & b & Ha & Hb & Hcl).
    rewrite Hc, last_snoc in Hb. injection Hb as <-. rewrite Hcl. by apply Hhead.
  - apply (dc_chained _ _ Hcycle (length pre)); rewrite Hc.
    + by rewrite lookup_app_r, Nat.sub_diag by done.
    + rewrite lookup_app_r by lia. by replace (S (length pre) - length pre) with 1 by lia.
Qed.

Lemma not_first_again pre o rest o' :
  cycle = pre ++ o :: rest → o' ∈ pre → lo_firstLockId o' ≠ lo_firstLockId o.
Proof.
  intros Hc Ho' E. pose proof (dc_elementary _ _ Hcycle) as Hnd.
  rewrite Hc, fmap_app, fmap_cons in Hnd. apply NoDup_app in Hnd as (_ & Hd & _).
  apply (Hd (lo_firstLockId o')); [by apply list_elem_of_fmap_2|]. rewrite E. left.
Qed.

Lemma order_in_graph o :
  o ∈ cycle → ∃ n row s, numbers !! lo_firstLockId o = Some n ∧ graph !! n = Some row ∧ s ∈ row ∧
    o ∈ succ_orders s ∧ numbers !! lo_secondLockId o = Some (succ_lock s).
Proof. intros [? ?]%(dc_facts _ _ Hcycle). by apply (go_complete _ _ _ Hgraph). Qed.

Lemma later_number pre o rest n :
  cycle = pre ++ o :: rest → pre ≠ [] → numbers !! lo_firstLockId o = Some n → start < n.
Proof.
  intros Hc Hpre Hn. destruct pre as [|a pre]; [done|].
  assert (start ≤ n) by (eapply Hlowest; [|done]; rewrite Hc; set_solver).
  enough (n ≠ start) by lia. intros ->.
  apply (not_first_again (a :: pre) o rest a); [exact Hc|left|].
  eapply (numbers_inj _ _ _ Hgraph); [|done]. apply Hhead. by rewrite Hc.
Qed.

Lemma cycle_in_leads pre o rest n :
  cycle = pre ++ o :: rest → pre ≠ [] → numbers !! lo_firstLockId o = Some n → n ∈ leads.
Proof.
  revert pre o n. induction rest as [|o2 rest IH]; intros pre o n Hc Hpre Hn;
    pose proof (next_lock _ _ _ Hc) as Hnext; pose proof (later_number _ _ _ _ Hc Hpre Hn) as Hlt;
    (destruct (order_in_graph o) as (n' & row & s & Hn' & Hrow & Hs & Ho & H2);
      [rewrite Hc; set_solver|]); rewrite Hn in Hn'; injection Hn' as <-;
    (eapply (Hclosure (succ_lock s)); [|apply predecessorsOf_spec;
      [by eapply (go_targets _ _ _ Hgraph)|by eauto]|done]).
  - left. congruence.
  - right. apply (IH (pre ++ [o]) o2); [by rewrite Hc, <-app_assoc|by destruct pre|].
    by rewrite <-Hnext.
Qed.

Lemma route_of_suffix pre o rest onPath n :
  cycle = pre ++ o :: rest → numbers !! lo_firstLockId o = Some n →
  (∀ m, m ∈ onPath → ∃ o', o' ∈ pre ++ [o] ∧ numbers !! lo_firstLockId o' = Some m) →
  route graph start leads onPath n (o :: rest).
Proof.
  revert pre o onPath n. induction rest as [|o2 rest IH]; intros pre o onPath n Hc Hn Hon;
    pose proof (next_lock _ _ _ Hc) as Hnext;
    (destruct (order_in_graph o) as (n' & row & s & Hn' & Hrow & Hs & Ho & H2);
      [rewrite Hc; set_solver|]); rewrite Hn in Hn'; injection Hn' as <-.
  { eapply route_close; [done..|]. congruence. }
  assert (cycle = (pre ++ [o]) ++ o2 :: rest) as Hc2 by (by rewrite Hc, <-app_assoc).
  assert (∀ o' m, o' ∈ pre ++ [o] → numbers !! lo_firstLockId o' = Some m → m ≠ succ_lock s) as Hfresh.
  { intros o' m Ho' Hm ->. apply (not_first_again _ _ _ o' Hc2 Ho').
    eapply (numbers_inj _ _ _ Hgraph); [done|]. by rewrite <-Hnext. }
  eapply route_step; [done..| | | |].
  - destruct (head cycle) as [a|] eqn:Ea.
    + intros E. apply (Hfresh a start); [|by apply Hhead|done].
      rewrite Hc2 in Ea. destruct pre as [|p pre]; injection Ea as ->; left.
    + apply head_None in Ea. rewrite Ea in Hc. by destruct pre.
  - eapply (cycle_in_leads _ _ _ _ Hc2); [by destruct pre|]. by rewrite <-Hnext.
  - intros (o' & Ho' & Hm)%Hon. by eapply Hfresh.
  - apply (IH (pre ++ [o])); [done|by rewrite <-Hnext|].
    intros m [->%elem_of_singleton|(o' & Ho' & Hm)%Hon]%elem_of_union.
    + exists o2. split; [set_solver|]. by rewrite <-Hnext.
    + exists o'. split; [set_solver|done].
Qed.
End routes.

(** ** Lemmas on the whole search *)

#[local] Arguments markLeading : simpl never.
#[local] Arguments walk : simpl never.

Section search.
Context (facts : TUFacts) (numbers : gmap string nat) (graph : LockGraph).
Context (base : list Diagnostic).
Hypothesis Hgraph : graph_ok facts numbers graph.

(** Every cycle whose lowest-numbered lock is [start] has its key emitted, unless
    the layout of the locks rules it out. *)
Definition searched (start : nat) (st : SearchState) : Prop :=
  ∀ cycle, DeadlockCycle facts cycle → isAddressOrdered cycle = false →
    (∀ a, head cycle = Some a → numbers !! lo_firstLockId a = Some start) →
    (∀ o n, o ∈ cycle → numbers !! lo_firstLockId o = Some n → start ≤ n) →
    cycleKey cycle ∈ ss_emittedCycleKeys st.

Lemma searched_grow start st st' : keys_grow st st' → searched start st → searched start st'.
Proof. intros Hg Hs cycle ????. apply Hg. by apply Hs. Qed.

Lemma searched_walk start leads st st' fuel :
  (∀ r p, r = start ∨ r ∈ leads → p ∈ default [] (predecessorsOf graph !! r) →
     start < p → p ∈ leads) →
  walk facts graph start leads fuel [] ∅ start st = Some (true, st') → searched start st'.
Proof.
  intros Hcl Hw cycle Hc Haddr Hhead Hlow. pose proof (DeadlockCycle_nonempty _ _ Hc) as Hne.
  destruct cycle as [|o rest]; [done|].
  apply (walk_complete facts graph start leads ∅ start (o :: rest)) in Hw; [done|..].
  - eapply route_of_suffix with (pre := []); try done. by apply Hhead.
  - apply (dc_parallel _ _ Hc).
  - apply hasCommonGateLock_false; [done|]. apply (dc_ungated _ _ Hc).
  - done.
Qed.

Lemma predecessors_bound r p : p ∈ default [] (predecessorsOf graph !! r) → p < length graph.
Proof.
  destruct (decide (r < length graph)) as [Hr|Hr].
  - intros (row & s & ?%lookup_lt_Some & _)%predecessorsOf_spec; done.
  - rewrite lookup_ge_None_2; [by intros ?%elem_of_nil|].
    unfold predecessorsOf. rewrite foldl_rows_length, length_replicate. lia.
Qed.

Lemma searchFrom_ok c st start :
  start < length graph → search_ok facts base st →
  ∃ b st', searchFrom facts graph (Some (c, st)) start = Some (c && b, st') ∧
    search_ok facts base st' ∧ keys_grow st st' ∧ (b = true → searched start st').
Proof.
  intros Hlt Hst. unfold searchFrom. simpl.
  destruct (markLeading_total (predecessorsOf graph) start (length graph) predecessors_bound
    (S (length graph)) [start] ∅) as (leads & -> & Hb & Hcl).
  - simpl. apply le_n_S. etrans; [apply subseteq_size; by apply subseteq_difference_l|].
    by rewrite size_set_seq.
  - intros p []%elem_of_empty.
  - intros r [->|[]%elem_of_empty]. left. left.
  - simpl. destruct (walk_total facts numbers graph start leads Hgraph Hb base
      (S (S (length graph))) [] ∅ start (set_examined 0 st)) as (b & st' & Hw & Hst').
    + rewrite difference_empty_L. rewrite size_set_seq. lia.
    + apply path_ok_start.
    + by apply search_ok_examined.
    + exists b, st'. rewrite Hw. split_and!; [done..| |].
      * apply walk_grows in Hw. exact Hw.
      * intros ->. by eapply searched_walk.
Qed.

Lemma searchAll_ok st k :
  k ≤ length graph → search_ok facts base st →
  ∃ c st', foldl (searchFrom facts graph) (Some (true, st)) (seq 0 k) = Some (c, st') ∧
    search_ok facts base st' ∧ (c = true → ∀ start, start < k → searched start st').
Proof.
  intros Hk Hst. induction k as [|k IH].
  { exists true, st. split_and!; [done..|]. lia. }
  destruct IH as (c & st' & Hf & Hst' & Hs); [lia|].
  rewrite seq_S, foldl_snoc, Hf, Nat.add_0_l.
  destruct (searchFrom_ok c st' k) as (b & st2 & -> & Hst2 & Hg & Hs2); [lia|done|].
  exists (c && b), st2. split_and!; [done..|]. intros [-> ->]%andb_true_iff start Hlt.
  destruct (decide (start = k)) as [->|]; [auto|]. eapply searched_grow; [done|]. apply Hs; [done|lia].
Qed.
End search.

(** Every cycle can be entered at its lowest-numbered lock. *)
Lemma rotate_to_lowest facts numbers graph cycle :
  graph_ok facts numbers graph → DeadlockCycle facts cycle →
  ∃ start cycle', start < length graph ∧ DeadlockCycle facts cycle' ∧
    (∀ o, o ∈ cycle' ↔ o ∈ cycle) ∧
    (∀ a, head cycle' = Some a → numbers !! lo_firstLockId a = Some start) ∧
    (∀ o n, o ∈ cycle' → numbers !! lo_firstLockId o = Some n → start ≤ n).
Proof.
  intros Hg Hc.
  assert (∀ l, l ≠ [] → (∀ o, o ∈ l → is_Some (numbers !! lo_firstLockId o)) →
    ∃ o m, o ∈ l ∧ numbers !! lo_firstLockId o = Some m ∧
      ∀ o' n, o' ∈ l → numbers !! lo_firstLockId o' = Some n → m ≤ n) as Hmin.
  { intros l. induction l as [|x l IH]; intros Hne Hs; [done|].
    destruct (Hs x) as [m Hm]; [by left|]. destruct (decide (l = [])) as [->|Hl].
    - exists x, m. split_and!; [by left|done|].
      intros o' n ->%list_elem_of_singleton Hn. rewrite Hm in Hn. by simplify_eq.
    - destruct IH as (o & m' & Ho & Hm' & Hmin); [done|intros; apply Hs; by right|].
      destruct (decide (m ≤ m')); [exists x, m|exists o, m']; split_and!; try done.
      1: by left. 2: by right.
      all: intros o' k [->|Ho']%elem_of_cons Hk; [simplify_eq; lia|].
      all: specialize (Hmin o' k Ho' Hk); lia. }
  destruct (Hmin cycle) as (o & start & Ho & Hstart & Hlow).
  - by eapply DeadlockCycle_nonempty.
  - intros o [? ?]%(dc_facts _ _ Hc).
    destruct (go_complete _ _ _ Hg o) as (n & _ & _ & ? & _); [done..|eauto].
  - apply list_elem_of_split in Ho as (l1 & l2 & ->).
    exists start, ((o :: l2) ++ l1). split_and!.
    + rewrite (go_length _ _ _ Hg). by eapply (go_numbering _ _ _ Hg).
    + by apply DeadlockCycle_rotate.
    + intros x. rewrite !elem_of_app. tauto.
    + by intros a [= <-].
    + intros x n Hx. apply Hlow. rewrite !elem_of_app in *. tauto.
Qed.

(** The diagnostics of the re-acquired locks, in the order of the facts. *)
Definition selfDeadlocks (facts : TUFacts) : list Diagnostic :=
  selfDeadlockDiagnostic <$> filter (λ o, isSelfDeadlock facts o = true) (lockOrders facts).

Lemma self_report facts :
  let report := foldl (λ report fact,
      if negb (isSelfDeadlock facts fact) then report
      else emit report (selfDeadlockDiagnostic fact)) empty_report (lockOrders facts) in
  rep_diagnostics report = selfDeadlocks facts ∧ rep_notices report = [].
Proof.
  unfold selfDeadlocks. induction (lockOrders facts) as [|o l IH] using rev_ind; [done|].
  simpl in *. rewrite foldl_snoc, filter_app, fmap_app. destruct IH as [IHd IHn].
  destruct (isSelfDeadlock facts o) eqn:E; simpl.
  - rewrite IHd, IHn, filter_cons_True by done. done.
  - rewrite filter_cons_False by (by rewrite E). simpl. by rewrite app_nil_r.
Qed.

Lemma emit_address_ordered facts base cycles st :
  Forall (DeadlockCycle facts) cycles → search_ok facts base st →
  search_ok facts base (foldl (λ st cycle, emitOnce facts cycle st) st cycles).
Proof.
  intros Hc Hst. apply (foldl_inv (search_ok facts base)); [done|]. intros st' cycle Hin Hst'.
  rewrite Forall_forall in Hc. by apply search_ok_emitOnce; auto.
Qed.

(** The report of the analyzer, as the lists of what it found. *)
Lemma run_spec facts :
  ∃ report cycles, LockOrderAnalyzer_run facts = Some report ∧
    rep_diagnostics report = selfDeadlocks facts ++ omap (cycleDiagnostic facts) cycles ∧
    Forall (DeadlockCycle facts) cycles ∧ NoDup (cycleKey <$> cycles) ∧
    (rep_notices report = [] → ∀ cycle, DeadlockCycle facts cycle →
       isAddressOrdered cycle = false → cycleKey cycle ∈ cycleKey <$> cycles).
Proof.
  unfold LockOrderAnalyzer_run. destruct (buildLockGraph_ok facts) as (numbers & graph & -> & Hg).
  pose proof (self_report facts) as [Hself Hnot]. simpl in Hself, Hnot.
  set (report0 := foldl _ empty_report (lockOrders facts)) in *. simpl.
  unfold reportDeadlockingCycles.
  destruct (searchAll_ok facts numbers graph (selfDeadlocks facts) Hg (MkSearch report0 ∅ [] ∅ 0)
    (length graph)) as (c & st & -> & Hst & Hs); [done| |].
  { split; [|constructor|done]. exists []. rewrite app_nil_r. split_and!; [done|constructor..|].
    simpl. intros key. rewrite elem_of_empty, elem_of_nil. done. }
  simpl. destruct c; simpl.
  - destruct (so_found _ _ _ Hst) as (cycles & Hd & Hall & Hnd & Hk).
    exists (ss_report st), cycles. split_and!; [done..|]. intros _ cycle Hc Haddr.
    destruct (rotate_to_lowest _ _ _ _ Hg Hc) as (start & cycle' & Hlt & Hc' & Hin & Hhead & Hlow).
    rewrite <-(cycleKey_ext _ _ Hin). apply Hk. apply (Hs eq_refl start Hlt); [done| |done..].
    by rewrite (isAddressOrdered_ext _ _ Hin).
  - destruct (emit_address_ordered facts (selfDeadlocks facts) (ss_addressOrderedCycles st) st)
      as [(cycles & Hd & Hall & Hnd & _) _ Hn]; [apply Hst|done|].
    eexists _, cycles. split_and!; [done| |done..|].
    + by simpl.
    + simpl. rewrite Hn. done.
Qed.

Lemma ranked_no_cycle facts cycle (rank : string → nat) :
  (∀ o, o ∈ lockOrders facts → isGraphOrder facts o = true →
     rank (lo_firstLockId o) < rank (lo_secondLockId o)) →
  ¬ DeadlockCycle facts cycle.
Proof.
  intros Hrank H. destruct (dc_closed _ _ H) as (a & b & Ha & Hb & Hab).
  assert (∀ i o, cycle !! i = Some o → rank (lo_firstLockId a) < rank (lo_secondLockId o)) as Hup.
  { assert (∀ i o, cycle !! i = Some o → rank (lo_firstLockId o) < rank (lo_secondLockId o)) as Hr.
    { intros i o Ho%list_elem_of_lookup_2. destruct (dc_facts _ _ H o Ho). by apply Hrank. }
    intros i. induction i as [|i IH]; intros o Ho.
    - destruct cycle; simplify_eq/=. by apply (Hr 0).
    - destruct (cycle !! i) as [p|] eqn:Ep.
      + pose proof (IH p eq_refl) as Hp. pose proof (Hr _ _ Ho).
        rewrite (dc_chained _ _ H i p o Ep Ho) in Hp. lia.
      + apply lookup_ge_None in Ep. apply lookup_lt_Some in Ho. lia. }
  rewrite last_lookup in Hb. apply Hup in Hb. rewrite Hab in Hb. lia.
Qed.

(** ** Sample facts *)

Definition sample_order (fn first second : string) (low : bool) : LockOrderFact :=
  MkLockOrder fn first second (MkSourceLocation "a.c" 3 1 3 9 fn) {[first]} false ∅ ∅ low false
    false.

(** Two threads, [f] and [g], with the orders given. *)
Definition sample_orders (orders : list LockOrderFact) : TUFacts :=
  MkTUFacts [] [] orders [] [] [] [] [] [] [] [] false true
    {["f" := MkEntryConcurrency 1 false; "g" := MkEntryConcurrency 1 false]} ∅ ∅ ∅
    {["f" := {["f"]}; "g" := {["g"]}]} ∅ ∅ no_symbols.

Definition inversion_cycle : list LockOrderFact :=
  [sample_order "f" "A" "B" false; sample_order "g" "B" "A" false].

Definition inversion : TUFacts := sample_orders inversion_cycle.

Definition report_of (facts : TUFacts) : DiagnosticReport :=
  default empty_report (LockOrderAnalyzer_run facts).

Lemma inversion_deadlocks : DeadlockCycle inversion inversion_cycle.
Proof.
  split.
  - intros o [->|[->|[]%elem_of_nil]%elem_of_cons]%elem_of_cons; (split; [|by vm_compute]);
      simpl; set_solver.
  - apply (bool_decide_unpack _). by vm_compute.
  - intros [|[|i]] a b; simpl; intros; by simplify_eq/=.
  - do 2 eexists. by split_and!.
  - intros [|[|i]] [|[|j]] a b Hij Ha Hb; simplify_eq/=; try lia. by vm_compute.
  - intros lock Hl.
    assert (lock ∈ lo_heldLocks (sample_order "f" "A" "B" false)) by (apply Hl; left).
    simpl in *. unfold cycleLockSet. set_solver.
Qed.

(** ** Properties *)

(** the search always ends: with the fuel it is given no recursion runs out,
    no lookup of a lock's number fails, and a report is returned. *)
Theorem lock_order_run_terminates facts : ∃ report, LockOrderAnalyzer_run facts = Some report.
Proof. destruct (run_spec facts) as (report & cycles & Hr & _). eauto. Qed.

(** C4: soundness.  Every finding of the lock order analyzer is the re-acquisition
    of a non-recursive lock, or describes a closed chain of acquisitions of the
    unit, over distinct locks, that threads can reach at once pairwise and that
    no outer lock serializes. *)
Theorem lock_order_reports_deadlocks_only facts report d :
  LockOrderAnalyzer_run facts = Some report → d ∈ rep_diagnostics report →
  (∃ o, o ∈ lockOrders facts ∧ isSelfDeadlock facts o = true ∧ d = selfDeadlockDiagnostic o) ∨
  (∃ cycle, DeadlockCycle facts cycle ∧ cycleDiagnostic facts cycle = Some d).
Proof.
  intros Hr Hd. destruct (run_spec facts) as (report' & cycles & Hr' & Hds & Hall & _).
  simplify_eq. rewrite Hds in Hd. apply elem_of_app in Hd as [Hd|Hd].
  - left. apply list_elem_of_fmap in Hd as (o & -> & [? ?]%list_elem_of_filter). eauto.
  - right. apply list_elem_of_omap in Hd as (cycle & Hin & ?). rewrite Forall_forall in Hall. eauto.
Qed.

(** C3: completeness.  When the search stayed within its bound, every deadlock
    cycle of the unit that the layout of its locks does not rule out is reported,
    by a finding with the same key: whichever lock the cycle is entered at and
    whichever of several orders joins two of its locks. *)
Theorem lock_order_reports_every_deadlock facts report cycle :
  LockOrderAnalyzer_run facts = Some report → rep_notices report = [] →
  DeadlockCycle facts cycle → isAddressOrdered cycle = false →
  ∃ cycle' d, cycleKey cycle' = cycleKey cycle ∧ DeadlockCycle facts cycle' ∧
    cycleDiagnostic facts cycle' = Some d ∧ d ∈ rep_diagnostics report.
Proof.
  intros Hr Hn Hc Ha. destruct (run_spec facts) as (report' & cycles & Hr' & Hds & Hall & _ & Hcomp).
  simplify_eq. destruct (proj1 (list_elem_of_fmap _ _ _) (Hcomp Hn cycle Hc Ha))
    as (cycle' & Hk & Hin). rewrite Forall_forall in Hall.
  destruct (cycleDiagnostic_Some facts cycle') as [d Hd];
    [by eapply DeadlockCycle_nonempty, Hall|].
  exists cycle', d. split_and!; [done|auto|done|]. rewrite Hds.
  apply elem_of_app. right. apply list_elem_of_omap. eauto.
Qed.

(** each cycle once.  The report is the re-acquired locks in the order of the
    facts, then the findings of deadlock cycles with pairwise distinct keys. *)
Theorem lock_order_reports_each_cycle_once facts report :
  LockOrderAnalyzer_run facts = Some report →
  ∃ cycles, rep_diagnostics report = selfDeadlocks facts ++ omap (cycleDiagnostic facts) cycles ∧
    Forall (DeadlockCycle facts) cycles ∧ NoDup (cycleKey <$> cycles).
Proof.
  intros Hr. destruct (run_spec facts) as (report' & cycles & Hr' & ? & ? & ? & _).
  simplify_eq. eauto.
Qed.

(** a lock hierarchy is enough.  When every order of the graph goes up a rank
    of the locks and no non-recursive lock is re-acquired, nothing is reported. *)
Theorem lock_order_silent_on_ranked_locks facts report (rank : string → nat) :
  LockOrderAnalyzer_run facts = Some report →
  (∀ o, o ∈ lockOrders facts → isGraphOrder facts o = true →
     rank (lo_firstLockId o) < rank (lo_secondLockId o)) →
  (∀ o, o ∈ lockOrders facts → isSelfDeadlock facts o = false) →
  rep_diagnostics report = [].
Proof.
  intros Hr Hrank Hself. destruct (run_spec facts) as (report' & cycles & Hr' & Hds & Hall & _).
  simplify_eq. rewrite Hds. destruct cycles as [|cycle cycles].
  - rewrite app_nil_r. unfold selfDeadlocks. apply elem_of_nil_inv.
    intros d (o & -> & [Ho Hin]%list_elem_of_filter)%list_elem_of_fmap.
    specialize (Hself o Hin). congruence.
  - apply Forall_cons in Hall as [Hc _]. by apply (ranked_no_cycle _ _ rank) in Hc.
Qed.

(** ** Witnesses *)

Lemma lock_order_reports_deadlocks_only_witness :
  ∃ d, d ∈ rep_diagnostics (report_of inversion) ∧
    ((∃ o, o ∈ lockOrders inversion ∧ isSelfDeadlock inversion o = true ∧
        d = selfDeadlockDiagnostic o) ∨
     (∃ cycle, DeadlockCycle inversion cycle ∧ cycleDiagnostic inversion cycle = Some d)).
Proof.
  exists (default (DiagnosticBuilder RuleId_DeadlockLockOrder)
            (head (rep_diagnostics (report_of inversion)))).
  assert (Hd : default (DiagnosticBuilder RuleId_DeadlockLockOrder)
            (head (rep_diagnostics (report_of inversion))) ∈ rep_diagnostics (report_of inversion)).
  { apply (list_elem_of_lookup_2 _ 0). vm_compute. reflexivity. }
  split; [exact Hd|].
  refine (lock_order_reports_deadlocks_only inversion _ _ _ Hd). vm_compute. reflexivity.
Defined.

Lemma lock_order_reports_every_deadlock_witness :
  ∃ cycle' d, cycleKey cycle' = cycleKey inversion_cycle ∧ DeadlockCycle inversion cycle' ∧
    cycleDiagnostic inversion cycle' = Some d ∧ d ∈ rep_diagnostics (report_of inversion).
Proof.
  apply lock_order_reports_every_deadlock; [vm_compute; reflexivity..|exact inversion_deadlocks|].
  vm_compute. reflexivity.
Defined.

Lemma lock_order_reports_each_cycle_once_witness :
  ∃ cycles, rep_diagnostics (report_of inversion) =
      selfDeadlocks inversion ++ omap (cycleDiagnostic inversion) cycles ∧
    Forall (DeadlockCycle inversion) cycles ∧ NoDup (cycleKey <$> cycles).
Proof. apply lock_order_reports_each_cycle_once. vm_compute. reflexivity. Defined.

Lemma lock_order_silent_on_ranked_locks_witness :
  rep_diagnostics (report_of (sample_orders [sample_order "f" "A" "B" false;
                                             sample_order "g" "A" "B" false])) = [].
Proof.
  apply (lock_order_silent_on_ranked_locks (sample_orders [sample_order "f" "A" "B" false;
      sample_order "g" "A" "B" false]) _ (λ s, if decide (s = "A") then 0 else 1)).
  - vm_compute. reflexivity.
  - intros o [->|[->|[]%elem_of_nil]%elem_of_cons]%elem_of_cons _; vm_compute; lia.
  - intros o [->|[->|[]%elem_of_nil]%elem_of_cons]%elem_of_cons; vm_compute; reflexivity.
Defined.
