(* ===== verification/MissingJoin.v ===== *)
(** The missing join detector (src/internal/analysis/missing_join_detector.cpp):
    the union-find that ties handle groups a move aliases, the summary of each
    group's creations, joins and detaches, and the findings of
    [MissingJoinDetector::run]. *)

From S2P Require Import Prelude Diagnostics Facts FactQueries.

(** ** Handle groups tied by moves *)

Abbreviation HandleGroupAliases := (gmap string string).

(** [HandleGroupAliases::find]; the recursion follows the parents, which the
    source bounds by their strictly decreasing order. *)
Fixpoint find (fuel : nat) (groupId : string) (parent : HandleGroupAliases)
  : option (string * HandleGroupAliases) :=
  match fuel with
  | O => None
  | S fuel =>
      match parent !! groupId with
      | None => Some (groupId, <[groupId := groupId]> parent)
      | Some p =>
          if bool_decide (p = groupId) then Some (groupId, parent)
          else
            '(root, parent) ← find fuel p parent;
            Some (root, <[groupId := root]> parent)
      end
  end.

Definition findGroup (groupId : string) (parent : HandleGroupAliases)
  : option (string * HandleGroupAliases) := find (S (size parent)) groupId parent.

Definition isArgument (groupId : string) : bool := starts_with groupId "arg:".

Definition unite (lhs rhs : string) (parent : HandleGroupAliases) : option HandleGroupAliases :=
  '(lhsRoot, parent) ← findGroup lhs parent;
  '(rhsRoot, parent) ← findGroup rhs parent;
  if bool_decide (lhsRoot = rhsRoot) then Some parent
  else
    let lhsIsArgument := isArgument lhsRoot in
    let rhsIsArgument := isArgument rhsRoot in
    if negb (Bool.eqb lhsIsArgument rhsIsArgument)
    then Some (<[(if lhsIsArgument then lhsRoot else rhsRoot) :=
                 (if lhsIsArgument then rhsRoot else lhsRoot)]> parent)
    else if str_lt lhsRoot rhsRoot then Some (<[rhsRoot := lhsRoot]> parent)
    else Some (<[lhsRoot := rhsRoot]> parent).

(** The two groups a move ties, when its source is known. *)
Definition moveOf (fact : ThreadLifecycleFact) : option (string * string) :=
  if bool_decide (tl_action fact = ThreadLifecycleAction_Move)
  then pair (tl_handleGroupId fact) <$> tl_sourceHandleGroupId fact
  else None.

Definition uniteMoves (lifecycles : list ThreadLifecycleFact) : option HandleGroupAliases :=
  foldl (λ acc fact,
      parent ← acc;
      match moveOf fact with
      | Some (target, source) => unite target source parent
      | None => Some parent
      end) (Some ∅) lifecycles.

(** ** Lifecycle summaries *)

Record LifecycleSummary := MkLifecycleSummary {
  ls_handleKind : ThreadHandleKind;
  ls_functionId : string;
  ls_firstCreateLocation : SourceLocation;
  ls_createCount : nat;
  ls_joinCount : nat;
  ls_detachCount : nat;
  ls_hasUnresolvedPath : bool;
  ls_hasLoopedCreate : bool;
  ls_hasEscapedHandle : bool;
  ls_allCreatesResolvedOnAllPaths : bool;
  ls_pathAnalysisApplies : bool;
}.

Definition new_summary : LifecycleSummary :=
  MkLifecycleSummary ThreadHandleKind_PThread "" no_location 0 0 0 false false false true true.

Definition noPathAnalysis (s : LifecycleSummary) : LifecycleSummary :=
  MkLifecycleSummary (ls_handleKind s) (ls_functionId s) (ls_firstCreateLocation s)
    (ls_createCount s) (ls_joinCount s) (ls_detachCount s) (ls_hasUnresolvedPath s)
    (ls_hasLoopedCreate s) (ls_hasEscapedHandle s) (ls_allCreatesResolvedOnAllPaths s) false.

Definition unlocated (s : LifecycleSummary) : bool :=
  bool_decide (loc_file (ls_firstCreateLocation s) = "")
  && bool_decide (loc_line (ls_firstCreateLocation s) = 0%N).

Definition with_firstCreate (l : SourceLocation) (s : LifecycleSummary) : LifecycleSummary :=
  MkLifecycleSummary (ls_handleKind s) (ls_functionId s) l
    (ls_createCount s) (ls_joinCount s) (ls_detachCount s) (ls_hasUnresolvedPath s)
    (ls_hasLoopedCreate s) (ls_hasEscapedHandle s) (ls_allCreatesResolvedOnAllPaths s)
    (ls_pathAnalysisApplies s).

(** The case [Create] of the switch, before the location is set. *)
Definition countCreate (fact : ThreadLifecycleFact) (s : LifecycleSummary) : LifecycleSummary :=
  MkLifecycleSummary (ls_handleKind s) (ls_functionId s) (ls_firstCreateLocation s)
    (S (ls_createCount s)) (ls_joinCount s) (ls_detachCount s)
    (ls_hasUnresolvedPath s || negb (tl_resolvedOnAllPaths fact))
    (ls_hasLoopedCreate s || tl_insideLoop fact)
    (ls_hasEscapedHandle s || tl_escapedToUntrackedStorage fact)
    (ls_allCreatesResolvedOnAllPaths s && tl_resolvedOnAllPaths fact)
    (ls_pathAnalysisApplies s).

(** The rest of the loop body, for a fact that is not a move. *)
Definition recordEvent (fact : ThreadLifecycleFact) (s : LifecycleSummary) : LifecycleSummary :=
  let s := MkLifecycleSummary (tl_handleKind fact) (tl_functionId fact)
    (ls_firstCreateLocation s) (ls_createCount s) (ls_joinCount s) (ls_detachCount s)
    (ls_hasUnresolvedPath s) (ls_hasLoopedCreate s) (ls_hasEscapedHandle s)
    (ls_allCreatesResolvedOnAllPaths s) (ls_pathAnalysisApplies s) in
  let s := if tl_propagated fact then noPathAnalysis s else s in
  let s := if unlocated s && bool_decide (tl_action fact = ThreadLifecycleAction_Create)
           then with_firstCreate (tl_location fact) s else s in
  match tl_action fact with
  | ThreadLifecycleAction_Create =>
      let s := countCreate fact s in
      if unlocated s then with_firstCreate (tl_location fact) s else s
  | ThreadLifecycleAction_Join =>
      MkLifecycleSummary (ls_handleKind s) (ls_functionId s) (ls_firstCreateLocation s)
        (ls_createCount s) (S (ls_joinCount s)) (ls_detachCount s) (ls_hasUnresolvedPath s)
        (ls_hasLoopedCreate s) (ls_hasEscapedHandle s) (ls_allCreatesResolvedOnAllPaths s)
        (ls_pathAnalysisApplies s)
  | ThreadLifecycleAction_Detach =>
      MkLifecycleSummary (ls_handleKind s) (ls_functionId s) (ls_firstCreateLocation s)
        (ls_createCount s) (ls_joinCount s) (S (ls_detachCount s)) (ls_hasUnresolvedPath s)
        (ls_hasLoopedCreate s) (ls_hasEscapedHandle s) (ls_allCreatesResolvedOnAllPaths s)
        (ls_pathAnalysisApplies s)
  | ThreadLifecycleAction_Move => s
  end.

Record GroupTable := MkTable {
  gt_aliases : HandleGroupAliases;
  summariesByGroup : gmap string LifecycleSummary;
  functionsByGroup : gmap string (gset string);
}.

(** One round of the loop over the lifecycle facts. *)
Definition recordFact (table : GroupTable) (fact : ThreadLifecycleFact) : option GroupTable :=
  '(groupId, aliases) ← findGroup (tl_handleGroupId fact) (gt_aliases table);
  let summary := default new_summary (summariesByGroup table !! groupId) in
  if bool_decide (tl_action fact = ThreadLifecycleAction_Move)
  then Some (MkTable aliases (<[groupId := noPathAnalysis summary]> (summariesByGroup table))
               (functionsByGroup table))
  else Some (MkTable aliases (<[groupId := recordEvent fact summary]> (summariesByGroup table))
               (<[groupId := {[tl_functionId fact]} ∪
                             default ∅ (functionsByGroup table !! groupId)]>
                  (functionsByGroup table))).

Definition summarizeGroups (lifecycles : list ThreadLifecycleFact)
  : option (gmap string LifecycleSummary) :=
  aliases ← uniteMoves lifecycles;
  table ← foldl (λ acc fact, table ← acc; recordFact table fact)
            (Some (MkTable aliases ∅ ∅)) lifecycles;
  Some (map_imap (λ groupId summary,
          Some (if 1 <? size (default ∅ (functionsByGroup table !! groupId))
                then noPathAnalysis summary else summary)) (summariesByGroup table)).

(** ** Findings *)

Definition handleKindLabel (kind : ThreadHandleKind) : string :=
  match kind with
  | ThreadHandleKind_PThread => "pthread"
  | ThreadHandleKind_StdThread => "std::thread"
  end.

Definition describeSummary (s : LifecycleSummary) : string :=
  "creates=" +:+ pretty (ls_createCount s) +:+ ", joins=" +:+ pretty (ls_joinCount s) +:+
  ", detaches=" +:+ pretty (ls_detachCount s).

Definition resolvedCount (s : LifecycleSummary) : nat := ls_joinCount s + ls_detachCount s.

Definition unbalanced (s : LifecycleSummary) : bool := resolvedCount s <? ls_createCount s.

Definition pathSignal (s : LifecycleSummary) : bool :=
  ls_pathAnalysisApplies s && (ls_hasUnresolvedPath s || ls_hasLoopedCreate s)
  && negb (bool_decide (ls_createCount s = 0)).

Definition outstandingCount (s : LifecycleSummary) : nat :=
  if unbalanced s then ls_createCount s - resolvedCount s else 1.

(** The [continue]s of the reporting loop. *)
Definition isMissingJoin (groupId : string) (s : LifecycleSummary) : bool :=
  if isArgument groupId then false
  else if ls_hasEscapedHandle s then false
  else if unbalanced s && negb (bool_decide (ls_createCount s = 0))
          && ls_allCreatesResolvedOnAllPaths s && negb (ls_hasLoopedCreate s) then false
  else if negb (unbalanced s) && negb (pathSignal s) then false
  else true.

Definition missingJoinDiagnostic (s : LifecycleSummary) : Diagnostic :=
  DiagnosticBuilder RuleId_MissingJoin
    |> primaryLocation (ls_firstCreateLocation s)
    |> message "thread handle is not joined or detached before scope exit"
    |> note ("handle kind: " +:+ handleKindLabel (ls_handleKind s))
    |> note ("lifecycle summary: " +:+ describeSummary s)
    |> note ("outstanding joinable handles: " +:+ pretty (outstandingCount s))
    |> (if negb (unbalanced s) && ls_hasLoopedCreate s
        then note "the handle is created inside a loop while it is resolved outside it, so every iteration but the last leaks its thread"
        else when (negb (unbalanced s) && ls_hasUnresolvedPath s)
               (note "at least one path leaves the creation without reaching a join or a detach"))
    |> property "handleKind" (PString (handleKindLabel (ls_handleKind s)))
    |> property "createCount" (PInt (Z.of_nat (ls_createCount s)))
    |> property "joinCount" (PInt (Z.of_nat (ls_joinCount s)))
    |> property "detachCount" (PInt (Z.of_nat (ls_detachCount s)))
    |> property "outstandingCount" (PInt (Z.of_nat (outstandingCount s))).

Definition MissingJoinDetector_run (facts : TUFacts) : option DiagnosticReport :=
  summaries ← summarizeGroups (threadLifecycles facts);
  Some (foldl (λ report item,
      if isMissingJoin item.1 item.2 then emit report (missingJoinDiagnostic item.2) else report)
    empty_report (map_items summaries)).
