(* ===== verification/MissingJoinProps.v ===== *)
(** Theorems on the missing join detector of MissingJoin.v: the union-find
    computes the classes of handles moves connect, each represented by its least
    member; the detector terminates; its findings are exactly the groups whose
    handles are left, with the counts of their class. *)

From S2P Require Import Prelude Diagnostics Facts FactQueries MissingJoin.

(** ** The order of groups *)

(** A group that is no argument comes before one that is; otherwise by name. *)
Definition group_lt (p g : string) : bool :=
  if Bool.eqb (isArgument p) (isArgument g) then str_lt p g else isArgument g.

Lemma group_lt_irrefl g : group_lt g g = false.
Proof. unfold group_lt. by rewrite eqb_reflx, str_lt_irrefl. Qed.

Lemma group_lt_trans a b c : group_lt a b = true → group_lt b c = true → group_lt a c = true.
Proof.
  unfold group_lt. destruct (isArgument a), (isArgument b), (isArgument c); simpl;
    eauto using str_lt_trans; done.
Qed.

Lemma group_lt_total a b : a ≠ b → group_lt a b = false → group_lt b a = true.
Proof.
  unfold group_lt. destruct (isArgument a), (isArgument b); simpl; try done;
    intros Hne E; destruct (str_lt_trichotomy a b) as [|[|]]; congruence.
Qed.

(** ** Roots *)

(** Every parent comes before its child and is a key itself. *)
Definition forest (parent : HandleGroupAliases) : Prop :=
  ∀ g p, parent !! g = Some p → p ≠ g → group_lt p g = true ∧ is_Some (parent !! p).

Inductive rooted (parent : HandleGroupAliases) : string → string → Prop :=
| rooted_here g : (∀ p, parent !! g = Some p → p = g) → rooted parent g g
| rooted_up g p r : parent !! g = Some p → p ≠ g → rooted parent p r → rooted parent g r.

Lemma rooted_fun parent g r r' : rooted parent g r → rooted parent g r' → r = r'.
Proof.
  intros H. revert r'. induction H as [g Hg|g p r Hp Hne _ IH]; intros r' H'.
  - destruct H' as [|g p r' Hp Hne _]; [done|]. by apply Hg in Hp.
  - destruct H' as [g Hg|g p' r' Hp' _ H']; [by apply Hg in Hp|].
    rewrite Hp in Hp'. injection Hp' as <-. auto.
Qed.

Lemma rooted_root parent g r : rooted parent g r → ∀ p, parent !! r = Some p → p = r.
Proof. induction 1; auto. Qed.

Lemma rooted_self parent g r : rooted parent g r → rooted parent r r.
Proof. intros H. constructor. by eapply rooted_root. Qed.

Lemma rooted_le parent g r : forest parent → rooted parent g r → r = g ∨ group_lt r g = true.
Proof.
  intros Hf. induction 1 as [|g p r Hp Hne _ IH]; [by left|right].
  destruct (Hf g p Hp Hne) as [Hlt _]. destruct IH as [->|]; [done|]. by eapply group_lt_trans.
Qed.

Lemma rooted_dom parent g r :
  forest parent → rooted parent g r → g ∈ dom parent → r ∈ dom parent.
Proof.
  intros Hf. induction 1 as [|g p r Hp Hne _ IH]; [done|]. intros _. apply IH.
  destruct (Hf g p Hp Hne) as [_ ?]. by apply elem_of_dom.
Qed.

(** The keys before [g], which bound the chain of its parents. *)
Definition below (parent : HandleGroupAliases) (g : string) : gset string :=
  filter (λ k, group_lt k g = true) (dom parent).

Lemma below_size parent g : size (below parent g) ≤ size parent.
Proof. rewrite <-size_dom. apply subseteq_size. unfold below. set_solver. Qed.

Lemma below_parent parent g p :
  forest parent → parent !! g = Some p → p ≠ g → size (below parent p) < size (below parent g).
Proof.
  intros Hf Hp Hne. destruct (Hf g p Hp Hne) as [Hlt Hs%elem_of_dom].
  apply subset_size. unfold below. split.
  - intros k. rewrite !elem_of_filter. intros [? ?]. split; [by eapply group_lt_trans|done].
  - intros H. specialize (H p). rewrite !elem_of_filter, group_lt_irrefl in H. naive_solver.
Qed.

Lemma rooted_exists parent g : forest parent → ∃ r, rooted parent g r.
Proof.
  intros Hf. remember (size (below parent g)) as n eqn:En. revert g En.
  induction (lt_wf n) as [n _ IH]. intros g ->.
  destruct (parent !! g) as [p|] eqn:Ep.
  - destruct (decide (p = g)) as [->|Hne]; [exists g; constructor; congruence|].
    destruct (IH (size (below parent p))) with (g := p) as [r Hr]; [by apply below_parent|done|].
    exists r. by eapply rooted_up.
  - exists g. constructor. congruence.
Qed.

(** Two tables with the same roots. *)
Definition same_roots (m m' : HandleGroupAliases) : Prop := ∀ g r, rooted m g r ↔ rooted m' g r.

#[local] Instance same_roots_equiv : Equivalence same_roots.
Proof.
  split; [by intros m g r|intros m m' H g r; symmetry; apply H|].
  intros m1 m2 m3 H1 H2 g r. etrans; [apply H1|apply H2].
Qed.

#[local] Instance rooted_proper : Proper (same_roots ==> eq ==> eq ==> iff) rooted.
Proof. intros m m' H g ? <- r ? <-. apply H. Qed.

(** Adding a group as its own parent. *)
Lemma same_roots_new m g : m !! g = None → same_roots m (<[g := g]> m).
Proof.
  intros Hg h r. split; induction 1 as [h Hh|h p r Hp Hne _ IH].
  - constructor. intros p. rewrite lookup_insert_Some. intros [[-> ->]|[_ ?]]; auto.
  - eapply rooted_up; [|done..]. rewrite lookup_insert_ne; [done|]. intros ->. congruence.
  - constructor. intros p Hp. apply Hh. rewrite lookup_insert_ne; [done|]. intros ->. congruence.
  - rewrite lookup_insert_Some in Hp. destruct Hp as [[-> ->]|[_ Hp]]; [done|].
    by eapply rooted_up.
Qed.

(** Path compression. *)
Lemma same_roots_compress m g r : rooted m g r → r ≠ g → same_roots m (<[g := r]> m).
Proof.
  intros Hr Hne. assert (rooted (<[g := r]> m) r r) as Hrr.
  { constructor. intros p. rewrite lookup_insert_ne by done. by eapply rooted_root. }
  intros h s. split; induction 1 as [h Hh|h p s Hp Hne' Hps IH].
  - destruct (decide (h = g)) as [->|Hhg].
    + eapply rooted_fun in Hr; [|by constructor]. done.
    + constructor. intros p. rewrite lookup_insert_ne by done. apply Hh.
  - destruct (decide (h = g)) as [->|Hhg].
    + assert (s = r) as -> by (eapply rooted_fun; [by eapply rooted_up|done]).
      eapply rooted_up; [apply lookup_insert_eq|done..].
    + eapply rooted_up; [by rewrite lookup_insert_ne|done..].
  - destruct (decide (h = g)) as [->|Hhg].
    + specialize (Hh r). rewrite lookup_insert_eq in Hh. by specialize (Hh eq_refl).
    + constructor. intros p Hp. apply Hh. by rewrite lookup_insert_ne.
  - destruct (decide (h = g)) as [->|Hhg].
    + rewrite lookup_insert_eq in Hp. injection Hp as <-.
      assert (s = r) as -> by (eapply rooted_fun; [done|by eapply rooted_self]). done.
    + rewrite lookup_insert_ne in Hp by done. by eapply rooted_up.
Qed.

Lemma forest_insert m g r :
  forest m → (r = g ∨ group_lt r g = true) → is_Some (<[g := r]> m !! r) → forest (<[g := r]> m).
Proof.
  intros Hf Hlt Hr h p. rewrite lookup_insert_Some. intros [[-> ->]|[Hne Hp]] Hph.
  - destruct Hlt; [done|]. done.
  - destruct (Hf h p Hp Hph) as [? ?]. split; [done|].
    destruct (decide (p = g)) as [->|]; [by rewrite lookup_insert_eq|by rewrite lookup_insert_ne].
Qed.

(** [find] returns the root, keeps every root, and registers the group. *)
Lemma find_spec fuel g m :
  forest m → size (below m g) < fuel →
  ∃ r m', find fuel g m = Some (r, m') ∧ rooted m g r ∧ forest m' ∧ same_roots m m' ∧
    dom m' = {[g]} ∪ dom m.
Proof.
  revert g. induction fuel as [|fuel IH]; intros g Hf Hlt; [lia|]. simpl.
  destruct (m !! g) as [p|] eqn:Ep.
  - apply elem_of_dom_2 in Ep as Hdom. case_bool_decide as Hpg.
    { subst p. exists g, m. split_and!; [done|constructor; congruence|done..|set_solver]. }
    destruct (IH p) as (r & m' & -> & Hr & Hf' & Hs & Hd); [done| |].
    { pose proof (below_parent m g p Hf Ep Hpg). lia. }
    simpl. assert (rooted m g r) as Hgr by (by eapply rooted_up).
    destruct (Hf g p Ep Hpg) as [Hlt' Hp%elem_of_dom].
    assert (group_lt r g = true) as Hrg.
    { destruct (rooted_le m p r Hf Hr) as [->|]; [done|]. by eapply group_lt_trans. }
    assert (r ≠ g) as Hne by (intros ->; by rewrite group_lt_irrefl in Hrg).
    assert (is_Some (m' !! r)) as Hr'.
    { destruct (m' !! r) as [q|] eqn:Eq; [done|]. exfalso. apply not_elem_of_dom in Eq.
      apply Eq. rewrite Hd. apply elem_of_union_r. by eapply rooted_dom. }
    exists r, (<[g := r]> m'). split_and!; [done..| | |].
    + apply forest_insert; [done|by right|]. by rewrite lookup_insert_ne.
    + etrans; [done|]. apply same_roots_compress; [by apply Hs|done].
    + rewrite dom_insert_L, Hd. set_solver.
  - exists g, (<[g := g]> m). split_and!; [done|constructor; congruence| | |].
    + apply forest_insert; [done|by left|by rewrite lookup_insert_eq].
    + by apply same_roots_new.
    + by rewrite dom_insert_L.
Qed.

Lemma findGroup_spec g m :
  forest m →
  ∃ r m', findGroup g m = Some (r, m') ∧ rooted m g r ∧ forest m' ∧ same_roots m m' ∧
    dom m' = {[g]} ∪ dom m.
Proof. intros Hf. apply find_spec; [done|]. pose proof (below_size m g). lia. Qed.

(** ** Classes of handles *)

(** Two groups with one root. *)
Definition joint (m : HandleGroupAliases) (g h : string) : Prop := ∃ r, rooted m g r ∧ rooted m h r.

(** Handles that moves connect. *)
Definition connected (moves : list (string * string)) : relation string :=
  rtsc (λ a b, (a, b) ∈ moves).

Lemma joint_same_roots m m' g h : same_roots m m' → joint m g h ↔ joint m' g h.
Proof. intros H. unfold joint. by setoid_rewrite H. Qed.

Lemma joint_roots m g h r s : rooted m g r → rooted m h s → joint m g h ↔ r = s.
Proof.
  intros Hg Hh. split; [|by intros <-; exists r].
  intros (t & Ht & Ht'). transitivity t; [by eapply rooted_fun|symmetry; by eapply rooted_fun].
Qed.

(** Linking the root [l] under the root [w]. *)
Lemma rooted_link m w l h s :
  rooted m w w → rooted m l l → w ≠ l →
  rooted (<[l := w]> m) h s ↔ (rooted m h s ∧ s ≠ l) ∨ (rooted m h l ∧ s = w).
Proof.
  intros Hw Hl Hne. pose proof (rooted_root _ _ _ Hl) as Hl'.
  pose proof (rooted_root _ _ _ Hw) as Hw'. split.
  - induction 1 as [h Hh|h p s Hp Hph _ IH].
    + destruct (decide (h = l)) as [->|Hhl].
      * specialize (Hh w). rewrite lookup_insert_eq in Hh. by specialize (Hh eq_refl).
      * left. split; [|done]. constructor. intros p Hp. apply Hh. by rewrite lookup_insert_ne.
    + rewrite lookup_insert_Some in Hp. destruct Hp as [[-> ->]|[Hhl Hp]].
      * right. split; [done|]. destruct IH as [[IH _]|[_ ->]]; [|done].
        symmetry. by eapply rooted_fun.
      * destruct IH as [[? ?]|[? ->]]; [left|right]; (split; [by eapply rooted_up|done]).
  - assert (rooted (<[l := w]> m) w w) as Hww.
    { constructor. intros p. rewrite lookup_insert_ne by done. apply Hw'. }
    intros [[H Hs]|[H ->]].
    + induction H as [h Hh|h p s Hp Hph _ IH].
      * constructor. intros p. rewrite lookup_insert_ne by done. apply Hh.
      * assert (h ≠ l) by (intros ->; by apply Hl' in Hp).
        eapply rooted_up; [by rewrite lookup_insert_ne|done|auto].
    + remember l as t eqn:Et in H. induction H as [h Hh|h p s Hp Hph _ IH]; subst.
      * eapply rooted_up; [apply lookup_insert_eq|done..].
      * assert (h ≠ l) by (intros ->; by apply Hl' in Hp).
        eapply rooted_up; [by rewrite lookup_insert_ne|done|auto].
Qed.

Lemma joint_link m w l g h :
  forest m → rooted m w w → rooted m l l → w ≠ l →
  joint (<[l := w]> m) g h ↔
  joint m g h ∨ (joint m g w ∧ joint m l h) ∨ (joint m g l ∧ joint m w h).
Proof.
  intros Hf Hw Hl Hne.
  destruct (rooted_exists m g Hf) as [r Hr], (rooted_exists m h Hf) as [s Hs].
  rewrite (joint_roots m g h r s), (joint_roots m g w r w), (joint_roots m l h l s),
    (joint_roots m g l r l), (joint_roots m w h w s) by done.
  unfold joint. setoid_rewrite rooted_link; [|done..]. split.
  - intros (t & [[H1 H1']|[H1 ->]] & [[H2 H2']|[H2 H2']]).
    + left. rewrite (rooted_fun _ _ _ _ Hr H1). symmetry. by eapply rooted_fun.
    + subst t. right; left. split; [by eapply rooted_fun|by eapply rooted_fun].
    + right; right. split; [by eapply rooted_fun|]. by eapply rooted_fun.
    + left. rewrite (rooted_fun _ _ _ _ Hr H1). symmetry. by eapply rooted_fun.
  - destruct (decide (r = l)) as [->|Hrl], (decide (s = l)) as [->|Hsl].
    + intros _. exists w. auto.
    + intros [->|[[-> _]|[_ <-]]]; [done..|]. exists w. auto.
    + intros [->|[[-> _]|[-> _]]]; [done| |done]. exists w. auto.
    + intros [<-|[[_ <-]|[-> _]]]; [|done..]. exists r. auto.
Qed.

Lemma unite_spec a b m :
  forest m → ∃ m', unite a b m = Some m' ∧ forest m' ∧
    ∀ g h, joint m' g h ↔ joint m g h ∨ (joint m g a ∧ joint m b h) ∨ (joint m g b ∧ joint m a h).
Proof.
  intros Hf. unfold unite.
  destruct (findGroup_spec a m Hf) as (ra & m1 & -> & Ha & Hf1 & Hs1 & Hd1). simpl.
  destruct (findGroup_spec b m1 Hf1) as (rb & m2 & -> & Hb & Hf2 & Hs2 & Hd2). simpl.
  assert (same_roots m m2) as Hs by (by etrans).
  rewrite Hs in Ha. rewrite Hs2 in Hb.
  assert (ra ∈ dom m2) as Hda by (eapply rooted_dom; [done..|set_solver]).
  assert (rb ∈ dom m2) as Hdb by (eapply rooted_dom; [done..|set_solver]).
  assert (∀ g, joint m2 g a ↔ joint m2 g ra) as Hja.
  { intros g. destruct (rooted_exists m2 g Hf2) as [r Hr].
    rewrite (joint_roots m2 g a r ra), (joint_roots m2 g ra r ra); eauto using rooted_self. }
  assert (∀ g, joint m2 b g ↔ joint m2 rb g) as Hjb.
  { intros g. destruct (rooted_exists m2 g Hf2) as [r Hr].
    rewrite (joint_roots m2 b g rb r), (joint_roots m2 rb g rb r); eauto using rooted_self. }
  assert (∀ g h, joint m2 g h ↔ joint m2 h g) as Hsym.
  { intros g h. unfold joint. split; intros (? & ? & ?); eauto. }
  assert (∀ w l, (w = ra ∧ l = rb) ∨ (w = rb ∧ l = ra) → w ≠ l → group_lt w l = true →
    forest (<[l := w]> m2) ∧ ∀ g h, joint (<[l := w]> m2) g h ↔
      joint m2 g h ∨ (joint m2 g a ∧ joint m2 b h) ∨ (joint m2 g b ∧ joint m2 a h)) as Hlink.
  { intros w l Hwl Hne Hlt. assert (w ∈ dom m2 ∧ rooted m2 w w ∧ rooted m2 l l) as (Hdw & Hw & Hl).
    { destruct Hwl as [[-> ->]|[-> ->]]; eauto using rooted_self. }
    split.
    - apply forest_insert; [done|by right|]. apply elem_of_dom. set_solver.
    - intros g h. rewrite joint_link by done.
      rewrite (Hsym g b), (Hsym a h), Hja, Hja, !Hjb, (Hsym rb g), (Hsym h ra).
      destruct Hwl as [[-> ->]|[-> ->]]; tauto. }
  setoid_rewrite (joint_same_roots m m2 _ _ Hs).
  case_bool_decide as Heq.
  { exists m2. split_and!; [done..|]. intros g h. subst rb.
    destruct (rooted_exists m2 g Hf2) as [r Hr], (rooted_exists m2 h Hf2) as [s Hs'].
    rewrite (joint_roots m2 g h r s), (joint_roots m2 g a r ra), (joint_roots m2 b h ra s),
      (joint_roots m2 g b r ra), (joint_roots m2 a h ra s) by done.
    intuition congruence. }
  destruct (Bool.eqb (isArgument ra) (isArgument rb)) eqn:Earg; simpl.
  - destruct (str_lt ra rb) eqn:Elt; eexists; (split; [done|]); apply Hlink; auto.
    + unfold group_lt. by rewrite Earg.
    + apply group_lt_total; [done|]. unfold group_lt. by rewrite Earg.
  - destruct (isArgument ra) eqn:Ea; eexists; (split; [done|]); apply Hlink; auto.
    + unfold group_lt. rewrite Ea. destruct (isArgument rb); done.
    + unfold group_lt. rewrite Ea. destruct (isArgument rb); done.
Qed.

Lemma connected_snoc moves a b g h :
  connected (moves ++ [(a, b)]) g h ↔
  connected moves g h ∨ (connected moves g a ∧ connected moves b h) ∨
  (connected moves g b ∧ connected moves a h).
Proof.
  unfold connected. set (R := λ x y, (x, y) ∈ moves). set (R' := λ x y, (x, y) ∈ moves ++ [(a, b)]).
  assert (∀ x y, sc R' x y → rtsc R x y ∨ (x = a ∧ y = b) ∨ (x = b ∧ y = a)) as Hstep.
  { intros x y [H|H]; unfold R' in H;
      apply elem_of_app in H as [H|[= -> ->]%list_elem_of_singleton]; auto.
    - left. apply rtsc_lr. done.
    - left. apply rtsc_rl. done. }
  assert (∀ x y, rtsc R x y → rtsc R' x y) as Hmono.
  { intros x y. apply rtc_subrel. intros u v [?|?]; [left|right]; unfold R'; set_solver. }
  assert (rtsc R' a b) as Hab by (apply rtsc_lr; unfold R'; set_solver).
  split.
  - induction 1 as [x|x y z Hxy _ IH]; [left; done|].
    apply Hstep in Hxy as [Hxy|[[-> ->]|[-> ->]]].
    + destruct IH as [?|[[? ?]|[? ?]]]; [left|right; left|right; right];
        [by etrans|split; [by etrans|done]..].
    + destruct IH as [?|[[? ?]|[? ?]]]; [right; left; by split|right; left; by split|by left].
    + destruct IH as [?|[[? ?]|[? ?]]]; [right; right; by split|by left|right; right; by split].
  - intros [?|[[? ?]|[? ?]]]; [auto|..].
    + etrans; [by apply Hmono|]. etrans; [exact Hab|]. auto.
    + etrans; [by apply Hmono|]. etrans; [symmetry; exact Hab|]. auto.
Qed.

Lemma uniteMoves_spec lifecycles :
  ∃ m, uniteMoves lifecycles = Some m ∧ forest m ∧
    ∀ g h, joint m g h ↔ connected (omap moveOf lifecycles) g h.
Proof.
  unfold uniteMoves. induction lifecycles as [|f l IH] using rev_ind.
  { exists ∅. split_and!; [done|by intros ???%lookup_empty_Some|].
    intros g h. assert (∀ x, rooted ∅ x x) as Hx.
    { intros x. constructor. by intros ? ?%lookup_empty_Some. }
    rewrite (joint_roots ∅ g h g h) by done. simpl. split; [by intros <-|].
    induction 1 as [|x y z [?%elem_of_nil|?%elem_of_nil] _ _]; done. }
  destruct IH as (m & Hm & Hf & Hj). rewrite foldl_snoc, Hm, omap_app. simpl.
  destruct (moveOf f) as [[a b]|]; [|exists m; by rewrite app_nil_r].
  destruct (unite_spec a b m Hf) as (m' & -> & Hf' & Hj').
  exists m'. split_and!; [done..|]. intros g h. rewrite connected_snoc, Hj', !Hj. done.
Qed.

(** [r] is the least of the handles moves connect to [g]. *)
Definition representative (moves : list (string * string)) (g r : string) : Prop :=
  connected moves g r ∧ ∀ h, connected moves g h → h = r ∨ group_lt r h = true.

(** The group the detector files a handle under. *)
Definition groupOf (lifecycles : list ThreadLifecycleFact) (g : string) : string :=
  default g (m ← uniteMoves lifecycles; fst <$> findGroup g m).

Lemma rooted_representative m moves g r :
  forest m → (∀ g h, joint m g h ↔ connected moves g h) → rooted m g r → representative moves g r.
Proof.
  intros Hf Hj Hr. split.
  - apply Hj. exists r. split; [done|]. by eapply rooted_self.
  - intros h (s & Hg & Hh)%Hj. assert (s = r) as -> by exact (rooted_fun _ _ _ _ Hg Hr).
    destruct (rooted_le m h r Hf Hh) as [->|]; auto.
Qed.

Lemma groupOf_rooted lifecycles m g :
  uniteMoves lifecycles = Some m → forest m → rooted m g (groupOf lifecycles g).
Proof.
  intros Hm Hf. unfold groupOf. rewrite Hm. simpl.
  by destruct (findGroup_spec g m Hf) as (r & m' & -> & Hr & _).
Qed.

(** ** The summary of a class *)

(** The facts on the handles of a group, in order. *)
Definition classFacts (lifecycles : list ThreadLifecycleFact) (r : string)
  : list ThreadLifecycleFact :=
  filter (λ f, groupOf lifecycles (tl_handleGroupId f) = r) lifecycles.

Definition isMove (f : ThreadLifecycleFact) : bool :=
  bool_decide (tl_action f = ThreadLifecycleAction_Move).

Definition summarizeFact (s : LifecycleSummary) (f : ThreadLifecycleFact) : LifecycleSummary :=
  if isMove f then noPathAnalysis s else recordEvent f s.

Definition classFunctions (fs : list ThreadLifecycleFact) : gset string :=
  list_to_set (tl_functionId <$> filter (λ f, isMove f = false) fs).

Definition classSummary (fs : list ThreadLifecycleFact) : LifecycleSummary :=
  let s := foldl summarizeFact new_summary fs in
  if 1 <? size (classFunctions fs) then noPathAnalysis s else s.

(** The table after the facts [fs], filed by the groups [group]. *)
Definition table_ok (m : HandleGroupAliases) (group : string → string)
    (fs : list ThreadLifecycleFact) (table : GroupTable) : Prop :=
  forest (gt_aliases table) ∧ same_roots m (gt_aliases table) ∧
  ∀ r, let c := filter (λ f, group (tl_handleGroupId f) = r) fs in
    summariesByGroup table !! r =
      (if bool_decide (c = []) then None else Some (foldl summarizeFact new_summary c)) ∧
    default ∅ (functionsByGroup table !! r) = classFunctions c.

Lemma table_ok_record m group fs table f :
  (∀ g, rooted m g (group g)) → table_ok m group fs table →
  ∃ table', recordFact table f = Some table' ∧ table_ok m group (fs ++ [f]) table'.
Proof.
  intros Hg (Hf & Hs & Hr). unfold recordFact.
  destruct (findGroup_spec (tl_handleGroupId f) (gt_aliases table) Hf)
    as (r & m' & -> & Hroot & Hf' & Hs' & _). simpl.
  rewrite <-Hs in Hroot. rewrite (rooted_fun _ _ _ _ Hroot (Hg _)).
  set (g := group (tl_handleGroupId f)).
  set (c := filter (λ f, group (tl_handleGroupId f) = g) fs).
  destruct (Hr g) as [Hsum Hfun]. fold c in Hsum, Hfun.
  assert (foldl summarizeFact new_summary (c ++ [f]) =
    (if isMove f then noPathAnalysis else recordEvent f)
      (default new_summary (summariesByGroup table !! g))) as Hfold.
  { rewrite foldl_snoc, Hsum. unfold summarizeFact at 1.
    destruct c, (isMove f); done. }
  assert (classFunctions (c ++ [f]) = if isMove f then classFunctions c else
    {[tl_functionId f]} ∪ classFunctions c) as Hcf.
  { unfold classFunctions. rewrite filter_app. destruct (isMove f) eqn:E.
    - rewrite filter_cons_False by (by rewrite E). by rewrite app_nil_r.
    - rewrite filter_cons_True by done. simpl. rewrite fmap_app, list_to_set_app_L. simpl.
      set_solver. }
  assert (filter (λ f, group (tl_handleGroupId f) = g) (fs ++ [f]) = c ++ [f]) as Hc.
  { rewrite filter_app. by rewrite filter_cons_True by done. }
  assert (∀ k, k ≠ g → filter (λ f, group (tl_handleGroupId f) = k) (fs ++ [f]) =
    filter (λ f, group (tl_handleGroupId f) = k) fs) as Hne.
  { intros k Hk. rewrite filter_app, filter_cons_False by (by intros ?).
    by rewrite app_nil_r. }
  assert (c ++ [f] ≠ []) as Hnil by (by destruct c).
  fold (isMove f) in *. unfold isMove in *.
  case_bool_decide; eexists; (split; [done|]); (split_and!; [done|by etrans|]); simpl; intros k;
    (destruct (decide (k = g)) as [->|Hk];
      [rewrite Hc, Hfold, Hcf, ?lookup_insert_eq, (bool_decide_eq_false_2 (c ++ [f] = [])) by done; split;
        [done|by rewrite <-?Hfun]
      |rewrite Hne, ?lookup_insert_ne by done; apply Hr]).
Qed.

Lemma summarizeGroups_spec lifecycles :
  ∃ sums, summarizeGroups lifecycles = Some sums ∧
    ∀ r, sums !! r = (if bool_decide (classFacts lifecycles r = []) then None
                      else Some (classSummary (classFacts lifecycles r))).
Proof.
  destruct (uniteMoves_spec lifecycles) as (m & Hm & Hf & _).
  assert (∃ table, foldl (λ acc f, table ← acc; recordFact table f)
      (Some (MkTable m ∅ ∅)) lifecycles = Some table ∧
    table_ok m (groupOf lifecycles) lifecycles table) as (table & Ht & (_ & _ & Hr)).
  { assert (∀ g, rooted m g (groupOf lifecycles g)) as Hg by (intros; by apply groupOf_rooted).
    generalize (groupOf lifecycles) Hg. intros group Hg'. clear Hg Hm.
    induction lifecycles as [|f l IH] using rev_ind.
    - eexists. split; [done|]. split_and!; [done..|]. intros r. done.
    - destruct IH as (table & Ht & Hok). rewrite foldl_snoc, Ht. simpl.
      by apply table_ok_record. }
  unfold summarizeGroups. rewrite Hm. simpl. rewrite Ht. simpl. eexists. split; [done|].
  intros r. rewrite map_lookup_imap. destruct (Hr r) as [-> Hfun]. fold (classFacts lifecycles r) in *.
  case_bool_decide; [done|]. simpl. rewrite Hfun. done.
Qed.

Lemma run_missing_join_spec facts :
  ∃ report, MissingJoinDetector_run facts = Some report ∧
    ∀ d, d ∈ rep_diagnostics report ↔ ∃ r,
      classFacts (threadLifecycles facts) r ≠ [] ∧
      isMissingJoin r (classSummary (classFacts (threadLifecycles facts) r)) = true ∧
      d = missingJoinDiagnostic (classSummary (classFacts (threadLifecycles facts) r)).
Proof.
  unfold MissingJoinDetector_run.
  destruct (summarizeGroups_spec (threadLifecycles facts)) as (sums & -> & Hs). simpl.
  eexists. split; [done|]. intros d. transitivity (∃ item, item ∈ map_items sums ∧
    isMissingJoin item.1 item.2 = true ∧ d = missingJoinDiagnostic item.2).
  - generalize (map_items sums) as items. intros items.
    induction items as [|[r s] items IH] using rev_ind.
    { split; [by intros ?%elem_of_nil|by intros (? & ?%elem_of_nil & _)]. }
    rewrite foldl_snoc. setoid_rewrite elem_of_app. setoid_rewrite list_elem_of_singleton. simpl.
    destruct (isMissingJoin r s) eqn:E; simpl.
    + rewrite elem_of_app, list_elem_of_singleton, IH. split.
      * intros [(item & ? & ?)| ->]; [exists item; tauto|exists (r, s); auto].
      * intros (item & [?| ->] & ? & ->); [left; eauto|by right].
    + rewrite IH. split.
      * intros (item & ? & ?). exists item. tauto.
      * intros (item & [?| ->] & ? & ?); [by eauto|simpl in *; congruence].
  - split.
    + intros ([r s] & Hin%elem_of_map_items & ? & ->). simpl in *. exists r.
      rewrite Hs in Hin. case_bool_decide; [done|]. injection Hin as <-. auto.
    + intros (r & Hne & ? & ->). eexists (r, _). rewrite elem_of_map_items, Hs.
      rewrite bool_decide_false by done. auto.
Qed.

(** ** What a class's summary holds *)

Definition countAction (action : ThreadLifecycleAction) (fs : list ThreadLifecycleFact) : nat :=
  length (filter (λ f, tl_action f = action) fs).

Abbreviation creations := (countAction ThreadLifecycleAction_Create).
Abbreviation resolutions fs :=
  (countAction ThreadLifecycleAction_Join fs + countAction ThreadLifecycleAction_Detach fs).

Lemma countAction_snoc action fs f :
  countAction action (fs ++ [f]) =
  countAction action fs + (if decide (tl_action f = action) then 1 else 0).
Proof.
  unfold countAction. rewrite filter_app, length_app. f_equal. rewrite filter_cons.
  by case_decide.
Qed.

(** The summary counts the events of the class; its flags are set by the
    creations alone. *)
Record summarizes (fs : list ThreadLifecycleFact) (s : LifecycleSummary) : Prop := {
  sm_creates : ls_createCount s = creations fs;
  sm_joins : ls_joinCount s = countAction ThreadLifecycleAction_Join fs;
  sm_detaches : ls_detachCount s = countAction ThreadLifecycleAction_Detach fs;
  sm_looped : ls_hasLoopedCreate s = true ↔
    ∃ f, f ∈ fs ∧ tl_action f = ThreadLifecycleAction_Create ∧ tl_insideLoop f = true;
  sm_escaped : ls_hasEscapedHandle s = true ↔
    ∃ f, f ∈ fs ∧ tl_action f = ThreadLifecycleAction_Create ∧
         tl_escapedToUntrackedStorage f = true;
  sm_unresolved : ls_hasUnresolvedPath s = true ↔
    ∃ f, f ∈ fs ∧ tl_action f = ThreadLifecycleAction_Create ∧ tl_resolvedOnAllPaths f = false;
  sm_resolved : ls_allCreatesResolvedOnAllPaths s = negb (ls_hasUnresolvedPath s);
}.

Lemma summarizes_noPath fs s : summarizes fs s → summarizes fs (noPathAnalysis s).
Proof. by intros []. Qed.

(** One more element, which sets a flag or leaves it. *)
Lemma exists_snoc {A} (P : A → Prop) (b c : bool) l x :
  (b = true ↔ ∃ y, y ∈ l ∧ P y) → (c = true ↔ P x) →
  b || c = true ↔ ∃ y, y ∈ l ++ [x] ∧ P y.
Proof.
  intros Hb Hc. rewrite orb_true_iff, Hb, Hc. setoid_rewrite elem_of_app.
  setoid_rewrite list_elem_of_singleton. split.
  - intros [(y & ? & ?)|?]; eauto.
  - intros (y & [?| ->] & ?); eauto.
Qed.

Lemma exists_snoc_other {A} (P : A → Prop) (b : bool) l x :
  (b = true ↔ ∃ y, y ∈ l ∧ P y) → ¬ P x → b = true ↔ ∃ y, y ∈ l ++ [x] ∧ P y.
Proof. intros Hb Hx. rewrite <-(orb_false_r b). apply exists_snoc; naive_solver. Qed.

(** What [summarizes] reads of a summary. *)
Definition tallies (s : LifecycleSummary) :=
  (ls_createCount s, ls_joinCount s, ls_detachCount s, ls_hasLoopedCreate s,
   ls_hasEscapedHandle s, ls_hasUnresolvedPath s, ls_allCreatesResolvedOnAllPaths s).

Lemma summarizes_tallies fs s s' : tallies s' = tallies s → summarizes fs s → summarizes fs s'.
Proof.
  unfold tallies. intros [= E1 E2 E3 E4 E5 E6 E7] [].
  by split; rewrite ?E1, ?E2, ?E3, ?E4, ?E5, ?E6, ?E7.
Qed.

(** The tallies after an event: the location, kind and function do not matter. *)
Lemma recordEvent_tallies f s :
  tallies (recordEvent f s) =
  match tl_action f with
  | ThreadLifecycleAction_Create => tallies (countCreate f s)
  | ThreadLifecycleAction_Join =>
      (ls_createCount s, S (ls_joinCount s), ls_detachCount s, ls_hasLoopedCreate s,
       ls_hasEscapedHandle s, ls_hasUnresolvedPath s, ls_allCreatesResolvedOnAllPaths s)
  | ThreadLifecycleAction_Detach =>
      (ls_createCount s, ls_joinCount s, S (ls_detachCount s), ls_hasLoopedCreate s,
       ls_hasEscapedHandle s, ls_hasUnresolvedPath s, ls_allCreatesResolvedOnAllPaths s)
  | ThreadLifecycleAction_Move => tallies s
  end.
Proof. unfold recordEvent. by destruct (tl_action f), (tl_propagated f); repeat case_match. Qed.

Lemma summarizes_fact fs s f : summarizes fs s → summarizes (fs ++ [f]) (summarizeFact s f).
Proof.
  intros [H1 H2 H3 H4 H5 H6 H7]. unfold summarizeFact, isMove.
  pose proof (recordEvent_tallies f s) as Ht.
  destruct (tl_action f) eqn:Ea; [rewrite bool_decide_false by done..|rewrite bool_decide_true by done].
  - apply (summarizes_tallies _ (countCreate f s)); [done|].
    split; simpl; rewrite ?countAction_snoc, ?Ea; simpl; rewrite ?H1, ?H2, ?H3, ?H7; try lia;
      try (apply exists_snoc; [assumption|]; rewrite ?negb_true_iff; tauto).
    by rewrite negb_orb, negb_involutive.
  - unfold tallies in Ht. injection Ht as E1 E2 E3 E4 E5 E6 E7.
    split; rewrite ?E1, ?E2, ?E3, ?E4, ?E5, ?E6, ?E7, ?countAction_snoc, ?Ea; simpl; try lia;
      try assumption; (apply exists_snoc_other; [assumption|]; intros [? _]; congruence).
  - unfold tallies in Ht. injection Ht as E1 E2 E3 E4 E5 E6 E7.
    split; rewrite ?E1, ?E2, ?E3, ?E4, ?E5, ?E6, ?E7, ?countAction_snoc, ?Ea; simpl; try lia;
      try assumption; (apply exists_snoc_other; [assumption|]; intros [? _]; congruence).
  - split; simpl; rewrite ?countAction_snoc, ?Ea; simpl; try lia; try assumption;
      (apply exists_snoc_other; [assumption|]; intros [? _]; congruence).
Qed.

Lemma classSummary_summarizes fs : summarizes fs (classSummary fs).
Proof.
  unfold classSummary. assert (summarizes fs (foldl summarizeFact new_summary fs)) as H.
  { induction fs as [|f fs IH] using rev_ind; [|rewrite foldl_snoc; by apply summarizes_fact].
    split; try done; (split; [done|by intros (? & ?%elem_of_nil & _)]). }
  case_match; [by apply summarizes_noPath|done].
Qed.

Lemma missingJoinDiagnostic_fields s :
  diag_location (missingJoinDiagnostic s) = ls_firstCreateLocation s ∧
  diag_properties (missingJoinDiagnostic s) !! "createCount" = Some (PInt (Z.of_nat (ls_createCount s))) ∧
  diag_properties (missingJoinDiagnostic s) !! "joinCount" = Some (PInt (Z.of_nat (ls_joinCount s))) ∧
  diag_properties (missingJoinDiagnostic s) !! "detachCount" = Some (PInt (Z.of_nat (ls_detachCount s))) ∧
  diag_properties (missingJoinDiagnostic s) !! "outstandingCount"
    = Some (PInt (Z.of_nat (outstandingCount s))).
Proof.
  unfold missingJoinDiagnostic. destruct (negb _ && _); simpl.
  - split_and!; by simplify_map_eq.
  - destruct (negb _ && _); simpl; split_and!; by simplify_map_eq.
Qed.

(** ** Properties *)

(** C31: the union-find is right.  The group a handle is filed under is connected
    to it by the moves of the unit and comes before every other handle so
    connected: an argument is only ever chosen when the class holds nothing else. *)
Theorem handle_group_is_least_of_its_class lifecycles g :
  representative (omap moveOf lifecycles) g (groupOf lifecycles g).
Proof.
  destruct (uniteMoves_spec lifecycles) as (m & Hm & Hf & Hj).
  eapply rooted_representative; [done..|]. by apply groupOf_rooted.
Qed.

(** the detector terminates: no chain of parents is longer than the fuel, so
    a report is returned on every unit. *)
Theorem missing_join_run_terminates facts : ∃ report, MissingJoinDetector_run facts = Some report.
Proof. destruct (run_missing_join_spec facts) as (report & ? & _). eauto. Qed.

(** what a finding says.  Every finding is about a class of handles that is
    no argument and holds no escaped handle; its counts are the numbers of
    creations, joins and detaches on the handles of that class, and it claims the
    creations not matched, or one when the counts balance. *)
Theorem missing_join_counts_its_class facts report d :
  MissingJoinDetector_run facts = Some report → d ∈ rep_diagnostics report →
  ∃ r, let c := classFacts (threadLifecycles facts) r in
    isArgument r = false ∧
    (∀ f, f ∈ c → tl_action f = ThreadLifecycleAction_Create →
       tl_escapedToUntrackedStorage f = false) ∧
    diag_properties d !! "createCount" = Some (PInt (Z.of_nat (creations c))) ∧
    diag_properties d !! "joinCount"
      = Some (PInt (Z.of_nat (countAction ThreadLifecycleAction_Join c))) ∧
    diag_properties d !! "detachCount"
      = Some (PInt (Z.of_nat (countAction ThreadLifecycleAction_Detach c))) ∧
    diag_properties d !! "outstandingCount"
      = Some (PInt (Z.of_nat (if resolutions c <? creations c then creations c - resolutions c
                              else 1))).
Proof.
  intros Hr Hd. destruct (run_missing_join_spec facts) as (report' & Hr' & Hspec). simplify_eq.
  apply Hspec in Hd as (r & Hne & Hm & ->). exists r. cbv zeta.
  destruct (classSummary_summarizes (classFacts (threadLifecycles facts) r)) as [S1 S2 S3 _ S5 _ _].
  destruct (missingJoinDiagnostic_fields (classSummary (classFacts (threadLifecycles facts) r)))
    as (_ & -> & -> & -> & ->).
  unfold outstandingCount, unbalanced, resolvedCount. rewrite S1, S2, S3.
  unfold isMissingJoin in Hm. rewrite !guard_spec in Hm. destruct Hm as (? & He & _).
  split_and!; [done| |done..]. intros f Hf Ha. apply not_true_iff_false. intros Hesc.
  rewrite <-not_true_iff_false, S5 in He. apply He. eauto.
Qed.


(** no false alarm on resolved threads.  When every creation reaches a join or
    a detach on all paths and none is in a loop, nothing is reported, whatever
    the counts. *)
Theorem missing_join_silent_when_resolved facts report :
  MissingJoinDetector_run facts = Some report →
  (∀ f, f ∈ threadLifecycles facts → tl_action f = ThreadLifecycleAction_Create →
     tl_resolvedOnAllPaths f = true ∧ tl_insideLoop f = false) →
  rep_diagnostics report = [].
Proof.
  intros Hr Hall. destruct (run_missing_join_spec facts) as (report' & Hr' & Hspec). simplify_eq.
  apply elem_of_nil_inv. intros d (r & _ & Hm & _)%Hspec.
  set (c := classFacts (threadLifecycles facts) r) in *.
  destruct (classSummary_summarizes c) as [_ _ _ S4 _ S6 S7].
  assert (∀ f, f ∈ c → tl_action f = ThreadLifecycleAction_Create →
    tl_resolvedOnAllPaths f = true ∧ tl_insideLoop f = false) as Hc.
  { intros f [_ Hf]%list_elem_of_filter. by apply Hall. }
  assert (ls_hasLoopedCreate (classSummary c) = false) as Hl.
  { apply not_true_iff_false. rewrite S4. intros (f & Hf & Ha & ?). destruct (Hc f Hf Ha). congruence. }
  assert (ls_hasUnresolvedPath (classSummary c) = false) as Hp.
  { apply not_true_iff_false. rewrite S6. intros (f & Hf & Ha & ?). destruct (Hc f Hf Ha). congruence. }
  unfold isMissingJoin, pathSignal in Hm. rewrite Hl, Hp, S7, Hp in Hm. simpl in Hm.
  rewrite !guard_spec, !andb_true_r, andb_false_r in Hm. destruct Hm as (_ & _ & Hm1 & Hm2 & _).
  simpl in Hm2. rewrite andb_true_r in Hm2. apply negb_false_iff in Hm2.
  rewrite Hm2 in Hm1. simpl in Hm1. apply negb_false_iff, bool_decide_eq_true in Hm1.
  unfold unbalanced in Hm2. apply Nat.ltb_lt in Hm2. lia.
Qed.

(** ** Witnesses *)

Definition sample_lifecycle (action : ThreadLifecycleAction) (group : string)
    (source : option string) (resolved : bool) : ThreadLifecycleFact :=
  MkLifecycle ThreadHandleKind_StdThread action group source "f"
    (MkSourceLocation "a.cpp" 4 2 4 9 "f") resolved false false false.

Definition sample_lifecycles (fs : list ThreadLifecycleFact) : TUFacts :=
  MkTUFacts [] [] [] fs [] [] [] [] [] [] [] false true ∅ ∅ ∅ ∅ ∅ ∅ ∅ no_symbols.

(** A thread moved to another handle, of which nothing is joined. *)
Definition leaked : TUFacts :=
  sample_lifecycles
    [sample_lifecycle ThreadLifecycleAction_Create "local:t" None false;
     sample_lifecycle ThreadLifecycleAction_Move "local:u" (Some "local:t") true].

Definition leaked_report : DiagnosticReport :=
  default empty_report (MissingJoinDetector_run leaked).

Lemma missing_join_counts_its_class_witness :
  ∃ r, diag_properties (default (DiagnosticBuilder RuleId_MissingJoin)
         (head (rep_diagnostics leaked_report))) !! "createCount"
       = Some (PInt (Z.of_nat (creations (classFacts (threadLifecycles leaked) r)))).
Proof.
  destruct (missing_join_counts_its_class leaked leaked_report
    (default (DiagnosticBuilder RuleId_MissingJoin) (head (rep_diagnostics leaked_report))))
    as (r & _ & _ & H & _).
  - vm_compute. reflexivity.
  - apply (list_elem_of_lookup_2 _ 0). vm_compute. reflexivity.
  - exists r. exact H.
Defined.


(** Two creations on exclusive branches that share one join. *)
Definition branches : TUFacts :=
  sample_lifecycles [sample_lifecycle ThreadLifecycleAction_Create "local:t" None true;
                     sample_lifecycle ThreadLifecycleAction_Create "local:t" None true;
                     sample_lifecycle ThreadLifecycleAction_Join "local:t" None true].

Lemma missing_join_silent_when_resolved_witness :
  rep_diagnostics (default empty_report (MissingJoinDetector_run branches)) = [].
Proof.
  apply (missing_join_silent_when_resolved branches).
  - vm_compute. reflexivity.
  - intros f Hf _. simpl in Hf.
    apply elem_of_cons in Hf as [->|[->|[->|[]%elem_of_nil]%elem_of_cons]%elem_of_cons];
      split; reflexivity.
Defined.
