(* ===== verification/Checkers.v ===== *)
(** The checkers that turn collected facts into findings one by one
    (process_lifecycle_checker.cpp, condition_wait_checker.cpp and
    publication_ordering_checker.cpp in src/internal/analysis). *)

From S2P Require Import Prelude Diagnostics Facts FactQueries.

(** ** Processes, thread arguments, thread-locals and signal handlers *)

Definition forkAfterThreadDiagnostic (fork : ProcessForkFact) : Diagnostic :=
  DiagnosticBuilder RuleId_ForkAfterThreadCreation
    |> primaryLocation (fork_location fork)
    |> message "fork in a program that creates threads, with no exec in the child"
    |> note "only the calling thread survives a fork, but the whole address space is inherited: a mutex another thread held is copied locked, and nothing will ever unlock it"
    |> note "POSIX limits the child to async-signal-safe calls until it execs, which excludes locking, allocating and starting threads"
    |> note "either exec in the child, or fork before any thread is created"
    |> note "the program creates threads and this fork reaches no exec; that the creation runs first is not proven here"
    |> taxonomy "CERT" "POS33-C" "Do not use vfork()"
    |> property "function" (PString (fork_functionId fork)).

Definition unreapedChildDiagnostic (fork : ProcessForkFact) : Diagnostic :=
  DiagnosticBuilder RuleId_UnreapedChildProcess
    |> primaryLocation (fork_location fork)
    |> message "child process is never collected"
    |> note "the program forks but never calls wait, waitpid or waitid: every terminated child stays in the process table as a zombie"
    |> note "keep the pid the fork returns and wait on it, or arrange for the system to reap children"
    |> note "no wait and no SIGCHLD=SIG_IGN appears anywhere in the program; which pid a given wait collects is not tracked"
    |> property "function" (PString (fork_functionId fork)).

(** The body of the loop over the forks. *)
Definition forkDiagnostics (facts : TUFacts) (fork : ProcessForkFact) : list Diagnostic :=
  if fork_execReachable fork then []
  else (if programCreatesThreads facts then [forkAfterThreadDiagnostic fork] else []) ++
       (if negb (reapsChildProcesses facts) then [unreapedChildDiagnostic fork] else []).

Definition argumentEscapeDiagnostic (escape : ThreadArgumentEscapeFact) : Diagnostic :=
  DiagnosticBuilder RuleId_ThreadArgumentEscapesFrame
    |> primaryLocation (esc_location escape)
    |> message "thread is given a pointer into the frame that created it"
    |> note "the argument is a local variable of this function, and no join stands between the creation and every way out: the frame is gone while the thread still reads it"
    |> note "either join before returning, or give the thread storage that outlives the call"
    |> taxonomy "CERT" "DCL30-C" "Declare objects with appropriate storage durations"
    |> property "function" (PString (esc_functionId escape))
    |> when (negb (bool_decide (esc_entryFunctionId escape = "")))
         (property "entry" (PString (esc_entryFunctionId escape))).

Definition argumentFreeDiagnostic (freed : ThreadArgumentFreeFact) : Diagnostic :=
  DiagnosticBuilder RuleId_ThreadArgumentFreedEarly
    |> primaryLocation (taf_freeLocation freed)
    |> message "memory handed to a thread is freed before the thread is joined"
    |> note "the thread may still be reading it: nothing orders the thread's use before this free"
    |> note "join the thread before freeing, or let the thread free what it was given"
    |> relatedLocation "Thread given the memory" (taf_creationLocation freed)
    |> taxonomy "CERT" "MEM30-C" "Do not access freed memory"
    |> property "function" (PString (taf_functionId freed))
    |> when (negb (bool_decide (taf_entryFunctionId freed = "")))
         (property "entry" (PString (taf_entryFunctionId freed))).

Definition expiredThreadLocalDiagnostic (expired : ExpiredThreadLocalFact) : Diagnostic :=
  DiagnosticBuilder RuleId_ThreadLocalOutlivesThread
    |> primaryLocation (etl_useLocation expired)
    |> message ("thread-local '" +:+ etl_threadLocal expired +:+
                "' is used after its thread has ended")
    |> note ("its thread published the address in '" +:+ etl_pointer expired +:+
             "' and has been joined: a thread's thread-local objects end with it")
    |> note "copy the value out before the thread ends, or give it storage that outlives the thread"
    |> relatedLocation "Address published by the thread" (etl_publishLocation expired)
    |> taxonomy "CERT" "DCL30-C" "Declare objects with appropriate storage durations"
    |> property "function" (PString (etl_functionId expired))
    |> property "entry" (PString (etl_entryFunctionId expired))
    |> property "threadLocal" (PString (etl_threadLocal expired))
    |> property "pointer" (PString (etl_pointer expired)).

Definition signalHandlerDiagnostic (handler : SignalHandlerFact) : Diagnostic :=
  DiagnosticBuilder RuleId_UnsafeSignalHandler
    |> primaryLocation (sh_location handler)
    |> message "signal handler reaches a call it may not make"
    |> note "a handler interrupts its own thread at an arbitrary instruction, so it may run while the interrupted code is halfway through a structure: allocating, printing or locking there re-enters it"
    |> note "set a flag of type volatile sig_atomic_t and act on it outside the handler"
    |> relatedLocation "Unsafe call reached from the handler" (sh_unsafeCallLocation handler)
    |> taxonomy "CERT" "SIG30-C" "Call only asynchronous-safe functions within signal handlers"
    |> property "handler" (PString (sh_handlerFunctionId handler)).

Definition ProcessLifecycleChecker_run (facts : TUFacts) : DiagnosticReport :=
  let report := foldl (λ report fork, emit_all report (forkDiagnostics facts fork))
                  empty_report (processForks facts) in
  let report := emit_all report (argumentEscapeDiagnostic <$> threadArgumentEscapes facts) in
  let report := emit_all report (argumentFreeDiagnostic <$> threadArgumentFrees facts) in
  let report := emit_all report (expiredThreadLocalDiagnostic <$> expiredThreadLocals facts) in
  emit_all report (signalHandlerDiagnostic <$> signalHandlers facts).

(** ** Condition-variable waits *)

Definition conditionWaitDiagnostic (fact : ConditionWaitFact) : Diagnostic :=
  DiagnosticBuilder RuleId_ConditionWaitWithoutPredicate
    |> primaryLocation (cw_location fact)
    |> message "condition-variable wait rechecks nothing when it wakes"
    |> note "a wait may return without the condition holding: the standard permits a spurious wake-up, and a broadcast wakes every waiter while only one may proceed"
    |> note "wrap the wait in a loop that rechecks the condition, or pass a predicate to the wait itself"
    |> taxonomy "CERT" "CON36-C" "Wrap functions that can spuriously wake up in a loop"
    |> when (cw_viaHelper fact) (λ d, d
         |> note "the wait is performed by a helper called from here; a helper cannot recheck a condition it does not know, so the loop belongs at this call site"
         |> relatedLocation "Wait performed here" (cw_loweredLocation fact))
    |> property "viaHelper" (PBool (cw_viaHelper fact))
    |> property "function" (PString (cw_functionId fact)).

Definition ConditionWaitChecker_run (facts : TUFacts) : DiagnosticReport :=
  emit_all empty_report (conditionWaitDiagnostic <$> conditionWaits facts).

(** ** Publication through an atomic flag *)

Definition joinSymbols (symbols : list string) : string :=
  "'" +:+ foldl (λ joined symbol,
    (if bool_decide (joined = "") then joined else joined +:+ "', '") +:+ symbol) "" symbols +:+ "'".

Definition publicationDiagnostic (publication : WeakPublicationFact) : Diagnostic :=
  DiagnosticBuilder RuleId_WeakPublicationOrdering
    |> message ("atomic flag '" +:+ wp_flag publication +:+ "' publishes " +:+
                joinSymbols (wp_data publication) +:+ " without release/acquire ordering")
    |> (if negb (wp_storeReleases publication) then λ d, d
          |> primaryLocation (wp_storeLocation publication)
          |> note "the store to the flag does not release: nothing orders the writes before it ahead of a reader that sees the flag set"
          |> relatedLocation "Load that observes the flag" (wp_loadLocation publication)
        else λ d, d
          |> primaryLocation (wp_loadLocation publication)
          |> note "the load that observes the flag does not acquire: nothing orders the reads after it behind the writes that preceded the store"
          |> relatedLocation "Store that publishes" (wp_storeLocation publication))
    |> when (negb (wp_storeReleases publication) && negb (wp_loadAcquires publication))
         (note "the load that observes the flag does not acquire either")
    |> note "store the flag with memory_order_release and load it with memory_order_acquire, or use the default sequentially consistent order"
    |> property "flag" (PString (wp_flag publication))
    |> property "data" (PStrings (wp_data publication))
    |> property "storeReleases" (PBool (wp_storeReleases publication))
    |> property "loadAcquires" (PBool (wp_loadAcquires publication)).

(** The threads of the publisher and of the reader can overlap. *)
Definition publicationOverlaps (facts : TUFacts) (publication : WeakPublicationFact) : bool :=
  match reachableThreadEntriesByFunction facts !! wp_publisherFunctionId publication,
        reachableThreadEntriesByFunction facts !! wp_readerFunctionId publication with
  | Some publisherEntries, Some readerEntries =>
      mayRunConcurrently publisherEntries readerEntries facts
  | _, _ => false
  end.

Definition PublicationOrderingChecker_run (facts : TUFacts) : DiagnosticReport :=
  foldl (λ report publication,
      if negb (publicationOverlaps facts publication) then report
      else emit report (publicationDiagnostic publication))
    empty_report (weakPublications facts).

(** ** Lemmas *)

(** The findings of the process checker, in order. *)
Lemma process_diagnostics facts :
  rep_diagnostics (ProcessLifecycleChecker_run facts) =
    (processForks facts ≫= forkDiagnostics facts) ++
    (argumentEscapeDiagnostic <$> threadArgumentEscapes facts) ++
    (argumentFreeDiagnostic <$> threadArgumentFrees facts) ++
    (expiredThreadLocalDiagnostic <$> expiredThreadLocals facts) ++
    (signalHandlerDiagnostic <$> signalHandlers facts).
Proof.
  unfold ProcessLifecycleChecker_run. rewrite !emit_all_diagnostics, <-!app_assoc. f_equal.
  induction (processForks facts) as [|f l IH] using rev_ind; [done|].
  rewrite foldl_snoc, emit_all_diagnostics, IH, bind_app. simpl. by rewrite app_nil_r.
Qed.

Lemma publication_diagnostics facts :
  rep_diagnostics (PublicationOrderingChecker_run facts) =
    publicationDiagnostic <$> filter (λ p, publicationOverlaps facts p = true) (weakPublications facts).
Proof.
  unfold PublicationOrderingChecker_run.
  induction (weakPublications facts) as [|p l IH] using rev_ind; [done|].
  rewrite foldl_snoc, filter_app, fmap_app. destruct (publicationOverlaps facts p) eqn:E; simpl.
  - rewrite IH. by rewrite filter_cons_True.
  - rewrite filter_cons_False by (by rewrite E). by rewrite IH, app_nil_r.
Qed.

Definition countRule (rule : RuleId) (ds : list Diagnostic) : nat :=
  length (filter (λ d, diag_ruleId d = rule) ds).

Lemma countRule_app rule ds ds' : countRule rule (ds ++ ds') = countRule rule ds + countRule rule ds'.
Proof. unfold countRule. by rewrite filter_app, length_app. Qed.

Lemma countRule_fmap {A} rule (f : A → Diagnostic) r l :
  (∀ a, diag_ruleId (f a) = r) →
  countRule rule (f <$> l) = if decide (rule = r) then length l else 0.
Proof.
  intros Hf. induction l as [|a l IH]; [by case_decide|].
  change (f <$> a :: l) with ([f a] ++ (f <$> l)). rewrite countRule_app, IH.
  unfold countRule. rewrite filter_cons, filter_nil. rewrite (Hf a).
  destruct (decide (r = rule)), (decide (rule = r)); done.
Qed.

Lemma argumentEscape_rule e : diag_ruleId (argumentEscapeDiagnostic e) = RuleId_ThreadArgumentEscapesFrame.
Proof. unfold argumentEscapeDiagnostic, when. by destruct (negb _). Qed.

Lemma argumentFree_rule e : diag_ruleId (argumentFreeDiagnostic e) = RuleId_ThreadArgumentFreedEarly.
Proof. unfold argumentFreeDiagnostic, when. by destruct (negb _). Qed.

Definition forksWithoutExec (facts : TUFacts) : nat :=
  length (filter (λ f, fork_execReachable f = false) (processForks facts)).

Lemma forkDiagnostics_count rule facts :
  countRule rule (processForks facts ≫= forkDiagnostics facts) =
  (if decide (rule = RuleId_ForkAfterThreadCreation)
   then (if programCreatesThreads facts then forksWithoutExec facts else 0) else 0) +
  (if decide (rule = RuleId_UnreapedChildProcess)
   then (if reapsChildProcesses facts then 0 else forksWithoutExec facts) else 0).
Proof.
  unfold forksWithoutExec. induction (processForks facts) as [|f l IH].
  { by repeat case_match. }
  rewrite bind_cons, countRule_app, IH, filter_cons. unfold forkDiagnostics at 1.
  destruct (fork_execReachable f); simpl; [done|].
  rewrite countRule_app. unfold countRule.
  destruct (programCreatesThreads facts), (reapsChildProcesses facts); simpl;
    rewrite ?filter_cons, ?filter_nil; simpl; destruct rule; simpl; lia.
Qed.

Lemma forks_length facts :
  length (processForks facts ≫= forkDiagnostics facts) =
    countRule RuleId_ForkAfterThreadCreation (processForks facts ≫= forkDiagnostics facts) +
    countRule RuleId_UnreapedChildProcess (processForks facts ≫= forkDiagnostics facts).
Proof.
  assert (∀ f, length (forkDiagnostics facts f) =
    countRule RuleId_ForkAfterThreadCreation (forkDiagnostics facts f) +
    countRule RuleId_UnreapedChildProcess (forkDiagnostics facts f)) as H1.
  { intros f. unfold forkDiagnostics.
    by destruct (fork_execReachable f), (programCreatesThreads facts), (reapsChildProcesses facts). }
  induction (processForks facts) as [|f l IH]; [done|].
  rewrite bind_cons, length_app, !countRule_app, IH, H1. lia.
Qed.

(** ** Properties *)

(** the process checker reports each fact once under its own rule: every
    escaped argument, early free, expired thread-local and unsafe handler, and
    every fork that reaches no exec under each of the two fork rules that the
    program's threads and waits leave open; no other rule appears. *)
Theorem process_lifecycle_counts facts :
  let count rule := countRule rule (rep_diagnostics (ProcessLifecycleChecker_run facts)) in
  count RuleId_ForkAfterThreadCreation =
    (if programCreatesThreads facts then forksWithoutExec facts else 0) ∧
  count RuleId_UnreapedChildProcess =
    (if reapsChildProcesses facts then 0 else forksWithoutExec facts) ∧
  count RuleId_ThreadArgumentEscapesFrame = length (threadArgumentEscapes facts) ∧
  count RuleId_ThreadArgumentFreedEarly = length (threadArgumentFrees facts) ∧
  count RuleId_ThreadLocalOutlivesThread = length (expiredThreadLocals facts) ∧
  count RuleId_UnsafeSignalHandler = length (signalHandlers facts) ∧
  length (rep_diagnostics (ProcessLifecycleChecker_run facts)) =
    count RuleId_ForkAfterThreadCreation + count RuleId_UnreapedChildProcess +
    count RuleId_ThreadArgumentEscapesFrame + count RuleId_ThreadArgumentFreedEarly +
    count RuleId_ThreadLocalOutlivesThread + count RuleId_UnsafeSignalHandler.
Proof.
  rewrite process_diagnostics. cbv zeta. rewrite !length_app, !length_fmap, forks_length.
  rewrite !countRule_app, !forkDiagnostics_count,
    !(countRule_fmap _ _ _ _ argumentEscape_rule), !(countRule_fmap _ _ _ _ argumentFree_rule),
    !(countRule_fmap _ expiredThreadLocalDiagnostic RuleId_ThreadLocalOutlivesThread) by done.
  rewrite !(countRule_fmap _ signalHandlerDiagnostic RuleId_UnsafeSignalHandler) by done.
  repeat (case_decide; [|done] || (case_decide; [done|])). lia.
Qed.

(** a weak publication is reported exactly when two tasks can be between the
    store and the load at once: a thread entry reaching the publisher and one
    reaching the reader that are not sequenced by a join, or two instances of one. *)
Theorem publication_reported_iff_overlapping facts d :
  d ∈ rep_diagnostics (PublicationOrderingChecker_run facts) ↔
  ∃ p P R, p ∈ weakPublications facts ∧ d = publicationDiagnostic p ∧
    reachableThreadEntriesByFunction facts !! wp_publisherFunctionId p = Some P ∧
    reachableThreadEntriesByFunction facts !! wp_readerFunctionId p = Some R ∧
    ∃ e e', e ∈ P ∧ e' ∈ R ∧
      ((e ≠ e' ∧ makeEntryPair e e' ∉ sequencedEntryPairs facts) ∨
       (e = e' ∧ entrySelfConcurrent facts e = true)).
Proof.
  rewrite publication_diagnostics, list_elem_of_fmap. setoid_rewrite list_elem_of_filter.
  unfold publicationOverlaps. split.
  - intros (p & -> & H & Hin). exists p.
    destruct (_ !! wp_publisherFunctionId p) as [P|]; [|done].
    destruct (_ !! wp_readerFunctionId p) as [R|]; [|done].
    exists P, R. do 4 (split; [done|]). by apply mayRunConcurrently_spec.
  - intros (p & P & R & Hin & -> & HP & HR & H). exists p. rewrite HP, HR.
    split; [done|]. split; [by apply mayRunConcurrently_spec|done].
Qed.
