(* ===== verification/ReportBuilder.v ===== *)
(** The report builder (src/internal/analysis/report_builder.cpp): the summary of
    severities, the per-function summaries, and [finalizeReport], which sorts the
    findings and numbers them.

    The sorts go through the interface [StdSort] of the prelude: the theorems hold
    for any sort that conforms to the C++ standard, stable or not. *)

From Stdlib Require Import ZArith.
From S2P Require Import Prelude Diagnostics Facts FactQueries.

(** ** Comparisons *)

Definition rule_lt (x y : RuleId) : bool := RuleId_index x <? RuleId_index y.

Definition summary_lt : FunctionSummary → FunctionSummary → bool :=
  lt_then (lt_on fs_name str_lt) (lt_on fs_file str_lt).

Definition diagnostic_lt : Diagnostic → Diagnostic → bool :=
  lt_then (lt_on diag_ruleId rule_lt)
   (lt_then (lt_on (λ d, loc_file (diag_location d)) str_lt)
     (lt_then (lt_on (λ d, loc_line (diag_location d)) N_lt)
       (lt_then (lt_on (λ d, loc_column (diag_location d)) N_lt)
         (lt_on diag_message str_lt)))).

(** ** Summaries *)

Definition countSeverity (s : DiagnosticSummary) (d : Diagnostic) : DiagnosticSummary :=
  match diag_severity d with
  | Severity_Info => MkSummary (S (sum_info s)) (sum_warning s) (sum_error s)
  | Severity_Warning => MkSummary (sum_info s) (S (sum_warning s)) (sum_error s)
  | Severity_Error => MkSummary (sum_info s) (sum_warning s) (S (sum_error s))
  end.

Definition computeSummary (diagnostics : list Diagnostic) : DiagnosticSummary :=
  foldl countSeverity (MkSummary 0 0 0) diagnostics.

Abbreviation Functions := (gmap string FunctionSummary).

Definition new_function : FunctionSummary := MkFunctionSummary "" "" false [] None None None false.

Definition with_file (file : string) (s : FunctionSummary) : FunctionSummary :=
  MkFunctionSummary file (fs_name s) (fs_threadReachable s) (fs_threadEntries s)
    (fs_sharedAccessCount s) (fs_protectedAccessCount s) (fs_writeAccessCount s)
    (fs_hasDiagnostics s).
Definition with_name (name : string) (s : FunctionSummary) : FunctionSummary :=
  MkFunctionSummary (fs_file s) name (fs_threadReachable s) (fs_threadEntries s)
    (fs_sharedAccessCount s) (fs_protectedAccessCount s) (fs_writeAccessCount s)
    (fs_hasDiagnostics s).
Definition with_counts (shared protected write : option nat) (s : FunctionSummary)
  : FunctionSummary :=
  MkFunctionSummary (fs_file s) (fs_name s) (fs_threadReachable s) (fs_threadEntries s)
    shared protected write (fs_hasDiagnostics s).

(** [functions[key]]: the summary there, or a default one. *)
Definition functionAt (key : string) (functions : Functions) : FunctionSummary :=
  default new_function (functions !! key).

(** The lambda [ensureSummary]. *)
Definition ensureSummary (functionId : string) (functions : Functions) : FunctionSummary :=
  let summary := functionAt functionId functions in
  if bool_decide (fs_name summary = "") then with_name functionId summary else summary.

Definition one_more (count : option nat) : option nat := Some (default 0 count + 1).

Definition countAccess (functions : Functions) (access : AccessFact) : Functions :=
  let summary := ensureSummary (acc_functionId access) functions in
  let summary := if bool_decide (loc_function (acc_userLocation access) ≠ "")
                 then with_name (loc_function (acc_userLocation access)) summary else summary in
  let summary := if bool_decide (fs_file summary = "")
                    && bool_decide (loc_file (acc_userLocation access) ≠ "")
                 then with_file (loc_file (acc_userLocation access)) summary else summary in
  let summary := with_counts (one_more (fs_sharedAccessCount summary))
    (if bool_decide (acc_heldLocks access ≠ ∅) then one_more (fs_protectedAccessCount summary)
     else fs_protectedAccessCount summary)
    (if bool_decide (acc_kind access = AccessKind_Write) then one_more (fs_writeAccessCount summary)
     else fs_writeAccessCount summary) summary in
  <[acc_functionId access := summary]> functions.

Definition noteLockOrder (functions : Functions) (lockOrder : LockOrderFact) : Functions :=
  let summary := ensureSummary (lo_functionId lockOrder) functions in
  let summary := if bool_decide (loc_function (lo_location lockOrder) ≠ "")
                 then with_name (loc_function (lo_location lockOrder)) summary else summary in
  let summary := if bool_decide (fs_file summary = "")
                    && bool_decide (loc_file (lo_location lockOrder) ≠ "")
                 then with_file (loc_file (lo_location lockOrder)) summary else summary in
  <[lo_functionId lockOrder := summary]> functions.

Definition noteReachable (functions : Functions) (item : string * ThreadEntrySet) : Functions :=
  let summary := ensureSummary item.1 functions in
  <[item.1 := MkFunctionSummary (fs_file summary) (fs_name summary) true
                (sortedThreadEntries item.2) (fs_sharedAccessCount summary)
                (fs_protectedAccessCount summary) (fs_writeAccessCount summary)
                (fs_hasDiagnostics summary)]> functions.

(** [ensureDiagnosticSummary(functions, location).hasDiagnostics = true]. *)
Definition markFunction (location : SourceLocation) (functions : Functions) : Functions :=
  let key := if bool_decide (loc_function location ≠ "") then loc_function location
             else loc_file location in
  let summary := functionAt key functions in
  let summary := if bool_decide (fs_name summary = "")
                 then with_name (if bool_decide (loc_function location = "") then key
                                 else loc_function location) summary else summary in
  let summary := if bool_decide (fs_file summary = "")
                 then with_file (loc_file location) summary else summary in
  <[key := MkFunctionSummary (fs_file summary) (fs_name summary) (fs_threadReachable summary)
             (fs_threadEntries summary) (fs_sharedAccessCount summary)
             (fs_protectedAccessCount summary) (fs_writeAccessCount summary) true]> functions.

Definition markDiagnosticFunctions (functions : Functions) (diagnostic : Diagnostic) : Functions :=
  let functions := if bool_decide (loc_function (diag_location diagnostic) ≠ "")
                   then markFunction (diag_location diagnostic) functions else functions in
  foldl (λ functions related,
      if bool_decide (loc_function (rel_location related) = "") then functions
      else markFunction (rel_location related) functions)
    functions (diag_relatedLocations diagnostic).

Definition fillCounts (s : FunctionSummary) : FunctionSummary :=
  with_counts (Some (default 0 (fs_sharedAccessCount s)))
    (Some (default 0 (fs_protectedAccessCount s))) (Some (default 0 (fs_writeAccessCount s))) s.

(** The map of summaries before it is flattened and sorted. *)
Definition collectFunctions (facts : TUFacts) (diagnostics : list Diagnostic)
    (accessesWereComputed : bool) : Functions :=
  let functions := foldl countAccess ∅ (accesses facts) in
  let functions := foldl noteLockOrder functions (lockOrders facts) in
  let functions := foldl noteReachable functions
                     (map_items (reachableThreadEntriesByFunction facts)) in
  let functions := foldl markDiagnosticFunctions functions diagnostics in
  if accessesWereComputed then fillCounts <$> functions else functions.

(** ** [finalizeReport] *)

Definition with_id (id : string) (d : Diagnostic) : Diagnostic :=
  MkDiagnostic id (diag_severity d) (diag_ruleId d) (diag_confidence d) (diag_taxonomies d)
    (diag_location d) (diag_relatedLocations d) (diag_message d) (diag_notes d)
    (diag_properties d).

Definition diagnosticId (index : nat) : string := "diag-" +:+ pretty (index + 1).

Definition numberDiagnostics (diagnostics : list Diagnostic) : list Diagnostic :=
  imap (λ index d, with_id (diagnosticId index) d) diagnostics.

Section report.
Context `{!StdSort}.

Definition buildFunctionSummaries (facts : TUFacts) (diagnostics : list Diagnostic)
    (accessesWereComputed : bool) : list FunctionSummary :=
  std_sort summary_lt (map_items (collectFunctions facts diagnostics accessesWereComputed)).*2.

Definition finalizeReport (report : DiagnosticReport) (facts : TUFacts)
    (accessesWereComputed : bool) : DiagnosticReport :=
  let diagnostics := numberDiagnostics (std_sort diagnostic_lt (rep_diagnostics report)) in
  MkReport (buildFunctionSummaries facts diagnostics accessesWereComputed) diagnostics
    (computeSummary diagnostics) (rep_notices report).
End report.

(** ** Lemmas on the comparisons *)

#[global] Instance rule_lt_swo : StrictWeakOrder rule_lt.
Proof. unfold rule_lt. split; intros *; rewrite ?Nat.ltb_lt, ?Nat.ltb_ge; lia. Qed.

#[global] Instance summary_lt_swo : StrictWeakOrder summary_lt.
Proof. unfold summary_lt. apply _. Qed.

#[global] Instance diagnostic_lt_swo : StrictWeakOrder diagnostic_lt.
Proof. unfold diagnostic_lt. apply _. Qed.

(** ** Lemmas on the numbering *)

Lemma diagnosticId_inj i j : diagnosticId i = diagnosticId j → i = j.
Proof.
  unfold diagnosticId. intros H. apply (inj (String.append "diag-")) in H. apply (inj pretty) in H. lia.
Qed.

Lemma numberDiagnostics_ids ds : diag_id <$> numberDiagnostics ds = diagnosticId <$> seq 0 (length ds).
Proof.
  apply list_eq. intros i. unfold numberDiagnostics.
  rewrite !list_lookup_fmap, list_lookup_imap, <-option_fmap_compose.
  destruct (ds !! i) as [d|] eqn:E; simpl.
  - apply lookup_lt_Some in E. by rewrite lookup_seq_lt by done.
  - apply lookup_ge_None in E. by rewrite lookup_seq_ge by done.
Qed.

Lemma with_id_numbered id ds : with_id id <$> numberDiagnostics ds = with_id id <$> ds.
Proof.
  unfold numberDiagnostics. rewrite fmap_imap. apply list_eq. intros i.
  rewrite list_lookup_imap, list_lookup_fmap. done.
Qed.

Lemma numberDiagnostics_sorted (lt : Diagnostic → Diagnostic → bool) ds :
  (∀ i j d d', lt (with_id i d) (with_id j d') = lt d d') →
  StronglySorted (not_after lt) ds → StronglySorted (not_after lt) (numberDiagnostics ds).
Proof.
  intros Hlt. unfold numberDiagnostics.
  enough (∀ f : nat → Diagnostic → Diagnostic,
    (∀ i j d d', lt (f i d) (f j d') = lt d d') →
    StronglySorted (not_after lt) ds → StronglySorted (not_after lt) (imap f ds)) as H by (by apply H).
  induction ds as [|d ds IH]; intros f Hf Hs; [constructor|].
  apply StronglySorted_inv in Hs as [Hs Hd]. rewrite imap_cons. constructor.
  - apply IH; [|done]. intros. apply Hf.
  - apply Forall_forall. intros d' [i Hi]%list_elem_of_lookup.
    apply list_lookup_imap_Some in Hi as (d0 & Hd0 & ->).
    unfold not_after. simpl. rewrite Hf. rewrite Forall_forall in Hd. apply Hd.
    by eapply list_elem_of_lookup_2.
Qed.

Lemma computeSummary_app ds d :
  computeSummary (ds ++ [d]) = countSeverity (computeSummary ds) d.
Proof. unfold computeSummary. by rewrite foldl_snoc. Qed.

Definition severityCount (s : Severity) (ds : list Diagnostic) : nat :=
  length (filter (λ d, diag_severity d = s) ds).

Lemma computeSummary_counts ds :
  computeSummary ds =
  MkSummary (severityCount Severity_Info ds) (severityCount Severity_Warning ds)
    (severityCount Severity_Error ds).
Proof.
  induction ds as [|d ds IH] using rev_ind; [done|].
  rewrite computeSummary_app, IH. unfold countSeverity, severityCount.
  rewrite !filter_app, !length_app, !filter_cons. simpl.
  destruct (diag_severity d); simpl; f_equal; lia.
Qed.

Lemma severityCount_total ds :
  severityCount Severity_Info ds + severityCount Severity_Warning ds +
  severityCount Severity_Error ds = length ds.
Proof.
  induction ds as [|d ds IH]; [done|]. unfold severityCount in *. rewrite !filter_cons. simpl.
  destruct (diag_severity d); simpl; lia.
Qed.

(** ** Lemmas on the function summaries *)

(** What a summary counts and marks, apart from the names. *)
Definition tally (s : FunctionSummary) :=
  (default 0 (fs_sharedAccessCount s), default 0 (fs_protectedAccessCount s),
   default 0 (fs_writeAccessCount s)).

Lemma tally_with_name n s : tally (with_name n s) = tally s.
Proof. done. Qed.
Lemma tally_with_file f s : tally (with_file f s) = tally s.
Proof. done. Qed.

Lemma functionAt_insert k k' s m :
  functionAt k (<[k' := s]> m) = if decide (k' = k) then s else functionAt k m.
Proof. unfold functionAt. rewrite lookup_insert. by case_decide. Qed.

Lemma ensureSummary_reads {A} (f : FunctionSummary → A) id m :
  (∀ n s, f (with_name n s) = f s) → f (ensureSummary id m) = f (functionAt id m).
Proof. intros Hf. unfold ensureSummary. case_bool_decide; [apply Hf|done]. Qed.

(** Reading a field that naming a function and its file leaves alone. *)
Section reads.
Context {A : Type} (f : FunctionSummary → A).
Hypothesis f_name : ∀ n s, f (with_name n s) = f s.
Hypothesis f_file : ∀ n s, f (with_file n s) = f s.

Lemma countAccess_reads k m a :
  (∀ a b c s, f (with_counts a b c s) = f s) →
  f (functionAt k (countAccess m a)) = f (functionAt k m).
Proof.
  intros Hc. unfold countAccess. rewrite functionAt_insert. case_decide as E; [|done]. subst k.
  rewrite Hc. repeat case_match; rewrite ?f_file, ?f_name; by rewrite (ensureSummary_reads f).
Qed.

Lemma noteLockOrder_reads k m o : f (functionAt k (noteLockOrder m o)) = f (functionAt k m).
Proof.
  unfold noteLockOrder. rewrite functionAt_insert. case_decide as E; [|done]. subst k.
  repeat case_match; rewrite ?f_file, ?f_name; by rewrite (ensureSummary_reads f).
Qed.
End reads.

Lemma noteReachable_tally k m item : tally (functionAt k (noteReachable m item)) = tally (functionAt k m).
Proof.
  unfold noteReachable. rewrite functionAt_insert. case_decide as E; [|done]. subst k.
  by rewrite <-(ensureSummary_reads tally).
Qed.

Lemma markFunction_tally k l m : tally (functionAt k (markFunction l m)) = tally (functionAt k m).
Proof.
  unfold markFunction. rewrite functionAt_insert. case_decide as E; [|done]. subst k.
  by repeat case_match.
Qed.

Lemma markDiagnosticFunctions_tally k m d :
  tally (functionAt k (markDiagnosticFunctions m d)) = tally (functionAt k m).
Proof.
  unfold markDiagnosticFunctions.
  apply (foldl_inv (λ m', tally (functionAt k m') = tally (functionAt k m))).
  - case_bool_decide; [apply markFunction_tally|done].
  - intros m' r _ <-. case_bool_decide; [done|apply markFunction_tally].
Qed.

(** The accesses of a function that satisfy a test. *)
Definition accessCount (p : AccessFact → bool) (accs : list AccessFact) (k : string) : nat :=
  length (filter (λ a, acc_functionId a = k ∧ p a = true) accs).

Abbreviation sharedCount := (accessCount (λ _, true)).
Abbreviation protectedCount := (accessCount (λ a, bool_decide (acc_heldLocks a ≠ ∅))).
Abbreviation writeCount := (accessCount (λ a, bool_decide (acc_kind a = AccessKind_Write))).

Lemma accessCount_snoc p accs a k :
  accessCount p (accs ++ [a]) k =
  accessCount p accs k + (if decide (acc_functionId a = k) then Nat.b2n (p a) else 0).
Proof.
  unfold accessCount. rewrite filter_app, length_app. f_equal. rewrite filter_cons, filter_nil.
  repeat case_decide; destruct (p a); naive_solver.
Qed.

Lemma countAccess_tally k m a :
  tally (functionAt k (countAccess m a)) =
  if decide (acc_functionId a = k)
  then (default 0 (fs_sharedAccessCount (functionAt k m)) + 1,
        default 0 (fs_protectedAccessCount (functionAt k m)) +
          Nat.b2n (bool_decide (acc_heldLocks a ≠ ∅)),
        default 0 (fs_writeAccessCount (functionAt k m)) +
          Nat.b2n (bool_decide (acc_kind a = AccessKind_Write)))
  else tally (functionAt k m).
Proof.
  unfold countAccess. rewrite functionAt_insert. case_decide as E; [|done]. subst k.
  set (s := ensureSummary _ m).
  assert (tally s = tally (functionAt (acc_functionId a) m)) as Hs
    by (by apply (ensureSummary_reads tally)).
  unfold tally in Hs |- *. injection Hs as <- <- <-.
  assert (∀ n, default 0 (one_more n) = default 0 n + 1) as Hone by done.
  set (b1 := bool_decide (_ ≠ ∅)). set (b2 := bool_decide (_ = AccessKind_Write)).
  simpl. repeat case_match; destruct b1, b2; simpl; rewrite ?Nat.add_0_r; done.
Qed.

Lemma collect_tally accs k :
  tally (functionAt k (foldl countAccess ∅ accs)) =
  (sharedCount accs k, protectedCount accs k, writeCount accs k).
Proof.
  induction accs as [|a accs IH] using rev_ind; [done|].
  rewrite foldl_snoc, countAccess_tally, !accessCount_snoc.
  unfold tally in IH. injection IH as E1 E2 E3. case_decide.
  - by rewrite E1, E2, E3.
  - unfold tally. by rewrite E1, E2, E3, !Nat.add_0_r.
Qed.

Lemma foldl_tally {B} (step : Functions → B → Functions) l m k :
  (∀ m b, tally (functionAt k (step m b)) = tally (functionAt k m)) →
  tally (functionAt k (foldl step m l)) = tally (functionAt k m).
Proof.
  intros H. apply (foldl_inv (λ m', tally (functionAt k m') = tally (functionAt k m))); [done|].
  intros m' b _ <-. apply H.
Qed.

Lemma collectFunctions_tally facts ds k :
  tally (functionAt k (collectFunctions facts ds false)) =
  (sharedCount (accesses facts) k, protectedCount (accesses facts) k, writeCount (accesses facts) k).
Proof.
  unfold collectFunctions.
  rewrite (foldl_tally _ ds) by (intros; apply markDiagnosticFunctions_tally).
  rewrite foldl_tally by (intros; apply noteReachable_tally).
  rewrite foldl_tally by (intros; by apply (noteLockOrder_reads tally)).
  apply collect_tally.
Qed.

(** Which entries reach a function. *)
Definition reach (s : FunctionSummary) := (fs_threadReachable s, fs_threadEntries s).

Lemma markFunction_reach k l m : reach (functionAt k (markFunction l m)) = reach (functionAt k m).
Proof.
  unfold markFunction. rewrite functionAt_insert. case_decide as E; [|done]. subst k.
  by repeat case_match.
Qed.

Lemma markDiagnosticFunctions_reach k m d :
  reach (functionAt k (markDiagnosticFunctions m d)) = reach (functionAt k m).
Proof.
  unfold markDiagnosticFunctions.
  apply (foldl_inv (λ m', reach (functionAt k m') = reach (functionAt k m))).
  - case_bool_decide; [apply markFunction_reach|done].
  - intros m' r _ <-. case_bool_decide; [done|apply markFunction_reach].
Qed.

Lemma noteReachable_all_reach (items : list (string * ThreadEntrySet)) m k :
  NoDup items.*1 → reach (functionAt k m) = (false, []) →
  (∀ entries, (k, entries) ∈ items →
     reach (functionAt k (foldl noteReachable m items)) = (true, sortedThreadEntries entries)) ∧
  (k ∉ items.*1 → reach (functionAt k (foldl noteReachable m items)) = (false, [])).
Proof.
  intros Hnd Hm. induction items as [|[k' es] items IH] using rev_ind.
  { split; [by intros ? ?%elem_of_nil|done]. }
  rewrite fmap_app in Hnd |- *. apply NoDup_app in Hnd as (Hnd & Hdisj & _).
  destruct (IH Hnd) as [IH1 IH2].
  assert (reach (functionAt k (foldl noteReachable m (items ++ [(k', es)]))) =
    if decide (k' = k) then (true, sortedThreadEntries es)
    else reach (functionAt k (foldl noteReachable m items))) as ->.
  { rewrite foldl_snoc. unfold noteReachable at 1. simpl. rewrite functionAt_insert.
    by destruct (decide (k' = k)). }
  split.
  - intros entries [Hin|[= <- <-]%list_elem_of_singleton]%elem_of_app; [|by rewrite decide_True].
    rewrite decide_False; [by apply IH1|]. intros ->.
    apply (Hdisj k); [by apply (list_elem_of_fmap_2 fst _ (k, entries))|set_solver].
  - intros Hk. rewrite decide_False by set_solver. apply IH2. set_solver.
Qed.

Lemma collectFunctions_reach facts ds k :
  reach (functionAt k (collectFunctions facts ds false)) =
  match reachableThreadEntriesByFunction facts !! k with
  | Some entries => (true, sortedThreadEntries entries)
  | None => (false, [])
  end.
Proof.
  unfold collectFunctions.
  set (m0 := foldl noteLockOrder _ _).
  assert (reach (functionAt k m0) = (false, [])) as Hm0.
  { unfold m0. apply (foldl_inv (λ m, reach (functionAt k m) = (false, []))).
    - apply (foldl_inv (λ m, reach (functionAt k m) = (false, []))); [done|].
      intros m a _ <-. by apply (countAccess_reads reach).
    - intros m o _ <-. by apply (noteLockOrder_reads reach). }
  transitivity (reach (functionAt k (foldl noteReachable m0
    (map_items (reachableThreadEntriesByFunction facts))))).
  { apply (foldl_inv (λ m, reach (functionAt k m) = reach (functionAt k (foldl noteReachable m0
      (map_items (reachableThreadEntriesByFunction facts)))))); [done|].
    intros m d _ <-. apply markDiagnosticFunctions_reach. }
  destruct (noteReachable_all_reach (map_items (reachableThreadEntriesByFunction facts)) m0 k)
    as [H1 H2]; [apply NoDup_map_items_fst|done|].
  destruct (_ !! k) as [entries|] eqn:E; [by apply H1, elem_of_map_items|].
  apply H2. intros ([k' es] & -> & Hin%elem_of_map_items)%list_elem_of_fmap. simpl in E. congruence.
Qed.

Lemma elem_of_buildFunctionSummaries `{!StdSort} facts ds b s :
  s ∈ buildFunctionSummaries facts ds b ↔ ∃ k, collectFunctions facts ds b !! k = Some s.
Proof.
  unfold buildFunctionSummaries. rewrite std_sort_perm by apply _. rewrite list_elem_of_fmap. split.
  - intros ([k s'] & -> & Hin%elem_of_map_items). eauto.
  - intros (k & Hk). exists (k, s). by rewrite elem_of_map_items.
Qed.

Lemma collectFunctions_filled facts ds :
  collectFunctions facts ds true = fillCounts <$> collectFunctions facts ds false.
Proof. done. Qed.

(** ** Properties *)

Section properties.
Context `{!StdSort}.


(** the severity summary of a finalized report counts its findings: each
    number is that of the findings of the severity, and they add up to all. *)
Theorem finalizeReport_summary report facts b :
  let result := finalizeReport report facts b in
  sum_info (rep_summary result) = severityCount Severity_Info (rep_diagnostics result) ∧
  sum_warning (rep_summary result) = severityCount Severity_Warning (rep_diagnostics result) ∧
  sum_error (rep_summary result) = severityCount Severity_Error (rep_diagnostics result) ∧
  sum_info (rep_summary result) + sum_warning (rep_summary result) + sum_error (rep_summary result)
    = length (rep_diagnostics report).
Proof.
  cbv zeta. unfold finalizeReport. simpl. rewrite computeSummary_counts. simpl.
  split_and!; [done..|]. rewrite severityCount_total. unfold numberDiagnostics.
  rewrite length_imap. by rewrite (Permutation_length (std_sort_perm diagnostic_lt _)).
Qed.

(** the function summaries are exact.  When the accesses were collected, each
    summary belongs to a function and carries the number of its accesses, of
    those under a lock and of its writes, all three present, and it is marked
    reachable with the sorted thread entries exactly when entries reach it. *)
Theorem function_summaries_exact facts ds s :
  s ∈ buildFunctionSummaries facts ds true →
  ∃ k, fs_sharedAccessCount s = Some (sharedCount (accesses facts) k) ∧
    fs_protectedAccessCount s = Some (protectedCount (accesses facts) k) ∧
    fs_writeAccessCount s = Some (writeCount (accesses facts) k) ∧
    match reachableThreadEntriesByFunction facts !! k with
    | Some entries => fs_threadReachable s = true ∧ fs_threadEntries s = sortedThreadEntries entries
    | None => fs_threadReachable s = false ∧ fs_threadEntries s = []
    end.
Proof.
  intros (k & Hk)%elem_of_buildFunctionSummaries. exists k.
  rewrite collectFunctions_filled, lookup_fmap in Hk.
  destruct (collectFunctions facts ds false !! k) as [s0|] eqn:E; [|done]. injection Hk as <-.
  pose proof (collectFunctions_tally facts ds k) as Ht.
  pose proof (collectFunctions_reach facts ds k) as Hr.
  unfold functionAt in Ht, Hr. rewrite E in Ht, Hr. unfold tally in Ht. unfold reach in Hr.
  injection Ht as E1 E2 E3. simpl in *. rewrite E1, E2, E3. split_and!; [done..|].
  destruct (reachableThreadEntriesByFunction facts !! k); injection Hr as Hr1 Hr2; done.
Qed.

(** Counts nobody took are absent: when no rule asked for the accesses, no
    summary claims a number of them. *)
Theorem function_summaries_absent facts ds s :
  accesses facts = [] → s ∈ buildFunctionSummaries facts ds false →
  fs_sharedAccessCount s = None ∧ fs_protectedAccessCount s = None ∧ fs_writeAccessCount s = None.
Proof.
  intros Hacc (k & Hk)%elem_of_buildFunctionSummaries.
  set (f := λ s, (fs_sharedAccessCount s, fs_protectedAccessCount s, fs_writeAccessCount s)).
  enough (f (functionAt k (collectFunctions facts ds false)) = (None, None, None)) as Hnone.
  { unfold functionAt in Hnone. rewrite Hk in Hnone. unfold f in Hnone. by injection Hnone as -> -> ->. }
  assert (∀ k l m, f (functionAt k (markFunction l m)) = f (functionAt k m)) as Hmark.
  { intros k' l m. unfold markFunction. rewrite functionAt_insert. case_decide; [subst|done].
    by repeat case_match. }
  unfold collectFunctions. rewrite Hacc. simpl.
  apply (foldl_inv (λ m, f (functionAt k m) = (None, None, None))).
  - apply (foldl_inv (λ m, f (functionAt k m) = (None, None, None))).
    + apply (foldl_inv (λ m, f (functionAt k m) = (None, None, None))); [done|].
      intros m o _ <-. by apply (noteLockOrder_reads f).
    + intros m item _ <-. unfold noteReachable. rewrite functionAt_insert.
      case_decide; [subst|done]. by rewrite <-(ensureSummary_reads f).
  - intros m d _ <-. unfold markDiagnosticFunctions.
    apply (foldl_inv (λ m', f (functionAt k m') = f (functionAt k m))).
    + case_bool_decide; [apply Hmark|done].
    + intros m' r _ <-. case_bool_decide; [done|apply Hmark].
Qed.
End properties.

(** ** Witnesses: the sort of the prelude on concrete reports *)

Definition two_findings : DiagnosticReport :=
  emit_all empty_report
    [DiagnosticBuilder RuleId_MissingJoin |> message "b"; DiagnosticBuilder RuleId_DataRaceGlobal].


Lemma finalizeReport_summary_witness :
  sum_error (rep_summary (@finalizeReport merge_std_sort two_findings no_facts false)) =
  severityCount Severity_Error
    (rep_diagnostics (@finalizeReport merge_std_sort two_findings no_facts false)).
Proof. apply (@finalizeReport_summary merge_std_sort two_findings no_facts false). Defined.

Definition one_write : TUFacts :=
  MkTUFacts [] [MkAccess "g" default_region "f" AccessKind_Write AliasProvenance_Direct no_location
                  no_location true false false false false false ∅ ∅ false "" {["m"]} ∅ ∅]
    [] [] [] [] [] [] [] [] [] false false ∅ ∅ ∅ ∅ {["f" := {["main"]}]} ∅ ∅ no_symbols.

Definition first_summary (facts : TUFacts) (b : bool) : FunctionSummary :=
  default new_function (head (@buildFunctionSummaries merge_std_sort facts [] b)).

Lemma function_summaries_exact_witness :
  ∃ k, fs_sharedAccessCount (first_summary one_write true)
       = Some (sharedCount (accesses one_write) k).
Proof.
  destruct (@function_summaries_exact merge_std_sort one_write [] (first_summary one_write true))
    as (k & H & _).
  - apply (list_elem_of_lookup_2 _ 0). vm_compute. reflexivity.
  - exists k. exact H.
Defined.

Definition only_reachable : TUFacts :=
  MkTUFacts [] [] [] [] [] [] [] [] [] [] [] false false ∅ ∅ ∅ ∅ {["f" := {["main"]}]} ∅ ∅ no_symbols.

Lemma function_summaries_absent_witness :
  fs_sharedAccessCount (first_summary only_reachable false) = None.
Proof.
  apply (@function_summaries_absent merge_std_sort only_reachable []); [reflexivity|].
  apply (list_elem_of_lookup_2 _ 0). vm_compute. reflexivity.
Defined.
