(* ===== verification/ProgramIndex.v ===== *)
(** The program symbol index (src/internal/analysis/cross_tu/program_symbol_index.hpp
    and .cpp): what each unit contributes to the whole-program view, the queries
    units ask back, and the test of inter_tu_coordinator.cpp deciding which units
    that view makes worth a second analysis. *)

From S2P Require Import Prelude Diagnostics Facts FactQueries.

Record EntrySpawns := MkEntrySpawns { es_instanceCount : nat; es_insideLoop : bool }.

Record FunctionUnits := MkFunctionUnits { fu_first : nat; fu_several : bool }.

Record ProgramSymbolIndex := MkIndex {
  spawnSitesByEntry : gmap string EntrySpawns;
  unitsByFunction : gmap string FunctionUnits;
  indexDefinedGlobals : gset string;
  lockSummariesBySymbol : gmap string (list ParameterLockEffect);
  resolvedHandleSymbols : gset string;
  joiningHelpersBySymbol : gmap string (list JoinedParameter);
  reapsChildren : bool;
}.

Definition nothingKnownYet : ProgramSymbolIndex := MkIndex ∅ ∅ ∅ ∅ ∅ ∅ false.

(** [emplace]: keeps what is there. *)
Definition emplace {A} (key : string) (value : A) (m : gmap string A) : gmap string A :=
  match m !! key with Some _ => m | None => <[key := value]> m end.

(** ** [addUnit], loop by loop *)

Definition showFunction (unit : nat) (units : gmap string FunctionUnits) (item : string * string)
  : gmap string FunctionUnits :=
  match units !! item.2 with
  | None => <[item.2 := MkFunctionUnits unit false]> units
  | Some seen =>
      if bool_decide (fu_first seen ≠ unit)
      then <[item.2 := MkFunctionUnits (fu_first seen) true]> units else units
  end.

Definition resolveHandle (program : ProgramSymbolFacts) (symbols : gset string)
    (handleGroupId : string) : gset string :=
  match handleSymbolsByGroupId program !! handleGroupId with
  | Some symbol => {[symbol]} ∪ symbols
  | None => symbols
  end.

(** The loops over the summaries of helpers the unit defines. *)
Definition publishHelper {A} (program : ProgramSymbolFacts) (summaries : gmap string A)
    (item : string * A) : gmap string A :=
  match functionSymbolsById program !! item.1 with
  | Some symbol =>
      if bool_decide (symbol ∈ declaredFunctions program) then summaries
      else emplace symbol item.2 summaries
  | None => summaries
  end.

Definition countSpawns (program : ProgramSymbolFacts) (spawns : gmap string EntrySpawns)
    (item : string * EntryConcurrencyInfo) : gmap string EntrySpawns :=
  match functionSymbolsById program !! item.1 with
  | Some symbol =>
      let seen := default (MkEntrySpawns 0 false) (spawns !! symbol) in
      <[symbol := MkEntrySpawns (es_instanceCount seen + staticSpawnCount item.2)
                    (es_insideLoop seen || hasSpawnInLoop item.2)]> spawns
  | None => spawns
  end.

Section index.
Context `{!HashOrder}.

Definition addUnit (unit : nat) (facts : TUFacts) (index : ProgramSymbolIndex)
  : ProgramSymbolIndex :=
  let p := program facts in
  MkIndex
    (foldl (countSpawns p) (spawnSitesByEntry index) (hash_items (entryConcurrency facts)))
    (foldl (showFunction unit) (unitsByFunction index) (hash_items (functionSymbolsById p)))
    (indexDefinedGlobals index ∪ definedGlobals p)
    (foldl (publishHelper p) (lockSummariesBySymbol index) (hash_items (lockWrapperSummaries facts)))
    (foldl (resolveHandle p) (resolvedHandleSymbols index)
       (elements (resolvedGlobalHandleIds facts)))
    (foldl (publishHelper p) (joiningHelpersBySymbol index) (hash_items (joiningHelpers facts)))
    (reapsChildren index || reapsChildProcesses facts).

(** The index of some units, added one after the other. *)
Definition indexOf (units : list (nat * TUFacts)) : ProgramSymbolIndex :=
  foldl (λ index unit, addUnit unit.1 unit.2 index) nothingKnownYet units.
End index.

(** ** Queries *)

Definition isThreadEntry (index : ProgramSymbolIndex) (symbol : string) : bool :=
  bool_decide (is_Some (spawnSitesByEntry index !! symbol)).

Definition spawnCount (index : ProgramSymbolIndex) (symbol : string) : nat :=
  match spawnSitesByEntry index !! symbol with Some s => es_instanceCount s | None => 0 end.

Definition spawnedInLoop (index : ProgramSymbolIndex) (symbol : string) : bool :=
  match spawnSitesByEntry index !! symbol with Some s => es_insideLoop s | None => false end.

Definition appearsInSeveralUnits (index : ProgramSymbolIndex) (symbol : string) : bool :=
  match unitsByFunction index !! symbol with Some u => fu_several u | None => false end.

Definition index_programCreatesThreads (index : ProgramSymbolIndex) : bool :=
  negb (bool_decide (spawnSitesByEntry index = ∅)).

Definition programReapsChildren (index : ProgramSymbolIndex) : bool := reapsChildren index.

Definition isDefinedSomewhere (index : ProgramSymbolIndex) (symbol : string) : bool :=
  bool_decide (symbol ∈ indexDefinedGlobals index).

Definition lockSummaryFor (index : ProgramSymbolIndex) (symbol : string)
  : option (list ParameterLockEffect) := lockSummariesBySymbol index !! symbol.

Definition resolvesHandleElsewhere (index : ProgramSymbolIndex) (symbol : string) : bool :=
  bool_decide (symbol ∈ resolvedHandleSymbols index).

Definition joinedParametersOf (index : ProgramSymbolIndex) (symbol : string)
  : option (list JoinedParameter) := joiningHelpersBySymbol index !! symbol.

Definition index_empty (index : ProgramSymbolIndex) : bool :=
  bool_decide (spawnSitesByEntry index = ∅) && bool_decide (indexDefinedGlobals index = ∅)
  && bool_decide (dom (lockSummariesBySymbol index) = ∅).

(** ** The second-pass gate *)

Section gate.
Context `{!HashOrder} (facts : TUFacts) (index : ProgramSymbolIndex) (channels : CrossUnitChannels).

(** A handle this unit creates is resolved by another. *)
Definition createsResolvedHandle (fact : ThreadLifecycleFact) : bool :=
  if negb (bool_decide (tl_action fact = ThreadLifecycleAction_Create)) then false
  else match handleSymbolsByGroupId (program facts) !! tl_handleGroupId fact with
       | Some symbol => resolvesHandleElsewhere index symbol
       | None => false
       end.

(** An entry this unit defines is spawned more often, or in a loop, elsewhere. *)
Definition entryChanges (item : string * string) : bool :=
  if bool_decide (item.2 ∈ declaredFunctions (program facts)) || negb (isThreadEntry index item.2)
  then false
  else match entryConcurrency facts !! item.1 with
       | None => true
       | Some info =>
           (staticSpawnCount info <? spawnCount index item.2)
           || (spawnedInLoop index item.2 && negb (hasSpawnInLoop info))
       end.

Definition changesByChannels : bool :=
  let p := program facts in
  if ch_externGlobals channels
     && existsb (isDefinedSomewhere index) (elements (declaredGlobals p)) then true
  else if ch_programThreads channels && negb (bool_decide (length (processForks facts) = 0))
          && negb (programCreatesThreads facts) && index_programCreatesThreads index then true
  else if ch_programReaps channels && negb (bool_decide (length (processForks facts) = 0))
          && negb (reapsChildProcesses facts) && programReapsChildren index then true
  else if ch_resolvedHandles channels
          && existsb createsResolvedHandle (threadLifecycles facts) then true
  else if ch_helperLockEffects channels
          && existsb (λ f, bool_decide (is_Some (lockSummaryFor index f)))
               (elements (declaredFunctions p)) then true
  else if ch_helperJoins channels
          && existsb (λ f, bool_decide (is_Some (joinedParametersOf index f)))
               (elements (declaredFunctions p)) then true
  else if negb (ch_entryConcurrency channels) then false
  else if existsb (appearsInSeveralUnits index) (elements (settlingFunctions p)) then true
  else existsb entryChanges (hash_items (functionSymbolsById p)).
End gate.

Definition crossTUChangesFacts `{!HashOrder} (facts : TUFacts) (index : ProgramSymbolIndex)
    (selection : FactSelection) : bool :=
  changesByChannels facts index (sel_channels selection).

(** ** What the units say, as relations

    Each answer of the index is characterised by the facts of the units, with no
    reference to the order they were added in. *)

Definition symbolOf (facts : TUFacts) (id : string) : option string :=
  functionSymbolsById (program facts) !! id.

Definition showsFunction (facts : TUFacts) (symbol : string) : Prop :=
  ∃ id, symbolOf facts id = Some symbol.

(** A helper the unit defines, with a summary in [m]. *)
Definition publishes {A} (m : gmap string A) (facts : TUFacts) (symbol : string) : Prop :=
  symbol ∉ declaredFunctions (program facts) ∧
  ∃ id value, m !! id = Some value ∧ symbolOf facts id = Some symbol.

Definition resolvesHandle (facts : TUFacts) (symbol : string) : Prop :=
  ∃ group, group ∈ resolvedGlobalHandleIds facts ∧
    handleSymbolsByGroupId (program facts) !! group = Some symbol.

Definition spawnsEntry (facts : TUFacts) (symbol : string) : Prop :=
  ∃ id info, entryConcurrency facts !! id = Some info ∧ symbolOf facts id = Some symbol.

Definition spawnsInLoop (facts : TUFacts) (symbol : string) : Prop :=
  ∃ id info, entryConcurrency facts !! id = Some info ∧ symbolOf facts id = Some symbol ∧
    hasSpawnInLoop info = true.

Definition spawnContribution (facts : TUFacts) (symbol : string)
    (item : string * EntryConcurrencyInfo) : nat :=
  if decide (symbolOf facts item.1 = Some symbol) then staticSpawnCount item.2 else 0.

(** The instances of an entry one unit starts. *)
Definition unitSpawns (facts : TUFacts) (symbol : string) : nat :=
  sum_list (spawnContribution facts symbol <$> map_to_list (entryConcurrency facts)).

(** ** Lemmas on the loops of [addUnit] *)

(** [E s u]: unit [u] was seen showing function [s]. *)
Definition units_ok (m : gmap string FunctionUnits) (E : string → nat → Prop) : Prop :=
  ∀ s, match m !! s with
       | None => ∀ u, ¬ E s u
       | Some seen => E s (fu_first seen) ∧
           (fu_several seen = true ↔ ∃ u, u ≠ fu_first seen ∧ E s u)
       end.

Lemma units_ok_ext m E E' : (∀ s u, E s u ↔ E' s u) → units_ok m E → units_ok m E'.
Proof.
  intros HE Hm s. specialize (Hm s). destruct (m !! s) as [seen|].
  - by setoid_rewrite <-HE.
  - intros u. rewrite <-HE. apply Hm.
Qed.

Lemma units_ok_show m E unit item :
  units_ok m E → units_ok (showFunction unit m item) (λ s u, E s u ∨ (s = item.2 ∧ u = unit)).
Proof.
  intros Hm s. unfold showFunction. pose proof (Hm s) as Hs.
  destruct (decide (s = item.2)) as [->|Hne].
  - destruct (m !! item.2) as [seen|] eqn:E1.
    + destruct Hs as [Hf Hsev]. case_bool_decide as Hu.
      * rewrite lookup_insert_eq. simpl. split; [by left|].
        split; [|done]. intros _. exists unit. auto.
      * rewrite E1. split; [by left|]. rewrite Hsev. split.
        -- intros (u & ? & ?). exists u. auto.
        -- intros (u & ? & [?|[_ ->]]); [eauto|done].
    + rewrite lookup_insert_eq. simpl. split; [by right|]. split; [done|].
      intros (u & ? & [Hu|[_ ->]]); [by apply Hs in Hu|done].
  - assert (match m !! item.2 with
       | Some seen => if bool_decide (fu_first seen ≠ unit)
           then <[item.2 := MkFunctionUnits (fu_first seen) true]> m else m
       | None => <[item.2 := MkFunctionUnits unit false]> m end !! s = m !! s) as ->.
    { repeat case_match; by rewrite ?lookup_insert_ne. }
    destruct (m !! s) as [seen|].
    + destruct Hs as [Hf ->]. split; [by left|]. split.
      * intros (u & ? & ?). eauto.
      * intros (u & ? & [?|[? _]]); [eauto|done].
    + intros u [?|[? _]]; [by eapply Hs|done].
Qed.

Lemma units_ok_fold unit items m E :
  units_ok m E →
  units_ok (foldl (showFunction unit) m items)
    (λ s u, E s u ∨ (u = unit ∧ ∃ id, (id, s) ∈ items)).
Proof.
  intros Hm. induction items as [|[id s0] items IH] using rev_ind.
  { eapply units_ok_ext; [|exact Hm]. intros s u. split; [by left|].
    intros [?|[_ [id []%elem_of_nil]]]; done. }
  rewrite foldl_snoc. eapply units_ok_ext; [|by apply units_ok_show]. intros s u. simpl.
  setoid_rewrite elem_of_app. setoid_rewrite list_elem_of_singleton. split.
  - intros [[?|[-> [id' ?]]]|[-> ->]]; [by left|right; split; [done|]; eauto..].
  - intros [?|[-> [id' [?|[= -> ->]]]]]; [auto|left; right; eauto|by right].
Qed.

Lemma publishHelper_fold {A} (facts : TUFacts) (items : list (string * A)) m s :
  is_Some (foldl (publishHelper (program facts)) m items !! s) ↔
  is_Some (m !! s) ∨ (s ∉ declaredFunctions (program facts) ∧
    ∃ id value, (id, value) ∈ items ∧ symbolOf facts id = Some s).
Proof.
  induction items as [|[id value] items IH] using rev_ind.
  { split; [by left|]. by intros [?|(_ & ? & ? & []%elem_of_nil & _)]. }
  rewrite foldl_snoc. set (m' := foldl _ _ items) in *.
  transitivity (is_Some (m' !! s) ∨
    (s ∉ declaredFunctions (program facts) ∧ symbolOf facts id = Some s)).
  - unfold publishHelper. simpl. fold (symbolOf facts id).
    destruct (symbolOf facts id) as [s'|] eqn:E; [|naive_solver].
    case_bool_decide as Hd.
    { split; [by left|]. intros [?|[? [= ->]]]; done. }
    unfold emplace. destruct (m' !! s') as [v|] eqn:E'.
    + split; [by left|]. intros [?|[_ [= ->]]]; [done|]. by rewrite E'.
    + destruct (decide (s' = s)) as [->|Hne].
      * rewrite lookup_insert_eq. split; [by right|done].
      * rewrite lookup_insert_ne by done. split; [by left|]. intros [?|[_ [= ->]]]; done.
  - rewrite IH. setoid_rewrite elem_of_app. setoid_rewrite list_elem_of_singleton. split.
    + intros [[?|(? & id' & v & ? & ?)]|[? ?]]; [by left|right; split; [done|]; exists id', v; auto|].
      right. split; [done|]. exists id, value. auto.
    + intros [?|(? & id' & v & [?|[= -> ->]] & ?)]; [auto|left; right; eauto 6|by right].
Qed.

Lemma resolveHandle_fold facts groups X s :
  s ∈ foldl (resolveHandle (program facts)) X groups ↔
  s ∈ X ∨ ∃ group, group ∈ groups ∧ handleSymbolsByGroupId (program facts) !! group = Some s.
Proof.
  induction groups as [|g groups IH] using rev_ind.
  { split; [by left|]. by intros [?|(? & []%elem_of_nil & _)]. }
  rewrite foldl_snoc. setoid_rewrite elem_of_app. setoid_rewrite list_elem_of_singleton.
  set (X' := foldl _ _ groups) in *. transitivity (s ∈ X' ∨ handleSymbolsByGroupId (program facts) !! g = Some s).
  - unfold resolveHandle. destruct (_ !! g) as [s'|]; [|naive_solver].
    rewrite elem_of_union, elem_of_singleton. naive_solver.
  - rewrite IH. naive_solver.
Qed.

Lemma sum_list_snoc (l : list nat) x : sum_list (l ++ [x]) = sum_list l + x.
Proof. induction l as [|y l IH]; simpl in *; lia. Qed.

Definition spawnsAt (m : gmap string EntrySpawns) (s : string) : EntrySpawns :=
  default (MkEntrySpawns 0 false) (m !! s).

Lemma countSpawns_fold facts items m s :
  let m' := foldl (countSpawns (program facts)) m items in
  es_instanceCount (spawnsAt m' s) =
    es_instanceCount (spawnsAt m s) + sum_list (spawnContribution facts s <$> items) ∧
  (es_insideLoop (spawnsAt m' s) = true ↔ es_insideLoop (spawnsAt m s) = true ∨
    ∃ id info, (id, info) ∈ items ∧ symbolOf facts id = Some s ∧ hasSpawnInLoop info = true) ∧
  (is_Some (m' !! s) ↔ is_Some (m !! s) ∨
    ∃ id info, (id, info) ∈ items ∧ symbolOf facts id = Some s).
Proof.
  cbv zeta. induction items as [|[id info] items IH] using rev_ind.
  { simpl. split; [lia|]. split; (split; [by left|]); by intros [?|(? & ? & []%elem_of_nil & _)]. }
  rewrite foldl_snoc, fmap_app.
  set (m' := foldl _ _ items) in *. destruct IH as (IH1 & IH2 & IH3).
  setoid_rewrite elem_of_app. setoid_rewrite list_elem_of_singleton.
  change (spawnContribution facts s <$> [(id, info)]) with [spawnContribution facts s (id, info)].
  rewrite sum_list_snoc.
  unfold countSpawns, spawnContribution at 2. simpl. fold (symbolOf facts id).
  destruct (symbolOf facts id) as [s'|] eqn:Es.
  2: { rewrite decide_False by done. rewrite IH1, IH2, IH3. split; [lia|].
       split; (split; [intros [?|(? & ? & ? & ?)]; [by left|right; eauto 6]|]).
       - intros [?|(i & f & [?|[= -> ->]] & ? & ?)]; [by left|right; eauto 6|congruence].
       - intros [?|(i & f & [?|[= -> ->]] & ?)]; [by left|right; eauto 6|congruence]. }
  unfold spawnsAt in *. destruct (decide (s' = s)) as [->|Hne].
  - rewrite decide_True, lookup_insert_eq by done. simpl. rewrite orb_true_iff, IH1, IH2.
    split; [lia|]. split.
    + split.
      * intros [[?|(i & f & ? & ? & ?)]|?]; [by left|right; eauto 7|right; exists id, info; auto].
      * intros [?|(i & f & [?|[= -> ->]] & ? & ?)]; [auto|left; right; eauto 7|by right].
    + split; [|done]. intros _. right. exists id, info. auto.
  - rewrite decide_False, lookup_insert_ne by congruence. rewrite IH1, IH2, IH3. split; [lia|].
    split; (split; [intros [?|(? & ? & ? & ?)]; [by left|right; eauto 6]|]).
    + intros [?|(i & f & [?|[= -> ->]] & ? & ?)]; [by left|right; eauto 6|congruence].
    + intros [?|(i & f & [?|[= -> ->]] & ?)]; [by left|right; eauto 6|congruence].
Qed.

(** ** The index of a list of units *)

(** A unit of the program of which [P] holds. *)
Definition some_unit (units : list (nat * TUFacts)) (P : TUFacts → Prop) : Prop :=
  ∃ u, u ∈ units ∧ P u.2.

Lemma some_unit_snoc units unit P : some_unit (units ++ [unit]) P ↔ some_unit units P ∨ P unit.2.
Proof.
  unfold some_unit. setoid_rewrite elem_of_app. setoid_rewrite list_elem_of_singleton. split.
  - intros (u & [?| ->] & ?); eauto.
  - intros [(u & ? & ?)|?]; eauto.
Qed.

Record index_ok (units : list (nat * TUFacts)) (index : ProgramSymbolIndex) : Prop := {
  io_defined : ∀ s, s ∈ indexDefinedGlobals index ↔
    some_unit units (λ f, s ∈ definedGlobals (program f));
  io_units : units_ok (unitsByFunction index) (λ s n, ∃ f, (n, f) ∈ units ∧ showsFunction f s);
  io_locks : ∀ s, is_Some (lockSummariesBySymbol index !! s) ↔
    some_unit units (λ f, publishes (lockWrapperSummaries f) f s);
  io_joins : ∀ s, is_Some (joiningHelpersBySymbol index !! s) ↔
    some_unit units (λ f, publishes (joiningHelpers f) f s);
  io_resolved : ∀ s, s ∈ resolvedHandleSymbols index ↔ some_unit units (λ f, resolvesHandle f s);
  io_reaps : reapsChildren index = true ↔ some_unit units (λ f, reapsChildProcesses f = true);
  io_count : ∀ s, es_instanceCount (spawnsAt (spawnSitesByEntry index) s) =
    sum_list ((λ u, unitSpawns u.2 s) <$> units);
  io_loop : ∀ s, es_insideLoop (spawnsAt (spawnSitesByEntry index) s) = true ↔
    some_unit units (λ f, spawnsInLoop f s);
  io_entry : ∀ s, is_Some (spawnSitesByEntry index !! s) ↔ some_unit units (λ f, spawnsEntry f s);
}.

Lemma sum_list_perm (l l' : list nat) : l ≡ₚ l' → sum_list l = sum_list l'.
Proof. induction 1; simpl in *; lia. Qed.

Lemma index_ok_addUnit `{!HashOrder} units index unit :
  index_ok units index → index_ok (units ++ [unit]) (addUnit unit.1 unit.2 index).
Proof.
  intros []. destruct unit as [n f]. unfold addUnit. simpl. split; simpl.
  - intros s. rewrite some_unit_snoc, elem_of_union. simpl. by rewrite <-io_defined0.
  - eapply units_ok_ext; [|by apply units_ok_fold]. intros s u. simpl.
    setoid_rewrite elem_of_hash_items. setoid_rewrite elem_of_app.
    setoid_rewrite list_elem_of_singleton. split.
    + intros [(f' & ? & ?)|[-> ?]]; eauto.
    + intros (f' & [?|[= -> ->]] & ?); eauto.
  - intros s. rewrite publishHelper_fold, some_unit_snoc, io_locks0. simpl. unfold publishes at 2.
    by setoid_rewrite elem_of_hash_items.
  - intros s. rewrite publishHelper_fold, some_unit_snoc, io_joins0. simpl. unfold publishes at 2.
    by setoid_rewrite elem_of_hash_items.
  - intros s. rewrite resolveHandle_fold, some_unit_snoc, io_resolved0. simpl.
    unfold resolvesHandle at 2. by setoid_rewrite elem_of_elements.
  - by rewrite orb_true_iff, some_unit_snoc, io_reaps0.
  - intros s. destruct (countSpawns_fold f (hash_items (entryConcurrency f))
      (spawnSitesByEntry index) s) as (-> & _ & _).
    rewrite io_count0, fmap_app. simpl. rewrite sum_list_snoc. f_equal. unfold unitSpawns.
    apply sum_list_perm. by rewrite hash_items_perm.
  - intros s. destruct (countSpawns_fold f (hash_items (entryConcurrency f))
      (spawnSitesByEntry index) s) as (_ & -> & _).
    rewrite some_unit_snoc, io_loop0. simpl. unfold spawnsInLoop at 2.
    by setoid_rewrite elem_of_hash_items.
  - intros s. destruct (countSpawns_fold f (hash_items (entryConcurrency f))
      (spawnSitesByEntry index) s) as (_ & _ & ->).
    rewrite some_unit_snoc, io_entry0. simpl. unfold spawnsEntry at 2.
    by setoid_rewrite elem_of_hash_items.
Qed.

Lemma index_ok_indexOf `{!HashOrder} units : index_ok units (indexOf units).
Proof.
  unfold indexOf. induction units as [|unit units IH] using rev_ind.
  - assert (∀ P, ¬ some_unit [] P) as Hno by (intros P (u & []%elem_of_nil & _)).
    assert (∀ A s (P : TUFacts → Prop), is_Some ((∅ : gmap string A) !! s) ↔ some_unit [] P) as Hnone.
    { intros A s P. rewrite lookup_empty. split; [by intros []|by intros []%Hno]. }
    split; simpl; try done; intros.
    + split; [by intros []%elem_of_empty|by intros []%Hno].
    + intros s. rewrite lookup_empty. by intros u (f & []%elem_of_nil & _).
    + split; [by intros []%elem_of_empty|by intros []%Hno].
    + split; [done|by intros []%Hno].
    + unfold spawnsAt. rewrite lookup_empty. split; [done|by intros []%Hno].
  - rewrite foldl_snoc. by apply index_ok_addUnit.
Qed.

(** ** Lemmas on the queries *)

Lemma spawnCount_spec index s : spawnCount index s = es_instanceCount (spawnsAt (spawnSitesByEntry index) s).
Proof. unfold spawnCount, spawnsAt. by destruct (_ !! s). Qed.

Lemma spawnedInLoop_spec index s :
  spawnedInLoop index s = es_insideLoop (spawnsAt (spawnSitesByEntry index) s).
Proof. unfold spawnedInLoop, spawnsAt. by destruct (_ !! s). Qed.

Lemma appearsInSeveralUnits_spec units index s :
  index_ok units index →
  appearsInSeveralUnits index s = true ↔
  ∃ n n' f f', n ≠ n' ∧ (n, f) ∈ units ∧ (n', f') ∈ units ∧ showsFunction f s ∧ showsFunction f' s.
Proof.
  intros Hok. unfold appearsInSeveralUnits. pose proof (io_units _ _ Hok s) as Hs.
  destruct (unitsByFunction index !! s) as [seen|].
  - destruct Hs as [(f & Hf & Hsf) ->]. split.
    + intros (u & Hu & f' & ? & ?). exists (fu_first seen), u, f, f'. auto.
    + intros (n & n' & f1 & f2 & Hne & H1 & H2 & S1 & S2).
      destruct (decide (n = fu_first seen)) as [->|].
      * exists n'. eauto.
      * exists n. eauto.
  - split; [done|]. intros (n & n' & f & f' & _ & Hin & _ & Hsf & _). exfalso. eapply Hs. eauto.
Qed.

(** Two indexes that answer every query of the gate alike. *)
Record same_answers (i j : ProgramSymbolIndex) : Prop := {
  sa_defined : ∀ s, isDefinedSomewhere i s = isDefinedSomewhere j s;
  sa_several : ∀ s, appearsInSeveralUnits i s = appearsInSeveralUnits j s;
  sa_locks : ∀ s, is_Some (lockSummaryFor i s) ↔ is_Some (lockSummaryFor j s);
  sa_joins : ∀ s, is_Some (joinedParametersOf i s) ↔ is_Some (joinedParametersOf j s);
  sa_resolved : ∀ s, resolvesHandleElsewhere i s = resolvesHandleElsewhere j s;
  sa_reaps : programReapsChildren i = programReapsChildren j;
  sa_threads : index_programCreatesThreads i = index_programCreatesThreads j;
  sa_entry : ∀ s, isThreadEntry i s = isThreadEntry j s;
  sa_count : ∀ s, spawnCount i s = spawnCount j s;
  sa_loop : ∀ s, spawnedInLoop i s = spawnedInLoop j s;
}.

Lemma bool_iff (b c : bool) : (b = true ↔ c = true) → b = c.
Proof. destruct b, c; intuition congruence. Qed.

Lemma some_unit_perm units units' P : units ≡ₚ units' → some_unit units P ↔ some_unit units' P.
Proof. intros Hp. unfold some_unit. by setoid_rewrite Hp. Qed.

Lemma index_programCreatesThreads_spec i :
  index_programCreatesThreads i = true ↔ ∃ s, is_Some (spawnSitesByEntry i !! s).
Proof.
  unfold index_programCreatesThreads. rewrite negb_true_iff, bool_decide_eq_false. split.
  - intros (s & x & H)%map_choose. eauto.
  - intros (s & x & H) E. by rewrite E, lookup_empty in H.
Qed.

Lemma same_answers_perm units units' i j :
  units ≡ₚ units' → index_ok units i → index_ok units' j → same_answers i j.
Proof.
  intros Hp Hi Hj. split.
  - intros s. apply bool_decide_ext.
    rewrite (io_defined _ _ Hi), (io_defined _ _ Hj). by apply some_unit_perm.
  - intros s. apply bool_iff. rewrite (appearsInSeveralUnits_spec units), (appearsInSeveralUnits_spec units') by done.
    by setoid_rewrite Hp.
  - intros s. unfold lockSummaryFor. rewrite (io_locks _ _ Hi), (io_locks _ _ Hj). by apply some_unit_perm.
  - intros s. unfold joinedParametersOf. rewrite (io_joins _ _ Hi), (io_joins _ _ Hj). by apply some_unit_perm.
  - intros s. apply bool_decide_ext.
    rewrite (io_resolved _ _ Hi), (io_resolved _ _ Hj). by apply some_unit_perm.
  - apply bool_iff. unfold programReapsChildren. rewrite (io_reaps _ _ Hi), (io_reaps _ _ Hj).
    by apply some_unit_perm.
  - apply bool_iff. rewrite !index_programCreatesThreads_spec.
    setoid_rewrite (io_entry _ _ Hi). setoid_rewrite (io_entry _ _ Hj).
    apply exist_proper. intros s. by apply some_unit_perm.
  - intros s. apply bool_decide_ext. rewrite (io_entry _ _ Hi), (io_entry _ _ Hj). by apply some_unit_perm.
  - intros s. rewrite !spawnCount_spec, (io_count _ _ Hi), (io_count _ _ Hj).
    apply sum_list_perm. by rewrite Hp.
  - intros s. apply bool_iff. rewrite !spawnedInLoop_spec, (io_loop _ _ Hi), (io_loop _ _ Hj).
    by apply some_unit_perm.
Qed.

Lemma existsb_ext_perm {A} (f g : A → bool) l l' :
  l ≡ₚ l' → (∀ x, f x = g x) → existsb f l = existsb g l'.
Proof.
  intros Hp Hf. apply bool_iff. rewrite !existsb_elem. setoid_rewrite Hf. by setoid_rewrite Hp.
Qed.

Lemma existsb_pointwise {A} (f g : A → bool) l : (∀ x, f x = g x) → existsb f l = existsb g l.
Proof. by apply existsb_ext_perm. Qed.

Lemma gate_same_answers (H1 H2 : HashOrder) facts i j channels :
  same_answers i j → @changesByChannels H1 facts i channels = @changesByChannels H2 facts j channels.
Proof.
  intros []. unfold changesByChannels.
  rewrite sa_threads0, sa_reaps0.
  rewrite (existsb_pointwise (isDefinedSomewhere i) (isDefinedSomewhere j)) by done.
  rewrite (existsb_pointwise (createsResolvedHandle facts i) (createsResolvedHandle facts j)).
  2: { intros f. unfold createsResolvedHandle. repeat case_match; auto. }
  rewrite (existsb_pointwise (λ f, bool_decide (is_Some (lockSummaryFor i f)))
    (λ f, bool_decide (is_Some (lockSummaryFor j f)))) by (intros; by apply bool_decide_ext).
  rewrite (existsb_pointwise (λ f, bool_decide (is_Some (joinedParametersOf i f)))
    (λ f, bool_decide (is_Some (joinedParametersOf j f)))) by (intros; by apply bool_decide_ext).
  rewrite (existsb_pointwise (appearsInSeveralUnits i) (appearsInSeveralUnits j)) by done.
  rewrite (existsb_ext_perm (entryChanges facts i) (entryChanges facts j) _
    (@hash_items H2 _ (functionSymbolsById (program facts)))).
  - done.
  - by rewrite !hash_items_perm.
  - intros item. unfold entryChanges. rewrite sa_entry0, sa_count0, sa_loop0. done.
Qed.

(** ** Properties *)

(** C33: the index answers for the whole program.  Whatever order the containers
    are iterated in, a global is known to be defined, a handle resolved, children
    reaped, an entry spawned or spawned in a loop exactly when some unit says so;
    a function appears in several units exactly when two units show it; a helper
    has a lock or join summary exactly when a unit defining it publishes one; and
    the instances of an entry are the sum of what the units start. *)
Theorem index_answers_for_the_program `{!HashOrder} units s :
  let index := indexOf units in
  (isDefinedSomewhere index s = true ↔ some_unit units (λ f, s ∈ definedGlobals (program f))) ∧
  (resolvesHandleElsewhere index s = true ↔ some_unit units (λ f, resolvesHandle f s)) ∧
  (programReapsChildren index = true ↔ some_unit units (λ f, reapsChildProcesses f = true)) ∧
  (isThreadEntry index s = true ↔ some_unit units (λ f, spawnsEntry f s)) ∧
  (spawnedInLoop index s = true ↔ some_unit units (λ f, spawnsInLoop f s)) ∧
  (appearsInSeveralUnits index s = true ↔ ∃ n n' f f', n ≠ n' ∧ (n, f) ∈ units ∧ (n', f') ∈ units ∧
     showsFunction f s ∧ showsFunction f' s) ∧
  (is_Some (lockSummaryFor index s) ↔
     some_unit units (λ f, publishes (lockWrapperSummaries f) f s)) ∧
  (is_Some (joinedParametersOf index s) ↔ some_unit units (λ f, publishes (joiningHelpers f) f s)) ∧
  spawnCount index s = sum_list ((λ u, unitSpawns u.2 s) <$> units).
Proof.
  cbv zeta. pose proof (index_ok_indexOf units) as Hok.
  unfold isDefinedSomewhere, resolvesHandleElsewhere, isThreadEntry. rewrite !bool_decide_eq_true.
  rewrite spawnedInLoop_spec, spawnCount_spec.
  do 5 (split; [apply Hok|]). split; [by apply appearsInSeveralUnits_spec|].
  do 2 (split; [apply Hok|]). apply Hok.
Qed.

(** which units are analysed a second time does not depend on the order the
    units were indexed in, nor on the iteration order of any container. *)
Theorem second_pass_order_independent (H1 H2 : HashOrder) units units' facts selection :
  units ≡ₚ units' →
  @crossTUChangesFacts H1 facts (@indexOf H1 units) selection =
  @crossTUChangesFacts H2 facts (@indexOf H2 units') selection.
Proof.
  intros Hp. apply gate_same_answers. eapply same_answers_perm; [done|apply index_ok_indexOf..].
Qed.

(** ** Sample units *)

(** A unit defining the helper [lock_it] with the given lock effect. *)
Definition helper_unit (recursive : bool) : TUFacts :=
  MkTUFacts [] [] [] [] [] [] [] [] [] [] [] false false ∅
    {["lock_it" := [MkParameterLockEffect 0 true recursive]]} ∅ ∅ ∅ ∅ ∅
    (MkProgramSymbols "abi" ∅ ∅ {["lock_it" := "lock_it"]} ∅ ∅ ∅).

(** the summary kept of a helper several units define is that of the unit
    indexed first: indexing the same two units in the other order hands callers
    another lock effect. *)
Theorem helper_summary_depends_on_order :
  let units := [(0, helper_unit false); (1, helper_unit true)] in
  let units' := [(1, helper_unit true); (0, helper_unit false)] in
  units ≡ₚ units' ∧
  lockSummaryFor (@indexOf sorted_hash_order units) "lock_it"
    = Some [MkParameterLockEffect 0 true false] ∧
  lockSummaryFor (@indexOf sorted_hash_order units') "lock_it"
    = Some [MkParameterLockEffect 0 true true].
Proof. cbv zeta. split; [apply perm_swap|]. by vm_compute. Qed.

(** ** Witnesses *)

(** A unit that calls a helper it only sees declared. *)
Definition caller_unit : TUFacts :=
  MkTUFacts [] [] [] [] [] [] [] [] [] [] [] false false ∅ ∅ ∅ ∅ ∅ ∅ ∅
    (MkProgramSymbols "abi" ∅ ∅ {["lock_it" := "lock_it"]} {["lock_it"]} ∅ ∅).

Lemma index_answers_for_the_program_witness :
  spawnCount (@indexOf sorted_hash_order [(0, helper_unit false)]) "lock_it" = 0.
Proof.
  destruct (@index_answers_for_the_program sorted_hash_order [(0, helper_unit false)] "lock_it")
    as (_ & _ & _ & _ & _ & _ & _ & _ & H).
  rewrite H. vm_compute. reflexivity.
Defined.

Lemma second_pass_order_independent_witness :
  @crossTUChangesFacts sorted_hash_order caller_unit
    (@indexOf sorted_hash_order [(0, helper_unit false); (1, caller_unit)]) everything = true.
Proof.
  rewrite (second_pass_order_independent sorted_hash_order sorted_hash_order
    [(0, helper_unit false); (1, caller_unit)] [(1, caller_unit); (0, helper_unit false)]).
  - vm_compute. reflexivity.
  - apply perm_swap.
Defined.
