(* ===== verification/SingleTU.v ===== *)
(** The analysis of one unit and the source of a project's units
    (src/coretrace_concurrency_analysis.cpp).

    LLVM is not part of the repository: a parsed module is an element of the type
    [Module], and the fact builder that walks it, the bitcode parser, the file
    system and the 64-bit digest are arguments of the definitions that use them. *)

From Stdlib Require Import ZArith.
From S2P Require Import Prelude Errors Diagnostics Facts FactQueries DataRace LockOrder MissingJoin.
From S2P Require Import Checkers ReportBuilder ProgramIndex DataRaceProps LockOrderProps MissingJoinProps.

(** ** Running the enabled checkers *)

(** The lambda [appendDiagnostics]. *)
Definition appendDiagnostics (report partialReport : DiagnosticReport) : DiagnosticReport :=
  MkReport (rep_functions report) (rep_diagnostics report ++ rep_diagnostics partialReport)
    (rep_summary report) (rep_notices report ++ rep_notices partialReport).

Definition eraseDisabled (options : AnalysisOptions) (report : DiagnosticReport)
  : DiagnosticReport :=
  MkReport (rep_functions report)
    (List.filter (λ d, isEnabled options (diag_ruleId d)) (rep_diagnostics report))
    (rep_summary report) (rep_notices report).

Definition processRulesEnabled (options : AnalysisOptions) : bool :=
  isEnabled options RuleId_ForkAfterThreadCreation
  || isEnabled options RuleId_UnreapedChildProcess
  || isEnabled options RuleId_ThreadArgumentEscapesFrame
  || isEnabled options RuleId_ThreadArgumentFreedEarly
  || isEnabled options RuleId_ThreadLocalOutlivesThread
  || isEnabled options RuleId_UnsafeSignalHandler.

Definition when_enabled (options : AnalysisOptions) (rule : RuleId)
    (run : option DiagnosticReport) (report : DiagnosticReport) : option DiagnosticReport :=
  if isEnabled options rule then appendDiagnostics report <$> run else Some report.

(** The sequence of checkers both analyses run on a unit's facts; [None] would be
    a checker that does not terminate. *)
Definition runCheckers (options : AnalysisOptions) (facts : TUFacts) : option DiagnosticReport :=
  report ← when_enabled options RuleId_DataRaceGlobal (Some (DataRaceChecker_run facts)) empty_report;
  report ← when_enabled options RuleId_DeadlockLockOrder (LockOrderAnalyzer_run facts) report;
  report ← when_enabled options RuleId_MissingJoin (MissingJoinDetector_run facts) report;
  report ← when_enabled options RuleId_ConditionWaitWithoutPredicate
             (Some (ConditionWaitChecker_run facts)) report;
  report ← when_enabled options RuleId_WeakPublicationOrdering
             (Some (PublicationOrderingChecker_run facts)) report;
  Some (if processRulesEnabled options
        then appendDiagnostics report (eraseDisabled options (ProcessLifecycleChecker_run facts))
        else report).

Section single.
Context `{!StdSort} {Module : Type}.
Context (build : Module → FactSelection → option ProgramSymbolIndex → TUFacts).

Definition SingleTU_analyze (options : AnalysisOptions) (module : Module)
  : option DiagnosticReport :=
  let selection := forRules (enabledRules options) false in
  let facts := build module selection None in
  report ← runCheckers options facts;
  Some (finalizeReport report facts (sel_accesses selection)).
End single.

(** ** The source of a project's units *)

Record FileBitcode := MkFileBitcode {
  fb_path : string;
  fb_size : N;
  fb_digest : Z;
  fb_error : CompileError;
}.

Record Unit := MkUnit {
  unit_identifier : string;
  unit_bitcode : string;
  unit_file : option FileBitcode;
}.

Abbreviation ProjectUnitSource := (list Unit).

Definition bitcodeReadError (message : string) : CompileError :=
  MkCompileError (make_error_code CompileErrc_BitcodeReadFailed) CompilePhase_IRParse message.

Definition cannotRead (path : string) (error : string) : string :=
  "cannot read bitcode from '" +:+ path +:+ "': " +:+ error.

Definition source_add (identifier bitcode : string) (units : ProjectUnitSource)
  : ProjectUnitSource := units ++ [MkUnit identifier bitcode None].

Definition bytes_of (s : string) : N := N.of_nat (String.length s).

Definition bitcodeBytes (units : ProjectUnitSource) : N :=
  foldl (λ total unit, (total + bytes_of (unit_bitcode unit))%N) 0%N units.

Section source.
(** A file read gives its bytes, or the message of the system's error. *)
Context {Module : Type} (digest : string → Z).
Context (parseBC : string → string → Module + CompileError).

Definition source_addFile (readFile : string → string + string) (identifier path : string)
    (units : ProjectUnitSource) : ProjectUnitSource :=
  let file := match readFile path with
    | inl bytes => MkFileBitcode path (bytes_of bytes) (digest bytes) no_error
    | inr error => MkFileBitcode path 0 0 (bitcodeReadError (cannotRead path error))
    end in
  units ++ [MkUnit identifier "" (Some file)].

(** The bytes a load parses, or why there are none. *)
Definition unitBytes (readFile : string → string + string) (unit : Unit) : string + CompileError :=
  match unit_file unit with
  | None => inl (unit_bitcode unit)
  | Some file =>
      if hasError (fb_error file) then inr (fb_error file)
      else match readFile (fb_path file) with
           | inr error => inr (bitcodeReadError (cannotRead (fb_path file) error))
           | inl bytes =>
               if negb (bool_decide (bytes_of bytes = fb_size file))
                  || negb (bool_decide (digest bytes = fb_digest file))
               then inr (bitcodeReadError ("bitcode in '" +:+ fb_path file +:+
                                           "' changed since the unit was added"))
               else inl bytes
           end
  end.

(** [units_.at(index)] throws out of range: [None]. *)
Definition source_load (readFile : string → string + string) (units : ProjectUnitSource)
    (index : nat) : option (Module + CompileError) :=
  unit ← units !! index;
  Some (match unitBytes readFile unit with
        | inr error => inr error
        | inl bytes => parseBC bytes (unit_identifier unit)
        end).
End source.

(** ** Lemmas *)

Lemma runCheckers_total options facts : ∃ report, runCheckers options facts = Some report.
Proof.
  unfold runCheckers, when_enabled.
  destruct (run_spec facts) as (lo & _ & -> & _).
  destruct (run_missing_join_spec facts) as (mj & -> & _).
  destruct (isEnabled options RuleId_DataRaceGlobal), (isEnabled options RuleId_DeadlockLockOrder),
    (isEnabled options RuleId_MissingJoin), (isEnabled options RuleId_ConditionWaitWithoutPredicate),
    (isEnabled options RuleId_WeakPublicationOrdering); simpl; eauto.
Qed.

(** ** Each checker reports its own rules *)

Lemma foldl_ruleId {A} (f : Diagnostic → A → Diagnostic) l d :
  (∀ d a, diag_ruleId (f d a) = diag_ruleId d) → diag_ruleId (foldl f d l) = diag_ruleId d.
Proof. intros Hf. revert d. induction l as [|a l IH]; intros d; simpl; [done|]. by rewrite IH, Hf. Qed.

Lemma when_ruleId b f d : (∀ d, diag_ruleId (f d) = diag_ruleId d) → diag_ruleId (when b f d) = diag_ruleId d.
Proof. intros Hf. unfold when. by destruct b. Qed.

Lemma emitPairDiagnostic_rule lhs rhs L R facts n sites :
  diag_ruleId (emitPairDiagnostic lhs rhs L R facts n sites) = RuleId_DataRaceGlobal.
Proof.
  unfold emitPairDiagnostic. rewrite foldl_ruleId by done.
  rewrite !when_ruleId by done. simpl. rewrite when_ruleId by done. simpl. by rewrite when_ruleId.
Qed.

Lemma emitSelfConcurrentDiagnostic_rule a entries :
  diag_ruleId (emitSelfConcurrentDiagnostic a entries) = RuleId_DataRaceGlobal.
Proof. unfold emitSelfConcurrentDiagnostic. by rewrite when_ruleId. Qed.

(** Every finding of [ds] is of [rule]. *)
Definition of_rule (rule : RuleId) (ds : list Diagnostic) : Prop :=
  ∀ d, d ∈ ds → diag_ruleId d = rule.

Lemma data_race_rule facts : of_rule RuleId_DataRaceGlobal (rep_diagnostics (DataRaceChecker_run facts)).
Proof.
  intros d (s & _ & Hd)%run_diagnostics. unfold symbolDiagnostics in Hd. case_bool_decide.
  - unfold selfConcurrentDiagnostics in Hd. case_match; [|by apply elem_of_nil in Hd].
    apply list_elem_of_singleton in Hd as ->. apply emitSelfConcurrentDiagnostic_rule.
  - apply list_elem_of_omap in Hd as ([k c] & _ & Hc). unfold conflictDiagnostic in Hc.
    case_match; [|done]. case_match. injection Hc as <-. apply emitPairDiagnostic_rule.
Qed.

Lemma lock_order_rule facts report :
  LockOrderAnalyzer_run facts = Some report → of_rule RuleId_DeadlockLockOrder (rep_diagnostics report).
Proof.
  intros Hr d Hd. destruct (run_spec facts) as (report' & cycles & Hr' & Hds & _). simplify_eq.
  rewrite Hds in Hd. apply elem_of_app in Hd as [(o & -> & _)%list_elem_of_fmap|Hd]; [done|].
  apply list_elem_of_omap in Hd as (cycle & _ & Hc). unfold cycleDiagnostic in Hc.
  do 2 (case_match; [|done]). injection Hc as <-. simpl. rewrite foldl_ruleId; [done|].
  intros d a. by rewrite when_ruleId.
Qed.

Lemma missing_join_rule facts report :
  MissingJoinDetector_run facts = Some report → of_rule RuleId_MissingJoin (rep_diagnostics report).
Proof.
  intros Hr d Hd. destruct (run_missing_join_spec facts) as (report' & Hr' & Hspec). simplify_eq.
  apply Hspec in Hd as (r & _ & _ & ->). unfold missingJoinDiagnostic. simpl.
  case_match; [done|]. by rewrite when_ruleId.
Qed.

Lemma condition_wait_rule facts :
  of_rule RuleId_ConditionWaitWithoutPredicate (rep_diagnostics (ConditionWaitChecker_run facts)).
Proof.
  intros d. unfold ConditionWaitChecker_run. rewrite emit_all_diagnostics. simpl.
  intros (f & -> & _)%list_elem_of_fmap. unfold conditionWaitDiagnostic. simpl. by rewrite when_ruleId.
Qed.

Lemma publication_rule facts :
  of_rule RuleId_WeakPublicationOrdering (rep_diagnostics (PublicationOrderingChecker_run facts)).
Proof.
  intros d. rewrite publication_diagnostics. intros (p & -> & _)%list_elem_of_fmap.
  unfold publicationDiagnostic. simpl. rewrite when_ruleId by done. by case_match.
Qed.

Definition processRules : list RuleId :=
  [RuleId_ForkAfterThreadCreation; RuleId_UnreapedChildProcess; RuleId_ThreadArgumentEscapesFrame;
   RuleId_ThreadArgumentFreedEarly; RuleId_ThreadLocalOutlivesThread; RuleId_UnsafeSignalHandler].

Lemma process_rule facts d :
  d ∈ rep_diagnostics (ProcessLifecycleChecker_run facts) → diag_ruleId d ∈ processRules.
Proof.
  rewrite process_diagnostics, !elem_of_app, !list_elem_of_fmap. unfold processRules.
  intros [Hd|[(e & -> & _)|[(e & -> & _)|[(e & -> & _)|(e & -> & _)]]]].
  - apply list_elem_of_bind in Hd as (f & Hd & _). unfold forkDiagnostics in Hd.
    destruct (fork_execReachable f); [by apply elem_of_nil in Hd|].
    apply elem_of_app in Hd as [Hd|Hd]; case_match;
      (apply list_elem_of_singleton in Hd as -> || by apply elem_of_nil in Hd); simpl; set_solver.
  - rewrite argumentEscape_rule. set_solver.
  - rewrite argumentFree_rule. set_solver.
  - simpl. set_solver.
  - simpl. set_solver.
Qed.

(** ** Selecting rules is filtering findings *)

(** What every checker finds, in the order they run. *)
Definition allFindings (facts : TUFacts) : list Diagnostic :=
  rep_diagnostics (DataRaceChecker_run facts) ++
  rep_diagnostics (default empty_report (LockOrderAnalyzer_run facts)) ++
  rep_diagnostics (default empty_report (MissingJoinDetector_run facts)) ++
  rep_diagnostics (ConditionWaitChecker_run facts) ++
  rep_diagnostics (PublicationOrderingChecker_run facts) ++
  rep_diagnostics (ProcessLifecycleChecker_run facts).

Abbreviation enabledOnly options := (List.filter (λ d, isEnabled options (diag_ruleId d))).

Lemma filter_of_rule options rule ds :
  of_rule rule ds → (if isEnabled options rule then ds else []) = enabledOnly options ds.
Proof.
  intros Hr. induction ds as [|d ds IH]; simpl; [by case_match|].
  rewrite (Hr d) by left. rewrite <-IH by (intros d' ?; apply Hr; by right). by case_match.
Qed.

Lemma filter_process options facts :
  (if processRulesEnabled options
   then enabledOnly options (rep_diagnostics (ProcessLifecycleChecker_run facts)) else []) =
  enabledOnly options (rep_diagnostics (ProcessLifecycleChecker_run facts)).
Proof.
  destruct (processRulesEnabled options) eqn:E; [done|]. symmetry.
  apply elem_of_nil_inv. intros d Hd.
  apply list_elem_of_In, List.filter_In in Hd as [Hd He]. rewrite <-list_elem_of_In in Hd.
  apply process_rule in Hd. unfold processRulesEnabled in E. rewrite !orb_false_iff in E.
  unfold processRules in Hd. rewrite !elem_of_cons, elem_of_nil in Hd.
  destruct E as (((((E1 & E2) & E3) & E4) & E5) & E6).
  destruct Hd as [Hd|[Hd|[Hd|[Hd|[Hd|[Hd|[]]]]]]]; rewrite Hd in He; congruence.
Qed.

Lemma runCheckers_findings options facts report :
  runCheckers options facts = Some report →
  rep_diagnostics report = enabledOnly options (allFindings facts).
Proof.
  unfold runCheckers, allFindings.
  destruct (run_spec facts) as (lo & _ & Hlo & _).
  destruct (run_missing_join_spec facts) as (mj & Hmj & _).
  rewrite Hlo, Hmj. simpl. rewrite !List.filter_app.
  rewrite <-(filter_of_rule options _ _ (data_race_rule facts)).
  rewrite <-(filter_of_rule options _ _ (lock_order_rule facts lo Hlo)).
  rewrite <-(filter_of_rule options _ _ (missing_join_rule facts mj Hmj)).
  rewrite <-(filter_of_rule options _ _ (condition_wait_rule facts)).
  rewrite <-(filter_of_rule options _ _ (publication_rule facts)).
  rewrite <-filter_process. unfold when_enabled.
  destruct (isEnabled options RuleId_DataRaceGlobal), (isEnabled options RuleId_DeadlockLockOrder),
    (isEnabled options RuleId_MissingJoin), (isEnabled options RuleId_ConditionWaitWithoutPredicate),
    (isEnabled options RuleId_WeakPublicationOrdering), (processRulesEnabled options);
    simpl; intros [= <-]; simpl; by rewrite <-?app_assoc, ?app_nil_r.
Qed.

Lemma process_rules_available rule : rule ∈ processRules → isEnabled allAvailable rule = true.
Proof. unfold processRules. rewrite !elem_of_cons, elem_of_nil. by intros [->|[->|[->|[->|[->|[->|[]]]]]]]. Qed.

Lemma filter_all_available facts : enabledOnly allAvailable (allFindings facts) = allFindings facts.
Proof.
  unfold allFindings.
  destruct (run_spec facts) as (lo & _ & Hlo & _).
  destruct (run_missing_join_spec facts) as (mj & Hmj & _).
  rewrite Hlo, Hmj. simpl default. rewrite !List.filter_app.
  rewrite <-(filter_of_rule _ _ _ (data_race_rule facts)),
    <-(filter_of_rule _ _ _ (lock_order_rule facts lo Hlo)),
    <-(filter_of_rule _ _ _ (missing_join_rule facts mj Hmj)),
    <-(filter_of_rule _ _ _ (condition_wait_rule facts)),
    <-(filter_of_rule _ _ _ (publication_rule facts)).
  do 5 f_equal. apply List.forallb_filter_id, forallb_elem. intros d Hd.
  by apply process_rules_available, (process_rule facts).
Qed.

(** ** Properties *)

(** selecting rules filters findings.  On a unit's facts, the findings of a
    run are exactly those of the full run whose rule is selected, in the same
    order: a rule's findings never depend on which other rules run. *)
Theorem rule_selection_filters_findings options facts report full :
  runCheckers options facts = Some report → runCheckers allAvailable facts = Some full →
  rep_diagnostics report = enabledOnly options (rep_diagnostics full).
Proof.
  intros Hr Hf. rewrite (runCheckers_findings _ _ _ Hr), (runCheckers_findings _ _ _ Hf).
  by rewrite filter_all_available.
Qed.

(** the analysis of a unit always returns a report, and every finding in it
    is of a selected rule. *)
Theorem single_unit_reports_selected_rules `{!StdSort} {Module} build options (module : Module) :
  ∃ report, SingleTU_analyze build options module = Some report ∧
    ∀ d, d ∈ rep_diagnostics report → isEnabled options (diag_ruleId d) = true.
Proof.
  unfold SingleTU_analyze. set (facts := build _ _ _).
  destruct (runCheckers_total options facts) as (r & Hr). rewrite Hr. simpl. eexists. split; [done|].
  simpl. intros d Hd. apply list_elem_of_lookup in Hd as [i Hi].
  unfold numberDiagnostics in Hi. apply list_lookup_imap_Some in Hi as (d0 & Hd0 & ->). simpl.
  apply list_elem_of_lookup_2 in Hd0. rewrite std_sort_perm in Hd0 by apply _.
  rewrite (runCheckers_findings _ _ _ Hr) in Hd0.
  apply list_elem_of_In, List.filter_In in Hd0 as [_ He]. done.
Qed.

(** A unit kept in a file is analysed on the bytes it was added with, or not
    at all: a load that succeeds parsed bytes of the size and digest recorded when
    the unit was added, and a file that could not be read then or now, or whose
    bytes differ in either, fails the load with a bitcode read error. *)
Theorem file_unit_load_is_stable {Module} digest (parseBC : string → string → Module + CompileError)
    readAtAdd readNow identifier path units :
  let units' := source_addFile digest readAtAdd identifier path units in
  match readAtAdd path, readNow path with
  | inl added, inl now =>
      source_load digest parseBC readNow units' (length units) =
        Some (if bool_decide (bytes_of now = bytes_of added ∧ digest now = digest added)
              then parseBC now identifier
              else inr (bitcodeReadError ("bitcode in '" +:+ path +:+
                                          "' changed since the unit was added")))
  | inl _, inr error | inr error, _ =>
      source_load digest parseBC readNow units' (length units) =
        Some (inr (bitcodeReadError (cannotRead path error)))
  end.
Proof.
  cbv zeta. unfold source_load, source_addFile, unitBytes.
  rewrite lookup_app_r, Nat.sub_diag by done. simpl.
  destruct (readAtAdd path) as [added|error]; simpl; [|by destruct (readNow path)].
  destruct (readNow path) as [now|error]; simpl; [|done].
  repeat case_bool_decide; simpl; tauto || (exfalso; tauto).
Qed.

(** ** Witnesses *)

Definition only_missing_join : AnalysisOptions := MkOptions [RuleId_MissingJoin] 0.

Lemma rule_selection_filters_findings_witness :
  rep_diagnostics (default empty_report (runCheckers only_missing_join leaked)) =
  enabledOnly only_missing_join
    (rep_diagnostics (default empty_report (runCheckers allAvailable leaked))).
Proof.
  apply (rule_selection_filters_findings only_missing_join leaked); vm_compute; reflexivity.
Defined.

Lemma single_unit_reports_selected_rules_witness :
  ∃ report, @SingleTU_analyze merge_std_sort unit (λ _ _ _, leaked) only_missing_join tt = Some report ∧
    ∀ d, d ∈ rep_diagnostics report → isEnabled only_missing_join (diag_ruleId d) = true.
Proof. apply (@single_unit_reports_selected_rules merge_std_sort). Defined.

Lemma file_unit_load_is_stable_witness :
  source_load (λ s, Z.of_nat (String.length s)) (λ bytes _, inl bytes) (λ _, inl "BC")
    (source_addFile (λ s, Z.of_nat (String.length s)) (λ _, inl "BC") "u.c" "u.bc" []) 0
  = Some (inl "BC").
Proof.
  refine (eq_trans (file_unit_load_is_stable (λ s, Z.of_nat (String.length s))
    (λ bytes _, inl bytes) (λ _, inl "BC") (λ _, inl "BC") "u.c" "u.bc" []) _).
  vm_compute. reflexivity.
Defined.
