(* ===== verification/InterTU.v ===== *)
(** The project analysis (src/internal/analysis/cross_tu/inter_tu_coordinator.cpp):
    a first pass over every unit, the choice of the dominant ABI, the program
    index, a second pass over the units it changes, and the merged report.

    The thread pool runs the units of a pass in an order the code does not
    control.  Its tasks write disjoint slots and append failures under a mutex, so
    a pass is the sequence of its units in the order they complete, which the
    interface [PoolSchedule] leaves open up to permutation.  The counters of live
    units and of load time are left out here; LiveUnits.v models the former. *)

From S2P Require Import Prelude Errors Diagnostics Facts FactQueries ReportBuilder ProgramIndex.
From S2P Require Import SingleTU.

Inductive Pass := PassA | PassB.

Class PoolSchedule := {
  pool_order : Pass → list nat → list nat;
  pool_order_perm : ∀ pass tasks, pool_order pass tasks ≡ₚ tasks;
}.

Record FailedUnit := MkFailedUnit { failed_identifier : string; failed_error : CompileError }.

Record ProjectAnalysis := MkAnalysis {
  pa_report : DiagnosticReport;
  pa_skippedIncompatibleModules : list string;
  pa_reanalyzedUnitCount : nat;
  pa_failedUnits : list FailedUnit;
}.

Definition pa_complete (analysis : ProjectAnalysis) : bool :=
  match pa_failedUnits analysis with [] => true | _ :: _ => false end.

Definition diagnosticKey (d : Diagnostic) : string :=
  diag_id d +:+ "|" +:+ loc_file (diag_location d) +:+ ":" +:+
  pretty (loc_line (diag_location d)) +:+ ":" +:+ pretty (loc_column (diag_location d)) +:+ "|" +:+
  diag_message d.

(** [failed], [factsByUnit] and [failures] of the source. *)
Record UnitTable := MkUnitTable {
  ut_failed : list bool;
  ut_facts : list TUFacts;
  ut_failures : list (nat * FailedUnit);
}.

Definition factsAt (table : UnitTable) (index : nat) : TUFacts :=
  default no_facts (ut_facts table !! index).

Definition failedAt (table : UnitTable) (index : nat) : bool :=
  default false (ut_failed table !! index).

(** ** The dominant ABI *)

Definition countAbi (table : UnitTable) (counts : gmap string nat) (index : nat)
  : gmap string nat :=
  if failedAt table index then counts
  else let abi := abiKey (program (factsAt table index)) in
       <[abi := S (default 0 (counts !! abi))]> counts.

Definition unitCountByAbi (table : UnitTable) (unitCount : nat) : gmap string nat :=
  foldl (countAbi table) ∅ (seq 0 unitCount).

(** [std::max_element] over a map: the first of the entries with the largest count. *)
Definition maxElement (items : list (string * nat)) : option (string * nat) :=
  foldl (λ best item,
      match best with
      | None => Some item
      | Some largest => if largest.2 <? item.2 then Some item else best
      end) None items.

(** ** Merging the reports of the units *)

Record MergeState := MkMerge {
  ms_report : DiagnosticReport;
  ms_reported : gset string;
}.

Definition mergeDiagnostic (st : MergeState) (d : Diagnostic) : MergeState :=
  if bool_decide (diagnosticKey d ∈ ms_reported st) then st
  else MkMerge (emit (ms_report st) d) ({[diagnosticKey d]} ∪ ms_reported st).

Definition mergeNotice (report : DiagnosticReport) (n : AnalysisNotice) : DiagnosticReport :=
  if bool_decide (n ∈ rep_notices report) then report
  else MkReport (rep_functions report) (rep_diagnostics report) (rep_summary report)
         (rep_notices report ++ [n]).

Definition mergeReport (st : MergeState) (moduleReport : DiagnosticReport) : MergeState :=
  let st := foldl mergeDiagnostic st (rep_diagnostics moduleReport) in
  let report := foldl mergeNotice (ms_report st) (rep_notices moduleReport) in
  MkMerge (MkReport (rep_functions report ++ rep_functions moduleReport) (rep_diagnostics report)
             (rep_summary report) (rep_notices report)) (ms_reported st).

Section coordinator.
Context `{!StdSort, !HashOrder, !PoolSchedule} {Module : Type}.
Context (build : Module → FactSelection → option ProgramSymbolIndex → TUFacts).
(** What loading a unit gives in each pass: a file may change between the two. *)
Context (load : Pass → nat → Module + CompileError).
Context (identifier : nat → string) (unitCount : nat) (options : AnalysisOptions).

Definition selection : FactSelection := forRules (enabledRules options) true.

Definition analyseUnit (pass : Pass) (index : ProgramSymbolIndex) (table : UnitTable) (unit : nat)
  : UnitTable :=
  match load pass unit with
  | inr error =>
      MkUnitTable (<[unit := true]> (ut_failed table)) (<[unit := no_facts]> (ut_facts table))
        (ut_failures table ++ [(unit, MkFailedUnit (identifier unit) error)])
  | inl module =>
      MkUnitTable (ut_failed table) (<[unit := build module selection (Some index)]> (ut_facts table))
        (ut_failures table)
  end.

Definition runPass (pass : Pass) (index : ProgramSymbolIndex) (tasks : list nat)
    (table : UnitTable) : UnitTable :=
  foldl (analyseUnit pass index) table (pool_order pass tasks).

Definition newTable : UnitTable :=
  MkUnitTable (replicate unitCount false) (replicate unitCount no_facts) [].

Definition tableA : UnitTable := runPass PassA nothingKnownYet (seq 0 unitCount) newTable.

Definition loadedUnits : list nat := List.filter (λ u, negb (failedAt tableA u)) (seq 0 unitCount).

Definition compatibleUnits (dominantAbi : string) : list nat :=
  List.filter (λ u, bool_decide (abiKey (program (factsAt tableA u)) = dominantAbi)) loadedUnits.

Definition skippedUnits (dominantAbi : string) : list nat :=
  List.filter (λ u, negb (bool_decide (abiKey (program (factsAt tableA u)) = dominantAbi)))
    loadedUnits.

Definition programIndex (compatible : list nat) : ProgramSymbolIndex :=
  indexOf ((λ u, (u, factsAt tableA u)) <$> compatible).

Definition reanalyzedUnits (compatible : list nat) : list nat :=
  List.filter (λ u, crossTUChangesFacts (factsAt tableA u) (programIndex compatible) selection)
    compatible.

Definition tableB (compatible : list nat) : UnitTable :=
  runPass PassB (programIndex compatible) (reanalyzedUnits compatible) tableA.

(** The units whose findings reach the report. *)
Definition contributingUnits (compatible : list nat) : list nat :=
  List.filter (λ u, negb (failedAt (tableB compatible) u)) compatible.

Definition failure_lt (x y : nat * FailedUnit) : bool := x.1 <? y.1.

Definition mergeUnit (table : UnitTable) (acc : option MergeState) (unit : nat)
  : option MergeState :=
  st ← acc;
  let facts := factsAt table unit in
  moduleReport ← runCheckers options facts;
  Some (mergeReport st (finalizeReport moduleReport facts (sel_accesses selection))).

Definition mergedState (table : UnitTable) (units : list nat) : option MergeState :=
  foldl (mergeUnit table) (Some (MkMerge empty_report ∅)) units.

Definition with_summary (report : DiagnosticReport) : DiagnosticReport :=
  MkReport (rep_functions report) (rep_diagnostics report)
    (computeSummary (rep_diagnostics report)) (rep_notices report).

Definition InterTU_analyze : option ProjectAnalysis :=
  if bool_decide (unitCount = 0) then Some (MkAnalysis empty_report [] 0 [])
  else
    match maxElement (map_items (unitCountByAbi tableA unitCount)) with
    | None =>
        Some (MkAnalysis empty_report [] 0 (ut_failures tableA).*2)
    | Some (dominantAbi, _) =>
        let compatible := compatibleUnits dominantAbi in
        let table := tableB compatible in
        st ← mergedState table (contributingUnits compatible);
        Some (MkAnalysis (with_summary (ms_report st))
                (identifier <$> skippedUnits dominantAbi)
                (length (reanalyzedUnits compatible))
                (std_sort failure_lt (ut_failures table)).*2)
    end.
End coordinator.
