(* ===== verification/InterTUProps.v ===== *)
(** Theorems on the project analysis of InterTU.v: it ends, accounts for every
    unit, does not depend on how the pool schedules its tasks once a unit loads,
    chooses the largest ABI group, and merges the findings of the units without
    repeating a key; and the two places where the merge and the early return do
    not do what their comments say. *)

From S2P Require Import Prelude Errors Diagnostics Facts FactQueries Checkers ReportBuilder ProgramIndex.
From S2P Require Import SingleTU InterTU.

(** ** Tables that differ in the order of failures only *)

Definition table_equiv (T T' : UnitTable) : Prop :=
  ut_failed T = ut_failed T' ∧ ut_facts T = ut_facts T' ∧ ut_failures T ≡ₚ ut_failures T'.

#[global] Instance table_equiv_equivalence : Equivalence table_equiv.
Proof.
  split.
  - by intros T.
  - intros T T' (? & ? & ?). by repeat split.
  - intros T1 T2 T3 (? & ? & ?) (? & ? & ?). repeat split; by etrans.
Qed.

#[global] Instance failedAt_proper : Proper (table_equiv ==> eq ==> eq) failedAt.
Proof. intros T T' (H & _ & _) u ? <-. unfold failedAt. by rewrite H. Qed.

#[global] Instance factsAt_proper : Proper (table_equiv ==> eq ==> eq) factsAt.
Proof. intros T T' (_ & H & _) u ? <-. unfold factsAt. by rewrite H. Qed.

Lemma filter_ext_bool {A} (f g : A → bool) l :
  (∀ x, x ∈ l → f x = g x) → List.filter f l = List.filter g l.
Proof.
  induction l as [|x l IH]; intros H; simpl; [done|].
  rewrite (H x) by left. rewrite IH by (intros; apply H; by right). done.
Qed.

Lemma NoDup_filter_bool {A} (f : A → bool) l : NoDup l → NoDup (List.filter f l).
Proof.
  intros H. induction H as [|x l Hx _ IH]; simpl; [constructor|].
  case_match; [|done]. constructor; [|done]. rewrite elem_of_filter_bool. tauto.
Qed.

Lemma filter_filter_bool {A} (f g : A → bool) l :
  List.filter f (List.filter g l) = List.filter (λ x, g x && f x) l.
Proof. induction l as [|x l IH]; simpl; [done|]. destruct (g x); simpl; by rewrite IH. Qed.

(** A fold whose steps commute up to an equivalence, over a permuted list. *)
Lemma foldl_perm {A B} (R : relation B) `{!Equivalence R} (f : B → A → B) l l' :
  (∀ a, Proper (R ==> R) (λ b, f b a)) → (∀ b x y, R (f (f b x) y) (f (f b y) x)) →
  l ≡ₚ l' → ∀ b b', R b b' → R (foldl f b l) (foldl f b' l').
Proof.
  intros Hf Hc. induction 1 as [|x l l' _ IH|x y l|l1 l2 l3 _ IH1 _ IH2]; intros b b' Hb; simpl.
  - done.
  - apply IH. by apply (Hf x).
  - assert (R (f (f b y) x) (f (f b' x) y)) as Hxy.
    { etrans; [apply Hc|]. by apply (Hf y), (Hf x). }
    clear -Hxy Hf. revert Hxy. generalize (f (f b y) x) (f (f b' x) y).
    induction l as [|z l IH]; intros c c' Hcc; simpl; [done|]. apply IH. by apply (Hf z).
  - etrans; [by apply IH1|]. by apply IH2.
Qed.

Section passes.
Context {Module : Type} (build : Module → FactSelection → option ProgramSymbolIndex → TUFacts).
Context (load : Pass → nat → Module + CompileError).
Context (identifier : nat → string) (unitCount : nat) (options : AnalysisOptions).

Abbreviation analyse := (analyseUnit build load identifier options).

Lemma analyse_proper pass index u : Proper (table_equiv ==> table_equiv) (λ T, analyse pass index T u).
Proof.
  intros T T' (Hf & Hfa & Hp). unfold analyseUnit. destruct (load pass u); 
    split_and!; simpl; rewrite ?Hf, ?Hfa; try done; by rewrite Hp.
Qed.

Lemma analyse_comm pass index T u v :
  table_equiv (analyse pass index (analyse pass index T u) v)
    (analyse pass index (analyse pass index T v) u).
Proof.
  destruct (decide (u = v)) as [->|Hne]; [done|].
  unfold analyseUnit. destruct (load pass u) eqn:Eu, (load pass v) eqn:Ev; rewrite ?Eu, ?Ev;
    split_and!; simpl; try done; try (by rewrite list_insert_insert_ne).
  rewrite <-!app_assoc. apply Permutation_app_head, perm_swap.
Qed.

(** A pass gives equivalent tables whatever order its units complete in. *)
Lemma runPass_equiv (P1 P2 : PoolSchedule) pass index tasks T T' :
  table_equiv T T' →
  table_equiv (@runPass P1 _ build load identifier options pass index tasks T)
    (@runPass P2 _ build load identifier options pass index tasks T').
Proof.
  apply foldl_perm; [apply _|apply analyse_proper|apply analyse_comm|].
  by rewrite !pool_order_perm.
Qed.

(** ** What a pass leaves in the table *)

Definition loadFails (pass : Pass) (u : nat) : bool :=
  match load pass u with inl _ => false | inr _ => true end.

Definition failureOf (pass : Pass) (u : nat) : option (nat * FailedUnit) :=
  match load pass u with
  | inl _ => None
  | inr error => Some (u, MkFailedUnit (identifier u) error)
  end.

(** The facts a unit has once a pass with [index] has reached it. *)
Definition unitFacts (pass : Pass) (index : ProgramSymbolIndex) (u : nat) : TUFacts :=
  match load pass u with
  | inl module => build module (selection options) (Some index)
  | inr _ => no_facts
  end.

Lemma fold_facts_length pass index l T :
  length (ut_facts (foldl (analyse pass index) T l)) = length (ut_facts T).
Proof.
  revert T. induction l as [|u l IH]; intros T; simpl; [done|].
  rewrite IH. unfold analyseUnit. destruct (load pass u); simpl; apply length_insert.
Qed.

Lemma fold_factsAt pass index l T u :
  u < length (ut_facts T) →
  factsAt (foldl (analyse pass index) T l) u =
  if bool_decide (u ∈ l) then unitFacts pass index u else factsAt T u.
Proof.
  intros Hu. induction l as [|v l IH] using rev_ind; [done|].
  rewrite foldl_snoc. set (T' := foldl _ T l) in *.
  assert (u < length (ut_facts T')) as Hu' by (unfold T'; by rewrite fold_facts_length).
  assert (factsAt (analyse pass index T' v) u =
    if bool_decide (u = v) then unitFacts pass index u else factsAt T' u) as ->.
  { unfold analyseUnit, factsAt, unitFacts. destruct (decide (u = v)) as [<-|Huv].
    - rewrite bool_decide_true by done. destruct (load pass u); simpl; by rewrite list_lookup_insert_eq.
    - rewrite bool_decide_false by done. destruct (load pass v); simpl; by rewrite list_lookup_insert_ne by congruence. }
  rewrite IH. repeat case_bool_decide; try done; set_solver.
Qed.

Lemma fold_failures pass index l T :
  ut_failures (foldl (analyse pass index) T l) = ut_failures T ++ omap (failureOf pass) l.
Proof.
  revert T. induction l as [|u l IH]; intros T; simpl; [by rewrite app_nil_r|].
  rewrite IH. unfold analyseUnit, failureOf. destruct (load pass u); simpl; [done|].
  by rewrite <-app_assoc.
Qed.

Lemma fold_failed_length pass index l T :
  length (ut_failed (foldl (analyse pass index) T l)) = length (ut_failed T).
Proof.
  revert T. induction l as [|u l IH]; intros T; simpl; [done|].
  rewrite IH. unfold analyseUnit. destruct (load pass u); simpl; [done|]. apply length_insert.
Qed.

Lemma fold_failedAt pass index l T u :
  u < length (ut_failed T) →
  failedAt (foldl (analyse pass index) T l) u =
  failedAt T u || (bool_decide (u ∈ l) && loadFails pass u).
Proof.
  revert T. induction l as [|v l IH]; intros T Hu; [by rewrite orb_false_r|].
  change (foldl (analyse pass index) T (v :: l)) with
    (foldl (analyse pass index) (analyse pass index T v) l).
  rewrite IH by (rewrite <-(fold_failed_length pass index [v] T) in Hu; exact Hu).
  assert (failedAt (analyse pass index T v) u =
    failedAt T u || (bool_decide (u = v) && loadFails pass u)) as ->.
  { unfold analyseUnit, failedAt, loadFails. destruct (decide (u = v)) as [<-|Huv].
    - rewrite bool_decide_true by done. destruct (load pass u); simpl; [by rewrite orb_false_r|].
      by rewrite list_lookup_insert_eq, orb_true_r.
    - rewrite bool_decide_false by done. simpl. rewrite orb_false_r.
      destruct (load pass v); simpl; [done|]. by rewrite list_lookup_insert_ne. }
  assert (bool_decide (u ∈ v :: l) = bool_decide (u = v) || bool_decide (u ∈ l)) as ->.
  { apply bool_iff. rewrite orb_true_iff, !bool_decide_eq_true. apply elem_of_cons. }
  destruct (failedAt T u), (bool_decide (u = v)), (bool_decide (u ∈ l)), (loadFails pass u);
    done.
Qed.

Lemma failureOf_fst pass l u : u ∈ (omap (failureOf pass) l).*1 ↔ u ∈ l ∧ loadFails pass u = true.
Proof.
  rewrite list_elem_of_fmap. setoid_rewrite list_elem_of_omap. unfold failureOf, loadFails. split.
  - intros ([u' e] & -> & v & Hv & H). destruct (load pass v) eqn:E; [done|]. injection H as <- <-.
    simpl. by rewrite E.
  - intros [Hu H]. destruct (load pass u) as [|e] eqn:E; [done|].
    exists (u, MkFailedUnit (identifier u) e). split; [done|]. exists u. by rewrite E.
Qed.

Lemma failureOf_NoDup pass l : NoDup l → NoDup (omap (failureOf pass) l).*1.
Proof.
  induction 1 as [|u l Hu _ IH]; simpl; [constructor|].
  assert (u ∉ (omap (failureOf pass) l).*1) by (rewrite failureOf_fst; tauto).
  destruct (failureOf pass u) as [p|] eqn:E; [|done]. simpl. constructor; [|done].
  unfold failureOf in E. destruct (load pass u); [done|]. by injection E as <-.
Qed.
End passes.

(** ** Lemmas on the choice of the ABI *)

Definition abiCount (T : UnitTable) (l : list nat) (abi : string) : nat :=
  length (List.filter (λ u, negb (failedAt T u) && bool_decide (abiKey (program (factsAt T u)) = abi)) l).

Lemma countAbi_fold T l abi :
  foldl (countAbi T) ∅ l !! abi = (if bool_decide (abiCount T l abi = 0) then None else Some (abiCount T l abi)).
Proof.
  induction l as [|u l IH] using rev_ind; [done|].
  rewrite foldl_snoc. unfold abiCount in *. rewrite List.filter_app, length_app. simpl.
  unfold countAbi at 1. destruct (failedAt T u); simpl; [by rewrite Nat.add_0_r|].
  destruct (decide (abiKey (program (factsAt T u)) = abi)) as [<-|Hne].
  - rewrite lookup_insert_eq, (bool_decide_eq_true_2 (abiKey _ = abiKey _)) by done.
    simpl. rewrite IH, (bool_decide_eq_false_2 (_ + 1 = 0)) by lia. f_equal.
    case_bool_decide as H0; simpl; lia.
  - rewrite lookup_insert_ne by done. rewrite (bool_decide_eq_false_2 (_ = abi)) by done.
    simpl. by rewrite Nat.add_0_r.
Qed.

Lemma maxElement_spec items :
  match maxElement items with
  | None => items = []
  | Some best => ∃ before after, items = before ++ best :: after ∧
      (∀ item, item ∈ before → item.2 < best.2) ∧ (∀ item, item ∈ after → item.2 ≤ best.2)
  end.
Proof.
  unfold maxElement. induction items as [|item items IH] using rev_ind; [done|].
  rewrite foldl_snoc. destruct (foldl _ None items) as [best|].
  - destruct IH as (before & after & -> & H1 & H2). destruct (best.2 <? item.2) eqn:E.
    + apply Nat.ltb_lt in E. exists (before ++ best :: after), []. split_and!; [done| |].
      * intros x [Hx|[->|Hx]%elem_of_cons]%elem_of_app; [specialize (H1 x Hx); lia|done|].
        specialize (H2 x Hx). lia.
      * by intros x ?%elem_of_nil.
    + apply Nat.ltb_ge in E. exists before, (after ++ [item]). split_and!; [|done|].
      * by rewrite <-app_assoc.
      * intros x [Hx| ->%list_elem_of_singleton]%elem_of_app; auto.
  - subst items. exists [], []. split_and!; [done|by intros x ?%elem_of_nil..].
Qed.

(** In a list of strictly increasing keys, what comes earlier has a smaller key. *)
Lemma map_items_before {A} (m : gmap string A) before x after y :
  map_items m = before ++ x :: after → y ∈ after → String.le x.1 y.1.
Proof.
  intros Hm Hy. pose proof (map_items_sorted m) as Hs. rewrite Hm, fmap_app, fmap_cons in Hs.
  apply StronglySorted_app in Hs as (_ & _ & Hs). apply StronglySorted_inv in Hs as [_ Hs].
  rewrite Forall_forall in Hs. apply Hs. by apply list_elem_of_fmap_2.
Qed.

(** ** Lemmas on the whole analysis *)

Lemma failure_lt_swo : StrictWeakOrder failure_lt.
Proof. unfold failure_lt. split; intros *; rewrite ?Nat.ltb_lt, ?Nat.ltb_ge; lia. Qed.
#[global] Existing Instance failure_lt_swo.

Lemma failure_fst_inj (l : list (nat * FailedUnit)) x y :
  NoDup l.*1 → x ∈ l → y ∈ l → failure_lt y x = false → failure_lt x y = false → x = y.
Proof.
  unfold failure_lt. intros Hnd [i Hi]%list_elem_of_lookup [j Hj]%list_elem_of_lookup
    Hxy%Nat.ltb_ge Hyx%Nat.ltb_ge.
  assert (x.1 = y.1) as E by lia. assert (i = j) as ->; [|congruence].
  eapply NoDup_lookup; [exact Hnd|by rewrite list_lookup_fmap, Hi|by rewrite list_lookup_fmap, Hj, E].
Qed.

Lemma sort_failures_unique `{!StdSort} l l' :
  l ≡ₚ l' → NoDup l.*1 → std_sort failure_lt l = std_sort failure_lt l'.
Proof.
  intros Hp Hnd. apply (StronglySorted_unique_strong (λ x y, failure_lt y x = false)).
  - intros x y Hx Hy Hxy Hyx. rewrite std_sort_perm in Hx, Hy by apply _. rewrite <-Hp in Hy.
    by eapply failure_fst_inj.
  - apply std_sort_sorted, _.
  - apply std_sort_sorted, _.
  - by rewrite !std_sort_perm by apply _.
Qed.

Lemma sort_failures_sorted `{!StdSort} l :
  StronglySorted (λ x y, failure_lt y x = false) l → NoDup l.*1 → std_sort failure_lt l = l.
Proof.
  intros Hs Hnd. apply (StronglySorted_unique_strong (λ x y, failure_lt y x = false));
    [|apply std_sort_sorted, _|done|apply std_sort_perm, _].
  intros x y Hx Hy Hxy Hyx. rewrite std_sort_perm in Hx by apply _.
  by eapply failure_fst_inj.
Qed.

Section analysis.
Context {std : StdSort} {hash : HashOrder} {Module : Type}.
Context (build : Module → FactSelection → option ProgramSymbolIndex → TUFacts).
Context (load : Pass → nat → Module + CompileError).
Context (identifier : nat → string) (unitCount : nat) (options : AnalysisOptions).

Abbreviation tA P := (@tableA P Module build load identifier unitCount options).
Abbreviation tB P := (@tableB _ P Module build load identifier unitCount options).
Abbreviation compat P := (@compatibleUnits P Module build load identifier unitCount options).
Abbreviation analyze P := (@InterTU_analyze _ _ P Module build load identifier unitCount options).

Section equivalence.
Context (P1 P2 : PoolSchedule).

Lemma tableA_equiv : table_equiv (tA P1) (tA P2).
Proof. by apply runPass_equiv. Qed.

Lemma factsA_equiv u : factsAt (tA P1) u = factsAt (tA P2) u.
Proof. by rewrite tableA_equiv. Qed.

Lemma failedA_equiv u : failedAt (tA P1) u = failedAt (tA P2) u.
Proof. by rewrite tableA_equiv. Qed.

Lemma loadedUnits_equiv :
  @loadedUnits P1 _ build load identifier unitCount options =
  @loadedUnits P2 _ build load identifier unitCount options.
Proof. apply filter_ext_bool. intros u _. by rewrite ?failedA_equiv, ?factsA_equiv. Qed.

Lemma compatible_equiv abi : compat P1 abi = compat P2 abi.
Proof. unfold compatibleUnits. rewrite loadedUnits_equiv. apply filter_ext_bool. intros u _. by rewrite ?failedA_equiv, ?factsA_equiv. Qed.

Lemma skipped_equiv abi :
  @skippedUnits P1 _ build load identifier unitCount options abi =
  @skippedUnits P2 _ build load identifier unitCount options abi.
Proof. unfold skippedUnits. rewrite loadedUnits_equiv. apply filter_ext_bool. intros u _. by rewrite ?failedA_equiv, ?factsA_equiv. Qed.

Lemma programIndex_equiv c :
  @programIndex _ P1 _ build load identifier unitCount options c =
  @programIndex _ P2 _ build load identifier unitCount options c.
Proof. unfold programIndex. f_equal. apply list_fmap_ext. intros i u _. by rewrite ?failedA_equiv, ?factsA_equiv. Qed.

Lemma reanalyzed_equiv c :
  @reanalyzedUnits _ P1 _ build load identifier unitCount options c =
  @reanalyzedUnits _ P2 _ build load identifier unitCount options c.
Proof. unfold reanalyzedUnits. rewrite programIndex_equiv. apply filter_ext_bool. intros u _. by rewrite ?failedA_equiv, ?factsA_equiv. Qed.

Lemma tableB_equiv c : table_equiv (tB P1 c) (tB P2 c).
Proof. unfold tableB. rewrite programIndex_equiv, reanalyzed_equiv. apply runPass_equiv, tableA_equiv. Qed.

Lemma contributing_equiv c :
  @contributingUnits _ P1 _ build load identifier unitCount options c =
  @contributingUnits _ P2 _ build load identifier unitCount options c.
Proof. apply filter_ext_bool. intros u _. by rewrite tableB_equiv. Qed.

Lemma abiCounts_equiv : unitCountByAbi (tA P1) unitCount = unitCountByAbi (tA P2) unitCount.
Proof.
  unfold unitCountByAbi. generalize (∅ : gmap string nat). induction (seq 0 unitCount) as [|u l IH]; intros m; simpl; [done|].
  rewrite IH. f_equal. unfold countAbi. by rewrite failedA_equiv, factsA_equiv.
Qed.
End equivalence.

Lemma mergedState_equiv T T' l :
  table_equiv T T' → mergedState options T l = mergedState options T' l.
Proof.
  intros HT. unfold mergedState. generalize (Some (MkMerge empty_report ∅)).
  induction l as [|u l IH]; intros st; simpl; [done|].
  rewrite IH. f_equal. unfold mergeUnit. by rewrite (factsAt_proper T T' HT u u eq_refl).
Qed.

(** ** What the passes leave *)

Section one_schedule.
Context (P : PoolSchedule).

Lemma failedAt_tableA u : u < unitCount → failedAt (tA P) u = loadFails load PassA u.
Proof.
  intros Hu. unfold tableA, runPass. rewrite fold_failedAt.
  - unfold newTable, failedAt. simpl. rewrite lookup_replicate_2 by done. simpl.
    rewrite bool_decide_true; [done|]. rewrite pool_order_perm. apply elem_of_seq. lia.
  - unfold newTable. simpl. by rewrite length_replicate.
Qed.

Lemma elem_of_loaded u :
  u ∈ @loadedUnits P _ build load identifier unitCount options ↔
  u < unitCount ∧ loadFails load PassA u = false.
Proof.
  unfold loadedUnits. rewrite elem_of_filter_bool, elem_of_seq, negb_true_iff. split.
  - intros [Hu Hf]. rewrite failedAt_tableA in Hf by lia. split; [lia|done].
  - intros [Hu Hf]. rewrite failedAt_tableA by lia. split; [lia|done].
Qed.

Lemma loaded_NoDup : NoDup (@loadedUnits P _ build load identifier unitCount options).
Proof. apply NoDup_filter_bool, NoDup_seq. Qed.

Lemma failedAt_tableB c u :
  u < unitCount →
  failedAt (tB P c) u = loadFails load PassA u ||
    (bool_decide (u ∈ @reanalyzedUnits _ P _ build load identifier unitCount options c)
     && loadFails load PassB u).
Proof.
  intros Hu. unfold tableB, runPass. rewrite fold_failedAt, failedAt_tableA by
    (done || (unfold tableA, runPass; rewrite fold_failed_length; unfold newTable; simpl;
     by rewrite length_replicate)).
  do 2 f_equal. apply bool_decide_ext. by rewrite pool_order_perm.
Qed.

Lemma failures_tableB c :
  ut_failures (tB P c) ≡ₚ omap (failureOf load identifier PassA) (seq 0 unitCount) ++
    omap (failureOf load identifier PassB)
      (@reanalyzedUnits _ P _ build load identifier unitCount options c).
Proof.
  unfold tableB, runPass. rewrite fold_failures. unfold tableA, runPass. rewrite fold_failures.
  unfold newTable. simpl. by rewrite !pool_order_perm.
Qed.

Lemma elem_of_compatible abi u :
  u ∈ compat P abi ↔ u ∈ @loadedUnits P _ build load identifier unitCount options ∧
    abiKey (program (factsAt (tA P) u)) = abi.
Proof. unfold compatibleUnits. by rewrite elem_of_filter_bool, bool_decide_eq_true. Qed.

Lemma failures_NoDup abi : NoDup (ut_failures (tB P (compat P abi))).*1.
Proof.
  rewrite failures_tableB, fmap_app. apply NoDup_app. split_and!.
  - apply failureOf_NoDup, NoDup_seq.
  - intros u. rewrite !failureOf_fst. intros [_ Hf] [Hu _].
    unfold reanalyzedUnits in Hu. rewrite elem_of_filter_bool, elem_of_compatible, elem_of_loaded in Hu.
    destruct Hu as (((_ & Hf') & _) & _). congruence.
  - apply failureOf_NoDup, NoDup_filter_bool, NoDup_filter_bool, loaded_NoDup.
Qed.

Lemma abis_empty : unitCountByAbi (tA P) unitCount = ∅ ↔ ∀ u, u < unitCount → loadFails load PassA u = true.
Proof.
  unfold unitCountByAbi. split.
  - intros H u Hu. destruct (loadFails load PassA u) eqn:E; [done|]. exfalso.
    pose proof (countAbi_fold (tA P) (seq 0 unitCount) (abiKey (program (factsAt (tA P) u)))) as Hc.
    rewrite H, lookup_empty in Hc. case_bool_decide as H0; [|done].
    unfold abiCount in H0. apply length_zero_iff_nil in H0.
    assert (u ∈ List.filter (λ v, negb (failedAt (tA P) v) && bool_decide (abiKey (program (factsAt (tA P) v)) =
      abiKey (program (factsAt (tA P) u)))) (seq 0 unitCount)) as Hin; [|rewrite H0 in Hin; by apply elem_of_nil in Hin].
    apply elem_of_filter_bool. split; [apply elem_of_seq; lia|].
    by rewrite failedAt_tableA, E, bool_decide_true by done.
  - intros H. apply map_eq. intros abi. rewrite countAbi_fold, lookup_empty, bool_decide_true; [done|].
    unfold abiCount. apply length_zero_iff_nil. apply elem_of_nil_inv. intros u Hu.
    apply elem_of_filter_bool in Hu as [Hu%elem_of_seq Hf]. rewrite failedAt_tableA, H in Hf by lia. done.
Qed.

Lemma merged_total T l : ∃ st, mergedState options T l = Some st.
Proof.
  unfold mergedState. assert (∃ st, Some (MkMerge empty_report ∅) = Some st) as H by eauto.
  revert H. generalize (Some (MkMerge empty_report ∅)). induction l as [|u l IH]; intros o [st ->]; simpl; [eauto|].
  apply IH. destruct (runCheckers_total options (factsAt T u)) as [r ->]. simpl. eauto.
Qed.

(** The result when some unit loads. *)
Lemma analyze_spec :
  (∃ u, u < unitCount ∧ loadFails load PassA u = false) →
  ∃ abi n st, maxElement (map_items (unitCountByAbi (tA P) unitCount)) = Some (abi, n) ∧
    mergedState options (tB P (compat P abi))
      (@contributingUnits _ P _ build load identifier unitCount options (compat P abi)) = Some st ∧
    analyze P = Some (MkAnalysis (with_summary (ms_report st))
      (identifier <$> @skippedUnits P _ build load identifier unitCount options abi)
      (length (@reanalyzedUnits _ P _ build load identifier unitCount options (compat P abi)))
      (std_sort failure_lt (ut_failures (tB P (compat P abi)))).*2).
Proof.
  intros (u & Hu & Hl). unfold InterTU_analyze. rewrite bool_decide_false by lia.
  pose proof (maxElement_spec (map_items (unitCountByAbi (tA P) unitCount))) as Hm.
  destruct (maxElement _) as [[abi n]|].
  - destruct (merged_total (tB P (compat P abi))
      (@contributingUnits _ P _ build load identifier unitCount options (compat P abi))) as [st Hst].
    exists abi, n, st. by rewrite Hst.
  - apply map_items_nil in Hm. rewrite abis_empty in Hm. rewrite Hm in Hl; done.
Qed.
End one_schedule.
End analysis.

(** ** Lemmas on the merge *)

(** The report keeps one finding per key, in step with the set of keys. *)
Definition merge_ok (st : MergeState) : Prop :=
  NoDup (diagnosticKey <$> rep_diagnostics (ms_report st)) ∧
  ∀ key, key ∈ ms_reported st ↔ key ∈ diagnosticKey <$> rep_diagnostics (ms_report st).

Lemma merge_ok_diagnostic st d :
  merge_ok st →
  merge_ok (mergeDiagnostic st d) ∧
  ms_reported (mergeDiagnostic st d) = {[diagnosticKey d]} ∪ ms_reported st ∧
  ∀ d', d' ∈ rep_diagnostics (ms_report (mergeDiagnostic st d)) →
    d' ∈ rep_diagnostics (ms_report st) ∨ d' = d.
Proof.
  intros [Hnd Hk]. unfold mergeDiagnostic. case_bool_decide as Hin.
  - split; [done|]. split; [set_solver|auto].
  - simpl. split; [|split; [done|]].
    + split; simpl.
      * rewrite fmap_app. apply NoDup_app. split_and!; [done| |apply NoDup_singleton].
        intros key Hkey ->%list_elem_of_singleton. by apply Hin, Hk.
      * intros key. rewrite elem_of_union, elem_of_singleton, Hk, fmap_app, elem_of_app.
        simpl. rewrite list_elem_of_singleton. tauto.
    + intros d' [?| ->%list_elem_of_singleton]%elem_of_app; auto.
Qed.

Lemma merge_ok_diagnostics ds st :
  merge_ok st →
  merge_ok (foldl mergeDiagnostic st ds) ∧
  (∀ key, key ∈ ms_reported (foldl mergeDiagnostic st ds) ↔
     key ∈ ms_reported st ∨ key ∈ diagnosticKey <$> ds) ∧
  ∀ d, d ∈ rep_diagnostics (ms_report (foldl mergeDiagnostic st ds)) →
    d ∈ rep_diagnostics (ms_report st) ∨ d ∈ ds.
Proof.
  intros Hst. induction ds as [|d ds (IH1 & IH2 & IH3)] using rev_ind.
  { split_and!; [done| |auto]. intros key. rewrite elem_of_nil. tauto. }
  rewrite foldl_snoc. destruct (merge_ok_diagnostic _ d IH1) as (H1 & H2 & H3).
  split_and!; [done| |].
  - intros key. rewrite H2, elem_of_union, elem_of_singleton, IH2, fmap_app, elem_of_app. simpl.
    rewrite list_elem_of_singleton. tauto.
  - intros d' [Hd| ->]%H3; [|set_solver]. apply IH3 in Hd as [?|?]; set_solver.
Qed.

Lemma merge_notices_diagnostics report ns :
  rep_diagnostics (foldl mergeNotice report ns) = rep_diagnostics report.
Proof.
  apply (foldl_inv (λ r, rep_diagnostics r = rep_diagnostics report)); [done|].
  intros r n _ <-. unfold mergeNotice. by case_bool_decide.
Qed.

Lemma merge_ok_report st r :
  merge_ok st →
  merge_ok (mergeReport st r) ∧
  (∀ key, key ∈ ms_reported (mergeReport st r) ↔
     key ∈ ms_reported st ∨ key ∈ diagnosticKey <$> rep_diagnostics r) ∧
  ∀ d, d ∈ rep_diagnostics (ms_report (mergeReport st r)) →
    d ∈ rep_diagnostics (ms_report st) ∨ d ∈ rep_diagnostics r.
Proof.
  intros Hst. destruct (merge_ok_diagnostics (rep_diagnostics r) st Hst) as ([H1 H1'] & H2 & H3).
  unfold mergeReport, merge_ok. simpl. rewrite !merge_notices_diagnostics. done.
Qed.

(** The finalized report of one unit. *)
Definition reportOf `{!StdSort} (options : AnalysisOptions) (facts : TUFacts)
  : option DiagnosticReport :=
  r ← runCheckers options facts; Some (finalizeReport r facts (sel_accesses (selection options))).

Definition unitReport `{!StdSort} (options : AnalysisOptions) (T : UnitTable) (u : nat)
  : option DiagnosticReport := reportOf options (factsAt T u).

Lemma merged_ok `{!StdSort} options T l st :
  mergedState options T l = Some st →
  merge_ok st ∧
  (∀ u r d, u ∈ l → unitReport options T u = Some r → d ∈ rep_diagnostics r →
     diagnosticKey d ∈ diagnosticKey <$> rep_diagnostics (ms_report st)) ∧
  (∀ d, d ∈ rep_diagnostics (ms_report st) →
     ∃ u r, u ∈ l ∧ unitReport options T u = Some r ∧ d ∈ rep_diagnostics r).
Proof.
  revert st. unfold mergedState. induction l as [|u l IH] using rev_ind; intros st Hst.
  { injection Hst as <-. split_and!.
    - split; [constructor|]. intros key. simpl. by rewrite elem_of_empty, elem_of_nil.
    - by intros u r d ?%elem_of_nil.
    - by intros d ?%elem_of_nil. }
  rewrite foldl_snoc in Hst. destruct (foldl _ _ l) as [st0|]; [|done]. simpl in Hst.
  destruct (IH st0 eq_refl) as (H1 & H2 & H3). unfold unitReport, reportOf in *.
  destruct (runCheckers options (factsAt T u)) as [r0|] eqn:Er; [|done]. simpl in Hst.
  injection Hst as <-. set (r := finalizeReport r0 _ _).
  destruct (merge_ok_report st0 r H1) as (H1' & H2' & H3').
  split_and!; [done| |].
  - intros v r' d Hv Hr' Hd. apply (proj2 H1'). apply H2'.
    apply elem_of_app in Hv as [Hv| ->%list_elem_of_singleton].
    + left. apply (proj2 H1). by eapply H2.
    + right. rewrite Er in Hr'. injection Hr' as <-. by apply list_elem_of_fmap_2.
  - intros d [Hd|Hd]%H3'.
    + destruct (H3 d Hd) as (v & r' & ? & ? & ?). exists v, r'. set_solver.
    + exists u, r. rewrite Er. set_solver.
Qed.

(** ** The analysis as one sequential computation *)

Section reference.
Context {std : StdSort} {hash : HashOrder} {Module : Type}.
Context (build : Module → FactSelection → option ProgramSymbolIndex → TUFacts).
Context (load : Pass → nat → Module + CompileError).
Context (identifier : nat → string) (unitCount : nat) (options : AnalysisOptions).

(** What loading and analysing [u] gives, written without the tables. *)
Abbreviation factsIn := (unitFacts build load options).
Abbreviation alone := (factsIn PassA nothingKnownYet).
Abbreviation abiOf u := (abiKey (program (alone u))).

Definition abiGroup (abi : string) : list nat :=
  List.filter (λ u, negb (loadFails load PassA u) && bool_decide (abiOf u = abi)) (seq 0 unitCount).

(** The group that wins: as large as any, with the smallest key among its equals. *)
Definition dominant (abi : string) : Prop :=
  abiGroup abi ≠ [] ∧
  ∀ abi', length (abiGroup abi') ≤ length (abiGroup abi) ∧
    (length (abiGroup abi') = length (abiGroup abi) → String.le abi abi').

Definition knowledge (abi : string) : ProgramSymbolIndex :=
  indexOf ((λ u, (u, alone u)) <$> abiGroup abi).

Definition changed (abi : string) (u : nat) : bool :=
  bool_decide (u ∈ abiGroup abi) && crossTUChangesFacts (alone u) (knowledge abi) (selection options).

Definition finalFacts (abi : string) (u : nat) : TUFacts :=
  if changed abi u then factsIn PassB (knowledge abi) u else alone u.

(** The error a unit fails with, in the pass it fails in. *)
Definition unitError (abi : string) (u : nat) : option FailedUnit :=
  match load PassA u with
  | inr error => Some (MkFailedUnit (identifier u) error)
  | inl _ =>
      if changed abi u then
        match load PassB u with
        | inr error => Some (MkFailedUnit (identifier u) error)
        | inl _ => None
        end
      else None
  end.

Context (P : PoolSchedule) (abi : string).
Abbreviation tA := (@tableA P Module build load identifier unitCount options).
Abbreviation tB := (@tableB _ P Module build load identifier unitCount options).
Abbreviation compat := (@compatibleUnits P Module build load identifier unitCount options).

Lemma factsAt_tableA u : u < unitCount → factsAt tA u = alone u.
Proof.
  intros Hu. unfold tableA, runPass. rewrite fold_factsAt.
  - rewrite bool_decide_true; [done|]. rewrite pool_order_perm. apply elem_of_seq. lia.
  - unfold newTable. simpl. by rewrite length_replicate.
Qed.

Lemma compatible_group : compat abi = abiGroup abi.
Proof.
  unfold compatibleUnits, loadedUnits, abiGroup. rewrite filter_filter_bool.
  apply filter_ext_bool. intros u Hu%elem_of_seq.
  by rewrite failedAt_tableA, factsAt_tableA by lia.
Qed.

Lemma abiGroup_lt u : u ∈ abiGroup abi → u < unitCount.
Proof. intros [Hu%elem_of_seq _]%elem_of_filter_bool. lia. Qed.

Lemma programIndex_knowledge :
  @programIndex _ P _ build load identifier unitCount options (compat abi) = knowledge abi.
Proof.
  unfold programIndex, knowledge. rewrite compatible_group. f_equal.
  apply list_fmap_ext. intros i u Hu%list_elem_of_lookup_2%abiGroup_lt. by rewrite factsAt_tableA.
Qed.

Lemma reanalyzed_changed :
  @reanalyzedUnits _ P _ build load identifier unitCount options (compat abi)
  = List.filter (changed abi) (abiGroup abi).
Proof.
  unfold reanalyzedUnits. rewrite programIndex_knowledge, compatible_group.
  apply filter_ext_bool. intros u Hu. unfold changed. rewrite bool_decide_true by done. simpl.
  by rewrite factsAt_tableA by (by apply abiGroup_lt).
Qed.

Lemma elem_of_changed u : u ∈ List.filter (changed abi) (abiGroup abi) ↔ changed abi u = true.
Proof.
  rewrite elem_of_filter_bool. split; [tauto|]. intros H. split; [|done].
  unfold changed in H. apply andb_true_iff in H as [H _]. by apply bool_decide_eq_true in H.
Qed.

Lemma factsAt_tableB u : u < unitCount → factsAt (tB (compat abi)) u = finalFacts abi u.
Proof.
  intros Hu. unfold tableB, runPass. rewrite fold_factsAt, programIndex_knowledge, factsAt_tableA;
    [|done|unfold tableA, runPass; rewrite fold_facts_length; unfold newTable; simpl;
     by rewrite length_replicate].
  unfold finalFacts. destruct (changed abi u) eqn:E.
  - rewrite bool_decide_true; [done|]. by rewrite pool_order_perm, reanalyzed_changed, elem_of_changed.
  - rewrite bool_decide_false; [done|]. rewrite pool_order_perm, reanalyzed_changed, elem_of_changed.
    congruence.
Qed.

Lemma contributing_group :
  @contributingUnits _ P _ build load identifier unitCount options (compat abi)
  = List.filter (λ u, bool_decide (unitError abi u = None)) (abiGroup abi).
Proof.
  unfold contributingUnits. rewrite <-compatible_group. apply filter_ext_bool.
  intros u Hu. rewrite compatible_group in Hu. pose proof (abiGroup_lt u Hu) as Hlt. rewrite failedAt_tableB by done.
  apply elem_of_filter_bool in Hu as [_ [HA _]%andb_true_iff]. apply negb_true_iff in HA.
  rewrite HA. simpl. unfold unitError, loadFails in *. destruct (load PassA u); [|done].
  rewrite reanalyzed_changed. destruct (changed abi u) eqn:E.
  - rewrite bool_decide_true by (by apply elem_of_changed). destruct (load PassB u); done.
  - rewrite bool_decide_false; [done|]. rewrite elem_of_changed. congruence.
Qed.

Lemma skipped_group :
  @skippedUnits P _ build load identifier unitCount options abi
  = List.filter (λ u, negb (loadFails load PassA u) && negb (bool_decide (abiOf u = abi)))
      (seq 0 unitCount).
Proof.
  unfold skippedUnits, loadedUnits. rewrite filter_filter_bool. apply filter_ext_bool.
  intros u Hu%elem_of_seq. by rewrite failedAt_tableA, factsAt_tableA by lia.
Qed.

Definition numberedError (u : nat) : option (nat * FailedUnit) := (u,.) <$> unitError abi u.

Lemma elem_of_numbered (l : list nat) u f :
  (u, f) ∈ omap numberedError l ↔ u ∈ l ∧ unitError abi u = Some f.
Proof.
  rewrite list_elem_of_omap. unfold numberedError. split.
  - intros (v & Hv & (g & Hg & [= -> ->])%fmap_Some). auto.
  - intros [Hu E]. exists u. by rewrite E.
Qed.

Lemma numbered_fst_sorted n k :
  StronglySorted (λ x y, failure_lt y x = false) (omap numberedError (seq n k)) ∧
  NoDup (omap numberedError (seq n k)).*1 ∧ Forall (λ x, n ≤ x.1) (omap numberedError (seq n k)).
Proof.
  revert n. induction k as [|k IH]; intros n; simpl; [repeat constructor|].
  destruct (IH (S n)) as (H1 & H2 & H3).
  assert (Forall (λ x, n ≤ x.1) (omap numberedError (seq (S n) k))) as H3'.
  { eapply Forall_impl; [exact H3|]. simpl. lia. }
  destruct (numberedError n) as [[u f]|] eqn:E; [|done].
  unfold numberedError in E. apply fmap_Some in E as (g & _ & [= -> ->]). split_and!.
  - constructor; [done|]. eapply Forall_impl; [exact H3|]. intros x Hx. simpl in Hx. unfold failure_lt. simpl.
    apply Nat.ltb_ge. lia.
  - simpl. constructor; [|done]. intros (x & Ex & Hx)%list_elem_of_fmap.
    rewrite Forall_forall in H3. specialize (H3 x Hx). lia.
  - by constructor.
Qed.

Lemma elem_of_failures_numbered u f :
  (u, f) ∈ ut_failures (tB (compat abi)) ↔ (u, f) ∈ omap numberedError (seq 0 unitCount).
Proof.
  rewrite elem_of_numbered, failures_tableB, elem_of_app, !list_elem_of_omap, reanalyzed_changed.
  unfold failureOf, unitError. setoid_rewrite elem_of_changed. split.
  - intros [(v & Hv & E)|(v & Hv & E)].
    + destruct (load PassA v) eqn:EA; [done|]. simplify_eq. by rewrite EA.
    + destruct (load PassB v) eqn:EB; [done|]. simplify_eq. rewrite Hv, EB.
      assert (u ∈ abiGroup abi) as Hg by (by apply elem_of_changed, elem_of_filter_bool in Hv as [? _]).
      split; [apply elem_of_seq; apply abiGroup_lt in Hg; lia|].
      apply elem_of_filter_bool in Hg as [_ [HA _]%andb_true_iff].
      unfold loadFails in HA. by destruct (load PassA u).
  - intros [Hu E]. destruct (load PassA u) eqn:EA.
    + right. exists u. destruct (changed abi u) eqn:EC; [|done].
      destruct (load PassB u) eqn:EB; [done|]. by simplify_eq.
    + left. exists u. rewrite EA. by simplify_eq.
Qed.

Lemma failures_in_unit_order :
  (std_sort failure_lt (ut_failures (tB (compat abi)))).*2 = omap (unitError abi) (seq 0 unitCount).
Proof.
  assert (ut_failures (tB (compat abi)) ≡ₚ omap numberedError (seq 0 unitCount)) as Hp.
  { apply NoDup_Permutation; [| |intros [u f]; apply elem_of_failures_numbered].
    - eapply NoDup_fmap_1. apply failures_NoDup.
    - eapply NoDup_fmap_1. apply (numbered_fst_sorted 0 unitCount). }
  rewrite (sort_failures_unique _ _ Hp) by apply failures_NoDup.
  destruct (numbered_fst_sorted 0 unitCount) as (Hs & Hnd & _).
  rewrite (sort_failures_sorted _ Hs Hnd). clear. unfold numberedError.
  induction (seq 0 unitCount) as [|u l IH]; simpl; [done|].
  destruct (unitError abi u); simpl; [|exact IH]. by f_equal.
Qed.

Lemma abiCount_group abi' : abiCount tA (seq 0 unitCount) abi' = length (abiGroup abi').
Proof.
  unfold abiCount, abiGroup. f_equal. apply filter_ext_bool. intros u Hu%elem_of_seq.
  by rewrite failedAt_tableA, factsAt_tableA by lia.
Qed.

Lemma maxElement_dominant n :
  maxElement (map_items (unitCountByAbi tA unitCount)) = Some (abi, n) → dominant abi.
Proof.
  intros Hm. pose proof (maxElement_spec (map_items (unitCountByAbi tA unitCount))) as Hspec.
  rewrite Hm in Hspec. destruct Hspec as (before & after & Hi & Hb & Ha). simpl in *.
  assert (∀ k v, (k, v) ∈ map_items (unitCountByAbi tA unitCount) ↔
    length (abiGroup k) ≠ 0 ∧ v = length (abiGroup k)) as Hin.
  { intros k v. rewrite elem_of_map_items. unfold unitCountByAbi.
    rewrite countAbi_fold, abiCount_group. case_bool_decide; naive_solver. }
  destruct (proj1 (Hin abi n)) as [Hne ->]; [rewrite Hi; set_solver|].
  split; [by intros E; rewrite E in Hne|]. intros abi'.
  destruct (decide (length (abiGroup abi') = 0)) as [E0|Hne']; [lia|].
  assert ((abi', length (abiGroup abi')) ∈ before ++ (abi, length (abiGroup abi)) :: after) as Hx
    by (rewrite <-Hi; by apply Hin).
  apply elem_of_app in Hx as [Hx|[Hx|Hx]%elem_of_cons].
  - specialize (Hb _ Hx). simpl in Hb. lia.
  - injection Hx as -> _. split; [lia|]. intros _. reflexivity.
  - specialize (Ha _ Hx). split; [done|]. intros _.
    exact (map_items_before _ _ _ _ _ Hi Hx).
Qed.
End reference.

(** ** Properties *)

Section properties.
Context {std : StdSort} {hash : HashOrder} {Module : Type}.
Context (build : Module → FactSelection → option ProgramSymbolIndex → TUFacts).
Context (load : Pass → nat → Module + CompileError).
Context (identifier : nat → string) (unitCount : nat) (options : AnalysisOptions).

Abbreviation analyze P := (@InterTU_analyze _ _ P Module build load identifier unitCount options).



(** C13: the merged report holds exactly what the units contribute.  Once one unit
    loads, every finding in it is a finding of the finalized report a unit of the
    dominant group has on its facts after both passes; every such finding is
    there under its key; no key occurs twice; and the summary counts the findings
    that are listed. *)
Theorem project_report_merges_units (P : PoolSchedule) :
  (∃ u, u < unitCount ∧ loadFails load PassA u = false) →
  ∃ analysis abi, analyze P = Some analysis ∧ dominant build load unitCount options abi ∧
    let contributes d u :=
      u ∈ abiGroup build load unitCount options abi ∧
      unitError build load identifier unitCount options abi u = None ∧
      ∃ r, reportOf options (finalFacts build load unitCount options abi u) = Some r ∧
        d ∈ rep_diagnostics r in
    let merged := rep_diagnostics (pa_report analysis) in
    (∀ d, d ∈ merged → ∃ u, contributes d u) ∧
    (∀ d u, contributes d u → diagnosticKey d ∈ diagnosticKey <$> merged) ∧
    NoDup (diagnosticKey <$> merged) ∧
    rep_summary (pa_report analysis) = computeSummary merged.
Proof.
  intros Hl.
  destruct (analyze_spec build load identifier unitCount options P Hl) as (abi & n & st & Hm & Hst & ->).
  eexists _, abi. split; [done|]. split; [by eapply maxElement_dominant|]. simpl.
  destruct (merged_ok _ _ _ _ Hst) as ([Hnd _] & Hin & Hout).
  rewrite contributing_group in Hin, Hout. unfold unitReport in Hin, Hout.
  split_and!; [| |done|done].
  - intros d Hd. destruct (Hout d Hd) as (u & r & [Hu HE%bool_decide_eq_true]%elem_of_filter_bool & Hr & Hdr).
    rewrite factsAt_tableB in Hr by (by eapply abiGroup_lt). exists u. eauto.
  - intros d u (Hu & HE & r & Hr & Hd). apply (Hin u r d); [|by rewrite factsAt_tableB by (by eapply abiGroup_lt)|done].
    apply elem_of_filter_bool. split; [done|]. by apply bool_decide_eq_true.
Qed.
End properties.

(** ** Two places where the analysis does not do what its comments say *)

(** Projects whose modules are their own facts, and two schedules of the pool. *)
Definition build_self (facts : TUFacts) (_ : FactSelection) (_ : option ProgramSymbolIndex) : TUFacts :=
  facts.

Definition in_order : PoolSchedule := {|
  pool_order _ tasks := tasks;
  pool_order_perm _ tasks := Permutation_refl tasks;
|}.

Definition in_reverse : PoolSchedule := {|
  pool_order _ tasks := rev tasks;
  pool_order_perm _ tasks := Permutation_sym (Permutation_rev tasks);
|}.

Definition analyze_sample (P : PoolSchedule) (units : list (TUFacts + CompileError)) : option ProjectAnalysis :=
  @InterTU_analyze merge_std_sort sorted_hash_order P TUFacts build_self
    (λ _ u, default (inl no_facts) (units !! u)) (λ u, "unit" +:+ pretty u) (length units)
    allAvailable.

Definition wait_at (file : string) (line : N) : ConditionWaitFact :=
  let location := MkSourceLocation file line 3 line 9 "waiter" in
  MkConditionWait "waiter" location location false false.

Definition unit_with_waits (waits : list ConditionWaitFact) : TUFacts :=
  MkTUFacts [] [] [] [] waits [] [] [] [] [] [] false false ∅ ∅ ∅ ∅ ∅ ∅ ∅ no_symbols.

Definition header_wait : ConditionWaitFact := wait_at "shared.hpp" 20.

Definition lost : CompileError := bitcodeReadError "gone".

(** one defect of a header that two units include can be listed twice, and two
    findings of the merged report can carry the same id: the key that drops the
    copies contains the id, which is the finding's position in the report of its
    own unit. *)
Theorem merge_repeats_shared_finding :
  let a := unit_with_waits [header_wait] in
  let b := unit_with_waits [wait_at "b.cpp" 7; header_wait] in
  (λ d, (diag_id d, loc_file (diag_location d), loc_line (diag_location d))) <$>
    rep_diagnostics (pa_report (default (MkAnalysis empty_report [] 0 [])
      (analyze_sample in_order [inl a; inl b])))
  = [("diag-1", "shared.hpp", 20%N); ("diag-1", "b.cpp", 7%N); ("diag-2", "shared.hpp", 20%N)].
Proof. vm_compute. reflexivity. Qed.

(** when no unit loads, the failed units are listed in the order the pool
    completed them: the early return leaves out the sort that puts them in unit
    order. *)
Theorem failed_units_unsorted_when_none_loads :
  let failed P := failed_identifier <$>
    pa_failedUnits (default (MkAnalysis empty_report [] 0 []) (analyze_sample P [inr lost; inr lost])) in
  failed in_order = ["unit0"; "unit1"] ∧ failed in_reverse = ["unit1"; "unit0"].
Proof. vm_compute. split; reflexivity. Qed.

(** ** Witnesses *)

(** Three units of one ABI and one that does not load. *)
Definition sample_project (_ : Pass) (u : nat) : TUFacts + CompileError :=
  match u with
  | 0 => inl (unit_with_waits [header_wait])
  | 2 => inr lost
  | _ => inl (unit_with_waits [wait_at "b.cpp" 7; header_wait])
  end.



Lemma project_report_merges_units_witness :
  ∃ analysis,
    @InterTU_analyze merge_std_sort sorted_hash_order in_reverse _ build_self sample_project
      (λ u, pretty u) 4 allAvailable = Some analysis ∧
    NoDup (diagnosticKey <$> rep_diagnostics (pa_report analysis)).
Proof.
  destruct (@project_report_merges_units merge_std_sort sorted_hash_order _ build_self
    sample_project (λ u, pretty u) 4 allAvailable in_reverse) as (a & abi & H & _ & _ & _ & Hn & _).
  - exists 0. split; [lia|reflexivity].
  - exists a. exact (conj H Hn).
Defined.
