(* ===== verification/CallGraph.v ===== *)
(** The call graph of a unit and the thread entries that reach each function
    (src/internal/analysis/interprocedural_bindings.hpp and
    thread_context_propagator.cpp).

    The walk over the module that finds direct calls is a parameter: its result,
    the list of call sites, is the data of this file.  A call instruction of LLVM
    is named by a number. *)

From S2P Require Import Prelude Diagnostics Facts.

Record DirectCallSite := MkDirectCallSite {
  dcs_call : option nat;
  dcs_callerFunctionId : string;
  dcs_calleeFunctionId : string;
  dcs_loweredLocation : SourceLocation;
  dcs_userLocation : SourceLocation;
  dcs_insideLoop : bool;
}.

(** ** The thread entries that reach a function *)

Abbreviation Callees := (gmap string (list string)).

Definition addCallee (caller callee : string) (callees : Callees) : Callees :=
  <[caller := default [] (callees !! caller) ++ [callee]]> callees.

Definition calleesOf (callees : Callees) (function : string) : list string :=
  default [] (callees !! function).

(** One callee of the function taken from the queue. *)
Definition visitCallee (acc : gset string * list string) (callee : string)
  : gset string * list string :=
  if bool_decide (callee ∈ acc.1) then acc else ({[callee]} ∪ acc.1, acc.2 ++ [callee]).

Definition insertEntry (entry function : string) (reach : gmap string ThreadEntrySet)
  : gmap string ThreadEntrySet :=
  <[function := {[entry]} ∪ default ∅ (reach !! function)]> reach.

(** The queue of one entry; [None] when the fuel runs out. *)
Fixpoint reachFrom (callees : Callees) (entry : string) (fuel : nat) (queue : list string)
    (visited : gset string) (reach : gmap string ThreadEntrySet)
  : option (gmap string ThreadEntrySet) :=
  match queue, fuel with
  | [], _ => Some reach
  | _ :: _, O => None
  | function :: queue, S fuel =>
      let '(visited, queue) :=
        foldl visitCallee (visited, queue) (calleesOf callees function) in
      reachFrom callees entry fuel queue visited (insertEntry entry function reach)
  end.

(** Every function the queue can hold besides the entry itself. *)
Definition allCallees (callees : Callees) : gset string :=
  list_to_set ((map_to_list callees).*2 ≫= λ l, l).

Section collect.
Context `{!HashOrder}.
(** The calls of the module, function by function: how many arguments a call has,
    whether the classifier takes it for the registration of a destructor run at
    thread exit, and the function its first argument resolves to, with whether
    that is a declaration. *)
Context {CallBase : Type} (arg_size : CallBase → nat).
Context (registersExitDestructor : CallBase → bool).
Context (resolveFunctionValue : CallBase → option (string * bool)).

Definition registeredDestructor (call : CallBase) : option string :=
  if bool_decide (arg_size call = 0) || negb (registersExitDestructor call) then None
  else match resolveFunctionValue call with
       | Some (destructor, isDeclaration) => if isDeclaration then None else Some destructor
       | None => None
       end.

Definition calleesByFunction (module : list (string * list CallBase))
    (directCallSites : list DirectCallSite) : Callees :=
  foldl (λ callees function,
      foldl (λ callees destructor, addCallee function.1 destructor callees) callees
        (omap registeredDestructor function.2))
    (foldl (λ callees site,
        addCallee (dcs_callerFunctionId site) (dcs_calleeFunctionId site) callees)
      ∅ directCallSites)
    module.

Definition ThreadContextPropagator_collect (module : list (string * list CallBase))
    (directCallSites : list DirectCallSite) (entryConcurrency : gmap string EntryConcurrencyInfo)
  : option (gmap string ThreadEntrySet) :=
  let callees := calleesByFunction module directCallSites in
  foldl (λ acc item,
      reach ← acc;
      reachFrom callees item.1 (S (size (allCallees callees))) [item.1] {[item.1]} reach)
    (Some ∅) (hash_items entryConcurrency).
End collect.

(** ** Lemmas *)

Definition calls (callees : Callees) (caller callee : string) : Prop :=
  callee ∈ calleesOf callees caller.

Lemma calls_all callees f g : calls callees f g → g ∈ allCallees callees.
Proof.
  unfold calls, calleesOf, allCallees. intros H. rewrite elem_of_list_to_set, list_elem_of_bind.
  destruct (callees !! f) as [l|] eqn:E; [|by apply elem_of_nil in H].
  exists l. split; [done|]. apply list_elem_of_fmap. exists (f, l).
  split; [done|]. by apply elem_of_map_to_list.
Qed.

(** What taking a function from the queue does to the queue and the visited set. *)
Lemma visitCallees_spec l visited queue visited' queue' :
  foldl visitCallee (visited, queue) l = (visited', queue') →
  visited' = list_to_set l ∪ visited ∧
  ∃ new, queue' = queue ++ new ∧ NoDup new ∧
    ∀ g, g ∈ new ↔ g ∈ l ∧ g ∉ visited.
Proof.
  revert visited' queue'. induction l as [|g l IH] using rev_ind; intros visited' queue' H.
  { injection H as <- <-. split; [set_solver|]. exists [].
    rewrite app_nil_r. split_and!; [done|constructor|]. set_solver. }
  rewrite foldl_snoc in H. destruct (foldl visitCallee (visited, queue) l) as [v q].
  destruct (IH v q eq_refl) as (-> & new & -> & Hnd & Hnew).
  unfold visitCallee in H. simpl in H. case_bool_decide as Hg; injection H as <- <-.
  - split; [set_solver|]. exists new. split_and!; [done|done|]. intros h. rewrite Hnew. set_solver.
  - split; [set_solver|]. exists (new ++ [g]). split_and!; [by rewrite app_assoc| |].
    + apply NoDup_app. split_and!; [done| |apply NoDup_singleton]. set_solver.
    + intros h. rewrite elem_of_app, list_elem_of_singleton, Hnew. set_solver.
Qed.

(** The functions not yet seen and the queue shrink together. *)
Lemma visit_measure callees e f queue visited visited' queue' :
  foldl visitCallee (visited, queue) (calleesOf callees f) = (visited', queue') →
  size (({[e]} ∪ allCallees callees) ∖ visited') + length queue' <
  size (({[e]} ∪ allCallees callees) ∖ visited) + length (f :: queue).
Proof.
  intros H. destruct (visitCallees_spec _ _ _ _ _ H) as (-> & new & -> & Hndn & Hnew).
  rewrite length_app. simpl. set (U := {[e]} ∪ allCallees callees) in *.
  assert ((list_to_set new : gset string) ⊆ U ∖ visited) as Hsub.
  { intros g Hg. rewrite elem_of_list_to_set, Hnew in Hg. destruct Hg as [Hg Hgv].
    apply elem_of_difference. split; [|done]. apply elem_of_union_r. by eapply calls_all. }
  assert (U ∖ (list_to_set (calleesOf callees f) ∪ visited) =
    (U ∖ visited) ∖ (list_to_set new : gset string)) as ->.
  { apply set_eq. intros g.
    rewrite !elem_of_difference, elem_of_union, !elem_of_list_to_set, Hnew.
    destruct (decide (g ∈ visited)); tauto. }
  rewrite size_difference by done. rewrite size_list_to_set by done.
  pose proof (subseteq_size _ _ Hsub) as Hle. rewrite size_list_to_set in Hle by done. lia.
Qed.

(** The state of the queue of [e], started on [reach0]: what left it is recorded. *)
Record reach_ok (callees : Callees) (e : string) (reach0 : gmap string ThreadEntrySet)
    (queue : list string) (visited : gset string) (reach : gmap string ThreadEntrySet) : Prop := {
  rk_nodup : NoDup queue;
  rk_queue : ∀ f, f ∈ queue → f ∈ visited;
  rk_start : e ∈ visited;
  rk_universe : visited ⊆ {[e]} ∪ allCallees callees;
  rk_reachable : ∀ f, f ∈ visited → rtc (calls callees) e f;
  rk_closed : ∀ f g, f ∈ visited → f ∉ queue → calls callees f g → g ∈ visited;
  rk_done : ∀ f, f ∈ visited → f ∉ queue → reach !! f = Some ({[e]} ∪ default ∅ (reach0 !! f));
  rk_other : ∀ f, f ∉ visited ∨ f ∈ queue → reach !! f = reach0 !! f;
}.

Lemma reach_ok_step callees e reach0 f queue visited reach visited' queue' :
  reach_ok callees e reach0 (f :: queue) visited reach →
  foldl visitCallee (visited, queue) (calleesOf callees f) = (visited', queue') →
  reach_ok callees e reach0 queue' visited' (insertEntry e f reach).
Proof.
  intros [Hnd Hq Hs Hu Hr Hc Hd Ho] H.
  destruct (visitCallees_spec _ _ _ _ _ H) as (-> & new & -> & Hndn & Hnew).
  apply NoDup_cons in Hnd as [Hf Hnd]. assert (f ∈ visited) as Hfv by (apply Hq; left).
  set (cs := list_to_set (calleesOf callees f) : gset string).
  assert (∀ g, g ∈ cs ↔ calls callees f g) as Hcs by (intros g; apply elem_of_list_to_set).
  split.
  - apply NoDup_app. split_and!; [done| |done]. intros g Hg [_ Hg']%Hnew. apply Hg', Hq. by right.
  - intros g [Hg|[Hg _]%Hnew]%elem_of_app; apply elem_of_union; [right; apply Hq; by right|left].
    by apply Hcs.
  - set_solver.
  - intros g [Hg%Hcs|Hg]%elem_of_union; [|by apply Hu]. apply elem_of_union_r. by eapply calls_all.
  - intros g [Hg%Hcs|Hg]%elem_of_union; [|auto]. eapply rtc_r; [|done]. auto.
  - intros g h Hg Hgq Hgh. apply elem_of_union. rewrite elem_of_app in Hgq.
    destruct (decide (g = f)) as [->|Hne]; [left; by apply Hcs|].
    destruct (decide (g ∈ visited)) as [Hgv|Hgv].
    + right. apply (Hc g); [done| |done]. rewrite elem_of_cons. tauto.
    + exfalso. apply Hgq. right. apply Hnew. split; [|done].
      apply elem_of_union in Hg as [Hg|]; [by apply Hcs in Hg|done].
  - intros g Hg Hgq. rewrite elem_of_app in Hgq. unfold insertEntry.
    destruct (decide (g = f)) as [->|Hne].
    + rewrite lookup_insert_eq, (Ho f) by (right; left). done.
    + rewrite lookup_insert_ne by done. apply Hd.
      * apply elem_of_union in Hg as [Hg%Hcs|]; [|done]. destruct (decide (g ∈ visited)); [done|].
         exfalso. apply Hgq. right. by apply Hnew.
      * rewrite elem_of_cons. tauto.
  - intros g Hg. unfold insertEntry. rewrite elem_of_app in Hg.
    assert (g ≠ f).
    { intros ->. destruct Hg as [Hg|[Hg|[_ Hg]%Hnew]]; [|done|done]. by apply Hg, elem_of_union_r. }
    rewrite lookup_insert_ne by done. apply Ho.
    destruct Hg as [Hg|[Hg|[_ Hg]%Hnew]]; [left|right; by right|by left].
    intros Hgv. by apply Hg, elem_of_union_r.
Qed.

Lemma reach_ok_final callees e reach0 visited reach :
  reach_ok callees e reach0 [] visited reach →
  ∃ reachable : gset string, ∀ f,
    (f ∈ reachable ↔ rtc (calls callees) e f) ∧
    reach !! f = (if bool_decide (f ∈ reachable) then Some ({[e]} ∪ default ∅ (reach0 !! f))
                  else reach0 !! f).
Proof.
  intros Hok. exists visited. intros f. split; [split; [apply (rk_reachable _ _ _ _ _ _ Hok)|]|].
  - revert f. apply (rtc_ind_r (λ g, g ∈ visited) e); [by eapply rk_start|].
    intros g h _ Hgh Hg. by eapply (rk_closed _ _ _ _ _ _ Hok); [|intros ?%elem_of_nil|].
  - case_bool_decide as Hf.
    + apply (rk_done _ _ _ _ _ _ Hok); [done|by intros ?%elem_of_nil].
    + apply (rk_other _ _ _ _ _ _ Hok). by left.
Qed.

Lemma reachFrom_ok callees e reach0 fuel queue visited reach :
  reach_ok callees e reach0 queue visited reach →
  size (({[e]} ∪ allCallees callees) ∖ visited) + length queue ≤ fuel →
  ∃ reach', reachFrom callees e fuel queue visited reach = Some reach' ∧
    ∃ reachable : gset string, ∀ f,
      (f ∈ reachable ↔ rtc (calls callees) e f) ∧
      reach' !! f = (if bool_decide (f ∈ reachable) then Some ({[e]} ∪ default ∅ (reach0 !! f))
                     else reach0 !! f).
Proof.
  revert queue visited reach. induction fuel as [|fuel IH]; intros queue visited reach Hok Hm.
  - destruct queue as [|f queue]; [|simpl in Hm; lia]. simpl. eexists. split; [done|].
    by apply reach_ok_final in Hok.
  - destruct queue as [|f queue]; simpl.
    + eexists. split; [done|]. by apply reach_ok_final in Hok.
    + destruct (foldl visitCallee (visited, queue) (calleesOf callees f)) as [v q] eqn:E.
      pose proof (visit_measure callees e f queue visited v q E).
      apply (IH q v _ (reach_ok_step _ _ _ _ _ _ _ _ _ Hok E)). simpl in *. lia.
Qed.

Lemma reachFrom_start callees e reach0 :
  ∃ reach', reachFrom callees e (S (size (allCallees callees))) [e] {[e]} reach0 = Some reach' ∧
    ∃ reachable : gset string, ∀ f,
      (f ∈ reachable ↔ rtc (calls callees) e f) ∧
      reach' !! f = (if bool_decide (f ∈ reachable) then Some ({[e]} ∪ default ∅ (reach0 !! f))
                     else reach0 !! f).
Proof.
  apply reachFrom_ok.
  - split; try set_solver. apply NoDup_singleton.
  - simpl. assert (size (({[e]} ∪ allCallees callees) ∖ {[e]}) ≤ size (allCallees callees)); [|lia].
    apply subseteq_size. set_solver.
Qed.

(** [callees] holds a callee of a function exactly when a call site or a
    registration says so. *)
Lemma addCallee_calls caller callee callees f g :
  calls (addCallee caller callee callees) f g ↔ calls callees f g ∨ (f = caller ∧ g = callee).
Proof.
  unfold calls, calleesOf, addCallee. destruct (decide (f = caller)) as [->|Hne].
  - rewrite lookup_insert_eq. simpl. rewrite elem_of_app, list_elem_of_singleton. tauto.
  - rewrite lookup_insert_ne by done. tauto.
Qed.

(** A fold that adds one edge per element adds exactly the edges of the elements. *)
Lemma fold_calls {A} (edge : A → option (string * string)) (step : Callees → A → Callees) l callees f g :
  (∀ callees x, x ∈ l → calls (step callees x) f g ↔ calls callees f g ∨ edge x = Some (f, g)) →
  calls (foldl step callees l) f g ↔ calls callees f g ∨ ∃ x, x ∈ l ∧ edge x = Some (f, g).
Proof.
  induction l as [|x l IH] using rev_ind; intros Hstep.
  { simpl. split; [auto|]. intros [?|(? & ?%elem_of_nil & _)]; done. }
  rewrite foldl_snoc, Hstep, IH by set_solver. split.
  - intros [[?|(y & ? & ?)]|?]; [auto|right; exists y; set_solver|right; exists x; set_solver].
  - intros [?|(y & [Hy| ->%list_elem_of_singleton]%elem_of_app & ?)]; eauto.
Qed.

Section properties.
Context {CallBase : Type} (arg_size : CallBase → nat).
Context (registersExitDestructor : CallBase → bool).
Context (resolveFunctionValue : CallBase → option (string * bool)).

Abbreviation registered := (registeredDestructor arg_size registersExitDestructor resolveFunctionValue).

(** [f] runs [g] in its own thread: it calls it, or registers it to run when the
    thread ends. *)
Definition runs (module : list (string * list CallBase)) (sites : list DirectCallSite)
    (f g : string) : Prop :=
  (∃ site, site ∈ sites ∧ dcs_callerFunctionId site = f ∧ dcs_calleeFunctionId site = g) ∨
  (∃ bodies call, (f, bodies) ∈ module ∧ call ∈ bodies ∧ registered call = Some g).

Lemma registered_calls function callees f g :
  calls (foldl (λ callees destructor, addCallee function.1 destructor callees) callees
           (omap registered function.2)) f g ↔
  calls callees f g ∨ (f = function.1 ∧ ∃ call, call ∈ function.2 ∧ registered call = Some g).
Proof.
  rewrite (fold_calls (λ destructor, Some (function.1, destructor))).
  - setoid_rewrite list_elem_of_omap. split.
    + intros [?|(d & (call & ? & ?) & [= -> ->])]; [auto|]. right. eauto.
    + intros [?|(-> & call & ? & ?)]; [auto|]. right. exists g. eauto.
  - intros callees' d _. rewrite addCallee_calls. split; intros [?|H]; auto; right.
    + by destruct H as [-> ->].
    + by injection H as <- <-.
Qed.

Lemma calleesByFunction_runs module sites f g :
  calls (calleesByFunction arg_size registersExitDestructor resolveFunctionValue module sites) f g ↔
  runs module sites f g.
Proof.
  unfold calleesByFunction, runs.
  assert (∀ l callees, calls (foldl (λ callees function,
      foldl (λ callees destructor, addCallee function.1 destructor callees) callees
        (omap registered function.2)) callees l) f g ↔
    calls callees f g ∨ ∃ bodies call, (f, bodies) ∈ l ∧ call ∈ bodies ∧ registered call = Some g) as ->.
  { induction l as [|[h bodies] l IH] using rev_ind; intros callees.
    - simpl. split; [auto|]. intros [?|(? & ? & ?%elem_of_nil & _)]; done.
    - rewrite foldl_snoc, registered_calls, IH. simpl. setoid_rewrite elem_of_app.
      setoid_rewrite list_elem_of_singleton. split.
      + intros [[?|(b & c & ? & ?)]|(-> & c & ? & ?)]; eauto 8.
      + intros [?|(b & c & [?|[= -> ->]] & ? & ?)]; eauto 8. }
  rewrite (fold_calls (λ site, Some (dcs_callerFunctionId site, dcs_calleeFunctionId site))).
  - unfold calls at 1, calleesOf. rewrite lookup_empty. simpl. rewrite elem_of_nil.
    split; (intros [H|H]; [left|auto]).
    + destruct H as [[]|(site & ? & [= <- <-])]. eauto.
    + right. destruct H as (site & ? & <- & <-). eauto.
  - intros callees site _. rewrite addCallee_calls. split; intros [?|H]; auto; right.
    + by destruct H as [-> ->].
    + by injection H as <- <-.
Qed.

Lemma thread_contexts_spec `{!HashOrder} module sites entryConcurrency :
  ∃ reach, ThreadContextPropagator_collect arg_size registersExitDestructor resolveFunctionValue
      module sites entryConcurrency = Some reach ∧
    ∀ f, (∀ e, e ∈ default ∅ (reach !! f) ↔
            is_Some (entryConcurrency !! e) ∧ rtc (runs module sites) e f) ∧
      reach !! f ≠ Some ∅.
Proof.
  unfold ThreadContextPropagator_collect.
  set (callees := calleesByFunction _ _ _ module sites).
  assert (∀ e f, rtc (calls callees) e f ↔ rtc (runs module sites) e f) as Hrtc.
  { intros e f. split; apply rtc_subrel; intros ??; apply calleesByFunction_runs. }
  assert (∀ e, is_Some (entryConcurrency !! e) ↔ e ∈ (hash_items entryConcurrency).*1) as He.
  { intros e. rewrite list_elem_of_fmap. split.
    - intros [v Hv]. exists (e, v). by rewrite elem_of_hash_items.
    - intros ([? v] & -> & Hv%elem_of_hash_items). by eexists. }
  setoid_rewrite He. clear He. induction (hash_items entryConcurrency) as [|[e v] l IH] using rev_ind.
  { eexists. split; [done|]. intros f. rewrite lookup_empty. simpl. split; [|done].
    intros e. rewrite elem_of_nil. set_solver. }
  destruct IH as (reach0 & Hr & IH). rewrite foldl_snoc, Hr. simpl.
  destruct (reachFrom_start callees e reach0) as (reach & Hreach & reachable & Hspec).
  exists reach. split; [done|]. intros f. destruct (IH f) as [IH1 IH2].
  destruct (Hspec f) as [Hf ->]. rewrite Hrtc in Hf. case_bool_decide as Hb; simpl.
  - split; [|intros [= E]; set_solver]. intros e'.
    rewrite elem_of_union, elem_of_singleton, IH1, fmap_app, elem_of_app. simpl.
    rewrite list_elem_of_singleton. split; [|tauto]. intros [->|?]; [|tauto]. split; [auto|]. by apply Hf.
  - split; [|done]. intros e'. rewrite IH1, fmap_app, elem_of_app. simpl.
    rewrite list_elem_of_singleton. split; [tauto|]. intros [[?| ->] Hr']; [tauto|]. by apply Hf in Hr'.
Qed.

(** C14: which threads run a function.  The propagation ends, and it files a
    function under an entry exactly when the entry is one of the unit's and runs
    the function through calls and destructors registered for the thread's end;
    a function no entry runs is not in the table.  The order in which hash tables
    are visited plays no part. *)
Theorem thread_contexts_exact `{!HashOrder} module sites entryConcurrency :
  ∃ reach, ThreadContextPropagator_collect arg_size registersExitDestructor resolveFunctionValue
      module sites entryConcurrency = Some reach ∧
    ∀ f, (∀ e, e ∈ default ∅ (reach !! f) ↔
            is_Some (entryConcurrency !! e) ∧ rtc (runs module sites) e f) ∧
      reach !! f ≠ Some ∅.
Proof. apply thread_contexts_spec. Qed.
End properties.

(** ** Witness *)

Definition call_from (caller callee : string) : DirectCallSite :=
  MkDirectCallSite (Some 0) caller callee no_location no_location false.

(** [worker] calls [step] and, when its thread ends, runs [cleanup]. *)
Example reach_of_worker :
  (λ reach, (λ item, (item.1, sorted_elements item.2)) <$> map_items reach) <$>
  @ThreadContextPropagator_collect sorted_hash_order string (λ _, 1) (λ _, true)
    (λ destructor, Some (destructor, false)) [("worker", ["cleanup"])]
    [call_from "worker" "step"; call_from "main" "report"]
    {["worker" := MkEntryConcurrency 1 false]}
  = Some [("cleanup", ["worker"]); ("step", ["worker"]); ("worker", ["worker"])].
Proof. vm_compute. reflexivity. Qed.

Lemma thread_contexts_exact_witness :
  ∃ reach, @ThreadContextPropagator_collect sorted_hash_order string (λ _, 1) (λ _, true)
      (λ destructor, Some (destructor, false)) [("worker", ["cleanup"])]
      [call_from "worker" "step"] {["worker" := MkEntryConcurrency 1 false]} = Some reach ∧
    "worker" ∈ default ∅ (reach !! "step").
Proof.
  destruct (thread_contexts_exact (λ _ : string, 1) (λ _, true) (λ destructor, Some (destructor, false))
    (H := sorted_hash_order) [("worker", ["cleanup"])] [call_from "worker" "step"]
    {["worker" := MkEntryConcurrency 1 false]}) as (reach & Hr & Hspec).
  exists reach. split; [exact Hr|]. apply (Hspec "step"). split; [by eexists|].
  apply rtc_once. left. exists (call_from "worker" "step"). split; [left|split; reflexivity].
Defined.
