(* ===== verification/CallCycles.v ===== *)
(** The calls that close a cycle of the call graph
    (src/internal/analysis/interprocedural_bindings.cpp, [callsClosingCycles]):
    the strongly connected components of the direct calls, by an iterative walk.

    The vectors used as stacks, [stack] and [visits], are lists whose head is the
    back of the vector.  The two counters are 32-bit, as in the code. *)

From S2P Require Import Prelude Text Diagnostics Facts CallGraph.

Record Visit := MkVisit { vis_function : string; vis_nextCallee : nat }.

Record Tarjan := MkTarjan {
  tj_order : gmap string N;
  tj_lowest : gmap string N;
  tj_componentOf : gmap string N;
  tj_onStack : gset string;
  tj_stack : list string;
  tj_nextOrder : N;
  tj_nextComponent : N;
}.

Definition no_tarjan : Tarjan := MkTarjan ∅ ∅ ∅ ∅ [] 0 0.

(** Reading a counter through [operator[]], which gives 0 where there is none. *)
Definition counter (m : gmap string N) (function : string) : N := default 0%N (m !! function).

Definition set_lowest (function : string) (n : N) (st : Tarjan) : Tarjan :=
  MkTarjan (tj_order st) (<[function := n]> (tj_lowest st)) (tj_componentOf st) (tj_onStack st)
    (tj_stack st) (tj_nextOrder st) (tj_nextComponent st).

Definition enter (function : string) (st : Tarjan) (visits : list Visit) : Tarjan * list Visit :=
  (MkTarjan (<[function := tj_nextOrder st]> (tj_order st))
     (<[function := tj_nextOrder st]> (tj_lowest st)) (tj_componentOf st)
     ({[function]} ∪ tj_onStack st) (function :: tj_stack st)
     (wrap 32 (tj_nextOrder st + 1)) (tj_nextComponent st),
   MkVisit function 0 :: visits).

(** The [do]/[while] that takes a component from the stack; [None] where the code
    would read the back of an empty vector. *)
Fixpoint popMembers (function : string) (component : N) (stack : list string)
    (onStack : gset string) (componentOf : gmap string N)
  : option (list string * gset string * gmap string N) :=
  match stack with
  | [] => None
  | member :: stack =>
      let onStack := onStack ∖ {[member]} in
      let componentOf := <[member := component]> componentOf in
      if bool_decide (member ≠ function)
      then popMembers function component stack onStack componentOf
      else Some (stack, onStack, componentOf)
  end.

Definition popComponent (function : string) (st : Tarjan) : option Tarjan :=
  match popMembers function (tj_nextComponent st) (tj_stack st) (tj_onStack st) (tj_componentOf st) with
  | None => None
  | Some (stack, onStack, componentOf) =>
      Some (MkTarjan (tj_order st) (tj_lowest st) componentOf onStack stack (tj_nextOrder st)
        (wrap 32 (tj_nextComponent st + 1)))
  end.

Section walk.
Context (callees : Callees).

(** The next callee of the function on top. *)
Definition visitNext (st : Tarjan) (visit : Visit) (rest : list Visit) (callee : string)
  : Tarjan * list Visit :=
  let function := vis_function visit in
  let visits := MkVisit function (S (vis_nextCallee visit)) :: rest in
  if bool_decide (tj_order st !! callee = None) then enter callee st visits
  else if bool_decide (callee ∈ tj_onStack st) then
    (set_lowest function
       (N.min (counter (tj_lowest st) function) (counter (tj_order st) callee)) st, visits)
  else (st, visits).

(** What the function left on top of [rest] tells its caller. *)
Definition tellCaller (st : Tarjan) (function : string) (rest : list Visit) : Tarjan :=
  match rest with
  | [] => st
  | caller :: _ =>
      set_lowest (vis_function caller)
        (N.min (counter (tj_lowest st) (vis_function caller)) (counter (tj_lowest st) function)) st
  end.

(** One iteration of the [while]. *)
Definition visitStep (st : Tarjan) (visit : Visit) (rest : list Visit)
  : option (Tarjan * list Visit) :=
  let function := vis_function visit in
  match calleesOf callees function !! vis_nextCallee visit with
  | Some callee => Some (visitNext st visit rest callee)
  | None =>
      let st := tellCaller st function rest in
      if bool_decide (counter (tj_lowest st) function ≠ counter (tj_order st) function)
      then Some (st, rest)
      else match popComponent function st with
           | None => None
           | Some st => Some (st, rest)
           end
  end.

Fixpoint visitLoop (fuel : nat) (st : Tarjan) (visits : list Visit) : option Tarjan :=
  match visits, fuel with
  | [], _ => Some st
  | _ :: _, O => None
  | visit :: rest, S fuel =>
      match visitStep st visit rest with
      | None => None
      | Some (st, visits) => visitLoop fuel st visits
      end
  end.

(** The functions of the graph, and how often the loop can run: once per callee
    of a function and once to leave it. *)
Definition functionsOf : gset string := dom callees ∪ allCallees callees.
Definition visitCost (function : string) : nat := S (length (calleesOf callees function)).
Definition totalCost (functions : gset string) : nat :=
  sum_list_with visitCost (elements functions).

Definition visitRoot (root : string) (st : Tarjan) : option Tarjan :=
  if bool_decide (is_Some (tj_order st !! root)) then Some st
  else let '(st, visits) := enter root st [] in visitLoop (totalCost functionsOf) st visits.
End walk.

Definition calleesByCaller (sites : list DirectCallSite) : Callees :=
  foldl (λ callees site, addCallee (dcs_callerFunctionId site) (dcs_calleeFunctionId site) callees)
    ∅ sites.

(** A site of the last loop; [None] where [componentOf.at] throws. *)
Definition recordClosing (componentOf : gmap string N) (closing : option (gset nat))
    (site : DirectCallSite) : option (gset nat) :=
  closing ← closing;
  match dcs_call site with
  | None => Some closing
  | Some call =>
      caller ← componentOf !! dcs_callerFunctionId site;
      callee ← componentOf !! dcs_calleeFunctionId site;
      Some (if bool_decide (caller = callee) then {[call]} ∪ closing else closing)
  end.

Definition callsClosingCycles `{!HashOrder} (sites : list DirectCallSite) : option (gset nat) :=
  let callees := calleesByCaller sites in
  st ← foldl (λ st item, st ← st; visitRoot callees item.1 st) (Some no_tarjan) (hash_items callees);
  foldl (recordClosing (tj_componentOf st)) (Some ∅) sites.
