(* ===== verification/CallCyclesProps.v ===== *)
(** The walk of CallCycles.v finds the strongly connected components of the call
    graph: a call is recorded exactly when its callee reaches its caller again,
    whatever order the hash tables are visited in. *)

From S2P Require Import Prelude Text Diagnostics Facts CallGraph CallCycles.

Abbreviation visiting := (fmap vis_function).

Section invariant.
Context (callees : Callees).

Abbreviation reach := (rtc (calls callees)).
Abbreviation U := (functionsOf callees).

Definition ord (st : Tarjan) (f : string) : N := counter (tj_order st) f.
Definition low (st : Tarjan) (f : string) : N := counter (tj_lowest st) f.
Definition numbered (st : Tarjan) (f : string) : Prop := is_Some (tj_order st !! f).
Definition assigned (st : Tarjan) (f : string) : Prop := is_Some (tj_componentOf st !! f).

(** The walk has followed the call from [f] to [g]. *)
Definition followed (visits : list Visit) (f g : string) : Prop :=
  calls callees f g ∧
  ∀ visit, visit ∈ visits → vis_function visit = f →
    ∃ i, i < vis_nextCallee visit ∧ calleesOf callees f !! i = Some g.

(** [v] is the last visit entered no later than [f]. *)
Definition owner (st : Tarjan) (visits : list Visit) (v f : string) : Prop :=
  (ord st v ≤ ord st f)%N ∧
  ∀ u, u ∈ visiting visits → (ord st u ≤ ord st f)%N → (ord st u ≤ ord st v)%N.

(** How the numbers, the stack and the components describe the part of the graph
    seen so far. *)
Record numbering_ok (st : Tarjan) : Prop := {
  nk_seen : ∀ f, numbered st f ↔ f ∈ tj_stack st ∨ assigned st f;
  nk_disjoint : ∀ f, f ∈ tj_stack st → ¬ assigned st f;
  nk_graph : dom (tj_order st) ⊆ U;
  nk_onStack : ∀ f, f ∈ tj_onStack st ↔ f ∈ tj_stack st;
  nk_bound : ∀ f, numbered st f → (ord st f < N.of_nat (size (tj_order st)))%N;
  nk_next : tj_nextOrder st = wrap 32 (N.of_nat (size (tj_order st)));
  nk_sorted : StronglySorted (λ f g, (ord st g < ord st f)%N) (tj_stack st);
  nk_closed : ∀ f g, assigned st f → calls callees f g → assigned st g;
  nk_component : ∀ f g, assigned st f → assigned st g →
    tj_componentOf st !! f = tj_componentOf st !! g ↔ reach f g ∧ reach g f;
  nk_count : ∃ k, tj_nextComponent st = wrap 32 k ∧ (k ≤ N.of_nat (size (tj_componentOf st)))%N ∧
    ∀ f c, tj_componentOf st !! f = Some c → (c < k)%N;
}.

(** What the stack of visits says about them. *)
Record walk_ok (st : Tarjan) (visits : list Visit) : Prop := {
  wk_numbering : numbering_ok st;
  wk_path : StronglySorted (λ f g, (ord st g < ord st f)%N) (visiting visits);
  wk_visiting : ∀ v, v ∈ visiting visits → v ∈ tj_stack st;
  wk_down : ∀ f g, f ∈ tj_stack st → g ∈ tj_stack st → (ord st f ≤ ord st g)%N → reach f g;
  wk_up : ∀ f, f ∈ tj_stack st →
    ∃ v, v ∈ visiting visits ∧ (ord st v ≤ ord st f)%N ∧ reach f v;
  wk_followed : ∀ f g, numbered st f → followed visits f g → numbered st g;
  wk_low : ∀ v, v ∈ visiting visits →
    ∃ f, f ∈ tj_stack st ∧ ord st f = low st v ∧ reach v f ∧ (low st v ≤ ord st v)%N;
  wk_segment : ∀ v f g, v ∈ visiting visits → f ∈ tj_stack st → g ∈ tj_stack st →
    owner st visits v f → followed visits f g → (low st v ≤ ord st g)%N;
}.

Lemma sorted_head_max {A} (key : A → N) (a b : A) (l : list A) :
  StronglySorted (λ x y, (key y < key x)%N) (a :: l) → b ∈ a :: l → (key b ≤ key a)%N.
Proof.
  intros [_ Hall]%StronglySorted_inv [->|Hb]%elem_of_cons; [lia|].
  rewrite Forall_forall in Hall. apply Hall in Hb. lia.
Qed.

Lemma sorted_tail_lt {A} (key : A → N) (a b : A) (l : list A) :
  StronglySorted (λ x y, (key y < key x)%N) (a :: l) → b ∈ l → (key b < key a)%N.
Proof.
  intros [_ Hall]%StronglySorted_inv Hb. rewrite Forall_forall in Hall. by apply Hall.
Qed.

Lemma sorted_key_inj {A} (key : A → N) (a b : A) (l : list A) :
  StronglySorted (λ x y, (key y < key x)%N) l → a ∈ l → b ∈ l → key a = key b → a = b.
Proof.
  induction 1 as [|x l Hs IH Hall]; [by intros ?%elem_of_nil|]. rewrite Forall_forall in Hall.
  intros [->|Ha]%elem_of_cons [->|Hb]%elem_of_cons E; [done| | |by apply IH].
  - apply Hall in Hb. lia.
  - apply Hall in Ha. lia.
Qed.

Lemma visit_top_max st visits v f :
  StronglySorted (λ f g, (ord st g < ord st f)%N) (visiting visits) →
  v ∈ visiting visits → head (visiting visits) = Some f → (ord st v ≤ ord st f)%N.
Proof.
  destruct visits as [|u rest]; [done|]. cbn. intros Hs Hv [= <-]. by eapply sorted_head_max.
Qed.

Section steps.
Context (st : Tarjan) (visits : list Visit) (Hok : walk_ok st visits).
Let Hn : numbering_ok st := wk_numbering _ _ Hok.

Lemma on_stack_numbered f : f ∈ tj_stack st → numbered st f.
Proof. intros. apply (nk_seen _ Hn). auto. Qed.

Lemma visiting_numbered v : v ∈ visiting visits → numbered st v.
Proof. intros. by apply on_stack_numbered, (wk_visiting _ _ Hok). Qed.

Lemma stack_ord_inj f g :
  f ∈ tj_stack st → g ∈ tj_stack st → ord st f = ord st g → f = g.
Proof. apply sorted_key_inj, (nk_sorted _ Hn). Qed.

Lemma numbered_in_graph f : numbered st f → f ∈ U.
Proof. intros Hf. apply (nk_graph _ Hn). by apply elem_of_dom. Qed.

(** Everything on the stack reaches the visit on top. *)
Lemma stack_reaches_top f top :
  f ∈ tj_stack st → head (visiting visits) = Some top → reach f top.
Proof.
  intros Hf Htop. destruct (wk_up _ _ Hok f Hf) as (v & Hv & Hle & Hr).
  etrans; [exact Hr|]. apply (wk_down _ _ Hok).
  - by apply (wk_visiting _ _ Hok).
  - apply (wk_visiting _ _ Hok). destruct (visiting visits); [done|]. injection Htop as ->. left.
  - by eapply visit_top_max; [apply (wk_path _ _ Hok)| |].
Qed.

Lemma assigned_reach f g : assigned st f → reach f g → assigned st g.
Proof. intros Hf. induction 1 as [|f h g Hc _ IH]; [done|]. by apply IH, (nk_closed _ Hn f). Qed.

(** *** Entering a function *)

Section enter.
Context (w : string) (visits0 : list Visit).
Hypothesis Hsmall : (N.of_nat (size U) ≤ 2 ^ 32)%N.
Hypothesis Hw : w ∈ U.
Hypothesis Hnew : ¬ numbered st w.
Hypothesis Hsame : visiting visits0 = visiting visits.
Hypothesis Hfollowed : ∀ f g, followed visits0 f g → followed visits f g ∨ g = w.
Hypothesis Hreach : ∀ f, f ∈ tj_stack st → reach f w.
Let st' := (enter w st visits0).1.
Let visits' := (enter w st visits0).2.

Lemma enter_number : tj_nextOrder st = N.of_nat (size (tj_order st)).
Proof.
  rewrite (nk_next _ Hn). unfold wrap. apply N.mod_small.
  assert (size (dom (tj_order st)) < size U); [|rewrite size_dom in *; lia].
  apply subset_size. split; [apply (nk_graph _ Hn)|]. intros Hsub. apply Hnew, elem_of_dom.
  by apply Hsub.
Qed.

Lemma enter_ord_new : ord st' w = N.of_nat (size (tj_order st)).
Proof. unfold ord, counter, st'. cbn. by rewrite lookup_insert_eq, enter_number. Qed.

Lemma enter_ord f : numbered st f → ord st' f = ord st f.
Proof.
  intros Hf. unfold ord, counter, st'. cbn. rewrite lookup_insert_ne; [done|]. by intros ->.
Qed.

Lemma enter_low f : numbered st f → low st' f = low st f.
Proof.
  intros Hf. unfold low, counter, st'. cbn. rewrite lookup_insert_ne; [done|]. by intros ->.
Qed.

Lemma enter_numbered f : numbered st' f ↔ f = w ∨ numbered st f.
Proof.
  unfold numbered, st'. cbn. destruct (decide (f = w)) as [->|Hne].
  - rewrite lookup_insert_eq. split; eauto.
  - rewrite lookup_insert_ne by done. tauto.
Qed.

Lemma enter_ord_lt f : numbered st f → (ord st' f < ord st' w)%N.
Proof. intros Hf. rewrite enter_ord, enter_ord_new by done. by apply (nk_bound _ Hn). Qed.

Lemma enter_size : size (tj_order st') = S (size (tj_order st)).
Proof. apply map_size_insert_None. by apply eq_None_not_Some. Qed.

Lemma enter_sorted (l : list string) :
  (∀ f, f ∈ l → numbered st f) → StronglySorted (λ f g, (ord st g < ord st f)%N) l →
  StronglySorted (λ f g, (ord st' g < ord st' f)%N) (w :: l).
Proof.
  intros Hl Hs. constructor.
  - induction Hs as [|f l Hs IH Hall]; constructor; [by apply IH; set_solver|].
    rewrite Forall_forall in *. intros g Hg. rewrite !enter_ord by set_solver. by apply Hall.
  - apply Forall_forall. intros g Hg. by apply enter_ord_lt, Hl.
Qed.

Lemma enter_numbering : numbering_ok st'.
Proof.
  constructor.
  - intros f. rewrite enter_numbered, (nk_seen _ Hn). unfold st', assigned. cbn.
    rewrite elem_of_cons. tauto.
  - intros f [->|Hf]%elem_of_cons Ha; [|by eapply (nk_disjoint _ Hn)].
    apply Hnew, (nk_seen _ Hn). auto.
  - unfold st'. cbn. rewrite dom_insert_L. pose proof (nk_graph _ Hn). set_solver.
  - intros f. unfold st'. cbn. rewrite elem_of_union, elem_of_singleton, elem_of_cons,
      (nk_onStack _ Hn). done.
  - intros f Hf. rewrite enter_size. apply enter_numbered in Hf as [->|Hf].
    + rewrite enter_ord_new. lia.
    + rewrite enter_ord by done. pose proof (nk_bound _ Hn f Hf). lia.
  - rewrite enter_size. unfold st'. cbn. rewrite enter_number. f_equal. lia.
  - apply enter_sorted; [apply on_stack_numbered|apply (nk_sorted _ Hn)].
  - apply (nk_closed _ Hn).
  - apply (nk_component _ Hn).
  - apply (nk_count _ Hn).
Qed.

Lemma enter_visiting : visiting visits' = w :: visiting visits.
Proof. rewrite <- Hsame. done. Qed.

Lemma enter_followed f g : followed visits' f g → f ≠ w ∧ (followed visits f g ∨ g = w).
Proof.
  intros [Hc Hv]. split.
  - intros ->. destruct (Hv (MkVisit w 0)) as (i & Hi & _); [left|done|]. cbn in Hi. lia.
  - apply Hfollowed. split; [done|]. intros visit Hvisit. apply Hv. by right.
Qed.

Lemma enter_owner v f :
  v ∈ visiting visits → numbered st f → owner st' visits' v f → owner st visits v f.
Proof.
  intros Hv Hf [Hle Hmax]. pose proof (visiting_numbered _ Hv) as Hvn.
  rewrite !enter_ord in Hle by done. split; [done|]. intros u Hu Hul.
  pose proof (visiting_numbered _ Hu) as Hun.
  specialize (Hmax u). rewrite !enter_ord in Hmax by done. apply Hmax; [|done].
  rewrite enter_visiting. by right.
Qed.

Lemma enter_ok : walk_ok st' visits'.
Proof.
  constructor.
  - apply enter_numbering.
  - rewrite enter_visiting. apply enter_sorted; [apply visiting_numbered|].
    apply (wk_path _ _ Hok).
  - rewrite enter_visiting. intros v [->|Hv]%elem_of_cons; [left|].
    right. by apply (wk_visiting _ _ Hok).
  - intros f g [->|Hf]%elem_of_cons [->|Hg]%elem_of_cons Hle; [done| |by apply Hreach|].
    + pose proof (enter_ord_lt g (on_stack_numbered _ Hg)). lia.
    + rewrite !enter_ord in Hle by (by apply on_stack_numbered). by apply (wk_down _ _ Hok).
  - intros f [->|Hf]%elem_of_cons; [exists w; rewrite enter_visiting; split_and!; [left|lia|done]|].
    destruct (wk_up _ _ Hok f Hf) as (v & Hv & Hle & Hr). exists v.
    rewrite enter_visiting. split_and!; [by right| |done].
    by rewrite !enter_ord by auto using on_stack_numbered, visiting_numbered.
  - intros f g [->|Hf]%enter_numbered [Hne Hfg]%enter_followed; [done|].
    apply enter_numbered. destruct Hfg as [Hfg| ->]; [right|by left].
    by eapply (wk_followed _ _ Hok).
  - rewrite enter_visiting. intros v [->|Hv]%elem_of_cons.
    { exists w. unfold low, ord, counter, st'. cbn. rewrite !lookup_insert_eq. cbn.
      split_and!; [left|done|done|lia]. }
    destruct (wk_low _ _ Hok v Hv) as (f & Hf & E & Hr & Hle). exists f.
    rewrite !enter_ord, enter_low by auto using on_stack_numbered, visiting_numbered.
    split_and!; [by right|done|done|done].
  - rewrite enter_visiting. intros v f g Hv Hf Hg Ho [Hne Hfg]%enter_followed.
    apply elem_of_cons in Hf as [->|Hf]; [done|]. pose proof (on_stack_numbered _ Hf) as Hfn.
    apply elem_of_cons in Hv as [->|Hv].
    { destruct Ho as [Ho _]. pose proof (enter_ord_lt f Hfn). lia. }
    pose proof (visiting_numbered _ Hv) as Hvn. rewrite enter_low by done.
    destruct (wk_low _ _ Hok v Hv) as (_ & _ & _ & _ & Hle).
    apply elem_of_cons in Hg as [->|Hg].
    { pose proof (enter_ord_lt v Hvn) as Hlt. rewrite enter_ord in Hlt by done. lia. }
    pose proof (on_stack_numbered _ Hg) as Hgn. rewrite enter_ord by done.
    destruct Hfg as [Hfg| ->]; [|done]. apply (wk_segment _ _ Hok v f g); auto using enter_owner.
Qed.
End enter.
End steps.

(** *** Following a call *)

Lemma bump_followed visit rest callee f g :
  calleesOf callees (vis_function visit) !! vis_nextCallee visit = Some callee →
  followed (MkVisit (vis_function visit) (S (vis_nextCallee visit)) :: rest) f g →
  followed (visit :: rest) f g ∨ (f = vis_function visit ∧ g = callee).
Proof.
  intros Hnext [Hc Hv]. destruct (decide (f = vis_function visit)) as [->|Hne].
  - destruct (Hv _ (list_elem_of_here _ _) eq_refl) as (i & Hi & Hg). cbn in Hi.
    destruct (decide (i = vis_nextCallee visit)) as [->|Hi']; [right; split; congruence|].
    left. split; [done|]. intros u [->|Hu]%elem_of_cons E; [exists i; split; [lia|done]|].
    apply Hv; [by right|done].
  - left. split; [done|]. intros u [->|Hu]%elem_of_cons E; [done|]. apply Hv; [by right|done].
Qed.

(** Changing the lowest number of one visit, and calls followed to numbered
    functions, keep the walk in order. *)
Lemma relax_ok st visits visits0 function n :
  walk_ok st visits → visiting visits0 = visiting visits →
  (n ≤ low st function)%N →
  (function ∈ visiting visits → ∃ f, f ∈ tj_stack st ∧ ord st f = n ∧ reach function f) →
  (∀ f g, followed visits0 f g → followed visits f g ∨
    (f = function ∧ function ∈ visiting visits ∧ numbered st g ∧
     (g ∈ tj_stack st → (n ≤ ord st g)%N))) →
  walk_ok (set_lowest function n st) visits0.
Proof.
  intros Hok Hsame Hle Hlow Hfollowed.
  assert (∀ v, (low (set_lowest function n st) v ≤ low st v)%N) as Hless.
  { intros v. unfold low, counter. cbn. destruct (decide (v = function)) as [->|Hne].
    - by rewrite lookup_insert_eq.
    - by rewrite lookup_insert_ne. }
  assert (low (set_lowest function n st) function = n) as Hset.
  { unfold low, counter. cbn. by rewrite lookup_insert_eq. }
  constructor; rewrite ?Hsame; try apply Hok.
  - destruct (wk_numbering _ _ Hok). by constructor.
  - intros f g Hf [Hfg|(-> & Hv & Hg & _)]%Hfollowed; [|done]. by apply (wk_followed _ _ Hok f).
  - intros v Hv. destruct (wk_low _ _ Hok v Hv) as (f & Hf & E & Hr & Hfl).
    destruct (decide (v = function)) as [->|Hne].
    + destruct (Hlow Hv) as (h & Hh & Eh & Hrh). exists h. rewrite Hset.
      split_and!; [done|done|done|]. unfold ord in *. cbn. lia.
    + exists f. unfold low, counter. cbn. rewrite lookup_insert_ne by done.
      by split_and!.
  - intros v f g Hv Hf Hg Ho [Hfg|(-> & Htop & _ & Hng)]%Hfollowed.
    + etrans; [apply Hless|]. apply (wk_segment _ _ Hok v f g); try done.
      unfold owner in *. by rewrite Hsame in Ho.
    + destruct Ho as [Ho1 Ho2]. rewrite Hsame in Ho2.
      specialize (Ho2 function Htop (N.le_refl _)).
      assert (v = function) as ->; [|rewrite Hset; by apply Hng].
      eapply stack_ord_inj; [done| | |]; try (by apply (wk_visiting _ _ Hok)).
      unfold ord in *. cbn in *. lia.
Qed.

Lemma visitNext_ok st visit rest callee :
  (N.of_nat (size U) ≤ 2 ^ 32)%N → walk_ok st (visit :: rest) →
  calleesOf callees (vis_function visit) !! vis_nextCallee visit = Some callee →
  walk_ok (visitNext st visit rest callee).1 (visitNext st visit rest callee).2.
Proof.
  intros Hsmall Hok Hnext. unfold visitNext. set (v := vis_function visit) in *.
  assert (calls callees v callee) as Hcall by (by eapply list_elem_of_lookup_2).
  assert (v ∈ visiting (visit :: rest)) as Hv by (by left).
  pose proof (visiting_numbered _ _ Hok _ Hv) as Hvn.
  pose proof (λ f g, bump_followed visit rest callee f g Hnext) as Hbump. fold v in Hbump.
  destruct (wk_low _ _ Hok v Hv) as (low_f & Hlf & El & Hlr & Hll).
  case_bool_decide as Hnew; [|case_bool_decide as Hon].
  - apply enter_ok with (visit :: rest); try done.
    + apply elem_of_union. right. by eapply calls_all.
    + unfold numbered. rewrite Hnew. by intros [??].
    + intros f g [?|[-> ->]]%Hbump; auto.
    + intros f Hf. eapply rtc_r; [|exact Hcall]. by eapply stack_reaches_top; [exact Hok| |].
  - assert (numbered st callee) as Hcn by (by apply not_eq_None_Some).
    apply (nk_onStack _ (wk_numbering _ _ Hok)) in Hon.
    apply relax_ok with (visit :: rest); try done; [apply N.le_min_l| |].
    + intros _. change (counter (tj_lowest st) v) with (low st v).
      change (counter (tj_order st) callee) with (ord st callee).
      destruct (N.min_spec (low st v) (ord st callee)) as [[_ ->]|[_ ->]]; [by exists low_f|].
      exists callee. split_and!; [done|done|by apply rtc_once].
    + intros f g [?|[-> ->]]%Hbump; [auto|]. right. split_and!; try done.
      intros _. apply N.le_min_r.
  - assert (numbered st callee) as Hcn by (by apply not_eq_None_Some).
    constructor; try apply Hok.
    + intros f g Hf [Hfg|[-> ->]]%Hbump; [|done]. by apply (wk_followed _ _ Hok f).
    + intros u f g Hu Hf Hg Ho [Hfg|[-> ->]]%Hbump; [by apply (wk_segment _ _ Hok u f g)|].
      by apply (nk_onStack _ (wk_numbering _ _ Hok)) in Hg.
Qed.

(** *** Leaving a function *)

Lemma tellCaller_ok st visit rest :
  walk_ok st (visit :: rest) → walk_ok (tellCaller st (vis_function visit) rest) (visit :: rest).
Proof.
  intros Hok. destruct rest as [|caller rest]; [done|]. cbn. set (c := vis_function caller).
  set (v := vis_function visit). assert (v ∈ visiting (visit :: caller :: rest)) as Hv by left.
  assert (c ∈ visiting (visit :: caller :: rest)) as Hc by (right; left).
  apply relax_ok with (visit :: caller :: rest); try done; [apply N.le_min_l| |by auto].
  intros _. change (counter (tj_lowest st) ?f) with (low st f).
  destruct (wk_low _ _ Hok v Hv) as (f & Hf & Ef & Hrf & Hlf).
  destruct (wk_low _ _ Hok c Hc) as (g & Hg & Eg & Hrg & Hlg).
  destruct (N.min_spec (low st c) (low st v)) as [[_ ->]|[_ ->]]; [by exists g|].
  exists f. split_and!; [done|done|]. etrans; [|exact Hrf].
  apply (wk_down _ _ Hok); try by apply (wk_visiting _ _ Hok).
  apply N.lt_le_incl. eapply (sorted_tail_lt (ord st)); [apply (wk_path _ _ Hok)|left].
Qed.

Lemma tellCaller_low st visit rest f :
  walk_ok st (visit :: rest) →
  (low (tellCaller st (vis_function visit) rest) (vis_function visit) = low st (vis_function visit)) ∧
  (head (visiting rest) = Some f →
    low (tellCaller st (vis_function visit) rest) f ≤ low st (vis_function visit))%N.
Proof.
  intros Hok. destruct rest as [|caller rest]; [done|]. cbn. unfold low, counter. cbn. split.
  - rewrite lookup_insert_ne; [done|]. intros E.
    pose proof (sorted_tail_lt (ord st) _ (vis_function caller) _ (wk_path _ _ Hok)) as Hlt.
    rewrite E in Hlt. specialize (Hlt (list_elem_of_here _ _)). cbn in Hlt. lia.
  - intros [= <-]. rewrite lookup_insert_eq. apply N.le_min_r.
Qed.

Section leave.
Context (st : Tarjan) (visit : Visit) (rest : list Visit) (Hok : walk_ok st (visit :: rest)).
Let v := vis_function visit.
Hypothesis Hdone : calleesOf callees v !! vis_nextCallee visit = None.
Let Hn : numbering_ok st := wk_numbering _ _ Hok.

Lemma leave_followed f g : followed rest f g → followed (visit :: rest) f g.
Proof.
  intros [Hc Hv]. split; [done|]. intros u [->|Hu]%elem_of_cons E; [|by apply Hv].
  apply list_elem_of_lookup_1 in Hc as [i Hi]. exists i. split; [|done].
  apply lookup_lt_Some in Hi as Hlt. apply lookup_ge_None_1 in Hdone. unfold v in Hdone.
  rewrite E in Hdone. lia.
Qed.

Lemma rest_below u : u ∈ visiting rest → (ord st u < ord st v)%N.
Proof. intros Hu. by eapply (sorted_tail_lt (ord st)); [apply (wk_path _ _ Hok)|]. Qed.

Lemma rest_path : StronglySorted (λ f g, (ord st g < ord st f)%N) (visiting rest).
Proof. exact (proj1 (StronglySorted_inv (wk_path _ _ Hok))). Qed.

Lemma top_on_stack : v ∈ tj_stack st.
Proof. apply (wk_visiting _ _ Hok). left. Qed.

(** Everything numbered from the function on is owned by it, the rest by the same
    visit as before. *)
Lemma top_owns f : (ord st v ≤ ord st f)%N → owner st (visit :: rest) v f.
Proof.
  intros Hle. split; [done|]. intros u [->|Hu]%elem_of_cons _; [done|].
  apply rest_below in Hu. lia.
Qed.

Lemma rest_owner u f :
  (ord st f < ord st v)%N → owner st rest u f → owner st (visit :: rest) u f.
Proof.
  intros Hlt [Hle Hmax]. split; [done|]. intros w [->|Hw]%elem_of_cons Hwf; [|by apply Hmax].
  unfold v in Hlt. lia.
Qed.

(** A function that reaches back below itself joins its caller's segment. *)
Lemma leave_ok :
  low st v ≠ ord st v → (∀ c, head (visiting rest) = Some c → (low st c ≤ low st v)%N) →
  walk_ok st rest.
Proof.
  intros Hlow Hcaller.
  destruct (wk_low _ _ Hok v) as (y & Hy & Ey & Hry & Hly); [left|].
  assert (∀ f, f ∈ tj_stack st → ∃ u, u ∈ visiting rest ∧ (ord st u ≤ ord st f)%N ∧ reach f u) as Hup.
  { destruct (wk_up _ _ Hok y Hy) as (w & Hw & Hwy & Hyw).
    apply elem_of_cons in Hw as [->|Hw]; [fold v in Hwy; lia|].
    intros f Hf. destruct (wk_up _ _ Hok f Hf) as (u & Hu & Huf & Hfu).
    apply elem_of_cons in Hu as [->|Hu]; [|by exists u]. fold v in Huf, Hfu.
    exists w. split_and!; [done|lia|]. by do 2 (etrans; [eassumption|]). }
  constructor; try apply Hok.
  - apply rest_path.
  - intros u Hu. apply (wk_visiting _ _ Hok). by right.
  - done.
  - intros f g Hf Hfg. apply (wk_followed _ _ Hok f g Hf). by apply leave_followed.
  - intros u Hu. apply (wk_low _ _ Hok). by right.
  - intros u f g Hu Hf Hg Ho Hfg%leave_followed.
    destruct (decide (ord st v ≤ ord st f)%N) as [Hle|Hlt].
    + etrans; [|apply (wk_segment _ _ Hok v f g); try done; [left|by apply top_owns]].
      destruct (head (visiting rest)) as [c|] eqn:Ec;
        [|apply head_None in Ec; rewrite Ec in Hu; by apply elem_of_nil in Hu].
      assert (c ∈ visiting rest) as Hc by (by apply head_Some_elem_of).
      assert (u = c) as ->; [|by apply Hcaller].
      apply (stack_ord_inj st _ Hok); try (apply (wk_visiting _ _ Hok); by right).
      destruct Ho as [_ Hmax]. specialize (Hmax c Hc). pose proof (rest_below c Hc).
      pose proof (visit_top_max _ _ u c rest_path Hu Ec). lia.
    + apply (wk_segment _ _ Hok u f g); try done; [by right|]. apply rest_owner; [lia|done].
Qed.

(** *** Taking a component from the stack *)

Section component.
Context (seg below : list string).
Hypothesis Hstack : tj_stack st = seg ++ v :: below.
Hypothesis Hroot : low st v = ord st v.
Context (k : N).
Hypothesis Hk : tj_nextComponent st = k.
Hypothesis Hfresh : ∀ f c, tj_componentOf st !! f = Some c → (c < k)%N.

Lemma members_sorted : StronglySorted (λ f g, (ord st g < ord st f)%N) (seg ++ v :: below).
Proof. rewrite <- Hstack. apply (nk_sorted _ Hn). Qed.

Lemma below_sorted : StronglySorted (λ f g, (ord st g < ord st f)%N) below.
Proof. pose proof members_sorted as Hs. by apply StronglySorted_app_1_r, StronglySorted_inv in Hs as [? _]. Qed.

Lemma below_lt f : f ∈ below → (ord st f < ord st v)%N.
Proof.
  intros Hf. pose proof members_sorted as Hs. apply StronglySorted_app_1_r in Hs.
  by eapply (sorted_tail_lt (ord st)).
Qed.

Lemma members_ge f : f ∈ seg ++ [v] → (ord st v ≤ ord st f)%N.
Proof.
  intros [Hf|Hf]%elem_of_app; [|apply list_elem_of_singleton in Hf as ->; done].
  pose proof members_sorted as Hs. apply N.lt_le_incl.
  eapply StronglySorted_app_1_elem_of in Hs; [exact Hs|done|left].
Qed.

Lemma stack_split f : f ∈ tj_stack st ↔ f ∈ seg ++ [v] ∨ f ∈ below.
Proof. rewrite Hstack, !elem_of_app, elem_of_cons, list_elem_of_singleton. tauto. Qed.

Lemma members_iff f : f ∈ tj_stack st → f ∈ seg ++ [v] ↔ (ord st v ≤ ord st f)%N.
Proof.
  intros Hf. split; [apply members_ge|]. intros Hle. apply stack_split in Hf as [?|Hf]; [done|].
  apply below_lt in Hf. lia.
Qed.

(** No call leads from a member back to the rest of the stack. *)
Lemma members_closed f g : f ∈ seg ++ [v] → calls callees f g → g ∈ seg ++ [v] ∨ assigned st g.
Proof.
  intros Hf Hc. assert (f ∈ tj_stack st) as Hfs by (apply stack_split; auto).
  assert (followed (visit :: rest) f g) as Hfg.
  { apply leave_followed. split; [done|]. intros u Hu E. exfalso.
    apply members_ge in Hf. rewrite <- E in Hf. pose proof (rest_below (vis_function u)) as Hlt.
    specialize (Hlt (list_elem_of_fmap_2 _ _ _ Hu)). lia. }
  assert (numbered st g) as [Hg|Hg]%(nk_seen _ Hn); [|left|by right].
  { apply (wk_followed _ _ Hok f); [|done]. by eapply on_stack_numbered. }
  apply members_iff; [done|]. rewrite <- Hroot.
  apply (wk_segment _ _ Hok v f g); try done; [left|]. by apply top_owns, members_ge.
Qed.

Lemma members_connected f g : f ∈ seg ++ [v] → g ∈ seg ++ [v] → reach f g.
Proof.
  intros Hf Hg. etrans.
  - eapply stack_reaches_top; [exact Hok| |done]. apply stack_split. auto.
  - apply (wk_down _ _ Hok); [apply top_on_stack|apply stack_split; auto|by apply members_ge].
Qed.

(** The state after the component has left. *)
Context (st' : Tarjan).
Hypothesis Horder : tj_order st' = tj_order st.
Hypothesis Hlowest : tj_lowest st' = tj_lowest st.
Hypothesis Hnext' : tj_nextOrder st' = tj_nextOrder st.
Hypothesis Hstack' : tj_stack st' = below.
Hypothesis HonStack' : ∀ f, f ∈ tj_onStack st' ↔ f ∈ tj_onStack st ∧ f ∉ seg ++ [v].
Hypothesis Hcomponent' : ∀ f, tj_componentOf st' !! f =
  if decide (f ∈ seg ++ [v]) then Some k else tj_componentOf st !! f.
Hypothesis Hcount' : ∃ k', tj_nextComponent st' = wrap 32 k' ∧
  (k' ≤ N.of_nat (size (tj_componentOf st')))%N ∧ (k < k')%N.

Lemma component_assigned f : assigned st' f ↔ f ∈ seg ++ [v] ∨ assigned st f.
Proof. unfold assigned. rewrite Hcomponent'. case_decide; [|tauto]. split; eauto. Qed.

Lemma member_unassigned f : f ∈ seg ++ [v] → ¬ assigned st f.
Proof. intros Hf. apply (nk_disjoint _ Hn), stack_split. auto. Qed.

(** Two functions with a component share it exactly when they reach each other. *)
Lemma component_exact f g : assigned st' f → assigned st' g →
  tj_componentOf st' !! f = tj_componentOf st' !! g ↔ reach f g ∧ reach g f.
Proof.
  assert (∀ f g, f ∈ seg ++ [v] → assigned st g → g ∉ seg ++ [v] →
    Some k = tj_componentOf st !! g ↔ reach f g ∧ reach g f) as Hmix.
  { intros f' g' Hf Hg Hg'. split.
    - intros E. symmetry in E. apply Hfresh in E. lia.
    - intros [_ Hr]. destruct (member_unassigned _ Hf). by eapply assigned_reach. }
  intros Hf%component_assigned Hg%component_assigned. rewrite !Hcomponent'.
  repeat case_decide.
  - split; [|done]. intros _. split; by apply members_connected.
  - destruct Hg; [done|]. by apply Hmix.
  - destruct Hf; [done|]. rewrite (and_comm (reach f g)), <- Hmix by done. by split; intros ->.
  - destruct Hf, Hg; try done. by apply (nk_component _ Hn).
Qed.

Lemma component_numbering : numbering_ok st'.
Proof.
  constructor.
  - intros f. rewrite component_assigned, Hstack'. unfold numbered. rewrite Horder.
    fold (numbered st f). rewrite (nk_seen _ Hn), stack_split. tauto.
  - intros f Hf Ha. rewrite Hstack' in Hf. apply component_assigned in Ha as [Ha|Ha].
    + apply below_lt in Hf. apply members_ge in Ha. lia.
    + apply (nk_disjoint _ Hn f); [|done]. apply stack_split. auto.
  - rewrite Horder. apply (nk_graph _ Hn).
  - intros f. rewrite HonStack', (nk_onStack _ Hn), stack_split, Hstack'. split; [tauto|].
    intros Hf. split; [auto|]. intros Hm. apply below_lt in Hf. apply members_ge in Hm. lia.
  - unfold numbered, ord. rewrite Horder. apply (nk_bound _ Hn).
  - rewrite Hnext', Horder. apply (nk_next _ Hn).
  - unfold ord. rewrite Horder, Hstack'. apply below_sorted.
  - intros f g [Hf|Hf]%component_assigned Hc; apply component_assigned.
    + by apply (members_closed f).
    + right. by apply (nk_closed _ Hn f).
  - apply component_exact.
  - destruct Hcount' as (k' & E & Hle & Hlt). exists k'. split_and!; [done|done|].
    intros f c. rewrite Hcomponent'. case_decide; [by intros [= <-]|].
    intros Hc%Hfresh. lia.
Qed.

Lemma component_ok : walk_ok st' rest.
Proof.
  assert (∀ f, ord st' f = ord st f) as Hord by (intros; unfold ord; by rewrite Horder).
  assert (∀ f, low st' f = low st f) as Hlow by (intros; unfold low; by rewrite Hlowest).
  assert (∀ f, f ∈ below → f ∈ tj_stack st) as Hbs by (intros; apply stack_split; auto).
  assert (∀ f, f ∈ tj_stack st → (ord st f < ord st v)%N → f ∈ below) as Hsb.
  { intros f [Hf|Hf]%stack_split Hlt; [|done]. apply members_ge in Hf. lia. }
  constructor; try setoid_rewrite Hord; try setoid_rewrite Hlow; try rewrite Hstack'.
  - apply component_numbering.
  - unfold ord. rewrite Horder. apply rest_path.
  - intros u Hu. apply Hsb; [|by apply rest_below]. apply (wk_visiting _ _ Hok). by right.
  - intros f g Hf Hg. apply (wk_down _ _ Hok); auto.
  - intros f Hf. destruct (wk_up _ _ Hok f (Hbs f Hf)) as (u & Hu & Hle & Hr).
    apply elem_of_cons in Hu as [->|Hu]; [|eauto]. apply below_lt in Hf. fold v in Hle. lia.
  - unfold numbered. rewrite Horder. intros f g Hf Hfg. apply (wk_followed _ _ Hok f g Hf).
    by apply leave_followed.
  - intros u Hu. destruct (wk_low _ _ Hok u) as (f & Hf & E & Hr & Hle); [by right|].
    exists f. split_and!; try done. apply Hsb; [done|]. apply rest_below in Hu. lia.
  - intros u f g Hu Hf Hg Ho Hfg%leave_followed. apply (wk_segment _ _ Hok u f g); auto; [by right|].
    apply rest_owner; [by apply below_lt|]. unfold owner in *. by setoid_rewrite Hord in Ho.
Qed.
End component.
End leave.

Lemma popMembers_spec v k seg below onStack componentOf :
  v ∉ seg → ∃ onStack' componentOf',
    popMembers v k (seg ++ v :: below) onStack componentOf = Some (below, onStack', componentOf') ∧
    (∀ f, f ∈ onStack' ↔ f ∈ onStack ∧ f ∉ seg ++ [v]) ∧
    (∀ f, componentOf' !! f = if decide (f ∈ seg ++ [v]) then Some k else componentOf !! f).
Proof.
  revert onStack componentOf. induction seg as [|m seg IH]; intros onStack componentOf Hv; cbn.
  - rewrite bool_decide_eq_false_2 by (by intros ?). do 2 eexists. split; [done|]. split.
    + set_solver.
    + intros f. destruct (decide (f = v)) as [->|Hne].
      * rewrite lookup_insert_eq. case_decide; [done|set_solver].
      * rewrite lookup_insert_ne by done. case_decide; [set_solver|done].
  - rewrite bool_decide_eq_true_2 by set_solver.
    destruct (IH (onStack ∖ {[m]}) (<[m := k]> componentOf)) as (on & co & E & Hon & Hco); [set_solver|].
    exists on, co. split; [done|]. split; [set_solver|]. intros f. rewrite Hco.
    destruct (decide (f = m)) as [->|Hne].
    + rewrite lookup_insert_eq. repeat case_decide; try done; set_solver.
    + rewrite lookup_insert_ne by done. repeat case_decide; try done; set_solver.
Qed.

(** The counter of components has not wrapped: one function at least is left. *)
Lemma next_component st f :
  (N.of_nat (size U) ≤ 2 ^ 32)%N → numbering_ok st → f ∈ tj_stack st →
  (∀ g c, tj_componentOf st !! g = Some c → (c < tj_nextComponent st)%N) ∧
  (tj_nextComponent st ≤ N.of_nat (size (tj_componentOf st)))%N.
Proof.
  intros Hsmall Hn Hf. destruct (nk_count _ Hn) as (k & E & Hle & Hlt).
  assert (size (dom (tj_componentOf st)) < size U) as Hsize.
  { apply subset_size. split.
    - intros g Hg%elem_of_dom. apply (nk_graph _ Hn), elem_of_dom. apply (nk_seen _ Hn). by right.
    - intros Hsub. apply (nk_disjoint _ Hn f Hf). apply elem_of_dom, Hsub, (nk_graph _ Hn).
      apply elem_of_dom, (nk_seen _ Hn). by left. }
  rewrite size_dom in Hsize. rewrite E. unfold wrap. rewrite N.mod_small by lia. done.
Qed.

Lemma popComponent_ok st visit rest :
  (N.of_nat (size U) ≤ 2 ^ 32)%N → walk_ok st (visit :: rest) →
  calleesOf callees (vis_function visit) !! vis_nextCallee visit = None →
  low st (vis_function visit) = ord st (vis_function visit) →
  ∃ st', popComponent (vis_function visit) st = Some st' ∧ walk_ok st' rest ∧
    tj_order st' = tj_order st.
Proof.
  intros Hsmall Hok Hdone Hroot. set (v := vis_function visit) in *.
  pose proof (wk_numbering _ _ Hok) as Hn.
  assert (v ∈ tj_stack st) as Hv by (apply (wk_visiting _ _ Hok); left).
  destruct (next_component st v Hsmall Hn Hv) as [Hfresh Hle].
  destruct (list_elem_of_split_l _ _ Hv) as (seg & below & Hstack & Hseg).
  destruct (popMembers_spec v (tj_nextComponent st) seg below (tj_onStack st) (tj_componentOf st) Hseg)
    as (on & co & E & Hon & Hco).
  unfold popComponent. rewrite Hstack, E. eexists. split; [done|]. split; [|done].
  eapply component_ok with (k := tj_nextComponent st) (seg := seg) (below := below); try done.
  exists (tj_nextComponent st + 1)%N. cbn. split_and!; [done| |lia].
  assert (size (tj_componentOf st) < size co); [|lia]. rewrite <- !size_dom.
  apply subset_size. split.
  - intros f [c Hc]%elem_of_dom. apply elem_of_dom. rewrite Hco. case_decide; eauto.
  - intros Hsub. apply (nk_disjoint _ Hn v Hv), elem_of_dom, Hsub, elem_of_dom. rewrite Hco.
    rewrite decide_True by set_solver. eauto.
Qed.

(** ** One iteration, and the loop *)

(** Callees and exits the walk has left. *)
Definition visitsCost (visits : list Visit) : nat :=
  sum_list_with (λ visit, S (length (calleesOf callees (vis_function visit)) - vis_nextCallee visit)) visits.
Definition remaining (st : Tarjan) (visits : list Visit) : nat :=
  totalCost callees (U ∖ dom (tj_order st)) + visitsCost visits.

Lemma totalCost_remove f X : f ∈ X → totalCost callees X = visitCost callees f + totalCost callees (X ∖ {[f]}).
Proof.
  intros Hf. unfold totalCost. rewrite (union_difference_L {[f]} X) at 1 by set_solver.
  rewrite elements_disj_union by set_solver. rewrite elements_singleton. done.
Qed.

Lemma totalCost_mono X Y : X ⊆ Y → totalCost callees X ≤ totalCost callees Y.
Proof.
  intros Hsub. unfold totalCost. rewrite (union_difference_L X Y) by done.
  rewrite elements_disj_union by set_solver. rewrite sum_list_with_app. lia.
Qed.

Lemma enter_remaining w st visits :
  w ∈ U → ¬ numbered st w →
  remaining (enter w st visits).1 (enter w st visits).2 = remaining st visits.
Proof.
  intros Hw Hnew. unfold remaining, visitsCost, enter.
  cbn [fst snd tj_order sum_list_with vis_function vis_nextCallee]. rewrite dom_insert_L.
  rewrite (totalCost_remove w (U ∖ dom (tj_order st))).
  - rewrite difference_difference_l_L, (union_comm_L {[w]}). unfold visitCost. lia.
  - apply elem_of_difference. split; [done|]. by rewrite elem_of_dom.
Qed.

Lemma visitStep_ok st visit rest :
  (N.of_nat (size U) ≤ 2 ^ 32)%N → walk_ok st (visit :: rest) →
  ∃ st' visits', visitStep callees st visit rest = Some (st', visits') ∧ walk_ok st' visits' ∧
    dom (tj_order st) ⊆ dom (tj_order st') ∧
    remaining st' visits' < remaining st (visit :: rest).
Proof.
  intros Hsmall Hok. unfold visitStep. set (v := vis_function visit).
  destruct (calleesOf callees v !! vis_nextCallee visit) as [callee|] eqn:Hnext.
  - pose proof (visitNext_ok st visit rest callee Hsmall Hok Hnext) as Hok'.
    destruct (visitNext st visit rest callee) as [st' visits'] eqn:E. exists st', visits'.
    split; [done|]. split; [done|]. apply lookup_lt_Some in Hnext as Hlt.
    assert (callee ∈ U) as HU.
    { apply elem_of_union. right. eapply calls_all. by eapply list_elem_of_lookup_2. }
    assert (∀ st0, dom (tj_order st0) = dom (tj_order st) →
      remaining st0 (MkVisit v (S (vis_nextCallee visit)) :: rest) < remaining st (visit :: rest)) as Hbump.
    { intros st0 Hdom. unfold remaining, visitsCost. rewrite Hdom. cbn. fold v. lia. }
    unfold visitNext in E. fold v in E. repeat case_bool_decide.
    + pose proof (enter_remaining callee st (MkVisit v (S (vis_nextCallee visit)) :: rest) HU) as Hr.
      rewrite E in Hr. cbn in Hr. rewrite Hr by (by apply eq_None_not_Some).
      split; [|by apply Hbump]. injection E as <- <-. cbn. rewrite dom_insert_L. set_solver.
    + injection E as <- <-. split; [done|]. by apply Hbump.
    + injection E as <- <-. split; [done|]. by apply Hbump.
  - pose proof (tellCaller_ok st visit rest Hok) as Hok'. fold v in Hok'.
    destruct (tellCaller_low st visit rest v Hok) as [Hlow _]. fold v in Hlow.
    assert (tj_order (tellCaller st v rest) = tj_order st) as Horder by (by destruct rest).
    assert (remaining (tellCaller st v rest) rest < remaining st (visit :: rest)) as Hless.
    { unfold remaining, visitsCost. rewrite Horder. cbn. lia. }
    change (counter (tj_lowest ?x) ?f) with (low x f). change (counter (tj_order ?x) ?f) with (ord x f).
    case_bool_decide as Hc.
    + exists (tellCaller st v rest), rest. split; [done|]. split; [|by rewrite Horder].
      eapply leave_ok; [exact Hok'|exact Hnext|exact Hc|]. intros c Hhead.
      destruct (tellCaller_low st visit rest c Hok) as [_ Hle]. fold v in Hle. specialize (Hle Hhead). fold v. lia.
    + destruct (popComponent_ok _ _ _ Hsmall Hok' Hnext Hc) as (st' & E & Hok'' & Horder').
      fold v in E. exists st', rest. rewrite E. split; [done|]. split; [done|].
      rewrite Horder', Horder. split; [done|]. unfold remaining in *. by rewrite Horder', Horder in *.
Qed.

Lemma visitLoop_ok fuel st visits :
  (N.of_nat (size U) ≤ 2 ^ 32)%N → walk_ok st visits → remaining st visits ≤ fuel →
  ∃ st', visitLoop callees fuel st visits = Some st' ∧ walk_ok st' [] ∧
    dom (tj_order st) ⊆ dom (tj_order st').
Proof.
  intros Hsmall. revert st visits. induction fuel as [|fuel IH]; intros st visits Hok Hle;
    (destruct visits as [|visit rest]; [by exists st|]).
  - unfold remaining, visitsCost in Hle. cbn in Hle. lia.
  - destruct (visitStep_ok st visit rest Hsmall Hok) as (st' & visits' & E & Hok' & Hsub & Hlt).
    destruct (IH st' visits' Hok') as (st'' & E' & Hok'' & Hsub'); [lia|].
    exists st''. cbn. rewrite E. split; [done|]. split; [done|]. by etrans.
Qed.

Lemma visitRoot_ok root st :
  (N.of_nat (size U) ≤ 2 ^ 32)%N → root ∈ dom callees → walk_ok st [] →
  ∃ st', visitRoot callees root st = Some st' ∧ walk_ok st' [] ∧ numbered st' root ∧
    dom (tj_order st) ⊆ dom (tj_order st').
Proof.
  intros Hsmall Hroot Hok. unfold visitRoot. case_bool_decide as Hnew; [by exists st|].
  assert (root ∈ U) as HU by (apply elem_of_union; by left).
  assert (∀ f, f ∉ tj_stack st) as Hempty.
  { intros f Hf. destruct (wk_up _ _ Hok f Hf) as (v & Hv & _). by apply elem_of_nil in Hv. }
  pose proof (enter_ok st [] Hok root [] Hsmall HU Hnew eq_refl) as Hok'.
  pose proof (enter_remaining root st [] HU Hnew) as Hrem.
  destruct (enter root st []) as [st1 visits1] eqn:E.
  destruct (visitLoop_ok (totalCost callees U) st1 visits1 Hsmall) as (st' & E' & Hok'' & Hsub).
  - apply Hok'; [auto|]. intros f Hf. by apply Hempty in Hf.
  - cbn in Hrem. rewrite Hrem. unfold remaining, visitsCost. cbn.
    rewrite Nat.add_0_r. apply totalCost_mono. set_solver.
  - exists st'. split; [done|]. split; [done|]. injection E as <- <-. cbn in Hsub.
    rewrite dom_insert_L in Hsub. split; [apply elem_of_dom|]; set_solver.
Qed.

Lemma no_tarjan_ok : walk_ok no_tarjan [].
Proof.
  constructor; try (by intros ? ?%elem_of_nil); [|constructor|by intros ?? ?%elem_of_nil| |by intros ??? ?%elem_of_nil].
  - constructor; try done; try (by intros ? [? ?]); try (by intros ? ? [? ?]).
    + intros f. split; [by intros [? ?]|]. by intros [?%elem_of_nil|[? ?]].
    + intros f. split; intros Hf; [by apply elem_of_empty in Hf|by apply elem_of_nil in Hf].
    + constructor.
    + exists 0%N. done.
  - intros f g [? ?]. done.
Qed.

(** Visiting every root numbers every function and assigns it a component. *)
Lemma visitRoots_ok roots :
  (N.of_nat (size U) ≤ 2 ^ 32)%N → (∀ root, root ∈ roots → root ∈ dom callees) →
  ∃ st, foldl (λ st root, st ← st; visitRoot callees root st) (Some no_tarjan) roots = Some st ∧
    walk_ok st [] ∧ ∀ root, root ∈ roots → numbered st root.
Proof.
  intros Hsmall. induction roots as [|root roots IH] using rev_ind; intros Hroots.
  { exists no_tarjan. split; [done|]. split; [apply no_tarjan_ok|]. by intros ? ?%elem_of_nil. }
  destruct IH as (st & E & Hok & Hnum); [set_solver|]. rewrite foldl_snoc, E. cbn.
  destruct (visitRoot_ok root st Hsmall) as (st' & E' & Hok' & Hn & Hsub); [set_solver|done|].
  exists st'. split; [done|]. split; [done|]. intros r [Hr| ->%list_elem_of_singleton]%elem_of_app; [|done].
  apply elem_of_dom, Hsub, elem_of_dom. by apply Hnum.
Qed.

(** Once no visit is left, a function with a number has a component, and so have
    its callees. *)
Lemma finished_assigned st f : walk_ok st [] → numbered st f → assigned st f.
Proof.
  intros Hok [Hf|Hf]%(nk_seen _ (wk_numbering _ _ Hok)); [|done].
  destruct (wk_up _ _ Hok f Hf) as (v & Hv & _). by apply elem_of_nil in Hv.
Qed.
End invariant.

(** ** The calls recorded *)

Lemma calleesByCaller_calls sites f g :
  calls (calleesByCaller sites) f g ↔
  ∃ site, site ∈ sites ∧ dcs_callerFunctionId site = f ∧ dcs_calleeFunctionId site = g.
Proof.
  unfold calleesByCaller.
  rewrite (fold_calls (λ site, Some (dcs_callerFunctionId site, dcs_calleeFunctionId site))).
  - split.
    + intros [[]%elem_of_nil|(site & Hs & [= <- <-])]. eauto.
    + intros (site & Hs & <- & <-). eauto.
  - intros callees site _. rewrite addCallee_calls. split; intros [?|E]; auto; right.
    + by destruct E as [-> ->].
    + by injection E as <- <-.
Qed.

Lemma calls_dom callees f g : calls callees f g → f ∈ dom callees.
Proof.
  unfold calls, calleesOf. intros Hc. apply elem_of_dom. destruct (callees !! f); [by eexists|].
  by apply elem_of_nil in Hc.
Qed.

(** The last loop, once every site's functions have components. *)
Lemma recordClosing_spec componentOf sites :
  (∀ site, site ∈ sites → is_Some (componentOf !! dcs_callerFunctionId site) ∧
    is_Some (componentOf !! dcs_calleeFunctionId site)) →
  ∃ closing, foldl (recordClosing componentOf) (Some ∅) sites = Some closing ∧
    ∀ call, call ∈ closing ↔ ∃ site, site ∈ sites ∧ dcs_call site = Some call ∧
      componentOf !! dcs_callerFunctionId site = componentOf !! dcs_calleeFunctionId site.
Proof.
  induction sites as [|site sites IH] using rev_ind; intros Hsome.
  { exists ∅. split; [done|]. set_solver. }
  destruct IH as (closing & E & Hclosing); [set_solver|]. rewrite foldl_snoc, E.
  destruct (Hsome site) as [[c1 E1] [c2 E2]]; [set_solver|].
  assert (∀ (P : DirectCallSite → Prop), (∃ s, s ∈ sites ++ [site] ∧ P s) ↔ (∃ s, s ∈ sites ∧ P s) ∨ P site)
    as Hsnoc by (set_solver).
  setoid_rewrite Hsnoc. cbn. destruct (dcs_call site) as [call|] eqn:Ec; cbn.
  - rewrite E1, E2. cbn. eexists. split; [done|]. intros call'. rewrite <- Hclosing.
    case_bool_decide as Hc; [|naive_solver]. set_solver.
  - eexists. split; [done|]. intros call'. rewrite <- Hclosing. naive_solver.
Qed.

(** The walk and the loop over the sites together. *)
Lemma callsClosingCycles_spec `{!HashOrder} sites :
  (N.of_nat (size (functionsOf (calleesByCaller sites))) ≤ 2 ^ 32)%N →
  ∃ closing, callsClosingCycles sites = Some closing ∧
    ∀ call, call ∈ closing ↔
      ∃ site, site ∈ sites ∧ dcs_call site = Some call ∧
        rtc (λ f g, ∃ s, s ∈ sites ∧ dcs_callerFunctionId s = f ∧ dcs_calleeFunctionId s = g)
          (dcs_calleeFunctionId site) (dcs_callerFunctionId site).
Proof.
  intros Hsmall. set (callees := calleesByCaller sites).
  destruct (visitRoots_ok callees (hash_items callees).*1 Hsmall) as (st & E & Hok & Hnum).
  { intros root (item & -> & Hi)%list_elem_of_fmap. destruct item as [root callees'].
    apply elem_of_hash_items in Hi. apply elem_of_dom. eauto. }
  assert (∀ f g, calls callees f g → assigned st f ∧ assigned st g) as Hassigned.
  { intros f g Hc. assert (assigned st f) as Hf; [|split; [done|]].
    - apply (finished_assigned callees); [done|]. apply Hnum.
      apply calls_dom, elem_of_dom in Hc as [l Hl]. apply elem_of_hash_items in Hl.
      by apply (list_elem_of_fmap_2 fst) in Hl.
    - by eapply (nk_closed _ _ (wk_numbering _ _ _ Hok)). }
  destruct (recordClosing_spec (tj_componentOf st) sites) as (closing & Ec & Hclosing).
  { intros site Hs. apply Hassigned, calleesByCaller_calls. eauto. }
  exists closing. split.
  { unfold callsClosingCycles. fold callees. rewrite foldl_fmap in E. by rewrite E. }
  assert (∀ f g, rtc (calls callees) f g ↔
    rtc (λ f g, ∃ s, s ∈ sites ∧ dcs_callerFunctionId s = f ∧ dcs_calleeFunctionId s = g) f g) as Hrtc.
  { intros f g. split; apply rtc_subrel; intros ??; apply calleesByCaller_calls. }
  intros call. rewrite Hclosing. split; intros (site & Hs & Hcall & Hr); exists site;
    (split_and!; [done|done|]);
    (assert (calls callees (dcs_callerFunctionId site) (dcs_calleeFunctionId site)) as Hc
      by (apply calleesByCaller_calls; eauto));
    destruct (Hassigned _ _ Hc) as [H1 H2].
  - apply Hrtc. by apply (nk_component _ _ (wk_numbering _ _ _ Hok)) in Hr as [_ ?].
  - apply (nk_component _ _ (wk_numbering _ _ _ Hok)); [done|done|].
    split; [by apply rtc_once|by apply Hrtc].
Qed.

(** C7: [callsClosingCycles] is exact: on every call graph of up to 2^32
    functions, and whatever order the hash tables are visited in, the walk ends,
    never takes from an empty stack, every [componentOf.at] finds its key, and a
    call is recorded exactly when it is at a site whose callee reaches the site's
    caller again through direct calls. *)
Theorem calls_closing_cycles_exact `{!HashOrder} sites :
  (N.of_nat (size (functionsOf (calleesByCaller sites))) ≤ 2 ^ 32)%N →
  ∃ closing, callsClosingCycles sites = Some closing ∧
    ∀ call, call ∈ closing ↔
      ∃ site, site ∈ sites ∧ dcs_call site = Some call ∧
        rtc (λ f g, ∃ s, s ∈ sites ∧ dcs_callerFunctionId s = f ∧ dcs_calleeFunctionId s = g)
          (dcs_calleeFunctionId site) (dcs_callerFunctionId site).
Proof. apply callsClosingCycles_spec. Qed.

Lemma calls_closing_cycles_exact_witness :
  ∃ closing, @callsClosingCycles sorted_hash_order
      [call_from "f" "g"; call_from "g" "f"] = Some closing ∧ 0 ∈ closing.
Proof.
  destruct (calls_closing_cycles_exact (H := sorted_hash_order)
    [call_from "f" "g"; call_from "g" "f"]) as (closing & E & Hc); [by vm_compute|].
  exists closing. split; [exact E|]. apply Hc. exists (call_from "f" "g").
  split; [left|]. split; [reflexivity|]. apply rtc_once. exists (call_from "g" "f").
  split; [right; left|split; reflexivity].
Defined.
