(* ===== verification/Rounds.v ===== *)
(** Rounds over the calls of a unit, until one changes nothing: the shape of every
    fixpoint of src/internal/analysis/tu_facts_builder.cpp, and of others that
    carry facts along calls. *)

From S2P Require Import Prelude Text.

Section rounds.
Context {State Error : Type}.

(** [for (x : l) changed = step(x) || changed;] from [changed = false]: a step gives
    the state it leaves and whether it changed anything, or an error. *)
Definition each {A} (step : A → State → (State * bool) + Error) (l : list A) (st : State)
  : (State * bool) + Error :=
  foldl (λ acc x,
    acc ←! acc;
    result ←! step x acc.1;
    inl (result.1, result.2 || acc.2)) (inl (st, false)) l.

(** [while (changed) { changed = false; ... }]; [None] when the fuel runs out. *)
Fixpoint rounds (round : State → (State * bool) + Error) (fuel : nat) (st : State)
  : option (State + Error) :=
  match fuel with
  | O => None
  | S fuel =>
      match round st with
      | inr error => Some (inr error)
      | inl (st, changed) => if changed : bool then rounds round fuel st else Some (inl st)
      end
  end.

(** ** What the steps keep

    [I] holds throughout, [R] relates the states along the way, [bad] tells the
    errors; a step that says it changed something lifts [measure]. *)
Context (I : State → Prop) (R : relation State) `{!PreOrder R} (bad : Error → Prop).
Context (measure : State → nat).
Hypothesis measure_mono : ∀ st st', R st st' → measure st ≤ measure st'.

(** [U] relates states that differ in nothing the rounds look at, and [Q] is what
    is settled where a step changed nothing. *)
Definition step_ok (U : relation State) (Q : State → Prop) (st : State)
    (result : (State * bool) + Error) : Prop :=
  match result with
  | inl (st', changed) =>
      I st' ∧ R st st' ∧
      if changed : bool then measure st < measure st' else U st st' ∧ Q st'
  | inr error => bad error
  end.

Lemma step_ok_weaken U (Q Q' : State → Prop) st result :
  step_ok U Q st result → (∀ st', I st' → U st st' → Q st' → Q' st') → step_ok U Q' st result.
Proof.
  unfold step_ok. destruct result as [[st' []]|]; [done| |done]. intros (HI & HR & HU & HQ) H.
  auto.
Qed.

Lemma each_ok {A} (U : relation State) `{!PreOrder U} (P : A → Prop) (Q : A → State → Prop)
    (step : A → State → (State * bool) + Error) l st :
  (∀ x st, P x → I st → step_ok U (Q x) st (step x st)) →
  (∀ x st st', Q x st → U st st' → Q x st') →
  Forall P l → I st → step_ok U (λ st', Forall (λ x, Q x st') l) st (each step l st).
Proof.
  intros Hstep Hstable Hl Hst. unfold each.
  induction l as [|x l IH] using rev_ind; [done|]. rewrite foldl_app. cbn [foldl].
  apply Forall_app in Hl as [Hl [Hx _]%Forall_cons]. specialize (IH Hl).
  destruct (foldl _ (inl (st, false)) l) as [[st1 c1]|error]; [|done].
  destruct IH as (HI1 & HR1 & Hc1). cbn [bind_ok fst snd]. specialize (Hstep x st1 Hx HI1).
  destruct (step x st1) as [[st2 c2]|error]; [|done]. cbn [bind_ok fst snd].
  destruct Hstep as (HI2 & HR2 & Hc2). pose proof (measure_mono _ _ HR1). pose proof (measure_mono _ _ HR2).
  split_and!; [done|by etrans|]. destruct c1, c2; cbn [orb]; [lia|lia|lia|].
  destruct Hc1 as [HU1 HQ1], Hc2 as [HU2 HQ2]. split; [by etrans|].
  apply Forall_app. split; [|by apply Forall_singleton]. eapply Forall_impl; [exact HQ1|]. intros y Hy. by apply (Hstable y st1).
Qed.

(** ** The rounds *)

Context (round : State → (State * bool) + Error) (U : relation State) (Q : State → Prop).
Hypothesis round_ok : ∀ st, I st → step_ok U Q st (round st).

(** The rounds end in what a round that changed nothing left, or in an error. *)
Lemma rounds_outcome fuel st outcome :
  I st → rounds round fuel st = Some outcome →
  match outcome with inl st' => I st' ∧ R st st' ∧ Q st' | inr error => bad error end.
Proof.
  revert st. induction fuel as [|fuel IH]; intros st Hst E; [done|]. cbn [rounds] in E.
  pose proof (round_ok st Hst) as Hok. unfold step_ok in Hok.
  destruct (round st) as [[st' changed]|error] eqn:Er; [|by injection E as <-].
  destruct Hok as (HI & HR & Hc). destruct changed.
  - specialize (IH st' HI E). destruct outcome as [st''|]; [|done].
    destruct IH as (? & HR' & ?). split_and!; [done|by etrans|done].
  - injection E as <-. by destruct Hc.
Qed.

(** They end when the measure is bounded. *)
Lemma rounds_end bound fuel st :
  (∀ st, I st → measure st ≤ bound) → I st → bound < fuel + measure st → is_Some (rounds round fuel st).
Proof.
  intros Hbound. revert st. induction fuel as [|fuel IH]; intros st Hst Hfuel.
  { pose proof (Hbound st Hst). lia. }
  cbn [rounds]. pose proof (round_ok st Hst) as Hok. unfold step_ok in Hok.
  destruct (round st) as [[st' []]|error] eqn:Er; [|done..].
  destruct Hok as (HI & HR & Hc). apply IH; [done|lia].
Qed.

Lemma rounds_total bound fuel st :
  (∀ st, I st → measure st ≤ bound) → I st → bound < fuel + measure st →
  ∃ outcome, rounds round fuel st = Some outcome ∧
    match outcome with inl st' => I st' ∧ R st st' ∧ Q st' | inr error => bad error end.
Proof.
  intros Hb Hst Hf. destruct (rounds_end bound fuel st Hb Hst Hf) as [outcome E].
  exists outcome. split; [done|]. by eapply rounds_outcome.
Qed.
End rounds.
