(* ===== verification/KeyIndex.v ===== *)
(** A vector with an index from keys to positions, the way the fact builder keeps one
    copy of each fact: a [std::vector] and an [unordered_map] from a key to the
    position of the one element that has it. *)

From S2P Require Import Prelude.

Section index.
Context {A : Type} (key : A → string).

Definition indexed (l : list A) (index : gmap string nat) : Prop :=
  ∀ k n, index !! k = Some n ↔ ∃ x, l !! n = Some x ∧ key x = k.

Lemma indexed_nil : indexed [] ∅.
Proof. intros k n. rewrite lookup_empty. split; [done|]. by intros (x & Hx & _). Qed.

Lemma indexed_snoc l index x :
  indexed l index → index !! key x = None → indexed (l ++ [x]) (<[key x := length l]> index).
Proof.
  intros Hx Hnone k n. destruct (decide (k = key x)) as [->|Hne].
  - rewrite lookup_insert_eq. split.
    + intros [= <-]. exists x. by rewrite list_lookup_middle.
    + intros (y & [Hn|[Hn Hy]]%lookup_app_Some & Hk).
      * assert (index !! key x = Some n) by (apply Hx; eauto). congruence.
      * destruct (n - length l) eqn:E; [|done]. f_equal. lia.
  - rewrite lookup_insert_ne by done. rewrite (Hx k n). split; intros (y & Hn & Hk); exists y.
    + split; [by apply lookup_app_l_Some|done].
    + split; [|done]. apply lookup_app_Some in Hn as [Hn|[Hn Hy]]; [done|].
      destruct (n - length l) eqn:E; [|done]. injection Hy as <-. by destruct Hne.
Qed.

Lemma indexed_update l index n x y :
  indexed l index → l !! n = Some x → key y = key x → indexed (<[n := y]> l) index.
Proof.
  intros Hx Hn Hk k m. rewrite (Hx k m). destruct (decide (n = m)) as [<-|Hne].
  - rewrite list_lookup_insert_eq by (by eapply lookup_lt_Some). naive_solver congruence.
  - by rewrite list_lookup_insert_ne.
Qed.

Lemma indexed_keys_NoDup l index : indexed l index → NoDup (key <$> l).
Proof.
  intros Hx. apply NoDup_alt. intros n m k Hn Hm. rewrite list_lookup_fmap in Hn, Hm.
  apply fmap_Some in Hn as (x & Hn & ->). apply fmap_Some in Hm as (y & Hm & Hk).
  assert (index !! key x = Some n) as H1 by (apply Hx; eauto).
  assert (index !! key x = Some m) as H2 by (apply Hx; eauto). congruence.
Qed.
End index.

(** An element found through the index can be replaced by one with the same key. *)
Lemma elem_of_update {A} (l : list A) n x y z :
  l !! n = Some x → z ∈ <[n := y]> l → z = y ∨ z ∈ l.
Proof.
  intros Hn [m Hm]%list_elem_of_lookup. destruct (decide (n = m)) as [<-|Hne].
  - rewrite list_lookup_insert_eq in Hm by (by eapply lookup_lt_Some). injection Hm as <-. by left.
  - rewrite list_lookup_insert_ne in Hm by done. right. by eapply list_elem_of_lookup_2.
Qed.

Lemma size_list_to_set_le (l : list string) : size (list_to_set l : gset string) ≤ length l.
Proof.
  induction l as [|x l IH]; [done|]. rewrite list_to_set_cons, size_union_alt, size_singleton.
  cbn [length]. pose proof (subseteq_size (list_to_set l ∖ {[x]} : gset string) (list_to_set l)). set_solver by lia.
Qed.
