(* ===== verification/Kept.v ===== *)
(** Facts kept once per key, beside the threads of every way they were reached: how
    src/internal/analysis/tu_facts_builder.cpp keeps lock orders, accesses and the
    accesses a function leaves to its callers. *)

From S2P Require Import Prelude Facts KeyIndex.

(** A fact with a key and the threads running beside it, which the key does not tell. *)
Class Threaded (A : Type) := {
  key : A → string;
  live : A → ThreadEntrySet;
  started : A → ThreadEntrySet;
  with_threads : A → ThreadEntrySet → ThreadEntrySet → A;
  live_with_threads a l s : live (with_threads a l s) = l;
  started_with_threads a l s : started (with_threads a l s) = s;
  with_threads_twice a l s l' s' : with_threads (with_threads a l s) l' s' = with_threads a l' s';
  with_threads_same a : with_threads a (live a) (started a) = a;
  key_with_threads a l s : key (with_threads a l s) = key a;
}.

Record Kept (A : Type) := MkKept {
  kp_items : list A;
  kp_index : gmap string nat;
}.
Arguments MkKept {A} _ _.
Arguments kp_items {A} _.
Arguments kp_index {A} _.

Section keep.
Context {A : Type} `{!Threaded A}.

Definition nothing_kept : Kept A := MkKept [] ∅.

(** The same fact reached another way: it runs beside the threads of either. *)
Definition merge_threads (into from : A) : A :=
  with_threads into (live into ∪ live from) (started into ∪ started from).

Definition thread_count (a : A) : nat := size (live a) + size (started a).

(** Adds a fact, or merges its threads into the one known; whether anything changed. *)
Definition keep (kept : Kept A) (a : A) : Kept A * bool :=
  match kp_index kept !! key a with
  | None =>
      (MkKept (kp_items kept ++ [a]) (<[key a := length (kp_items kept)]> (kp_index kept)), true)
  | Some index =>
      match kp_items kept !! index with
      | None => (kept, false)
      | Some known =>
          let merged := merge_threads known a in
          (MkKept (<[index := merged]> (kp_items kept)) (kp_index kept),
           negb (thread_count merged =? thread_count known))
      end
  end.

(** ** A fact beside more threads *)

Definition grows (a a' : A) : Prop :=
  ∃ l s, a' = with_threads a l s ∧ live a ⊆ l ∧ started a ⊆ s.

#[local] Instance grows_preorder : PreOrder grows.
Proof.
  split.
  - intros a. exists (live a), (started a). by rewrite with_threads_same.
  - intros a1 a2 a3 (l2 & s2 & -> & Hl2 & Hs2) (l3 & s3 & -> & Hl3 & Hs3).
    rewrite live_with_threads in Hl3. rewrite started_with_threads in Hs3. rewrite with_threads_twice.
    exists l3, s3. split_and!; [done|by etrans|by etrans].
Qed.

Lemma grows_key a a' : grows a a' → key a' = key a.
Proof. intros (l & s & -> & _). apply key_with_threads. Qed.

Lemma grows_threads a a' : grows a a' → live a ⊆ live a' ∧ started a ⊆ started a'.
Proof. intros (l & s & -> & ?). by rewrite live_with_threads, started_with_threads. Qed.

Lemma grows_count a a' : grows a a' → thread_count a ≤ thread_count a'.
Proof. intros [Hl Hs]%grows_threads. apply subseteq_size in Hl, Hs. unfold thread_count. lia. Qed.

Lemma merge_grows a b : grows a (merge_threads a b).
Proof. exists (live a ∪ live b), (started a ∪ started b). split_and!; [done|set_solver|set_solver]. Qed.

Lemma merge_same a b : thread_count (merge_threads a b) = thread_count a → merge_threads a b = a.
Proof.
  unfold thread_count, merge_threads. rewrite live_with_threads, started_with_threads. intros E.
  pose proof (union_subseteq_l (live a) (live b)) as H1.
  pose proof (union_subseteq_l (started a) (started b)) as H2.
  pose proof (subseteq_size _ _ H1). pose proof (subseteq_size _ _ H2).
  rewrite <- (set_subseteq_size_eq (live a) (live a ∪ live b)) by (done || lia).
  rewrite <- (set_subseteq_size_eq (started a) (started a ∪ started b)) by (done || lia).
  apply with_threads_same.
Qed.

(** ** What is kept *)

Record kept_ok (P : A → Prop) (kept : Kept A) : Prop := {
  kk_index : indexed key (kp_items kept) (kp_index kept);
  kk_all : ∀ a, a ∈ kp_items kept → P a;
}.

Lemma nothing_kept_ok P : kept_ok P nothing_kept.
Proof. split; cbn; [apply indexed_nil|by intros ? ?%elem_of_nil]. Qed.

(** Facts stay, at their place, and only gain threads. *)
Definition items_le (l l' : list A) : Prop := ∃ k m, l' = k ++ m ∧ Forall2 grows l k.

#[global] Instance items_le_preorder : PreOrder items_le.
Proof.
  split.
  - intros l. exists l, []. split; [by rewrite app_nil_r|]. by apply Forall_Forall2_diag, Forall_true.
  - intros l1 l2 l3 (k2 & m2 & -> & H12) (k3 & m3 & -> & H23).
    apply Forall2_app_inv_l in H23 as (k & m & Hk & Hm & ->).
    exists k, (m ++ m3). split; [by rewrite app_assoc|]. by etrans.
Qed.

Definition weight (l : list A) : nat := sum_list_with (λ a, S (thread_count a)) l.

Lemma weight_app l k : weight (l ++ k) = weight l + weight k.
Proof. apply sum_list_with_app. Qed.

Lemma weight_le l l' : items_le l l' → weight l ≤ weight l'.
Proof.
  intros (k & m & -> & Hk). rewrite weight_app.
  enough (weight l ≤ weight k) by lia. induction Hk as [|a a' l k Ha _ IH]; [done|].
  unfold weight in *. cbn [sum_list_with]. apply grows_count in Ha. lia.
Qed.

Lemma weight_insert l n a a' :
  l !! n = Some a → thread_count a < thread_count a' → weight l < weight (<[n := a']> l).
Proof.
  intros Hn Hlt. rewrite <- (take_drop_middle l n a Hn) at 1. rewrite insert_take_drop by (by eapply lookup_lt_Some).
  rewrite !weight_app. unfold weight. cbn [sum_list_with]. lia.
Qed.

Lemma weight_bound l n : (∀ a, a ∈ l → thread_count a ≤ n) → weight l ≤ length l * S n.
Proof.
  induction l as [|a l IH]; intros H; [done|]. unfold weight in *. cbn [sum_list_with length].
  specialize (IH ltac:(intros; apply H; by right)). specialize (H a ltac:(left)). lia.
Qed.

(** A fact is kept, beside at least its threads. *)
Definition kept_in (l : list A) (a : A) : Prop :=
  ∃ a', a' ∈ l ∧ key a' = key a ∧ live a ⊆ live a' ∧ started a ⊆ started a'.

Lemma kept_in_le l l' a : items_le l l' → kept_in l a → kept_in l' a.
Proof.
  intros (k & m & -> & Hk) (a' & Hin & Hkey & Hl & Hs). apply list_elem_of_lookup in Hin as [n Hn].
  destruct (Forall2_lookup_l _ _ _ _ _ Hk Hn) as (a'' & Hn' & Hle).
  exists a''. split; [apply elem_of_app; left; by eapply list_elem_of_lookup_2|].
  rewrite (grows_key _ _ Hle). apply grows_threads in Hle as [??]. split_and!; [done|by etrans|by etrans].
Qed.

Lemma keep_ok P kept a :
  (∀ a b, P a → P b → key a = key b → P (merge_threads a b)) →
  kept_ok P kept → P a →
  let '(kept', changed) := keep kept a in
  kept_ok P kept' ∧ items_le (kp_items kept) (kp_items kept') ∧ kept_in (kp_items kept') a ∧
  (length (kp_items kept') = length (kp_items kept) ∨ kp_items kept' = kp_items kept ++ [a]) ∧
  if changed then weight (kp_items kept) < weight (kp_items kept')
  else kp_items kept' = kp_items kept.
Proof.
  intros Hmerge [Hx Hall] Ha. unfold keep.
  destruct (kp_index kept !! key a) as [n|] eqn:En.
  - pose proof En as (known & Hn & Hk)%Hx. rewrite Hn. set (merged := merge_threads known a).
    assert (grows known merged) as Hle by apply merge_grows.
    assert (items_le (kp_items kept) (<[n := merged]> (kp_items kept))) as Hles.
    { exists (<[n := merged]> (kp_items kept)), []. split; [by rewrite app_nil_r|].
      rewrite <- (list_insert_id _ _ _ Hn) at 1. apply Forall2_insert; [|done].
      by apply Forall_Forall2_diag, Forall_true. }
    split_and!; [split|done| |left; cbn; by rewrite length_insert|]; cbn.
    + apply (indexed_update _ _ _ _ known); [done|done|]. by rewrite (grows_key _ _ Hle).
    + intros a' [->|Hin]%(elem_of_update _ _ known); [|by apply Hall|done].
      apply Hmerge; [|done|done]. by eapply Hall, list_elem_of_lookup_2.
    + exists merged. split; [eapply list_elem_of_lookup_2, list_lookup_insert_eq, lookup_lt_Some, Hn|].
      unfold merged, merge_threads. rewrite live_with_threads, started_with_threads, key_with_threads.
      split_and!; [done|set_solver|set_solver].
    + destruct (thread_count merged =? thread_count known) eqn:E; cbn [negb].
      * apply Nat.eqb_eq in E. unfold merged. rewrite merge_same by done. by apply list_insert_id.
      * apply Nat.eqb_neq in E. apply (weight_insert _ _ _ _ Hn). apply grows_count in Hle. lia.
  - split_and!; [split| | |by right|]; cbn.
    + by apply indexed_snoc.
    + intros a' [Ha'| ->%list_elem_of_singleton]%elem_of_app; [by apply Hall|done].
    + exists (kp_items kept), [a]. split; [done|]. by apply Forall_Forall2_diag, Forall_true.
    + exists a. split; [apply elem_of_app; right; by left|done].
    + rewrite weight_app. unfold weight at 3. cbn [sum_list_with]. lia.
Qed.

(** At most one fact per key. *)
Lemma kept_length P kept keys :
  kept_ok P kept → (∀ a, P a → key a ∈ keys) → length (kp_items kept) ≤ length keys.
Proof.
  intros [Hx Hall] Hkeys. rewrite <- (length_fmap key (kp_items kept)). apply submseteq_length, NoDup_submseteq.
  - by eapply indexed_keys_NoDup.
  - intros k (a & -> & Ha)%list_elem_of_fmap. auto.
Qed.

(** What all kept facts have in common with what was added, but for their threads. *)
Lemma items_le_fmap {B} (g : A → B) l l' :
  (∀ a l s, g (with_threads a l s) = g a) → items_le l l' → g <$> l `prefix_of` g <$> l'.
Proof.
  intros Hg (k & m & -> & Hk). rewrite fmap_app. exists (g <$> m). f_equal.
  induction Hk as [|a a' l k (live' & started' & -> & _) _ IH]; [done|]. by rewrite !fmap_cons, IH, Hg.
Qed.

Lemma items_le_length l l' : items_le l l' → length l ≤ length l'.
Proof. intros (k & m & -> & Hk). rewrite length_app, (Forall2_length _ _ _ Hk). lia. Qed.
End keep.

Lemma sum_list_with_le {A} (g h : A → nat) l : (∀ x, x ∈ l → g x ≤ h x) → sum_list_with g l ≤ sum_list_with h l.
Proof.
  induction l as [|x l IH]; intros H; [done|]. cbn. specialize (IH ltac:(intros; apply H; by right)).
  specialize (H x ltac:(left)). lia.
Qed.

Lemma sum_list_with_lt {A} (g h : A → nat) l y :
  (∀ x, x ∈ l → g x ≤ h x) → y ∈ l → g y < h y → sum_list_with g l < sum_list_with h l.
Proof.
  induction l as [|x l IH]; intros H Hy Hlt; [by apply elem_of_nil in Hy|]. cbn.
  pose proof (sum_list_with_le g h l ltac:(intros; apply H; by right)).
  specialize (H x ltac:(left)) as Hx. apply elem_of_cons in Hy as [->|Hy]; [lia|].
  specialize (IH ltac:(intros; apply H; by right) Hy Hlt). lia.
Qed.
