(* ===== verification/Finite.v ===== *)
(** Finite predicates, for loops that end because the keys of what they add range over
    finitely many values. *)

From S2P Require Import Prelude Facts.

Lemma finite_mono {A} (P Q : A → Prop) : pred_finite Q → (∀ x, P x → Q x) → pred_finite P.
Proof. intros [l Hl] H. exists l. auto. Qed.

Lemma finite_list {A} (l : list A) : pred_finite (λ x, x ∈ l).
Proof. by exists l. Qed.

Lemma finite_eq {A} (x : A) : pred_finite (λ y, y = x).
Proof. exists [x]. intros y ->. by left. Qed.

Lemma finite_bool : pred_finite (λ _ : bool, True).
Proof. exists [false; true]. intros []; set_solver. Qed.

Lemma finite_or {A} (P Q : A → Prop) : pred_finite P → pred_finite Q → pred_finite (λ x, P x ∨ Q x).
Proof. intros [l Hl] [k Hk]. exists (l ++ k). intros x [?|?]; apply elem_of_app; auto. Qed.

(** A value made from one of finitely many, in finitely many ways each. *)
Lemma finite_bind {A B} (P : A → Prop) (Q : A → B → Prop) :
  pred_finite P → (∀ x, pred_finite (Q x)) → pred_finite (λ y, ∃ x, P x ∧ Q x y).
Proof.
  intros [l Hl] HQ. enough (pred_finite (λ y, ∃ x, x ∈ l ∧ Q x y)) as H.
  { eapply finite_mono; [exact H|]. intros y (x & Hx & Hy). eauto. }
  clear Hl. induction l as [|x l IH].
  - exists []. intros y (x & ?%elem_of_nil & _). done.
  - eapply finite_mono; [exact (finite_or _ _ (HQ x) IH)|].
    intros y (x' & [->|Hx]%elem_of_cons & Hy); [by left|right; eauto].
Qed.

Lemma finite_option {A} (P : A → Prop) : pred_finite P → pred_finite (λ o, ∀ x, o = Some x → P x).
Proof.
  intros [l Hl]. exists (None :: (Some <$> l)). intros [x|] H; [|by left].
  right. by apply list_elem_of_fmap_2, Hl, H.
Qed.

Lemma finite_subsets (X : gset string) : pred_finite (λ Y, Y ⊆ X).
Proof.
  induction X as [|x X Hx IH] using set_ind_L; [exists [∅]; intros Y HY; replace Y with (∅ : gset string) by set_solver; by left|].
  eapply finite_mono; [exact (finite_bind _ (λ Y Z, Z = Y ∨ Z = {[x]} ∪ Y) IH
    (λ Y, finite_or _ _ (finite_eq _) (finite_eq _)))|].
  intros Y HY. cbn beta. exists (Y ∖ {[x]}). split; [set_solver|].
  destruct (decide (x ∈ Y)) as [Hin|Hout]; [right|left]; apply set_eq; intros y;
    (destruct (decide (y = x)) as [->|]; set_solver).
Qed.

(** The values of a 64-bit integer. *)
Definition in_i64 (z : Z) : Prop := (- 2 ^ 63 ≤ z < 2 ^ 63)%Z.

Lemma finite_i64 : pred_finite in_i64.
Proof. exists (seqZ (- 2 ^ 63) (2 ^ 64)). intros z [H1 H2]. apply elem_of_seqZ. lia. Qed.

(** A bounded number of strings is a finite set. *)
Lemma finite_set (P : string → Prop) : pred_finite P → ∃ X : gset string, ∀ x, P x → x ∈ X.
Proof. intros [l Hl]. exists (list_to_set l). intros x Hx. by apply elem_of_list_to_set, Hl. Qed.
