(* ===== verification/Lifecycles.v ===== *)
(** What callees do to the thread handles their callers pass them, carried to the
    callers (the lifecycle part of src/internal/analysis/tu_facts_builder.cpp).

    The storage each argument of a call designates, [canonicalStorageGroupId], is
    read from LLVM's IR and is a parameter. *)

From S2P Require Import Prelude Text Diagnostics Facts LockIds CallGraph Rounds.

Record LifecycleArgumentBinding := MkLifecycleBinding {
  lab_argumentIndex : N;
  lab_suffix : string;
}.

Definition ThreadHandleKind_index (kind : ThreadHandleKind) : N :=
  match kind with ThreadHandleKind_PThread => 0 | ThreadHandleKind_StdThread => 1 end.
Definition ThreadLifecycleAction_index (action : ThreadLifecycleAction) : N :=
  match action with
  | ThreadLifecycleAction_Create => 0
  | ThreadLifecycleAction_Join => 1
  | ThreadLifecycleAction_Detach => 2
  | ThreadLifecycleAction_Move => 3
  end.

(** The nine texts of the key, and the key. *)
Definition keyPieces (fact : ThreadLifecycleFact) : list string :=
  [pretty (ThreadHandleKind_index (tl_handleKind fact));
   pretty (ThreadLifecycleAction_index (tl_action fact));
   tl_handleGroupId fact; tl_functionId fact; default "" (tl_sourceHandleGroupId fact);
   loc_file (tl_location fact); pretty (loc_line (tl_location fact));
   pretty (loc_column (tl_location fact)); loc_function (tl_location fact)].

Definition lifecycleFactKey (fact : ThreadLifecycleFact) : string :=
  String.concat "|" (keyPieces fact).

Record LifecycleState := MkLifecycleState {
  lst_facts : list ThreadLifecycleFact;
  lst_keys : gset string;
  lst_byFunction : gmap string (list ThreadLifecycleFact);
}.

Definition no_lifecycles : LifecycleState := MkLifecycleState [] ∅ ∅.

Definition addLifecycleFact (st : LifecycleState) (fact : ThreadLifecycleFact)
  : bool * LifecycleState :=
  let key := lifecycleFactKey fact in
  if bool_decide (key ∈ lst_keys st) then (false, st)
  else (true, MkLifecycleState (lst_facts st ++ [fact]) ({[key]} ∪ lst_keys st)
    (<[tl_functionId fact := default [] (lst_byFunction st !! tl_functionId fact) ++ [fact]]>
       (lst_byFunction st))).

Definition parseLifecycleArgumentBinding (functionId handleGroupId : string)
  : option LifecycleArgumentBinding + ConversionError :=
  let prefix := "arg:" +:+ functionId +:+ ":" in
  if negb (starts_with handleGroupId prefix) then inl None
  else
    let '(digits, suffix) := span_digits (drop_prefix (String.length prefix) handleGroupId) in
    if bool_decide (digits = "") then inl None
    else
      argument ←! stoul_digits digits;
      inl (Some (MkLifecycleBinding (wrap 32 argument) suffix)).

Definition shouldRemapLifecycleLocation (location callsite : SourceLocation) : bool :=
  if bool_decide (loc_file callsite = "") && bool_decide (loc_line callsite = 0%N) then false
  else if bool_decide (loc_file location = "") then true
  else negb (bool_decide (loc_file location = loc_file callsite)).

Section propagation.
(** The storage of each argument of a call. *)
Context (argumentGroups : nat → list (option string)).

(** The source of a moved handle as the caller names it; [None] leaves the fact
    behind. *)
Definition propagatedSource (call : nat) (fact : ThreadLifecycleFact)
  : option (option string) + ConversionError :=
  match tl_sourceHandleGroupId fact with
  | None => inl (Some None)
  | Some source =>
      binding ←! parseLifecycleArgumentBinding (tl_functionId fact) source;
      inl (match binding with
           | None => Some (Some source)
           | Some binding =>
               match argumentGroups call !! N.to_nat (lab_argumentIndex binding) with
               | None => Some (Some source)
               | Some None => None
               | Some (Some group) => Some (Some (group +:+ lab_suffix binding))
               end
           end)
  end.

(** A fact of the callee as a fact of the caller at a call. *)
Definition propagatedFact (site : DirectCallSite) (call : nat) (fact : ThreadLifecycleFact)
  : option ThreadLifecycleFact + ConversionError :=
  binding ←! parseLifecycleArgumentBinding (tl_functionId fact) (tl_handleGroupId fact);
  match binding with
  | None => inl None
  | Some binding =>
      match argumentGroups call !! N.to_nat (lab_argumentIndex binding) with
      | None | Some None => inl None
      | Some (Some callerGroup) =>
          source ←! propagatedSource call fact;
          inl (match source with
               | None => None
               | Some source =>
                   Some (MkLifecycle (tl_handleKind fact) (tl_action fact)
                     (callerGroup +:+ lab_suffix binding) source (dcs_callerFunctionId site)
                     (if shouldRemapLifecycleLocation (tl_location fact) (dcs_userLocation site)
                      then dcs_userLocation site else tl_location fact)
                     (tl_resolvedOnAllPaths fact) (tl_insideLoop fact)
                     (tl_escapedToUntrackedStorage fact) true)
               end)
      end
  end.

Definition propagateFact (site : DirectCallSite) (call : nat) (fact : ThreadLifecycleFact)
    (st : LifecycleState) : (LifecycleState * bool) + ConversionError :=
  propagated ←! propagatedFact site call fact;
  inl (match propagated with
       | None => (st, false)
       | Some propagated => let '(added, st) := addLifecycleFact st propagated in (st, added)
       end).

Definition propagateSite (site : DirectCallSite) (st : LifecycleState)
  : (LifecycleState * bool) + ConversionError :=
  match dcs_call site, lst_byFunction st !! dcs_calleeFunctionId site with
  | Some call, Some calleeFacts => each (propagateFact site call) calleeFacts st
  | _, _ => inl (st, false)
  end.

Definition lifecycleRound (sites : list DirectCallSite) (st : LifecycleState)
  : (LifecycleState * bool) + ConversionError := each propagateSite sites st.

(** The [while] over the rounds. *)
Definition lifecycleLoop (fuel : nat) (sites : list DirectCallSite) (st : LifecycleState)
  : option (LifecycleState + ConversionError) := rounds (lifecycleRound sites) fuel st.

(** The facts collected in the functions themselves, then the rounds, when
    lifecycle facts are selected. *)
Definition collectLifecycles (fuel : nat) (sites : list DirectCallSite)
    (collected : list ThreadLifecycleFact) : option (LifecycleState + ConversionError) :=
  lifecycleLoop fuel sites (foldl (λ st fact, (addLifecycleFact st fact).2) no_lifecycles collected).
End propagation.
