(* ===== verification/LifecyclesProps.v ===== *)
(** Carrying lifecycle facts to callers: over calls without a cycle the rounds end
    with exactly the facts the calls derive; over a recursion that moves the handle
    it passes they never end. *)

From S2P Require Import Prelude Text Diagnostics Facts LockIds CallGraph Rounds Lifecycles KeyIndex.

Section propagation.
Context (argumentGroups : nat → list (option string)) (sites : list DirectCallSite).
Context (collected : list ThreadLifecycleFact).

(** The facts the calls derive from the collected ones. *)
Inductive derivable : ThreadLifecycleFact → Prop :=
  | derivable_collected fact : fact ∈ collected → derivable fact
  | derivable_call fact site call propagated :
      derivable fact → site ∈ sites → dcs_call site = Some call →
      dcs_calleeFunctionId site = tl_functionId fact →
      propagatedFact argumentGroups site call fact = inl (Some propagated) → derivable propagated.

Record lifecycles_ok (st : LifecycleState) : Prop := {
  lk_keys : ∀ key, key ∈ lst_keys st ↔ ∃ fact, fact ∈ lst_facts st ∧ lifecycleFactKey fact = key;
  lk_byFunction : ∀ f fact, fact ∈ default [] (lst_byFunction st !! f) ↔
    fact ∈ lst_facts st ∧ tl_functionId fact = f;
  lk_derivable : ∀ fact, fact ∈ lst_facts st → derivable fact;
  lk_once : NoDup (lifecycleFactKey <$> lst_facts st);
}.

Definition keeps (st st' : LifecycleState) : Prop := lst_keys st ⊆ lst_keys st'.
#[local] Instance keeps_preorder : PreOrder keeps.
Proof. split; unfold keeps; [intros st; done|intros st1 st2 st3; apply transitivity]. Qed.

Definition known_keys (st : LifecycleState) : nat := size (lst_keys st).
Lemma known_keys_mono st st' : keeps st st' → known_keys st ≤ known_keys st'.
Proof. unfold keeps, known_keys. apply subseteq_size. Qed.

Lemma addLifecycleFact_ok st fact :
  lifecycles_ok st → derivable fact →
  step_ok lifecycles_ok keeps (λ _ : ConversionError, False) known_keys eq
    (λ st', lifecycleFactKey fact ∈ lst_keys st') st
    (let '(added, st') := addLifecycleFact st fact in inl (st', added)).
Proof.
  intros Hok Hd. unfold addLifecycleFact. case_bool_decide as Hknown; [done|].
  unfold step_ok, keeps, known_keys. cbn [lst_keys].
  split_and!; [|set_solver|rewrite size_union by set_solver; rewrite size_singleton; lia].
  constructor; cbn.
  - intros key. rewrite elem_of_union, elem_of_singleton, (lk_keys _ Hok). set_solver.
  - intros f fact'. destruct (decide (f = tl_functionId fact)) as [->|Hne].
    + rewrite lookup_insert_eq. cbn. rewrite !elem_of_app, (lk_byFunction _ Hok), list_elem_of_singleton.
      naive_solver.
    + rewrite lookup_insert_ne by done. rewrite (lk_byFunction _ Hok), elem_of_app, list_elem_of_singleton.
      naive_solver.
  - intros fact' [Hf| ->%list_elem_of_singleton]%elem_of_app; [|done]. by apply (lk_derivable _ Hok).
  - rewrite fmap_app. apply NoDup_app. split; [by apply lk_once|]. split; [|apply NoDup_singleton].
    intros key (fact' & -> & Hf)%list_elem_of_fmap Hkey%list_elem_of_singleton.
    apply Hknown, (lk_keys _ Hok). by exists fact'.
Qed.

(** A call whose callee's facts are all carried over already. *)
Definition carried (site : DirectCallSite) (st : LifecycleState) : Prop :=
  ∀ call fact propagated, dcs_call site = Some call → fact ∈ lst_facts st →
    dcs_calleeFunctionId site = tl_functionId fact →
    propagatedFact argumentGroups site call fact = inl (Some propagated) →
    lifecycleFactKey propagated ∈ lst_keys st.

(** A derivable fact no call can read. *)
Definition unreadable (error : ConversionError) : Prop :=
  ∃ site call fact, site ∈ sites ∧ dcs_call site = Some call ∧ derivable fact ∧
    dcs_calleeFunctionId site = tl_functionId fact ∧
    propagatedFact argumentGroups site call fact = inr error.

(** The facts of the callee of a call. *)
Definition callee_fact (site : DirectCallSite) (fact : ThreadLifecycleFact) : Prop :=
  derivable fact ∧ dcs_calleeFunctionId site = tl_functionId fact.

(** What a step of the rounds does. *)
Definition lifecycle_step := step_ok lifecycles_ok keeps unreadable known_keys eq.

Lemma propagateFact_ok site call fact st :
  site ∈ sites → dcs_call site = Some call → callee_fact site fact → lifecycles_ok st →
  lifecycle_step (λ st', ∀ propagated,
      propagatedFact argumentGroups site call fact = inl (Some propagated) →
      lifecycleFactKey propagated ∈ lst_keys st')
    st (propagateFact argumentGroups site call fact st).
Proof.
  intros Hs Hcall [Hd Hc] Hst. unfold propagateFact.
  destruct (propagatedFact argumentGroups site call fact) as [[propagated|]|error] eqn:Ep; cbn [bind_ok].
  - assert (derivable propagated) as Hp by (by eapply derivable_call).
    pose proof (addLifecycleFact_ok st propagated Hst Hp) as Hadd.
    destruct (addLifecycleFact st propagated) as [[] st']; destruct Hadd as (? & ? & Hadd); [done|].
    destruct Hadd as [<- Hk]. split_and!; [done|done|done|]. by intros ? [= <-].
  - done.
  - by exists site, call, fact.
Qed.

Lemma callee_facts_of st site l :
  lifecycles_ok st → lst_byFunction st !! dcs_calleeFunctionId site = Some l →
  Forall (callee_fact site) l ∧
  ∀ fact, fact ∈ lst_facts st → dcs_calleeFunctionId site = tl_functionId fact → fact ∈ l.
Proof.
  intros Hok El. pose proof (lk_byFunction _ Hok (dcs_calleeFunctionId site)) as Hl. rewrite El in Hl.
  cbn in Hl. split.
  - apply Forall_forall. intros fact [Hf Hc]%Hl. split; [by apply (lk_derivable _ Hok)|done].
  - intros fact Hf Hc. by apply Hl.
Qed.

Lemma propagateSite_ok site st :
  site ∈ sites → lifecycles_ok st →
  lifecycle_step (carried site) st (propagateSite argumentGroups site st).
Proof.
  intros Hsite Hok. unfold propagateSite.
  destruct (dcs_call site) as [call|] eqn:Ecall.
  2:{ split_and!; [done|done|done|]. intros call. by rewrite Ecall. }
  destruct (lst_byFunction st !! dcs_calleeFunctionId site) as [l|] eqn:El.
  2:{ split_and!; [done|done|done|]. intros call' fact propagated _ Hf Hc _.
      pose proof (proj2 (lk_byFunction _ Hok (dcs_calleeFunctionId site) fact)) as Hin.
      rewrite El in Hin. specialize (Hin (conj Hf (eq_sym Hc))). by apply elem_of_nil in Hin. }
  destruct (callee_facts_of _ _ _ Hok El) as [Hl Hall].
  eapply step_ok_weaken.
  - apply (each_ok _ _ _ _ known_keys_mono eq (callee_fact site) (λ fact st, ∀ propagated,
      propagatedFact argumentGroups site call fact = inl (Some propagated) →
      lifecycleFactKey propagated ∈ lst_keys st)); try done.
    + intros fact st' Hf. by apply propagateFact_ok.
    + by intros fact st' ? ? <-.
  - intros st' _ <- Hq call' fact propagated Hcall Hf Hc Hpf.
    rewrite Ecall in Hcall. injection Hcall as <-. rewrite Forall_forall in Hq.
    apply (Hq fact); [|done]. by apply Hall.
Qed.

(** A state no call adds to. *)
Definition saturated (st : LifecycleState) : Prop :=
  lifecycles_ok st ∧ ∀ site, site ∈ sites → carried site st.

Lemma lifecycleRound_ok st : lifecycles_ok st →
  lifecycle_step saturated st (lifecycleRound argumentGroups sites st).
Proof.
  intros Hok. eapply step_ok_weaken.
  - apply (each_ok _ _ _ _ known_keys_mono eq (λ site, site ∈ sites) carried); try done.
    + intros site st' Hs. by apply propagateSite_ok.
    + by intros site st' ? ? <-.
    + by apply Forall_forall.
  - intros st' Hst' _ Hq. split; [done|]. by apply Forall_forall.
Qed.

Lemma lifecycleLoop_outcome fuel st outcome :
  lifecycles_ok st → lifecycleLoop argumentGroups fuel sites st = Some outcome →
  match outcome with
  | inl st' => lst_keys st ⊆ lst_keys st' ∧ saturated st'
  | inr error => unreadable error
  end.
Proof.
  intros Hok E. apply (rounds_outcome _ keeps _ known_keys _ _ _ lifecycleRound_ok) in E; [|done].
  destruct outcome as [st'|]; [|done]. by destruct E as (_ & Hk & Hs).
Qed.

(** ** The rounds end *)

(** The facts derived by at most [depth] calls. *)
Fixpoint derived (depth : nat) : list ThreadLifecycleFact :=
  match depth with
  | O => collected
  | S depth =>
      derived depth ++
        (fact ← derived depth; site ← sites;
         match dcs_call site with
         | Some call =>
             match propagatedFact argumentGroups site call fact with
             | inl (Some propagated) => [propagated]
             | _ => []
             end
         | None => []
         end)
  end.

Lemma derived_mono depth depth' : depth ≤ depth' → derived depth ⊆ derived depth'.
Proof.
  induction 1 as [|depth' Hle IH]; [done|]. intros fact Hf. cbn [derived].
  apply elem_of_app. left. by apply IH.
Qed.

Lemma derived_step depth fact site call propagated :
  fact ∈ derived depth → site ∈ sites → dcs_call site = Some call →
  propagatedFact argumentGroups site call fact = inl (Some propagated) →
  propagated ∈ derived (S depth).
Proof.
  intros Hf Hs Hc Hp. cbn [derived]. apply elem_of_app. right.
  apply list_elem_of_bind. exists fact. split; [|done].
  apply list_elem_of_bind. exists site. split; [|done]. rewrite Hc, Hp. by left.
Qed.

Lemma propagatedFact_function site call fact propagated :
  propagatedFact argumentGroups site call fact = inl (Some propagated) →
  tl_functionId propagated = dcs_callerFunctionId site.
Proof.
  unfold propagatedFact. intros E.
  destruct (parseLifecycleArgumentBinding _ _) as [[binding|]|]; cbn [bind_ok] in E; [|done|done].
  destruct (argumentGroups call !! _) as [[group|]|]; [|done|done].
  destruct (propagatedSource _ _ _) as [[source|]|]; cbn [bind_ok] in E; [|done|done].
  by injection E as <-.
Qed.

Section acyclic.
Context (rank : string → nat).
Hypothesis calls_descend : ∀ site, site ∈ sites → dcs_call site ≠ None →
  rank (dcs_calleeFunctionId site) < rank (dcs_callerFunctionId site).

(** The longest chain of calls. *)
Definition call_depth : nat := max_list ((λ site, rank (dcs_callerFunctionId site)) <$> sites).

Lemma derivable_derived fact :
  derivable fact → fact ∈ derived (rank (tl_functionId fact)) ∧ fact ∈ derived call_depth.
Proof.
  induction 1 as [fact Hf|fact site call propagated _ [IH _] Hs Hc Hcallee Hp].
  { split; by apply (derived_mono 0); [lia|]. }
  pose proof (calls_descend site Hs) as Hlt. rewrite Hc in Hlt. specialize (Hlt ltac:(done)).
  assert (rank (dcs_callerFunctionId site) ≤ call_depth) as Hle.
  { apply max_list_elem_of_le, list_elem_of_fmap. by exists site. }
  rewrite (propagatedFact_function _ _ _ _ Hp). rewrite Hcallee in Hlt.
  pose proof (derived_step _ _ _ _ _ IH Hs Hc Hp) as Hd.
  split; (eapply derived_mono; [|exact Hd]); lia.
Qed.

Lemma lifecycles_bounded st :
  lifecycles_ok st → size (lst_keys st) ≤ length (derived call_depth).
Proof.
  intros Hok. rewrite <- (length_fmap lifecycleFactKey).
  transitivity (size (list_to_set (lifecycleFactKey <$> derived call_depth) : gset string)).
  - apply subseteq_size. intros key (fact & Hf & <-)%(lk_keys _ Hok). apply elem_of_list_to_set.
    apply list_elem_of_fmap. exists fact. split; [done|]. by apply derivable_derived, (lk_derivable _ Hok).
  - apply size_list_to_set_le.
Qed.

Lemma lifecycleLoop_ends fuel st :
  lifecycles_ok st → length (derived call_depth) < fuel + size (lst_keys st) →
  is_Some (lifecycleLoop argumentGroups fuel sites st).
Proof.
  intros Hok. by apply (rounds_end _ keeps _ known_keys _ _ _ lifecycleRound_ok), Hok; apply lifecycles_bounded.
Qed.
End acyclic.

Lemma no_lifecycles_ok : lifecycles_ok no_lifecycles.
Proof. constructor; cbn; [set_solver| |set_solver|constructor]. intros f fact. rewrite lookup_empty. set_solver. Qed.

Lemma collected_ok l st :
  l ⊆ collected → lifecycles_ok st →
  let st' := foldl (λ st fact, (addLifecycleFact st fact).2) st l in
  lifecycles_ok st' ∧ lst_keys st ⊆ lst_keys st' ∧
    ∀ fact, fact ∈ l → lifecycleFactKey fact ∈ lst_keys st'.
Proof.
  revert st. induction l as [|fact l IH]; intros st Hl Hok.
  { split; [done|]. split; [done|]. by intros ? ?%elem_of_nil. }
  cbn [foldl].
  assert (derivable fact) as Hd by (apply derivable_collected, Hl; by left).
  pose proof (addLifecycleFact_ok st fact Hok Hd) as Hadd.
  assert (lifecycleFactKey fact ∈ lst_keys (addLifecycleFact st fact).2) as Hk.
  { clear. unfold addLifecycleFact. case_bool_decide; cbn; set_solver. }
  destruct (addLifecycleFact st fact) as [added st']. destruct Hadd as (Hok' & Hkeep & _).
  destruct (IH st') as (Hst' & Hsub & Hin); [set_solver|done|]. cbn [fst snd] in *. unfold keeps in *.
  split; [done|]. split; [set_solver|].
  intros fact' [-> |Hf]%elem_of_cons; [set_solver|by apply Hin].
Qed.

(** ** The key of a fact tells its texts *)

Definition bar : ascii := "|"%char.
Definition plain (s : string) : Prop := all_chars (other_than bar) s = true.
Definition plain_location (location : SourceLocation) : Prop :=
  plain (loc_file location) ∧ plain (loc_function location).
Definition plain_fact (fact : ThreadLifecycleFact) : Prop :=
  plain (tl_handleGroupId fact) ∧ plain (tl_functionId fact) ∧
  plain (default "" (tl_sourceHandleGroupId fact)) ∧ plain_location (tl_location fact).

Lemma plain_pretty (n : N) : plain (pretty n).
Proof.
  apply (all_chars_mono is_digit); [|apply pretty_N_digits]. intros c Hc. unfold other_than, bar.
  destruct (Ascii.eqb_spec c "|"%char) as [->|]; done.
Qed.

Lemma plain_app s t : plain s → plain t → plain (s +:+ t).
Proof. unfold plain. intros Hs Ht. by rewrite all_chars_app, Hs, Ht. Qed.

Lemma lifecycleFactKey_pieces fact : plain_fact fact →
  split_on bar (lifecycleFactKey fact) = keyPieces fact.
Proof.
  intros (Hg & Hf & Hs & Hl & Hn). apply split_on_concat; [done|].
  unfold keyPieces. repeat constructor; try done; apply plain_pretty.
Qed.

(** Facts with the same texts are carried to facts with the same texts. *)
Lemma propagatedSource_pieces call fact fact' :
  keyPieces fact = keyPieces fact' →
  match propagatedSource argumentGroups call fact, propagatedSource argumentGroups call fact' with
  | inl source, inl source' => default "" <$> source = default "" <$> source'
  | inr error, inr error' => error = error'
  | _, _ => False
  end.
Proof.
  intros [= _ _ _ Hf Hs _ _ _ _]. unfold propagatedSource. rewrite Hf.
  assert (∀ f, parseLifecycleArgumentBinding f "" = inl None) as Hnil by done.
  destruct (tl_sourceHandleGroupId fact) as [source|], (tl_sourceHandleGroupId fact') as [source'|];
    unfold default, id in Hs; subst; rewrite ?Hnil; try done.
  by destruct (parseLifecycleArgumentBinding _ _).
Qed.

Lemma propagatedFact_pieces site call fact fact' propagated :
  keyPieces fact = keyPieces fact' →
  propagatedFact argumentGroups site call fact = inl (Some propagated) →
  ∃ propagated', propagatedFact argumentGroups site call fact' = inl (Some propagated') ∧
    keyPieces propagated' = keyPieces propagated.
Proof.
  intros Heq E. pose proof (propagatedSource_pieces call _ _ Heq) as Hsource.
  revert E. unfold propagatedFact. injection Heq as Hk Ha Hg Hf Hs Hfile Hline Hcol Hfun. rewrite Hg, Hf.
  destruct (parseLifecycleArgumentBinding _ _) as [[binding|]|]; cbn [bind_ok]; [|done|done].
  destruct (argumentGroups call !! _) as [[group|]|]; [|done|done].
  destruct (propagatedSource _ _ fact) as [[source|]|], (propagatedSource _ _ fact') as [[source'|]|];
    cbn [bind_ok]; try done.
  intros [= <-]. eexists. split; [done|]. injection Hsource as Hsource.
  unfold shouldRemapLifecycleLocation. rewrite Hfile. unfold keyPieces. cbn.
  case_match; congruence.
Qed.

(** ** Facts without a bar stay so *)

Lemma drop_prefix_plain n s : plain s → plain (drop_prefix n s).
Proof.
  unfold plain. revert s. induction n as [|n IH]; intros [|c s]; try done.
  cbn [all_chars drop_prefix]. intros [_ Hs]%andb_true_iff. by apply IH.
Qed.

Lemma parseLifecycleArgumentBinding_plain functionId group binding :
  plain group → parseLifecycleArgumentBinding functionId group = inl (Some binding) →
  plain (lab_suffix binding).
Proof.
  unfold parseLifecycleArgumentBinding. intros Hg E.
  destruct (negb _); [done|]. destruct (span_digits _) as [digits suffix] eqn:Es.
  destruct (bool_decide _); [done|]. destruct (stoul_digits _) as [n|]; cbn [bind_ok] in E; [|done].
  injection E as <-. cbn [lab_suffix]. apply span_digits_spec in Es as [Es _].
  pose proof (drop_prefix_plain (String.length ("arg:" +:+ functionId +:+ ":")) _ Hg) as Hd.
  rewrite Es in Hd. unfold plain in *. rewrite all_chars_app in Hd.
  by apply andb_true_iff in Hd as [_ ?].
Qed.

(** The storage of parameter [n] of a function, and what it is read as. *)
Lemma parseLifecycleArgumentBinding_named function (n : N) suffix :
  (n < 2 ^ 32)%N → head_not is_digit suffix = true →
  parseLifecycleArgumentBinding function ("arg:" +:+ function +:+ ":" +:+ pretty n +:+ suffix)
  = inl (Some (MkLifecycleBinding n suffix)).
Proof.
  intros Hn Hs. unfold parseLifecycleArgumentBinding.
  replace ("arg:" +:+ function +:+ ":" +:+ pretty n +:+ suffix)
    with (("arg:" +:+ function +:+ ":") +:+ (pretty n +:+ suffix)) by (by rewrite !append_assoc).
  rewrite starts_with_app, drop_prefix_app, (span_digits_app _ _ (pretty_N_digits n) Hs).
  rewrite bool_decide_false by apply pretty_N_nonempty.
  unfold stoul_digits. rewrite decimal_value_pretty, (proj2 (N.leb_gt _ _)) by lia. cbn [bind_ok negb].
  unfold wrap. by rewrite N.mod_small.
Qed.

(** A handle in a part of parameter [n] becomes that part of argument [n]. *)
Lemma propagatedFact_named site call fact (n : N) suffix group :
  (n < 2 ^ 32)%N → head_not is_digit suffix = true →
  tl_handleGroupId fact = "arg:" +:+ tl_functionId fact +:+ ":" +:+ pretty n +:+ suffix →
  tl_sourceHandleGroupId fact = None → argumentGroups call !! N.to_nat n = Some (Some group) →
  ∃ propagated, propagatedFact argumentGroups site call fact = inl (Some propagated) ∧
    tl_handleGroupId propagated = group +:+ suffix ∧ tl_functionId propagated = dcs_callerFunctionId site ∧
    tl_handleKind propagated = tl_handleKind fact ∧ tl_action propagated = tl_action fact ∧
    tl_propagated propagated = true.
Proof.
  intros Hn Hs Hg Hsource Hgroup. unfold propagatedFact, propagatedSource.
  rewrite Hg, Hsource, parseLifecycleArgumentBinding_named by done.
  cbn [bind_ok lab_argumentIndex lab_suffix]. rewrite Hgroup. by eexists.
Qed.

Hypothesis groups_plain : ∀ call group, Some group ∈ argumentGroups call → plain group.

Lemma bound_group_plain call functionId source binding group :
  plain source → parseLifecycleArgumentBinding functionId source = inl (Some binding) →
  argumentGroups call !! N.to_nat (lab_argumentIndex binding) = Some (Some group) →
  plain (group +:+ lab_suffix binding).
Proof.
  intros Hs Hb Hg. apply plain_app; [by eapply groups_plain, list_elem_of_lookup_2|].
  by eapply parseLifecycleArgumentBinding_plain.
Qed.

Lemma propagatedSource_plain call fact source :
  plain_fact fact → propagatedSource argumentGroups call fact = inl (Some source) →
  plain (default "" source).
Proof.
  unfold propagatedSource. intros (_ & _ & Hs & _) E.
  destruct (tl_sourceHandleGroupId fact) as [text|]; [|by injection E as <-].
  change (plain text) in Hs.
  destruct (parseLifecycleArgumentBinding _ _) as [[binding|]|] eqn:Eb; cbn [bind_ok] in E; [| |done].
  2:{ by injection E as <-. }
  destruct (argumentGroups call !! _) as [[group|]|] eqn:Eg; [|done|by injection E as <-].
  injection E as <-. by eapply bound_group_plain.
Qed.

Hypothesis sites_plain : ∀ site, site ∈ sites →
  plain (dcs_callerFunctionId site) ∧ plain_location (dcs_userLocation site).
Hypothesis collected_plain : ∀ fact, fact ∈ collected → plain_fact fact.

Lemma propagatedFact_plain site call fact propagated :
  site ∈ sites → plain_fact fact →
  propagatedFact argumentGroups site call fact = inl (Some propagated) → plain_fact propagated.
Proof.
  intros [Hcaller Hloc]%sites_plain Hf. pose proof (propagatedSource_plain call fact) as Hsource.
  unfold propagatedFact. intros E. pose proof Hf as (Hg & _ & _ & Hl).
  destruct (parseLifecycleArgumentBinding _ _) as [[binding|]|] eqn:Eb; cbn [bind_ok] in E; [|done|done].
  destruct (argumentGroups call !! _) as [[group|]|] eqn:Eg; [|done|done].
  destruct (propagatedSource _ _ _) as [[source|]|]; cbn [bind_ok] in E; [|done|done].
  injection E as <-. split; [by eapply bound_group_plain|]. split; [done|].
  split; [by apply Hsource|]. cbn [tl_location]. by destruct (shouldRemapLifecycleLocation _ _).
Qed.

Lemma derivable_plain fact : derivable fact → plain_fact fact.
Proof. induction 1; [auto|by eapply propagatedFact_plain]. Qed.

Lemma same_key fact fact' :
  derivable fact → derivable fact' → lifecycleFactKey fact = lifecycleFactKey fact' →
  keyPieces fact = keyPieces fact'.
Proof.
  intros Hf Hf' E. rewrite <- !lifecycleFactKey_pieces by (by apply derivable_plain). by rewrite E.
Qed.

Lemma saturated_complete st fact :
  saturated st → (∀ fact, fact ∈ collected → lifecycleFactKey fact ∈ lst_keys st) →
  derivable fact → lifecycleFactKey fact ∈ lst_keys st.
Proof.
  intros [Hok Hsat] Hinit. induction 1 as [fact Hf|fact site call propagated Hd IH Hs Hc Hcallee Hp]; [auto|].
  apply (lk_keys _ Hok) in IH as (kept & Hk & Ekey).
  pose proof (same_key _ _ Hd (lk_derivable _ Hok _ Hk) (eq_sym Ekey)) as Hpieces.
  destruct (propagatedFact_pieces site call _ _ _ Hpieces Hp) as (propagated' & Hp' & Hpieces').
  unfold lifecycleFactKey. rewrite <- Hpieces'. eapply (Hsat site Hs call kept); try done.
  rewrite Hcallee. by injection Hpieces as _ _ _ ? _ _ _ _ _.
Qed.

Lemma collectLifecycles_outcome fuel outcome :
  collectLifecycles argumentGroups fuel sites collected = Some outcome →
  match outcome with
  | inl st =>
      (∀ fact, fact ∈ lst_facts st → derivable fact) ∧ NoDup (lifecycleFactKey <$> lst_facts st) ∧
      (∀ fact, derivable fact → ∃ kept, kept ∈ lst_facts st ∧ keyPieces kept = keyPieces fact)
  | inr error => unreadable error
  end.
Proof.
  intros E. destruct (collected_ok collected no_lifecycles) as (Hok & _ & Hin); [done|apply no_lifecycles_ok|].
  apply lifecycleLoop_outcome in E; [|done]. destruct outcome as [st|]; [|done].
  destruct E as [Hkeys Hsat]. pose proof Hsat as [Hok' _].
  split_and!; [apply lk_derivable; done|by apply lk_once|]. intros fact Hd.
  assert (lifecycleFactKey fact ∈ lst_keys st) as (kept & Hk & Ek)%(lk_keys _ Hok').
  { eapply saturated_complete; [done| |done]. intros fact' Hf. by apply Hkeys, Hin. }
  exists kept. split; [done|]. apply same_key; [by apply (lk_derivable _ Hok')|done|done].
Qed.
End propagation.

Lemma collectLifecycles_ends argumentGroups sites collected (rank : string → nat) fuel :
  (∀ site, site ∈ sites → dcs_call site ≠ None →
    rank (dcs_calleeFunctionId site) < rank (dcs_callerFunctionId site)) →
  length (derived argumentGroups sites collected (call_depth sites rank)) < fuel →
  is_Some (collectLifecycles argumentGroups fuel sites collected).
Proof.
  intros Hrank Hfuel.
  destruct (collected_ok argumentGroups sites collected collected no_lifecycles)
    as (Hok & _ & _); [done|apply no_lifecycles_ok|].
  apply (lifecycleLoop_ends argumentGroups sites collected rank Hrank fuel _ Hok). lia.
Qed.

(** C15: over calls without a cycle, the rounds of lifecycle propagation end, after no
    more rounds than there are derivations. They end with an error only when an
    argument number that some fact's storage names does not fit 64 bits. Otherwise
    what is kept is exactly what the calls derive: every kept fact is derived from
    the collected ones by renaming the handle along a chain of calls, every derivable
    fact is kept once up to the parts its key does not tell, and no key is kept twice. *)
Theorem lifecycle_propagation_exact argumentGroups sites collected (rank : string → nat) fuel :
  (∀ site, site ∈ sites → dcs_call site ≠ None →
    rank (dcs_calleeFunctionId site) < rank (dcs_callerFunctionId site)) →
  (∀ call group, Some group ∈ argumentGroups call → plain group) →
  (∀ site, site ∈ sites → plain (dcs_callerFunctionId site) ∧ plain_location (dcs_userLocation site)) →
  (∀ fact, fact ∈ collected → plain_fact fact) →
  length (derived argumentGroups sites collected (call_depth sites rank)) < fuel →
  ∃ outcome, collectLifecycles argumentGroups fuel sites collected = Some outcome ∧
  match outcome with
  | inl st =>
      (∀ fact, fact ∈ lst_facts st → derivable argumentGroups sites collected fact) ∧
      NoDup (lifecycleFactKey <$> lst_facts st) ∧
      (∀ fact, derivable argumentGroups sites collected fact →
         ∃ kept, kept ∈ lst_facts st ∧ keyPieces kept = keyPieces fact)
  | inr error => unreadable argumentGroups sites collected error
  end.
Proof.
  intros Hrank Hgroups Hsites Hcollected Hfuel.
  destruct (collectLifecycles_ends argumentGroups sites collected rank fuel Hrank Hfuel) as [outcome E].
  exists outcome. split; [exact E|]. by eapply collectLifecycles_outcome.
Qed.

(** ** A helper that joins the handle it is passed *)

Definition join_of (propagated : bool) (function group : string) : ThreadLifecycleFact :=
  MkLifecycle ThreadHandleKind_PThread ThreadLifecycleAction_Join group None function no_location
    true false false propagated.

Definition join_groups (call : nat) : list (option string) := [Some "arg:stop:0+8"].

Example stop_joins_the_member :
  (λ outcome, match outcome with
              | inl st => (λ fact, (tl_functionId fact, tl_handleGroupId fact, tl_propagated fact)) <$> lst_facts st
              | inr _ => []
              end) <$>
    collectLifecycles join_groups 9 [call_from "stop" "join_one"] [join_of false "join_one" "arg:join_one:0[0]"]
  = Some [("join_one", "arg:join_one:0[0]", false); ("stop", "arg:stop:0+8[0]", true)].
Proof. vm_compute. reflexivity. Qed.

Lemma lifecycle_propagation_exact_witness :
  ∃ outcome, collectLifecycles join_groups 9 [call_from "stop" "join_one"]
      [join_of false "join_one" "arg:join_one:0[0]"] = Some outcome ∧
    match outcome with
    | inl st => ∃ kept, kept ∈ lst_facts st ∧
        keyPieces kept = keyPieces (join_of true "stop" "arg:stop:0+8[0]")
    | inr _ => False
    end.
Proof.
  destruct (lifecycle_propagation_exact join_groups [call_from "stop" "join_one"]
    [join_of false "join_one" "arg:join_one:0[0]"] (λ f, if bool_decide (f = "stop") then 1 else 0) 9)
    as (outcome & E & Ho).
  - intros site ->%list_elem_of_singleton _. vm_compute. lia.
  - intros call group Hg%list_elem_of_singleton. injection Hg as ->. reflexivity.
  - intros site ->%list_elem_of_singleton. split; [|split]; reflexivity.
  - intros fact ->%list_elem_of_singleton. split_and!; try split; reflexivity.
  - vm_compute. lia.
  - exists outcome. split; [exact E|]. vm_compute in E. injection E as <-.
    destruct Ho as (_ & _ & Hall). apply Hall. eapply derivable_call;
      [apply derivable_collected; by left|by left|reflexivity|reflexivity|].
    vm_compute. reflexivity.
Defined.

(** ** A recursion that passes on the next handle *)

(** [join_all(t, n)] joins [t[0]] and calls [join_all(t + 1, n - 1)]. *)
Definition next_handle (call : nat) : list (option string) := [Some "arg:join_all:0[1]"].
Definition join_all_calls : list DirectCallSite := [call_from "join_all" "join_all"].
Definition join_all_facts : list ThreadLifecycleFact := [join_of false "join_all" "arg:join_all:0"].

Fixpoint handle_steps (n : nat) : string :=
  match n with O => "" | S n => "[1]" +:+ handle_steps n end.
Definition join_after (n : nat) : ThreadLifecycleFact :=
  join_of (bool_decide (0 < n)) "join_all" ("arg:join_all:0" +:+ handle_steps n).

Lemma handle_steps_text n :
  plain (handle_steps n) ∧ head_not is_digit (handle_steps n) = true ∧ String.length (handle_steps n) = 3 * n.
Proof.
  induction n as [|n (Hp & _ & Hl)]; [done|]. cbn [handle_steps].
  split_and!; [by apply plain_app|done|]. rewrite string_length_app, Hl. cbn. lia.
Qed.

Lemma join_after_step n :
  propagatedFact next_handle (call_from "join_all" "join_all") 0 (join_after n) = inl (Some (join_after (S n))).
Proof.
  destruct (handle_steps_text n) as (_ & Hhead & _).
  assert (parseLifecycleArgumentBinding "join_all" ("arg:join_all:0" +:+ handle_steps n)
    = inl (Some (MkLifecycleBinding 0 (handle_steps n)))) as Hparse.
  { by apply (parseLifecycleArgumentBinding_named "join_all" 0). }
  unfold propagatedFact, join_after at 1 2. cbn [tl_functionId tl_handleGroupId join_of]. rewrite Hparse.
  cbn [bind_ok lab_argumentIndex lab_suffix]. reflexivity.
Qed.

Lemma join_all_derivable fact :
  derivable next_handle join_all_calls join_all_facts fact ↔ ∃ n, fact = join_after n.
Proof.
  split.
  - induction 1 as [fact ->%list_elem_of_singleton|fact site call propagated _ [n ->]
      ->%list_elem_of_singleton [= <-] _ Hp]; [by exists 0|].
    exists (S n). rewrite join_after_step in Hp. by injection Hp.
  - intros [n ->]. induction n as [|n IH]; [apply derivable_collected; by left|].
    eapply derivable_call; [exact IH|by left|done|done|apply join_after_step].
Qed.

Lemma join_all_never_ends fuel : collectLifecycles next_handle fuel join_all_calls join_all_facts = None.
Proof.
  destruct (collectLifecycles _ _ _ _) as [outcome|] eqn:E; [exfalso|done].
  apply collectLifecycles_outcome in E.
  - destruct outcome as [st|error].
    + destruct E as (_ & _ & Hall).
      set (groups := tl_handleGroupId <$> lst_facts st).
      assert (length ((λ n, "arg:join_all:0" +:+ handle_steps n) <$> seq 0 (S (length groups))) ≤ length groups).
      2:{ rewrite length_fmap, length_seq in *. lia. }
      apply submseteq_length, NoDup_submseteq.
      * apply NoDup_fmap_2_strong; [|apply NoDup_seq]. intros n m _ _ Heq%(f_equal String.length).
        rewrite !string_length_app in Heq. destruct (handle_steps_text n) as (_ & _ & Hn).
        destruct (handle_steps_text m) as (_ & _ & Hm). lia.
      * intros group (n & -> & _)%list_elem_of_fmap.
        destruct (Hall (join_after n)) as (kept & Hk & [= _ _ Hg _ _ _ _ _ _]).
        { apply join_all_derivable. by exists n. }
        apply list_elem_of_fmap. by exists kept.
    + destruct E as (site & call & fact & ->%list_elem_of_singleton & [= <-] & [n ->]%join_all_derivable & _ & Hp).
      by rewrite join_after_step in Hp.
  - intros call group Hg%list_elem_of_singleton. by injection Hg as ->.
  - by intros site ->%list_elem_of_singleton.
  - by intros fact ->%list_elem_of_singleton.
Qed.
