(* ===== verification/SymbolClassifier.v ===== *)
(** What a call does to threads, locks and processes, read from the name of its
    callee (src/internal/analysis/concurrency_symbol_classifier.cpp).

    A function of LLVM is a number standing for its address and its name.  What
    LLVM answers about an operand (the constant it is, the function behind its
    casts, the users of its storage) are parameters. *)

From S2P Require Import Prelude Text.

Inductive CallKind :=
  | CallKind_Unknown
  | CallKind_PThreadCreate
  | CallKind_PThreadJoin
  | CallKind_PThreadDetach
  | CallKind_PThreadMutexLock
  | CallKind_PThreadMutexUnlock
  | CallKind_PThreadMutexTryLock
  | CallKind_PThreadRwLockAcquire
  | CallKind_PThreadRwLockTryAcquire
  | CallKind_PThreadRwLockUnlock
  | CallKind_PThreadSpinLock
  | CallKind_PThreadSpinUnlock
  | CallKind_PThreadSpinTryLock
  | CallKind_PThreadMutexInit
  | CallKind_PThreadMutexAttrSetType
  | CallKind_StdThreadCtor
  | CallKind_StdThreadMove
  | CallKind_StdThreadJoin
  | CallKind_StdThreadDetach
  | CallKind_StdThreadDtor
  | CallKind_StdJThreadCtor
  | CallKind_StdMutexLock
  | CallKind_StdMutexUnlock
  | CallKind_StdMutexTryLock
  | CallKind_StdLockGuardCtor
  | CallKind_StdLockGuardDeferredCtor
  | CallKind_StdLockGuardDtor
  | CallKind_CondWaitWithoutPredicate
  | CallKind_CondWaitWithPredicate
  | CallKind_ProcessFork
  | CallKind_ProcessExec
  | CallKind_ProcessWait
  | CallKind_StaticInitGuardAcquire
  | CallKind_StaticInitGuardRelease
  | CallKind_ThreadExitDestructorRegistration
  | CallKind_PThreadOnce.
#[global] Instance CallKind_eq_dec : EqDecision CallKind.
Proof. solve_decision. Defined.

Record Callee := MkCallee { cal_id : nat; cal_name : string }.

(** ** Names *)

(** Why a name has no canonical form: [std::stoul] threw, or the loop was still
    running when the fuel ended. *)
Inductive NameFailure := NameFailure_OutOfRange | NameFailure_StillRunning.

(** The loop of [stripAbiTags]: [index] and the sums are [std::size_t]. *)
Fixpoint stripLoop (fuel : nat) (name : string) (index : N) (stripped : string)
  : string + NameFailure :=
  match fuel with
  | O => inr NameFailure_StillRunning
  | S fuel =>
      match String.get (N.to_nat index) name with
      | None => inl stripped
      | Some c =>
          let keep := stripLoop fuel name (index + 1)%N (stripped +:+ String c "") in
          let '(digits, _) := span_digits (drop_prefix (S (N.to_nat index)) name) in
          if negb (Ascii.eqb c "B") || bool_decide (digits = "") then keep
          else
            let digitsEnd := (index + 1 + N.of_nat (String.length digits))%N in
            let tagLength := decimal_value 0 digits in
            if (2 ^ 64 <=? tagLength)%N then inr NameFailure_OutOfRange
            else
              let tagEnd := wrap 64 (digitsEnd + tagLength) in
              if (N.of_nat (String.length name) <? tagEnd)%N then keep
              else stripLoop fuel name tagEnd stripped
      end
  end.

Definition stripAbiTags (name : string) : string + NameFailure :=
  stripLoop (S (String.length name)) name 0 "".

Definition canonicalName (function : Callee) : string + NameFailure :=
  let name := cal_name function in
  let name := if starts_with name (String "001" "") then drop_prefix 1 name else name in
  let name := if starts_with name "\01" then drop_prefix 3 name else name in
  if starts_with name "_Z" then stripAbiTags name else inl name.

(** ** Predicates on names *)

Definition isStdNamespaceSymbol (name : string) : bool :=
  starts_with name "_ZNSt" || starts_with name "_ZNKSt" ||
  starts_with name "_ZSt" || starts_with name "_ZNVSt".

Definition isStdThreadCtor (name : string) : bool :=
  if negb (isStdNamespaceSymbol name) || negb (contains name "thread") then false
  else if negb (contains name "threadC1" || contains name "threadC2") then false
  else if contains name "threadC1Ev" || contains name "threadC2Ev" ||
          contains name "ERKS0_" || contains name "ERKS_" || contains name "EOS0_" ||
          contains name "EOS_"
  then false
  else true.

Definition isStdJThreadCtor (name : string) : bool :=
  isStdNamespaceSymbol name && contains name "jthread" &&
  (contains name "threadC1" || contains name "threadC2").

Definition isStdThreadMove (name : string) : bool :=
  if negb (isStdNamespaceSymbol name) || negb (contains name "thread") ||
     (negb (contains name "EOS0_") && negb (contains name "EOS_"))
  then false
  else
    let isMoveCtor := contains name "threadC1" || contains name "threadC2" in
    let isMoveAssignment := contains name "threadaS" in
    isMoveCtor || isMoveAssignment.

Definition isLockGuardTemplate (name : string) : bool :=
  contains name "lock_guard" || contains name "unique_lock" ||
  contains name "scoped_lock" || contains name "shared_lock".

Definition isStdLockGuardCtor (name : string) : bool :=
  isStdNamespaceSymbol name && isLockGuardTemplate name &&
  (contains name "C1E" || contains name "C2E").

Definition isDeferredLockGuardCtor (name : string) : bool := contains name "defer_lock".

Definition isStdLockGuardDtor (name : string) : bool :=
  isStdNamespaceSymbol name && isLockGuardTemplate name &&
  (contains name "D1Ev" || contains name "D2Ev").

Definition matchesPlainSymbol (actual expected : string) : bool :=
  bool_decide (actual = expected) ||
  (starts_with actual "_" && bool_decide (drop_prefix 1 actual = expected)).

Definition isStdMutexLock (name : string) : bool :=
  if negb (isStdNamespaceSymbol name) || negb (contains name "mutex") then false
  else contains name "4lockEv" || contains name "11lock_sharedEv".

Definition isStdMutexUnlock (name : string) : bool :=
  if negb (isStdNamespaceSymbol name) || negb (contains name "mutex") then false
  else contains name "6unlockEv" || contains name "13unlock_sharedEv".

Definition isStdMutexTryLock (name : string) : bool :=
  if negb (isStdNamespaceSymbol name) || negb (contains name "mutex") then false
  else contains name "8try_lockEv" || contains name "15try_lock_sharedEv".

Definition conditionWaitRechecksItself (name : string) : option bool :=
  if negb (isStdNamespaceSymbol name) || negb (contains name "condition_variable") then None
  else if contains name "4waitE" then Some false
  else if contains name "4waitI" then Some true
  else if contains name "wait_for" || contains name "wait_until"
  then Some (negb (contains name "9cv_status"))
  else None.

Definition isStdThreadJoin (name : string) : bool :=
  isStdNamespaceSymbol name && contains name "thread" && contains name "4joinEv".

Definition isStdThreadDtor (name : string) : bool :=
  isStdNamespaceSymbol name && contains name "thread" &&
  (contains name "threadD1" || contains name "threadD2").

Definition isStdThreadDetach (name : string) : bool :=
  isStdNamespaceSymbol name && contains name "thread" && contains name "6detachEv".

(** ** The kind of a call *)

(** One of [symbols] is the name. *)
Definition matchesAny (name : string) (symbols : list string) : bool :=
  existsb (matchesPlainSymbol name) symbols.

(** The tests of [classifyCallee] on a canonical name, in their order: first the
    C symbols, then the standard library. *)
Definition plainRules : list (list string * CallKind) := [
  (["pthread_create"], CallKind_PThreadCreate);
  (["pthread_join"], CallKind_PThreadJoin);
  (["pthread_detach"], CallKind_PThreadDetach);
  (["fork"; "vfork"], CallKind_ProcessFork);
  (["execl"; "execlp"; "execle"; "execv"; "execvp"; "execvpe"; "execve"; "posix_spawn";
    "posix_spawnp"], CallKind_ProcessExec);
  (["wait"; "waitpid"; "waitid"; "wait3"; "wait4"], CallKind_ProcessWait);
  (["pthread_cond_wait"; "pthread_cond_timedwait"], CallKind_CondWaitWithoutPredicate);
  (["pthread_mutex_lock"], CallKind_PThreadMutexLock);
  (["pthread_mutex_unlock"], CallKind_PThreadMutexUnlock);
  (["pthread_mutex_trylock"; "pthread_mutex_timedlock"], CallKind_PThreadMutexTryLock);
  (["pthread_rwlock_rdlock"; "pthread_rwlock_wrlock"], CallKind_PThreadRwLockAcquire);
  (["pthread_rwlock_tryrdlock"; "pthread_rwlock_trywrlock"; "pthread_rwlock_timedrdlock";
    "pthread_rwlock_timedwrlock"], CallKind_PThreadRwLockTryAcquire);
  (["pthread_rwlock_unlock"], CallKind_PThreadRwLockUnlock);
  (["pthread_spin_lock"], CallKind_PThreadSpinLock);
  (["pthread_spin_unlock"], CallKind_PThreadSpinUnlock);
  (["pthread_spin_trylock"], CallKind_PThreadSpinTryLock);
  (["pthread_once"], CallKind_PThreadOnce);
  (["__cxa_thread_atexit"; "__cxa_thread_atexit_impl"; "_tlv_atexit"],
    CallKind_ThreadExitDestructorRegistration);
  (["__cxa_guard_acquire"], CallKind_StaticInitGuardAcquire);
  (["__cxa_guard_release"; "__cxa_guard_abort"], CallKind_StaticInitGuardRelease);
  (["pthread_mutex_init"], CallKind_PThreadMutexInit);
  (["pthread_mutexattr_settype"], CallKind_PThreadMutexAttrSetType)].

Definition classifyStdName (name : string) : CallKind :=
  if isStdJThreadCtor name then CallKind_StdJThreadCtor
  else if isStdThreadMove name then CallKind_StdThreadMove
  else if isStdThreadCtor name then CallKind_StdThreadCtor
  else if isStdThreadJoin name then CallKind_StdThreadJoin
  else if isStdThreadDetach name then CallKind_StdThreadDetach
  else if isStdThreadDtor name then CallKind_StdThreadDtor
  else if isStdMutexTryLock name then CallKind_StdMutexTryLock
  else if isStdMutexLock name then CallKind_StdMutexLock
  else if isStdMutexUnlock name then CallKind_StdMutexUnlock
  else match conditionWaitRechecksItself name with
       | Some rechecks =>
           if rechecks then CallKind_CondWaitWithPredicate else CallKind_CondWaitWithoutPredicate
       | None =>
           if isStdLockGuardDtor name then CallKind_StdLockGuardDtor
           else if isStdLockGuardCtor name
           then if isDeferredLockGuardCtor name then CallKind_StdLockGuardDeferredCtor
                else CallKind_StdLockGuardCtor
           else CallKind_Unknown
       end.

Definition classifyName (name : string) : CallKind :=
  match find (λ rule, matchesAny name rule.1) plainRules with
  | Some (_, kind) => kind
  | None => classifyStdName name
  end.

Definition classifyCallee (callee : Callee) : CallKind + NameFailure :=
  canonical ←! canonicalName callee; inl (classifyName canonical).

(** ** The classifier and its memo *)

Abbreviation Cache := (gmap nat CallKind).

(** [classify] on a function: the answer, and the memo it leaves. *)
Definition classify_function (cache : Cache) (callee : Callee)
  : (CallKind + NameFailure) * Cache :=
  match cache !! cal_id callee with
  | Some kind => (inl kind, cache)
  | None =>
      match classifyCallee callee with
      | inl kind => (inl kind, <[cal_id callee := kind]> cache)
      | inr failure => (inr failure, cache)
      end
  end.

Section calls.
(** Operands, and a call: the function behind its called operand and its arguments. *)
Context {Value : Type}.
Record Call := MkCall { call_directCallee : option Callee; call_args : list Value }.

(** How a local object is used: through addresses into it, each with the values
    stored there, by a store of a value, or otherwise. *)
Inductive StorageUser :=
  | User_GetElementPtr (stored : list Value)
  | User_Store (stored : Value)
  | User_Other.

Context (constantInt : Value → option Z).
Context (intToPtrConstant : Value → option Z).
Context (functionBehind : Value → option Callee).
Context (storageUsers : Value → option (list StorageUser)).

Definition classify (cache : Cache) (call : Call) : (CallKind + NameFailure) * Cache :=
  match call_directCallee call with
  | Some callee => classify_function cache callee
  | None => (inl CallKind_Unknown, cache)
  end.

(** A property of the canonical name of the callee, false without one. *)
Definition onCanonicalName (call : Call) (p : string → bool) : bool + NameFailure :=
  match call_directCallee call with
  | None => inl false
  | Some callee => canonical ←! canonicalName callee; inl (p canonical)
  end.

Definition targetsRecursiveLock (call : Call) : bool + NameFailure :=
  onCanonicalName call (λ canonical,
    contains canonical "recursive_mutex" || contains canonical "recursive_timed_mutex").

Definition adoptsHeldLocks (call : Call) : bool + NameFailure :=
  onCanonicalName call (λ canonical, contains canonical "adopt_lock").

Definition callsStandardLibrary (call : Call) : bool + NameFailure :=
  onCanonicalName call isStdNamespaceSymbol.

Definition releasesMemory (call : Call) : bool + NameFailure :=
  if bool_decide (call_args call = []) then inl false
  else onCanonicalName call (λ name,
    matchesPlainSymbol name "free" || starts_with name "_ZdlPv" || starts_with name "_ZdaPv").

Definition kUnsafe : list string :=
  ["malloc"; "calloc"; "realloc"; "free"; "exit"; "printf"; "fprintf"; "sprintf"; "snprintf";
   "vprintf"; "vfprintf"; "puts"; "fputs"; "putchar"; "fopen"; "fclose"; "fwrite"; "fread";
   "strtok"].

(** The kinds of the [switch] of [isAsyncSignalUnsafe]. *)
Definition isUnsafeKind (kind : CallKind) : bool :=
  match kind with
  | CallKind_PThreadMutexLock | CallKind_PThreadMutexUnlock | CallKind_PThreadMutexTryLock
  | CallKind_PThreadRwLockAcquire | CallKind_PThreadRwLockTryAcquire
  | CallKind_PThreadRwLockUnlock | CallKind_StdMutexLock | CallKind_StdMutexUnlock
  | CallKind_StdMutexTryLock | CallKind_StdLockGuardCtor | CallKind_StdLockGuardDtor
  | CallKind_CondWaitWithoutPredicate | CallKind_CondWaitWithPredicate => true
  | _ => false
  end.

Definition isAsyncSignalUnsafe (cache : Cache) (call : Call) : (bool + NameFailure) * Cache :=
  match call_directCallee call with
  | None => (inl false, cache)
  | Some callee =>
      match canonicalName callee with
      | inr failure => (inr failure, cache)
      | inl name =>
          if matchesAny name kUnsafe then (inl true, cache)
          else if starts_with name "_Znw" || starts_with name "_Zna" ||
                  starts_with name "_ZdlPv" || starts_with name "_ZdaPv"
          then (inl true, cache)
          else let '(kind, cache) := classify cache call in
               (kind ←! kind; inl (isUnsafeKind kind), cache)
      end
  end.

Definition installsSignal (name : string) : bool :=
  matchesPlainSymbol name "signal" || matchesPlainSymbol name "bsd_signal" ||
  matchesPlainSymbol name "sigset".

Definition kSigChldNumbers : list Z := [17; 20]%Z.
Definition kSigIgn : Z := 1.

Definition ignoresChildTermination (call : Call) : bool + NameFailure :=
  match call_directCallee call, call_args call with
  | Some callee, number :: handler :: _ =>
      name ←! canonicalName callee;
      inl (if negb (installsSignal name) then false
           else match constantInt number with
                | None => false
                | Some signalNumber =>
                    if negb (bool_decide (signalNumber ∈ kSigChldNumbers)) then false
                    else bool_decide (intToPtrConstant handler = Some kSigIgn)
                end)
  | _, _ => inl false
  end.

(** The first function stored through a user of the storage. *)
Fixpoint storedFunction (values : list Value) : option Callee :=
  match values with
  | [] => None
  | value :: values =>
      match functionBehind value with
      | Some handler => Some handler
      | None => storedFunction values
      end
  end.

Fixpoint storedHandler (users : list StorageUser) : option Callee :=
  match users with
  | [] => None
  | user :: users =>
      match match user with
            | User_GetElementPtr stored => storedFunction stored
            | User_Store stored => functionBehind stored
            | User_Other => None
            end with
      | Some handler => Some handler
      | None => storedHandler users
      end
  end.

Definition installedSignalHandler (call : Call) : option Callee + NameFailure :=
  match call_directCallee call with
  | None => inl None
  | Some callee =>
      name ←! canonicalName callee;
      inl (if installsSignal name then call_args call !! 1 ≫= functionBehind
           else if negb (matchesPlainSymbol name "sigaction") then None
           else (action ← call_args call !! 1; users ← storageUsers action; storedHandler users))
  end.
End calls.
Arguments Call : clear implicits.

Definition toString_callKind (kind : CallKind) : string :=
  match kind with
  | CallKind_Unknown => "unknown"
  | CallKind_PThreadCreate => "pthread_create"
  | CallKind_PThreadJoin => "pthread_join"
  | CallKind_PThreadDetach => "pthread_detach"
  | CallKind_PThreadMutexLock => "pthread_mutex_lock"
  | CallKind_PThreadMutexUnlock => "pthread_mutex_unlock"
  | CallKind_PThreadMutexTryLock => "pthread_mutex_trylock"
  | CallKind_PThreadRwLockAcquire => "pthread_rwlock_acquire"
  | CallKind_PThreadRwLockTryAcquire => "pthread_rwlock_tryacquire"
  | CallKind_PThreadRwLockUnlock => "pthread_rwlock_unlock"
  | CallKind_PThreadSpinLock => "pthread_spin_lock"
  | CallKind_PThreadSpinUnlock => "pthread_spin_unlock"
  | CallKind_PThreadSpinTryLock => "pthread_spin_trylock"
  | CallKind_PThreadMutexInit => "pthread_mutex_init"
  | CallKind_PThreadMutexAttrSetType => "pthread_mutexattr_settype"
  | CallKind_StdThreadDtor => "std_thread_dtor"
  | CallKind_StdJThreadCtor => "std_jthread_ctor"
  | CallKind_StdMutexTryLock => "std_mutex_try_lock"
  | CallKind_StdLockGuardCtor => "std_lock_guard_ctor"
  | CallKind_StdLockGuardDeferredCtor => "std_lock_guard_deferred_ctor"
  | CallKind_StdLockGuardDtor => "std_lock_guard_dtor"
  | CallKind_CondWaitWithoutPredicate => "cond_wait_without_predicate"
  | CallKind_CondWaitWithPredicate => "cond_wait_with_predicate"
  | CallKind_ProcessFork => "fork"
  | CallKind_ProcessExec => "exec"
  | CallKind_StaticInitGuardAcquire => "static_init_guard_acquire"
  | CallKind_StaticInitGuardRelease => "static_init_guard_release"
  | CallKind_PThreadOnce => "pthread_once"
  | CallKind_ThreadExitDestructorRegistration => "thread_exit_destructor_registration"
  | CallKind_ProcessWait => "wait"
  | CallKind_StdThreadCtor => "std_thread_ctor"
  | CallKind_StdThreadMove => "std_thread_move"
  | CallKind_StdThreadJoin => "std_thread_join"
  | CallKind_StdThreadDetach => "std_thread_detach"
  | CallKind_StdMutexLock => "std_mutex_lock"
  | CallKind_StdMutexUnlock => "std_mutex_unlock"
  end.
