(* ===== verification/SymbolClassifierProps.v ===== *)
(** Stripping ABI tags gives back the name they were put into, the memo of the
    classifier never changes an answer, and no symbol outside the standard
    library is taken for one of its primitives. *)

From S2P Require Import Prelude Text SymbolClassifier.

(** ** Positions in a name *)

Lemma get_middle pre c s : String.get (String.length pre) (pre +:+ String c s) = Some c.
Proof. induction pre as [|d pre IH]; [done|]. by rewrite append_cons. Qed.

Lemma get_end s : String.get (String.length s) s = None.
Proof. by induction s. Qed.

Lemma drop_prefix_S pre c s : drop_prefix (S (String.length pre)) (pre +:+ String c s) = s.
Proof. induction pre as [|d pre IH]; [by destruct s|]. by rewrite append_cons. Qed.

(** ** Tagged names *)

(** No letter B is followed by a digit. *)
Fixpoint untagged (text : string) : bool :=
  match text with
  | "" => true
  | String c rest => (negb (Ascii.eqb c "B") || head_not is_digit rest) && untagged rest
  end.

(** An ABI tag as the mangling writes it. *)
Definition print_tag (tag : string) : string :=
  "B" +:+ pretty (N.of_nat (String.length tag)) +:+ tag.

(** Texts, each followed by a tag, and a last text; the name without the tags. *)
Fixpoint tagged (parts : list (string * string)) (last : string) : string :=
  match parts with
  | [] => last
  | (text, tag) :: parts => text +:+ print_tag tag +:+ tagged parts last
  end.

Fixpoint plain (parts : list (string * string)) (last : string) : string :=
  match parts with
  | [] => last
  | (text, _) :: parts => text +:+ plain parts last
  end.

Definition wf_part (part : string * string) : Prop :=
  untagged part.1 = true ∧ part.2 ≠ "" ∧ head_not is_digit part.2 = true.

(** One iteration that keeps a character. *)
Lemma strip_keeps fuel pre c rest acc :
  negb (Ascii.eqb c "B") || head_not is_digit rest = true →
  stripLoop (S fuel) (pre +:+ String c rest) (N.of_nat (String.length pre)) acc =
  stripLoop fuel (pre +:+ String c rest) (N.of_nat (String.length (pre +:+ String c "")))
    (acc +:+ String c "").
Proof.
  intros Hc. cbn [stripLoop]. rewrite Nat2N.id, get_middle, drop_prefix_S.
  rewrite !string_length_app. cbn [String.length].
  replace (N.of_nat (String.length pre) + 1)%N with (N.of_nat (String.length pre + 1)) by lia.
  destruct (span_digits rest) as [digits after] eqn:E. destruct (Ascii.eqb c "B"); [|done].
  cbn in Hc. rewrite span_digits_none in E by done. injection E as <- _. done.
Qed.

(** The iterations over a text without tags. *)
Lemma strip_untagged fuel pre text rest acc :
  untagged text = true → head_not is_digit rest = true →
  stripLoop (String.length text + fuel) (pre +:+ text +:+ rest) (N.of_nat (String.length pre)) acc =
  stripLoop fuel (pre +:+ text +:+ rest) (N.of_nat (String.length (pre +:+ text))) (acc +:+ text).
Proof.
  intros Ht Hr. revert pre acc. induction text as [|c text IH]; intros pre acc.
  { cbn [String.length Nat.add String.append]. by rewrite !append_nil_r. }
  cbn [untagged] in Ht. apply andb_true_iff in Ht as [Hc Ht]. cbn [String.length Nat.add].
  rewrite (append_cons c text rest), strip_keeps.
  - specialize (IH Ht (pre +:+ String c "") (acc +:+ String c "")).
    rewrite !append_assoc in IH. exact IH.
  - apply orb_true_iff in Hc as [->|Hc]; [done|]. apply orb_true_iff. right.
    destruct text; [done|by rewrite head_not_app].
Qed.

Lemma print_tag_length tag :
  String.length (print_tag tag) =
  S (String.length (pretty (N.of_nat (String.length tag))) + String.length tag).
Proof.
  unfold print_tag. change ("B" +:+ ?s) with (String "B" s). cbn [String.length].
  by rewrite string_length_app.
Qed.

(** The iteration that skips a tag. *)
Lemma strip_tag fuel pre tag rest acc :
  tag ≠ "" → head_not is_digit tag = true →
  (N.of_nat (String.length (pre +:+ print_tag tag +:+ rest)) < 2 ^ 64)%N →
  stripLoop (S fuel) (pre +:+ print_tag tag +:+ rest) (N.of_nat (String.length pre)) acc =
  stripLoop fuel (pre +:+ print_tag tag +:+ rest) (N.of_nat (String.length (pre +:+ print_tag tag))) acc.
Proof.
  intros Hne Htag Hsize. set (name := pre +:+ print_tag tag +:+ rest) in *.
  assert (name = pre +:+ String "B" (pretty (N.of_nat (String.length tag)) +:+ tag +:+ rest)) as Ename.
  { unfold name, print_tag. change ("B" +:+ ?s) with (String "B" s). by rewrite append_cons, append_assoc. }
  unfold name in Hsize. rewrite !string_length_app, print_tag_length in Hsize.
  cbn [stripLoop]. rewrite Nat2N.id, Ename, get_middle, drop_prefix_S, <- Ename.
  rewrite span_digits_app by (apply pretty_N_digits || by rewrite head_not_app).
  cbn [negb orb Ascii.eqb Bool.eqb].
  rewrite bool_decide_eq_false_2 by apply pretty_N_nonempty. rewrite decimal_value_pretty.
  rewrite (proj2 (N.leb_gt _ _)) by lia. unfold wrap. rewrite N.mod_small by lia.
  unfold name. rewrite !string_length_app, print_tag_length.
  rewrite (proj2 (N.ltb_ge _ _)) by lia. f_equal. lia.
Qed.

(** The iterations over a tagged name; one is left for its end. *)
Fixpoint tagged_steps (parts : list (string * string)) (last : string) : nat :=
  match parts with
  | [] => String.length last
  | (text, _) :: parts => String.length text + S (tagged_steps parts last)
  end.

Lemma tagged_steps_length parts last : tagged_steps parts last ≤ String.length (tagged parts last).
Proof.
  induction parts as [|[text tag] parts IH]; [done|]. cbn.
  rewrite !string_length_app, print_tag_length. lia.
Qed.

Lemma strip_tagged fuel parts last pre acc :
  Forall wf_part parts → untagged last = true →
  (N.of_nat (String.length (pre +:+ tagged parts last)) < 2 ^ 64)%N →
  stripLoop (tagged_steps parts last + S fuel) (pre +:+ tagged parts last)
    (N.of_nat (String.length pre)) acc = inl (acc +:+ plain parts last).
Proof.
  intros Hparts Hlast. revert pre acc.
  induction Hparts as [|[text tag] parts (Htext & Hne & Htag) _ IH]; intros pre acc Hsize;
    cbn [tagged tagged_steps plain] in *.
  - pose proof (strip_untagged (S fuel) pre last "" acc Hlast eq_refl) as Hs.
    rewrite append_nil_r in Hs. rewrite Hs. cbn [stripLoop]. by rewrite Nat2N.id, get_end.
  - rewrite <- Nat.add_assoc, strip_untagged by done.
    specialize (IH (pre +:+ text +:+ print_tag tag) (acc +:+ text)).
    rewrite !append_assoc in IH. specialize (IH Hsize). cbn [Nat.add].
    pose proof (strip_tag (tagged_steps parts last + S fuel) (pre +:+ text) tag (tagged parts last)
      (acc +:+ text) Hne Htag) as Ht. rewrite !append_assoc in Ht. rewrite Ht by done. exact IH.
Qed.

(** Stripping the ABI tags of a mangled name gives back the name they were
    put into: for every sequence of texts without tags, each followed by a tag
    (B, the decimal length and the tag itself, which starts with no digit) and
    ended by a text without tags, the loop ends and returns the texts alone. *)
Theorem abi_tags_roundtrip (parts : list (string * string)) (last : string) :
  Forall wf_part parts → untagged last = true →
  (N.of_nat (String.length (tagged parts last)) < 2 ^ 64)%N →
  stripAbiTags (tagged parts last) = inl (plain parts last).
Proof.
  intros Hparts Hlast Hsize. pose proof (tagged_steps_length parts last) as Hle.
  pose proof (strip_tagged (String.length (tagged parts last) - tagged_steps parts last) parts last
    "" "" Hparts Hlast Hsize) as Hs. unfold stripAbiTags.
  replace (S (String.length (tagged parts last))) with (tagged_steps parts last +
    S (String.length (tagged parts last) - tagged_steps parts last)) by lia. exact Hs.
Qed.

Lemma abi_tags_roundtrip_witness :
  stripAbiTags "_ZNSt3__15mutex4lockB8ne200100Ev" = inl "_ZNSt3__15mutex4lockEv".
Proof.
  apply (abi_tags_roundtrip [("_ZNSt3__15mutex4lock", "ne200100")] "Ev");
    [repeat constructor; discriminate|reflexivity|reflexivity].
Defined.

(** ** When the loop ends *)

(** No run of digits is longer than 18. *)
Fixpoint short_numbers (s : string) : bool :=
  match s with
  | "" => true
  | String _ rest => (String.length (span_digits s).1 <=? 18) && short_numbers rest
  end.

Lemma decimal_value_bound digits acc :
  all_chars is_digit digits = true →
  (decimal_value acc digits < (acc + 1) * 10 ^ N.of_nat (String.length digits))%N.
Proof.
  revert acc. induction digits as [|c digits IH]; intros acc; [cbn; lia|].
  cbn [all_chars decimal_value String.length]. rewrite andb_true_iff. intros [Hc Hd].
  specialize (IH (acc * 10 + digit_value c)%N Hd). rewrite Nat2N.inj_succ, N.pow_succ_r'.
  assert (digit_value c ≤ 9)%N; [|nia].
  unfold is_digit in Hc. apply andb_true_iff in Hc as [_ Hc%N.leb_le]. unfold digit_value. lia.
Qed.

Lemma short_numbers_span s digits rest :
  short_numbers s = true → span_digits s = (digits, rest) → (decimal_value 0 digits < 10 ^ 18)%N.
Proof.
  intros Hs E. destruct (span_digits_spec s digits rest E) as [_ Hd].
  eapply N.lt_le_trans; [apply decimal_value_bound, Hd|]. rewrite N.mul_1_l.
  apply N.pow_le_mono_r; [done|]. destruct s as [|c s]; cbn [short_numbers] in Hs.
  - injection E as <- _. cbn. lia.
  - rewrite E in Hs. apply andb_true_iff in Hs as [Hl%Nat.leb_le _]. cbn in Hl. lia.
Qed.

Lemma short_numbers_app pre s : short_numbers (pre +:+ s) = true → short_numbers s = true.
Proof.
  induction pre as [|c pre IH]; [done|]. rewrite append_cons. cbn [short_numbers].
  rewrite andb_true_iff. intros [_ Hs]. auto.
Qed.

Lemma split_at_index name n :
  n ≤ String.length name → ∃ pre s, name = pre +:+ s ∧ String.length pre = n.
Proof.
  revert name. induction n as [|n IH]; intros name Hn; [by exists "", name|].
  destruct name as [|c name]; cbn in Hn; [lia|].
  destruct (IH name) as (pre & s & -> & <-); [lia|]. exists (String c pre), s. done.
Qed.

Lemma strip_ends fuel pre s acc :
  short_numbers (pre +:+ s) = true → (N.of_nat (String.length (pre +:+ s)) < 2 ^ 63)%N →
  String.length s < fuel →
  ∃ stripped, stripLoop fuel (pre +:+ s) (N.of_nat (String.length pre)) acc = inl stripped.
Proof.
  intros Hshort Hsize. revert pre s acc Hshort Hsize.
  induction fuel as [|fuel IH]; intros pre s acc Hshort Hsize Hfuel; [lia|]. cbn [stripLoop].
  rewrite Nat2N.id. destruct s as [|c s].
  { rewrite append_nil_r, get_end. eauto. }
  rewrite get_middle, drop_prefix_S. cbn [String.length] in Hfuel.
  assert (∃ stripped, stripLoop fuel (pre +:+ String c s) (N.of_nat (String.length pre) + 1)
    (acc +:+ String c "") = inl stripped) as Hkeep.
  { specialize (IH (pre +:+ String c "") s (acc +:+ String c "")).
    rewrite append_assoc in IH. change (String c "" +:+ s) with (String c s) in IH.
    rewrite (string_length_app pre (String c "")), Nat2N.inj_add in IH. apply IH; [done|done|lia]. }
  destruct (span_digits s) as [digits rest] eqn:E. case_match; [exact Hkeep|].
  pose proof (short_numbers_span s digits rest) as Hvalue.
  specialize (Hvalue (short_numbers_app (pre +:+ String c "") s ltac:(by rewrite append_assoc)) E).
  rewrite (proj2 (N.leb_gt _ _)) by lia. destruct (span_digits_spec _ _ _ E) as [-> _].
  rewrite !string_length_app in *. cbn [String.length] in *. rewrite !string_length_app in *.
  unfold wrap. rewrite N.mod_small by lia. case_match eqn:Hend; [exact Hkeep|].
  apply N.ltb_ge in Hend. set (tagEnd := (_ + decimal_value 0 digits)%N) in *.
  destruct (split_at_index (pre +:+ String c (digits +:+ rest)) (N.to_nat tagEnd))
    as (pre' & s' & Ename & Hpre').
  { rewrite string_length_app. cbn [String.length]. rewrite string_length_app. lia. }
  rewrite Ename. replace tagEnd with (N.of_nat (String.length pre')) by lia.
  apply (f_equal String.length) in Ename as Elen. rewrite !string_length_app in Elen.
  cbn [String.length] in Elen. rewrite string_length_app in Elen.
  apply IH; [by rewrite <- Ename|rewrite string_length_app; lia|lia].
Qed.

(** [stripAbiTags] ends, and throws nothing, on every name below 2^63
    characters in which no run of digits is longer than 18; in particular the sum
    that finds the end of a tag does not wrap there. *)
Theorem strip_abi_tags_ends (name : string) :
  short_numbers name = true → (N.of_nat (String.length name) < 2 ^ 63)%N →
  ∃ stripped, stripAbiTags name = inl stripped.
Proof. intros Hshort Hsize. apply (strip_ends _ "" name ""); [done|done|lia]. Qed.

Lemma strip_abi_tags_ends_witness :
  ∃ stripped, stripAbiTags "_ZNSt6threadC2B99IvEv" = inl stripped.
Proof. apply strip_abi_tags_ends; reflexivity. Defined.

(** A longer number makes [std::stoul] throw, or the sum wrap back to the tag it
    started from, where the loop stays. *)
Lemma long_tag_number_throws :
  stripAbiTags "_ZB18446744073709551616" = inr NameFailure_OutOfRange.
Proof. reflexivity. Qed.

Lemma wrapping_tag_number_loops (fuel : nat) :
  stripLoop fuel "_ZB18446744073709551595" 0 "" = inr NameFailure_StillRunning.
Proof.
  assert (∀ n acc, stripLoop n "_ZB18446744073709551595" 2 acc = inr NameFailure_StillRunning) as Hloop.
  { intros n acc. induction n as [|n IH]; [reflexivity|exact IH]. }
  destruct fuel as [|[|fuel]]; [reflexivity|reflexivity|]. exact (Hloop fuel "_Z").
Qed.

(** ** The kinds *)

Lemma matchesPlainSymbol_spec name symbol :
  matchesPlainSymbol name symbol = true ↔ name = symbol ∨ name = String "_" symbol.
Proof.
  unfold matchesPlainSymbol. rewrite orb_true_iff, bool_decide_eq_true, andb_true_iff, bool_decide_eq_true.
  apply or_iff_compat_l. split.
  - destruct name as [|c name]; [by intros [? _]|]. rewrite starts_with_cons. intros [Hc E].
    apply andb_true_iff in Hc as [Hc%Ascii.eqb_eq _]. cbn in E. by subst.
  - intros ->. rewrite starts_with_cons, starts_with_nil. done.
Qed.

Lemma matchesAny_spec name symbols :
  matchesAny name symbols = true ↔ ∃ symbol, symbol ∈ symbols ∧ (name = symbol ∨ name = String "_" symbol).
Proof.
  unfold matchesAny. rewrite existsb_exists. split; intros (s & Hs & Hm); exists s.
  - apply matchesPlainSymbol_spec in Hm. by rewrite list_elem_of_In.
  - apply matchesPlainSymbol_spec in Hm. by rewrite <- list_elem_of_In.
Qed.

(** Two symbols no name matches both. *)
Definition apart (s t : string) : bool :=
  negb (bool_decide (s = t)) && negb (bool_decide (s = String "_" t)) &&
  negb (bool_decide (t = String "_" s)).

(** The symbols of two rules of different kinds are apart, and none is mangled. *)
Lemma plainRules_apart :
  forallb (λ r1, forallb (λ r2,
      bool_decide (r1.2 = r2.2) || forallb (λ s, forallb (apart s) r2.1) r1.1) plainRules) plainRules = true ∧
  forallb (λ r, forallb (λ s, negb (starts_with s "_Z") && negb (starts_with s "Z")) r.1) plainRules = true.
Proof. split; vm_compute; reflexivity. Qed.

Lemma plain_kind_unique name rule rule' :
  rule ∈ plainRules → rule' ∈ plainRules →
  matchesAny name rule.1 = true → matchesAny name rule'.1 = true → rule.2 = rule'.2.
Proof.
  intros Hr Hr' (s & Hs & Hns)%matchesAny_spec (t & Ht & Hnt)%matchesAny_spec.
  destruct plainRules_apart as [Hapart _].
  rewrite forallb_forall in Hapart. apply list_elem_of_In in Hr, Hr'.
  specialize (Hapart rule Hr). rewrite forallb_forall in Hapart. specialize (Hapart rule' Hr').
  apply orb_true_iff in Hapart as [E%bool_decide_eq_true|Hapart]; [done|]. exfalso.
  rewrite forallb_forall in Hapart. specialize (Hapart s (proj1 (list_elem_of_In _ _) Hs)).
  rewrite forallb_forall in Hapart. specialize (Hapart t (proj1 (list_elem_of_In _ _) Ht)).
  unfold apart in Hapart. rewrite !andb_true_iff, !negb_true_iff, !bool_decide_eq_false in Hapart.
  destruct Hapart as [[H1 H2] H3], Hns, Hnt; subst; congruence.
Qed.

Lemma std_symbol_not_plain name rule :
  rule ∈ plainRules → isStdNamespaceSymbol name = true → matchesAny name rule.1 = false.
Proof.
  intros Hr Hstd. apply not_true_iff_false. intros (s & Hs & Hns)%matchesAny_spec.
  destruct plainRules_apart as [_ Hz]. rewrite forallb_forall in Hz.
  specialize (Hz rule (proj1 (list_elem_of_In _ _) Hr)). rewrite forallb_forall in Hz.
  specialize (Hz s (proj1 (list_elem_of_In _ _) Hs)). rewrite andb_true_iff, !negb_true_iff in Hz.
  destruct Hz as [HZ1 HZ2]. unfold isStdNamespaceSymbol in Hstd. rewrite !orb_true_iff in Hstd.
  assert (starts_with name "_Z" = true) as Hname.
  { destruct name as [|c0 [|c1 rest]]; [by destruct Hstd as [[[?|?]|?]|?]| |].
    - by destruct Hstd as [[[H|H]|H]|H]; rewrite starts_with_cons, andb_true_iff in H; destruct H.
    - rewrite !starts_with_cons, starts_with_nil.
      destruct Hstd as [[[H|H]|H]|H]; rewrite !starts_with_cons in H;
        apply andb_true_iff in H as [-> H]; by apply andb_true_iff in H as [-> _]. }
  destruct Hns as [->| ->]; [congruence|]. rewrite starts_with_cons, Ascii.eqb_refl in Hname.
  cbn [andb] in Hname. congruence.
Qed.

Lemma classifyStdName_gated name :
  isStdNamespaceSymbol name = false → classifyStdName name = CallKind_Unknown.
Proof.
  intros Hstd. unfold classifyStdName, isStdJThreadCtor, isStdThreadMove, isStdThreadCtor,
    isStdThreadJoin, isStdThreadDetach, isStdThreadDtor, isStdMutexTryLock, isStdMutexLock,
    isStdMutexUnlock, conditionWaitRechecksItself, isStdLockGuardDtor, isStdLockGuardCtor.
  by rewrite Hstd.
Qed.

(** What a callee is called decides its kind, and the order of the tests does
    not matter: a C symbol (with or without one leading underscore) of the table
    has its kind and no other; a symbol of namespace std is never taken for a C
    symbol; and any other symbol, whatever its name contains, is unknown. *)
Theorem classification_by_name (name : string) :
  (∀ symbols kind, (symbols, kind) ∈ plainRules → matchesAny name symbols = true →
    classifyName name = kind) ∧
  (isStdNamespaceSymbol name = true → classifyName name = classifyStdName name) ∧
  (isStdNamespaceSymbol name = false →
    (∀ rule, rule ∈ plainRules → matchesAny name rule.1 = false) →
    classifyName name = CallKind_Unknown).
Proof.
  unfold classifyName. destruct (find _ plainRules) as [rule|] eqn:E.
  - apply find_some in E as [Hrule%list_elem_of_In Hm]. destruct rule as [symbols kind]. split_and!.
    + intros symbols' kind' Hr' Hm'. by apply (plain_kind_unique name (symbols, kind) (symbols', kind')).
    + intros Hstd. rewrite (std_symbol_not_plain name _ Hrule Hstd) in Hm. done.
    + intros _ Hnone. rewrite (Hnone _ Hrule) in Hm. done.
  - split_and!.
    + intros symbols kind Hr%list_elem_of_In Hm. apply (find_none _ _ E) in Hr.
      change (matchesAny name symbols = false) in Hr. congruence.
    + done.
    + intros Hstd _. by apply classifyStdName_gated.
Qed.

Lemma classification_by_name_witness :
  classifyName "_pthread_mutex_lock" = CallKind_PThreadMutexLock ∧
  classifyName "my_mutex_4lockEv" = CallKind_Unknown.
Proof.
  split.
  - apply (proj1 (classification_by_name "_pthread_mutex_lock") ["pthread_mutex_lock"]).
    + by apply (bool_decide_unpack _).
    + reflexivity.
  - apply (classification_by_name "my_mutex_4lockEv"); [reflexivity|].
    intros rule Hrule. revert rule Hrule. apply Forall_forall. by repeat constructor.
Defined.

(** ** The memo *)

(** Every remembered kind is the kind of the function it is remembered for. *)
Definition cache_ok (functions : list Callee) (cache : Cache) : Prop :=
  ∀ f kind, f ∈ functions → cache !! cal_id f = Some kind → classifyCallee f = inl kind.

Lemma classify_function_ok functions cache f :
  f ∈ functions → (∀ g, g ∈ functions → cal_id g = cal_id f → g = f) → cache_ok functions cache →
  (classify_function cache f).1 = classifyCallee f ∧ cache_ok functions (classify_function cache f).2.
Proof.
  intros Hf Hinj Hok. unfold classify_function.
  destruct (cache !! cal_id f) as [kind|] eqn:E; [by rewrite (Hok f kind Hf E)|].
  destruct (classifyCallee f) as [kind|failure] eqn:Ek; [|done]. split; [done|].
  intros g kind' Hg. cbn. destruct (decide (cal_id g = cal_id f)) as [Eid|Hne].
  - rewrite Eid, lookup_insert_eq. intros [= <-]. by rewrite (Hinj g Hg Eid).
  - rewrite lookup_insert_ne by done. by apply Hok.
Qed.

(** A sequence of questions to one classifier. *)
Fixpoint classify_all (cache : Cache) (asked : list Callee) : list (CallKind + NameFailure) :=
  match asked with
  | [] => []
  | f :: asked => let '(answer, cache) := classify_function cache f in answer :: classify_all cache asked
  end.

(** The memo of the classifier is only a memo: however often and in whatever
    order it is asked about the functions of a unit, each at its own address, it
    answers what the callee's name says, failures included. *)
Theorem classifier_memo_transparent (asked : list Callee) :
  (∀ f g, f ∈ asked → g ∈ asked → cal_id f = cal_id g → f = g) →
  classify_all ∅ asked = classifyCallee <$> asked.
Proof.
  intros Hinj.
  assert (∀ l cache, (∀ f, f ∈ l → f ∈ asked) → cache_ok asked cache →
    classify_all cache l = classifyCallee <$> l) as Hall.
  { intros l. induction l as [|f l IH]; intros cache Hl Hok; [done|]. cbn.
    destruct (classify_function_ok asked cache f) as [E Hok']; [set_solver| |done|].
    { intros g Hg Eid. apply Hinj; [done|set_solver|done]. }
    destruct (classify_function cache f) as [answer cache']. cbn in E, Hok'. rewrite E.
    f_equal. apply IH; [set_solver|done]. }
  apply Hall; [done|]. intros f kind _. by rewrite lookup_empty.
Qed.

Lemma classifier_memo_transparent_witness :
  classify_all ∅ [MkCallee 1 "fork"; MkCallee 2 "puts"; MkCallee 1 "fork"]
  = [inl CallKind_ProcessFork; inl CallKind_Unknown; inl CallKind_ProcessFork].
Proof.
  rewrite classifier_memo_transparent; [reflexivity|].
  intros f g Hf Hg. repeat (apply elem_of_cons in Hf as [->|Hf]); try by apply elem_of_nil in Hf.
  all: repeat (apply elem_of_cons in Hg as [->|Hg]); try by apply elem_of_nil in Hg.
  all: done.
Defined.
