(* ===== verification/LockEffects.v ===== *)
(** The effect of an instruction on the locks held
    (src/internal/analysis/lock_effect_application.cpp and the effects of
    synchronization_effects.hpp).

    Resolving a call to its effects reads LLVM's IR and is a parameter; an
    instruction is named by a number standing for its address, a function is the
    list of its basic blocks, a block the list of its instructions. *)

From S2P Require Import Prelude.

Inductive LockEffectKind :=
  | LockEffectKind_Acquire
  | LockEffectKind_TryAcquire
  | LockEffectKind_Release
  | LockEffectKind_GuardAcquire
  | LockEffectKind_GuardRelease.
#[global] Instance LockEffectKind_eq_dec : EqDecision LockEffectKind.
Proof. solve_decision. Defined.

Record LockEffect := MkLockEffect {
  le_kind : LockEffectKind;
  le_lockIds : list string;
  le_guardId : string;
  le_recursiveLock : bool;
  le_adoptsHeldLocks : bool;
}.

Record Instruction := MkInstruction { ins_id : nat; ins_isCall : bool }.

(** A block and the positions of its predecessors in the function. *)
Record BasicBlock := MkBasicBlock {
  bb_instructions : list Instruction;
  bb_predecessors : list nat;
}.

Record FunctionLockEffects := MkFunctionLockEffects {
  fle_guardBindings : gmap string (list string);
  fle_effectsByInstruction : gmap nat (list LockEffect);
}.

Record LockStateChange := MkLockStateChange {
  lsc_acquired : list string;
  lsc_orderedAcquired : list string;
  lsc_released : list string;
  lsc_recursivelyAcquirable : list string;
}.

Definition no_change : LockStateChange := MkLockStateChange [] [] [] [].

Definition change_empty (change : LockStateChange) : bool :=
  match lsc_acquired change, lsc_released change with [], [] => true | _, _ => false end.

(** The locks a guard binds, each once. *)
Definition bindLock (bound : list string) (lockId : string) : list string :=
  if bool_decide (lockId ∈ bound) then bound else bound ++ [lockId].

Definition bindGuard (bindings : gmap string (list string)) (effect : LockEffect)
  : gmap string (list string) :=
  match le_kind effect with
  | LockEffectKind_GuardAcquire =>
      <[le_guardId effect :=
          foldl bindLock (default [] (bindings !! le_guardId effect)) (le_lockIds effect)]> bindings
  | _ => bindings
  end.

Section resolver.
Context (resolve : nat → list LockEffect).

Definition collectInstruction (effects : FunctionLockEffects) (instruction : Instruction)
  : FunctionLockEffects :=
  if negb (ins_isCall instruction) then effects
  else match resolve (ins_id instruction) with
       | [] => effects
       | instructionEffects =>
           MkFunctionLockEffects
             (foldl bindGuard (fle_guardBindings effects) instructionEffects)
             (match fle_effectsByInstruction effects !! ins_id instruction with
              | Some _ => fle_effectsByInstruction effects
              | None => <[ins_id instruction := instructionEffects]> (fle_effectsByInstruction effects)
              end)
       end.

Definition collectFunctionLockEffects (function : list BasicBlock) : FunctionLockEffects :=
  foldl collectInstruction (MkFunctionLockEffects ∅ ∅) (function ≫= bb_instructions).
End resolver.

Definition applyEffect (effects : FunctionLockEffects) (change : LockStateChange)
    (effect : LockEffect) : LockStateChange :=
  let 'MkLockStateChange acquired ordered released recursive := change in
  let ids := le_lockIds effect in
  let recursive' := if le_recursiveLock effect then recursive ++ ids else recursive in
  match le_kind effect with
  | LockEffectKind_Acquire | LockEffectKind_GuardAcquire =>
      MkLockStateChange (acquired ++ ids)
        (if negb (le_adoptsHeldLocks effect) then ordered ++ ids else ordered) released recursive'
  | LockEffectKind_TryAcquire => MkLockStateChange (acquired ++ ids) ordered released recursive'
  | LockEffectKind_Release => MkLockStateChange acquired ordered (released ++ ids) recursive
  | LockEffectKind_GuardRelease =>
      MkLockStateChange acquired ordered
        (match fle_guardBindings effects !! le_guardId effect with
         | Some bound => released ++ bound
         | None => released
         end) recursive
  end.

Definition lockStateChangeFor (instruction : nat) (effects : FunctionLockEffects)
  : LockStateChange :=
  match fle_effectsByInstruction effects !! instruction with
  | None => no_change
  | Some instructionEffects => foldl (applyEffect effects) no_change instructionEffects
  end.
