(* ===== verification/SyncEffects.v ===== *)
(** What a call does to locks
    (src/internal/analysis/synchronization_effects.cpp,
    [SynchronizationEffectResolver]).

    Naming the lock or the guard a value points at walks LLVM's IR and is a
    parameter, as are the questions asked of a value or of a call's function. *)

From S2P Require Import Prelude Text Diagnostics Facts SymbolClassifier LockEffects.

Definition plainLockEffect (kind : CallKind) : option LockEffectKind :=
  match kind with
  | CallKind_PThreadMutexLock | CallKind_PThreadRwLockAcquire
  | CallKind_PThreadSpinLock | CallKind_StdMutexLock => Some LockEffectKind_Acquire
  | CallKind_PThreadMutexTryLock | CallKind_PThreadRwLockTryAcquire
  | CallKind_PThreadSpinTryLock | CallKind_StdMutexTryLock
  | CallKind_StaticInitGuardAcquire => Some LockEffectKind_TryAcquire
  | CallKind_PThreadMutexUnlock | CallKind_PThreadRwLockUnlock
  | CallKind_PThreadSpinUnlock | CallKind_StdMutexUnlock
  | CallKind_StaticInitGuardRelease => Some LockEffectKind_Release
  | _ => None
  end.

Abbreviation LockWrapperSummaries := (gmap string (list ParameterLockEffect)).

Section resolver.
Context {Value SharedObject : Type}.
(** The ways to name a lock: a global, a local object handed to threads, a field
    of the object a thread was given, a field of a parameter, a parameter. *)
Context (canonicalLockId : Value → option string).
Context (localObjectLockId : Value → gset string → option string).
Context (objectFieldLockId : Value → SharedObject → option string).
Context (parameterFieldLockId parameterLockId : Value → option string).
Context (canonicalStorageGroupId : Value → option string).
Context (designatesRecursiveLockType isPointer : Value → bool).
Context (getCalledFunction : Call Value → option Callee) (functionId : Callee → string).

Record EffectResolver := MkEffectResolver {
  er_summaries : option LockWrapperSummaries;
  er_nameParameterLocks : bool;
  er_sharedObject : option SharedObject;
  er_localObjects : option (gset string);
  er_nameParameterFieldLocks : bool;
}.

Definition lockIdOf (resolver : EffectResolver) (value : Value) : option string :=
  match canonicalLockId value with
  | Some lockId => Some lockId
  | None =>
      match er_localObjects resolver ≫= localObjectLockId value with
      | Some lockId => Some lockId
      | None =>
          match er_sharedObject resolver ≫= objectFieldLockId value with
          | Some fieldId => Some fieldId
          | None =>
              if er_nameParameterFieldLocks resolver then parameterFieldLockId value
              else if er_nameParameterLocks resolver then parameterLockId value else None
          end
      end
  end.

(** The effect of one parameter of a summarised callee. *)
Definition summarizedEffect (resolver : EffectResolver) (call : Call Value)
    (parameter : ParameterLockEffect) : option LockEffect :=
  operand ← call_args call !! N.to_nat (ple_argumentIndex parameter);
  lockId ← lockIdOf resolver operand;
  Some (MkLockEffect
    (if ple_acquires parameter then LockEffectKind_Acquire else LockEffectKind_Release)
    [lockId] "" (ple_recursiveLock parameter || designatesRecursiveLockType operand) false).

Definition summarizedEffects (resolver : EffectResolver) (call : Call Value) : list LockEffect :=
  match er_summaries resolver, getCalledFunction call with
  | Some summaries, Some callee =>
      match summaries !! functionId callee with
      | None => []
      | Some parameters => omap (summarizedEffect resolver call) parameters
      end
  | _, _ => []
  end.

(** One operand of a guard's constructor. *)
Definition guardOperand (resolver : EffectResolver) (call : Call Value) (effect : LockEffect + NameFailure)
    (operand : Value) : LockEffect + NameFailure :=
  effect ←! effect;
  if negb (isPointer operand) then inl effect
  else match lockIdOf resolver operand with
       | None => inl effect
       | Some lockId =>
           recursive ←! (if le_recursiveLock effect then inl true
                         else if designatesRecursiveLockType operand then inl true
                         else targetsRecursiveLock call);
           inl (MkLockEffect (le_kind effect) (le_lockIds effect ++ [lockId]) (le_guardId effect)
                  recursive (le_adoptsHeldLocks effect))
       end.

(** The part of [resolve] that follows the classification, for a call with a
    first operand. *)
Definition resolveKind (resolver : EffectResolver) (call : Call Value) (kind : CallKind)
    (first : Value) (others : list Value) : list LockEffect + NameFailure :=
  match kind with
  | CallKind_Unknown => inl (summarizedEffects resolver call)
  | _ =>
      match plainLockEffect kind with
      | Some plainEffect =>
          match lockIdOf resolver first with
          | None => inl []
          | Some lockId =>
              recursive ←! (if designatesRecursiveLockType first then inl true
                            else targetsRecursiveLock call);
              inl [MkLockEffect plainEffect [lockId] "" recursive false]
          end
      | None =>
          match kind with
          | CallKind_StdLockGuardDtor =>
              inl (match canonicalStorageGroupId first with
                   | None => []
                   | Some guardId => [MkLockEffect LockEffectKind_GuardRelease [] guardId false false]
                   end)
          | CallKind_StdLockGuardCtor =>
              match canonicalStorageGroupId first with
              | None => inl []
              | Some guardId =>
                  adopts ←! adoptsHeldLocks call;
                  effect ←! foldl (guardOperand resolver call)
                    (inl (MkLockEffect LockEffectKind_GuardAcquire [] guardId false adopts)) others;
                  inl (if bool_decide (le_lockIds effect = []) then [] else [effect])
              end
          | _ => inl []
          end
      end
  end.

Definition resolve (resolver : EffectResolver) (cache : Cache) (call : Call Value)
  : (list LockEffect + NameFailure) * Cache :=
  let '(kind, cache) := classify cache call in
  (kind ←! kind;
   match call_args call with
   | [] => inl []
   | first :: others => resolveKind resolver call kind first others
   end, cache).

(** ** Lemmas *)

(** What the users of an effect rely on. *)
Definition wf_effect (effect : LockEffect) : Prop :=
  match le_kind effect with
  | LockEffectKind_Acquire | LockEffectKind_TryAcquire | LockEffectKind_Release =>
      (∃ lockId, le_lockIds effect = [lockId]) ∧ le_guardId effect = "" ∧
      le_adoptsHeldLocks effect = false
  | LockEffectKind_GuardAcquire => le_lockIds effect ≠ []
  | LockEffectKind_GuardRelease => le_lockIds effect = []
  end.

Lemma plainLockEffect_kind kind effect :
  plainLockEffect kind = Some effect →
  effect = LockEffectKind_Acquire ∨ effect = LockEffectKind_TryAcquire ∨ effect = LockEffectKind_Release.
Proof. destruct kind; intros [= <-]; auto. Qed.

Lemma summarizedEffects_wf resolver call : Forall wf_effect (summarizedEffects resolver call).
Proof.
  unfold summarizedEffects. destruct (er_summaries resolver), (getCalledFunction call); try constructor.
  case_match; [|constructor]. apply Forall_forall. intros effect Heffect.
  apply list_elem_of_omap in Heffect as (p & _ & E). unfold summarizedEffect in E.
  destruct (call_args call !! _) as [operand|]; [|done]. cbn [mbind option_bind] in E.
  destruct (lockIdOf resolver operand) as [lockId|]; [|done]. injection E as <-.
  unfold wf_effect. cbn. destruct (ple_acquires p); eauto.
Qed.

(** The name of the callee is readable: every question about it is answered. *)
Definition readable (call : Call Value) : Prop :=
  ∀ callee, call_directCallee call = Some callee → ∃ name, canonicalName callee = inl name.

Lemma readable_answers call p : readable call → ∃ b, onCanonicalName call p = inl b.
Proof.
  intros Hr. unfold onCanonicalName. destruct (call_directCallee call) as [callee|] eqn:Ec; [|by eexists].
  destruct (Hr callee Ec) as [name ->]. cbn. by eexists.
Qed.

Lemma guardOperands_ok resolver call guardId adopts others :
  readable call →
  ∃ effect, foldl (guardOperand resolver call)
    (inl (MkLockEffect LockEffectKind_GuardAcquire [] guardId false adopts)) others = inl effect ∧
    le_kind effect = LockEffectKind_GuardAcquire ∧
    le_lockIds effect = omap (λ operand, if isPointer operand then lockIdOf resolver operand else None) others.
Proof.
  intros Hr. induction others as [|operand others IH] using rev_ind; [by eexists|].
  destruct IH as (effect & E & Hkind & Hids). rewrite foldl_snoc, E. cbn [guardOperand bind_ok].
  rewrite omap_app, <- Hids. cbn [omap list_omap]. destruct (isPointer operand); cbn [negb].
  - destruct (lockIdOf resolver operand) as [lockId|].
    + destruct (readable_answers call (λ canonical,
        contains canonical "recursive_mutex" || contains canonical "recursive_timed_mutex") Hr) as [b Hb].
      unfold targetsRecursiveLock. rewrite Hb.
      destruct (le_recursiveLock effect), (designatesRecursiveLockType operand); cbn [bind_ok];
        by eexists.
    + exists effect. by rewrite app_nil_r.
  - exists effect. by rewrite app_nil_r.
Qed.

Lemma resolveKind_ok resolver call kind first others :
  readable call → ∃ effects, resolveKind resolver call kind first others = inl effects ∧
    Forall wf_effect effects.
Proof.
  intros Hr. unfold resolveKind.
  assert (∀ effect, plainLockEffect kind = Some effect → ∃ effects,
    match lockIdOf resolver first with
    | None => inl []
    | Some lockId =>
        recursive ←! (if designatesRecursiveLockType first then inl true else targetsRecursiveLock call);
        inl [MkLockEffect effect [lockId] "" recursive false]
    end = (inl effects : list LockEffect + NameFailure) ∧ Forall wf_effect effects) as Hplain.
  { intros effect Hk%plainLockEffect_kind. destruct (lockIdOf resolver first) as [lockId|]; [|by eexists].
    destruct (readable_answers call (λ canonical,
      contains canonical "recursive_mutex" || contains canonical "recursive_timed_mutex") Hr) as [b Hb].
    unfold targetsRecursiveLock. rewrite Hb.
    destruct (designatesRecursiveLockType first); cbn [bind_ok]; (eexists; split; [done|]);
      (constructor; [|constructor]); unfold wf_effect; cbn; destruct Hk as [->|[->| ->]]; eauto. }
  destruct kind; cbn [plainLockEffect] in *; try (by apply Hplain); try by eexists.
  - eexists. split; [done|]. apply summarizedEffects_wf.
  - destruct (canonicalStorageGroupId first) as [guardId|]; [|by eexists].
    destruct (readable_answers call (λ canonical, contains canonical "adopt_lock") Hr) as [b Hb].
    unfold adoptsHeldLocks. rewrite Hb. cbn [bind_ok].
    destruct (guardOperands_ok resolver call guardId b others Hr) as (effect & -> & Hkind & Hids).
    cbn [bind_ok]. eexists. split; [done|]. case_bool_decide; [constructor|].
    constructor; [|constructor]. unfold wf_effect. by rewrite Hkind.
  - destruct (canonicalStorageGroupId first); eexists; (split; [done|]); repeat constructor.
Qed.

(** On a call whose callee has a readable name the resolver answers, and what
    it answers has the shape its users assume: an acquisition, an attempt or a
    release names one lock and no guard; the construction of a guard names at
    least one lock; its destruction names none, so that what it releases is found
    through the guard alone. *)
Theorem resolved_effects_well_formed (resolver : EffectResolver) (cache : Cache) (call : Call Value) :
  readable call → ∃ effects, (resolve resolver cache call).1 = inl effects ∧ Forall wf_effect effects.
Proof.
  intros Hr. unfold resolve.
  assert (∃ kind, (classify cache call).1 = inl kind) as [kind Hk].
  { unfold classify, classify_function. destruct (call_directCallee call) as [callee|] eqn:Ec; [|by eexists].
    destruct (cache !! cal_id callee); [by eexists|]. unfold classifyCallee.
    destruct (Hr callee Ec) as [name ->]. cbn. by eexists. }
  destruct (classify cache call) as [k cache']. cbn in Hk. subst k. cbn [fst bind_ok].
  destruct (call_args call) as [|first others]; [by eexists|]. by apply resolveKind_ok.
Qed.
End resolver.

(** ** Witness *)

(** Values named by themselves; the constructor of a guard on the global [m]. *)
Definition guard_call : Call string :=
  MkCall (Some (MkCallee 7 "_ZNSt10lock_guardISt5mutexEC2ERS0_")) ["g"; "m"].
Definition plain_resolver : EffectResolver (SharedObject := unit) :=
  MkEffectResolver None false None None false.

Definition resolve_sample (call : Call string) : list LockEffect + NameFailure :=
  (resolve (λ value, Some value) (λ _ _, None) (λ _ _, None) (λ _, None) (λ _, None)
    (λ value, Some value) (λ _, false) (λ _, true) (λ _, None) cal_name plain_resolver ∅ call).1.

Example guard_call_effect :
  resolve_sample guard_call = inl [MkLockEffect LockEffectKind_GuardAcquire ["m"] "g" false false].
Proof. vm_compute. reflexivity. Qed.

Lemma resolved_effects_well_formed_witness :
  ∃ effects, resolve_sample guard_call = inl effects ∧ Forall wf_effect effects.
Proof.
  apply resolved_effects_well_formed. intros callee E. injection E as <-.
  eexists. vm_compute. reflexivity.
Defined.
