(* ===== verification/LockScope.v ===== *)
(** The locks held at each access of a function
    (src/internal/analysis/lock_scope_tracker.cpp, [collectHeldLocks]): a forward
    dataflow over the basic blocks, repeated until nothing changes.

    The position of a block names it; the entry is the first.  The dominator
    tree's [isReachableFromEntry] is a parameter with its documented meaning as a
    hypothesis of the theorems.  A state map holds a block when the code's holds a
    value for it: the code treats an absent entry and an empty optional alike. *)

From S2P Require Import Prelude LockEffects.

Abbreviation LockSet := (gset string).
Abbreviation StateMap := (gmap nat LockSet).

(** The [continue]s of [meetPredecessorStates] and its fold. *)
Definition meetState (outStates : StateMap) (reachable : nat → bool) (result : option LockSet)
    (predecessor : nat) : option LockSet :=
  if negb (reachable predecessor) then result
  else match outStates !! predecessor, result with
       | None, _ => result
       | Some state, None => Some state
       | Some state, Some result => Some (result ∩ state)
       end.

Definition meetPredecessorStates (block : nat) (predecessors : list nat) (outStates : StateMap)
    (reachable : nat → bool) : option LockSet :=
  match foldl (meetState outStates reachable) None predecessors with
  | Some result => Some result
  | None => if bool_decide (block = 0) then Some ∅ else None
  end.

Definition applyChange (change : LockStateChange) (locks : LockSet) : LockSet :=
  foldl (λ locks lockId, {[lockId]} ∪ locks)
    (foldl (λ locks lockId, locks ∖ {[lockId]}) locks (lsc_released change))
    (lsc_acquired change).

Record TrackerState := MkTracker {
  ts_in : StateMap;
  ts_out : StateMap;
  ts_held : gmap nat LockSet;
  ts_changed : bool;
}.

Section tracker.
Context (reachable : nat → bool) (lockEffects : FunctionLockEffects) (trackedAccesses : gset nat).
Context (function : list BasicBlock).

Definition instructionsOf (block : nat) : list Instruction :=
  default [] (bb_instructions <$> function !! block).
Definition predecessorsOfBlock (block : nat) : list nat :=
  default [] (bb_predecessors <$> function !! block).

Definition reachableBlocks : list nat := List.filter reachable (seq 0 (length function)).

Definition visitInstruction (acc : LockSet * gmap nat LockSet) (instruction : Instruction)
  : LockSet * gmap nat LockSet :=
  (applyChange (lockStateChangeFor (ins_id instruction) lockEffects) acc.1,
   if bool_decide (ins_id instruction ∈ trackedAccesses)
   then <[ins_id instruction := acc.1]> acc.2 else acc.2).

(** One block of one round. *)
Definition visitBlock (st : TrackerState) (block : nat) : TrackerState :=
  let newInState :=
    if bool_decide (block ≠ 0)
    then meetPredecessorStates block (predecessorsOfBlock block) (ts_out st) reachable
    else ts_in st !! block in
  match newInState with
  | None => st
  | Some newIn =>
      let '(currentLocks, held) :=
        foldl visitInstruction (newIn, ts_held st) (instructionsOf block) in
      MkTracker
        (if bool_decide (ts_in st !! block ≠ Some newIn) then <[block := newIn]> (ts_in st)
         else ts_in st)
        (if bool_decide (ts_out st !! block ≠ Some currentLocks)
         then <[block := currentLocks]> (ts_out st) else ts_out st)
        held
        (ts_changed st || bool_decide (ts_in st !! block ≠ Some newIn)
         || bool_decide (ts_out st !! block ≠ Some currentLocks))
  end.

Definition visitBlocks (st : TrackerState) : TrackerState :=
  foldl visitBlock (MkTracker (ts_in st) (ts_out st) (ts_held st) false) reachableBlocks.

Fixpoint iterate (fuel : nat) (st : TrackerState) : option (gmap nat LockSet) :=
  match fuel with
  | O => None
  | S fuel => let st := visitBlocks st in
      if ts_changed st then iterate fuel st else Some (ts_held st)
  end.

(** Every lock the function acquires; the rounds the iteration can need. *)
Definition acquirable : LockSet :=
  list_to_set ((function ≫= bb_instructions) ≫= λ instruction,
    lsc_acquired (lockStateChangeFor (ins_id instruction) lockEffects)).
Definition roundsBound : nat := S (length function * (2 * S (size acquirable))).

Definition collectHeldLocks : option (gmap nat LockSet) :=
  if bool_decide (trackedAccesses = ∅) then Some ∅
  else iterate roundsBound (MkTracker {[0 := ∅]} ∅ ∅ true).
End tracker.
