(* ===== verification/LockScopeProps.v ===== *)
(** Theorems on the dataflow of LockScope.v: the rounds end, and the locks it gives
    an access are exactly those held on every path from the entry of the function
    to the access. *)

From S2P Require Import Prelude LockEffects LockScope.

Lemma sum_list_le {A} (f g : A → nat) l : (∀ x, f x ≤ g x) → sum_list (f <$> l) ≤ sum_list (g <$> l).
Proof.
  intros H. induction l as [|x l IH]; [done|]. rewrite !fmap_cons. simpl. specialize (H x). lia.
Qed.

Lemma sum_list_lt {A} (f g : A → nat) l y :
  (∀ x, f x ≤ g x) → y ∈ l → f y < g y → sum_list (f <$> l) < sum_list (g <$> l).
Proof.
  intros H Hy Hlt. induction l as [|x l IH]; [by apply elem_of_nil in Hy|].
  rewrite !fmap_cons. simpl. pose proof (sum_list_le f g l H). specialize (H x).
  apply elem_of_cons in Hy as [->|Hy]; [lia|]. specialize (IH Hy). lia.
Qed.

Lemma NoDup_filter_seq (f : nat → bool) n k : NoDup (List.filter f (seq n k)).
Proof. rewrite NoDup_ListNoDup. apply List.NoDup_filter, List.seq_NoDup. Qed.

(** ** The transfer function *)

Lemma applyChange_elem change locks x :
  x ∈ applyChange change locks ↔
  x ∈ lsc_acquired change ∨ (x ∈ locks ∧ x ∉ lsc_released change).
Proof.
  unfold applyChange.
  assert (∀ l s, x ∈ foldl (λ s y, {[y]} ∪ s) s l ↔ x ∈ l ∨ x ∈ s) as ->.
  { induction l as [|y l IH]; intros s; simpl; [set_solver|]. rewrite IH. set_solver. }
  assert (∀ l s, x ∈ foldl (λ s y, s ∖ {[y]}) s l ↔ x ∈ s ∧ x ∉ l) as ->; [|done].
  induction l as [|y l IH]; intros s; simpl; [set_solver|]. rewrite IH. set_solver.
Qed.

Section dataflow.
Context (reachable : nat → bool) (lockEffects : FunctionLockEffects) (trackedAccesses : gset nat).
Context (function : list BasicBlock).
(** The locks the function starts with. *)
Context (entryLocks : LockSet).

Abbreviation instrs := (instructionsOf function).
Abbreviation preds := (predecessorsOfBlock function).
Abbreviation blocks := (reachableBlocks reachable function).
Abbreviation visit := (visitBlock reachable lockEffects trackedAccesses function).
Abbreviation acquirables := (entryLocks ∪ acquirable lockEffects function).

Definition locksAfter (l : list Instruction) (locks : LockSet) : LockSet :=
  foldl (λ locks instruction,
    applyChange (lockStateChangeFor (ins_id instruction) lockEffects) locks) locks l.

Lemma locksAfter_snoc l i s :
  locksAfter (l ++ [i]) s = applyChange (lockStateChangeFor (ins_id i) lockEffects) (locksAfter l s).
Proof. unfold locksAfter. by rewrite foldl_snoc. Qed.

(** A stretch of code takes a lock, drops it, or leaves it as it was. *)
Lemma locksAfter_cases l x :
  (∀ s, x ∈ locksAfter l s) ∨ (∀ s, x ∉ locksAfter l s) ∨ (∀ s, x ∈ locksAfter l s ↔ x ∈ s).
Proof.
  induction l as [|i l IH] using rev_ind; [by right; right|].
  setoid_rewrite locksAfter_snoc. setoid_rewrite applyChange_elem.
  set (c := lockStateChangeFor (ins_id i) lockEffects).
  destruct (decide (x ∈ lsc_acquired c)); [left; auto|].
  destruct (decide (x ∈ lsc_released c)); [right; left; tauto|].
  destruct IH as [IH|[IH|IH]]; [left|right; left|right; right]; intros s; specialize (IH s); tauto.
Qed.

Lemma locksAfter_mono l s s' : s ⊆ s' → locksAfter l s ⊆ locksAfter l s'.
Proof.
  intros Hs x Hx. destruct (locksAfter_cases l x) as [H|[H|H]]; [done|by apply H in Hx|].
  apply H, Hs, H, Hx.
Qed.

Lemma locksAfter_bound l s :
  (∀ i, i ∈ l → i ∈ function ≫= bb_instructions) → locksAfter l s ⊆ s ∪ acquirables.
Proof.
  induction l as [|i l IH] using rev_ind; intros Hl; [unfold locksAfter; set_solver|].
  rewrite locksAfter_snoc. intros x [Hx|[Hx _]]%applyChange_elem.
  - apply elem_of_union_r, elem_of_union_r, elem_of_list_to_set, list_elem_of_bind. exists i. split; [done|].
    apply Hl. set_solver.
  - apply IH in Hx; [done|]. set_solver.
Qed.

Lemma instrs_in_function b i : i ∈ instrs b → i ∈ function ≫= bb_instructions.
Proof.
  unfold instructionsOf. destruct (function !! b) as [bb|] eqn:E; [|by intros ?%elem_of_nil].
  intros Hi. apply list_elem_of_bind. exists bb. split; [done|]. by eapply list_elem_of_lookup_2.
Qed.

(** Visiting the instructions of a block moves the locks along and notes them at
    the tracked ones. *)
Lemma visitInstructions_locks l s held :
  (foldl (visitInstruction lockEffects trackedAccesses) (s, held) l).1 = locksAfter l s.
Proof.
  induction l as [|i l IH] using rev_ind; [done|]. by rewrite foldl_snoc, locksAfter_snoc, <-IH.
Qed.

Lemma visitInstructions_held l s held k :
  NoDup (ins_id <$> l) →
  (foldl (visitInstruction lockEffects trackedAccesses) (s, held) l).2 !! k =
  match list_find (λ i, ins_id i = k) l with
  | Some (n, _) => if bool_decide (k ∈ trackedAccesses) then Some (locksAfter (take n l) s) else held !! k
  | None => held !! k
  end.
Proof.
  induction l as [|i l IH] using rev_ind; intros Hnd; [done|].
  rewrite fmap_app in Hnd. apply NoDup_app in Hnd as (Hnd & Hdis & _).
  rewrite foldl_snoc. unfold visitInstruction at 1. rewrite visitInstructions_locks. simpl.
  specialize (IH Hnd). destruct (list_find (λ i, ins_id i = k) l) as [[n j]|] eqn:E.
  - rewrite (list_find_app_l _ _ _ _ _ E). apply list_find_Some in E as (Hn & Hj & _).
    assert (ins_id i ≠ k) as Hik.
    { intros Hik. apply (Hdis k); [|set_solver]. subst k. apply list_elem_of_fmap_2.
      by eapply list_elem_of_lookup_2. }
    rewrite take_app_le by (apply lookup_lt_Some in Hn; lia). rewrite <-IH.
    destruct (bool_decide (ins_id i ∈ _)); [by rewrite lookup_insert_ne|done].
  - rewrite (list_find_app_r _ _ _ E). simpl. destruct (decide (ins_id i = k)) as [<-|Hik]; simpl.
    + rewrite take_app_length. destruct (bool_decide _); [by rewrite lookup_insert_eq|exact IH].
    + rewrite <-IH. destruct (bool_decide (ins_id i ∈ _)); [by rewrite lookup_insert_ne|done].
Qed.

(** ** Paths *)

Definition edge (p b : nat) : Prop := p < length function ∧ p ∈ preds b.

(** Some path from the entry comes to the block with these locks held. *)
Inductive entersFrom : nat → LockSet → Prop :=
  | enters_entry : entersFrom 0 entryLocks
  | enters_edge p b s : entersFrom p s → edge p b → entersFrom b (locksAfter (instrs p) s).

Lemma enters_path b : (∃ s, entersFrom b s) ↔ rtc edge 0 b.
Proof.
  split.
  - intros [s Hs]. induction Hs as [|p b s _ IH Hpb]; [done|]. by eapply rtc_r.
  - revert b. apply (rtc_ind_r (λ b, ∃ s, entersFrom b s) 0); [eexists; constructor|].
    intros p b _ Hpb [s Hs]. eexists. by econstructor.
Qed.

(** ** The meet *)

Definition below (m' m : StateMap) : Prop :=
  ∀ b s, m !! b = Some s → ∃ s', m' !! b = Some s' ∧ s' ⊆ s.

(** The states the meet ranges over. *)
Definition available (out : StateMap) (l : list nat) : list LockSet :=
  omap (λ p, if reachable p then out !! p else None) l.

Lemma elem_of_available out l o :
  o ∈ available out l ↔ ∃ p, p ∈ l ∧ reachable p = true ∧ out !! p = Some o.
Proof.
  unfold available. rewrite list_elem_of_omap. split; intros (p & Hp & H).
  - exists p. destruct (reachable p); done.
  - exists p. destruct H as [-> ?]. done.
Qed.

Definition meetSets (r : option LockSet) (s : LockSet) : option LockSet :=
  Some (match r with None => s | Some t => t ∩ s end).

Lemma meet_available out l r0 :
  foldl (meetState out reachable) r0 l = foldl meetSets r0 (available out l).
Proof.
  revert r0. induction l as [|p l IH]; intros r0; simpl; [done|]. rewrite IH. unfold meetState.
  destruct (reachable p); simpl; [|done]. destruct (out !! p), r0; done.
Qed.

Lemma meetSets_spec ls :
  match foldl meetSets None ls with
  | None => ls = []
  | Some m => ls ≠ [] ∧ ∀ x, x ∈ m ↔ ∀ s, s ∈ ls → x ∈ s
  end.
Proof.
  induction ls as [|s ls IH] using rev_ind; [done|]. rewrite foldl_snoc.
  destruct (foldl meetSets None ls) as [m|]; simpl.
  - split; [by destruct ls|]. intros x. rewrite elem_of_intersection, (proj2 IH x).
    setoid_rewrite elem_of_app. setoid_rewrite list_elem_of_singleton. naive_solver.
  - subst ls. split; [done|]. intros x. setoid_rewrite list_elem_of_singleton. naive_solver.
Qed.

Abbreviation meetOf b out := (meetPredecessorStates b (preds b) out reachable).

Lemma meet_spec b out :
  b ≠ 0 →
  match meetOf b out with
  | None => available out (preds b) = []
  | Some m => available out (preds b) ≠ [] ∧ ∀ x, x ∈ m ↔ ∀ s, s ∈ available out (preds b) → x ∈ s
  end.
Proof.
  intros Hb. unfold meetPredecessorStates. rewrite meet_available.
  pose proof (meetSets_spec (available out (preds b))) as H.
  destruct (foldl meetSets None _); [done|]. by rewrite bool_decide_false.
Qed.

Lemma meet_below b out out' m :
  b ≠ 0 → below out' out → meetOf b out = Some m → ∃ m', meetOf b out' = Some m' ∧ m' ⊆ m.
Proof.
  intros Hb Hbelow Hm. pose proof (meet_spec b out Hb) as H. rewrite Hm in H.
  destruct H as [Hne Hin]. pose proof (meet_spec b out' Hb) as H'.
  assert (∀ o, o ∈ available out (preds b) → ∃ o', o' ∈ available out' (preds b) ∧ o' ⊆ o) as Hsub.
  { intros o (p & Hp & Hr & Ho)%elem_of_available. destruct (Hbelow p o Ho) as (o' & Ho' & Hs).
    exists o'. split; [|done]. apply elem_of_available. eauto. }
  destruct (meetOf b out') as [m'|].
  - exists m'. split; [done|]. intros x Hx. apply Hin. intros o Ho.
    destruct (Hsub o Ho) as (o' & Ho' & Hs). apply Hs. by apply H'.
  - exfalso. destruct (available out (preds b)) as [|o l]; [done|].
    destruct (Hsub o) as (o' & Ho' & _); [left|]. rewrite H' in Ho'. by apply elem_of_nil in Ho'.
Qed.

(** ** The invariant of the rounds *)

Record tracker_ok (st : TrackerState) : Prop := {
  tk_entry : ts_in st !! 0 = Some entryLocks;
  tk_sync : ∀ b o, ts_out st !! b = Some o →
    ∃ s, ts_in st !! b = Some s ∧ o = locksAfter (instrs b) s;
  tk_meet : ∀ b s, b ≠ 0 → ts_in st !! b = Some s → ∃ m, meetOf b (ts_out st) = Some m ∧ m ⊆ s;
  tk_all : ∀ b s x, ts_in st !! b = Some s → (∀ s', entersFrom b s' → x ∈ s') → x ∈ s;
  tk_bound : ∀ b s, ts_in st !! b = Some s → s ⊆ acquirables;
}.

Definition newInOf (st : TrackerState) (b : nat) : option LockSet :=
  if bool_decide (b ≠ 0) then meetOf b (ts_out st) else ts_in st !! b.

(** What visiting a block makes of the two maps. *)
Lemma visit_maps st b n :
  newInOf st b = Some n →
  ts_in (visit st b) = <[b := n]> (ts_in st) ∧
  ts_out (visit st b) = <[b := locksAfter (instrs b) n]> (ts_out st) ∧
  (ts_changed (visit st b) = false ↔ ts_changed st = false ∧
     ts_in st !! b = Some n ∧ ts_out st !! b = Some (locksAfter (instrs b) n)) ∧
  ts_held (visit st b) =
    (foldl (visitInstruction lockEffects trackedAccesses) (n, ts_held st) (instrs b)).2.
Proof.
  intros Hn. unfold visitBlock. fold (newInOf st b). rewrite Hn.
  pose proof (visitInstructions_locks (instrs b) n (ts_held st)) as Hl.
  destruct (foldl (visitInstruction lockEffects trackedAccesses) (n, ts_held st) (instrs b)) as [o held].
  simpl in Hl. subst o. simpl. split_and!; [| | |done].
  - case_bool_decide as H; [done|]. by rewrite insert_id.
  - case_bool_decide as H; [done|]. by rewrite insert_id.
  - rewrite !orb_false_iff, !bool_decide_eq_false. split.
    + intros [[? ?%dec_stable] ?%dec_stable]. done.
    + intros (? & ? & ?). split_and!; [done|by intros ?..].
Qed.

Lemma visit_none st b : newInOf st b = None → visit st b = st.
Proof. intros Hn. unfold visitBlock. fold (newInOf st b). by rewrite Hn. Qed.

Context (Hreach : ∀ b, reachable b = true ↔ rtc edge 0 b).

Lemma elem_of_blocks b : b ∈ blocks ↔ b < length function ∧ reachable b = true.
Proof.
  unfold reachableBlocks. rewrite list_elem_of_In, List.filter_In, <-list_elem_of_In, elem_of_seq.
  simpl. split; intros [? ?]; (split; [lia|done]).
Qed.

Lemma reachable_lt b c : c ∈ blocks → reachable b = true → b < length function.
Proof.
  intros [Hc _]%elem_of_blocks Hb. apply Hreach in Hb.
  destruct (rtc_inv_r _ _ Hb) as [<-|(p & _ & _ & Hp)]; [lia|].
  unfold predecessorsOfBlock in Hp. destruct (function !! b) as [bb|] eqn:E; [by eapply lookup_lt_Some|].
  by apply elem_of_nil in Hp.
Qed.

(** The new state of a block is no larger than the one it replaces. *)
Lemma newIn_below st b n :
  tracker_ok st → newInOf st b = Some n → ∀ s, ts_in st !! b = Some s → n ⊆ s.
Proof.
  intros Hok Hn s Hs. unfold newInOf in Hn. case_bool_decide as Hb.
  - destruct (tk_meet _ Hok b s Hb Hs) as (m & Hm & ?). rewrite Hn in Hm. by injection Hm as ->.
  - rewrite Hn in Hs. by injection Hs as ->.
Qed.

(** It keeps what every path to the block holds, since every predecessor does. *)
Lemma newIn_all st b n x :
  tracker_ok st → b ∈ blocks → newInOf st b = Some n → (∀ s, entersFrom b s → x ∈ s) → x ∈ n.
Proof.
  intros Hok Hb Hn Hx. unfold newInOf in Hn. case_bool_decide as Hb0; [|by eapply tk_all].
  pose proof (meet_spec b (ts_out st) Hb0) as Hm. rewrite Hn in Hm. apply Hm.
  intros o (p & Hp & Hr & Ho)%elem_of_available.
  destruct (tk_sync _ Hok p o Ho) as (s & Hs & ->).
  assert (∀ s', entersFrom p s' → x ∈ locksAfter (instrs p) s') as Hpx.
  { intros s' Hs'. apply Hx. econstructor; [done|]. split; [by eapply reachable_lt|done]. }
  destruct (locksAfter_cases (instrs p) x) as [H|[H|H]]; [done| |].
  - apply Hreach, enters_path in Hr as [s' Hs']. by apply Hpx, H in Hs'.
  - apply H. apply (tk_all _ Hok p); [done|]. intros s' Hs'. by apply H, Hpx.
Qed.

Lemma newIn_bound st b n : tracker_ok st → newInOf st b = Some n → n ⊆ acquirables.
Proof.
  intros Hok Hn. unfold newInOf in Hn. case_bool_decide as Hb; [|by eapply tk_bound].
  pose proof (meet_spec b (ts_out st) Hb) as Hm. rewrite Hn in Hm. destruct Hm as [Hne Hin].
  destruct (available (ts_out st) (preds b)) as [|o l] eqn:E; [done|].
  assert (o ∈ available (ts_out st) (preds b)) as Ho by (rewrite E; left).
  apply elem_of_available in Ho as (p & _ & _ & Ho). destruct (tk_sync _ Hok p o Ho) as (s & Hs & ->).
  pose proof (tk_bound _ Hok p s Hs) as Hbs.
  intros x Hx. apply Hin with (s := locksAfter (instrs p) s) in Hx; [|left].
  apply locksAfter_bound in Hx; [|apply instrs_in_function]. set_solver.
Qed.

Lemma visit_below st b :
  tracker_ok st → below (ts_in (visit st b)) (ts_in st) ∧ below (ts_out (visit st b)) (ts_out st).
Proof.
  intros Hok. destruct (newInOf st b) as [n|] eqn:Hn; [|rewrite visit_none by done; split; intros ?; eauto].
  destruct (visit_maps st b n Hn) as (-> & -> & _). pose proof (newIn_below st b n Hok Hn) as Hle.
  split; intros c s Hc; (destruct (decide (b = c)) as [<-|Hne];
    [rewrite lookup_insert_eq|rewrite lookup_insert_ne by done; eauto]); eexists; (split; [done|]).
  - auto.
  - destruct (tk_sync _ Hok b s Hc) as (s' & Hs' & ->). apply locksAfter_mono. auto.
Qed.

Lemma visit_ok st b : tracker_ok st → b ∈ blocks → tracker_ok (visit st b).
Proof.
  intros Hok Hb. destruct (newInOf st b) as [n|] eqn:Hn; [|by rewrite visit_none].
  destruct (visit_below st b Hok) as [_ Hbel].
  pose proof (newIn_all st b n) as Hall. pose proof (newIn_bound st b n Hok Hn) as Hbound.
  destruct (visit_maps st b n Hn) as (Hin & Hout & _).
  split; rewrite ?Hin, ?Hout; rewrite ?Hout in Hbel.
  - destruct (decide (b = 0)) as [->|Hne]; [|rewrite lookup_insert_ne by done; apply Hok].
    rewrite lookup_insert_eq. unfold newInOf in Hn. rewrite bool_decide_false in Hn by auto.
    rewrite <-Hn. apply Hok.
  - intros c o. destruct (decide (b = c)) as [<-|Hne].
    + rewrite !lookup_insert_eq. intros [= <-]. eauto.
    + rewrite !lookup_insert_ne by done. apply Hok.
  - intros c s Hc0 Hc.
    assert (∃ m, meetOf c (ts_out st) = Some m ∧ m ⊆ s) as (m & Hm & Hms).
    { destruct (decide (b = c)) as [<-|Hne].
      - rewrite lookup_insert_eq in Hc. injection Hc as <-. unfold newInOf in Hn.
        rewrite bool_decide_true in Hn by done. eauto.
      - rewrite lookup_insert_ne in Hc by done. by apply (tk_meet _ Hok). }
    destruct (meet_below c _ _ m Hc0 Hbel Hm) as (m' & ? & ?). exists m'. split; [done|]. by etrans.
  - intros c s x. destruct (decide (b = c)) as [<-|Hne].
    + rewrite lookup_insert_eq. intros [= <-] Hx. by apply Hall.
    + rewrite lookup_insert_ne by done. apply Hok.
  - intros c s. destruct (decide (b = c)) as [<-|Hne].
    + rewrite lookup_insert_eq. by intros [= <-].
    + rewrite lookup_insert_ne by done. apply Hok.
Qed.

(** ** The rounds end *)

Definition stateSize (m : StateMap) (b : nat) : nat :=
  match m !! b with None => S (size acquirables) | Some s => size s end.

Definition remaining (st : TrackerState) : nat :=
  sum_list ((λ b, stateSize (ts_in st) b + stateSize (ts_out st) b) <$> blocks).

Lemma stateSize_insert m b s :
  s ⊆ acquirables → (∀ s0, m !! b = Some s0 → s ⊆ s0) →
  (∀ c, stateSize (<[b := s]> m) c ≤ stateSize m c) ∧
  (m !! b ≠ Some s → stateSize (<[b := s]> m) b < stateSize m b).
Proof.
  intros Hb Hle. unfold stateSize. split.
  - intros c. destruct (decide (b = c)) as [<-|Hne]; [|by rewrite lookup_insert_ne].
    rewrite lookup_insert_eq. destruct (m !! b) as [s0|]; [by apply subseteq_size, Hle|].
    apply subseteq_size in Hb. lia.
  - intros Hne. rewrite lookup_insert_eq. destruct (m !! b) as [s0|].
    + apply subset_size. specialize (Hle s0 eq_refl). split; [done|]. intros Hs.
      apply Hne. f_equal. set_solver.
    + apply subseteq_size in Hb. lia.
Qed.

Lemma visit_remaining st b :
  tracker_ok st → b ∈ blocks →
  remaining (visit st b) ≤ remaining st ∧
  (ts_changed (visit st b) = true → ts_changed st = true ∨ remaining (visit st b) < remaining st).
Proof.
  intros Hok Hb. destruct (newInOf st b) as [n|] eqn:Hn; [|rewrite visit_none by done; auto].
  destruct (visit_maps st b n Hn) as (Hin & Hout & Hch & _). unfold remaining.
  assert (locksAfter (instrs b) n ⊆ acquirables) as Ho.
  { intros x Hx. apply locksAfter_bound in Hx; [|apply instrs_in_function].
    pose proof (newIn_bound st b n Hok Hn). set_solver. }
  destruct (stateSize_insert (ts_in st) b n) as [Hi1 Hi2].
  { by eapply newIn_bound. } { by apply newIn_below. }
  destruct (stateSize_insert (ts_out st) b (locksAfter (instrs b) n) Ho) as [Ho1 Ho2].
  { intros o (s & Hs & ->)%(tk_sync _ Hok). apply locksAfter_mono. by apply (newIn_below st b). }
  rewrite Hin, Hout. split.
  - apply sum_list_le. intros c. specialize (Hi1 c). specialize (Ho1 c). lia.
  - intros Htrue. destruct (ts_changed st) eqn:E; [by left|right].
    apply sum_list_lt with b; [|done|].
    + intros c. specialize (Hi1 c). specialize (Ho1 c). lia.
    + specialize (Hi1 b). specialize (Ho1 b).
      destruct (decide (ts_in st !! b = Some n)) as [E1|E1]; [|specialize (Hi2 E1); lia].
      destruct (decide (ts_out st !! b = Some (locksAfter (instrs b) n))) as [E2|E2];
        [|specialize (Ho2 E2); lia].
      exfalso. assert (ts_changed (visit st b) = false) by (by apply Hch). congruence.
Qed.

Lemma visits_ok l st :
  tracker_ok st → (∀ b, b ∈ l → b ∈ blocks) →
  let st' := foldl visit st l in
  tracker_ok st' ∧ remaining st' ≤ remaining st ∧
  (ts_changed st' = true → ts_changed st = true ∨ remaining st' < remaining st).
Proof.
  revert st. induction l as [|b l IH]; intros st Hok Hl; simpl; [auto|].
  assert (b ∈ blocks) as Hb by (apply Hl; left).
  destruct (visit_remaining st b Hok Hb) as [H1 H2].
  destruct (IH (visit st b)) as (H3 & H4 & H5); [by apply visit_ok|intros; apply Hl; by right|].
  split_and!; [done|lia|]. intros H. apply H5 in H as [H|H]; [|right; lia].
  apply H2 in H as [?|?]; [by left|right; lia].
Qed.

(** ** The last round *)

(** A block whose visit changed nothing: its state is the meet, or there is none. *)
Definition settled (st : TrackerState) (b : nat) : Prop :=
  match newInOf st b with
  | None => True
  | Some n => ts_in st !! b = Some n ∧ ts_out st !! b = Some (locksAfter (instrs b) n)
  end.

Lemma visit_unchanged st b :
  ts_changed (visit st b) = false →
  ts_changed st = false ∧ ts_in (visit st b) = ts_in st ∧ ts_out (visit st b) = ts_out st ∧ settled st b.
Proof.
  unfold settled. destruct (newInOf st b) as [n|] eqn:Hn; [|by rewrite visit_none].
  destruct (visit_maps st b n Hn) as (-> & -> & Hch & _). intros (? & ? & ?)%Hch.
  by rewrite !insert_id.
Qed.

Lemma newInOf_ext st st' b :
  ts_in st' = ts_in st → ts_out st' = ts_out st → newInOf st' b = newInOf st b.
Proof. intros H1 H2. unfold newInOf. by rewrite H1, H2. Qed.

Lemma settled_ext st st' b :
  ts_in st' = ts_in st → ts_out st' = ts_out st → settled st' b ↔ settled st b.
Proof. intros H1 H2. unfold settled. by rewrite (newInOf_ext st st'), H1, H2. Qed.

Lemma visits_unchanged l st :
  ts_changed (foldl visit st l) = false →
  ts_changed st = false ∧ ts_in (foldl visit st l) = ts_in st ∧
  ts_out (foldl visit st l) = ts_out st ∧ ∀ b, b ∈ l → settled st b.
Proof.
  induction l as [|b l IH] using rev_ind; [intros ?; split_and!; [done..|by intros ? ?%elem_of_nil]|].
  rewrite foldl_snoc. intros H. apply visit_unchanged in H as (H & -> & -> & Hset).
  destruct (IH H) as (H1 & H2 & H3 & H4). split_and!; [done..|].
  intros c [Hc| ->%list_elem_of_singleton]%elem_of_app; [auto|]. by apply (settled_ext st) in Hset.
Qed.

Abbreviation round := (visitBlocks reachable lockEffects trackedAccesses function).

Lemma iterate_ends fuel st :
  tracker_ok st → remaining st < fuel →
  ∃ st', tracker_ok st' ∧ ts_changed (round st') = false ∧
    iterate reachable lockEffects trackedAccesses function fuel st = Some (ts_held (round st')).
Proof.
  revert st. induction fuel as [|fuel IH]; intros st Hok Hlt; [lia|]. simpl.
  assert (tracker_ok (MkTracker (ts_in st) (ts_out st) (ts_held st) false)) as Hok'
    by (destruct Hok; by split).
  destruct (visits_ok blocks _ Hok') as (H1 & H2 & H3); [done|].
  fold (round st) in *. destruct (ts_changed (round st)) eqn:E; [|eauto].
  apply IH; [done|]. destruct (H3 eq_refl) as [?|H]; [done|].
  change (remaining (MkTracker _ _ _ _)) with (remaining st) in H. lia.
Qed.

Lemma start_ok held : tracker_ok (MkTracker {[0 := entryLocks]} ∅ held true).
Proof.
  split; simpl.
  - apply lookup_singleton_eq.
  - intros b o. by rewrite lookup_empty.
  - intros b s Hb. by rewrite lookup_singleton_ne by done.
  - intros b s x [<- <-]%lookup_singleton_Some Hx. apply Hx. constructor.
  - intros b s [<- <-]%lookup_singleton_Some. set_solver.
Qed.

Lemma start_remaining held :
  remaining (MkTracker {[0 := entryLocks]} ∅ held true) < S (length function * (2 * S (size acquirables))).
Proof.
  unfold remaining. simpl.
  assert (∀ l, sum_list ((λ b, stateSize {[0 := entryLocks]} b + stateSize ∅ b) <$> l) ≤
    length l * (2 * S (size acquirables))) as Hle.
  { induction l as [|b l IH]; [done|]. rewrite fmap_cons. simpl sum_list.
    assert (∀ m, (∀ s, m !! b = Some s → s ⊆ acquirables) → stateSize m b ≤ S (size acquirables)) as Hs.
    { intros m Hm. unfold stateSize. destruct (m !! b) as [s|]; [|done].
      pose proof (subseteq_size _ _ (Hm s eq_refl)). lia. }
    assert (stateSize {[0 := entryLocks]} b ≤ S (size acquirables)) by
      (apply Hs; intros s [_ <-]%lookup_singleton_Some; set_solver).
    assert (stateSize ∅ b ≤ S (size acquirables)) by (apply Hs; intros s; by rewrite lookup_empty).
    simpl length. lia. }
  specialize (Hle blocks).
  assert (length blocks ≤ length function).
  { unfold reachableBlocks. rewrite <-(length_seq (length function) 0) at 2. apply List.filter_length_le. }
  nia.
Qed.

(** At the end, every reachable block has a state and it is below every path. *)
Lemma final_state st b :
  tracker_ok st → (∀ c, c ∈ blocks → settled st c) → b ∈ blocks → ∃ n, newInOf st b = Some n.
Proof.
  intros Hok Hset Hb. pose proof (proj2 (proj1 (elem_of_blocks b) Hb)) as Hr. apply Hreach in Hr.
  revert Hb. revert b Hr. apply (rtc_ind_r (λ b, b ∈ blocks → ∃ n, newInOf st b = Some n) 0).
  - intros _. exists entryLocks. apply Hok.
  - intros p b Hp [Hlt Hpb] IH Hb. assert (p ∈ blocks) as Hpp.
    { apply elem_of_blocks. split; [done|]. by apply Hreach. }
    destruct (IH Hpp) as [n Hn]. specialize (Hset p Hpp). unfold settled in Hset. rewrite Hn in Hset.
    unfold newInOf. case_bool_decide as Hb0; [|subst b; exists entryLocks; apply Hok].
    pose proof (meet_spec b (ts_out st) Hb0) as Hm. destruct (meetOf b (ts_out st)); [eauto|].
    exfalso. apply (elem_of_nil (locksAfter (instrs p) n)). rewrite <-Hm. apply elem_of_available.
    exists p. split; [done|]. split; [by apply Hreach|apply Hset].
Qed.

(** Nothing jumps to the entry, or it starts with no locks. *)
Context (Hentry : entryLocks = ∅ ∨ preds 0 = []).

Lemma final_below st b s n :
  tracker_ok st → (∀ c, c ∈ blocks → settled st c) → b ∈ blocks →
  entersFrom b s → newInOf st b = Some n → n ⊆ s.
Proof.
  intros Hok Hset Hb Hs. revert n Hb. induction Hs as [|p b s Hs IH [Hlt Hpb]]; intros n Hb Hn.
  { change (newInOf st 0) with (ts_in st !! 0) in Hn. rewrite (tk_entry _ Hok) in Hn. by injection Hn as <-. }
  assert (p ∈ blocks) as Hp.
  { apply elem_of_blocks. split; [done|]. apply Hreach, enters_path. eauto. }
  destruct (final_state st p Hok Hset Hp) as [np Hnp].
  specialize (Hset p Hp). unfold settled in Hset. rewrite Hnp in Hset. destruct Hset as [_ Hout].
  unfold newInOf in Hn. case_bool_decide as Hb0.
  - pose proof (meet_spec b (ts_out st) Hb0) as Hm. rewrite Hn in Hm. destruct Hm as [_ Hm].
    trans (locksAfter (instrs p) np); [|by apply locksAfter_mono, IH].
    intros x Hx. eapply Hm; [done|]. apply elem_of_available. exists p. split; [done|].
    split; [|done]. by apply elem_of_blocks.
  - subst b. rewrite (tk_entry _ Hok) in Hn. injection Hn as <-.
    destruct Hentry as [->|E]; [set_solver|]. rewrite E in Hpb. by apply elem_of_nil in Hpb.
Qed.

(** ** The table of held locks *)

Context (Huniq : ∀ b c k m i j, instrs b !! k = Some i → instrs c !! m = Some j →
  ins_id i = ins_id j → b = c ∧ k = m).

Lemma instrs_NoDup b : NoDup (ins_id <$> instrs b).
Proof.
  apply NoDup_alt. intros k m id Hk Hm. rewrite list_lookup_fmap in Hk, Hm.
  apply fmap_Some in Hk as (i & Hi & ->). apply fmap_Some in Hm as (j & Hj & E).
  by destruct (Huniq b b k m i j).
Qed.

Lemma find_instruction b k i :
  instrs b !! k = Some i → list_find (λ j, ins_id j = ins_id i) (instrs b) = Some (k, i).
Proof.
  intros Hi. apply list_find_Some. split_and!; [done..|]. intros m j Hj Hlt E.
  destruct (Huniq b b m k j i) as [_ ->]; [done..|lia].
Qed.

Lemma find_other b c k i :
  instrs b !! k = Some i → b ≠ c → list_find (λ j, ins_id j = ins_id i) (instrs c) = None.
Proof.
  intros Hi Hne. apply list_find_None, Forall_forall. intros j [m Hj]%list_elem_of_lookup E.
  by destruct (Huniq c b m k j i).
Qed.

Lemma visits_held l st b k i n :
  ts_changed (foldl visit st l) = false → NoDup l → b ∈ l →
  newInOf st b = Some n → instrs b !! k = Some i → ins_id i ∈ trackedAccesses →
  ts_held (foldl visit st l) !! ins_id i = Some (locksAfter (take k (instrs b)) n).
Proof.
  intros Hch Hnd Hb Hn Hi Ht. induction l as [|c l IH] using rev_ind; [by apply elem_of_nil in Hb|].
  rewrite foldl_snoc in *. apply NoDup_app in Hnd as (Hnd & Hdis & _).
  destruct (visit_unchanged _ _ Hch) as (Hch' & _ & _ & _).
  destruct (visits_unchanged l st Hch') as (_ & Hin & Hout & _).
  pose proof (newInOf_ext st (foldl visit st l) c Hin Hout) as Hext.
  destruct (decide (b = c)) as [<-|Hne].
  - rewrite Hn in Hext. destruct (visit_maps _ _ _ Hext) as (_ & _ & _ & ->).
    rewrite visitInstructions_held by apply instrs_NoDup.
    by rewrite (find_instruction b k i), bool_decide_true.
  - apply elem_of_app in Hb as [Hb|?%list_elem_of_singleton]; [|done].
    specialize (IH Hch' Hnd Hb). destruct (newInOf (foldl visit st l) c) as [m|] eqn:Em.
    + destruct (visit_maps _ _ _ Em) as (_ & _ & _ & ->).
      rewrite visitInstructions_held by apply instrs_NoDup. by rewrite (find_other b c k i).
    + by rewrite visit_none.
Qed.

(** Only tracked instructions of reachable blocks enter the table. *)
Definition held_ok (held : gmap nat LockSet) : Prop :=
  ∀ id, is_Some (held !! id) →
    id ∈ trackedAccesses ∧ ∃ b i, b ∈ blocks ∧ i ∈ instrs b ∧ ins_id i = id.

Lemma visit_held_ok st b : b ∈ blocks → held_ok (ts_held st) → held_ok (ts_held (visit st b)).
Proof.
  intros Hb Hheld. destruct (newInOf st b) as [n|] eqn:Hn; [|by rewrite visit_none].
  destruct (visit_maps st b n Hn) as (_ & _ & _ & ->). intros id.
  rewrite visitInstructions_held by apply instrs_NoDup.
  destruct (list_find _ (instrs b)) as [[k i]|] eqn:E; [|apply Hheld].
  case_bool_decide; [|apply Hheld]. intros _. split; [done|].
  apply list_find_Some in E as (Hi & <- & _). exists b, i. split; [done|].
  split; [by eapply list_elem_of_lookup_2|done].
Qed.

Lemma round_held_ok st : held_ok (ts_held st) → held_ok (ts_held (round st)).
Proof.
  intros H. unfold visitBlocks. apply (foldl_inv (λ st, held_ok (ts_held st))); [done|].
  intros st' b Hb. by apply visit_held_ok.
Qed.

Lemma iterate_held_ok fuel st held :
  held_ok (ts_held st) →
  iterate reachable lockEffects trackedAccesses function fuel st = Some held → held_ok held.
Proof.
  revert st. induction fuel as [|fuel IH]; intros st Hst H; [done|]. simpl in H.
  destruct (ts_changed (round st)); [|injection H as <-]; [eapply IH; [|done]|]; by apply round_held_ok.
Qed.

Lemma held_exact_from :
  ∃ held, iterate reachable lockEffects trackedAccesses function
      (S (length function * (2 * S (size acquirables)))) (MkTracker {[0 := entryLocks]} ∅ ∅ true) = Some held ∧
    (∀ b k i, instrs b !! k = Some i → reachable b = true → ins_id i ∈ trackedAccesses →
       ∃ locks, held !! ins_id i = Some locks ∧
         ∀ x, x ∈ locks ↔ ∀ s, entersFrom b s → x ∈ locksAfter (take k (instrs b)) s) ∧
    (∀ id, is_Some (held !! id) →
       id ∈ trackedAccesses ∧ ∃ b i, reachable b = true ∧ i ∈ instrs b ∧ ins_id i = id).
Proof.
  destruct (iterate_ends _ _ (start_ok ∅) (start_remaining ∅)) as (st & Hok & Hch & Hit).
  eexists. split; [exact Hit|]. split.
  - intros b k i Hi Hr Ht. assert (b ∈ blocks) as Hb.
    { apply elem_of_blocks. split; [|done]. unfold instructionsOf in Hi.
      destruct (function !! b) eqn:E; [by eapply lookup_lt_Some|done]. }
    destruct (visits_unchanged _ _ Hch) as (_ & _ & _ & Hset).
    assert (∀ c, c ∈ blocks → settled st c) as Hset' by exact Hset.
    destruct (final_state st b Hok Hset' Hb) as [n Hn].
    eexists. split.
    + apply (visits_held _ _ b k i n Hch); try done. apply NoDup_filter_seq.
    + intros x. split.
      * intros Hx s Hs. eapply locksAfter_mono; [|done]. by eapply final_below.
      * intros Hx. destruct (locksAfter_cases (take k (instrs b)) x) as [H|[H|H]]; [done| |].
        -- apply Hreach, enters_path in Hr as [s Hs]. by apply Hx, H in Hs.
        -- apply H. eapply newIn_all; [done..|]. intros s Hs. by apply H, Hx.
  - intros id Hid. apply (iterate_held_ok _ _ _) in Hit; [|intros k [? H]; simpl in H; by rewrite lookup_empty in H].
    destruct (Hit id Hid) as (Ht & b & i & [_ Hb]%elem_of_blocks & Hi & E). eauto 8.
Qed.

End dataflow.

(** The paths of a function that starts with no locks. *)
Abbreviation enters lockEffects function := (entersFrom lockEffects function ∅).

Section held.
Context (reachable : nat → bool) (lockEffects : FunctionLockEffects) (trackedAccesses : gset nat).
Context (function : list BasicBlock).
Abbreviation instrs := (instructionsOf function).
Context (Hreach : ∀ b, reachable b = true ↔ rtc (edge function) 0 b).
Context (Huniq : ∀ b c k m i j, instrs b !! k = Some i → instrs c !! m = Some j →
  ins_id i = ins_id j → b = c ∧ k = m).

Lemma held_exact :
  ∃ held, collectHeldLocks reachable lockEffects trackedAccesses function = Some held ∧
    (∀ b k i, instrs b !! k = Some i → reachable b = true → ins_id i ∈ trackedAccesses →
       ∃ locks, held !! ins_id i = Some locks ∧
         ∀ x, x ∈ locks ↔ ∀ s, enters lockEffects function b s →
           x ∈ locksAfter lockEffects (take k (instrs b)) s) ∧
    (∀ id, is_Some (held !! id) →
       id ∈ trackedAccesses ∧ ∃ b i, reachable b = true ∧ i ∈ instrs b ∧ ins_id i = id).
Proof.
  unfold collectHeldLocks. case_bool_decide as Hempty.
  { exists ∅. split; [done|]. split; [set_solver|]. intros id [? H]. by rewrite lookup_empty in H. }
  destruct (held_exact_from reachable lockEffects trackedAccesses function ∅) as (held & E & H); [done|by left|done|].
  rewrite (union_empty_l_L (acquirable lockEffects function)) in E. by exists held.
Qed.

(** C5: the locks held at an access are exactly those held on every way to it.
    The rounds over the blocks end; each tracked instruction of a reachable block
    gets the set of the locks that every path from the entry of the function
    holds when it comes to the instruction, the effects of guards, wrappers and
    releases on the way applied in order; no other instruction gets one. *)
Theorem held_locks_exact :
  ∃ held, collectHeldLocks reachable lockEffects trackedAccesses function = Some held ∧
    (∀ b k i, instrs b !! k = Some i → reachable b = true → ins_id i ∈ trackedAccesses →
       ∃ locks, held !! ins_id i = Some locks ∧
         ∀ x, x ∈ locks ↔ ∀ s, enters lockEffects function b s → x ∈ locksAfter lockEffects (take k (instrs b)) s) ∧
    (∀ id, is_Some (held !! id) →
       id ∈ trackedAccesses ∧ ∃ b i, reachable b = true ∧ i ∈ instrs b ∧ ins_id i = id).
Proof. apply held_exact. Qed.
End held.

(** ** Witness *)

(** The entry locks [m]; the block after it, a loop on itself, makes an access,
    constructs a guard on [n], makes another access and destroys the guard. *)
Definition sample_resolve (id : nat) : list LockEffect :=
  match id with
  | 0 => [MkLockEffect LockEffectKind_Acquire ["m"] "" false false]
  | 2 => [MkLockEffect LockEffectKind_GuardAcquire ["n"] "g" false false]
  | 4 => [MkLockEffect LockEffectKind_GuardRelease [] "g" false false]
  | _ => []
  end.

Definition sample_function : list BasicBlock :=
  [MkBasicBlock [MkInstruction 0 true] [];
   MkBasicBlock [MkInstruction 1 false; MkInstruction 2 true; MkInstruction 3 false;
                 MkInstruction 4 true] [0; 1]].

Definition sample_effects : FunctionLockEffects :=
  collectFunctionLockEffects sample_resolve sample_function.

Example sample_held :
  (λ held, (λ id, sorted_elements <$> held !! id) <$> [1; 3]) <$>
    collectHeldLocks (λ b, b <? 2) sample_effects {[1; 3]} sample_function
  = Some [Some ["m"]; Some ["m"; "n"]].
Proof. vm_compute. reflexivity. Qed.

Lemma sample_reachable b : (b <? 2) = true ↔ rtc (edge sample_function) 0 b.
Proof.
  split.
  - intros Hb%Nat.ltb_lt. destruct b as [|[|b]]; [done| |lia]. apply rtc_once.
    split; [simpl; lia|left].
  - revert b. apply (rtc_ind_r (λ b, (b <? 2) = true) 0); [done|].
    intros p b _ [_ Hp] _. destruct b as [|[|b]]; [done..|].
    change (p ∈ @nil nat) in Hp. by apply elem_of_nil in Hp.
Qed.

Lemma sample_unique b c k m i j :
  instructionsOf sample_function b !! k = Some i → instructionsOf sample_function c !! m = Some j →
  ins_id i = ins_id j → b = c ∧ k = m.
Proof.
  destruct b as [|[|b]]; [| |done]; (destruct c as [|[|c]]; [| |done]); simpl;
    intros Hi Hj E; repeat (destruct k as [|k]; simpl in Hi; simplify_eq/=; try done);
    repeat (destruct m as [|m]; simpl in Hj; simplify_eq/=; try done).
Qed.

Lemma held_locks_exact_witness :
  ∃ held, collectHeldLocks (λ b, b <? 2) sample_effects {[1; 3]} sample_function = Some held ∧
    ∃ locks, held !! 3 = Some locks.
Proof.
  destruct (held_locks_exact (λ b, b <? 2) sample_effects {[1; 3]} sample_function
    sample_reachable sample_unique) as (held & Hheld & Hin & _).
  exists held. split; [exact Hheld|].
  destruct (Hin 1 2 (MkInstruction 3 false)) as (locks & Hlocks & _);
    [reflexivity|reflexivity|apply elem_of_union_r, elem_of_singleton; reflexivity|].
  exists locks. exact Hlocks.
Defined.
