(* ===== verification/LockOrderCollector.v ===== *)
(** The lock orders a function takes (src/internal/analysis/lock_order_collector.cpp):
    a forward dataflow over the basic blocks, as in LockScope.v, that notes an order
    each time it passes an acquisition.

    Of LLVM's IR the model has the blocks with the lock effects of their
    instructions, and as parameters the source location of an instruction, the
    threads running at it, the object an operand's lock lies in, and the comparisons
    the blocks branch on. *)

From S2P Require Import Prelude Text Diagnostics Facts LockIds LockEffects LockScope.

Definition kLocksHeldByCaller : string := "%caller".

(** [parameterLockPlace], on the ids the analyzer writes: their numbers fit, so the
    conversions do not throw. *)
Definition lockPlace (lockId : string) : option ParameterLockPlace :=
  match parameterLockPlace lockId with inl place => place | inr _ => None end.
Definition lockRoot (lockId : string) : RootBinding :=
  match lockIdRoot lockId with inl root => root | inr _ => RootBinding_global lockId default_region end.

Definition isThroughParameter (lockId : string) : bool := bool_decide (is_Some (lockPlace lockId)).

(** ** Objects handed to threads *)

Inductive SharedObjectKind :=
  | SharedObjectKind_Global | SharedObjectKind_Local | SharedObjectKind_BehindPointer.
#[global] Instance SharedObjectKind_eq_dec : EqDecision SharedObjectKind.
Proof. solve_decision. Defined.

(** The elements and the functions of a binding are named by what the analysis
    reads of them: that there are elements, and the program's symbol of each function
    with whether it is local to the unit. *)
Record SharedObjectBinding := MkSharedObject {
  so_object : RootBinding;
  so_kind : SharedObjectKind;
  so_argumentIndex : N;
  so_elementPerThread : bool;
  so_constructedClass : string;
  so_keptForLackOfProof : bool;
  so_runByDirectCalls : bool;
  so_settledThrough : list (string * bool);
}.

Abbreviation SharedObjectBindings := (gmap string SharedObjectBinding).

Definition gatesAmong (heldLocks : gset string) (sharedObject : option SharedObjectBinding)
  : gset string :=
  match sharedObject with
  | Some object =>
      if so_keptForLackOfProof object
      then filter (λ lockId, rb_symbol (lockRoot lockId) ≠ rb_symbol (so_object object)) heldLocks
      else heldLocks
  | None => heldLocks
  end.

(** ** The orders *)

Record Orders := MkOrders {
  od_facts : list LockOrderFact;
  od_sites : list (list nat);
  od_index : gmap string nat;
}.
Definition no_orders : Orders := MkOrders [] [] ∅.

Record CollectorState := MkCollector {
  cs_in : StateMap;
  cs_out : StateMap;
  cs_orders : Orders;
  cs_changed : bool;
}.

(** What a branch compares: the two objects, when they are known, whether its
    predicate says the left one is lower, or lower or equal, and where it goes when
    it holds and when it does not. *)
Record AddressBranch := MkAddressBranch {
  ab_block : nat;
  ab_lhs : option nat;
  ab_rhs : option nat;
  ab_leftLowerWhenTrue : bool;
  ab_whenTrue : nat;
  ab_whenFalse : nat;
}.

Section collector.
Context (functionId : string) (reachable : nat → bool) (lockEffects : FunctionLockEffects).
Context (function : list BasicBlock) (sharedObject : option SharedObjectBinding).
Context (userLocation : nat → SourceLocation).
Context (liveEntries startedEntries : gmap nat ThreadEntrySet).
(** The object of the operand of an instruction that names a lock, the branches on
    addresses in the order of the blocks, and whether an edge dominates an
    instruction. *)
Context (lockedObject : nat → string → option nat) (branches : list AddressBranch).
Context (edgeDominates : nat → nat → nat → bool).

Definition orderKey (heldLock acquiredLock : string) (location : SourceLocation) : string :=
  functionId +:+ "|" +:+ heldLock +:+ "|" +:+ acquiredLock +:+ "|" +:+ loc_file location +:+ "|" +:+
  pretty (loc_line location) +:+ "|" +:+ pretty (loc_column location).

(** One lock held at one acquisition. *)
Definition noteOrder (instruction : nat) (change : LockStateChange) (locks : LockSet)
    (acquiredLock : string) (orders : Orders) (heldLock : string) : Orders :=
  let location := userLocation instruction in
  let key := orderKey heldLock acquiredLock location in
  match od_index orders !! key with
  | Some index =>
      MkOrders (od_facts orders)
        (alter (λ sites, if bool_decide (instruction ∈ sites) then sites else sites ++ [instruction])
           index (od_sites orders))
        (od_index orders)
  | None =>
      MkOrders
        (od_facts orders ++
          [MkLockOrder functionId heldLock acquiredLock location (gatesAmong locks sharedObject) false
             (default ∅ (liveEntries !! instruction)) (default ∅ (startedEntries !! instruction)) false
             (bool_decide (acquiredLock ∈ lsc_recursivelyAcquirable change)) false])
        (od_sites orders ++ [[instruction]])
        (<[key := length (od_facts orders)]> (od_index orders))
  end.

Definition releaseLocks (change : LockStateChange) (locks : LockSet) : LockSet :=
  foldl (λ locks lockId, locks ∖ {[lockId]}) locks (lsc_released change).
Definition acquireLocks (change : LockStateChange) (locks : LockSet) : LockSet :=
  foldl (λ locks lockId, {[lockId]} ∪ locks) locks (lsc_acquired change).

Definition orderInstruction (acc : LockSet * Orders) (instruction : Instruction) : LockSet * Orders :=
  let change := lockStateChangeFor (ins_id instruction) lockEffects in
  if change_empty change then acc
  else
    let locks := releaseLocks change acc.1 in
    let orders :=
      if bool_decide (lsc_orderedAcquired change = []) || bool_decide (locks = ∅) then acc.2
      else foldl (λ orders acquiredLock,
             foldl (noteOrder (ins_id instruction) change locks acquiredLock) orders
               (sorted_elements locks)) acc.2 (lsc_orderedAcquired change) in
    (acquireLocks change locks, orders).

(** One block of one round. *)
Definition orderBlock (st : CollectorState) (block : nat) : CollectorState :=
  let newInState :=
    if bool_decide (block ≠ 0)
    then meetPredecessorStates block (predecessorsOfBlock function block) (cs_out st) reachable
    else cs_in st !! block in
  match newInState with
  | None => st
  | Some newIn =>
      let '(currentLocks, orders) :=
        foldl orderInstruction (newIn, cs_orders st) (instructionsOf function block) in
      MkCollector
        (if bool_decide (cs_in st !! block ≠ Some newIn) then <[block := newIn]> (cs_in st)
         else cs_in st)
        (if bool_decide (cs_out st !! block ≠ Some currentLocks)
         then <[block := currentLocks]> (cs_out st) else cs_out st)
        orders
        (cs_changed st || bool_decide (cs_in st !! block ≠ Some newIn)
         || bool_decide (cs_out st !! block ≠ Some currentLocks))
  end.

Definition orderBlocks (st : CollectorState) : CollectorState :=
  foldl orderBlock (MkCollector (cs_in st) (cs_out st) (cs_orders st) false)
    (reachableBlocks reachable function).

Fixpoint collectLoop (fuel : nat) (st : CollectorState) : option Orders :=
  match fuel with
  | O => None
  | S fuel => let st := orderBlocks st in
      if cs_changed st then collectLoop fuel st else Some (cs_orders st)
  end.

(** ** Locking the lower address first *)

Definition allFollow (block successor : nat) (sites : list nat) : bool :=
  forallb (edgeDominates block successor) sites.

Definition branchOrders (firstObject secondObject : nat) (forward backward : list nat)
    (branch : AddressBranch) : bool :=
  let straight := bool_decide (ab_lhs branch = Some firstObject) &&
                  bool_decide (ab_rhs branch = Some secondObject) in
  let swapped := bool_decide (ab_lhs branch = Some secondObject) &&
                 bool_decide (ab_rhs branch = Some firstObject) in
  if Bool.eqb straight swapped then false
  else
    let firstLowerWhenTrue :=
      if straight then ab_leftLowerWhenTrue branch else negb (ab_leftLowerWhenTrue branch) in
    let '(firstLower, secondLower) :=
      if firstLowerWhenTrue then (ab_whenTrue branch, ab_whenFalse branch)
      else (ab_whenFalse branch, ab_whenTrue branch) in
    allFollow (ab_block branch) firstLower forward && allFollow (ab_block branch) secondLower backward.

Definition ordersLowerAddressFirst (forward backward : list nat) (first second : string) : bool :=
  match (back ← head backward; lockedObject back first), (front ← head forward; lockedObject front second) with
  | Some firstObject, Some secondObject =>
      existsb (branchOrders firstObject secondObject forward backward) branches
  | _, _ => false
  end.

Definition set_lowerAddressFirst (fact : LockOrderFact) : LockOrderFact :=
  MkLockOrder (lo_functionId fact) (lo_firstLockId fact) (lo_secondLockId fact) (lo_location fact)
    (lo_heldLocks fact) (lo_inRootTask fact) (lo_liveEntries fact) (lo_startedEntries fact) true
    (lo_secondIsRecursive fact) (lo_boundBySpawn fact).

Definition markPair (orders : Orders) (facts : list LockOrderFact) (pair : nat * nat)
  : list LockOrderFact :=
  match facts !! pair.1, facts !! pair.2, od_sites orders !! pair.1, od_sites orders !! pair.2 with
  | Some lhs, Some rhs, Some lhsSites, Some rhsSites =>
      if bool_decide (lo_firstLockId lhs = lo_secondLockId rhs) &&
         bool_decide (lo_secondLockId lhs = lo_firstLockId rhs) &&
         ordersLowerAddressFirst lhsSites rhsSites (lo_firstLockId lhs) (lo_secondLockId lhs)
      then alter set_lowerAddressFirst pair.2 (alter set_lowerAddressFirst pair.1 facts)
      else facts
  | _, _, _, _ => facts
  end.

(** The pairs of positions of the two nested loops. *)
Definition index_pairs (n : nat) : list (nat * nat) :=
  seq 0 n ≫= λ lhs, pair lhs <$> seq (S lhs) (n - S lhs).

Definition markLowerAddressFirst (orders : Orders) : list LockOrderFact :=
  foldl (markPair orders) (od_facts orders) (index_pairs (length (od_facts orders))).

(** ** [collect] *)

(** The rounds the iteration can need, from the locks it starts with. *)
Definition collectBound (entryLocks : LockSet) : nat :=
  S (length function * (2 * S (size (entryLocks ∪ acquirable lockEffects function)))).

Definition LockOrderCollector_collect (initialHeldLocks : LockSet) : option (list LockOrderFact) :=
  let entryLocks := {[kLocksHeldByCaller]} ∪ initialHeldLocks in
  orders ← collectLoop (collectBound entryLocks) (MkCollector {[0 := entryLocks]} ∅ no_orders true);
  Some (markLowerAddressFirst orders).
End collector.
