(* ===== verification/LockOrderCollectorProps.v ===== *)
(** The collector of lock orders ends; an order it notes is taken on some way through
    the function, and an order every way takes is noted. Its gates are those of the
    round that first met the order, which later ways need not hold. *)

From S2P Require Import Prelude Text Diagnostics Facts LockIds LockEffects LockScope LockScopeProps.
From S2P Require Import KeyIndex LockOrderCollector.

Lemma applyChange_split change locks :
  applyChange change locks = acquireLocks change (releaseLocks change locks).
Proof. done. Qed.

Lemma releaseLocks_elem change locks x :
  x ∈ releaseLocks change locks ↔ x ∈ locks ∧ x ∉ lsc_released change.
Proof.
  unfold releaseLocks. generalize (lsc_released change) as l. intros l. revert locks.
  induction l as [|y l IH]; intros locks; cbn [foldl]; [set_solver|]. rewrite IH. set_solver.
Qed.

Lemma applyChange_empty change locks : change_empty change = true → applyChange change locks = locks.
Proof. destruct change as [[|] ? [|] ?]; done. Qed.

Section collector.
Context (functionId : string) (reachable : nat → bool) (lockEffects : FunctionLockEffects).
Context (function : list BasicBlock) (sharedObject : option SharedObjectBinding).
Context (userLocation : nat → SourceLocation).
Context (liveEntries startedEntries : gmap nat ThreadEntrySet).
Context (entryLocks : LockSet).

Abbreviation instrs := (instructionsOf function).
Abbreviation change_at i := (lockStateChangeFor (ins_id i) lockEffects).
Abbreviation note := (noteOrder functionId sharedObject userLocation liveEntries startedEntries).
Abbreviation step := (orderInstruction functionId lockEffects sharedObject userLocation liveEntries startedEntries).
Abbreviation visit :=
  (orderBlock functionId reachable lockEffects function sharedObject userLocation liveEntries startedEntries).
Abbreviation entering := (entersFrom lockEffects function entryLocks).
Abbreviation blocks := (reachableBlocks reachable function).
Abbreviation key_of fact :=
  (orderKey functionId (lo_firstLockId fact) (lo_secondLockId fact) (lo_location fact)).

(** ** The same dataflow as for the locks around accesses *)

Definition tracker_of (st : CollectorState) : TrackerState :=
  MkTracker (cs_in st) (cs_out st) ∅ (cs_changed st).

Lemma step_locks acc i : (step acc i).1 = applyChange (change_at i) acc.1.
Proof.
  unfold orderInstruction. destruct (change_empty (change_at i)) eqn:E; [|done].
  by rewrite applyChange_empty.
Qed.

Lemma steps_locks l locks orders :
  (foldl step (locks, orders) l).1 = locksAfter lockEffects l locks.
Proof.
  induction l as [|i l IH] using rev_ind; [done|]. by rewrite foldl_snoc, locksAfter_snoc, step_locks, IH.
Qed.

Lemma visit_tracker st b :
  tracker_of (visit st b) = visitBlock reachable lockEffects ∅ function (tracker_of st) b.
Proof.
  unfold orderBlock, visitBlock. cbn [tracker_of ts_in ts_out ts_held ts_changed].
  destruct (if bool_decide (b ≠ 0) then _ else _) as [n|]; [|done].
  pose proof (steps_locks (instrs b) n (cs_orders st)) as H1.
  pose proof (visitInstructions_locks lockEffects ∅ (instrs b) n ∅) as H2.
  assert ((foldl (visitInstruction lockEffects ∅) (n, ∅) (instrs b)).2 = ∅) as H3.
  { generalize (instrs b). intros l. induction l as [|i l IH] using rev_ind; [done|].
    rewrite foldl_snoc. unfold visitInstruction at 1. cbn [snd]. by rewrite bool_decide_false by set_solver. }
  destruct (foldl step _ _) as [locks orders]. destruct (foldl (visitInstruction _ _) _ _) as [locks' held].
  cbn [fst snd] in *. by subst.
Qed.

(** ** Orders that are taken *)

(** Some way to the acquisition [i] of the block holds the first lock when the
    second is taken. *)
Definition taken (fact : LockOrderFact) : Prop :=
  ∃ b k i s, instrs b !! k = Some i ∧ entering b s ∧ lo_functionId fact = functionId ∧
    lo_location fact = userLocation (ins_id i) ∧
    lo_firstLockId fact ∈ releaseLocks (change_at i) (locksAfter lockEffects (take k (instrs b)) s) ∧
    lo_secondLockId fact ∈ lsc_orderedAcquired (change_at i) ∧
    lo_secondIsRecursive fact = bool_decide (lo_secondLockId fact ∈ lsc_recursivelyAcquirable (change_at i)) ∧
    lo_liveEntries fact = default ∅ (liveEntries !! ins_id i) ∧
    lo_startedEntries fact = default ∅ (startedEntries !! ins_id i).

Record orders_ok (orders : Orders) : Prop := {
  oo_taken : ∀ fact, fact ∈ od_facts orders → taken fact;
  oo_sites : length (od_sites orders) = length (od_facts orders);
  oo_index : indexed (λ fact, key_of fact) (od_facts orders) (od_index orders);
}.

(** Notes only grow. *)
Definition notes_more (orders orders' : Orders) : Prop := od_facts orders `prefix_of` od_facts orders'.
#[local] Instance notes_more_preorder : PreOrder notes_more.
Proof. split; unfold notes_more; [intros o; done|intros o1 o2 o3; apply transitivity]. Qed.

Definition noted (orders : Orders) (h a : string) (location : SourceLocation) : Prop :=
  ∃ fact, fact ∈ od_facts orders ∧ key_of fact = orderKey functionId h a location.

Lemma noted_more orders orders' h a location :
  notes_more orders orders' → noted orders h a location → noted orders' h a location.
Proof.
  intros [l Hl] (fact & Hf & Hk). exists fact. rewrite Hl. split; [apply elem_of_app; by left|done].
Qed.

Lemma noteOrder_ok b k i s locks a orders h :
  instrs b !! k = Some i → entering b s → a ∈ lsc_orderedAcquired (change_at i) →
  h ∈ locks → locks ⊆ releaseLocks (change_at i) (locksAfter lockEffects (take k (instrs b)) s) →
  orders_ok orders →
  orders_ok (note (ins_id i) (change_at i) locks a orders h) ∧
  notes_more orders (note (ins_id i) (change_at i) locks a orders h) ∧
  noted (note (ins_id i) (change_at i) locks a orders h) h a (userLocation (ins_id i)).
Proof.
  intros Hi Hs Ha Hh Hlocks [Ht Hl Hx]. unfold noteOrder.
  set (key := orderKey functionId h a _). destruct (od_index orders !! key) as [n|] eqn:E.
  { apply Hx in E as (fact & Hf & Hk). split_and!; [split; cbn| |]; try done.
    - by rewrite length_alter.
    - by unfold notes_more.
    - exists fact. split; [by eapply list_elem_of_lookup_2|done]. }
  split_and!; [split; cbn| |].
  - intros fact [Hf| ->%list_elem_of_singleton]%elem_of_app; [by apply Ht|].
    exists b, k, i, s. split_and!; try done. by apply Hlocks.
  - rewrite !length_app, Hl. done.
  - by apply (indexed_snoc (λ fact, key_of fact)).
  - by apply prefix_app_r.
  - eexists. split; [apply elem_of_app; right; by left|done].
Qed.

Lemma noteOrders_ok b k i s orders locks acquired held :
  instrs b !! k = Some i → entering b s →
  locks ⊆ releaseLocks (change_at i) (locksAfter lockEffects (take k (instrs b)) s) →
  Forall (λ a, a ∈ lsc_orderedAcquired (change_at i)) acquired → Forall (λ h, h ∈ locks) held →
  orders_ok orders →
  let orders' := foldl (λ orders a, foldl (note (ins_id i) (change_at i) locks a) orders held) orders acquired in
  orders_ok orders' ∧ notes_more orders orders' ∧
  ∀ a h, a ∈ acquired → h ∈ held → noted orders' h a (userLocation (ins_id i)).
Proof.
  intros Hi Hs Hlocks Ha Hh. cbn.
  assert (∀ a orders, a ∈ lsc_orderedAcquired (change_at i) → orders_ok orders →
    let orders' := foldl (note (ins_id i) (change_at i) locks a) orders held in
    orders_ok orders' ∧ notes_more orders orders' ∧
    ∀ h, h ∈ held → noted orders' h a (userLocation (ins_id i))) as Hinner.
  { intros a. induction held as [|h held IH] using rev_ind; intros os Has Hos; cbn in *.
    { split_and!; [done|by unfold notes_more|]. by intros ? ?%elem_of_nil. }
    apply Forall_app in Hh as [Hh [Hh' _]%Forall_cons]. destruct (IH Hh os Has Hos) as (H1 & H2 & H3).
    rewrite foldl_snoc. destruct (noteOrder_ok b k i s locks a _ h Hi Hs Has Hh' Hlocks H1) as (H4 & H5 & H6).
    split_and!; [done|by etrans|]. intros x [Hx| ->%list_elem_of_singleton]%elem_of_app; [|done].
    eapply noted_more; [exact H5|auto]. }
  revert orders. induction acquired as [|a acquired IH] using rev_ind; intros orders Hos.
  { split_and!; [done|by unfold notes_more|]. by intros ? ? ?%elem_of_nil. }
  apply Forall_app in Ha as [Ha [Ha' _]%Forall_cons]. destruct (IH Ha orders Hos) as (H1 & H2 & H3).
  rewrite foldl_snoc. destruct (Hinner a _ Ha' H1) as (H4 & H5 & H6).
  split_and!; [done|by etrans|].
  intros x h [Hx| ->%list_elem_of_singleton]%elem_of_app Hin; [|auto].
  eapply noted_more; [exact H5|auto].
Qed.

Lemma step_ok b k i s locks orders :
  instrs b !! k = Some i → entering b s →
  locks ⊆ locksAfter lockEffects (take k (instrs b)) s → orders_ok orders →
  orders_ok (step (locks, orders) i).2 ∧ notes_more orders (step (locks, orders) i).2 ∧
  ∀ a h, a ∈ lsc_orderedAcquired (change_at i) → h ∈ releaseLocks (change_at i) locks →
    change_empty (change_at i) = false → noted (step (locks, orders) i).2 h a (userLocation (ins_id i)).
Proof.
  intros Hi Hs Hlocks Hos. unfold orderInstruction. destruct (change_empty (change_at i)).
  { split_and!; [done|by unfold notes_more|done]. }
  cbn [fst snd]. set (locks' := releaseLocks (change_at i) locks).
  case_bool_decide as Ha; [rewrite Ha; split_and!; [done|by unfold notes_more|by intros ?? ?%elem_of_nil]|].
  case_bool_decide as Hempty; cbn [orb].
  { rewrite Hempty. split_and!; [done|by unfold notes_more|set_solver]. }
  destruct (noteOrders_ok b k i s orders locks' (lsc_orderedAcquired (change_at i)) (sorted_elements locks'))
    as (H1 & H2 & H3); try done.
  - intros x. unfold locks'. rewrite !releaseLocks_elem. set_solver.
  - by apply Forall_forall.
  - apply Forall_forall. intros h. by rewrite elem_of_sorted_elements.
  - split_and!; [done|done|]. intros a h Hin Hh _. apply H3; [done|]. by apply elem_of_sorted_elements.
Qed.

(** An instruction that takes locks in order is not one without effect. *)
Lemma ordered_not_empty i a :
  a ∈ lsc_orderedAcquired (change_at i) → change_empty (change_at i) = false.
Proof.
  assert (∀ l change, (∀ x, x ∈ lsc_orderedAcquired change → x ∈ lsc_acquired change) →
    ∀ x, x ∈ lsc_orderedAcquired (foldl (applyEffect lockEffects) change l) →
      x ∈ lsc_acquired (foldl (applyEffect lockEffects) change l)) as Hsub.
  { induction l as [|e l IH]; intros change Hc; [done|]. cbn [foldl]. apply IH.
    destruct change as [acquired ordered released recursive]. cbn in Hc |- *.
    destruct (le_kind e); cbn; try destruct (negb _); intros x; rewrite ?elem_of_app; naive_solver. }
  unfold lockStateChangeFor. destruct (fle_effectsByInstruction lockEffects !! ins_id i) as [l|];
    [|by intros ?%elem_of_nil].
  intros Ha%(Hsub l no_change); [|done]. unfold change_empty.
  destruct (lsc_acquired _); [by apply elem_of_nil in Ha|done].
Qed.

(** ** A block *)

(** What every acquisition of the block, entered with the locks [n], notes. *)
Definition block_noted (orders : Orders) (b : nat) (n : LockSet) (l : list Instruction) : Prop :=
  ∀ k i a h, l !! k = Some i → a ∈ lsc_orderedAcquired (change_at i) →
    h ∈ releaseLocks (change_at i) (locksAfter lockEffects (take k l) n) →
    noted orders h a (userLocation (ins_id i)).

Lemma steps_ok b s n orders l :
  entering b s → n ⊆ s → orders_ok orders → l `prefix_of` instrs b →
  let orders' := (foldl step (n, orders) l).2 in
  orders_ok orders' ∧ notes_more orders orders' ∧ block_noted orders' b n l.
Proof.
  intros Hs Hn Hos. cbn. induction l as [|i l IH] using rev_ind; intros Hl.
  { split_and!; [done|by unfold notes_more|done]. }
  destruct IH as (H1 & H2 & H3); [by eapply prefix_app_l|]. rewrite foldl_snoc.
  destruct Hl as [rest Hl]. assert (instrs b !! length l = Some i) as Hi.
  { rewrite Hl, <- app_assoc. by apply list_lookup_middle. }
  assert (take (length l) (instrs b) = l) as Htake by (by rewrite Hl, <- app_assoc, take_app_length).
  destruct (foldl step (n, orders) l) as [locks os] eqn:E.
  assert (locks = locksAfter lockEffects l n) as -> by (by rewrite <- (steps_locks l n orders), E).
  destruct (step_ok b (length l) i s (locksAfter lockEffects l n) os) as (H4 & H5 & H6); try done.
  { rewrite Htake. by apply locksAfter_mono. }
  split_and!; [done|by etrans|]. intros k j a h [Hj|[Hk Hj]]%lookup_app_Some Ha Hh.
  - rewrite take_app_le in Hh by (apply lookup_lt_Some in Hj; lia).
    eapply noted_more; [exact H5|]. by eapply H3.
  - destruct (k - length l) as [|m] eqn:Em; [|by rewrite lookup_cons_ne_0 in Hj by done].
    injection Hj as <-. replace k with (length l) in Hh by lia. rewrite take_app_length in Hh.
    apply H6; try done. by eapply ordered_not_empty.
Qed.

Context (Hreach : ∀ b, reachable b = true ↔ rtc (edge function) 0 b).

Definition collector_ok (st : CollectorState) : Prop :=
  tracker_ok reachable lockEffects function entryLocks (tracker_of st) ∧ orders_ok (cs_orders st) ∧
  ∀ b s, cs_in st !! b = Some s → ∃ s', entering b s' ∧ s ⊆ s'.

Abbreviation newIn st b := (newInOf reachable function (tracker_of st) b).

Lemma newIn_some_path st b n :
  collector_ok st → b ∈ blocks → newIn st b = Some n → ∃ s, entering b s ∧ n ⊆ s.
Proof.
  intros (Htr & _ & Hpath) Hb Hn. unfold newInOf in Hn. case_bool_decide as Hb0; [|by apply Hpath].
  cbn [ts_out tracker_of] in Hn.
  pose proof (meet_spec reachable function b (cs_out st) Hb0) as Hm. rewrite Hn in Hm. destruct Hm as [Hne Hm].
  destruct (available reachable (cs_out st) (predecessorsOfBlock function b)) as [|o rest] eqn:Ea; [done|].
  assert (o ∈ available reachable (cs_out st) (predecessorsOfBlock function b)) as Ho by (rewrite Ea; left).
  apply elem_of_available in Ho as (p & Hp & Hr & Ho).
  destruct (tk_sync _ _ _ _ _ Htr p o Ho) as (s & Hs & ->). destruct (Hpath p s Hs) as (s' & Hs' & Hsub).
  exists (locksAfter lockEffects (instrs p) s'). split.
  - econstructor; [exact Hs'|]. split; [by eapply reachable_lt|done].
  - trans (locksAfter lockEffects (instrs p) s); [|by apply locksAfter_mono].
    intros x Hx. eapply Hm; [exact Hx|left].
Qed.

Lemma visit_collector_ok st b :
  collector_ok st → b ∈ blocks →
  collector_ok (visit st b) ∧ notes_more (cs_orders st) (cs_orders (visit st b)) ∧
  ∀ n, newIn st b = Some n → block_noted (cs_orders (visit st b)) b n (instrs b).
Proof.
  intros Hok Hb. pose proof Hok as (Htr & Hos & Hpath).
  pose proof (visit_ok reachable lockEffects ∅ function entryLocks Hreach _ b Htr Hb) as Htr'.
  rewrite <- visit_tracker in Htr'. destruct (newIn st b) as [n|] eqn:Hn.
  2:{ assert (visit st b = st) as ->.
      { unfold orderBlock. unfold newInOf in Hn. cbn [tracker_of ts_out ts_in] in Hn. by rewrite Hn. }
      split_and!; [done|by unfold notes_more|done]. }
  destruct (newIn_some_path st b n Hok Hb Hn) as (s & Hs & Hsub).
  destruct (steps_ok b s n (cs_orders st) (instrs b) Hs Hsub Hos) as (H1 & H2 & H3); [done|].
  assert (cs_orders (visit st b) = (foldl step (n, cs_orders st) (instrs b)).2) as Eo.
  { unfold orderBlock. unfold newInOf in Hn. cbn [tracker_of ts_out ts_in] in Hn. rewrite Hn.
    by destruct (foldl step _ _). }
  rewrite Eo. split_and!; [split_and!; [done|by rewrite Eo|]|done|by intros ? [= <-]].
  intros c t Hc.
  destruct (visit_maps reachable lockEffects ∅ function _ b n Hn) as (Hin & _).
  rewrite <- visit_tracker in Hin. cbn [tracker_of ts_in] in Hin. rewrite Hin in Hc.
  destruct (decide (b = c)) as [<-|Hne].
  - rewrite lookup_insert_eq in Hc. injection Hc as <-. by exists s.
  - rewrite lookup_insert_ne in Hc by done. by apply Hpath.
Qed.

(** ** The rounds *)

Lemma visits_tracker l st :
  tracker_of (foldl visit st l) = foldl (visitBlock reachable lockEffects ∅ function) (tracker_of st) l.
Proof. revert st. induction l as [|b l IH]; intros st; [done|]. cbn [foldl]. by rewrite IH, visit_tracker. Qed.

Lemma visits_collector_ok l st :
  collector_ok st → (∀ b, b ∈ l → b ∈ blocks) →
  collector_ok (foldl visit st l) ∧ notes_more (cs_orders st) (cs_orders (foldl visit st l)) ∧
  (cs_changed (foldl visit st l) = false → ∀ b n, b ∈ l → newIn st b = Some n →
     block_noted (cs_orders (foldl visit st l)) b n (instrs b)).
Proof.
  intros Hok. induction l as [|b l IH] using rev_ind; intros Hl.
  { split_and!; [done|by unfold notes_more|]. by intros _ ? ? ?%elem_of_nil. }
  destruct IH as (H1 & H2 & H3); [set_solver|]. rewrite foldl_snoc.
  destruct (visit_collector_ok (foldl visit st l) b H1) as (H4 & H5 & H6); [set_solver|].
  split_and!; [done|by etrans|]. intros Hch c n Hc Hn.
  assert (ts_changed (tracker_of (visit (foldl visit st l) b)) = false) as Hch' by done.
  rewrite visit_tracker in Hch'. apply visit_unchanged in Hch' as (Hch' & _ & _ & _).
  apply elem_of_app in Hc as [Hc| ->%list_elem_of_singleton].
  - intros k i a h Hi Ha Hh. eapply noted_more; [exact H5|]. by eapply H3.
  - apply H6. rewrite visits_tracker in Hch' |- *.
    apply visits_unchanged in Hch' as (_ & Hin & Hout & _). by rewrite (newInOf_ext _ _ (tracker_of st)).
Qed.

Abbreviation round :=
  (orderBlocks functionId reachable lockEffects function sharedObject userLocation liveEntries startedEntries).
Abbreviation loop :=
  (collectLoop functionId reachable lockEffects function sharedObject userLocation liveEntries startedEntries).

Definition unchanged (st : CollectorState) : CollectorState :=
  MkCollector (cs_in st) (cs_out st) (cs_orders st) false.

Lemma unchanged_ok st : collector_ok st → collector_ok (unchanged st).
Proof. intros (Htr & Hos & Hp). split_and!; [|done|done]. destruct Htr; by split. Qed.

Lemma collectLoop_ends fuel st :
  collector_ok st → remaining reachable lockEffects function entryLocks (tracker_of st) < fuel →
  ∃ last, collector_ok last ∧ cs_changed (round last) = false ∧ loop fuel st = Some (cs_orders (round last)).
Proof.
  revert st. induction fuel as [|fuel IH]; intros st Hok Hlt; [lia|]. cbn [collectLoop].
  destruct (visits_collector_ok blocks (unchanged st) (unchanged_ok st Hok)) as (H1 & _ & _); [done|].
  change (foldl visit (unchanged st) blocks) with (round st) in H1. destruct (cs_changed (round st)) eqn:E; [|by exists st].
  apply IH; [done|].
  destruct (visits_ok reachable lockEffects ∅ function entryLocks Hreach blocks (tracker_of (unchanged st)))
    as (_ & _ & H3); [apply (unchanged_ok st Hok)|done|].
  rewrite <- visits_tracker in H3. change (foldl visit (unchanged st) blocks) with (round st) in H3. destruct (H3 E) as [?|H]; [done|].
  change (remaining _ _ _ _ (tracker_of (unchanged st))) with (remaining reachable lockEffects function entryLocks (tracker_of st)) in H.
  lia.
Qed.

Lemma start_collector_ok : collector_ok (MkCollector {[0 := entryLocks]} ∅ no_orders true).
Proof.
  split_and!.
  - by apply start_ok.
  - split; cbn; [by intros ? ?%elem_of_nil|done|apply indexed_nil].
  - cbn [cs_in]. intros b s [<- <-]%lookup_singleton_Some. exists entryLocks. split; [constructor|done].
Qed.

Context (Hentry : entryLocks = ∅ ∨ predecessorsOfBlock function 0 = []).

Lemma collectLoop_spec :
  ∃ orders, loop (collectBound lockEffects function entryLocks)
      (MkCollector {[0 := entryLocks]} ∅ no_orders true) = Some orders ∧
    orders_ok orders ∧
    ∀ b k i a h, reachable b = true → instrs b !! k = Some i → a ∈ lsc_orderedAcquired (change_at i) →
      (∀ s, entering b s → h ∈ releaseLocks (change_at i) (locksAfter lockEffects (take k (instrs b)) s)) →
      noted orders h a (userLocation (ins_id i)).
Proof.
  destruct (collectLoop_ends (collectBound lockEffects function entryLocks) _ start_collector_ok)
    as (last & Hok & Hch & E).
  { by apply start_remaining. }
  eexists. split; [exact E|]. pose proof (unchanged_ok last Hok) as Hok'.
  destruct (visits_collector_ok blocks (unchanged last) Hok') as (H1 & _ & H3); [done|].
  change (foldl visit (unchanged last) blocks) with (round last) in H1, H3. split; [apply H1|]. intros b k i a h Hr Hi Ha Hh.
  assert (b ∈ blocks) as Hb.
  { apply elem_of_blocks. split; [|done]. unfold instructionsOf in Hi.
    destruct (function !! b) eqn:Eb; [by eapply lookup_lt_Some|done]. }
  assert (ts_changed (tracker_of (round last)) = false) as Hch' by done.
  unfold orderBlocks in Hch'. rewrite visits_tracker in Hch'. apply visits_unchanged in Hch' as (_ & _ & _ & Hset).
  destruct (final_state reachable lockEffects function entryLocks Hreach (tracker_of (unchanged last)) b)
    as [n Hn]; [apply Hok'|done|done|].
  apply (H3 Hch b n Hb Hn k i a h Hi Ha). apply releaseLocks_elem.
  assert (∀ s, entering b s → h ∈ locksAfter lockEffects (take k (instrs b)) s ∧
    h ∉ lsc_released (change_at i)) as Hall by (intros s Hs; by apply releaseLocks_elem, Hh).
  pose proof Hr as [s0 Hs0]%Hreach%(enters_path lockEffects function entryLocks).
  split; [|by apply (Hall s0)].
  destruct (locksAfter_cases lockEffects (take k (instrs b)) h) as [H|[H|H]]; [done| |].
  - by destruct (Hall s0 Hs0) as [?%H _].
  - apply H. eapply (newIn_all reachable lockEffects function entryLocks Hreach); [apply Hok'|done|exact Hn|].
    intros s Hs. by apply H, Hall.
Qed.
End collector.

(** ** Marking *)

Definition same_order (fact fact' : LockOrderFact) : Prop :=
  fact' = fact ∨ fact' = set_lowerAddressFirst fact.

Lemma same_order_set fact fact' : same_order fact fact' → same_order fact (set_lowerAddressFirst fact').
Proof. intros [->| ->]; by right. Qed.

Lemma markLowerAddressFirst_same lockedObject branches edgeDominates orders :
  Forall2 same_order (od_facts orders) (markLowerAddressFirst lockedObject branches edgeDominates orders).
Proof.
  unfold markLowerAddressFirst. apply (foldl_inv (Forall2 same_order (od_facts orders))).
  { apply Forall_Forall2_diag, Forall_true. by left. }
  intros facts pair _ Hf. unfold markPair.
  assert (∀ n facts, Forall2 same_order (od_facts orders) facts →
    Forall2 same_order (od_facts orders) (alter set_lowerAddressFirst n facts)) as Halter.
  { clear. intros n facts Hf. apply Forall2_same_length_lookup. split.
    - rewrite length_alter. by eapply Forall2_length.
    - intros m x y Hx Hy. destruct (decide (n = m)) as [->|Hne].
      + rewrite list_lookup_alter_eq in Hy. apply fmap_Some in Hy as (z & Hz & ->).
        apply same_order_set. by eapply Forall2_lookup_lr.
      + rewrite list_lookup_alter_ne in Hy by done. by eapply Forall2_lookup_lr. }
  do 4 (case_match; [|done]). case_match; [|done]. auto.
Qed.


(** ** A gate that is let go *)

(** The entry locks [g]; a loop takes [a] and then [b] and drops both; on its way
    round it may drop [g]. *)
Definition gated_resolve (id : nat) : list LockEffect :=
  let effect kind lock := [MkLockEffect kind [lock] "" false false] in
  match id with
  | 0 => effect LockEffectKind_Acquire "g"
  | 1 => effect LockEffectKind_Acquire "a"
  | 2 => effect LockEffectKind_Acquire "b"
  | 3 => effect LockEffectKind_Release "b"
  | 4 => effect LockEffectKind_Release "a"
  | 5 => effect LockEffectKind_Release "g"
  | _ => []
  end.

Definition calls (ids : list nat) : list Instruction := (λ id, MkInstruction id true) <$> ids.

Definition gated_loop : list BasicBlock :=
  [MkBasicBlock (calls [0]) []; MkBasicBlock (calls [1; 2; 3; 4]) [0; 1; 2]; MkBasicBlock (calls [5]) [1]].

Definition gated_effects : FunctionLockEffects := collectFunctionLockEffects gated_resolve gated_loop.

Definition line_of (id : nat) : SourceLocation :=
  MkSourceLocation "a.c" (N.of_nat id) 1 (N.of_nat id) 1 "f".

Definition collect_in (name : string) (effects : FunctionLockEffects) (function : list BasicBlock)
  : list LockOrderFact :=
  default [] (LockOrderCollector_collect name (λ b, b <? length function) effects function None line_of
    ∅ ∅ (λ _ _, None) [] (λ _ _ _, false) ∅).

(** The order from [a] to [b] keeps [g] as its gate, though a way round the loop
    takes it without [g]. *)
Lemma gate_of_an_earlier_round :
  (∃ fact, fact ∈ collect_in "f" gated_effects gated_loop ∧
     lo_firstLockId fact = "a" ∧ lo_secondLockId fact = "b" ∧ "g" ∈ lo_heldLocks fact) ∧
  ∃ s, entersFrom gated_effects gated_loop {[kLocksHeldByCaller]} 1 s ∧
    "g" ∉ locksAfter gated_effects (take 1 (instructionsOf gated_loop 1)) s.
Proof.
  split.
  - apply (Exists_exists (λ fact, lo_firstLockId fact = "a" ∧ lo_secondLockId fact = "b" ∧ "g" ∈ lo_heldLocks fact)).
    apply (bool_decide_eq_true _). vm_compute. reflexivity.
  - eexists. split.
    + eapply (enters_edge _ _ _ 2); [eapply (enters_edge _ _ _ 1); [eapply (enters_edge _ _ _ 0); [constructor|]|]|];
        (split; [cbn; lia|]); apply (bool_decide_eq_true _); vm_compute; reflexivity.
    + apply (bool_decide_eq_true _). vm_compute. reflexivity.
Qed.

Lemma gated_reachable b : (b <? 3) = true ↔ rtc (edge gated_loop) 0 b.
Proof.
  assert (edge gated_loop 0 1) as H1 by (split; [cbn; lia|by left]).
  assert (edge gated_loop 1 2) as H2 by (split; [cbn; lia|by left]).
  split.
  - intros Hb%Nat.ltb_lt. destruct b as [|[|[|b]]]; [done|by apply rtc_once| |lia].
    eapply rtc_l; [exact H1|by apply rtc_once].
  - revert b. apply (rtc_ind_r (λ b, (b <? 3) = true) 0); [done|].
    intros p b _ [_ Hp] _. destruct b as [|[|[|b]]]; [done..|].
    change (p ∈ @nil nat) in Hp. by apply elem_of_nil in Hp.
Qed.

