(* ===== verification/LockWrappers.v ===== *)
(** What each function leaves done to the locks its callers pass it
    (src/internal/analysis/lock_wrapper_summaries.cpp).

    The resolver of effects is a parameter, a function of the summaries known so
    far, as are the returns of a function and the dominance of an instruction over
    the end of a block.  The map of effects is visited in an order the standard
    leaves open. *)

From S2P Require Import Prelude Text Diagnostics Facts LockEffects LockScope LockScopeProps SyncEffects.

(** Iterating an [unordered_map] keyed by addresses. *)
Class AddressOrder := {
  address_items : ∀ {A : Type}, gmap nat A → list (nat * A);
  address_items_perm : ∀ {A} (m : gmap nat A), address_items m ≡ₚ map_to_list m;
}.

Definition kMaxRounds : nat := 4.

Definition parameterPlaceholder (argumentIndex : nat) : string := "%arg" +:+ pretty argumentIndex.

Record WrapperFunction := MkWrapperFunction {
  wf_id : string;
  wf_isDeclaration : bool;
  wf_pointerArgs : list bool;
  wf_blocks : list BasicBlock;
  wf_isReturn : nat → bool;
  wf_dominates : nat → nat → bool;
}.

Record EffectTally := MkTally {
  tl_acquisition : option nat;
  tl_release : option nat;
  tl_recursiveLock : bool;
  tl_acquisitionCount : nat;
  tl_releaseCount : nat;
}.

Definition no_effects : EffectTally := MkTally None None false 0 0.

(** One effect of the two nested loops. *)
Definition tallyEffect (placeholder : string) (instruction : nat) (tally : EffectTally)
    (effect : LockEffect) : EffectTally :=
  let 'MkTally acquisition release recursiveLock acquisitionCount releaseCount := tally in
  if negb (bool_decide (placeholder ∈ le_lockIds effect)) then tally
  else match le_kind effect with
       | LockEffectKind_Acquire | LockEffectKind_TryAcquire | LockEffectKind_GuardAcquire =>
           MkTally (Some instruction) release (recursiveLock || le_recursiveLock effect)
             (S acquisitionCount) releaseCount
       | LockEffectKind_Release | LockEffectKind_GuardRelease =>
           MkTally acquisition (Some instruction) recursiveLock acquisitionCount (S releaseCount)
       end.

Section summaries.
Context `{!AddressOrder}.

Definition tallyEffects (placeholder : string) (effects : FunctionLockEffects) : EffectTally :=
  foldl (λ tally item, foldl (tallyEffect placeholder item.1) tally item.2) no_effects
    (address_items (fle_effectsByInstruction effects)).

Definition dominatesReturns (function : WrapperFunction) (effectSite : nat) : bool :=
  forallb (λ block, negb (wf_isReturn function block) || wf_dominates function effectSite block)
    (seq 0 (length (wf_blocks function))).

Definition netEffectOnParameter (function : WrapperFunction) (argumentIndex : nat)
    (effects : FunctionLockEffects) : option ParameterLockEffect :=
  let tally := tallyEffects (parameterPlaceholder argumentIndex) effects in
  if bool_decide (tl_acquisitionCount tally + tl_releaseCount tally ≠ 1) then None
  else
    effectSite ← match tl_acquisition tally with Some site => Some site | None => tl_release tally end;
    if dominatesReturns function effectSite
    then Some (MkParameterLockEffect (N.of_nat argumentIndex)
                 (bool_decide (is_Some (tl_acquisition tally))) (tl_recursiveLock tally))
    else None.

Context (resolver : LockWrapperSummaries → nat → list LockEffect).

(** The parameters of one function, in order. *)
Definition parameterEffects (function : WrapperFunction) (effects : FunctionLockEffects)
  : list ParameterLockEffect :=
  omap (λ argument, if argument.2 : bool then netEffectOnParameter function argument.1 effects else None)
    (imap pair (wf_pointerArgs function)).

Definition discover (summaries : LockWrapperSummaries) (discovered : LockWrapperSummaries)
    (function : WrapperFunction) : LockWrapperSummaries :=
  if wf_isDeclaration function || bool_decide (wf_pointerArgs function = []) then discovered
  else
    let effects := collectFunctionLockEffects (resolver summaries) (wf_blocks function) in
    if bool_decide (fle_effectsByInstruction effects = ∅) then discovered
    else match parameterEffects function effects with
         | [] => discovered
         | found =>
             match discovered !! wf_id function with
             | Some _ => discovered
             | None => <[wf_id function := found]> discovered
             end
         end.

(** One round. *)
Definition discoverAll (module : list WrapperFunction) (summaries : LockWrapperSummaries)
  : LockWrapperSummaries := foldl (discover summaries) ∅ module.

Fixpoint wrapperRounds (rounds : nat) (module : list WrapperFunction) (summaries : LockWrapperSummaries)
  : LockWrapperSummaries :=
  match rounds with
  | O => summaries
  | S rounds =>
      let discovered := discoverAll module summaries in
      if bool_decide (discovered = summaries) then summaries
      else wrapperRounds rounds module discovered
  end.

Definition collectLockWrapperSummaries (module : list WrapperFunction) : LockWrapperSummaries :=
  wrapperRounds kMaxRounds module ∅.
End summaries.
