(* ===== verification/LockWrappersProps.v ===== *)
(** A summary says of a parameter only what every way through the function does to
    it, and does not depend on the order the effects are visited in. *)

From S2P Require Import Prelude Text Diagnostics Facts LockEffects LockScope LockScopeProps SyncEffects LockWrappers.

(** ** The tally *)

(** The effects of a function one by one, and those that name a lock. *)
Definition occurrences (items : list (nat * list LockEffect)) : list (nat * LockEffect) :=
  items ≫= λ item, pair item.1 <$> item.2.
Abbreviation naming lock := (λ o : nat * LockEffect, lock ∈ le_lockIds o.2).

Definition isAcquisition (kind : LockEffectKind) : bool :=
  match kind with
  | LockEffectKind_Acquire | LockEffectKind_TryAcquire | LockEffectKind_GuardAcquire => true
  | LockEffectKind_Release | LockEffectKind_GuardRelease => false
  end.

Lemma tally_occurrences p items tally :
  foldl (λ tally item, foldl (tallyEffect p item.1) tally item.2) tally items =
  foldl (λ tally o, tallyEffect p o.1 tally o.2) tally (filter (naming p) (occurrences items)).
Proof.
  revert tally. induction items as [|[i effects] items IH]; intros tally; [done|].
  unfold occurrences. rewrite bind_cons, filter_app, foldl_app. cbn [foldl fst snd].
  rewrite IH. f_equal. clear IH. revert tally.
  induction effects as [|e effects IHe]; intros tally; [done|]. rewrite fmap_cons, filter_cons. cbn [foldl].
  rewrite IHe. unfold tallyEffect at 2. destruct tally. case_decide as Hd; cbn in Hd.
  - cbn [foldl]. unfold tallyEffect at 3. cbn [fst snd]. by rewrite bool_decide_eq_true_2.
  - by rewrite bool_decide_eq_false_2.
Qed.

Lemma tally_count p l tally :
  Forall (naming p) l →
  let t := foldl (λ tally o, tallyEffect p o.1 tally o.2) tally l in
  tl_acquisitionCount t + tl_releaseCount t =
  tl_acquisitionCount tally + tl_releaseCount tally + length l.
Proof.
  revert tally. induction l as [|[i e] l IH]; intros tally Hl; cbn; [lia|].
  apply Forall_cons in Hl as [Hp Hl]. cbn in IH. rewrite (IH _ Hl). unfold tallyEffect.
  destruct tally. cbn in Hp. rewrite bool_decide_eq_true_2 by done. cbn [negb].
  destruct (le_kind e); cbn; lia.
Qed.

Lemma elem_of_occurrences (m : gmap nat (list LockEffect)) items i e :
  items ≡ₚ map_to_list m →
  (i, e) ∈ occurrences items ↔ ∃ effects, m !! i = Some effects ∧ e ∈ effects.
Proof.
  intros Hperm. unfold occurrences. rewrite list_elem_of_bind. split.
  - intros ([j effects] & Ho & Hi). apply list_elem_of_fmap in Ho as (e' & [= <- <-] & He).
    rewrite Hperm, elem_of_map_to_list in Hi. eauto.
  - intros (effects & Hm & He). exists (i, effects). split.
    + apply list_elem_of_fmap. eauto.
    + by rewrite Hperm, elem_of_map_to_list.
Qed.

Lemma tally_single p i e :
  p ∈ le_lockIds e →
  tallyEffect p i no_effects e =
  if isAcquisition (le_kind e) then MkTally (Some i) None (le_recursiveLock e) 1 0
  else MkTally None (Some i) false 0 1.
Proof.
  intros Hp. unfold tallyEffect, no_effects. rewrite bool_decide_eq_true_2 by done.
  by destruct (le_kind e).
Qed.

(** A net effect stands for the only effect naming the parameter. *)
Lemma netEffect_spec `{!AddressOrder} function index effects net :
  netEffectOnParameter function index effects = Some net ↔
  ∃ site e, filter (naming (parameterPlaceholder index))
      (occurrences (address_items (fle_effectsByInstruction effects))) = [(site, e)] ∧
    dominatesReturns function site = true ∧
    net = MkParameterLockEffect (N.of_nat index) (isAcquisition (le_kind e))
      (isAcquisition (le_kind e) && le_recursiveLock e).
Proof.
  unfold netEffectOnParameter, tallyEffects. rewrite tally_occurrences.
  set (l := filter _ _). pose proof (tally_count (parameterPlaceholder index) l no_effects) as Hcount.
  assert (Forall (naming (parameterPlaceholder index)) l) as Hl.
  { apply Forall_forall. intros o Ho. by apply list_elem_of_filter in Ho as [? _]. }
  specialize (Hcount Hl). cbn in Hcount. rewrite Hcount. case_bool_decide as Hlen.
  { split; [done|]. intros (site & e & E & _). by rewrite E in Hlen. }
  destruct l as [|[site e] [|o l]]; [done| |done]. cbn [foldl fst snd].
  apply Forall_cons in Hl as [He _]. cbn in He. rewrite tally_single by done.
  destruct (isAcquisition (le_kind e)) eqn:Ek; cbn; split.
  - case_match eqn:Ed; [|done]. intros [= <-]. exists site, e. by rewrite Ek.
  - intros (site' & e' & [= <- <-] & -> & ->). by rewrite Ek.
  - case_match eqn:Ed; [|done]. intros [= <-]. exists site, e. by rewrite Ek.
  - intros (site' & e' & [= <- <-] & -> & ->). by rewrite Ek.
Qed.

(** ** The order of the effects *)

Lemma netEffect_order (O1 O2 : AddressOrder) function index effects :
  @netEffectOnParameter O1 function index effects = @netEffectOnParameter O2 function index effects.
Proof.
  assert (∀ O1 O2 : AddressOrder, ∀ net, @netEffectOnParameter O1 function index effects = Some net →
    @netEffectOnParameter O2 function index effects = Some net) as Hle.
  { clear O1 O2. intros O1 O2 net (site & e & E & Hd & ->)%netEffect_spec. apply netEffect_spec.
    exists site, e. split; [|done]. apply Permutation_singleton_r. rewrite <- E.
    apply filter_Permutation, bind_Permutation. by rewrite !address_items_perm. }
  destruct (@netEffectOnParameter O1 function index effects) as [net|] eqn:E1.
  - by rewrite (Hle O1 O2 net E1).
  - destruct (@netEffectOnParameter O2 function index effects) as [net|] eqn:E2; [|done].
    by rewrite (Hle O2 O1 net E2) in E1.
Qed.

Lemma parameterEffects_order (O1 O2 : AddressOrder) function effects :
  @parameterEffects O1 function effects = @parameterEffects O2 function effects.
Proof.
  unfold parameterEffects. induction (imap pair (wf_pointerArgs function)) as [|[i pointer] l IH]; [done|].
  cbn. rewrite IH. destruct pointer; [|done]. by rewrite (netEffect_order O1 O2).
Qed.

Lemma discoverAll_order (O1 O2 : AddressOrder) resolver module summaries :
  @discoverAll O1 resolver module summaries = @discoverAll O2 resolver module summaries.
Proof.
  unfold discoverAll. generalize (∅ : LockWrapperSummaries) as discovered.
  induction module as [|function module IH]; intros discovered; [done|]. cbn [foldl].
  rewrite IH. f_equal. unfold discover. by rewrite (parameterEffects_order O1 O2).
Qed.

(** The summaries of lock wrappers do not depend on the order in which the
    hash tables of effects, keyed by addresses, are visited. *)
Theorem wrapper_summaries_order_independent (O1 O2 : AddressOrder)
    (resolver : LockWrapperSummaries → nat → list LockEffect) (module : list WrapperFunction) :
  @collectLockWrapperSummaries O1 resolver module = @collectLockWrapperSummaries O2 resolver module.
Proof.
  unfold collectLockWrapperSummaries. generalize (∅ : LockWrapperSummaries) as summaries.
  induction kMaxRounds as [|rounds IH]; intros summaries; [done|]. cbn [wrapperRounds].
  rewrite (discoverAll_order O1 O2). case_bool_decide; [done|]. apply IH.
Qed.

(** ** What an instruction does to a lock *)

(** The locks an effect drops: those it names, or those of its guard. *)
Definition drops (effects : FunctionLockEffects) (e : LockEffect) (x : string) : Prop :=
  match le_kind e with
  | LockEffectKind_Release => x ∈ le_lockIds e
  | LockEffectKind_GuardRelease =>
      ∃ bound, fle_guardBindings effects !! le_guardId e = Some bound ∧ x ∈ bound
  | _ => False
  end.

Lemma applyEffect_acquired effects change e x :
  x ∈ lsc_acquired (applyEffect effects change e) ↔
  x ∈ lsc_acquired change ∨ (isAcquisition (le_kind e) = true ∧ x ∈ le_lockIds e).
Proof. destruct change. unfold applyEffect. destruct (le_kind e); cbn; rewrite ?elem_of_app; naive_solver. Qed.

Lemma applyEffect_released effects change e x :
  x ∈ lsc_released (applyEffect effects change e) ↔ x ∈ lsc_released change ∨ drops effects e x.
Proof.
  destruct change. unfold applyEffect, drops. destruct (le_kind e); cbn; rewrite ?elem_of_app; try naive_solver.
  destruct (fle_guardBindings effects !! le_guardId e); rewrite ?elem_of_app; naive_solver.
Qed.

Lemma fold_effects (P : LockStateChange → Prop) (Q : LockEffect → Prop) effects l change :
  (∀ change e, P (applyEffect effects change e) ↔ P change ∨ Q e) →
  P (foldl (applyEffect effects) change l) ↔ P change ∨ ∃ e, e ∈ l ∧ Q e.
Proof.
  intros Hstep. induction l as [|e l IH] using rev_ind; [set_solver|].
  rewrite foldl_snoc, Hstep, IH. setoid_rewrite elem_of_app. setoid_rewrite list_elem_of_singleton.
  naive_solver.
Qed.

Section instruction.
Context (effects : FunctionLockEffects).
Abbreviation byInstruction := (fle_effectsByInstruction effects).

Lemma change_acquired id x :
  x ∈ lsc_acquired (lockStateChangeFor id effects) ↔
  ∃ l e, byInstruction !! id = Some l ∧ e ∈ l ∧ isAcquisition (le_kind e) = true ∧ x ∈ le_lockIds e.
Proof.
  unfold lockStateChangeFor. destruct (byInstruction !! id) as [l|]; [|set_solver].
  rewrite (fold_effects (λ c, x ∈ lsc_acquired c)
    (λ e, isAcquisition (le_kind e) = true ∧ x ∈ le_lockIds e)) by (intros; apply applyEffect_acquired).
  cbn. set_solver.
Qed.

Lemma change_released id x :
  x ∈ lsc_released (lockStateChangeFor id effects) ↔
  ∃ l e, byInstruction !! id = Some l ∧ e ∈ l ∧ drops effects e x.
Proof.
  unfold lockStateChangeFor. destruct (byInstruction !! id) as [l|]; [|set_solver].
  rewrite (fold_effects (λ c, x ∈ lsc_released c) (λ e, drops effects e x))
    by (intros; apply applyEffect_released).
  cbn. set_solver.
Qed.

(** One instruction alone has an effect on a lock: after it, the lock is as that
    effect leaves it. *)
Lemma locksAfter_single x site l e code s :
  byInstruction !! site = Some l → e ∈ l → x ∈ le_lockIds e → wf_effect e →
  (∀ id l' e', byInstruction !! id = Some l' → e' ∈ l' → x ∈ le_lockIds e' → id = site ∧ e' = e) →
  (∀ guard bound, fle_guardBindings effects !! guard = Some bound → x ∉ bound) →
  site ∈ ins_id <$> code →
  x ∈ locksAfter effects code s ↔ isAcquisition (le_kind e) = true.
Proof.
  intros Hl He Hx Hwf Honly Hguards. induction code as [|i code IH] using rev_ind; [set_solver|].
  rewrite fmap_app, elem_of_app, list_fmap_singleton, list_elem_of_singleton, locksAfter_snoc, applyChange_elem. intros Hsite.
  rewrite change_acquired, change_released.
  assert ((∃ l' e', byInstruction !! ins_id i = Some l' ∧ e' ∈ l' ∧ drops effects e' x) ↔
    ins_id i = site ∧ isAcquisition (le_kind e) = false) as ->.
  { split.
    - intros (l' & e' & Hl' & He' & Hd). unfold drops in Hd. destruct (le_kind e') eqn:Ek; try done.
      + destruct (Honly _ _ _ Hl' He' Hd) as [-> ->]. by rewrite Ek.
      + destruct Hd as (bound & Hb & Hxb). by apply Hguards in Hb.
    - intros [-> Hk]. exists l, e. split_and!; [done|done|]. unfold drops, wf_effect in *.
      destruct (le_kind e); try done. rewrite Hwf in Hx. by apply elem_of_nil in Hx. }
  assert ((∃ l' e', byInstruction !! ins_id i = Some l' ∧ e' ∈ l' ∧
      isAcquisition (le_kind e') = true ∧ x ∈ le_lockIds e') ↔
    ins_id i = site ∧ isAcquisition (le_kind e) = true) as ->.
  { split; [|intros [-> ?]; by exists l, e].
    intros (l' & e' & Hl' & He' & Hk & Hx'). destruct (Honly _ _ _ Hl' He' Hx') as [-> ->]. done. }
  destruct (decide (ins_id i = site)) as [E|Hne].
  - destruct (isAcquisition (le_kind e)); naive_solver.
  - destruct Hsite as [Hsite|Hsite]; [|by destruct Hne]. rewrite (IH Hsite). tauto.
Qed.
End instruction.

(** The effects collected for an instruction are those it resolves to. *)
Lemma collected_effects_resolved resolve blocks id l :
  fle_effectsByInstruction (collectFunctionLockEffects resolve blocks) !! id = Some l → l = resolve id.
Proof.
  unfold collectFunctionLockEffects. induction (blocks ≫= bb_instructions) as [|i code IH] using rev_ind.
  { cbn. by rewrite lookup_empty. }
  rewrite foldl_snoc. unfold collectInstruction at 1. set (effects := foldl _ _ code) in *.
  destruct (ins_isCall i); [|done]. cbn [negb]. destruct (resolve (ins_id i)) as [|e es] eqn:Er; [done|].
  cbn [fle_effectsByInstruction]. destruct (fle_effectsByInstruction effects !! ins_id i) eqn:E; [done|].
  destruct (decide (id = ins_id i)) as [->|Hne].
  - rewrite lookup_insert_eq. by intros [= <-].
  - by rewrite lookup_insert_ne.
Qed.

(** ** The ways through a function *)

(** The instructions run from the entry to a block along its predecessors. *)
Inductive path (function : list BasicBlock) : nat → list Instruction → Prop :=
  | path_entry : path function 0 []
  | path_edge p b code :
      path function p code → p ∈ predecessorsOfBlock function b →
      path function b (code ++ instructionsOf function p).

(** Dominance as LLVM documents it: every way to the end of the block runs the
    instruction. *)
Definition dominance_ok (function : WrapperFunction) : Prop :=
  ∀ site block code, wf_dominates function site block = true → path (wf_blocks function) block code →
    site ∈ ins_id <$> (code ++ instructionsOf (wf_blocks function) block).

Section soundness.
Context `{!AddressOrder} (resolver : LockWrapperSummaries → nat → list LockEffect).
Hypothesis Hresolver : ∀ summaries id, Forall wf_effect (resolver summaries id).

Lemma discoverAll_lookup module summaries id found :
  discoverAll resolver module summaries !! id = Some found →
  ∃ function, function ∈ module ∧ wf_id function = id ∧ found = parameterEffects function
    (collectFunctionLockEffects (resolver summaries) (wf_blocks function)).
Proof.
  unfold discoverAll. induction module as [|function module IH] using rev_ind; [cbn; by rewrite lookup_empty|].
  rewrite foldl_snoc. set (discovered := foldl _ _ _) in *.
  intros Hfound. unfold discover in Hfound.
  assert (discovered !! id = Some found → ∃ f, f ∈ module ++ [function] ∧ wf_id f = id ∧
    found = parameterEffects f (collectFunctionLockEffects (resolver summaries) (wf_blocks f))) as Hold.
  { intros (f & Hf & ? & ?)%IH. exists f. set_solver. }
  case_match; [auto|]. case_match; [auto|].
  destruct (parameterEffects function _) as [|e es] eqn:E; [auto|].
  destruct (discovered !! wf_id function) eqn:Ed; [auto|].
  destruct (decide (id = wf_id function)) as [->|Hne].
  - rewrite lookup_insert_eq in Hfound. injection Hfound as <-. exists function. set_solver.
  - rewrite lookup_insert_ne in Hfound by done. auto.
Qed.

(** The rounds end with what one more round over the summaries of at most three
    rounds discovers. *)
Lemma wrapperRounds_spec n module summaries :
  ∃ k, k ≤ n ∧ wrapperRounds resolver (S n) module summaries =
    discoverAll resolver module (Nat.iter k (discoverAll resolver module) summaries).
Proof.
  revert summaries. induction n as [|n IH]; intros summaries; cbn [wrapperRounds].
  - exists 0. split; [lia|]. case_bool_decide as E; [by symmetry|done].
  - case_bool_decide as E; [exists 0; split; [lia|by symmetry]|].
    destruct (IH (discoverAll resolver module summaries)) as (k & Hk & Hr).
    exists (S k). split; [lia|]. cbn [wrapperRounds] in Hr. rewrite Hr. f_equal.
    symmetry. apply Nat.iter_succ_r.
Qed.

Lemma parameterEffects_elem function effects net :
  net ∈ parameterEffects function effects →
  ∃ index, wf_pointerArgs function !! index = Some true ∧
    netEffectOnParameter function index effects = Some net.
Proof.
  unfold parameterEffects. rewrite list_elem_of_omap. intros ([index pointer] & Ha & Hnet).
  apply elem_of_lookup_imap in Ha as (i & p & [= -> ->] & Hi). cbn in Hnet.
  destruct p; [|done]. eauto.
Qed.

(** A net effect describes every way to every return. *)
Lemma netEffect_sound function index summaries net block code s :
  dominance_ok function →
  let effects := collectFunctionLockEffects (resolver summaries) (wf_blocks function) in
  netEffectOnParameter function index effects = Some net →
  (∀ guard bound, fle_guardBindings effects !! guard = Some bound → parameterPlaceholder index ∉ bound) →
  block < length (wf_blocks function) → wf_isReturn function block = true →
  path (wf_blocks function) block code →
  parameterPlaceholder index ∈
    locksAfter effects (code ++ instructionsOf (wf_blocks function) block) s ↔ ple_acquires net = true.
Proof.
  intros Hdom effects (site & e & Hocc & Hd & ->)%netEffect_spec Hguards Hblock Hreturn Hpath.
  set (x := parameterPlaceholder index) in *. cbn [ple_acquires].
  assert (∀ i e', (∃ l, fle_effectsByInstruction effects !! i = Some l ∧ e' ∈ l) ∧ x ∈ le_lockIds e' ↔
    i = site ∧ e' = e) as Honly.
  { intros i e'. rewrite <- (elem_of_occurrences _ _ i e' (address_items_perm _)).
    assert ((i, e') ∈ [(site, e)] ↔ i = site ∧ e' = e) as <-.
    { rewrite list_elem_of_singleton. split; [by intros [= -> ->]|by intros [-> ->]]. }
    rewrite <- Hocc, list_elem_of_filter. cbn. tauto. }
  destruct (proj2 (Honly site e)) as [(l & Hl & He) Hx]; [done|].
  apply (locksAfter_single effects x site l e); try done.
  - pose proof (Hresolver summaries site) as Hwf. rewrite Forall_forall in Hwf. apply Hwf.
    by rewrite <- (collected_effects_resolved _ _ _ _ Hl).
  - intros id l' e' Hl' He' Hx'. apply Honly. eauto.
  - apply Hdom; [|done]. unfold dominatesReturns in Hd. rewrite forallb_forall in Hd.
    specialize (Hd block). rewrite Hreturn in Hd. apply Hd. apply in_seq. lia.
Qed.

(** C8: A lock wrapper's summary is sound.  An effect summarised for a function is
    that of one of its pointer parameters, found with the summaries of at most
    three rounds; and on every way from the entry of the function to a return,
    whatever locks are held before, the caller's lock is held at the end exactly
    when the summary says that the function acquires it, provided no guard of
    the function owns it. *)
Theorem wrapper_summaries_sound (module : list WrapperFunction) (id : string)
    (found : list ParameterLockEffect) (net : ParameterLockEffect) :
  (∀ function, function ∈ module → dominance_ok function) →
  collectLockWrapperSummaries resolver module !! id = Some found → net ∈ found →
  ∃ function index k, function ∈ module ∧ wf_id function = id ∧ k < kMaxRounds ∧
    wf_pointerArgs function !! index = Some true ∧ ple_argumentIndex net = N.of_nat index ∧
    let effects := collectFunctionLockEffects
      (resolver (Nat.iter k (discoverAll resolver module) ∅)) (wf_blocks function) in
    (∀ guard bound, fle_guardBindings effects !! guard = Some bound → parameterPlaceholder index ∉ bound) →
    ∀ block code s, block < length (wf_blocks function) → wf_isReturn function block = true →
      path (wf_blocks function) block code →
      parameterPlaceholder index ∈
        locksAfter effects (code ++ instructionsOf (wf_blocks function) block) s ↔
      ple_acquires net = true.
Proof.
  intros Hdom Hfound Hnet. unfold collectLockWrapperSummaries, kMaxRounds in *.
  destruct (wrapperRounds_spec 3 module ∅) as (k & Hk & E). rewrite E in Hfound.
  apply discoverAll_lookup in Hfound as (function & Hf & Hid & ->).
  apply parameterEffects_elem in Hnet as (index & Hi & Hnet).
  exists function, index, k. split_and!; [done|done|lia|done| |].
  - apply netEffect_spec in Hnet as (site & e & _ & _ & ->). done.
  - intros Hguards block code s Hb Hr Hp.
    by apply (netEffect_sound function index _ net block code s (Hdom function Hf) Hnet).
Qed.
End soundness.

(** ** Witness, and a wrapper the summary misreads *)

#[global] Instance map_address_order : AddressOrder := {|
  address_items A m := map_to_list m;
  address_items_perm A m := reflexivity _;
|}.

(** [void take(pthread_mutex_t* m) { pthread_mutex_lock(m); }]: one block that
    locks and returns. *)
Definition one_block_wrapper (code : list Instruction) : WrapperFunction :=
  MkWrapperFunction "take" false [true] [MkBasicBlock code []] (λ _, true)
    (λ site _, bool_decide (site ∈ ins_id <$> code)).

Definition take_resolver (_ : LockWrapperSummaries) (id : nat) : list LockEffect :=
  if bool_decide (id = 1) then [MkLockEffect LockEffectKind_Acquire ["%arg0"] "" false false] else [].

Definition take_wrapper : WrapperFunction := one_block_wrapper [MkInstruction 1 true].

Lemma one_block_dominance code : dominance_ok (one_block_wrapper code).
Proof.
  intros site block code' Hd%bool_decide_eq_true Hp. cbn in Hp.
  assert (block = 0 ∧ code' = []) as [-> ->]; [|exact Hd].
  inversion Hp as [|p b c _ Hpred]; [done|]. exfalso.
  destruct block as [|block]; cbn in Hpred; by apply elem_of_nil in Hpred.
Qed.

Lemma wrapper_summaries_sound_witness :
  ∃ function index k, function ∈ [take_wrapper] ∧ wf_id function = "take" ∧ k < kMaxRounds ∧
    wf_pointerArgs function !! index = Some true ∧ 0%N = N.of_nat index ∧
    let effects := collectFunctionLockEffects
      (take_resolver (Nat.iter k (discoverAll take_resolver [take_wrapper]) ∅)) (wf_blocks function) in
    (∀ guard bound, fle_guardBindings effects !! guard = Some bound → parameterPlaceholder index ∉ bound) →
    ∀ block code s, block < length (wf_blocks function) → wf_isReturn function block = true →
      path (wf_blocks function) block code →
      parameterPlaceholder index ∈
        locksAfter effects (code ++ instructionsOf (wf_blocks function) block) s ↔ true = true.
Proof.
  apply (wrapper_summaries_sound take_resolver) with
    (found := [MkParameterLockEffect 0 true false]) (net := MkParameterLockEffect 0 true false).
  - intros summaries id. unfold take_resolver. case_bool_decide; repeat constructor; by eexists.
  - intros function ->%list_elem_of_singleton. apply one_block_dominance.
  - vm_compute. reflexivity.
  - left.
Defined.

(** [void with(std::mutex* m) { std::lock_guard g{*m}; ... }]: the guard drops the
    lock before the function returns, but its destruction names no lock, so the
    summary counts the construction alone and tells the caller it holds [m]. *)
Definition with_resolver (_ : LockWrapperSummaries) (id : nat) : list LockEffect :=
  match id with
  | 1 => [MkLockEffect LockEffectKind_GuardAcquire ["%arg0"] "g" false false]
  | 2 => [MkLockEffect LockEffectKind_GuardRelease [] "g" false false]
  | _ => []
  end.

Lemma guard_wrapper_misreported :
  let code := [MkInstruction 1 true; MkInstruction 2 true] in
  let function := one_block_wrapper code in
  collectLockWrapperSummaries with_resolver [function] !! "take" =
    Some [MkParameterLockEffect 0 true false] ∧
  locksAfter (collectFunctionLockEffects (with_resolver ∅) (wf_blocks function)) code ∅ = ∅.
Proof. split; vm_compute; reflexivity. Qed.
