(* ===== verification/LockPropagation.v ===== *)
(** The locks held on entry to each function
    (src/internal/analysis/lock_state_propagator.cpp): the locks every call of the
    function holds, propagated over the direct calls until nothing changes.

    A function is its blocks, the reachability its dominator tree gives them and
    the lock effects the resolver found in it; the function a call is in is the one
    whose instructions hold it. *)

From S2P Require Import Prelude Text Diagnostics Facts LockIds CallGraph LockEffects LockScope.

Record Function := MkFunction {
  fn_id : string;
  fn_isDeclaration : bool;
  fn_blocks : list BasicBlock;
  fn_reachable : nat → bool;
  fn_effects : FunctionLockEffects;
}.

Abbreviation HeldMap := (gmap string (gset string)).

Record LockPropagationResult := MkPropagation {
  entryLocksByFunction : HeldMap;
  effectiveHeldLocksByCall : gmap nat (gset string);
}.

(** [parameterLockPlace(lockId).has_value()], on ids the analyzer writes: their
    numbers fit, so [stoul] and [stoll] do not throw. *)
Definition isParameterLock (lockId : string) : bool :=
  if negb (starts_with lockId "%arg") then false
  else
    let '(index, rest) := span_digits (drop_prefix 4 lockId) in
    if bool_decide (index = "") then false
    else bool_decide (rest = "[*]") || starts_with rest "+" || bool_decide (rest = "").

Lemma isParameterLock_place lockId place :
  parameterLockPlace lockId = inl place → isParameterLock lockId = bool_decide (is_Some place).
Proof.
  unfold parameterLockPlace, isParameterLock, kParameterLockPrefix. cbn [String.length].
  destruct (starts_with lockId "%arg"); cbn [negb]; [|by intros [= <-]].
  destruct (span_digits _) as [index rest]. case_bool_decide; [by intros [= <-]|].
  destruct (stoul_digits index) as [argument|]; [|done]. cbn [bind_ok].
  case_bool_decide; [by intros [= <-]|]. destruct (starts_with rest "+"); [|case_bool_decide; by intros [= <-]].
  destruct (stoll _); [|done]. by intros [= <-].
Qed.

Definition mergeHeldLocks (lhs rhs : gset string) : gset string := lhs ∪ rhs.
Definition intersectHeldLocks (lhs rhs : gset string) : gset string := lhs ∩ rhs.
Definition locksForCallee (callerLocks : gset string) : gset string :=
  filter (λ lockId, isParameterLock lockId = false) callerLocks.

(** [call->getFunction()], as the position of the function in the module. *)
Definition getFunction (module : list Function) (call : nat) : option nat :=
  fst <$> list_find (λ function,
    call ∈ (ins_id <$> (fn_blocks function ≫= bb_instructions))) module.

(** The call of a site whose caller the module defines. *)
Definition siteCall (module : list Function) (site : DirectCallSite) : option (nat * nat) :=
  call ← dcs_call site;
  caller ← getFunction module call;
  function ← module !! caller;
  if fn_isDeclaration function then None else Some (caller, call).

Definition trackCall (module : list Function) (tracked : gmap nat (gset nat)) (site : DirectCallSite)
  : gmap nat (gset nat) :=
  match siteCall module site with
  | None => tracked
  | Some (caller, call) => <[caller := {[call]} ∪ default ∅ (tracked !! caller)]> tracked
  end.

Definition addIncoming (module : list Function) (incoming : gmap string (list DirectCallSite))
    (site : DirectCallSite) : gmap string (list DirectCallSite) :=
  match siteCall module site with
  | None => incoming
  | Some _ =>
      <[dcs_calleeFunctionId site := default [] (incoming !! dcs_calleeFunctionId site) ++ [site]]>
        incoming
  end.

(** The locks each tracked call holds inside its own function. *)
Definition localHeld (tracked : gmap nat (gset nat)) (acc : option (gmap nat (gset string)))
    (item : nat * Function) : option (gmap nat (gset string)) :=
  held ← acc;
  if fn_isDeclaration item.2 then Some held
  else match tracked !! item.1 with
       | None => Some held
       | Some calls =>
           if bool_decide (calls = ∅) then Some held
           else
             heldLocksByInstruction ←
               collectHeldLocks (fn_reachable item.2) (fn_effects item.2) calls (fn_blocks item.2);
             Some (held ∪ heldLocksByInstruction)
       end.

Section propagate.
Context (localHeldLocksByCall : gmap nat (gset string)).

Definition effectiveCallLocks (entryLocks : HeldMap) (site : DirectCallSite) : gset string :=
  let local := default ∅ (call ← dcs_call site; localHeldLocksByCall !! call) in
  match entryLocks !! dcs_callerFunctionId site with
  | Some callerEntryLocks => mergeHeldLocks local callerEntryLocks
  | None => local
  end.

(** The state of the loop over the calls of one callee. *)
Definition mergeCall (entryLocks : HeldMap) (merged : option (gset string)) (site : DirectCallSite)
  : option (gset string) :=
  let locks := locksForCallee (effectiveCallLocks entryLocks site) in
  Some (match merged with
        | None => locks
        | Some merged => intersectHeldLocks merged locks
        end).

Definition updateCallee (acc : HeldMap * bool) (item : string * list DirectCallSite) : HeldMap * bool :=
  let '(entryLocks, changed) := acc in
  match foldl (mergeCall entryLocks) None item.2 with
  | None => acc
  | Some mergedEntryLocks =>
      let current := default ∅ (entryLocks !! item.1) in
      if bool_decide (current ≠ mergedEntryLocks)
      then (<[item.1 := mergedEntryLocks]> entryLocks, true)
      else (<[item.1 := current]> entryLocks, changed)
  end.

Fixpoint propagateRounds (incoming : list (string * list DirectCallSite)) (fuel : nat)
    (entryLocks : HeldMap) : option HeldMap :=
  match fuel with
  | O => None
  | S fuel =>
      let '(entryLocks, changed) := foldl updateCallee (entryLocks, false) incoming in
      if changed then propagateRounds incoming fuel entryLocks else Some entryLocks
  end.

(** Every lock some call holds; the rounds the propagation can need. *)
Definition localLocks : gset string := ⋃ (map_to_list localHeldLocksByCall).*2.
Definition propagationBound (incoming : gmap string (list DirectCallSite)) : nat :=
  S (size incoming * size localLocks).
End propagate.

(** Every defined function starts with no locks. *)
Definition emplaceFunction (entryLocks : HeldMap) (function : Function) : HeldMap :=
  if fn_isDeclaration function then entryLocks
  else match entryLocks !! fn_id function with
       | Some _ => entryLocks
       | None => <[fn_id function := ∅]> entryLocks
       end.

Definition emplaceCall (local : gmap nat (gset string)) (entryLocks : HeldMap)
    (effective : gmap nat (gset string)) (site : DirectCallSite) : gmap nat (gset string) :=
  match dcs_call site with
  | None => effective
  | Some call =>
      match effective !! call with
      | Some _ => effective
      | None => <[call := effectiveCallLocks local entryLocks site]> effective
      end
  end.

Definition LockStatePropagator_collect `{!HashOrder} (module : list Function)
    (callSites : list DirectCallSite) : option LockPropagationResult :=
  let entryLocks := foldl emplaceFunction ∅ module in
  let tracked := foldl (trackCall module) ∅ callSites in
  let incoming := foldl (addIncoming module) ∅ callSites in
  local ← foldl (localHeld tracked) (Some ∅) (imap pair module);
  entryLocks ← propagateRounds local (hash_items incoming) (propagationBound local incoming) entryLocks;
  Some (MkPropagation entryLocks (foldl (emplaceCall local entryLocks) ∅ callSites)).
