(* ===== verification/LockPropagationProps.v ===== *)
(** Theorems on the propagation of LockPropagation.v: it ends, whatever order the
    callees are visited in, with exactly the locks every call of a function
    holds, where a lock counts for a call when its own function holds it there or
    every call of that function does, and so on in finitely many steps. *)

From S2P Require Import Prelude Diagnostics CallGraph LockEffects LockScope LockScopeProps.
From S2P Require Import LockPropagation.

Section fixpoint.
Context (local : gmap nat (gset string)) (incoming : gmap string (list DirectCallSite)).

Definition localOf (site : DirectCallSite) : gset string :=
  default ∅ (call ← dcs_call site; local !! call).

Definition entryOf (E : HeldMap) (f : string) : gset string := default ∅ (E !! f).

(** Every call of [f], and there is one, holds [x]: its own function does at the
    call, or every call of that function holds it. *)
Inductive everyCallHolds (x : string) : string → Prop :=
  | every_call_holds f sites :
      incoming !! f = Some sites → sites ≠ [] → isParameterLock x = false →
      (∀ site, site ∈ sites → x ∉ localOf site → everyCallHolds x (dcs_callerFunctionId site)) →
      everyCallHolds x f.

Lemma elem_of_callLocks E site x :
  x ∈ locksForCallee (effectiveCallLocks local E site) ↔
  isParameterLock x = false ∧ (x ∈ localOf site ∨ x ∈ entryOf E (dcs_callerFunctionId site)).
Proof.
  unfold locksForCallee, effectiveCallLocks, entryOf, mergeHeldLocks. rewrite elem_of_filter.
  fold (localOf site). apply and_iff_compat_l.
  destruct (E !! dcs_callerFunctionId site); simpl; set_solver.
Qed.

Lemma mergeCalls_spec E sites :
  match foldl (mergeCall local E) None sites with
  | None => sites = []
  | Some m => sites ≠ [] ∧ ∀ x, x ∈ m ↔
      ∀ site, site ∈ sites → x ∈ locksForCallee (effectiveCallLocks local E site)
  end.
Proof.
  induction sites as [|site sites IH] using rev_ind; [done|]. rewrite foldl_snoc.
  unfold mergeCall at 1. destruct (foldl (mergeCall local E) None sites) as [m|].
  - split; [by destruct sites|]. intros x. unfold intersectHeldLocks.
    rewrite elem_of_intersection, (proj2 IH x). setoid_rewrite elem_of_app.
    setoid_rewrite list_elem_of_singleton. naive_solver.
  - subst sites. split; [done|]. intros x. setoid_rewrite list_elem_of_singleton. naive_solver.
Qed.

Record entries_ok (E : HeldMap) : Prop := {
  eo_least : ∀ f x, x ∈ entryOf E f → everyCallHolds x f;
  eo_grows : ∀ f sites m, incoming !! f = Some sites →
    foldl (mergeCall local E) None sites = Some m → entryOf E f ⊆ m;
}.

Lemma everyCallHolds_local x f : everyCallHolds x f → x ∈ localLocks local.
Proof.
  induction 1 as [f sites _ Hne _ _ IH]. destruct sites as [|site sites]; [done|].
  destruct (decide (x ∈ localOf site)) as [Hx|Hx]; [|by apply (IH site); [left|]].
  unfold localOf in Hx. destruct (dcs_call site) as [call|]; simpl in Hx; [|set_solver].
  destruct (local !! call) as [s|] eqn:E; simpl in Hx; [|set_solver].
  unfold localLocks. apply elem_of_union_list. exists s. split; [|done].
  apply list_elem_of_fmap. exists (call, s). split; [done|]. by apply elem_of_map_to_list.
Qed.

(** The merge grows with the entry locks. *)
Lemma mergeCalls_mono E E' sites m :
  (∀ f, entryOf E f ⊆ entryOf E' f) → foldl (mergeCall local E) None sites = Some m →
  ∃ m', foldl (mergeCall local E') None sites = Some m' ∧ m ⊆ m'.
Proof.
  intros Hle Hm. pose proof (mergeCalls_spec E sites) as H. rewrite Hm in H. destruct H as [Hne H].
  pose proof (mergeCalls_spec E' sites) as H'. destruct (foldl (mergeCall local E') None sites) as [m'|]; [|done].
  exists m'. split; [done|]. intros x Hx. apply H'. intros site Hs.
  apply elem_of_callLocks. rewrite H in Hx. specialize (Hx site Hs). apply elem_of_callLocks in Hx.
  destruct Hx as [? [?|?%Hle]]; auto.
Qed.

Lemma entryOf_insert E f s g :
  entryOf (<[f := s]> E) g = if bool_decide (f = g) then s else entryOf E g.
Proof.
  unfold entryOf. case_bool_decide as H; [subst; by rewrite lookup_insert_eq|by rewrite lookup_insert_ne].
Qed.

(** Setting a callee to the merge of its calls, in either branch of the code. *)
Lemma updateCallee_eq E changed f sites m :
  foldl (mergeCall local E) None sites = Some m →
  updateCallee local (E, changed) (f, sites) =
    (<[f := m]> E, changed || bool_decide (entryOf E f ≠ m)).
Proof.
  intros Hm. unfold updateCallee. simpl. rewrite Hm. fold (entryOf E f).
  case_bool_decide as H; [by rewrite orb_true_r|]. by rewrite orb_false_r, H.
Qed.

Lemma insert_grows E f sites m :
  entries_ok E → incoming !! f = Some sites → foldl (mergeCall local E) None sites = Some m →
  ∀ g, entryOf E g ⊆ entryOf (<[f := m]> E) g.
Proof.
  intros Hok Hf Hm g. rewrite entryOf_insert. case_bool_decide as Hfg; [|done].
  subst g. by eapply eo_grows.
Qed.

Lemma insert_entries_ok E f sites m :
  entries_ok E → incoming !! f = Some sites → foldl (mergeCall local E) None sites = Some m →
  entries_ok (<[f := m]> E).
Proof.
  intros Hok Hf Em. pose proof (insert_grows E f sites m Hok Hf Em) as Hle.
  pose proof (mergeCalls_spec E sites) as Hm. rewrite Em in Hm. destruct Hm as [Hnil Hm]. split.
  - intros g x. rewrite entryOf_insert. case_bool_decide as Hfg; [subst g|by apply Hok].
    intros Hx. rewrite Hm in Hx. assert (isParameterLock x = false).
    { destruct sites as [|site sites]; [done|].
      specialize (Hx site ltac:(left)). by apply elem_of_callLocks in Hx as [? _]. }
    econstructor; [done..|]. intros site Hs Hloc. specialize (Hx site Hs).
    apply elem_of_callLocks in Hx as [_ [?|?]]; [done|]. by apply Hok.
  - intros g sites' m' Hg' Hm'. rewrite entryOf_insert.
    assert (∀ m0, foldl (mergeCall local E) None sites' = Some m0 → m0 ⊆ m') as Hmono.
    { intros m0 E0. destruct (mergeCalls_mono _ _ _ _ Hle E0) as (m2 & Hm2 & ?).
      rewrite Hm' in Hm2. by injection Hm2 as ->. }
    case_bool_decide as Hfg.
    + subst g. rewrite Hf in Hg'. injection Hg' as <-. by apply Hmono.
    + pose proof (mergeCalls_spec E sites') as Hs'.
      destruct (foldl (mergeCall local E) None sites') as [m0|] eqn:E0; [|by subst sites'].
      trans m0; [by eapply eo_grows|by apply Hmono].
Qed.

(** ** The rounds *)

Definition missing (items : list (string * list DirectCallSite)) (E : HeldMap) : nat :=
  sum_list ((λ item, size (localLocks local) - size (entryOf E item.1)) <$> items).

Definition stable (E : HeldMap) (item : string * list DirectCallSite) : Prop :=
  ∀ m, foldl (mergeCall local E) None item.2 = Some m → entryOf E item.1 = m.

Lemma entry_bound E f : entries_ok E → entryOf E f ⊆ localLocks local.
Proof. intros Hok x Hx. by eapply everyCallHolds_local, Hok. Qed.

Lemma update_item all E changed item :
  entries_ok E → item ∈ all → incoming !! item.1 = Some item.2 →
  let '(E', changed') := updateCallee local (E, changed) item in
  entries_ok E' ∧ missing all E' ≤ missing all E ∧
  (changed' = true → changed = true ∨ missing all E' < missing all E) ∧
  (changed' = false → changed = false ∧ (∀ g, entryOf E' g = entryOf E g) ∧ stable E item).
Proof.
  intros Hok Hin Hinc. destruct item as [f sites]. simpl in Hinc.
  destruct (foldl (mergeCall local E) None sites) as [m|] eqn:Em.
  - rewrite (updateCallee_eq _ _ _ _ _ Em).
    pose proof (insert_grows E f sites m Hok Hinc Em) as Hle.
    pose proof (insert_entries_ok E f sites m Hok Hinc Em) as Hok'.
    assert (∀ item : string * list DirectCallSite,
      size (localLocks local) - size (entryOf (<[f := m]> E) item.1)
      ≤ size (localLocks local) - size (entryOf E item.1)) as Hsz.
    { intros item. pose proof (subseteq_size _ _ (Hle item.1)). lia. }
    split_and!; [done|by apply sum_list_le| |].
    + intros [->|Hne%bool_decide_eq_true]%orb_true_iff; [by left|right].
      apply sum_list_lt with (f, sites); [done|done|]. simpl.
      assert (entryOf E f ⊂ entryOf (<[f := m]> E) f) as Hss.
      { split; [done|]. rewrite entryOf_insert, bool_decide_true by done. intros Hback.
        apply Hne. specialize (Hle f). rewrite entryOf_insert, bool_decide_true in Hle by done.
        set_solver. }
      apply subset_size in Hss. pose proof (subseteq_size _ _ (entry_bound _ f Hok')). lia.
    + intros [-> Hf%bool_decide_eq_false]%orb_false_iff. apply dec_stable in Hf.
      split_and!; [done| |].
      * intros g. rewrite entryOf_insert. by case_bool_decide; subst.
      * intros m' Hm'. simpl in *. congruence.
  - unfold updateCallee. simpl. rewrite Em. split_and!; [done|done|auto|].
    intros ->. split_and!; [done..|]. intros m' Hm'. simpl in Hm'. congruence.
Qed.

Lemma mergeCalls_ext E E' sites :
  (∀ g, entryOf E' g = entryOf E g) →
  foldl (mergeCall local E') None sites = foldl (mergeCall local E) None sites.
Proof.
  intros Heq.
  pose proof (mergeCalls_mono E E' sites) as H1. pose proof (mergeCalls_mono E' E sites) as H2.
  destruct (foldl (mergeCall local E) None sites) as [m|], (foldl (mergeCall local E') None sites) as [m'|];
    [| | |done].
  - destruct (H1 m) as (? & [= <-] & Ha); [intros g; by rewrite Heq|done|].
    destruct (H2 m') as (? & [= <-] & Hb); [intros g; by rewrite Heq|done|]. f_equal. set_solver.
  - destruct (H1 m) as (? & ? & _); [intros g; by rewrite Heq|done|done].
  - destruct (H2 m') as (? & ? & _); [intros g; by rewrite Heq|done|done].
Qed.

Lemma update_round all l E changed :
  entries_ok E → (∀ item, item ∈ l → item ∈ all ∧ incoming !! item.1 = Some item.2) →
  let '(E', changed') := foldl (updateCallee local) (E, changed) l in
  entries_ok E' ∧ missing all E' ≤ missing all E ∧
  (changed' = true → changed = true ∨ missing all E' < missing all E) ∧
  (changed' = false → changed = false ∧ (∀ g, entryOf E' g = entryOf E g) ∧
     ∀ item, item ∈ l → stable E item).
Proof.
  intros Hok. induction l as [|item l IH] using rev_ind; intros Hl.
  { split_and!; auto. intros ->. split_and!; [done..|]. by intros ? ?%elem_of_nil. }
  rewrite foldl_snoc. specialize (IH ltac:(intros; apply Hl; set_solver)).
  destruct (foldl (updateCallee local) (E, changed) l) as [E1 c1]. destruct IH as (IH1 & IH2 & IH3 & IH4).
  destruct (Hl item ltac:(set_solver)) as [Hall Hinc].
  pose proof (update_item all E1 c1 item IH1 Hall Hinc) as H.
  destruct (updateCallee local (E1, c1) item) as [E2 c2]. destruct H as (H1 & H2 & H3 & H4).
  split_and!; [done|lia| |].
  - intros Hc. apply H3 in Hc as [Hc|?]; [|right; lia]. apply IH3 in Hc as [?|?]; [by left|right; lia].
  - intros Hc. destruct (H4 Hc) as (Hc1 & Heq & Hst). destruct (IH4 Hc1) as (Hc0 & Heq1 & Hst1).
    split_and!; [done|intros g; by rewrite Heq, Heq1|].
    intros it [Hit| ->%list_elem_of_singleton]%elem_of_app; [auto|].
    intros m Hm. rewrite <-Heq1. apply Hst. by rewrite (mergeCalls_ext E E1).
Qed.

Lemma propagate_exact items fuel E :
  items ≡ₚ map_to_list incoming → entries_ok E → missing items E < fuel →
  ∃ E', propagateRounds local items fuel E = Some E' ∧
    ∀ f x, x ∈ entryOf E' f ↔ everyCallHolds x f.
Proof.
  intros Hp. assert (∀ f sites, incoming !! f = Some sites ↔ (f, sites) ∈ items) as Hitems.
  { intros f sites. by rewrite Hp, elem_of_map_to_list. }
  revert E. induction fuel as [|fuel IH]; intros E Hok Hlt; [lia|]. simpl.
  pose proof (update_round items items E false Hok) as H.
  destruct (foldl (updateCallee local) (E, false) items) as [E1 [|]].
  - destruct H as (H1 & _ & H3 & _); [intros [f sites] ?; by rewrite Hitems|].
    apply IH; [done|]. destruct (H3 eq_refl) as [?|?]; [done|lia].
  - destruct H as (H1 & _ & _ & H4); [intros [f sites] ?; by rewrite Hitems|].
    destruct (H4 eq_refl) as (_ & Heq & Hst). exists E1. split; [done|]. intros f x.
    split; [apply H1|]. rewrite Heq. induction 1 as [f sites Hf Hne Hx _ IHx].
    pose proof (mergeCalls_spec E sites) as Hm.
    destruct (foldl (mergeCall local E) None sites) as [m|] eqn:Em; [|done].
    assert (entryOf E f = m) as -> by exact (Hst (f, sites) (proj1 (Hitems f sites) Hf) m Em). apply Hm. intros site Hs.
    apply elem_of_callLocks. split; [done|].
    destruct (decide (x ∈ localOf site)); [by left|right; auto].
Qed.

Lemma start_entries_ok (E : HeldMap) : (∀ f, entryOf E f = ∅) → entries_ok E.
Proof. intros HE. split; intros *; rewrite HE; set_solver. Qed.

Lemma start_missing items E :
  items ≡ₚ map_to_list incoming → missing items E < propagationBound local incoming.
Proof.
  intros Hp. unfold missing, propagationBound.
  assert (length items = size incoming) as <- by (by rewrite Hp, length_map_to_list).
  assert (∀ l : list (string * list DirectCallSite),
    sum_list ((λ item, size (localLocks local) - size (entryOf E item.1)) <$> l)
    ≤ length l * size (localLocks local)) as Hle; [|specialize (Hle items); lia].
  induction l as [|item l IH]; [done|]. rewrite fmap_cons. simpl. lia.
Qed.
End fixpoint.

(** ** The locks each call holds in its own function *)

Abbreviation instrsOf function := (instructionsOf (fn_blocks function)).

(** What LLVM guarantees of a module: reachability means a path from the entry, and
    no two instructions share an address. *)
Record well_formed (module : list Function) : Prop := {
  wf_reach : ∀ function, function ∈ module → fn_isDeclaration function = false →
    ∀ b, fn_reachable function b = true ↔ rtc (edge (fn_blocks function)) 0 b;
  wf_unique : ∀ n m fn fm b c k l i j, module !! n = Some fn → module !! m = Some fm →
    instrsOf fn b !! k = Some i → instrsOf fm c !! l = Some j → ins_id i = ins_id j →
    n = m ∧ b = c ∧ k = l;
}.

(** Every path of its function comes to the call with [x] held. *)
Definition holdsAt (module : list Function) (call : nat) (x : string) : Prop :=
  ∃ n fn b k i, module !! n = Some fn ∧ fn_isDeclaration fn = false ∧
    instrsOf fn b !! k = Some i ∧ ins_id i = call ∧ fn_reachable fn b = true ∧
    ∀ s, enters (fn_effects fn) (fn_blocks fn) b s →
      x ∈ locksAfter (fn_effects fn) (take k (instrsOf fn b)) s.

Lemma in_blocks fn call :
  call ∈ (ins_id <$> (fn_blocks fn ≫= bb_instructions)) ↔
  ∃ b k i, instrsOf fn b !! k = Some i ∧ ins_id i = call.
Proof.
  rewrite list_elem_of_fmap. setoid_rewrite list_elem_of_bind. unfold instructionsOf. split.
  - intros (i & -> & bb & Hi & Hbb). apply list_elem_of_lookup in Hbb as [b Hb].
    apply list_elem_of_lookup in Hi as [k Hk]. exists b, k, i. by rewrite Hb.
  - intros (b & k & i & Hi & <-). exists i. split; [done|].
    destruct (fn_blocks fn !! b) as [bb|] eqn:E; [|done]. exists bb.
    split; by eapply list_elem_of_lookup_2.
Qed.

Section locals.
Context (module : list Function) (Hwf : well_formed module).

Lemma unique_within n fn b c k m i j :
  module !! n = Some fn → instrsOf fn b !! k = Some i → instrsOf fn c !! m = Some j →
  ins_id i = ins_id j → b = c ∧ k = m.
Proof. intros Hn Hi Hj E. by destruct (wf_unique _ Hwf n n fn fn b c k m i j) as (_ & ? & ?). Qed.

(** The table of one function: total, of its own calls only, and exact. *)
Lemma function_held n fn calls :
  module !! n = Some fn → fn_isDeclaration fn = false →
  ∃ held, collectHeldLocks (fn_reachable fn) (fn_effects fn) calls (fn_blocks fn) = Some held ∧
    (∀ call, is_Some (held !! call) → ∃ b k i, instrsOf fn b !! k = Some i ∧ ins_id i = call) ∧
    ∀ call b k i, call ∈ calls → instrsOf fn b !! k = Some i → ins_id i = call →
      ∀ x, x ∈ default ∅ (held !! call) ↔ holdsAt module call x.
Proof.
  intros Hn Hdecl.
  destruct (held_exact (fn_reachable fn) (fn_effects fn) calls (fn_blocks fn))
    as (held & Hheld & Hin & Hout).
  { apply (wf_reach _ Hwf); [by eapply list_elem_of_lookup_2|done]. }
  { intros b c k m i j. by apply unique_within with n. }
  exists held. split; [done|]. split.
  { intros call (_ & b & i & _ & [k Hk]%list_elem_of_lookup & E)%Hout. eauto. }
  intros call b k i Hc Hi <- x. split.
  - intros Hx. assert (is_Some (held !! ins_id i)) as Hs.
    { destruct (held !! ins_id i); [eauto|]. simpl in Hx. set_solver. }
    apply Hout in Hs as (_ & c & j & Hr & [m Hm]%list_elem_of_lookup & E).
    destruct (unique_within n fn c b m k j i) as [-> ->]; [done..|]. simplify_eq.
    destruct (Hin b k i) as (locks & Hlocks & Hspec); [done..|]. rewrite Hlocks in Hx. simpl in Hx.
    exists n, fn, b, k, i. split_and!; [done..|]. by apply Hspec.
  - intros (m & fm & c & l & j & Hm & _ & Hj & E & Hr & Hx).
    destruct (wf_unique _ Hwf m n fm fn c b l k j i) as (-> & -> & ->); [done..|]. simplify_eq.
    destruct (Hin b k i) as (locks & Hlocks & Hspec); [done..|]. rewrite Hlocks. simpl. by apply Hspec.
Qed.

(** The table after the functions of [l]. *)
Record locals_ok (tracked : gmap nat (gset nat)) (l : list (nat * Function))
    (local : gmap nat (gset string)) : Prop := {
  lo_domain : ∀ call, is_Some (local !! call) → ∃ n fn b k i, (n, fn) ∈ l ∧
    instrsOf fn b !! k = Some i ∧ ins_id i = call;
  lo_exact : ∀ n fn call calls b k i, (n, fn) ∈ l → fn_isDeclaration fn = false →
    tracked !! n = Some calls → call ∈ calls → instrsOf fn b !! k = Some i → ins_id i = call →
    ∀ x, x ∈ default ∅ (local !! call) ↔ holdsAt module call x;
}.

Lemma locals_skip tracked l local n fn :
  locals_ok tracked l local →
  (∀ calls call, fn_isDeclaration fn = false → tracked !! n = Some calls → call ∉ calls) →
  locals_ok tracked (l ++ [(n, fn)]) local.
Proof.
  intros [Hdom Hex] Hskip. split.
  - intros call (m & fm & b & k & i & Hm & ?)%Hdom. exists m, fm, b, k, i. set_solver.
  - intros m fm call calls b k i [Hm|[= -> ->]%list_elem_of_singleton]%elem_of_app Hd Ht Hc; [by eapply Hex|].
    by apply Hskip in Hc.
Qed.

Lemma locals_add tracked l local n fn calls held :
  locals_ok tracked l local → module !! n = Some fn → tracked !! n = Some calls →
  (∀ m fm, (m, fm) ∈ l → module !! m = Some fm ∧ m ≠ n) →
  (∀ call, is_Some (held !! call) → ∃ b k i, instrsOf fn b !! k = Some i ∧ ins_id i = call) →
  (∀ call b k i, call ∈ calls → instrsOf fn b !! k = Some i → ins_id i = call →
     ∀ x, x ∈ default ∅ (held !! call) ↔ holdsAt module call x) →
  locals_ok tracked (l ++ [(n, fn)]) (local ∪ held).
Proof.
  intros [Hdom Hex] Hn Ht Hl Hheld Hheldx.
  assert (∀ m fm b c k o i j, (m, fm) ∈ l → instrsOf fm b !! k = Some i → instrsOf fn c !! o = Some j →
    ins_id i ≠ ins_id j) as Hdis.
  { intros m fm b c k o i j Hm Hi Hj E. destruct (Hl m fm Hm) as [Hm' Hne].
    by destruct (wf_unique _ Hwf m n fm fn b c k o i j) as (? & _). }
  split.
  - intros call Hc. rewrite lookup_union_is_Some in Hc. destruct Hc as [Hc|Hc].
    + destruct (Hdom call Hc) as (m & fm & b & k & i & Hm & ?). exists m, fm, b, k, i. set_solver.
    + destruct (Hheld call Hc) as (b & k & i & ?). exists n, fn, b, k, i. set_solver.
  - intros m fm call calls' b k i [Hm|[= -> ->]%list_elem_of_singleton]%elem_of_app Hd Ht' Hc Hi E x.
    + rewrite lookup_union_l; [by eapply Hex|]. apply eq_None_not_Some.
      intros (c & o & j & Hj & E')%Hheld. apply (Hdis m fm b c k o i j); congruence.
    + rewrite Ht in Ht'. injection Ht' as <-. rewrite lookup_union_r; [by eapply Hheldx|].
      apply eq_None_not_Some. intros (m & fm & c & o & j & Hm & Hj & E')%Hdom.
      apply (Hdis m fm c b o k j i); congruence.
Qed.

Lemma locals_exact tracked l :
  NoDup l.*1 → (∀ n fn, (n, fn) ∈ l → module !! n = Some fn) →
  ∃ local, foldl (localHeld tracked) (Some ∅) l = Some local ∧ locals_ok tracked l local.
Proof.
  intros Hnd Hl. induction l as [|[n fn] l IH] using rev_ind.
  { exists ∅. split; [done|]. split; [intros call [? H]; by rewrite lookup_empty in H|].
    by intros * ?%elem_of_nil. }
  rewrite fmap_app in Hnd. apply NoDup_app in Hnd as (Hnd & Hdis & _).
  destruct IH as (local & Hloc & Hok); [done|intros; apply Hl; set_solver|].
  assert (∀ m fm, (m, fm) ∈ l → module !! m = Some fm ∧ m ≠ n) as Hne.
  { intros m fm Hm. split; [apply Hl; set_solver|]. intros ->. apply (Hdis n); [|simpl; left].
    apply list_elem_of_fmap. by exists (n, fm). }
  rewrite foldl_snoc, Hloc. unfold localHeld. simpl.
  destruct (fn_isDeclaration fn) eqn:Hdecl; [exists local; split; [done|]; apply locals_skip; congruence|].
  destruct (tracked !! n) as [calls|] eqn:Ht;
    [|exists local; split; [done|]; apply locals_skip; congruence].
  case_bool_decide as Hempty.
  { exists local. split; [done|]. apply locals_skip; [done|]. set_solver. }
  assert (module !! n = Some fn) as Hn by (apply Hl; set_solver).
  destruct (function_held n fn calls Hn Hdecl) as (held & -> & H1 & H2). simpl.
  eexists. split; [done|]. by eapply locals_add.
Qed.
End locals.

(** ** The whole propagation *)

Section whole.
Context (module : list Function) (callSites : list DirectCallSite).

(** A call site the propagation follows, and the lock its own function holds there. *)
Definition callsDirectly (site : DirectCallSite) (f : string) : Prop :=
  site ∈ callSites ∧ is_Some (siteCall module site) ∧ dcs_calleeFunctionId site = f.

Definition siteHolds (site : DirectCallSite) (x : string) : Prop :=
  ∃ call, dcs_call site = Some call ∧ holdsAt module call x.

(** Whatever call [f] is entered by, [x] is held: at the call, or on entry to its
    caller.  A lock named after a parameter is never carried over. *)
Inductive heldOnEntry (x : string) : string → Prop :=
  | held_on_entry f :
      (∃ site, callsDirectly site f) → isParameterLock x = false →
      (∀ site, callsDirectly site f → ¬ siteHolds site x →
         heldOnEntry x (dcs_callerFunctionId site)) →
      heldOnEntry x f.

Lemma tracked_spec n call :
  (∃ calls, foldl (trackCall module) ∅ callSites !! n = Some calls ∧ call ∈ calls) ↔
  ∃ site, site ∈ callSites ∧ siteCall module site = Some (n, call).
Proof.
  induction callSites as [|site sites IH] using rev_ind.
  { simpl. split; [intros (? & H & _); by rewrite lookup_empty in H|]. by intros (? & ?%elem_of_nil & _). }
  rewrite foldl_snoc. setoid_rewrite elem_of_app. setoid_rewrite list_elem_of_singleton.
  transitivity ((∃ calls, foldl (trackCall module) ∅ sites !! n = Some calls ∧ call ∈ calls) ∨
    siteCall module site = Some (n, call)); [|rewrite IH; naive_solver].
  unfold trackCall at 1. destruct (siteCall module site) as [[m c]|]; [|naive_solver].
  destruct (decide (m = n)) as [->|Hne].
  - rewrite lookup_insert_eq. split.
    + intros (calls & [= <-] & [->%elem_of_singleton|Hc]%elem_of_union); [by right|left].
      destruct (foldl _ _ sites !! n) as [cs|]; simpl in Hc; [eauto|set_solver].
    + intros [(cs & -> & Hc)|[= ->]]; eexists; (split; [done|]); simpl; set_solver.
  - rewrite lookup_insert_ne by done. split; [auto|]. intros [?|[= ? ?]]; done.
Qed.

Lemma incoming_spec f :
  match foldl (addIncoming module) ∅ callSites !! f with
  | None => ∀ site, ¬ callsDirectly site f
  | Some sites => sites ≠ [] ∧ ∀ site, site ∈ sites ↔ callsDirectly site f
  end.
Proof.
  unfold callsDirectly. induction callSites as [|site sites IH] using rev_ind.
  { simpl. rewrite lookup_empty. by intros site [?%elem_of_nil _]. }
  rewrite foldl_snoc. unfold addIncoming at 1. set (table := foldl _ ∅ sites) in *.
  destruct (siteCall module site) as [p|] eqn:E.
  - destruct (decide (dcs_calleeFunctionId site = f)) as [Hf|Hf].
    + rewrite Hf, lookup_insert_eq. split; [by destruct (default [] _)|]. intros s.
      rewrite !elem_of_app, list_elem_of_singleton. destruct (table !! f) as [l|]; simpl.
      * rewrite (proj2 IH s). split; [intros [?| ->]; [tauto|]|tauto].
        split; [by right|]. split; [|done]. by rewrite E.
      * rewrite elem_of_nil. specialize (IH s). split; [|tauto].
        intros [[]| ->]. split; [by right|]. split; [by rewrite E|done].
    + rewrite lookup_insert_ne by done. destruct (table !! f) as [l|].
      * split; [apply IH|]. intros s. rewrite (proj2 IH s), elem_of_app, list_elem_of_singleton.
        split; [tauto|]. intros ([?| ->] & ? & ?); [tauto|done].
      * intros s ([?| ->%list_elem_of_singleton]%elem_of_app & ? & ?); [by apply (IH s)|done].
  - destruct (table !! f) as [l|].
    + split; [apply IH|]. intros s. rewrite (proj2 IH s), elem_of_app, list_elem_of_singleton.
      split; [tauto|]. intros ([?| ->] & Hs & ?); [tauto|]. rewrite E in Hs. by destruct Hs.
    + intros s ([?| ->%list_elem_of_singleton]%elem_of_app & Hs & ?); [by apply (IH s)|].
      rewrite E in Hs. by destruct Hs.
Qed.

Lemma siteCall_inv site n call :
  siteCall module site = Some (n, call) →
  ∃ fn b k i, dcs_call site = Some call ∧ module !! n = Some fn ∧ fn_isDeclaration fn = false ∧
    instrsOf fn b !! k = Some i ∧ ins_id i = call.
Proof.
  unfold siteCall. destruct (dcs_call site) as [c|]; simpl; [|done].
  destruct (getFunction module c) as [m|] eqn:Em; simpl; [|done].
  destruct (module !! m) as [fn|] eqn:Efn; simpl; [|done].
  destruct (fn_isDeclaration fn) eqn:Ed; [done|]. intros [= -> ->].
  unfold getFunction in Em. apply fmap_Some in Em as ([m f] & Hf & ->). simpl in *.
  apply list_find_Some in Hf as (Hm & Hin & _). rewrite Efn in Hm. injection Hm as <-.
  apply in_blocks in Hin as (b & k & i & ? & ?). by exists fn, b, k, i.
Qed.

Context (Hwf : well_formed module).
Abbreviation tracked := (foldl (trackCall module) ∅ callSites).
Abbreviation incoming := (foldl (addIncoming module) ∅ callSites).

Lemma elem_of_indexed n fn : (n, fn) ∈ imap pair module ↔ module !! n = Some fn.
Proof.
  rewrite list_elem_of_lookup. setoid_rewrite list_lookup_imap. split.
  - intros [i (f & Hf & [= -> ->])%fmap_Some]. done.
  - intros Hn. exists n. by rewrite Hn.
Qed.

Lemma indexed_NoDup : NoDup (imap pair module).*1.
Proof.
  apply NoDup_alt. intros i j n. rewrite !list_lookup_fmap, !list_lookup_imap.
  destruct (module !! i), (module !! j); simpl; congruence.
Qed.

Lemma local_site local site f x :
  locals_ok module tracked (imap pair module) local → callsDirectly site f →
  x ∈ localOf local site ↔ siteHolds site x.
Proof.
  intros Hok (Hs & [[n call] Hc] & _). destruct (siteCall_inv _ _ _ Hc) as (fn & b & k & i & Hcall & Hn & Hd & Hi & E).
  destruct (proj2 (tracked_spec n call)) as (calls & Ht & Hin); [eauto|].
  unfold localOf, siteHolds. rewrite Hcall. simpl.
  rewrite (lo_exact _ _ _ _ Hok n fn call calls b k i) by (done || by apply elem_of_indexed).
  split; [eauto|]. by intros (? & [= <-] & ?).
Qed.

Lemma entry_meaning local x f :
  locals_ok module tracked (imap pair module) local →
  everyCallHolds local incoming x f ↔ heldOnEntry x f.
Proof.
  intros Hok. split.
  - induction 1 as [f sites Hf Hne Hx _ IH]. pose proof (incoming_spec f) as Hi. rewrite Hf in Hi.
    destruct Hi as [_ Hi]. constructor; [|done|].
    + destruct sites as [|site sites]; [done|]. exists site. apply Hi. left.
    + intros site Hs Hno. apply IH; [by apply Hi|]. by rewrite (local_site local site f).
  - induction 1 as [f [site0 Hs0] Hx _ IH]. pose proof (incoming_spec f) as Hi.
    destruct (incoming !! f) as [sites|] eqn:Hf; [|by apply Hi in Hs0]. destruct Hi as [Hne Hi].
    econstructor; [done..|]. intros site Hs%Hi Hno. apply IH; [done|].
    by rewrite <-(local_site local site f).
Qed.

Lemma start_entries_empty l (E : HeldMap) :
  (∀ f, entryOf E f = ∅) →
  ∀ f, entryOf (foldl emplaceFunction E l) f = ∅.
Proof.
  revert E. induction l as [|fn l IH]; intros E HE f; simpl; [done|]. apply IH. intros g.
  unfold emplaceFunction. destruct (fn_isDeclaration fn); [done|]. destruct (E !! fn_id fn); [done|].
  rewrite entryOf_insert. by case_bool_decide.
Qed.

Lemma effective_spec local E call s :
  foldl (emplaceCall local E) ∅ callSites !! call = Some s →
  ∃ site, site ∈ callSites ∧ dcs_call site = Some call ∧ s = effectiveCallLocks local E site.
Proof.
  revert s. induction callSites as [|site sites IH] using rev_ind; intros s; [simpl; by rewrite lookup_empty|].
  rewrite foldl_snoc. set (table := foldl _ ∅ sites) in *. unfold emplaceCall. intros H.
  assert (table !! call = Some s ∨ dcs_call site = Some call ∧ s = effectiveCallLocks local E site) as [Hs|Hs].
  { destruct (dcs_call site) as [c|]; [|by left]. destruct (table !! c) as [?|] eqn:Ec; [by left|].
    destruct (decide (c = call)) as [->|Hne].
    - rewrite lookup_insert_eq in H. injection H as <-. by right.
    - rewrite lookup_insert_ne in H by done. by left. }
  - destruct (IH s Hs) as (site' & ? & ? & ?). exists site'. set_solver.
  - exists site. set_solver.
Qed.

Lemma lock_propagation_spec `{!HashOrder} :
  ∃ result, LockStatePropagator_collect module callSites = Some result ∧
    (∀ f x, x ∈ entryOf (entryLocksByFunction result) f ↔ heldOnEntry x f) ∧
    ∀ call s, effectiveHeldLocksByCall result !! call = Some s →
      ∃ site, site ∈ callSites ∧ dcs_call site = Some call ∧
        ∀ f, callsDirectly site f → ∀ x,
          x ∈ s ↔ siteHolds site x ∨ heldOnEntry x (dcs_callerFunctionId site).
Proof.
  unfold LockStatePropagator_collect.
  destruct (locals_exact module Hwf tracked (imap pair module)) as (local & Hl & Hok);
    [apply indexed_NoDup|by intros n fn ?%elem_of_indexed|].
  cbv zeta. rewrite Hl. cbn [mbind option_bind]. set (E0 := foldl _ ∅ module).
  assert (∀ f, entryOf E0 f = ∅) as HE0 by (apply start_entries_empty; done).
  destruct (propagate_exact local incoming (hash_items incoming) (propagationBound local incoming) E0)
    as (E & HE & Hspec); [apply hash_items_perm|by apply start_entries_ok|by apply start_missing, hash_items_perm|].
  rewrite HE. cbn [mbind option_bind]. eexists. split; [done|]. simpl.
  assert (∀ f x, x ∈ entryOf E f ↔ heldOnEntry x f) as Hentry.
  { intros f x. by rewrite Hspec, (entry_meaning local). }
  split; [done|]. intros call s (site & Hs & Hcall & ->)%effective_spec.
  exists site. split_and!; [done..|]. intros f Hd x. rewrite <-Hentry, <-(local_site local site f) by done.
  unfold effectiveCallLocks, mergeHeldLocks, entryOf. fold (localOf local site).
  destruct (E !! dcs_callerFunctionId site); simpl; set_solver.
Qed.

(** C6: the locks held on entry.  On a module as LLVM makes them the propagation
    ends with a result, whatever order the hash tables are visited in; a lock is in
    the entry locks of a function exactly when every call that enters the function
    holds it, at the call itself or, in finitely many steps back, on entry to the
    caller; and the locks given to a call are those its function holds there with
    those held on entry to it. *)
Theorem lock_propagation_exact `{!HashOrder} :
  ∃ result, LockStatePropagator_collect module callSites = Some result ∧
    (∀ f x, x ∈ entryOf (entryLocksByFunction result) f ↔ heldOnEntry x f) ∧
    ∀ call s, effectiveHeldLocksByCall result !! call = Some s →
      ∃ site, site ∈ callSites ∧ dcs_call site = Some call ∧
        ∀ f, callsDirectly site f → ∀ x,
          x ∈ s ↔ siteHolds site x ∨ heldOnEntry x (dcs_callerFunctionId site).
Proof. apply lock_propagation_spec. Qed.
End whole.

(** ** Witness *)

(** [main] takes [m] and calls [helper], which calls [leaf]. *)
Definition one_block (id : string) (instructions : list Instruction)
    (resolve : nat → list LockEffect) : Function :=
  let blocks := [MkBasicBlock instructions []] in
  MkFunction id false blocks (λ b, b =? 0) (collectFunctionLockEffects resolve blocks).

Definition sample_module : list Function :=
  [one_block "main" [MkInstruction 0 true; MkInstruction 1 true]
     (λ id, if id =? 0 then [MkLockEffect LockEffectKind_Acquire ["m"; "%arg0"] "" false false] else []);
   one_block "helper" [MkInstruction 2 true] (λ _, []);
   one_block "leaf" [MkInstruction 3 false] (λ _, [])].

Definition sample_call (call : nat) (caller callee : string) : DirectCallSite :=
  MkDirectCallSite (Some call) caller callee no_location no_location false.

Definition sample_sites : list DirectCallSite :=
  [sample_call 1 "main" "helper"; sample_call 2 "helper" "leaf"].

Example sample_propagation :
  (λ result, (λ item, (item.1, sorted_elements item.2)) <$> map_items (entryLocksByFunction result)) <$>
    @LockStatePropagator_collect sorted_hash_order sample_module sample_sites
  = Some [("helper", ["m"]); ("leaf", ["m"]); ("main", [])].
Proof. vm_compute. reflexivity. Qed.

Lemma one_block_reach id instructions resolve b :
  fn_reachable (one_block id instructions resolve) b = true ↔
  rtc (edge (fn_blocks (one_block id instructions resolve))) 0 b.
Proof.
  simpl. split; [by intros ->%Nat.eqb_eq|].
  revert b. apply (rtc_ind_r (λ b, (b =? 0) = true) 0); [done|].
  intros p b _ [_ Hp] _. exfalso. destruct b as [|b]; by apply elem_of_nil in Hp.
Qed.

Lemma sample_well_formed : well_formed sample_module.
Proof.
  split.
  - intros function Hf _ b. unfold sample_module in Hf. rewrite !elem_of_cons, elem_of_nil in Hf.
    destruct Hf as [->|[->|[->|[]]]]; apply one_block_reach.
  - intros n m fn fm b c k l i j Hn Hm Hi Hj E.
    destruct b as [|b]; [|by destruct n as [|[|[|n]]]; simplify_eq/=; unfold instructionsOf in Hi].
    destruct c as [|c]; [|by destruct m as [|[|[|m]]]; simplify_eq/=; unfold instructionsOf in Hj].
    destruct n as [|[|[|n]]], m as [|[|[|m]]]; simplify_eq/=;
      destruct k as [|[|k]], l as [|[|l]]; by simplify_eq/=.
Qed.

Lemma lock_propagation_exact_witness :
  ∃ result, @LockStatePropagator_collect sorted_hash_order sample_module sample_sites = Some result ∧
    ∀ x, x ∈ entryOf (entryLocksByFunction result) "leaf" ↔
      heldOnEntry sample_module sample_sites x "leaf".
Proof.
  destruct (@lock_propagation_exact sample_module sample_sites sample_well_formed sorted_hash_order)
    as (result & Hr & He & _).
  exists result. split; [exact Hr|]. intros x. exact (He "leaf" x).
Defined.
