(* ===== verification/LockOrderFacts.v ===== *)
(** The lock orders of a unit (src/internal/analysis/tu_facts_builder.cpp): what each
    function takes, and what the orders a helper takes on the locks it is handed, or
    after the locks its caller holds, come to at each call.

    What LLVM's IR is read for is a parameter: the orders the collector finds in a
    function, and the lock each argument of a call designates, as its caller names
    it. *)

From S2P Require Import Prelude Text Diagnostics Facts LockIds CallGraph CallCycles Rounds KeyIndex Kept.
From S2P Require Import LockEffects LockScope LockPropagation LockOrderCollector.

(** ** Names *)

Definition namesCallerFrame (lockId : string) : bool :=
  bool_decide (lockId = kLocksHeldByCaller) || isThroughParameter lockId.

Definition isOpenLockOrder (order : LockOrderFact) : bool :=
  namesCallerFrame (lo_firstLockId order) || namesCallerFrame (lo_secondLockId order).

Definition lockOrderKey (order : LockOrderFact) : string :=
  lo_functionId order +:+ "|" +:+ lo_firstLockId order +:+ "|" +:+ lo_secondLockId order +:+ "|" +:+
  loc_file (lo_location order) +:+ "|" +:+ pretty (loc_line (lo_location order)) +:+ "|" +:+
  pretty (loc_column (lo_location order)) +:+
  (if lo_lowerAddressFirst order then "|lower-address-first" else "") +:+
  (if lo_boundBySpawn order then "|bound-by-spawn" else "").

Definition lockOrderIdentity (order : LockOrderFact) : string :=
  if bool_decide (lo_firstLockId order = lo_secondLockId order) then lockOrderKey order
  else foldl (λ identity lockId,
         if namesCallerFrame lockId then identity else identity +:+ "|" +:+ lockId)
       (lockOrderKey order) (sorted_elements (lo_heldLocks order)).

Definition isHeldThroughParameter (order : LockOrderFact) : bool :=
  existsb isThroughParameter (sorted_elements (lo_heldLocks order)).

(** ** Keeping orders *)

Definition set_order_threads (order : LockOrderFact) (liveEntries startedEntries : ThreadEntrySet)
  : LockOrderFact :=
  MkLockOrder (lo_functionId order) (lo_firstLockId order) (lo_secondLockId order) (lo_location order)
    (lo_heldLocks order) (lo_inRootTask order) liveEntries startedEntries (lo_lowerAddressFirst order)
    (lo_secondIsRecursive order) (lo_boundBySpawn order).

#[refine, export] Instance lock_order_threaded : Threaded LockOrderFact := {
  key := lockOrderKey;
  live := lo_liveEntries;
  started := lo_startedEntries;
  with_threads := set_order_threads;
}.
Proof. all: by intros []. Defined.

Abbreviation KeptOrders := (Kept LockOrderFact).

Definition keepLockOrder (kept : KeptOrders) (order : LockOrderFact) : KeptOrders * bool :=
  keep kept order.

Definition set_heldLocks (order : LockOrderFact) (heldLocks : gset string) : LockOrderFact :=
  MkLockOrder (lo_functionId order) (lo_firstLockId order) (lo_secondLockId order) (lo_location order)
    heldLocks (lo_inRootTask order) (lo_liveEntries order) (lo_startedEntries order)
    (lo_lowerAddressFirst order) (lo_secondIsRecursive order) (lo_boundBySpawn order).

Definition addLockOrder (kept : KeptOrders) (order : LockOrderFact) : KeptOrders :=
  (keepLockOrder kept (set_heldLocks order
     (filter (λ lockId, namesCallerFrame lockId = false) (lo_heldLocks order)))).1.

Definition kMaxOrdersOnLocksOnlyARecursionNames : nat := 64.

Record OpenLockOrders := MkOpenOrders {
  oo_kept : KeptOrders;
  oo_lockIdsOutsideRecursion : gset string;
  oo_ordersOnLocksOnlyARecursionNames : nat;
}.
Definition no_open_orders : OpenLockOrders := MkOpenOrders nothing_kept ∅ 0.

Definition addOpen (open : OpenLockOrders) (order : LockOrderFact) (throughRecursion : bool)
  : OpenLockOrders * bool :=
  let outside := oo_lockIdsOutsideRecursion open in
  let count := oo_ordersOnLocksOnlyARecursionNames open in
  let '(kept, changed) := keepLockOrder (oo_kept open) order in
  if negb throughRecursion then
    (MkOpenOrders kept ({[lo_firstLockId order; lo_secondLockId order]} ∪ outside) count, changed)
  else if bool_decide (lo_firstLockId order ∈ outside) && bool_decide (lo_secondLockId order ∈ outside)
  then (MkOpenOrders kept outside count, changed)
  else if kMaxOrdersOnLocksOnlyARecursionNames <=? count then (open, false)
  else (MkOpenOrders kept outside
          (count + (length (kp_items kept) - length (kp_items (oo_kept open)))), changed).

Abbreviation OpenByFunction := (gmap string OpenLockOrders).

(** [openByFunction[order.functionId]] makes the entry when there is none. *)
Definition openOf (openByFunction : OpenByFunction) (function : string) : OpenLockOrders :=
  default no_open_orders (openByFunction !! function).

Definition addOpenLockOrder (openByFunction : OpenByFunction) (order : LockOrderFact)
    (throughRecursion : bool) : OpenByFunction * bool :=
  let '(open, changed) := addOpen (openOf openByFunction (lo_functionId order)) order throughRecursion in
  (<[lo_functionId order := open]> openByFunction, changed).

(** ** At a call *)

(** What a direct call says about the orders its callee leaves open; the locks its
    arguments designate, as the caller names them. *)
Record LockOrderCall := MkLockOrderCall {
  lc_site : DirectCallSite;
  lc_argumentLocks : list (option string);
  lc_heldAtCall : gset string;
  lc_calleeEntryLocks : gset string;
  lc_liveAtCall : ThreadEntrySet;
  lc_startedAtCall : ThreadEntrySet;
  lc_callerInRootTask : bool;
}.

Definition lockAtCall (call : LockOrderCall) (calleeLockId : string) : option string :=
  match lockPlace calleeLockId with
  | None => Some calleeLockId
  | Some place =>
      match lc_argumentLocks call !! N.to_nat (plp_argumentIndex place) with
      | Some (Some passed) => Some (lockIdAt (lockRoot passed) (plp_place place))
      | _ => None
      end
  end.

Definition threadsThroughCall (liveEntries startedEntries liveAtCall startedAtCall : ThreadEntrySet)
  : ThreadEntrySet * ThreadEntrySet :=
  let live := filter (λ entry, entry ∈ startedEntries ∨ entry ∈ liveAtCall) liveEntries in
  (live, filter (λ entry, entry ∈ startedEntries ∨ entry ∈ startedAtCall) live).

Definition heldAtInstance (call : LockOrderCall) (order : LockOrderFact) : gset string :=
  foldl (λ held lockId,
    if bool_decide (lockId = kLocksHeldByCaller) then held
    else match lockAtCall call lockId with
         | Some heldLock => {[heldLock]} ∪ held
         | None => held
         end) (lc_heldAtCall call) (sorted_elements (lo_heldLocks order)).

Definition firstsAtCall (call : LockOrderCall) (firstLockId : string) : list string :=
  if bool_decide (firstLockId = kLocksHeldByCaller)
  then List.filter (λ heldLock, negb (bool_decide (heldLock ∈ lc_calleeEntryLocks call)))
         (sorted_elements (lc_heldAtCall call)) ++ [kLocksHeldByCaller]
  else match lockAtCall call firstLockId with Some first => [first] | None => [] end.

Definition instanceAtCall (call : LockOrderCall) (order : LockOrderFact) (second first : string)
  : option LockOrderFact :=
  if bool_decide (first = second) && lo_secondIsRecursive order then None
  else
    let aliasedByCall := negb (bool_decide (lo_firstLockId order = kLocksHeldByCaller)) &&
                         negb (bool_decide (lo_firstLockId order = lo_secondLockId order)) in
    if bool_decide (first = second) && aliasedByCall then None
    else
      let '(liveEntries, startedEntries) :=
        threadsThroughCall (lo_liveEntries order) (lo_startedEntries order) (lc_liveAtCall call)
          (lc_startedAtCall call) in
      Some (MkLockOrder (dcs_callerFunctionId (lc_site call)) first second
              (dcs_userLocation (lc_site call)) (heldAtInstance call order) (lc_callerInRootTask call)
              liveEntries startedEntries (lo_lowerAddressFirst order) (lo_secondIsRecursive order) false).

Definition instantiateAtCall (call : LockOrderCall) (order : LockOrderFact) : list LockOrderFact :=
  match lockAtCall call (lo_secondLockId order) with
  | None => []
  | Some second => omap (instanceAtCall call order second) (firstsAtCall call (lo_firstLockId order))
  end.

Definition locksOnSharedObject (entryLocks : gset string) (binding : SharedObjectBinding)
  : gset string :=
  foldl (λ locks lockId,
    match lockPlace lockId with
    | None => {[lockId]} ∪ locks
    | Some place =>
        if bool_decide (plp_argumentIndex place = so_argumentIndex binding)
        then {[lockIdAt (so_object binding) (plp_place place)]} ∪ locks else locks
    end) ∅ (sorted_elements entryLocks).

(** ** The unit *)

(** What the analysis of tasks says: the functions the initial thread runs, the
    threads running at an instruction, with those its function started, the entries
    never running together, those a function leaves running, and those with two
    instances at once. *)
Record TaskConcurrencyResult := MkTaskConcurrency {
  tc_rootTaskFunctions : gset string;
  tc_liveEntriesAtInstruction : gmap nat ThreadEntrySet;
  tc_startedEntriesAtInstruction : gmap nat ThreadEntrySet;
  tc_sequencedEntryPairs : gset (string * string);
  tc_entriesLeftRunningByFunction : gmap string ThreadEntrySet;
  tc_overlappingSpawnEntries : gset string;
}.

Record OrderState := MkOrderState {
  os_open : OpenByFunction;
  os_facts : KeptOrders;
  os_judgedAtCalls : gmap string (list LockOrderFact);
}.

Section unit.
Context `{!HashOrder}.
Context (callsStandardLibrary : nat → bool).
Context (sharedObjectBindings : SharedObjectBindings).
Context (lockPropagation : LockPropagationResult) (taskConcurrency : TaskConcurrencyResult).
(** The lock each argument of a call designates, with the object given to name the
    caller's locks after. *)
Context (argumentLocks : option SharedObjectBinding → nat → list (option string)).
(** The orders the collector finds in a function entered with the given locks, and
    those of its spawned thread. *)
Context (collect : string → gset string → bool → list LockOrderFact).

Definition takesCalleeLockOrders (site : DirectCallSite) : bool :=
  match dcs_call site with Some call => negb (callsStandardLibrary call) | None => false end.

Definition functionsRunOnlyByDirectCalls (sites : list DirectCallSite)
    (threadEntries : gmap string EntryConcurrencyInfo) : gset string :=
  foldl (λ functions site,
    if takesCalleeLockOrders site && negb (bool_decide (is_Some (threadEntries !! dcs_calleeFunctionId site)))
    then {[dcs_calleeFunctionId site]} ∪ functions else functions) ∅ sites.

Definition functionsCalledUnderDifferentLocks (sites : list DirectCallSite) : gset string :=
  foldl (λ functions site,
    match (call ← dcs_call site; effectiveHeldLocksByCall lockPropagation !! call),
          entryLocksByFunction lockPropagation !! dcs_calleeFunctionId site with
    | Some held, Some entry =>
        if existsb (λ lockId, negb (isThroughParameter lockId) && negb (bool_decide (lockId ∈ entry)))
             (sorted_elements held)
        then {[dcs_calleeFunctionId site]} ∪ functions else functions
    | _, _ => functions
    end) ∅ sites.

Definition set_inRootTask (inRootTask : bool) (order : LockOrderFact) : LockOrderFact :=
  MkLockOrder (lo_functionId order) (lo_firstLockId order) (lo_secondLockId order) (lo_location order)
    (lo_heldLocks order) inRootTask (lo_liveEntries order) (lo_startedEntries order)
    (lo_lowerAddressFirst order) (lo_secondIsRecursive order) (lo_boundBySpawn order).
Definition set_boundBySpawn (order : LockOrderFact) : LockOrderFact :=
  MkLockOrder (lo_functionId order) (lo_firstLockId order) (lo_secondLockId order) (lo_location order)
    (lo_heldLocks order) (lo_inRootTask order) (lo_liveEntries order) (lo_startedEntries order)
    (lo_lowerAddressFirst order) (lo_secondIsRecursive order) true.

(** One order of a function: left open, left to the calls, or kept. *)
Definition fileOrder (function : string) (leftToCalls callsHoldDifferentLocks spawnedApart : bool)
    (acc : OrderState * gset string) (order : LockOrderFact) : OrderState * gset string :=
  let '(st, sharedOrders) := acc in
  if isOpenLockOrder order then
    (MkOrderState (addOpenLockOrder (os_open st) order false).1 (os_facts st) (os_judgedAtCalls st),
     sharedOrders)
  else if leftToCalls && negb (bool_decide (lo_firstLockId order = lo_secondLockId order)) &&
          (callsHoldDifferentLocks || isHeldThroughParameter order) then
    (MkOrderState (os_open st) (os_facts st)
       (<[function := default [] (os_judgedAtCalls st !! function) ++ [order]]> (os_judgedAtCalls st)),
     sharedOrders)
  else
    (MkOrderState (os_open st) (addLockOrder (os_facts st) order) (os_judgedAtCalls st),
     if spawnedApart then {[lockOrderIdentity order]} ∪ sharedOrders else sharedOrders).

(** An order of the spawned thread alone. *)
Definition fileSpawnedOrder (sharedOrders : gset string) (st : OrderState) (order : LockOrderFact)
  : OrderState :=
  if isOpenLockOrder order || bool_decide (lockOrderIdentity order ∈ sharedOrders) then st
  else MkOrderState (os_open st) (addLockOrder (os_facts st) (set_boundBySpawn order))
         (os_judgedAtCalls st).

Definition fileFunction (runOnlyByDirectCalls calledUnderDifferentLocks : gset string)
    (st : OrderState) (function : string) : OrderState :=
  let entryLocks := default ∅ (entryLocksByFunction lockPropagation !! function) in
  let spawnedApart := match sharedObjectBindings !! function with
                      | Some binding => so_runByDirectCalls binding
                      | None => false
                      end in
  let inRootTask := bool_decide (function ∈ tc_rootTaskFunctions taskConcurrency) in
  let '(st, sharedOrders) :=
    foldl (fileOrder function (bool_decide (function ∈ runOnlyByDirectCalls) || spawnedApart)
             (bool_decide (function ∈ calledUnderDifferentLocks)) spawnedApart)
      (st, ∅) (set_inRootTask inRootTask <$> collect function entryLocks false) in
  if spawnedApart then foldl (fileSpawnedOrder sharedOrders) st (collect function entryLocks true)
  else st.

(** ** The calls *)

(** The object the thread started on the caller alone holds. *)
Definition spawnedOn (site : DirectCallSite) : option SharedObjectBinding :=
  match sharedObjectBindings !! dcs_callerFunctionId site with
  | Some object =>
      if so_keptForLackOfProof object || so_runByDirectCalls object then Some object else None
  | None => None
  end.

Definition lockOrderCall (site : DirectCallSite) (call : nat) : LockOrderCall :=
  MkLockOrderCall site
    (argumentLocks
       (match spawnedOn site with
        | None => sharedObjectBindings !! dcs_callerFunctionId site
        | Some _ => None
        end) call)
    (default ∅ (effectiveHeldLocksByCall lockPropagation !! call))
    (default ∅ (entryLocksByFunction lockPropagation !! dcs_calleeFunctionId site))
    (default ∅ (tc_liveEntriesAtInstruction taskConcurrency !! call))
    (default ∅ (tc_startedEntriesAtInstruction taskConcurrency !! call))
    (bool_decide (dcs_callerFunctionId site ∈ tc_rootTaskFunctions taskConcurrency)).

Definition spawnedCall (site : DirectCallSite) (call : nat) (object : SharedObjectBinding)
  : LockOrderCall :=
  let frame := lockOrderCall site call in
  MkLockOrderCall site (argumentLocks (Some object) call)
    (locksOnSharedObject (lc_heldAtCall frame) object) (lc_calleeEntryLocks frame)
    (lc_liveAtCall frame) (lc_startedAtCall frame) false.

Definition calleeOrders (st : OrderState) (callee : string) : list LockOrderFact :=
  kp_items (oo_kept (openOf (os_open st) callee)) ++
  default [] (os_judgedAtCalls st !! callee).

(** An instance of an order of the callee, as an order of the caller. *)
Definition addInstance (throughRecursion : bool) (instance : LockOrderFact) (st : OrderState)
  : (OrderState * bool) + Empty_set :=
  inl (if isOpenLockOrder instance
       then let '(open, changed) := addOpenLockOrder (os_open st) instance throughRecursion in
            (MkOrderState open (os_facts st) (os_judgedAtCalls st), changed)
       else (MkOrderState (os_open st) (addLockOrder (os_facts st) instance) (os_judgedAtCalls st), false)).

Definition addSpawnedInstance (object : SharedObjectBinding) (sharedOrders : gset string)
    (st : OrderState) (instance : LockOrderFact) : OrderState :=
  fileSpawnedOrder sharedOrders st
    (set_heldLocks instance (gatesAmong (lo_heldLocks instance) (Some object))).

Definition orderSite (recursionCalls : gset nat) (site : DirectCallSite) (st : OrderState)
  : (OrderState * bool) + Empty_set :=
  match dcs_call site with
  | None => inl (st, false)
  | Some call =>
      if negb (takesCalleeLockOrders site) then inl (st, false)
      else
        let orders := calleeOrders st (dcs_calleeFunctionId site) in
        let instances := orders ≫= instantiateAtCall (lockOrderCall site call) in
        match spawnedOn site with
        | None => each (addInstance (bool_decide (call ∈ recursionCalls))) instances st
        | Some object =>
            result ←! if so_runByDirectCalls object
                      then each (addInstance (bool_decide (call ∈ recursionCalls))) instances st
                      else inl (st, false);
            let sharedOrders := if so_runByDirectCalls object
              then list_to_set (lockOrderIdentity <$>
                     List.filter (λ instance, negb (isOpenLockOrder instance)) instances)
              else ∅ in
            inl (foldl (addSpawnedInstance object sharedOrders) result.1
                   (orders ≫= instantiateAtCall (spawnedCall site call object)), result.2)
        end
  end.

Definition recursionCallsOf (sites : list DirectCallSite) : option (gset nat) :=
  callsClosingCycles (List.filter takesCalleeLockOrders sites).

(** The orders of the unit's functions, in the order of the module, and the rounds;
    [None] when the fuel runs out. *)
Definition lockOrders_of (fuel : nat) (functions : list string) (sites : list DirectCallSite)
    (threadEntries : gmap string EntryConcurrencyInfo) : option OrderState :=
  let filed := foldl (fileFunction (functionsRunOnlyByDirectCalls sites threadEntries)
                        (functionsCalledUnderDifferentLocks sites))
                 (MkOrderState ∅ nothing_kept ∅) functions in
  recursionCalls ← recursionCallsOf sites;
  match rounds (each (orderSite recursionCalls) sites) fuel filed with
  | Some (inl st) => Some st
  | _ => None
  end.
End unit.
