(* ===== verification/LockOrderFactsProps.v ===== *)
(** Instantiating lock orders at calls settles: the rounds end whatever the calls,
    recursion included; everything kept comes from the functions' own orders by
    calls; and at the end every call is accounted for, unless a recursion brought its
    caller as many orders as it may. *)

From S2P Require Import Prelude Text Diagnostics Facts LockIds CallGraph CallCycles CallCyclesProps Rounds KeyIndex Kept.
From S2P Require Import LockEffects LockScope LockPropagation LockOrderCollector LockOrderFacts.

(** ** The locks of kept orders *)

Definition order_ids (o : LockOrderFact) : string * string := (lo_firstLockId o, lo_secondLockId o).

Lemma order_ids_le l l' : items_le l l' → order_ids <$> l `prefix_of` order_ids <$> l'.
Proof. by apply items_le_fmap. Qed.

Lemma keepLockOrder_ids P kept o :
  (∀ a b, P a → P b → key a = key b → P (merge_threads a b)) →
  kept_ok P kept → P o →
  let kept' := (keep kept o).1 in
  (order_ids <$> kp_items kept' = order_ids <$> kp_items kept ∧
   length (kp_items kept') = length (kp_items kept)) ∨
  (order_ids <$> kp_items kept' = (order_ids <$> kp_items kept) ++ [order_ids o] ∧
   length (kp_items kept') = S (length (kp_items kept))).
Proof.
  intros Hmerge Hok Ho. pose proof (keep_ok P kept o Hmerge Hok Ho) as H.
  destruct (keep kept o) as [kept' changed]. cbn. destruct H as (_ & Hle & _ & [Hlen|E] & _).
  - left. split; [|done]. symmetry. apply prefix_length_eq; [by apply order_ids_le|].
    rewrite !length_fmap. lia.
  - right. rewrite E, fmap_app, length_app. cbn. split; [done|lia].
Qed.

Lemma filter_sublist {A} (P : A → Prop) `{!∀ x, Decision (P x)} (l : list A) : filter P l `sublist_of` l.
Proof.
  induction l as [|x l IH]; [done|]. rewrite filter_cons. destruct (decide (P x)); by constructor.
Qed.

(** The orders that name a lock outside the set. *)
Definition loose (outside : gset string) (ids : list (string * string)) : nat :=
  length (filter (λ p, ¬ (p.1 ∈ outside ∧ p.2 ∈ outside)) ids).

Lemma loose_mono outside outside' ids : outside ⊆ outside' → loose outside' ids ≤ loose outside ids.
Proof.
  intros Hsub. unfold loose. apply submseteq_length, sublist_submseteq.
  induction ids as [|p ids IH]; [done|]. rewrite !filter_cons.
  destruct (decide (¬ (p.1 ∈ outside' ∧ p.2 ∈ outside'))) as [H'|H'];
    destruct (decide (¬ (p.1 ∈ outside ∧ p.2 ∈ outside))) as [H|H].
  - by apply sublist_skip.
  - exfalso. apply H. intros [? ?]. apply H'. split; set_solver.
  - by apply sublist_cons.
  - done.
Qed.

Lemma loose_snoc outside ids p :
  loose outside (ids ++ [p]) ≤ S (loose outside ids) ∧
  (p.1 ∈ outside → p.2 ∈ outside → loose outside (ids ++ [p]) = loose outside ids).
Proof.
  unfold loose. rewrite filter_app, length_app, filter_cons, filter_nil.
  destruct (decide (¬ (p.1 ∈ outside ∧ p.2 ∈ outside))) as [H|H]; cbn; split; try lia.
  intros H1 H2. by destruct H.
Qed.

(** ** Open orders of one function *)

Record open_le (open open' : OpenLockOrders) : Prop := {
  ol_orders : items_le (kp_items (oo_kept open)) (kp_items (oo_kept open'));
  ol_outside : oo_lockIdsOutsideRecursion open ⊆ oo_lockIdsOutsideRecursion open';
  ol_count : oo_ordersOnLocksOnlyARecursionNames open ≤ oo_ordersOnLocksOnlyARecursionNames open';
}.

#[export] Instance open_le_preorder : PreOrder open_le.
Proof.
  split; [by intros open; split|]. intros o1 o2 o3 [H1 H2 H3] [H4 H5 H6].
  split; [by etrans|set_solver|lia].
Qed.

Section open.
Context (P : LockOrderFact → Prop).
Hypothesis P_merge : ∀ a b, P a → P b → key a = key b → P (merge_threads a b).

Abbreviation orders_of open := (kp_items (oo_kept open)).

Record open_ok (open : OpenLockOrders) : Prop := {
  ok_kept : kept_ok P (oo_kept open);
  ok_loose : loose (oo_lockIdsOutsideRecursion open) (order_ids <$> orders_of open)
    ≤ oo_ordersOnLocksOnlyARecursionNames open;
  ok_cap : oo_ordersOnLocksOnlyARecursionNames open ≤ kMaxOrdersOnLocksOnlyARecursionNames;
}.

Lemma no_open_orders_ok : open_ok no_open_orders.
Proof. split; cbn; [split; cbn; [apply indexed_nil|by intros ? ?%elem_of_nil]|done|unfold kMaxOrdersOnLocksOnlyARecursionNames; lia]. Qed.

(** The function already has as many orders through recursion as it may. *)
Definition full (open : OpenLockOrders) : Prop :=
  kMaxOrdersOnLocksOnlyARecursionNames ≤ oo_ordersOnLocksOnlyARecursionNames open.

Lemma addOpen_ok open o throughRecursion :
  open_ok open → P o →
  let '(open', changed) := addOpen open o throughRecursion in
  open_ok open' ∧ open_le open open' ∧
  (kept_in (orders_of open') o ∨ (throughRecursion = true ∧ full open')) ∧
  oo_lockIdsOutsideRecursion open' ⊆ oo_lockIdsOutsideRecursion open ∪
    (if throughRecursion then ∅ else {[lo_firstLockId o; lo_secondLockId o]}) ∧
  if changed then weight (orders_of open) < weight (orders_of open') else orders_of open' = orders_of open.
Proof.
  intros [Hk Hl Hc] Ho. pose proof (keep_ok P (oo_kept open) o P_merge Hk Ho) as Hkeep.
  pose proof (keepLockOrder_ids P (oo_kept open) o P_merge Hk Ho) as Hids. unfold addOpen, keepLockOrder.
  destruct (keep (oo_kept open) o) as [kept changed]. cbn [fst] in Hids.
  destruct Hkeep as (Hok & Hle & Hin & _ & Hch).
  set (outside := oo_lockIdsOutsideRecursion open) in *. set (count := oo_ordersOnLocksOnlyARecursionNames open) in *.
  destruct throughRecursion; cbn [negb].
  - case_bool_decide as H1; case_bool_decide as H2; cbn [andb].
    1:{ split_and!; [split; cbn; [done| |done]|split; cbn; [done|done|lia]|by left|set_solver|done].
        destruct Hids as [[-> _]|[-> _]]; [done|]. by rewrite (proj2 (loose_snoc _ _ _)). }
    all: destruct (_ <=? count) eqn:Ecap;
      [apply Nat.leb_le in Ecap; split_and!; [done|by split|by right|set_solver|done]
      |apply Nat.leb_gt in Ecap].
    all: split_and!; [split; cbn; [done| |]|split; cbn; [done|done|lia]|by left|set_solver|done].
    all: pose proof (loose_snoc outside (order_ids <$> orders_of open) (order_ids o)) as [Hs _].
    all: destruct Hids as [[Hids Hlen]|[Hids Hlen]]; rewrite ?Hids, ?Hlen; lia.
  - split_and!; [split; cbn; [done| |done]|split; cbn; [done|set_solver|lia]|by left|set_solver|done].
    pose proof (loose_mono outside ({[lo_firstLockId o; lo_secondLockId o]} ∪ outside)
      (order_ids <$> orders_of open) ltac:(set_solver)) as Hm.
    destruct Hids as [[-> _]|[-> _]]; [lia|]. rewrite (proj2 (loose_snoc _ _ _)); cbn; [lia|set_solver|set_solver].
Qed.

(** How many orders a function can have on given locks at given places. *)
Context (f : string) (places : list SourceLocation).
Hypothesis P_place : ∀ o, P o → lo_functionId o = f ∧ lo_location o ∈ places.

Definition key_at (place : SourceLocation) (p : string * string) (low bound : bool) : string :=
  lockOrderKey (MkLockOrder f p.1 p.2 place ∅ false ∅ ∅ low false bound).

Definition keys_on (outside : gset string) : list string :=
  place ← places; a ← elements outside; b ← elements outside; low ← [false; true]; bound ← [false; true];
  [key_at place (a, b) low bound].

Lemma bind_length_const {A B} (g : A → list B) n l :
  (∀ x, length (g x) = n) → length (l ≫= g) = length l * n.
Proof. intros Hg. induction l as [|x l IH]; [done|]. rewrite bind_cons, length_app, Hg, IH. cbn. lia. Qed.

Lemma bind_length_le {A B} (g : A → list B) n l :
  (∀ x, length (g x) ≤ n) → length (l ≫= g) ≤ length l * n.
Proof. intros Hg. induction l as [|x l IH]; [done|]. rewrite bind_cons, length_app. cbn. specialize (Hg x). lia. Qed.

Lemma keys_on_length outside : length (keys_on outside) = length places * (size outside * (size outside * 4)).
Proof.
  unfold keys_on. apply bind_length_const. intros place.
  apply (bind_length_const _ (size outside * 4)). intros a.
  apply (bind_length_const _ 4). done.
Qed.

Lemma orders_bound open :
  open_ok open → length (orders_of open) ≤ kMaxOrdersOnLocksOnlyARecursionNames +
    length places * (size (oo_lockIdsOutsideRecursion open) * (size (oo_lockIdsOutsideRecursion open) * 4)).
Proof.
  intros [[Hx Hall] Hl Hc]. set (outside := oo_lockIdsOutsideRecursion open) in *.
  set (tight := filter (λ o, lo_firstLockId o ∈ outside ∧ lo_secondLockId o ∈ outside) (orders_of open)).
  assert (length (orders_of open) = length tight + loose outside (order_ids <$> orders_of open)) as ->.
  { unfold tight, loose. clear. induction (orders_of open) as [|o l IH]; [done|].
    rewrite fmap_cons, !filter_cons. cbn [length order_ids fst snd] in *.
    destruct (decide (lo_firstLockId o ∈ outside ∧ lo_secondLockId o ∈ outside)) as [H|H];
      [rewrite decide_False by tauto|rewrite decide_True by tauto]; cbn [length]; lia. }
  enough (length tight ≤ length (keys_on outside)) as Hlen by (rewrite keys_on_length in Hlen; lia).
  rewrite <- (length_fmap lockOrderKey tight). apply submseteq_length, NoDup_submseteq.
  - eapply sublist_NoDup; [by eapply indexed_keys_NoDup|]. apply fmap_sublist, filter_sublist.
  - intros key (o & -> & [[H1 H2] Hin]%list_elem_of_filter)%list_elem_of_fmap.
    destruct (P_place o (Hall o Hin)) as [Hf Hp]. unfold keys_on.
    apply list_elem_of_bind. exists (lo_location o). split; [|done].
    apply list_elem_of_bind. exists (lo_firstLockId o). split; [|by apply elem_of_elements].
    apply list_elem_of_bind. exists (lo_secondLockId o). split; [|by apply elem_of_elements].
    apply list_elem_of_bind. exists (lo_lowerAddressFirst o).
    split; [|destruct (lo_lowerAddressFirst o); set_solver].
    apply list_elem_of_bind. exists (lo_boundBySpawn o).
    split; [|destruct (lo_boundBySpawn o); set_solver].
    apply list_elem_of_singleton. unfold key_at, lockOrderKey. cbn. by rewrite Hf.
Qed.
End open.

(** ** The rounds over the calls *)

Section settle.
Context (callsStandardLibrary : nat → bool).
Context (sharedObjectBindings : SharedObjectBindings).
Context (lockPropagation : LockPropagationResult) (taskConcurrency : TaskConcurrencyResult).
Context (argumentLocks : option SharedObjectBinding → nat → list (option string)).
Context (collect : string → gset string → bool → list LockOrderFact).
Context (functions : list string) (sites : list DirectCallSite) (recursionCalls : gset nat).

Abbreviation takes := (takesCalleeLockOrders callsStandardLibrary).
Abbreviation frame := (lockOrderCall sharedObjectBindings lockPropagation taskConcurrency argumentLocks).
Abbreviation thread := (spawnedCall sharedObjectBindings lockPropagation taskConcurrency argumentLocks).
Abbreviation entry_locks f := (default ∅ (entryLocksByFunction lockPropagation !! f)).
Abbreviation in_root f := (bool_decide (f ∈ tc_rootTaskFunctions taskConcurrency)).

(** What is kept of a closed order: its gates are the locks every frame names alike. *)
Definition closed_order (o : LockOrderFact) : LockOrderFact :=
  set_heldLocks o (filter (λ lockId, namesCallerFrame lockId = false) (lo_heldLocks o)).

Definition spawned_order (object : SharedObjectBinding) (o : LockOrderFact) : LockOrderFact :=
  set_heldLocks o (gatesAmong (lo_heldLocks o) (Some object)).

(** The orders that come from the functions' own by calls. *)
Inductive derives : LockOrderFact → Prop :=
  | derives_own f o : f ∈ functions → o ∈ collect f (entry_locks f) false →
      derives (set_inRootTask (in_root f) o)
  | derives_thread f o : f ∈ functions → o ∈ collect f (entry_locks f) true → derives (set_boundBySpawn o)
  | derives_call site call o o' : site ∈ sites → takes site = true → dcs_call site = Some call →
      derives o → o' ∈ instantiateAtCall (frame site call) o → derives o'
  | derives_spawned_call site call object o o' : site ∈ sites → takes site = true →
      dcs_call site = Some call → spawnedOn sharedObjectBindings site = Some object →
      derives o → o' ∈ instantiateAtCall (thread site call object) o →
      derives (set_boundBySpawn (spawned_order object o'))
  | derives_closed o : derives o → derives (closed_order o)
  | derives_merged o o' : derives o → derives o' → key o = key o' →
      derives (merge_threads o o').

(** What stays fixed during the rounds: the orders left to the calls, the threads,
    the places, the locks and the functions there are. *)
Context (judged : gmap string (list LockOrderFact)).
Context (threads : ThreadEntrySet) (places : list SourceLocation) (ownIds : gset string).
Context (owners : gset string).

Record order_ok (f : string) (o : LockOrderFact) : Prop := {
  rk_function : lo_functionId o = f;
  rk_place : lo_location o ∈ places;
  rk_live : lo_liveEntries o ⊆ threads;
  rk_started : lo_startedEntries o ⊆ threads;
  rk_derives : derives o;
}.

Lemma order_ok_merge f a b :
  order_ok f a → order_ok f b → key a = key b → order_ok f (merge_threads a b).
Proof.
  intros [H1 H2 H3 H4 H5] [H6 H7 H8 H9 H10] Hk. split; cbn; [done|done|set_solver|set_solver|].
  by apply derives_merged.
Qed.

Hypothesis owners_callers : ∀ site, site ∈ sites → dcs_callerFunctionId site ∈ owners.
Hypothesis places_sites : ∀ site, site ∈ sites → dcs_userLocation site ∈ places.
Hypothesis judged_ok : ∀ f o, o ∈ default [] (judged !! f) →
  lo_liveEntries o ⊆ threads ∧ lo_startedEntries o ⊆ threads ∧ derives o.

Abbreviation open_of st f := (openOf (os_open st) f).
Abbreviation open_orders st f := (kp_items (oo_kept (open_of st f))).
Abbreviation outside_of st f := (oo_lockIdsOutsideRecursion (open_of st f)).

(** The locks an order of the callee names at a call. *)
Definition ids_at (call : LockOrderCall) (p : string * string) : list string :=
  option_list (lockAtCall call p.2) ++ firstsAtCall call p.1.

(** A lock of a function's orders that no recursion brought. *)
Definition brought (st : OrderState) (f lockId : string) : Prop :=
  lockId ∈ ownIds ∨ ∃ site call p, site ∈ sites ∧ takes site = true ∧ dcs_call site = Some call ∧
    call ∉ recursionCalls ∧ dcs_callerFunctionId site = f ∧
    p ∈ order_ids <$> calleeOrders st (dcs_calleeFunctionId site) ∧ lockId ∈ ids_at (frame site call) p.

Record state_ok (st : OrderState) : Prop := {
  sk_judged : os_judgedAtCalls st = judged;
  sk_open : ∀ f, open_ok (order_ok f) (open_of st f);
  sk_owners : ∀ f, open_orders st f ≠ [] → f ∈ owners;
  sk_outside : ∀ f lockId, lockId ∈ outside_of st f → brought st f lockId;
  sk_facts : kept_ok derives (os_facts st);
}.

Record state_le (st st' : OrderState) : Prop := {
  sl_judged : os_judgedAtCalls st' = os_judgedAtCalls st;
  sl_open : ∀ f, open_le (open_of st f) (open_of st' f);
  sl_facts : items_le (kp_items (os_facts st)) (kp_items (os_facts st'));
}.

#[local] Instance state_le_preorder : PreOrder state_le.
Proof.
  split; [by intros st; split|]. intros s1 s2 s3 [H1 H2 H3] [H4 H5 H6].
  split; [congruence| |by etrans]. intros f. etrans; [apply H2|apply H5].
Qed.

(** The same open orders: all a round looks at. *)
Definition same_open (st st' : OrderState) : Prop :=
  state_le st st' ∧ ∀ f, open_orders st' f = open_orders st f.

#[local] Instance same_open_preorder : PreOrder same_open.
Proof.
  split; [by intros st; split|]. intros s1 s2 s3 [H1 H2] [H3 H4]. split; [by etrans|]. congruence.
Qed.

Definition open_weight (st : OrderState) : nat :=
  sum_list_with (λ f, weight (open_orders st f)) (elements owners).

Lemma open_weight_mono st st' : state_le st st' → open_weight st ≤ open_weight st'.
Proof. intros [_ H _]. apply sum_list_with_le. intros f _. apply weight_le, H. Qed.

Lemma calleeOrders_ids st st' callee p :
  state_le st st' → p ∈ order_ids <$> calleeOrders st callee → p ∈ order_ids <$> calleeOrders st' callee.
Proof.
  intros [Hj Ho _]. unfold calleeOrders. rewrite Hj, !fmap_app, !elem_of_app.
  intros [H|H]; [left|by right]. destruct (order_ids_le _ _ (ol_orders _ _ (Ho callee))) as [k ->].
  apply elem_of_app. by left.
Qed.

Lemma brought_le st st' f lockId : state_le st st' → brought st f lockId → brought st' f lockId.
Proof.
  intros Hle [H|(site & call & p & H1 & H2 & H3 & H4 & H5 & H6 & H7)]; [by left|right].
  exists site, call, p. split_and!; try done. by eapply calleeOrders_ids.
Qed.

Lemma openOf_insert (m : OpenByFunction) f g open :
  openOf (<[f := open]> m) g = if decide (f = g) then open else openOf m g.
Proof.
  unfold openOf. destruct (decide (f = g)) as [<-|Hne]; [by rewrite lookup_insert_eq|by rewrite lookup_insert_ne].
Qed.

(** Where an instance ends up. *)
Definition placed (throughRecursion : bool) (o : LockOrderFact) (st : OrderState) : Prop :=
  if isOpenLockOrder o
  then kept_in (open_orders st (lo_functionId o)) o ∨
       (throughRecursion = true ∧ full (open_of st (lo_functionId o)))
  else kept_in (kp_items (os_facts st)) (closed_order o).

Lemma full_le open open' : open_le open open' → full open → full open'.
Proof. unfold full. intros [_ _ H] ?. lia. Qed.

Lemma placed_le throughRecursion o st st' :
  placed throughRecursion o st → state_le st st' → placed throughRecursion o st'.
Proof.
  unfold placed. intros H [_ Hopen Hfacts]. destruct (isOpenLockOrder o); [|by eapply kept_in_le].
  destruct H as [H|[H1 H2]]; [left; eapply kept_in_le; [apply Hopen|done]|right].
  split; [done|]. eapply full_le; [apply Hopen|done].
Qed.

(** An instance the calls of [st0] justify. *)
Record instance_ok (st0 : OrderState) (throughRecursion : bool) (o : LockOrderFact) : Prop := {
  ik_order : order_ok (lo_functionId o) o;
  ik_owner : lo_functionId o ∈ owners;
  ik_brought : throughRecursion = false → brought st0 (lo_functionId o) (lo_firstLockId o) ∧
    brought st0 (lo_functionId o) (lo_secondLockId o);
}.

Definition later_ok (st0 st : OrderState) : Prop := state_ok st ∧ state_le st0 st.

Lemma derives_merge_closed a b :
  derives a → derives b → key a = key b → derives (merge_threads a b).
Proof. apply derives_merged. Qed.

(** Keeping a closed order. *)
Lemma addFact_ok st o :
  state_ok st → derives o →
  let st' := MkOrderState (os_open st) (addLockOrder (os_facts st) o) (os_judgedAtCalls st) in
  state_ok st' ∧ same_open st st' ∧ kept_in (kp_items (os_facts st')) (closed_order o).
Proof.
  intros [H1 H2 H3 H4 H5] Ho. cbn.
  pose proof (keep_ok derives (os_facts st) (closed_order o) derives_merge_closed H5) as Hk.
  unfold addLockOrder, keepLockOrder. fold (closed_order o). destruct (keep (os_facts st) (closed_order o)) as [kept changed].
  destruct Hk as (Hok & Hle & Hin & _); [by apply derives_closed|]. cbn [fst].
  split_and!; [by split|split; [by split|done]|done].
Qed.

Lemma addInstance_ok st0 throughRecursion o st :
  instance_ok st0 throughRecursion o → later_ok st0 st →
  step_ok (later_ok st0) state_le (λ _ : Empty_set, False) open_weight same_open
    (placed throughRecursion o) st (addInstance throughRecursion o st).
Proof.
  intros [Hi Hown Hb] [Hok Hlater]. unfold addInstance, placed. destruct (isOpenLockOrder o) eqn:Eo.
  2:{ destruct (addFact_ok st o Hok (rk_derives _ _ Hi)) as (H1 & H2 & H3). cbn [step_ok].
      split_and!; [split; [done|]|apply H2|done|done]. etrans; [exact Hlater|apply H2]. }
  pose proof Hok as [H1 H2 H3 H4 H5]. set (f := lo_functionId o) in *.
  pose proof (addOpen_ok (order_ok f) (order_ok_merge f) (open_of st f) o throughRecursion (H2 f) Hi) as Hadd.
  unfold addOpenLockOrder. fold f. destruct (addOpen (open_of st f) o throughRecursion) as [open changed].
  destruct Hadd as (Hopen & Hle & Hin & Hout & Hch).
  set (st' := MkOrderState (<[f := open]> (os_open st)) (os_facts st) (os_judgedAtCalls st)).
  assert (open_of st' f = open) as Ef by (cbn; rewrite openOf_insert; by rewrite decide_True).
  assert (∀ g, g ≠ f → open_of st' g = open_of st g) as Eg.
  { intros g Hg. cbn. rewrite openOf_insert. by rewrite decide_False. }
  assert (state_le st st') as Hst.
  { split; [done| |done]. intros g. destruct (decide (g = f)) as [->|Hg]; [by rewrite Ef|by rewrite Eg]. }
  assert (state_ok st') as Hok'.
  { split; [done| | | |done]; intros g; (destruct (decide (g = f)) as [->|Hg]; [rewrite ?Ef|rewrite ?Eg by done]).
    - done.
    - apply H2.
    - done.
    - apply H3.
    - intros lockId Hid%Hout. apply elem_of_union in Hid as [Hid|Hid]; [by eapply brought_le, H4|].
      destruct throughRecursion; [set_solver|]. destruct (Hb eq_refl) as [Hb1 Hb2].
      apply elem_of_union in Hid as [->%elem_of_singleton| ->%elem_of_singleton];
        (eapply brought_le; [|done]; by etrans).
    - intros lockId Hid. eapply brought_le; [exact Hst|by apply H4]. }
  cbn [step_ok]. fold st'. split_and!; [split; [done|by etrans]|done|]. destruct changed.
  - unfold open_weight. apply (sum_list_with_lt _ _ _ f).
    + intros g _. apply weight_le, Hst.
    + by apply elem_of_elements.
    + by rewrite Ef.
  - split; [split; [done|]|by fold f; rewrite Ef].
    intros g. destruct (decide (g = f)) as [->|Hg]; [by rewrite Ef|by rewrite Eg].
Qed.

(** ** A call *)

Lemma calleeOrders_ok st callee o :
  state_ok st → o ∈ calleeOrders st callee →
  lo_liveEntries o ⊆ threads ∧ lo_startedEntries o ⊆ threads ∧ derives o.
Proof.
  intros [H1 H2 H3 H4 H5]. unfold calleeOrders. rewrite H1. intros [Ho|Ho]%elem_of_app; [|by eapply judged_ok].
  destruct (kk_all _ _ (ok_kept _ _ (H2 callee)) o Ho). done.
Qed.

Lemma instantiateAtCall_inv call o i :
  i ∈ instantiateAtCall call o →
  lo_functionId i = dcs_callerFunctionId (lc_site call) ∧ lo_location i = dcs_userLocation (lc_site call) ∧
  lo_liveEntries i ⊆ lo_liveEntries o ∧ lo_startedEntries i ⊆ lo_liveEntries o ∧
  lo_firstLockId i ∈ ids_at call (order_ids o) ∧ lo_secondLockId i ∈ ids_at call (order_ids o).
Proof.
  unfold instantiateAtCall. destruct (lockAtCall call (lo_secondLockId o)) as [second|] eqn:E; [|by intros ?%elem_of_nil].
  intros (first & Hf & Hi)%list_elem_of_omap. unfold instanceAtCall in Hi.
  destruct (_ && lo_secondIsRecursive o); [done|]. destruct (_ && (_ && _)); [done|]. injection Hi as <-. cbn.
  unfold ids_at. cbn [order_ids fst snd]. rewrite E. cbn [option_list].
  split_and!; [done|done|set_solver|set_solver|set_solver|set_solver].
Qed.

Lemma instance_justified st site call o i :
  state_ok st → site ∈ sites → takes site = true → dcs_call site = Some call →
  o ∈ calleeOrders st (dcs_calleeFunctionId site) → i ∈ instantiateAtCall (frame site call) o →
  instance_ok st (bool_decide (call ∈ recursionCalls)) i.
Proof.
  intros Hok Hs Ht Hc Ho Hi. destruct (calleeOrders_ok st _ o Hok Ho) as (Hl & Hst & Hd).
  destruct (instantiateAtCall_inv _ _ _ Hi) as (E1 & E2 & E3 & E4 & E5 & E6). cbn [lc_site lockOrderCall] in *.
  split.
  - split; [done|rewrite E2; by apply places_sites|set_solver|set_solver|]. by eapply derives_call.
  - rewrite E1. by apply owners_callers.
  - intros Hrec%bool_decide_eq_false. rewrite E1.
    assert (order_ids o ∈ order_ids <$> calleeOrders st (dcs_calleeFunctionId site)) by (by apply list_elem_of_fmap_2).
    split; right; exists site, call, (order_ids o); done.
Qed.

(** The closed orders every run of the caller takes alike. *)
Definition shared_identities (object : SharedObjectBinding) (instances : list LockOrderFact) : gset string :=
  if so_runByDirectCalls object
  then list_to_set (lockOrderIdentity <$> List.filter (λ i, negb (isOpenLockOrder i)) instances) else ∅.

Definition spawned_placed (sharedOrders : gset string) (o : LockOrderFact) (st : OrderState) : Prop :=
  isOpenLockOrder o = false → lockOrderIdentity o ∉ sharedOrders →
  kept_in (kp_items (os_facts st)) (closed_order (set_boundBySpawn o)).

Lemma fileSpawnedOrders_ok sharedOrders l st :
  state_ok st → (∀ o, o ∈ l → derives (set_boundBySpawn o)) →
  let st' := foldl (fileSpawnedOrder sharedOrders) st l in
  state_ok st' ∧ same_open st st' ∧ ∀ o, o ∈ l → spawned_placed sharedOrders o st'.
Proof.
  intros Hok Hl. cbn. induction l as [|o l IH] using rev_ind.
  { split_and!; [done|done|]. by intros ? ?%elem_of_nil. }
  destruct IH as (H1 & H2 & H3); [set_solver|]. rewrite foldl_snoc. set (st1 := foldl _ st l) in *.
  clearbody st1. unfold fileSpawnedOrder.
  destruct (isOpenLockOrder o) eqn:Eo; cbn [orb].
  { split_and!; [done|done|]. intros o' [Ho'| ->%list_elem_of_singleton]%elem_of_app; [auto|].
    intros Hc. congruence. }
  case_bool_decide as Hs.
  { split_and!; [done|done|]. intros o' [Ho'| ->%list_elem_of_singleton]%elem_of_app; [auto|]. intros _ Hn. by destruct Hn. }
  destruct (addFact_ok st1 (set_boundBySpawn o) H1) as (H4 & H5 & H6); [apply Hl; set_solver|].
  split_and!; [done|by etrans|]. intros o' [Ho'| ->%list_elem_of_singleton]%elem_of_app; [|by intros _ _].
  intros Hc Hn. eapply kept_in_le; [apply (sl_facts _ _ (proj1 H5))|]. by apply H3.
Qed.

(** A call whose callee's orders are all accounted for. *)
Definition site_settled (site : DirectCallSite) (st : OrderState) : Prop :=
  ∀ call o, dcs_call site = Some call → takes site = true →
    o ∈ calleeOrders st (dcs_calleeFunctionId site) →
    ((∀ object, spawnedOn sharedObjectBindings site = Some object → so_runByDirectCalls object = true) →
       ∀ i, i ∈ instantiateAtCall (frame site call) o →
         placed (bool_decide (call ∈ recursionCalls)) i st) ∧
    (∀ object i, spawnedOn sharedObjectBindings site = Some object →
       i ∈ instantiateAtCall (thread site call object) o →
       spawned_placed (shared_identities object
           (calleeOrders st (dcs_calleeFunctionId site) ≫= instantiateAtCall (frame site call)))
         (spawned_order object i) st).

Lemma calleeOrders_same st st' callee : same_open st st' → calleeOrders st' callee = calleeOrders st callee.
Proof. intros [[Hj _ _] Ho]. unfold calleeOrders. by rewrite Hj, Ho. Qed.

Lemma site_settled_same site st st' : site_settled site st → same_open st st' → site_settled site st'.
Proof.
  intros H Hsame call o Hc Ht. rewrite (calleeOrders_same _ _ _ Hsame). intros Ho.
  destruct (H call o Hc Ht Ho) as [H1 H2]. destruct Hsame as [Hle _]. split.
  - intros Hobj i Hi. eapply placed_le; [by apply H1|done].
  - intros object i Hobj Hi Hopen Hn. eapply kept_in_le; [apply (sl_facts _ _ Hle)|by apply H2].
Qed.

Abbreviation visit := (orderSite callsStandardLibrary sharedObjectBindings lockPropagation taskConcurrency
  argumentLocks recursionCalls).
Definition order_step := step_ok state_ok state_le (λ _ : Empty_set, False) open_weight same_open.

Lemma instances_ok st site call :
  state_ok st → site ∈ sites → takes site = true → dcs_call site = Some call →
  let instances := calleeOrders st (dcs_calleeFunctionId site) ≫= instantiateAtCall (frame site call) in
  order_step (λ st', ∀ i, i ∈ instances → placed (bool_decide (call ∈ recursionCalls)) i st') st
    (each (addInstance (bool_decide (call ∈ recursionCalls))) instances st).
Proof.
  intros Hok Hs Ht Hc instances. set (rec := bool_decide (call ∈ recursionCalls)).
  assert (Forall (instance_ok st rec) instances) as Hall.
  { apply Forall_forall. intros i (o & Hi & Ho)%list_elem_of_bind. by eapply instance_justified. }
  pose proof (each_ok (later_ok st) state_le (λ _ : Empty_set, False) open_weight open_weight_mono same_open
    (instance_ok st rec) (placed rec) (addInstance rec) instances st (addInstance_ok st rec)) as H.
  specialize (H ltac:(intros i s1 s2 Hp [Hle _]; by eapply placed_le) Hall (conj Hok (reflexivity st))).
  unfold order_step, step_ok in *. destruct (each _ instances st) as [[st' changed]|[]].
  destruct H as ([H1 _] & H2 & H3). split_and!; [done|done|]. destruct changed; [done|].
  destruct H3 as [H3 H4]. split; [done|]. by apply Forall_forall.
Qed.

(** What the spawned thread alone takes at a call. *)
Lemma spawned_instances_ok st st1 site call object :
  state_ok st → state_ok st1 →
  site ∈ sites → takes site = true → dcs_call site = Some call →
  spawnedOn sharedObjectBindings site = Some object →
  let orders := calleeOrders st (dcs_calleeFunctionId site) in
  let sharedOrders := shared_identities object (orders ≫= instantiateAtCall (frame site call)) in
  let spawned := orders ≫= instantiateAtCall (thread site call object) in
  let st2 := foldl (addSpawnedInstance object sharedOrders) st1 spawned in
  state_ok st2 ∧ same_open st1 st2 ∧
  ∀ i, i ∈ spawned → spawned_placed sharedOrders (spawned_order object i) st2.
Proof.
  intros Hok Hok1 Hs Ht Hc Hobj orders sharedOrders spawned st2.
  destruct (fileSpawnedOrders_ok sharedOrders (spawned_order object <$> spawned) st1 Hok1) as (H1 & H2 & H3).
  { intros ? (i & -> & (o & Hi & Ho)%list_elem_of_bind)%list_elem_of_fmap.
    apply (derives_spawned_call site call object o i); try done. apply (calleeOrders_ok st _ o Hok Ho). }
  rewrite foldl_fmap in H1, H2, H3. fold st2 in H1, H2, H3. split_and!; [done|done|].
  intros i Hi. by apply H3, list_elem_of_fmap_2.
Qed.

Lemma orderSite_ok site st : site ∈ sites → state_ok st → order_step (site_settled site) st (visit site st).
Proof.
  intros Hs Hok. unfold orderSite.
  destruct (dcs_call site) as [call|] eqn:Ec.
  2:{ split_and!; [done|done|done|]. intros call o E. congruence. }
  destruct (takes site) eqn:Et; cbn [negb].
  2:{ split_and!; [done|done|done|]. intros call' o _ E. congruence. }
  pose proof (instances_ok st site call Hok Hs Et Ec) as Hinst.
  set (instances := calleeOrders st (dcs_calleeFunctionId site) ≫= instantiateAtCall (frame site call)) in *.
  destruct (spawnedOn sharedObjectBindings site) as [object|] eqn:Eobj.
  2:{ eapply step_ok_weaken; [exact Hinst|]. intros st' Hok' Hsame Hplaced call' o E _. injection (eq_trans (eq_sym Ec) E) as <-.
      rewrite (calleeOrders_same _ _ _ Hsame). intros Ho. split; [|congruence].
      intros _ i Hi. apply Hplaced. apply list_elem_of_bind. eauto. }
  set (sharedOrders := if so_runByDirectCalls object then _ else ∅).
  assert (sharedOrders = shared_identities object instances) as -> by done.
  assert (order_step (λ st', so_runByDirectCalls object = true → ∀ i, i ∈ instances →
      placed (bool_decide (call ∈ recursionCalls)) i st') st
    (if so_runByDirectCalls object then each (addInstance (bool_decide (call ∈ recursionCalls))) instances st
     else inl (st, false))) as Hfirst.
  { destruct (so_runByDirectCalls object); [|done]. eapply step_ok_weaken; [exact Hinst|]. auto. }
  destruct (if so_runByDirectCalls object then _ else _) as [[st1 changed]|[]]. cbn [bind_ok fst snd].
  destruct Hfirst as (Hok1 & Hle1 & Hch).
  destruct (spawned_instances_ok st st1 site call object Hok Hok1 Hs Et Ec Eobj) as (Hok2 & Hsame2 & Hsp).
  fold instances in Hok2, Hsame2, Hsp. set (st2 := foldl _ st1 _) in *.
  split_and!; [done|etrans; [done|apply Hsame2]|]. destruct changed.
  { eapply Nat.lt_le_trans; [exact Hch|]. apply open_weight_mono, Hsame2. }
  destruct Hch as [Hsame1 Hplaced]. assert (same_open st st2) as Hsame by (by etrans). split; [done|].
  intros call' o E _. injection (eq_trans (eq_sym Ec) E) as <-. rewrite (calleeOrders_same _ _ _ Hsame). intros Ho. split.
  - intros Hrun i Hi. eapply placed_le; [apply Hplaced|apply Hsame2]; [by apply Hrun|].
    apply list_elem_of_bind. eauto.
  - intros object' i E' Hi. injection (eq_trans (eq_sym Eobj) E') as <-. apply Hsp.
    apply list_elem_of_bind. eauto.
Qed.

Lemma orderRound_ok st :
  state_ok st → order_step (λ st', Forall (λ site, site_settled site st') sites) st (each visit sites st).
Proof.
  intros Hok. apply (each_ok state_ok state_le (λ _ : Empty_set, False) open_weight open_weight_mono same_open
    (λ site, site ∈ sites) site_settled visit); [|by apply site_settled_same|by apply Forall_forall|done].
  intros site st'. apply orderSite_ok.
Qed.

(** ** A bound on what the rounds keep *)

(** The calls that bring their caller locks without limit: those no cycle takes. *)
Definition follows (g f : string) : Prop :=
  ∃ site call, site ∈ sites ∧ takes site = true ∧ dcs_call site = Some call ∧ call ∉ recursionCalls ∧
    dcs_callerFunctionId site = f ∧ dcs_calleeFunctionId site = g.
Hypothesis follows_wf : well_founded follows.

Lemma ids_at_length call p : length (ids_at call p) ≤ 3 + size (lc_heldAtCall call).
Proof.
  unfold ids_at. rewrite length_app.
  assert (length (option_list (lockAtCall call p.2)) ≤ 1) by (destruct (lockAtCall call p.2); cbn; lia).
  enough (length (firstsAtCall call p.1) ≤ 2 + size (lc_heldAtCall call)) by lia. unfold firstsAtCall.
  case_bool_decide; [|destruct (lockAtCall call p.1); cbn; lia]. rewrite length_app. cbn [length].
  pose proof (List.filter_length_le (λ heldLock, negb (bool_decide (heldLock ∈ lc_calleeEntryLocks call)))
    (sorted_elements (lc_heldAtCall call))) as H'. unfold sorted_elements in H' at 2. rewrite sort_strings_perm in H'. unfold size, set_size. cbn [compose]. lia.
Qed.

(** The locks the calls of a function bring it. *)
Definition ids_through (st : OrderState) (f : string) (site : DirectCallSite) : list string :=
  match dcs_call site with
  | Some call =>
      if takes site && negb (bool_decide (call ∈ recursionCalls)) && bool_decide (dcs_callerFunctionId site = f)
      then (order_ids <$> calleeOrders st (dcs_calleeFunctionId site)) ≫= ids_at (frame site call) else []
  | None => []
  end.

Lemma outside_size st f :
  state_ok st → size (outside_of st f) ≤ size ownIds + length (sites ≫= ids_through st f).
Proof.
  intros Hok. transitivity (size (ownIds ∪ list_to_set (sites ≫= ids_through st f))).
  - apply subseteq_size. intros lockId H%(sk_outside _ Hok). apply elem_of_union.
    destruct H as [H|(site & call & p & H1 & H2 & H3 & H4 & H5 & H6 & H7)]; [by left|right].
    apply elem_of_list_to_set, list_elem_of_bind. exists site. split; [|done]. unfold ids_through.
    rewrite H3, H2, bool_decide_false, bool_decide_true by done. cbn. apply list_elem_of_bind. eauto.
  - rewrite size_union_alt. pose proof (size_list_to_set_le (sites ≫= ids_through st f)).
    enough (size (list_to_set (sites ≫= ids_through st f) ∖ ownIds : gset string)
      ≤ size (list_to_set (sites ≫= ids_through st f) : gset string)) by lia.
    apply subseteq_size. set_solver.
Qed.

Lemma bind_bounded {S A B} (I : S → Prop) (g : S → A → list B) l :
  (∀ x, x ∈ l → ∃ n, ∀ st, I st → length (g st x) ≤ n) → ∃ n, ∀ st, I st → length (l ≫= g st) ≤ n.
Proof.
  induction l as [|x l IH]; intros H; [by exists 0|].
  destruct IH as [n Hn]; [intros; apply H; by right|]. destruct (H x) as [m Hm]; [by left|].
  exists (m + n). intros st Hst. rewrite bind_cons, length_app. specialize (Hn st Hst). specialize (Hm st Hst). lia.
Qed.

Lemma orders_bounded f : ∃ n, ∀ st, state_ok st → length (open_orders st f) ≤ n.
Proof.
  induction (follows_wf f) as [f _ IH].
  destruct (bind_bounded state_ok (λ st, ids_through st f) sites) as [n Hn].
  - intros site Hs. unfold ids_through. destruct (dcs_call site) as [call|] eqn:Ec; [|by exists 0].
    destruct (takes site) eqn:Et; cbn [andb]; [|by exists 0].
    case_bool_decide as Hrec; cbn [negb andb]; [by exists 0|]. case_bool_decide as Hf; [|by exists 0].
    destruct (IH (dcs_calleeFunctionId site)) as [n Hn]; [by exists site, call|].
    exists ((n + length (default [] (judged !! dcs_calleeFunctionId site))) *
            (3 + size (lc_heldAtCall (frame site call)))).
    intros st Hok. specialize (Hn st Hok). unfold calleeOrders. rewrite (sk_judged _ Hok).
    etrans; [apply (bind_length_le _ (3 + size (lc_heldAtCall (frame site call)))); intros; apply ids_at_length|].
    rewrite length_fmap, length_app. apply Nat.mul_le_mono_r. lia.
  - set (size := size ownIds + n).
    exists (kMaxOrdersOnLocksOnlyARecursionNames + length places * (size * (size * 4))).
    intros st Hok. pose proof (outside_size st f Hok) as Hout. specialize (Hn st Hok).
    etrans; [apply (orders_bound (order_ok f) (order_ok_merge f) f places); [|apply (sk_open _ Hok)]; by intros o []|].
    apply Nat.add_le_mono_l, Nat.mul_le_mono_l. apply Nat.mul_le_mono; [unfold size; lia|].
    apply Nat.mul_le_mono_r. unfold size. lia.
Qed.

Lemma open_weight_le st f :
  state_ok st → weight (open_orders st f) ≤ length (open_orders st f) * S (2 * size threads).
Proof.
  intros Hok. apply weight_bound. intros o Ho.
  destruct (kk_all _ _ (ok_kept _ _ (sk_open _ Hok f)) o Ho) as [_ _ H1 H2 _].
  apply subseteq_size in H1, H2. unfold thread_count. cbn. lia.
Qed.

Lemma open_weight_bounded : ∃ bound, ∀ st, state_ok st → open_weight st ≤ bound.
Proof.
  unfold open_weight. induction (elements owners) as [|f fs [m Hm]]; [by exists 0|].
  destruct (orders_bounded f) as [n Hn]. exists (n * S (2 * size threads) + m). intros st Hok.
  cbn [sum_list_with]. specialize (Hm st Hok). specialize (Hn st Hok). pose proof (open_weight_le st f Hok). nia.
Qed.

Lemma order_rounds_total :
  ∃ enough, ∀ fuel st, enough ≤ fuel → state_ok st →
  ∃ st', rounds (each visit sites) fuel st = Some (inl st') ∧ state_ok st' ∧ state_le st st' ∧
    Forall (λ site, site_settled site st') sites.
Proof.
  destruct open_weight_bounded as [bound Hbound]. exists (S bound). intros fuel st Hfuel Hok.
  destruct (rounds_total _ _ _ _ _ _ _ orderRound_ok bound fuel st Hbound Hok) as ([st'|[]] & E & H); [lia|eauto].
Qed.
End settle.

(** ** The calls no cycle takes *)

Lemma acyclic_wf {A} `{!EqDecision A} (R : relation A) (l : list A) :
  (∀ x y, R x y → y ∈ l) → (∀ x, ¬ tc R x x) → well_founded R.
Proof.
  intros Hl Hirrefl. enough (∀ n visited x, length l - length visited ≤ n → NoDup visited → visited ⊆ l →
    (∀ v, v ∈ visited → tc R x v) → Acc R x) as H.
  { intros x. apply (H (length l) []); [cbn; lia|constructor|set_solver|]. by intros v ?%elem_of_nil. }
  induction n as [|n IH]; intros visited x Hn Hnd Hsub Hv; constructor; intros y Hy;
    (assert (NoDup (x :: visited)) as Hnd' by (constructor; [intros Hx; by apply (Hirrefl x), Hv|done]));
    (assert (x :: visited ⊆ l) as Hsub' by (intros v [->|Hin]%elem_of_cons; [by eapply Hl|by apply Hsub])).
  - pose proof (submseteq_length _ _ (NoDup_submseteq _ _ Hnd' Hsub')). cbn [length] in *. lia.
  - apply (IH (x :: visited)); [cbn [length]; lia|done|done|].
    intros v [->|Hin]%elem_of_cons; [by apply tc_once|]. eapply tc_l; [exact Hy|by apply Hv].
Qed.

Lemma follows_acyclic `{!HashOrder} callsStandardLibrary sites recursionCalls :
  (N.of_nat (size (functionsOf (calleesByCaller (List.filter (takesCalleeLockOrders callsStandardLibrary) sites))))
    ≤ 2 ^ 32)%N →
  recursionCallsOf callsStandardLibrary sites = Some recursionCalls →
  well_founded (follows callsStandardLibrary sites recursionCalls).
Proof.
  intros Hsmall E. destruct (callsClosingCycles_spec _ Hsmall) as (closing & E' & Hclosing).
  unfold recursionCallsOf in E. rewrite E' in E. injection E as ->.
  set (taken := List.filter (takesCalleeLockOrders callsStandardLibrary) sites) in *.
  set (reach := rtc (λ f g, ∃ s, s ∈ taken ∧ dcs_callerFunctionId s = f ∧ dcs_calleeFunctionId s = g)) in *.
  assert (∀ g f, follows callsStandardLibrary sites recursionCalls g f → reach f g ∧ ¬ reach g f) as Hstep.
  { intros g f (site & call & Hs & Ht & Hc & Hn & <- & <-).
    assert (site ∈ taken) as Hin by (by apply elem_of_filter_bool). split.
    - apply rtc_once. eauto.
    - intros Hr. apply Hn, Hclosing. eauto. }
  apply (acyclic_wf _ (dcs_callerFunctionId <$> sites)).
  - intros g f (site & call & Hs & _ & _ & _ & <- & _). by apply list_elem_of_fmap_2.
  - assert (∀ g f, tc (follows callsStandardLibrary sites recursionCalls) g f → reach f g ∧ ¬ reach g f) as Htc.
    { intros g f Hgf. induction Hgf as [g f Hgf|g h f Hgh _ [IH1 IH2]]; [by apply Hstep|].
      apply Hstep in Hgh as [H1 H2]. split; [by etrans|]. intros Hr. apply H2. by etrans. }
    intros f Hf. by apply Htc in Hf as [? []].
Qed.

(** ** Filing the functions' own orders *)

Section unit.
Context `{!HashOrder}.
Context (callsStandardLibrary : nat → bool).
Context (sharedObjectBindings : SharedObjectBindings).
Context (lockPropagation : LockPropagationResult) (taskConcurrency : TaskConcurrencyResult).
Context (argumentLocks : option SharedObjectBinding → nat → list (option string)).
Context (collect : string → gset string → bool → list LockOrderFact).
Context (functions : list string) (sites : list DirectCallSite).

Abbreviation entry_locks f := (default ∅ (entryLocksByFunction lockPropagation !! f)).
Abbreviation comes := (derives callsStandardLibrary sharedObjectBindings lockPropagation taskConcurrency
  argumentLocks collect functions sites).

(** Everything the collector finds. *)
Definition collected : list LockOrderFact :=
  functions ≫= λ f, collect f (entry_locks f) false ++ collect f (entry_locks f) true.

Lemma elem_of_collected f o spawned : f ∈ functions → o ∈ collect f (entry_locks f) spawned → o ∈ collected.
Proof. intros Hf Ho. apply list_elem_of_bind. exists f. split; [|done]. apply elem_of_app. destruct spawned; auto. Qed.

Definition own_threads : ThreadEntrySet := ⋃ ((λ o, lo_liveEntries o ∪ lo_startedEntries o) <$> collected).
Definition own_places : list SourceLocation := (lo_location <$> collected) ++ (dcs_userLocation <$> sites).
Definition own_ids : gset string :=
  list_to_set (lo_firstLockId <$> collected) ∪ list_to_set (lo_secondLockId <$> collected).
Definition own_functions : gset string :=
  list_to_set (lo_functionId <$> collected) ∪ list_to_set (dcs_callerFunctionId <$> sites).

Abbreviation filed_ok := (order_ok callsStandardLibrary sharedObjectBindings lockPropagation taskConcurrency
  argumentLocks collect functions sites own_threads own_places).

Lemma own_order_ok o o' :
  o ∈ collected → comes o' → lo_functionId o' = lo_functionId o → lo_location o' = lo_location o →
  lo_liveEntries o' = lo_liveEntries o → lo_startedEntries o' = lo_startedEntries o → filed_ok (lo_functionId o') o'.
Proof.
  intros Ho Hd E1 E2 E3 E4. split; [done| | | |done].
  - rewrite E2. apply elem_of_app. left. by apply list_elem_of_fmap_2.
  - rewrite E3. intros x Hx. apply elem_of_union_list. eexists. split; [by apply list_elem_of_fmap_2|set_solver].
  - rewrite E4. intros x Hx. apply elem_of_union_list. eexists. split; [by apply list_elem_of_fmap_2|set_solver].
Qed.

Record filing_ok (st : OrderState) : Prop := {
  fk_open : ∀ f, open_ok (filed_ok f) (openOf (os_open st) f);
  fk_owners : ∀ f, kp_items (oo_kept (openOf (os_open st) f)) ≠ [] → f ∈ own_functions;
  fk_outside : ∀ f, oo_lockIdsOutsideRecursion (openOf (os_open st) f) ⊆ own_ids;
  fk_facts : kept_ok comes (os_facts st);
  fk_judged : ∀ f o, o ∈ default [] (os_judgedAtCalls st !! f) → filed_ok (lo_functionId o) o;
}.

Lemma filing_start : filing_ok (MkOrderState ∅ nothing_kept ∅).
Proof.
  split; cbn; try intros f; rewrite ?lookup_empty; cbn.
  - apply no_open_orders_ok.
  - done.
  - done.
  - split; cbn; [apply indexed_nil|by intros ? ?%elem_of_nil].
  - by intros o ?%elem_of_nil.
Qed.

Lemma file_fact st o :
  filing_ok st → comes o →
  filing_ok (MkOrderState (os_open st) (addLockOrder (os_facts st) o) (os_judgedAtCalls st)).
Proof.
  intros [H1 H2 H3 H4 H5] Ho. split; [done..| |done]. cbn. unfold addLockOrder, keepLockOrder.
  pose proof (keep_ok comes (os_facts st) (closed_order o)) as Hk. fold (closed_order o).
  destruct (keep _ _) as [kept changed]. apply Hk; [apply derives_merged|done|by apply derives_closed].
Qed.

Lemma file_open st o :
  filing_ok st → filed_ok (lo_functionId o) o → o ∈ set_inRootTask true <$> collected ∨ o ∈ set_inRootTask false <$> collected →
  filing_ok (MkOrderState (addOpenLockOrder (os_open st) o false).1 (os_facts st) (os_judgedAtCalls st)).
Proof.
  intros [H1 H2 H3 H4 H5] Ho Hin. set (f := lo_functionId o) in *.
  assert (f ∈ own_functions ∧ lo_firstLockId o ∈ own_ids ∧ lo_secondLockId o ∈ own_ids) as (Hf & Ha & Hb).
  { unfold f, own_functions, own_ids. destruct Hin as [(o' & -> & Hin)%list_elem_of_fmap|(o' & -> & Hin)%list_elem_of_fmap];
      cbn; split_and!; apply elem_of_union; [left|left|right|left|left|right];
      apply elem_of_list_to_set; by apply list_elem_of_fmap_2. }
  unfold addOpenLockOrder. fold f.
  pose proof (addOpen_ok (filed_ok f) (order_ok_merge _ _ _ _ _ _ _ _ _ _ f) (openOf (os_open st) f) o false (H1 f) Ho) as Hadd.
  destruct (addOpen _ o false) as [open changed]. destruct Hadd as (Hopen & _ & _ & Hout & _). cbn [fst].
  split; cbn [os_open os_facts os_judgedAtCalls]; try done; intros g; rewrite openOf_insert;
    (destruct (decide (f = g)) as [<-|Hg]; [|auto]); [done|done|].
  intros x [Hx|[->%elem_of_singleton| ->%elem_of_singleton]%elem_of_union]%Hout%elem_of_union; [by apply (H3 f)|done|done].
Qed.

Lemma file_judged st f o :
  filing_ok st → filed_ok (lo_functionId o) o →
  filing_ok (MkOrderState (os_open st) (os_facts st)
    (<[f := default [] (os_judgedAtCalls st !! f) ++ [o]]> (os_judgedAtCalls st))).
Proof.
  intros [H1 H2 H3 H4 H5] Ho. split; cbn; [done..|]. intros g o'. destruct (decide (f = g)) as [<-|Hg].
  - rewrite lookup_insert_eq. cbn. intros [Hin| ->%list_elem_of_singleton]%elem_of_app; [by eapply H5|done].
  - rewrite lookup_insert_ne by done. apply H5.
Qed.

Lemma fileFunction_ok runOnlyByDirectCalls calledUnderDifferentLocks st f :
  f ∈ functions → filing_ok st →
  filing_ok (fileFunction sharedObjectBindings lockPropagation taskConcurrency collect runOnlyByDirectCalls
    calledUnderDifferentLocks st f).
Proof.
  intros Hf Hok. unfold fileFunction. set (spawnedApart := match _ with Some binding => _ | None => _ end).
  set (inRoot := bool_decide (f ∈ tc_rootTaskFunctions taskConcurrency)).
  set (step := fileOrder f _ _ _).
  assert (∀ l acc, (∀ o, o ∈ l → o ∈ collect f (entry_locks f) false) → filing_ok acc.1 →
    filing_ok (foldl step acc (set_inRootTask inRoot <$> l)).1) as Hown.
  { induction l as [|o l IH]; intros [st' shared] Hl Hok'; [done|]. rewrite fmap_cons. cbn [foldl].
    apply IH; [intros; apply Hl; by right|]. clear IH. specialize (Hl o ltac:(left)).
    pose proof (elem_of_collected _ _ _ Hf Hl) as Hin.
    assert (comes (set_inRootTask inRoot o)) as Hd by (by apply derives_own).
    pose proof (own_order_ok o (set_inRootTask inRoot o) Hin Hd eq_refl eq_refl eq_refl eq_refl) as Ho.
    unfold step, fileOrder. destruct (isOpenLockOrder _); [|destruct (_ && (_ || _))]; cbn [fst] in *.
    - apply file_open; [done|done|]. destruct inRoot; [left|right]; by apply list_elem_of_fmap_2.
    - by apply file_judged.
    - by apply file_fact. }
  specialize (Hown (collect f (entry_locks f) false) (st, ∅) (λ o H, H) Hok).
  destruct (foldl step _ _) as [st1 shared]. clear step. cbn [fst] in Hown. destruct spawnedApart; [|done].
  assert (∀ o, o ∈ collect f (entry_locks f) true → comes (set_boundBySpawn o)) as Hspawned
    by (intros; by eapply derives_thread).
  revert Hspawned. generalize (collect f (entry_locks f) true). intros l. revert st1 Hown.
  induction l as [|o l IH]; intros st1 Hst1 Hl; [done|]. cbn [foldl]. apply IH; [|intros; apply Hl; by right].
  unfold fileSpawnedOrder. destruct (_ || _); [done|]. apply file_fact; [done|]. apply Hl. by left.
Qed.

Lemma fileFunctions_ok runOnlyByDirectCalls calledUnderDifferentLocks :
  filing_ok (foldl (fileFunction sharedObjectBindings lockPropagation taskConcurrency collect
    runOnlyByDirectCalls calledUnderDifferentLocks) (MkOrderState ∅ nothing_kept ∅) functions).
Proof.
  assert (∀ l st, (∀ f, f ∈ l → f ∈ functions) → filing_ok st → filing_ok (foldl (fileFunction
    sharedObjectBindings lockPropagation taskConcurrency collect runOnlyByDirectCalls calledUnderDifferentLocks)
    st l)) as H'.
  { induction l as [|f l IH]; intros st Hl Hst; [done|]. cbn [foldl]. apply IH; [intros; apply Hl; by right|].
    apply fileFunction_ok; [apply Hl; by left|done]. }
  apply H'; [done|apply filing_start].
Qed.

Abbreviation settled recursionCalls := (site_settled callsStandardLibrary sharedObjectBindings lockPropagation
  taskConcurrency argumentLocks recursionCalls).

Lemma lock_orders_settle threadEntries :
  (N.of_nat (size (functionsOf (calleesByCaller
     (List.filter (takesCalleeLockOrders callsStandardLibrary) sites)))) ≤ 2 ^ 32)%N →
  ∃ recursionCalls enough, recursionCallsOf callsStandardLibrary sites = Some recursionCalls ∧
  ∀ fuel, enough ≤ fuel →
  ∃ st, lockOrders_of callsStandardLibrary sharedObjectBindings lockPropagation taskConcurrency argumentLocks
      collect fuel functions sites threadEntries = Some st ∧
    (∀ o, o ∈ kp_items (os_facts st) → comes o) ∧
    (∀ f o, o ∈ calleeOrders st f → comes o) ∧
    ∀ site, site ∈ sites → settled recursionCalls site st.
Proof.
  intros Hsmall. destruct (callsClosingCycles_spec _ Hsmall) as (recursionCalls & Erec & _).
  unfold lockOrders_of. set (filed := foldl _ _ functions).
  assert (filing_ok filed) as [H1 H2 H3 H4 H5] by apply fileFunctions_ok.
  destruct (order_rounds_total callsStandardLibrary sharedObjectBindings lockPropagation taskConcurrency argumentLocks
    collect functions sites recursionCalls (os_judgedAtCalls filed) own_threads own_places own_ids own_functions)
    as [enough Hrounds].
  { intros site Hs. apply elem_of_union. right. apply elem_of_list_to_set. by apply list_elem_of_fmap_2. }
  { intros site Hs. apply elem_of_app. right. by apply list_elem_of_fmap_2. }
  { intros f o [_ _ ? ? ?]%H5. done. }
  { by apply follows_acyclic. }
  exists recursionCalls, enough. split; [done|]. intros fuel Hfuel.
  destruct (Hrounds fuel filed Hfuel) as (st & E & Hok & _ & Hsettled).
  { split; [done|done|done| |done]. intros f lockId Hid. left. by apply (H3 f). }
  exists st. unfold recursionCallsOf. rewrite Erec. cbn [mbind option_bind]. rewrite E.
  split_and!; [done|apply (kk_all _ _ (sk_facts _ _ _ _ _ _ _ _ _ _ _ _ _ _ _ Hok))| |by apply Forall_forall].
  intros f o Ho. eapply calleeOrders_ok; [|exact Hok|exact Ho]. intros g o' [_ _ ? ? ?]%H5. done.
Qed.

(** C17: instantiating the lock orders of a unit's helpers at their calls ends on
    every call graph of up to 2^32 functions, recursion included, whatever the
    collector finds and whatever order hash tables are visited in. Everything kept
    comes from an order of a function's own by a chain of calls. At the end every
    followed call is settled: each order its callee leaves open or to its calls has
    its instances kept, under the caller or among the facts, beside at least their
    threads, except those that only a recursion names once their function has the 64
    it may have. *)
Theorem lock_order_instantiation_settles threadEntries :
  (N.of_nat (size (functionsOf (calleesByCaller
     (List.filter (takesCalleeLockOrders callsStandardLibrary) sites)))) ≤ 2 ^ 32)%N →
  ∃ recursionCalls enough, recursionCallsOf callsStandardLibrary sites = Some recursionCalls ∧
  ∀ fuel, enough ≤ fuel →
  ∃ st, lockOrders_of callsStandardLibrary sharedObjectBindings lockPropagation taskConcurrency argumentLocks
      collect fuel functions sites threadEntries = Some st ∧
    (∀ o, o ∈ kp_items (os_facts st) → comes o) ∧
    (∀ f o, o ∈ calleeOrders st f → comes o) ∧
    ∀ site, site ∈ sites → settled recursionCalls site st.
Proof. apply lock_orders_settle. Qed.
End unit.

(** ** Two units *)

(** [lock_both] locks what it is handed, [main] hands it two globals; [walk] locks a
    node and the one after it, and calls itself on the next. *)
Definition demo_at (line : N) : SourceLocation := MkSourceLocation "demo.c" line 1 line 1 "".
Definition demo_order (function first second : string) (line : N) : LockOrderFact :=
  MkLockOrder function first second (demo_at line) {[first]} false ∅ ∅ false false false.
Definition demo_collect (function : string) (entryLocks : gset string) (spawned : bool)
  : list LockOrderFact :=
  if bool_decide (function = "lock_both") then [demo_order "lock_both" "%arg0" "%arg1" 3]
  else if bool_decide (function = "walk") then [demo_order "walk" "%arg0" "%arg0+8" 9]
  else [].
Definition demo_call (call : nat) (caller callee : string) (line : N) : DirectCallSite :=
  MkDirectCallSite (Some call) caller callee (demo_at line) (demo_at line) false.
Definition demo_arguments (spawnedOn : option SharedObjectBinding) (call : nat) : list (option string) :=
  match call with
  | 0 => [Some "A"; Some "B"]
  | _ => [Some "%arg0+8"]
  end.
Definition demo_unit (functions : list string) (sites : list DirectCallSite) : option OrderState :=
  @lockOrders_of sorted_hash_order (λ _, false) ∅ (MkPropagation ∅ ∅) (MkTaskConcurrency ∅ ∅ ∅ ∅ ∅ ∅)
    demo_arguments demo_collect 100 functions sites ∅.

Example helper_order_at_its_call :
  (λ st, (λ o, (lo_functionId o, lo_firstLockId o, lo_secondLockId o)) <$> kp_items (os_facts st)) <$>
  demo_unit ["lock_both"; "main"] [demo_call 0 "main" "lock_both" 7] = Some [("main", "A", "B")].
Proof. vm_compute. reflexivity. Qed.

(** Each call of the recursion names the next node's lock: 64 orders are kept beside
    the function's own. *)
Example recursion_names_locks_to_the_limit :
  (λ st, length (calleeOrders st "walk")) <$> demo_unit ["walk"] [demo_call 1 "walk" "walk" 10] = Some 65.
Proof. vm_compute. reflexivity. Qed.

Lemma lock_order_instantiation_settles_witness :
  ∃ enough, ∀ fuel, enough ≤ fuel →
  ∃ st, @lockOrders_of sorted_hash_order (λ _, false) ∅ (MkPropagation ∅ ∅) (MkTaskConcurrency ∅ ∅ ∅ ∅ ∅ ∅)
      demo_arguments demo_collect fuel ["walk"] [demo_call 1 "walk" "walk" 10] ∅ = Some st ∧
    ∀ f o, o ∈ calleeOrders st f →
      derives (λ _, false) ∅ (MkPropagation ∅ ∅) (MkTaskConcurrency ∅ ∅ ∅ ∅ ∅ ∅) demo_arguments demo_collect
        ["walk"] [demo_call 1 "walk" "walk" 10] o.
Proof.
  destruct (lock_order_instantiation_settles (H := sorted_hash_order) (λ _, false) ∅ (MkPropagation ∅ ∅)
    (MkTaskConcurrency ∅ ∅ ∅ ∅ ∅ ∅) demo_arguments demo_collect ["walk"] [demo_call 1 "walk" "walk" 10] ∅)
    as (recursionCalls & enough & _ & H); [by vm_compute|].
  exists enough. intros fuel Hfuel. destruct (H fuel Hfuel) as (st & E & _ & Hopen & _).
  exists st. split; [exact E|exact Hopen].
Defined.
