(* ===== verification/AccessFacts.v ===== *)
(** The accesses of a unit (src/internal/analysis/tu_facts_builder.cpp): what a
    function's accesses through its parameters come to at each call, what a thread
    reaches through the object it is handed, and where each access is reported.

    What LLVM's IR is read for is a parameter: the operands of a call, the class a call
    constructs, and the elements of a spawn loop no running thread holds. *)

From S2P Require Import Prelude Text Diagnostics Facts LockIds CallGraph CallCycles Rounds KeyIndex Kept.
From S2P Require Import LockEffects LockScope LockPropagation LockOrderCollector LockOrderFacts.

Record ParameterizedAccess := MkParameterized {
  px_root : RootBinding;
  px_fact : AccessFact;
}.

Record PendingAccess := MkPending {
  pe_instruction : nat;
  pe_root : RootBinding;
  pe_fact : AccessFact;
  pe_restatesCalleeAccesses : bool;
  pe_callOperand : option N;
}.

Record DirectCallBinding := MkCallBinding {
  db_call : nat;
  db_callerFunctionId : string;
  db_calleeFunctionId : string;
  db_argumentBindings : gmap N RootBinding;
  db_indexArguments : gmap N LinearIndex;
  db_callsiteLocation : SourceLocation;
  db_callsiteHeldLocks : gset string;
  db_callerInRootTask : bool;
  db_liveAtCall : ThreadEntrySet;
  db_startedAtCall : ThreadEntrySet;
  db_entriesOnConstructedObject : ThreadEntrySet;
}.

(** Assignments to one field of a fact. *)
Definition set_acc_place (symbol : string) (region : MemoryRegion) (sharedObject : bool) (a : AccessFact)
  : AccessFact :=
  let '(MkAccess _ _ f k p l u al at_ c g _ i li st b o h be af) := a in
  MkAccess symbol region f k p l u al at_ c g sharedObject i li st b o h be af.
Definition set_acc_region (region : MemoryRegion) (a : AccessFact) : AccessFact :=
  set_acc_place (acc_symbol a) region (acc_sharedObject a) a.
Definition set_acc_userLocation (userLocation : SourceLocation) (a : AccessFact) : AccessFact :=
  let '(MkAccess s r f k p l _ al at_ c g sh i li st b o h be af) := a in
  MkAccess s r f k p l userLocation al at_ c g sh i li st b o h be af.
Definition set_acc_projection (allowed : bool) (a : AccessFact) : AccessFact :=
  let '(MkAccess s r f k p l u _ at_ c g sh i li st b o h be af) := a in
  MkAccess s r f k p l u allowed at_ c g sh i li st b o h be af.
Definition set_acc_threads (a : AccessFact) (liveEntries startedEntries : ThreadEntrySet) : AccessFact :=
  let '(MkAccess s r f k p l u al at_ c g sh i _ _ b o h be af) := a in
  MkAccess s r f k p l u al at_ c g sh i liveEntries startedEntries b o h be af.
Definition set_acc_heldLocks (heldLocks : gset string) (a : AccessFact) : AccessFact :=
  let '(MkAccess s r f k p l u al at_ c g sh i li st b o _ be af) := a in
  MkAccess s r f k p l u al at_ c g sh i li st b o heldLocks be af.
Definition set_acc_publication (beforeRelease afterAcquire : gset string) (a : AccessFact) : AccessFact :=
  let '(MkAccess s r f k p l u al at_ c g sh i li st b o h _ _) := a in
  MkAccess s r f k p l u al at_ c g sh i li st b o h beforeRelease afterAcquire.
Definition set_acc_inRootTask (inRootTask : bool) (a : AccessFact) : AccessFact :=
  let '(MkAccess s r f k p l u al at_ c g sh _ li st b o h be af) := a in
  MkAccess s r f k p l u al at_ c g sh inRootTask li st b o h be af.
Definition set_acc_function (functionId : string) (a : AccessFact) : AccessFact :=
  let '(MkAccess s r _ k p l u al at_ c g sh i li st b o h be af) := a in
  MkAccess s r functionId k p l u al at_ c g sh i li st b o h be af.
Definition set_acc_boundBySpawn (a : AccessFact) : AccessFact :=
  let '(MkAccess s r f k p l u al at_ c g sh i li st _ o h be af) := a in
  MkAccess s r f k p l u al at_ c g sh i li st true o h be af.
Definition set_acc_instanceOwner (instanceOwner : string) (a : AccessFact) : AccessFact :=
  let '(MkAccess s r f k p l u al at_ c g sh i li st b _ h be af) := a in
  MkAccess s r f k p l u al at_ c g sh i li st b instanceOwner h be af.

(** ** Keys *)

(** A [bool] written to a stream. *)
Definition bit (b : bool) : string := if b then "1" else "0".

Definition rootBindingKey (binding : RootBinding) : string :=
  let index :=
    match rb_index binding with
    | None => ""
    | Some index =>
        (if li_widened index then "@*"
         else "@" +:+ pretty (li_offset index) +:+ "+" +:+ pretty (li_scale index)) +:+
        "*arg" +:+ pretty (default 0%N (li_parameter index))
    end in
  if bool_decide (rb_kind binding = RootBindingKind_Global)
  then "global:" +:+ rb_symbol binding +:+ identity (rb_region binding) +:+ index
  else "argument:" +:+ pretty (rb_argumentIndex binding) +:+ identity (rb_region binding) +:+ index.

(** Each name of a set behind its label, in order. *)
Definition labelled (label : string) (names : gset string) (start : string) : string :=
  foldl (λ stream name, stream +:+ label +:+ name) start (sorted_elements names).

Definition accessFactKey (fact : AccessFact) : string :=
  labelled "|acquire:" (acc_afterAcquire fact)
    (labelled "|release:" (acc_beforeRelease fact)
       (labelled "|lock:" (acc_heldLocks fact)
          (acc_symbol fact +:+ identity (acc_region fact) +:+ "|" +:+ acc_functionId fact +:+ "|" +:+
           toString_access (acc_kind fact) +:+ "|" +:+ (if acc_isAtomic fact then "atomic" else "plain") +:+
           "|" +:+ toString_alias (acc_aliasProvenance fact) +:+ "|" +:+
           loc_file (acc_loweredLocation fact) +:+ "|" +:+ pretty (loc_line (acc_loweredLocation fact)) +:+
           "|" +:+ pretty (loc_column (acc_loweredLocation fact)) +:+ "|" +:+
           loc_function (acc_loweredLocation fact) +:+ "|" +:+ bit (acc_coarseCallEffect fact) +:+
           bit (acc_guessedIdentity fact) +:+ bit (acc_sharedObject fact) +:+ bit (acc_inRootTask fact) +:+
           "|" +:+ acc_instanceOwner fact))).

Definition parameterizedAccessKey (access : ParameterizedAccess) : string :=
  rootBindingKey (px_root access) +:+ "|" +:+ accessFactKey (px_fact access).

#[refine, export] Instance access_threaded : Threaded AccessFact := {
  key := accessFactKey;
  live := acc_liveEntries;
  started := acc_startedEntries;
  with_threads := set_acc_threads;
}.
Proof. all: by intros []. Defined.

#[refine, export] Instance parameterized_threaded : Threaded ParameterizedAccess := {
  key := parameterizedAccessKey;
  live access := acc_liveEntries (px_fact access);
  started access := acc_startedEntries (px_fact access);
  with_threads access live started :=
    MkParameterized (px_root access) (set_acc_threads (px_fact access) live started);
}.
Proof. all: by intros [? []]. Defined.

Abbreviation ConcreteAccesses := (Kept AccessFact).
Abbreviation Summaries := (gmap string (Kept ParameterizedAccess)).

Definition addConcreteAccess (accesses : ConcreteAccesses) (fact : AccessFact) : ConcreteAccesses * bool :=
  keep accesses fact.

(** [summariesByFunction[functionId]] makes the entry when there is none. *)
Definition summaryOf (summariesByFunction : Summaries) (functionId : string) : Kept ParameterizedAccess :=
  default nothing_kept (summariesByFunction !! functionId).

Definition addParameterizedAccess (summariesByFunction : Summaries) (functionId : string)
    (access : ParameterizedAccess) : Summaries * bool :=
  let '(summary, changed) := keep (summaryOf summariesByFunction functionId) access in
  (<[functionId := summary]> summariesByFunction, changed).

(** ** Where an access is reported *)

Definition sameSourceLocation (lhs rhs : SourceLocation) : bool :=
  bool_decide (loc_file lhs = loc_file rhs) && bool_decide (loc_line lhs = loc_line rhs) &&
  bool_decide (loc_column lhs = loc_column rhs) && bool_decide (loc_function lhs = loc_function rhs).

Definition hasDistinctUserLocation (access : AccessFact) : bool :=
  negb (sameSourceLocation (acc_userLocation access) (acc_loweredLocation access)).

Definition projectedAccessPreferenceKey (fact : AccessFact) : string :=
  labelled "|lock:" (acc_heldLocks fact)
    (acc_symbol fact +:+ identity (acc_region fact) +:+ "|" +:+ toString_access (acc_kind fact) +:+ "|" +:+
     loc_file (acc_loweredLocation fact) +:+ "|" +:+ toString_alias (acc_aliasProvenance fact) +:+ "|" +:+
     pretty (loc_line (acc_loweredLocation fact)) +:+ "|" +:+
     pretty (loc_column (acc_loweredLocation fact)) +:+ "|" +:+ loc_function (acc_loweredLocation fact)).

Definition filterProjectedConcreteAccesses (accesses : list AccessFact) : list AccessFact :=
  let projectedKeys : gset string :=
    list_to_set (projectedAccessPreferenceKey <$> List.filter hasDistinctUserLocation accesses) in
  List.filter (λ access,
    negb (bool_decide (projectedAccessPreferenceKey access ∈ projectedKeys) &&
          negb (hasDistinctUserLocation access))) accesses.

(** A place with neither a file nor a line. *)
Definition no_callsite (callsite : SourceLocation) : bool :=
  bool_decide (loc_file callsite = "") && bool_decide (loc_line callsite = 0%N).

Definition shouldRemapAccessToCallsite (access : AccessFact) (callsite : SourceLocation) : bool :=
  if no_callsite callsite then false
  else if bool_decide (loc_file (acc_userLocation access) = "") then true
  else negb (bool_decide (loc_file (acc_userLocation access) = loc_file callsite)).

Definition shouldProjectConcreteAccessToCallsite (access : AccessFact) (callsite : SourceLocation) : bool :=
  if negb (acc_allowCallsiteProjection access) then false
  else if no_callsite callsite then false
  else if bool_decide (loc_file (acc_userLocation access) = "") then true
  else if negb (bool_decide (loc_file (acc_userLocation access) = loc_file callsite)) then true
  else negb (hasDistinctUserLocation access) &&
       negb (sameSourceLocation (acc_userLocation access) callsite).

(** ** At a call *)

Definition locksAtCallSite (calleeLocks : gset string) (callBinding : DirectCallBinding) : gset string :=
  foldl (λ locks lockId,
    match lockPlace lockId with
    | None => {[lockId]} ∪ locks
    | Some place =>
        match db_argumentBindings callBinding !! plp_argumentIndex place with
        | Some argument => {[lockIdAt argument (plp_place place)]} ∪ locks
        | None => locks
        end
    end) ∅ (sorted_elements calleeLocks).

Definition threadsAtCallFor (access : ParameterizedAccess) (call : DirectCallBinding)
  : ThreadEntrySet * ThreadEntrySet :=
  if bool_decide (rb_kind (px_root access) = RootBindingKind_Global) ||
     negb (bool_decide (rb_argumentIndex (px_root access) = 0%N)) ||
     bool_decide (db_entriesOnConstructedObject call = ∅)
  then (db_liveAtCall call, db_startedAtCall call)
  else (db_liveAtCall call ∖ db_entriesOnConstructedObject call,
        db_startedAtCall call ∖ db_entriesOnConstructedObject call).

(** [llvm::MulOverflow] and [llvm::AddOverflow] into [std::int64_t]: the result, unless it
    overflows. *)
Definition checked_i64 (z : Z) : option Z := if bool_decide (wrap_i64 z = z) then Some z else None.

Definition substituteLinearIndex (outer inner : LinearIndex) : option LinearIndex :=
  if li_widened outer || li_widened inner then Some (MkLinearIndex (li_parameter inner) 0 0 true)
  else
    scale ← checked_i64 (li_scale outer * li_scale inner);
    shift ← checked_i64 (li_scale outer * li_offset inner);
    offset ← checked_i64 (li_offset outer + shift);
    Some (MkLinearIndex (li_parameter inner) scale offset false).

(** The index of an access as the call passes it. The index of an access always has a
    parameter, which the code reads unchecked. *)
Definition indexAtCall (index : option LinearIndex) (call : DirectCallBinding) : option LinearIndex :=
  index ← index;
  parameter ← li_parameter index;
  argument ← db_indexArguments call !! parameter;
  substituteLinearIndex index argument.

Definition set_region (root : RootBinding) (region : MemoryRegion) (index : option LinearIndex)
  : RootBinding :=
  MkRootBinding (rb_kind root) (rb_symbol root) (rb_argumentIndex root) region (rb_designated root) index.

Definition rootAtCall (access : ParameterizedAccess) (call : DirectCallBinding) : option RootBinding :=
  let place := acc_region (px_fact access) in
  let '(place, index) :=
    match indexAtCall (rb_index (px_root access)) call with
    | Some index =>
        if bool_decide (li_parameter index = None)
        then (if li_widened index then place
              else MkRegion true (li_offset index) (byteSize place) (elementOwner place) (elementEntry place),
              None)
        else (place, Some index)
    | None => (place, None)
    end in
  if bool_decide (rb_kind (px_root access) = RootBindingKind_Global)
  then Some (set_region (px_root access) place index)
  else
    object ← db_argumentBindings call !! rb_argumentIndex (px_root access);
    Some (set_region object (rebasedOn place (rb_region object) (rb_designated object))
            (match index with
             | Some index =>
                 if hasKnownOffset (rb_region object)
                 then substituteLinearIndex (MkLinearIndex None 1 (byteOffset (rb_region object)) false) index
                 else None
             | None => None
             end)).

Definition handsOnParameter (index : option LinearIndex) : bool :=
  match index with
  | Some index =>
      bool_decide (is_Some (li_parameter index)) && bool_decide (li_scale index = 1%Z) &&
      bool_decide (li_offset index = 0%Z)
  | None => false
  end.

(** ** The calls *)

(** What the analysis reads of an operand of a call: its type, the index it passes, a
    parameter it is computed from, and the object it designates, as a global, as a local
    object or as an object handed to a thread. *)
Record Operand := MkOperand {
  op_isInteger : bool;
  op_linearIndex : option LinearIndex;
  op_sourceParameter : option N;
  op_trackedRoot : option RootBinding;
  op_localRoot : option RootBinding;
  op_sharedRoot : option RootBinding;
}.

(** A call: its operands, and whether each parameter of its function is an integer. *)
Record CallInstruction := MkCall {
  ci_operands : list Operand;
  ci_callerParameters : list bool;
}.

Definition widenedIndexArgument (operand : Operand) (position : N) (call : CallInstruction)
  : option LinearIndex :=
  match op_sourceParameter operand with
  | Some source => Some (MkLinearIndex (Some source) 0 0 true)
  | None =>
      if bool_decide (ci_callerParameters call !! N.to_nat position = Some true)
      then Some (MkLinearIndex (Some position) 0 0 true) else None
  end.

Section calls.
Context `{!HashOrder}.
(** The call at an instruction, and the class an instruction constructs, when it calls a
    constructor. *)
Context (callAt : nat → CallInstruction) (constructs : nat → option string).
Context (lockPropagation : LockPropagationResult) (taskConcurrency : TaskConcurrencyResult).
Context (entriesByConstructedClass : gmap string ThreadEntrySet).

Definition entriesOnObjectConstructedBy (instruction : nat) : option ThreadEntrySet :=
  context ← constructs instruction;
  entriesByConstructedClass !! context.

(** The index an integer operand passes: around a cycle, the caller's own parameter or an
    unknown place. *)
Definition indexArgument (closesCycle : bool) (call : CallInstruction) (position : N) (operand : Operand)
  : option LinearIndex :=
  if op_isInteger operand then
    let index := op_linearIndex operand in
    if closesCycle && negb (handsOnParameter index) then widenedIndexArgument operand position call
    else index
  else None.

Definition unknown_place (region : MemoryRegion) : MemoryRegion :=
  MkRegion false (byteOffset region) (byteSize region) (elementOwner region) (elementEntry region).

(** The object an operand hands over: around a cycle, a pointer it moves points anywhere. *)
Definition argumentBinding (closesCycle : bool) (operand : Operand) : option RootBinding :=
  root ← match op_trackedRoot operand with
         | Some root => Some root
         | None => match op_localRoot operand with Some root => Some root | None => op_sharedRoot operand end
         end;
  if bool_decide (rb_kind root = RootBindingKind_Argument) && closesCycle &&
     (negb (hasKnownOffset (rb_region root)) || negb (bool_decide (byteOffset (rb_region root) = 0%Z)))
  then Some (set_region root (unknown_place (rb_region root)) (rb_index root))
  else Some root.

(** What a map gets at the positions of a list. *)
Definition by_position {A B} (f : N → A → option B) (l : list A) : gmap N B :=
  list_to_map (omap (λ '(n, x), (pair (N.of_nat n)) <$> f (N.of_nat n) x) (imap pair l)).

Definition callBindingOf (cycleCalls : gset nat) (site : DirectCallSite) : option DirectCallBinding :=
  call ← dcs_call site;
  let closesCycle := bool_decide (call ∈ cycleCalls) in
  let operands := ci_operands (callAt call) in
  let binding :=
    MkCallBinding call (dcs_callerFunctionId site) (dcs_calleeFunctionId site)
      (by_position (λ _, argumentBinding closesCycle) operands)
      (by_position (indexArgument closesCycle (callAt call)) operands)
      (dcs_userLocation site)
      (default ∅ (effectiveHeldLocksByCall lockPropagation !! call))
      (bool_decide (dcs_callerFunctionId site ∈ tc_rootTaskFunctions taskConcurrency))
      (default ∅ (tc_liveEntriesAtInstruction taskConcurrency !! call))
      (default ∅ (tc_startedEntriesAtInstruction taskConcurrency !! call))
      (default ∅ (entriesOnObjectConstructedBy call)) in
  if negb (bool_decide (db_argumentBindings binding = ∅)) || existsb op_isInteger operands
  then Some binding else None.

Definition buildDirectCallBindings (sites : list DirectCallSite) : option (list DirectCallBinding) :=
  cycleCalls ← callsClosingCycles sites;
  Some (omap (callBindingOf cycleCalls) sites).
End calls.

(** ** The accesses of the unit *)

Record AccessState := MkAccessState {
  as_summaries : Summaries;
  as_concrete : ConcreteAccesses;
}.

Section unit.
Context `{!HashOrder}.
Context (callAt : nat → CallInstruction) (constructs : nat → option string).
Context (lockPropagation : LockPropagationResult) (taskConcurrency : TaskConcurrencyResult).
Context (sharedObjectBindings : SharedObjectBindings).
(** Whether an instruction reaches, over so many bytes from an offset past a pointer (an
    operand of a call, or the pointer a load or store goes through), an element of the
    spawn loop of an entry before it is handed over, or after its thread was joined; and
    how many bytes a load or store touches. *)
Context (reachesElementBeforeHandOver reachesElementOfJoinedThread : string → nat → option N → Z → Z → bool).
Context (accessBytes : nat → option Z).
(** What the collectors say: the objects shared with a thread, the accesses a publication
    orders, and the locks held at each access. *)
Context (sharedObjectIds localObjectIds : gset string).
Context (ordering : gmap nat (gset string * gset string)) (heldLocksByAccess : gmap nat (gset string)).
Context (entryConcurrency : gmap string EntryConcurrencyInfo) (sites : list DirectCallSite).

Definition namesObjectSharedWithThread (symbol : string) : bool :=
  bool_decide (symbol ∈ sharedObjectIds) || bool_decide (symbol ∈ localObjectIds).

Definition reachesElementNoThreadHolds (instruction : nat) (operand : option N) (offset byteSize : Z)
    (symbol : string) : option (ElementOwner * string) :=
  head (omap (λ '(entryFunctionId, binding),
    if negb (so_elementPerThread binding) || negb (bool_decide (rb_symbol (so_object binding) = symbol))
    then None
    else if reachesElementBeforeHandOver entryFunctionId instruction operand offset byteSize
    then Some (ElementOwner_NotYetHandedOver, entryFunctionId)
    else if reachesElementOfJoinedThread entryFunctionId instruction operand offset byteSize
    then Some (ElementOwner_JoinedThisRound, entryFunctionId)
    else None) (hash_items sharedObjectBindings)).

Definition loadOrStoreReachesElementNoThreadHolds (instruction : nat) (symbol : string)
  : option (ElementOwner * string) :=
  byteSize ← accessBytes instruction;
  reachesElementNoThreadHolds instruction None 0 byteSize symbol.

Definition calledFunctionIds : gset string := list_to_set (dcs_calleeFunctionId <$> sites).

Definition entriesByConstructedClass : gmap string ThreadEntrySet :=
  foldl (λ entries '(entryFunctionId, binding),
    if bool_decide (so_constructedClass binding = "") then entries
    else <[so_constructedClass binding :=
             {[entryFunctionId]} ∪ default ∅ (entries !! so_constructedClass binding)]> entries)
    ∅ (hash_items sharedObjectBindings).

(** The access of a function some run of which no call of the unit starts. *)
Definition unplaced (access : ParameterizedAccess) : AccessFact :=
  let symbol := rb_symbol (px_root access) in
  set_acc_projection false
    (set_acc_place symbol (acc_region (px_fact access)) (namesObjectSharedWithThread symbol) (px_fact access)).

Definition addSummary (functionKey : string) (access : ParameterizedAccess) (st : AccessState)
  : AccessState * bool :=
  if negb (bool_decide (rb_kind (px_root access) = RootBindingKind_Global)) ||
     (bool_decide (functionKey ∈ calledFunctionIds) &&
      negb (bool_decide (is_Some (entryConcurrency !! functionKey))))
  then
    let '(summaries, changed) := addParameterizedAccess (as_summaries st) functionKey access in
    (MkAccessState summaries (as_concrete st), changed)
  else
    (MkAccessState (as_summaries st) (addConcreteAccess (as_concrete st) (unplaced access)).1, false).

(** *** A function's own accesses *)

(** What the other analyses say of an access. *)
Definition completedAccess (pending : PendingAccess) : AccessFact :=
  let instruction := pe_instruction pending in
  let fact := pe_fact pending in
  let fact := match ordering !! instruction with
              | Some (beforeRelease, afterAcquire) => set_acc_publication beforeRelease afterAcquire fact
              | None => fact
              end in
  let fact := match heldLocksByAccess !! instruction with
              | Some heldLocks => set_acc_heldLocks heldLocks fact
              | None => fact
              end in
  let fact := match entryLocksByFunction lockPropagation !! acc_functionId fact with
              | Some entryLocks => set_acc_heldLocks (mergeHeldLocks (acc_heldLocks fact) entryLocks) fact
              | None => fact
              end in
  let liveEntries := default (acc_liveEntries fact) (tc_liveEntriesAtInstruction taskConcurrency !! instruction) in
  let startedEntries :=
    default (acc_startedEntries fact) (tc_startedEntriesAtInstruction taskConcurrency !! instruction) in
  let constructed :=
    if bool_decide (pe_callOperand pending = Some 0%N)
    then default ∅ (entriesOnObjectConstructedBy constructs entriesByConstructedClass instruction) else ∅ in
  set_acc_inRootTask (bool_decide (acc_functionId fact ∈ tc_rootTaskFunctions taskConcurrency))
    (set_acc_threads fact (liveEntries ∖ constructed) (startedEntries ∖ constructed)).

Definition filePending (st : AccessState) (pending : PendingAccess) : AccessState :=
  if pe_restatesCalleeAccesses pending then st
  else
    let fact := completedAccess pending in
    let root := pe_root pending in
    if bool_decide (rb_kind root = RootBindingKind_Global) && bool_decide (rb_index root = None) then
      let region := match loadOrStoreReachesElementNoThreadHolds (pe_instruction pending) (rb_symbol root) with
                    | Some (owner, entry) => placeInElement (rb_region root) owner entry
                    | None => rb_region root
                    end in
      MkAccessState (as_summaries st)
        (addConcreteAccess (as_concrete st)
           (set_acc_place (rb_symbol root) region (namesObjectSharedWithThread (rb_symbol root)) fact)).1
    else
      (addSummary (acc_functionId fact)
         (MkParameterized root (set_acc_projection true (set_acc_region (rb_region root) fact))) st).1.

(** *** The calls carry them to the callers *)

(** An access whose object the call settles, as an access of the caller. *)
Definition concreteAtCall (callBinding : DirectCallBinding) (access : ParameterizedAccess)
    (root : RootBinding) : AccessFact :=
  let fact := px_fact access in
  let place := acc_region fact in
  let region :=
    if negb (bool_decide (rb_kind (px_root access) = RootBindingKind_Global)) &&
       bool_decide (rb_index (px_root access) = None) && hasKnownOffset place &&
       (rb_argumentIndex (px_root access) <?
        N.of_nat (length (ci_operands (callAt (db_call callBinding)))))%N
    then match reachesElementNoThreadHolds (db_call callBinding) (Some (rb_argumentIndex (px_root access)))
                 (byteOffset place) (byteSize place) (rb_symbol root) with
         | Some (owner, entry) => placeInElement (rb_region root) owner entry
         | None => rb_region root
         end
    else rb_region root in
  let '(liveAtCall, startedAtCall) := threadsAtCallFor access callBinding in
  let '(liveEntries, startedEntries) :=
    threadsThroughCall (acc_liveEntries fact) (acc_startedEntries fact) liveAtCall startedAtCall in
  let concrete :=
    set_acc_projection true
      (set_acc_threads
         (set_acc_inRootTask (db_callerInRootTask callBinding)
            (set_acc_heldLocks (mergeHeldLocks (locksAtCallSite (acc_heldLocks fact) callBinding)
                                  (db_callsiteHeldLocks callBinding))
               (set_acc_place (rb_symbol root) region (namesObjectSharedWithThread (rb_symbol root))
                  (set_acc_function (db_callerFunctionId callBinding) fact))))
         liveEntries startedEntries) in
  if shouldRemapAccessToCallsite concrete (db_callsiteLocation callBinding)
  then set_acc_projection false (set_acc_userLocation (db_callsiteLocation callBinding) concrete)
  else concrete.

(** An access the caller reaches through a parameter of its own, or at an index it is passed. *)
Definition propagatedAtCall (callBinding : DirectCallBinding) (access : ParameterizedAccess)
    (root : RootBinding) : ParameterizedAccess :=
  let fact := px_fact access in
  let '(liveAtCall, startedAtCall) := threadsAtCallFor access callBinding in
  let '(liveEntries, startedEntries) :=
    threadsThroughCall (acc_liveEntries fact) (acc_startedEntries fact) liveAtCall startedAtCall in
  let propagated :=
    set_acc_threads
      (set_acc_inRootTask (db_callerInRootTask callBinding)
         (set_acc_heldLocks (mergeHeldLocks (locksAtCallSite (acc_heldLocks fact) callBinding)
                               (db_callsiteHeldLocks callBinding))
            (set_acc_region (rb_region root)
               (set_acc_function (db_callerFunctionId callBinding) fact))))
      liveEntries startedEntries in
  MkParameterized root
    (if shouldRemapAccessToCallsite propagated (db_callsiteLocation callBinding)
     then set_acc_userLocation (db_callsiteLocation callBinding) propagated else propagated).

Definition carryAccess (callBinding : DirectCallBinding) (access : ParameterizedAccess) (st : AccessState)
  : (AccessState * bool) + Empty_set :=
  match rootAtCall access callBinding with
  | None => inl (st, false)
  | Some root =>
      if bool_decide (rb_kind root = RootBindingKind_Global) && bool_decide (rb_index root = None) then
        inl (MkAccessState (as_summaries st)
               (addConcreteAccess (as_concrete st) (concreteAtCall callBinding access root)).1, false)
      else
        inl (addSummary (db_callerFunctionId callBinding) (propagatedAtCall callBinding access root) st)
  end.

Definition carryCall (callBinding : DirectCallBinding) (st : AccessState)
  : (AccessState * bool) + Empty_set :=
  each (carryAccess callBinding) (kp_items (summaryOf (as_summaries st) (db_calleeFunctionId callBinding))) st.

(** *** What a thread reaches through the object it is handed *)

Definition accessOfThread (summaryFunctionId : string) (binding : SharedObjectBinding)
    (access : ParameterizedAccess) : AccessFact :=
  let region := rebasedOn (rb_region (px_root access)) (rb_region (so_object binding))
                  (rb_designated (so_object binding)) in
  let region := if so_elementPerThread binding
                then placeInElement region ElementOwner_AccessingThread summaryFunctionId else region in
  let fact :=
    set_acc_boundBySpawn
      (set_acc_inRootTask false
         (set_acc_heldLocks (locksOnSharedObject (acc_heldLocks (px_fact access)) binding)
            (set_acc_place (rb_symbol (so_object binding)) region
               (negb (bool_decide (so_kind binding = SharedObjectKind_Global))) (px_fact access)))) in
  if bool_decide (so_constructedClass binding = "") then fact
  else set_acc_instanceOwner summaryFunctionId fact.

Definition bindSummary (concrete : ConcreteAccesses) (item : string * Kept ParameterizedAccess)
  : ConcreteAccesses :=
  match sharedObjectBindings !! item.1 with
  | None => concrete
  | Some binding =>
      foldl (λ concrete access,
        if bool_decide (rb_kind (px_root access) = RootBindingKind_Argument) &&
           bool_decide (rb_argumentIndex (px_root access) = so_argumentIndex binding)
        then (addConcreteAccess concrete (accessOfThread item.1 binding access)).1 else concrete)
        concrete (kp_items item.2)
  end.

Definition bindToThreads (st : AccessState) : ConcreteAccesses :=
  foldl bindSummary (as_concrete st) (hash_items (as_summaries st)).

(** *** The calls are where the accesses of their callees are reported *)

Definition remappedAccess (callBinding : DirectCallBinding) (access : AccessFact) : AccessFact :=
  let '(liveEntries, startedEntries) :=
    threadsThroughCall (acc_liveEntries access) (acc_startedEntries access) (db_liveAtCall callBinding)
      (db_startedAtCall callBinding) in
  let remapped :=
    set_acc_userLocation (db_callsiteLocation callBinding)
      (set_acc_threads
         (set_acc_instanceOwner ""
            (set_acc_inRootTask (db_callerInRootTask callBinding)
               (set_acc_heldLocks (mergeHeldLocks (locksAtCallSite (acc_heldLocks access) callBinding)
                                     (db_callsiteHeldLocks callBinding))
                  (set_acc_function (db_callerFunctionId callBinding) access))))
         liveEntries startedEntries) in
  if bool_decide (loc_file (acc_userLocation remapped) = loc_file (acc_loweredLocation remapped))
  then remapped else set_acc_projection false remapped.

Definition projects (callBinding : DirectCallBinding) (access : AccessFact) : bool :=
  bool_decide (acc_functionId access = db_calleeFunctionId callBinding) &&
  shouldProjectConcreteAccessToCallsite access (db_callsiteLocation callBinding).

Definition projectAccess (callBinding : DirectCallBinding) (access : AccessFact) (concrete : ConcreteAccesses)
  : (ConcreteAccesses * bool) + Empty_set :=
  if projects callBinding access then inl (addConcreteAccess concrete (remappedAccess callBinding access))
  else inl (concrete, false).

Definition projectCall (current : list AccessFact) (callBinding : DirectCallBinding)
    (concrete : ConcreteAccesses) : (ConcreteAccesses * bool) + Empty_set :=
  if bool_decide (db_argumentBindings callBinding = ∅) then inl (concrete, false)
  else each (projectAccess callBinding) current concrete.

(** A round reads the accesses there were when it began. *)
Definition projectRound (callBindings : list DirectCallBinding) (concrete : ConcreteAccesses)
  : (ConcreteAccesses * bool) + Empty_set :=
  each (projectCall (kp_items concrete)) callBindings concrete.

Definition eraseParameterLocks (access : AccessFact) : AccessFact :=
  set_acc_heldLocks (filter (λ lockId, isThroughParameter lockId = false) (acc_heldLocks access)) access.

(** The unit's accesses, before the static initializations are ordered; [None] when the
    fuel runs out. *)
Definition accesses_of (fuel : nat) (pendingAccesses : list PendingAccess) : option (list AccessFact) :=
  let filed := foldl filePending (MkAccessState ∅ nothing_kept) pendingAccesses in
  callBindings ← buildDirectCallBindings callAt constructs lockPropagation taskConcurrency
                   entriesByConstructedClass sites;
  carried ← rounds (each carryCall callBindings) fuel filed;
  match carried with
  | inl st =>
      projected ← rounds (projectRound callBindings) fuel (bindToThreads st);
      match projected with
      | inl concrete =>
          Some (eraseParameterLocks <$> filterProjectedConcreteAccesses (kp_items concrete))
      | inr _ => None
      end
  | inr _ => None
  end.
End unit.

(** ** Static initialization *)

(** The guard of a static local: the object it guards, its lock and the key its release
    orders by. *)
Record Guard := MkGuard { gd_object : string; gd_lockId : string; gd_key : string }.

(** What a global of the module is read for: its name, whether it is local to the unit, the
    name of its lock, and the symbol of the object of a given name. *)
Record GlobalVariable := MkGlobalVariable {
  gv_name : string;
  gv_hasLocalLinkage : bool;
  gv_lockId : option string;
}.

Definition guardOf (objectSymbol : string → option string) (moduleIdentifier : string)
    (projectAnalysis : bool) (guard : GlobalVariable) : option Guard :=
  if negb (starts_with (gv_name guard) "_ZGV") then None
  else
    object ← objectSymbol ("_Z" +:+ drop_prefix 4 (gv_name guard));
    lockId ← gv_lockId guard;
    let key := "static-init:" +:+ lockId in
    Some (MkGuard object lockId
            (if projectAnalysis && gv_hasLocalLinkage guard then moduleIdentifier +:+ "#" +:+ key else key)).

(** [emplace] keeps the first guard of an object. *)
Definition guardsByObject (guards : list Guard) : gmap string Guard :=
  foldl (λ byObject guard,
    if bool_decide (is_Some (byObject !! gd_object guard)) then byObject
    else <[gd_object guard := guard]> byObject) ∅ guards.

Definition orderByGuard (guardByObject : gmap string Guard) (access : AccessFact) : AccessFact :=
  match guardByObject !! acc_symbol access with
  | None => access
  | Some guard =>
      if bool_decide (gd_lockId guard ∈ acc_heldLocks access)
      then set_acc_publication ({[gd_key guard]} ∪ acc_beforeRelease access) (acc_afterAcquire access) access
      else set_acc_publication (acc_beforeRelease access) ({[gd_key guard]} ∪ acc_afterAcquire access) access
  end.

Definition orderStaticInitialization (objectSymbol : string → option string) (moduleIdentifier : string)
    (projectAnalysis : bool) (globals : list GlobalVariable) (accesses : list AccessFact)
  : list AccessFact :=
  orderByGuard (guardsByObject (omap (guardOf objectSymbol moduleIdentifier projectAnalysis) globals))
    <$> accesses.
