(* ===== verification/AccessFactsProps.v ===== *)
(** Carrying accesses to the callers settles: both loops end whatever the calls,
    recursion included; every access kept comes from one of a function's own by calls
    and by the threads started on the objects it goes through; and at the end nothing is
    left to carry, to bind or to project. *)

From S2P Require Import Prelude Text Diagnostics Facts LockIds CallGraph CallCycles CallCyclesProps Rounds KeyIndex.
From S2P Require Import Kept Finite LockEffects LockScope LockPropagation LockOrderCollector LockOrderFacts AccessFacts.
From S2P Require Import DataRace.

Section unit.
Context `{Hash : !HashOrder}.
Context (callAt : nat → CallInstruction) (constructs : nat → option string).
Context (lockPropagation : LockPropagationResult) (taskConcurrency : TaskConcurrencyResult).
Context (sharedObjectBindings : SharedObjectBindings).
Context (reachesElementBeforeHandOver reachesElementOfJoinedThread : string → nat → option N → Z → Z → bool).
Context (accessBytes : nat → option Z).
Context (sharedObjectIds localObjectIds : gset string).
Context (ordering : gmap nat (gset string * gset string)) (heldLocksByAccess : gmap nat (gset string)).
Context (entryConcurrency : gmap string EntryConcurrencyInfo) (sites : list DirectCallSite).
Context (pendings : list PendingAccess) (callBindings : list DirectCallBinding).

Abbreviation shares := (namesObjectSharedWithThread sharedObjectIds localObjectIds).
Abbreviation completed := (completedAccess constructs lockPropagation taskConcurrency sharedObjectBindings
  ordering heldLocksByAccess).
Abbreviation unplaced' := (unplaced sharedObjectIds localObjectIds).
Abbreviation concrete_at := (concreteAtCall callAt sharedObjectBindings reachesElementBeforeHandOver
  reachesElementOfJoinedThread sharedObjectIds localObjectIds).
Abbreviation element_at := (loadOrStoreReachesElementNoThreadHolds sharedObjectBindings
  reachesElementBeforeHandOver reachesElementOfJoinedThread accessBytes).

(** ** Where an access goes *)

(** The object and the place in it are known. *)
Definition named (root : RootBinding) : bool :=
  bool_decide (rb_kind root = RootBindingKind_Global) && bool_decide (rb_index root = None).

(** Every run of the function is a call of the unit, which places the access. *)
Definition left_to_calls (functionKey : string) (access : ParameterizedAccess) : bool :=
  negb (bool_decide (rb_kind (px_root access) = RootBindingKind_Global)) ||
  (bool_decide (functionKey ∈ calledFunctionIds sites) &&
   negb (bool_decide (is_Some (entryConcurrency !! functionKey)))).

Definition own_concrete (pending : PendingAccess) : AccessFact :=
  let root := pe_root pending in
  set_acc_place (rb_symbol root)
    (match element_at (pe_instruction pending) (rb_symbol root) with
     | Some (owner, entry) => placeInElement (rb_region root) owner entry
     | None => rb_region root
     end) (shares (rb_symbol root)) (completed pending).

Definition own_access (pending : PendingAccess) : ParameterizedAccess :=
  MkParameterized (pe_root pending)
    (set_acc_projection true (set_acc_region (rb_region (pe_root pending)) (completed pending))).

(** The accesses a function leaves to its callers. *)
Inductive summarised : string → ParameterizedAccess → Prop :=
  | summarised_own pending : pending ∈ pendings → pe_restatesCalleeAccesses pending = false →
      named (pe_root pending) = false →
      left_to_calls (acc_functionId (completed pending)) (own_access pending) = true →
      summarised (acc_functionId (completed pending)) (own_access pending)
  | summarised_call binding access root : binding ∈ callBindings →
      summarised (db_calleeFunctionId binding) access → rootAtCall access binding = Some root →
      named root = false →
      left_to_calls (db_callerFunctionId binding) (propagatedAtCall binding access root) = true →
      summarised (db_callerFunctionId binding) (propagatedAtCall binding access root)
  | summarised_merged f a a' : summarised f a → summarised f a' → key a = key a' →
      summarised f (merge_threads a a').

(** The accesses with an object of their own. *)
Inductive reached : AccessFact → Prop :=
  | reached_own pending : pending ∈ pendings → pe_restatesCalleeAccesses pending = false →
      named (pe_root pending) = true → reached (own_concrete pending)
  | reached_unplaced pending : pending ∈ pendings → pe_restatesCalleeAccesses pending = false →
      named (pe_root pending) = false →
      left_to_calls (acc_functionId (completed pending)) (own_access pending) = false →
      reached (unplaced' (own_access pending))
  | reached_call binding access root : binding ∈ callBindings →
      summarised (db_calleeFunctionId binding) access → rootAtCall access binding = Some root →
      named root = true → reached (concrete_at binding access root)
  | reached_unplaced_call binding access root : binding ∈ callBindings →
      summarised (db_calleeFunctionId binding) access → rootAtCall access binding = Some root →
      named root = false →
      left_to_calls (db_callerFunctionId binding) (propagatedAtCall binding access root) = false →
      reached (unplaced' (propagatedAtCall binding access root))
  | reached_thread f object access : sharedObjectBindings !! f = Some object → summarised f access →
      rb_kind (px_root access) = RootBindingKind_Argument →
      rb_argumentIndex (px_root access) = so_argumentIndex object →
      reached (accessOfThread f object access)
  | reached_projected binding access : binding ∈ callBindings → db_argumentBindings binding ≠ ∅ →
      reached access → projects binding access = true → reached (remappedAccess binding access)
  | reached_merged a a' : reached a → reached a' → key a = key a' → reached (merge_threads a a').

(** ** Finitely many keys *)

(** The objects the calls and the spawns hand over, and all roots an access starts from. *)
Definition objects : list RootBinding :=
  (callBindings ≫= λ binding, (map_to_list (db_argumentBindings binding)).*2) ++
  (so_object <$> (map_to_list sharedObjectBindings).*2).
Definition base_roots : list RootBinding := (pe_root <$> pendings) ++ objects.
Definition base_regions : list MemoryRegion :=
  (rb_region <$> base_roots) ++ (rb_designated <$> base_roots) ++ ((λ p, acc_region (pe_fact p)) <$> pendings).

Lemma argument_object binding n object :
  binding ∈ callBindings → db_argumentBindings binding !! n = Some object → object ∈ objects.
Proof.
  intros Hb Ho. apply elem_of_app. left. apply list_elem_of_bind. exists binding. split; [|done].
  apply list_elem_of_fmap. exists (n, object). split; [done|]. by apply elem_of_map_to_list.
Qed.

Lemma thread_object f object : sharedObjectBindings !! f = Some object → so_object object ∈ objects.
Proof.
  intros Ho. apply elem_of_app. right. apply list_elem_of_fmap. exists object. split; [done|].
  apply list_elem_of_fmap. exists (f, object). split; [done|]. by apply elem_of_map_to_list.
Qed.

(** Places: an offset of 64 bits or one read from the program, in an element of an entry. *)
Record place_within (r : MemoryRegion) : Prop := {
  pw_offset : in_i64 (byteOffset r) ∨ byteOffset r ∈ byteOffset <$> base_regions;
  pw_size : byteSize r ∈ byteSize <$> base_regions;
  pw_entry : elementEntry r ∈ (elementEntry <$> base_regions) ++ (map_to_list sharedObjectBindings).*1;
}.

Lemma place_within_base r : r ∈ base_regions → place_within r.
Proof.
  intros Hr. split; [right; by apply list_elem_of_fmap_2|by apply list_elem_of_fmap_2|].
  apply elem_of_app. left. by apply list_elem_of_fmap_2.
Qed.

Lemma place_within_root root : root ∈ base_roots → place_within (rb_region root) ∧ place_within (rb_designated root).
Proof.
  intros Hr. split; apply place_within_base, elem_of_app; [left|right; apply elem_of_app; left];
    by apply list_elem_of_fmap_2.
Qed.

Lemma place_within_rebased r argument designated :
  place_within r → place_within designated → place_within (rebasedOn r argument designated).
Proof.
  intros [H1 H2 H3] Hd. unfold rebasedOn. case_match; [done|]. split; cbn; [left; apply wrap_i64_range|done|done].
Qed.

Lemma place_within_element r owner entry :
  place_within r → is_Some (sharedObjectBindings !! entry) → place_within (placeInElement r owner entry).
Proof.
  intros [H1 H2 H3] [object Ho]. unfold placeInElement. destruct (hasKnownOffset r); [done|].
  split; cbn; [done|done|]. apply elem_of_app. right. apply list_elem_of_fmap.
  exists (entry, object). split; [done|]. by apply elem_of_map_to_list.
Qed.

Lemma place_within_finite : pred_finite place_within.
Proof.
  eapply finite_mono.
  - apply (finite_bind (λ _ : bool, True)); [exact finite_bool|]. intros known.
    apply (finite_bind (λ z, in_i64 z ∨ z ∈ byteOffset <$> base_regions));
      [apply finite_or; [exact finite_i64|apply finite_list]|]. intros offset.
    apply (finite_bind (λ z, z ∈ byteSize <$> base_regions)); [apply finite_list|]. intros size.
    apply (finite_bind (λ owner, owner ∈ [ElementOwner_None; ElementOwner_AccessingThread;
      ElementOwner_NotYetHandedOver; ElementOwner_JoinedThisRound])); [apply finite_list|]. intros owner.
    apply (finite_bind (λ entry, entry ∈ (elementEntry <$> base_regions) ++ (map_to_list sharedObjectBindings).*1));
      [apply finite_list|]. intros entry. exact (finite_eq (MkRegion known offset size owner entry)).
  - intros r [H1 H2 H3]. exists (hasKnownOffset r). split; [done|]. exists (byteOffset r). split; [done|].
    exists (byteSize r). split; [done|]. exists (elementOwner r). split; [destruct (elementOwner r); set_solver|].
    exists (elementEntry r). split; [done|]. by destruct r.
Qed.

(** Indices: over a parameter the program names, with 64-bit numbers. *)
Definition base_indices : list LinearIndex :=
  omap rb_index base_roots ++ (callBindings ≫= λ binding, (map_to_list (db_indexArguments binding)).*2).

Record index_within (i : LinearIndex) : Prop := {
  iw_parameter : li_parameter i ∈ li_parameter <$> base_indices;
  iw_scale : in_i64 (li_scale i) ∨ li_scale i ∈ li_scale <$> base_indices;
  iw_offset : in_i64 (li_offset i) ∨ li_offset i ∈ li_offset <$> base_indices;
}.

Lemma index_within_base i : i ∈ base_indices → index_within i.
Proof. intros Hi. split; [|right|right]; by apply list_elem_of_fmap_2. Qed.

Lemma index_within_argument binding n index :
  binding ∈ callBindings → db_indexArguments binding !! n = Some index → index_within index.
Proof.
  intros Hb Hi. apply index_within_base, elem_of_app. right. apply list_elem_of_bind. exists binding. split; [|done].
  apply list_elem_of_fmap. exists (n, index). split; [done|]. by apply elem_of_map_to_list.
Qed.

Lemma checked_i64_range z z' : checked_i64 z = Some z' → in_i64 z'.
Proof. unfold checked_i64. case_bool_decide as E; [|done]. intros [= <-]. rewrite <- E. apply wrap_i64_range. Qed.

Lemma substituteLinearIndex_spec outer inner index :
  substituteLinearIndex outer inner = Some index →
  li_parameter index = li_parameter inner ∧ in_i64 (li_scale index) ∧ in_i64 (li_offset index).
Proof.
  unfold substituteLinearIndex. destruct (_ || _).
  { intros [= <-]. cbn. split_and!; [done|unfold in_i64; lia|unfold in_i64; lia]. }
  destruct (checked_i64 (_ * li_scale inner)) as [scale|] eqn:E1; cbn; [|done].
  destruct (checked_i64 (_ * li_offset inner)) as [shift|] eqn:E2; cbn; [|done].
  destruct (checked_i64 (_ + _)) as [offset|] eqn:E3; cbn; [|done]. intros [= <-]. cbn.
  split_and!; [done|by eapply checked_i64_range|by eapply checked_i64_range].
Qed.

Lemma index_within_substituted outer inner index :
  index_within inner → substituteLinearIndex outer inner = Some index → index_within index.
Proof.
  intros [H1 _ _] (E & H2 & H3)%substituteLinearIndex_spec. split; [by rewrite E|by left|by left].
Qed.

Lemma index_within_finite : pred_finite index_within.
Proof.
  eapply finite_mono.
  - apply (finite_bind (λ p, p ∈ li_parameter <$> base_indices)); [apply finite_list|]. intros parameter.
    apply (finite_bind (λ z, in_i64 z ∨ z ∈ li_scale <$> base_indices));
      [apply finite_or; [exact finite_i64|apply finite_list]|]. intros scale.
    apply (finite_bind (λ z, in_i64 z ∨ z ∈ li_offset <$> base_indices));
      [apply finite_or; [exact finite_i64|apply finite_list]|]. intros offset.
    apply (finite_bind (λ _ : bool, True)); [exact finite_bool|]. intros widened.
    exact (finite_eq (MkLinearIndex parameter scale offset widened)).
  - intros i [H1 H2 H3]. exists (li_parameter i). split; [done|]. exists (li_scale i). split; [done|].
    exists (li_offset i). split; [done|]. exists (li_widened i). split; [done|]. by destruct i.
Qed.

(** Roots: an object of the program, at one of these places and indices. *)
Definition root_names (root : RootBinding) : RootBindingKind * string * N :=
  (rb_kind root, rb_symbol root, rb_argumentIndex root).

Record root_within (root : RootBinding) : Prop := {
  rw_names : root_names root ∈ root_names <$> base_roots;
  rw_place : place_within (rb_region root);
  rw_index : ∀ i, rb_index root = Some i → index_within i;
}.

Lemma root_within_base root : root ∈ base_roots → root_within root.
Proof.
  intros Hr. split; [by apply list_elem_of_fmap_2|by apply place_within_root|].
  intros i Hi. apply index_within_base, elem_of_app. left. apply list_elem_of_omap. eauto.
Qed.

Lemma root_key_finite : pred_finite (λ k, ∃ root, root_within root ∧ k = rootBindingKey root).
Proof.
  eapply finite_mono.
  - apply (finite_bind (λ names, names ∈ root_names <$> base_roots)); [apply finite_list|]. intros names.
    apply (finite_bind place_within); [exact place_within_finite|]. intros region.
    apply (finite_bind (λ o, ∀ i, o = Some i → index_within i)); [exact (finite_option _ index_within_finite)|].
    intros index. exact (finite_eq (rootBindingKey
      (MkRootBinding names.1.1 names.1.2 names.2 region default_region index))).
  - intros k (root & [H1 H2 H3] & ->). exists (root_names root). split; [done|].
    exists (rb_region root). split; [done|]. exists (rb_index root). by split.
Qed.

Lemma rootAtCall_within binding access root :
  binding ∈ callBindings → root_within (px_root access) → place_within (acc_region (px_fact access)) →
  rootAtCall access binding = Some root → root_within root.
Proof.
  intros Hb [H1 H2 H3] Hp. unfold rootAtCall.
  set (placed := match indexAtCall _ _ with Some _ => _ | None => _ end).
  assert (place_within placed.1 ∧ ∀ i, placed.2 = Some i → index_within i) as [Hplace Hindex].
  { unfold placed, indexAtCall. destruct (rb_index (px_root access)) as [index|]; cbn; [|done].
    destruct (li_parameter index) as [parameter|]; cbn; [|done].
    destruct (db_indexArguments binding !! parameter) as [argument|] eqn:Ea; cbn; [|done].
    destruct (substituteLinearIndex index argument) as [index'|] eqn:Es; [|done].
    pose proof (index_within_argument _ _ _ Hb Ea) as Hargument.
    pose proof (index_within_substituted _ _ _ Hargument Es) as Hindex'.
    case_bool_decide; cbn; [|by split; [|intros i [= <-]]]. split; [|done].
    destruct (li_widened index'); [done|]. destruct Hp. split; cbn; [left|done|done].
    by apply substituteLinearIndex_spec in Es as (_ & _ & ?). }
  destruct placed as [place index]. cbn [fst snd] in *. case_bool_decide.
  { intros [= <-]. split; cbn; done. }
  destruct (db_argumentBindings binding !! _) as [object|] eqn:Eo; cbn; [|done]. intros [= <-].
  assert (object ∈ base_roots) as Hobject by (apply elem_of_app; right; by eapply argument_object).
  destruct (place_within_root _ Hobject) as [Hr Hd]. split; cbn.
  - by apply (list_elem_of_fmap_2 root_names) in Hobject.
  - by apply place_within_rebased.
  - intros i Hi. destruct index as [index|]; [|done]. destruct (hasKnownOffset _); [|done].
    eapply index_within_substituted; [|exact Hi]. by apply Hindex.
Qed.

(** Locks: named by the program, or at a place in an object it hands over. *)
Definition base_locks : list string :=
  (pendings ≫= λ pending, elements (acc_heldLocks (completed pending))) ++
  (callBindings ≫= λ binding, elements (db_callsiteHeldLocks binding)).

Definition lock_within (lockId : string) : Prop :=
  lockId ∈ base_locks ∨ ∃ object, object ∈ objects ∧ ∃ place, lockId = lockIdAt object place.

Lemma lock_within_finite : pred_finite lock_within.
Proof.
  apply finite_or; [apply finite_list|]. apply finite_bind; [apply finite_list|]. intros object.
  eapply finite_mono.
  - apply (finite_bind (λ _ : bool, True)); [exact finite_bool|]. intros known.
    apply (finite_bind in_i64); [exact finite_i64|]. intros offset.
    exact (finite_eq ((if bool_decide (rb_kind object = RootBindingKind_Argument)
      then kParameterLockPrefix +:+ pretty (rb_argumentIndex object) else rb_symbol object) +:+
      suffix (place_at known offset))).
  - intros lockId (place & ->). exists (hasKnownOffset (rb_region object) && hasKnownOffset place). split; [done|].
    exists (wrap_i64 (byteOffset (rb_region object) + byteOffset place)). split; [apply wrap_i64_range|].
    unfold lockIdAt. case_bool_decide; by rewrite ?append_assoc.
Qed.

Lemma callsite_lock binding lockId :
  binding ∈ callBindings → lockId ∈ db_callsiteHeldLocks binding → lock_within lockId.
Proof.
  intros Hb Hl. left. apply elem_of_app. right. apply list_elem_of_bind. exists binding. split; [|done].
  by apply elem_of_elements.
Qed.

Lemma renamed_lock (step : gset string → string → gset string) l (X : gset string) :
  (∀ X lockId, lock_within lockId → set_Forall lock_within X → set_Forall lock_within (step X lockId)) →
  Forall lock_within l → set_Forall lock_within X → set_Forall lock_within (foldl step X l).
Proof.
  intros Hstep Hl. revert X. induction Hl as [|lockId l Hlock _ IH]; intros X HX; [done|]. cbn. auto.
Qed.

Lemma set_Forall_sorted (X : gset string) : set_Forall lock_within X → Forall lock_within (sorted_elements X).
Proof. intros HX. apply Forall_forall. intros x Hx%elem_of_sorted_elements. auto. Qed.

Lemma locksAtCall_within binding X :
  binding ∈ callBindings → set_Forall lock_within X →
  set_Forall lock_within (mergeHeldLocks (locksAtCallSite X binding) (db_callsiteHeldLocks binding)).
Proof.
  intros Hb HX. unfold mergeHeldLocks. apply set_Forall_union; [|intros lockId Hl; by eapply callsite_lock].
  unfold locksAtCallSite. apply renamed_lock; [|by apply set_Forall_sorted|by intros ? ?%elem_of_empty].
  intros Y lockId Hl HY. destruct (lockPlace lockId) as [place|].
  - destruct (db_argumentBindings binding !! _) as [object|] eqn:Eo; [|done].
    apply set_Forall_union; [|done]. apply set_Forall_singleton. right. exists object.
    split; [by eapply argument_object|eauto].
  - apply set_Forall_union; [|done]. by apply set_Forall_singleton.
Qed.

Lemma locksOnSharedObject_within f object X :
  sharedObjectBindings !! f = Some object → set_Forall lock_within X →
  set_Forall lock_within (locksOnSharedObject X object).
Proof.
  intros Ho HX. unfold locksOnSharedObject.
  apply renamed_lock; [|by apply set_Forall_sorted|by intros ? ?%elem_of_empty].
  intros Y lockId Hl HY. destruct (lockPlace lockId) as [place|].
  - case_bool_decide; [|done]. apply set_Forall_union; [|done]. apply set_Forall_singleton. right.
    exists (so_object object). split; [by eapply thread_object|eauto].
  - apply set_Forall_union; [|done]. by apply set_Forall_singleton.
Qed.

(** ** Finitely many accesses, but for their threads *)

(** What no call changes of an access. *)
Definition fixed (a : AccessFact) :=
  (acc_kind a, acc_aliasProvenance a, acc_loweredLocation a, acc_isAtomic a, acc_coarseCallEffect a,
   acc_guessedIdentity a, acc_beforeRelease a, acc_afterAcquire a).

Definition all_threads : ThreadEntrySet :=
  ⋃ ((λ pending, acc_liveEntries (completed pending) ∪ acc_startedEntries (completed pending)) <$> pendings).

Record fact_within (a : AccessFact) : Prop := {
  fw_fixed : fixed a ∈ (λ pending, fixed (completed pending)) <$> pendings;
  fw_symbol : acc_symbol a ∈ (rb_symbol <$> base_roots) ++ ((λ pending, acc_symbol (completed pending)) <$> pendings);
  fw_place : place_within (acc_region a);
  fw_function : acc_functionId a ∈ ((λ pending, acc_functionId (completed pending)) <$> pendings) ++
    (db_callerFunctionId <$> callBindings);
  fw_owner : acc_instanceOwner a ∈ "" :: ((λ pending, acc_instanceOwner (completed pending)) <$> pendings) ++
    (map_to_list sharedObjectBindings).*1;
  fw_locks : set_Forall lock_within (acc_heldLocks a);
  fw_live : acc_liveEntries a ⊆ all_threads;
  fw_started : acc_startedEntries a ⊆ all_threads;
}.

(** An access with the fields that make its key. *)
Definition rebuilt (f : AccessKind * AliasProvenance * SourceLocation * bool * bool * bool * gset string * gset string)
    (symbol : string) (region : MemoryRegion) (functionId : string) (sharedObject inRootTask : bool)
    (instanceOwner : string) (heldLocks : gset string) : AccessFact :=
  let '(kind, provenance, lowered, isAtomic, coarse, guessed, before, after) := f in
  MkAccess symbol region functionId kind provenance lowered no_location false isAtomic coarse guessed
    sharedObject inRootTask ∅ ∅ false instanceOwner heldLocks before after.

Lemma fact_key_finite : pred_finite (λ k, ∃ a, fact_within a ∧ k = accessFactKey a).
Proof.
  destruct (finite_set _ lock_within_finite) as [locks Hlocks]. eapply finite_mono.
  - apply (finite_bind (λ f, f ∈ (λ pending, fixed (completed pending)) <$> pendings)); [apply finite_list|]. intros f.
    apply (finite_bind (λ s, s ∈ (rb_symbol <$> base_roots) ++ ((λ pending, acc_symbol (completed pending)) <$> pendings)));
      [apply finite_list|]. intros symbol.
    apply (finite_bind place_within); [exact place_within_finite|]. intros region.
    apply (finite_bind (λ s, s ∈ ((λ pending, acc_functionId (completed pending)) <$> pendings) ++
      (db_callerFunctionId <$> callBindings))); [apply finite_list|]. intros functionId.
    apply (finite_bind (λ _ : bool, True)); [exact finite_bool|]. intros shared.
    apply (finite_bind (λ _ : bool, True)); [exact finite_bool|]. intros inRoot.
    apply (finite_bind (λ s, s ∈ "" :: ((λ pending, acc_instanceOwner (completed pending)) <$> pendings) ++
      (map_to_list sharedObjectBindings).*1)); [apply finite_list|]. intros owner.
    apply (finite_bind (λ X, X ⊆ locks)); [apply finite_subsets|]. intros X.
    exact (finite_eq (accessFactKey (rebuilt f symbol region functionId shared inRoot owner X))).
  - intros k (a & [H1 H2 H3 H4 H5 H6 _ _] & ->). exists (fixed a). split; [done|].
    exists (acc_symbol a). split; [done|]. exists (acc_region a). split; [done|].
    exists (acc_functionId a). split; [done|]. exists (acc_sharedObject a). split; [done|].
    exists (acc_inRootTask a). split; [done|]. exists (acc_instanceOwner a). split; [done|].
    exists (acc_heldLocks a). split; [intros l Hl; by apply Hlocks, H6|]. by destruct a.
Qed.

Definition symbol_within (symbol : string) : Prop :=
  symbol ∈ (rb_symbol <$> base_roots) ++ ((λ pending, acc_symbol (completed pending)) <$> pendings).

Lemma symbol_within_root root : root_within root → symbol_within (rb_symbol root).
Proof.
  intros [(base & E & Hb)%list_elem_of_fmap _ _]. apply elem_of_app. left. apply list_elem_of_fmap.
  exists base. split; [|done]. by injection E.
Qed.

Lemma element_entry instruction operand offset size symbol owner entry :
  reachesElementNoThreadHolds sharedObjectBindings reachesElementBeforeHandOver reachesElementOfJoinedThread
    instruction operand offset size symbol = Some (owner, entry) → is_Some (sharedObjectBindings !! entry).
Proof.
  unfold reachesElementNoThreadHolds. intros Hin%head_Some_elem_of.
  apply list_elem_of_omap in Hin as ([f binding] & Hf & E). apply elem_of_hash_items in Hf.
  destruct (_ || _); [done|]. destruct (reachesElementBeforeHandOver _ _ _ _ _); [by injection E as <- <-|].
  destruct (reachesElementOfJoinedThread _ _ _ _ _); [by injection E as <- <-|done].
Qed.

Lemma fact_within_projection allowed a : fact_within a → fact_within (set_acc_projection allowed a).
Proof. destruct a. by intros []. Qed.

Lemma own_within pending symbol region shared :
  pending ∈ pendings → symbol_within symbol → place_within region →
  fact_within (set_acc_place symbol region shared (completed pending)).
Proof.
  intros Hp Hs Hr.
  assert (∀ (B : Type) (g : PendingAccess → B), g pending ∈ g <$> pendings) as Hin by (intros; by apply list_elem_of_fmap_2).
  assert (∀ (g : AccessFact → ThreadEntrySet), g = acc_liveEntries ∨ g = acc_startedEntries →
    g (completed pending) ⊆ all_threads) as Hthreads.
  { intros g Hg x Hx. apply elem_of_union_list. eexists. split; [apply Hin|]. destruct Hg; subst; set_solver. }
  pose proof (Hin _ (λ p, fixed (completed p))) as H1. pose proof (Hin _ (λ p, acc_functionId (completed p))) as H2.
  pose proof (Hin _ (λ p, acc_instanceOwner (completed p))) as H3.
  pose proof (Hthreads _ (or_introl eq_refl)) as H4. pose proof (Hthreads _ (or_intror eq_refl)) as H5.
  assert (set_Forall lock_within (acc_heldLocks (completed pending))) as H6.
  { intros l Hl. left. apply elem_of_app. left. apply list_elem_of_bind. exists pending.
    split; [by apply elem_of_elements|done]. }
  clear Hin Hthreads. cbn beta in *. destruct (completed pending) eqn:E. cbn in *.
  split; cbn; [exact H1|done|done|apply elem_of_app; by left| |done|done|done].
  right. apply elem_of_app. by left.
Qed.

(** What a call makes of an access. *)
Lemma within_at_call binding a a' :
  binding ∈ callBindings → fact_within a → fixed a' = fixed a → symbol_within (acc_symbol a') →
  place_within (acc_region a') → acc_functionId a' = db_callerFunctionId binding →
  acc_instanceOwner a' = acc_instanceOwner a ∨ acc_instanceOwner a' = "" →
  acc_heldLocks a' = mergeHeldLocks (locksAtCallSite (acc_heldLocks a) binding) (db_callsiteHeldLocks binding) →
  acc_liveEntries a' ⊆ acc_liveEntries a → acc_startedEntries a' ⊆ acc_liveEntries a → fact_within a'.
Proof.
  intros Hb [H1 H2 H3 H4 H5 H6 H7 H8] E1 Hs Hr E2 E3 E4 E5 E6. split; [by rewrite E1|done|done| | | | |].
  - rewrite E2. apply elem_of_app. right. by apply list_elem_of_fmap_2.
  - destruct E3 as [->| ->]; [done|by left].
  - rewrite E4. by apply locksAtCall_within.
  - by etrans.
  - by etrans.
Qed.

Lemma threadsThroughCall_subset live started liveAtCall startedAtCall :
  (threadsThroughCall live started liveAtCall startedAtCall).1 ⊆ live ∧
  (threadsThroughCall live started liveAtCall startedAtCall).2 ⊆ live.
Proof. cbn. split; set_solver. Qed.

Lemma concreteAtCall_within binding access root :
  binding ∈ callBindings → fact_within (px_fact access) → root_within root →
  fact_within (concrete_at binding access root).
Proof.
  intros Hb Ha Hr. pose proof (symbol_within_root root Hr) as Hs. unfold concreteAtCall.
  cbv zeta. match goal with |- context [set_acc_place _ ?r _ _] => set (region := r) end.
  assert (place_within region) as Hplace.
  { unfold region. destruct (_ && _); [|apply Hr]. destruct (reachesElementNoThreadHolds _ _ _ _ _ _ _ _) as [[owner entry]|] eqn:E;
      [|apply Hr]. apply place_within_element; [apply Hr|by eapply element_entry]. }
  clearbody region. destruct (threadsAtCallFor access binding) as [liveAtCall startedAtCall].
  pose proof (threadsThroughCall_subset (acc_liveEntries (px_fact access)) (acc_startedEntries (px_fact access))
    liveAtCall startedAtCall) as [Hl Hst]. destruct (threadsThroughCall _ _ _ _) as [live' started'].
  eapply (within_at_call binding (px_fact access)); [done|done|..];
    (destruct (px_fact access); destruct (shouldRemapAccessToCallsite _ _)); cbn in *; auto.
Qed.

Lemma propagatedAtCall_within binding access root :
  binding ∈ callBindings → fact_within (px_fact access) → root_within root →
  fact_within (px_fact (propagatedAtCall binding access root)).
Proof.
  intros Hb Ha Hr. unfold propagatedAtCall. destruct (threadsAtCallFor access binding) as [liveAtCall startedAtCall].
  pose proof (threadsThroughCall_subset (acc_liveEntries (px_fact access)) (acc_startedEntries (px_fact access))
    liveAtCall startedAtCall) as [Hl Hst]. destruct (threadsThroughCall _ _ _ _) as [live' started'].
  pose proof (rw_place _ Hr) as Hplace. pose proof (fw_symbol _ Ha) as Hsymbol.
  eapply (within_at_call binding (px_fact access)); [done|done|..]; cbn [px_fact];
    (destruct (px_fact access); destruct (shouldRemapAccessToCallsite _ _)); cbn in *; auto.
Qed.

Lemma remapped_within binding a :
  binding ∈ callBindings → fact_within a → fact_within (remappedAccess binding a).
Proof.
  intros Hb Ha. unfold remappedAccess.
  pose proof (threadsThroughCall_subset (acc_liveEntries a) (acc_startedEntries a)
    (db_liveAtCall binding) (db_startedAtCall binding)) as [Hl Hst]. destruct (threadsThroughCall _ _ _ _) as [live' started'].
  pose proof (fw_place _ Ha) as Hplace. pose proof (fw_symbol _ Ha) as Hsymbol.
  eapply (within_at_call binding a); [done|done|..]; (destruct a; case_bool_decide); cbn in *; auto.
Qed.

Lemma accessOfThread_within f object access :
  sharedObjectBindings !! f = Some object → fact_within (px_fact access) → root_within (px_root access) →
  fact_within (accessOfThread f object access).
Proof.
  intros Ho Ha Hr. unfold accessOfThread. pose proof (thread_object _ _ Ho) as Hobject.
  assert (so_object object ∈ base_roots) as Hbase by (apply elem_of_app; by right).
  destruct (place_within_root _ Hbase) as [_ Hd]. cbv zeta.
  match goal with |- context [set_acc_place _ ?r _ _] => set (region := r) end.
  assert (place_within region) as Hplace.
  { pose proof (place_within_rebased (rb_region (px_root access)) (rb_region (so_object object)) _ (rw_place _ Hr) Hd).
    unfold region. destruct (so_elementPerThread object); [|done]. by apply place_within_element. }
  clearbody region. pose proof (locksOnSharedObject_within f object _ Ho (fw_locks _ Ha)) as Hlocks.
  pose proof (symbol_within_root _ (root_within_base _ Hbase)) as Hsymbol.
  destruct Ha as [H1 H2 H3 H4 H5 H6 H7 H8].
  split; destruct (px_fact access); case_bool_decide; cbn in *; try done.
  right. apply elem_of_app. right. apply list_elem_of_fmap. exists (f, object).
  split; [done|]. by apply elem_of_map_to_list.
Qed.

Lemma propagated_root binding access root : px_root (propagatedAtCall binding access root) = root.
Proof. unfold propagatedAtCall. by destruct (threadsAtCallFor access binding). Qed.

Definition access_within (access : ParameterizedAccess) : Prop :=
  root_within (px_root access) ∧ fact_within (px_fact access).

Lemma merge_within a b : fact_within a → fact_within b → fact_within (merge_threads a b).
Proof.
  destruct a, b. intros [H1 H2 H3 H4 H5 H6 H7 H8] [_ _ _ _ _ _ H7' H8'].
  split; [exact H1|exact H2|exact H3|exact H4|exact H5|exact H6| |].
  - exact (union_least _ _ _ H7 H7').
  - exact (union_least _ _ _ H8 H8').
Qed.

Lemma summarised_within f a : summarised f a → access_within a.
Proof.
  induction 1 as [pending Hp _ _ _|binding access root Hb _ [IHr IHf] Er _ _|f a a' _ [IHr IHf] _ [_ IHf'] _].
  - assert (pe_root pending ∈ base_roots) as Hr by (apply elem_of_app; left; by apply list_elem_of_fmap_2).
    split; [by apply root_within_base|]. apply fact_within_projection. apply own_within; [done| |by apply place_within_root].
    apply elem_of_app. right. by apply (list_elem_of_fmap_2 (λ p, acc_symbol (completed p))).
  - assert (root_within root) as Hr by (eapply rootAtCall_within; [done|done|apply IHf|done]).
    split; [by rewrite propagated_root|]. by apply propagatedAtCall_within.
  - split; [done|]. by apply (merge_within (px_fact a) (px_fact a')).
Qed.

Lemma unplaced_within access : access_within access → fact_within (unplaced' access).
Proof.
  intros [Hr Ha]. apply fact_within_projection. pose proof (symbol_within_root _ Hr) as Hs.
  destruct (px_fact access). destruct Ha. by split.
Qed.

Lemma propagated_within binding access root :
  binding ∈ callBindings → summarised (db_calleeFunctionId binding) access → rootAtCall access binding = Some root →
  access_within (propagatedAtCall binding access root).
Proof.
  intros Hb [Hr Hf]%summarised_within Er.
  assert (root_within root) as Hr' by (eapply rootAtCall_within; [done|done|apply Hf|done]).
  split; [by rewrite propagated_root|by apply propagatedAtCall_within].
Qed.

Lemma reached_within a : reached a → fact_within a.
Proof.
  induction 1 as [pending Hp _ _|pending Hp _ _ _|binding access root Hb Ha Er _|binding access root Hb Ha Er _ _
    |f object access Ho Ha _ _|binding access Hb _ _ IH _|a a' _ IH _ IH' _].
  - assert (pe_root pending ∈ base_roots) as Hr by (apply elem_of_app; left; by apply list_elem_of_fmap_2).
    pose proof (root_within_base _ Hr) as Hroot. apply own_within; [done|by apply symbol_within_root|].
    unfold loadOrStoreReachesElementNoThreadHolds. destruct (accessBytes _) as [size|]; cbn; [|apply Hroot].
    destruct (reachesElementNoThreadHolds _ _ _ _ _ _ _ _) as [[owner entry]|] eqn:E; [|apply Hroot].
    apply place_within_element; [apply Hroot|by eapply element_entry].
  - assert (pe_root pending ∈ base_roots) as Hr by (apply elem_of_app; left; by apply list_elem_of_fmap_2).
    apply unplaced_within. split; [by apply root_within_base|]. apply fact_within_projection.
    apply own_within; [done| |by apply place_within_root].
    apply elem_of_app. right. by apply (list_elem_of_fmap_2 (λ p, acc_symbol (completed p))).
  - apply summarised_within in Ha as [Hr Hf]. apply concreteAtCall_within; [done|done|].
    eapply rootAtCall_within; [done|done|apply Hf|done].
  - apply unplaced_within. by apply propagated_within.
  - apply summarised_within in Ha as [Hr Hf]. by eapply accessOfThread_within.
  - by apply remapped_within.
  - by apply merge_within.
Qed.

Lemma summary_keys_finite : pred_finite (λ k, ∃ a, access_within a ∧ k = parameterizedAccessKey a).
Proof.
  eapply finite_mono.
  - apply (finite_bind _ (λ root k, ∃ fact, (∃ a, fact_within a ∧ fact = accessFactKey a) ∧ k = root +:+ "|" +:+ fact) root_key_finite).
    intros root. apply (finite_bind _ (λ fact k, k = root +:+ "|" +:+ fact) fact_key_finite).
    intros fact. apply finite_eq.
  - intros k (a & [Hr Hf] & ->). exists (rootBindingKey (px_root a)). split; [eauto|].
    exists (accessFactKey (px_fact a)). split; [eauto|done].
Qed.

(** ** The calls carry accesses *)

Abbreviation items_of st f := (kp_items (summaryOf (as_summaries st) f)).
Abbreviation add_summary := (addSummary sharedObjectIds localObjectIds entryConcurrency sites).
Abbreviation carry_access := (carryAccess callAt sharedObjectBindings reachesElementBeforeHandOver
  reachesElementOfJoinedThread sharedObjectIds localObjectIds entryConcurrency sites).
Abbreviation carry_call := (carryCall callAt sharedObjectBindings reachesElementBeforeHandOver
  reachesElementOfJoinedThread sharedObjectIds localObjectIds entryConcurrency sites).

Record carry_ok (st : AccessState) : Prop := {
  ck_summaries : ∀ f, kept_ok (summarised f) (summaryOf (as_summaries st) f);
  ck_concrete : kept_ok reached (as_concrete st);
}.

Record carry_le (st st' : AccessState) : Prop := {
  cl_summaries : ∀ f, items_le (items_of st f) (items_of st' f);
  cl_concrete : items_le (kp_items (as_concrete st)) (kp_items (as_concrete st'));
}.

#[local] Instance carry_le_preorder : PreOrder carry_le.
Proof.
  split; [by intros st; split|]. intros s1 s2 s3 [H1 H2] [H3 H4].
  split; [|by etrans]. intros f. etrans; [apply H1|apply H3].
Qed.

(** The same summaries: all a round looks at. *)
Definition same_summaries (st st' : AccessState) : Prop :=
  carry_le st st' ∧ ∀ f, items_of st' f = items_of st f.

#[local] Instance same_summaries_preorder : PreOrder same_summaries.
Proof.
  split; [by intros st; split|]. intros s1 s2 s3 [H1 H2] [H3 H4]. split; [by etrans|]. congruence.
Qed.

Definition carry_weight (st : AccessState) : nat :=
  sum_list_with (λ f, weight (items_of st f)) (db_callerFunctionId <$> callBindings).

Lemma carry_weight_mono st st' : carry_le st st' → carry_weight st ≤ carry_weight st'.
Proof. intros [H _]. apply sum_list_with_le. intros f _. apply weight_le, H. Qed.

Lemma summaryOf_insert (m : Summaries) f g summary :
  summaryOf (<[f := summary]> m) g = if decide (f = g) then summary else summaryOf m g.
Proof.
  unfold summaryOf. destruct (decide (f = g)) as [<-|Hne]; [by rewrite lookup_insert_eq|by rewrite lookup_insert_ne].
Qed.

(** Keeping an access with an object of its own. *)
Lemma addConcrete_ok st a :
  carry_ok st → reached a →
  let st' := MkAccessState (as_summaries st) (addConcreteAccess (as_concrete st) a).1 in
  carry_ok st' ∧ same_summaries st st' ∧ kept_in (kp_items (as_concrete st')) a.
Proof.
  intros [H1 H2] Ha. unfold addConcreteAccess.
  pose proof (keep_ok reached (as_concrete st) a reached_merged H2 Ha) as Hk.
  destruct (keep (as_concrete st) a) as [kept changed]. destruct Hk as (Hok & Hle & Hin & _).
  cbn. split_and!; [by split|split; [by split|done]|done].
Qed.

(** Where an access of a function ends up. *)
Definition filed_under (f : string) (access : ParameterizedAccess) (st : AccessState) : Prop :=
  if left_to_calls f access then kept_in (items_of st f) access
  else kept_in (kp_items (as_concrete st)) (unplaced' access).

Lemma filed_under_le f access st st' : filed_under f access st → carry_le st st' → filed_under f access st'.
Proof.
  unfold filed_under. intros H' [H1 H2]. destruct (left_to_calls f access);
    [eapply kept_in_le; [apply H1|done]|eapply kept_in_le; [exact H2|done]].
Qed.

Lemma addSummary_ok f access st :
  (left_to_calls f access = true → summarised f access) →
  (left_to_calls f access = false → reached (unplaced' access)) → carry_ok st →
  let '(st', changed) := add_summary f access st in
  carry_ok st' ∧ carry_le st st' ∧ filed_under f access st' ∧ (∀ g, g ≠ f → items_of st' g = items_of st g) ∧
  if changed then weight (items_of st f) < weight (items_of st' f) else same_summaries st st'.
Proof.
  intros Hs Hu Hok. unfold addSummary, filed_under. fold (left_to_calls f access).
  destruct (left_to_calls f access).
  2:{ destruct (addConcrete_ok st _ Hok (Hu eq_refl)) as (H1 & H2 & H3).
      split_and!; [done|apply H2|done|done|done]. }
  destruct Hok as [H1 H2]. unfold addParameterizedAccess.
  pose proof (keep_ok (summarised f) (summaryOf (as_summaries st) f) access (summarised_merged f) (H1 f) (Hs eq_refl)) as Hk.
  destruct (keep (summaryOf _ f) access) as [summary changed]. destruct Hk as (Hkept & Hle & Hin & _ & Hch).
  set (st' := MkAccessState _ _). assert (items_of st' f = kp_items summary) as Ef.
  { cbn. rewrite summaryOf_insert. by rewrite decide_True. }
  assert (∀ g, g ≠ f → summaryOf (as_summaries st') g = summaryOf (as_summaries st) g) as Eg.
  { intros g Hg. cbn. rewrite summaryOf_insert. by rewrite decide_False. }
  assert (carry_le st st') as Hst.
  { split; [|done]. intros g. destruct (decide (g = f)) as [->|Hg]; [by rewrite Ef|by rewrite Eg]. }
  split_and!.
  - split; [|done]. intros g. destruct (decide (g = f)) as [->|Hg]; [|by rewrite Eg].
    cbn. rewrite summaryOf_insert. by rewrite decide_True.
  - done.
  - by rewrite Ef.
  - intros g Hg. by rewrite Eg.
  - rewrite Ef. destruct changed; [done|]. split; [done|].
    intros g. destruct (decide (g = f)) as [->|Hg]; [by rewrite Ef|by rewrite Eg].
Qed.

(** An access of the callee a call has carried. *)
Definition carried (binding : DirectCallBinding) (access : ParameterizedAccess) (st : AccessState) : Prop :=
  ∀ root, rootAtCall access binding = Some root →
    if named root then kept_in (kp_items (as_concrete st)) (concrete_at binding access root)
    else filed_under (db_callerFunctionId binding) (propagatedAtCall binding access root) st.

Lemma carried_le binding access st st' : carried binding access st → carry_le st st' → carried binding access st'.
Proof.
  intros Hc Hle root Hr. specialize (Hc root Hr). destruct (named root); [|by eapply filed_under_le].
  eapply kept_in_le; [apply Hle|done].
Qed.

Definition carry_step := step_ok carry_ok carry_le (λ _ : Empty_set, False) carry_weight same_summaries.

Lemma carryAccess_ok binding access st :
  binding ∈ callBindings → summarised (db_calleeFunctionId binding) access → carry_ok st →
  carry_step (carried binding access) st (carry_access binding access st).
Proof.
  intros Hb Ha Hok. unfold carryAccess, carried. destruct (rootAtCall access binding) as [root|] eqn:Er.
  2:{ split_and!; [done|done|done|]. intros root E. congruence. }
  fold (named root). destruct (named root) eqn:En.
  { destruct (addConcrete_ok st (concrete_at binding access root) Hok) as (H1 & H2 & H3); [by eapply reached_call|].
    split_and!; [done|apply H2|done|]. intros root' [= <-]. by rewrite En. }
  pose proof (addSummary_ok (db_callerFunctionId binding) (propagatedAtCall binding access root) st) as Hadd.
  destruct (add_summary _ _ st) as [st' changed].
  destruct Hadd as (H1 & H2 & H3 & H4 & H5); [by intros; apply summarised_call|by intros; apply reached_unplaced_call|done|].
  split_and!; [done|done|]. destruct changed.
  - unfold carry_weight. apply (sum_list_with_lt _ _ _ (db_callerFunctionId binding)); [|by apply list_elem_of_fmap_2|done].
    intros g _. apply weight_le, H2.
  - split; [done|]. intros root' [= <-]. by rewrite En.
Qed.

Definition call_settled (binding : DirectCallBinding) (st : AccessState) : Prop :=
  ∀ access, access ∈ items_of st (db_calleeFunctionId binding) → carried binding access st.

Lemma call_settled_same binding st st' : call_settled binding st → same_summaries st st' → call_settled binding st'.
Proof. intros Hs [Hle Hsame] access. rewrite Hsame. intros Ha. by eapply carried_le; [apply Hs|]. Qed.

Lemma carryCall_ok binding st :
  binding ∈ callBindings → carry_ok st → carry_step (call_settled binding) st (carry_call binding st).
Proof.
  intros Hb Hok. unfold carryCall. eapply step_ok_weaken.
  - apply (each_ok carry_ok carry_le (λ _ : Empty_set, False) carry_weight carry_weight_mono same_summaries
      (summarised (db_calleeFunctionId binding)) (carried binding)); [| |apply Forall_forall|done].
    + intros access st'. by apply carryAccess_ok.
    + intros access s1 s2 Hc [Hle _]. by eapply carried_le.
    + intros access Ha. by apply (kk_all _ _ (ck_summaries _ Hok _)).
  - intros st' _ [_ Hsame] Hall access. rewrite Hsame. rewrite Forall_forall in Hall. apply Hall.
Qed.

Lemma carryRound_ok st :
  carry_ok st →
  carry_step (λ st', Forall (λ binding, call_settled binding st') callBindings) st (each carry_call callBindings st).
Proof.
  intros Hok. apply (each_ok carry_ok carry_le (λ _ : Empty_set, False) carry_weight carry_weight_mono same_summaries
    (λ binding, binding ∈ callBindings) call_settled); [|by apply call_settled_same|by apply Forall_forall|done].
  intros binding st'. apply carryCall_ok.
Qed.

Lemma threads_bound (a : AccessFact) : fact_within a → thread_count a ≤ 2 * size all_threads.
Proof. intros [_ _ _ _ _ _ H1 H2]. apply subseteq_size in H1, H2. unfold thread_count. cbn. lia. Qed.

Lemma carry_weight_bounded : ∃ bound, ∀ st, carry_ok st → carry_weight st ≤ bound.
Proof.
  destruct summary_keys_finite as [keys Hkeys].
  exists (length callBindings * (length keys * S (2 * size all_threads))). intros st Hok. unfold carry_weight.
  rewrite <- (length_fmap db_callerFunctionId callBindings).
  induction (db_callerFunctionId <$> callBindings) as [|f fs IH]; [done|]. cbn [sum_list_with length].
  pose proof (kept_length (summarised f) _ keys (ck_summaries _ Hok f)) as Hlen.
  pose proof (weight_bound (items_of st f) (2 * size all_threads)) as Hw.
  assert (length (items_of st f) ≤ length keys).
  { apply Hlen. intros a Ha%summarised_within. apply Hkeys. eauto. }
  assert (weight (items_of st f) ≤ length (items_of st f) * S (2 * size all_threads)); [|nia].
  apply Hw. intros a Ha. apply (threads_bound (px_fact a)).
  apply (kk_all _ _ (ck_summaries _ Hok f)), summarised_within in Ha. apply Ha.
Qed.

(** ** Filing the functions' own accesses *)

Abbreviation file_pending := (filePending constructs lockPropagation taskConcurrency sharedObjectBindings
  reachesElementBeforeHandOver reachesElementOfJoinedThread accessBytes sharedObjectIds localObjectIds ordering
  heldLocksByAccess entryConcurrency sites).

Definition pending_filed (pending : PendingAccess) (st : AccessState) : Prop :=
  pe_restatesCalleeAccesses pending = false →
  if named (pe_root pending) then kept_in (kp_items (as_concrete st)) (own_concrete pending)
  else filed_under (acc_functionId (completed pending)) (own_access pending) st.

Lemma pending_filed_le pending st st' : pending_filed pending st → carry_le st st' → pending_filed pending st'.
Proof.
  intros Hf Hle Hr. specialize (Hf Hr). destruct (named (pe_root pending)); [|by eapply filed_under_le].
  eapply kept_in_le; [apply Hle|done].
Qed.

Lemma filePending_ok pending st :
  pending ∈ pendings → carry_ok st →
  carry_ok (file_pending st pending) ∧ carry_le st (file_pending st pending) ∧
  pending_filed pending (file_pending st pending).
Proof.
  intros Hp Hok. unfold filePending, pending_filed. destruct (pe_restatesCalleeAccesses pending) eqn:Er; [done|].
  fold (named (pe_root pending)). cbv zeta. destruct (named (pe_root pending)) eqn:En.
  { destruct (addConcrete_ok st (own_concrete pending) Hok) as (H1 & H2 & H3); [by apply reached_own|].
    split_and!; [done|apply H2|done]. }
  pose proof (addSummary_ok (acc_functionId (completed pending)) (own_access pending) st) as Hadd.
  unfold own_access in Hadd at 3.
  destruct (add_summary (acc_functionId (completed pending)) _ st) as [st' changed].
  destruct Hadd as (H1 & H2 & H3 & _); [by intros; apply summarised_own|by intros; apply reached_unplaced|done|done].
Qed.

Lemma filePendings_ok :
  let filed := foldl file_pending (MkAccessState ∅ nothing_kept) pendings in
  carry_ok filed ∧ ∀ pending, pending ∈ pendings → pending_filed pending filed.
Proof.
  assert (∀ l, l ⊆ pendings → let filed := foldl file_pending (MkAccessState ∅ nothing_kept) l in
    carry_ok filed ∧ ∀ pending, pending ∈ l → pending_filed pending filed) as H'; [|by apply H'].
  induction l as [|pending l IH] using rev_ind; intros Hl.
  { split; [|by intros ? ?%elem_of_nil]. split; [|apply nothing_kept_ok].
    intros f. cbn. unfold summaryOf. rewrite lookup_empty. apply nothing_kept_ok. }
  destruct IH as [H1 H2]; [set_solver|]. rewrite foldl_snoc.
  destruct (filePending_ok pending _ (Hl pending ltac:(set_solver)) H1) as (H3 & H4 & H5).
  split; [done|]. intros pending' [Hp| ->%list_elem_of_singleton]%elem_of_app; [|done].
  eapply pending_filed_le; [by apply H2|done].
Qed.

(** ** What threads reach through the objects they are handed *)

Definition kept_le (c c' : ConcreteAccesses) : Prop := items_le (kp_items c) (kp_items c').
Definition same_items (c c' : ConcreteAccesses) : Prop := kp_items c' = kp_items c.
#[local] Instance kept_le_preorder : PreOrder kept_le.
Proof. split; [by intros c; red|]. intros c1 c2 c3 ??. red. by etrans. Qed.
#[local] Instance same_items_preorder : PreOrder same_items.
Proof. split; [done|]. intros c1 c2 c3 E1 E2. red. by rewrite E2. Qed.

Lemma keep_reached c a :
  kept_ok reached c → reached a →
  kept_ok reached (addConcreteAccess c a).1 ∧ kept_le c (addConcreteAccess c a).1 ∧
  kept_in (kp_items (addConcreteAccess c a).1) a ∧
  if (addConcreteAccess c a).2 then weight (kp_items c) < weight (kp_items (addConcreteAccess c a).1)
  else same_items c (addConcreteAccess c a).1.
Proof.
  intros Hc Ha. pose proof (keep_ok reached c a reached_merged Hc Ha) as Hk. unfold addConcreteAccess.
  destruct (keep c a) as [c' changed]. by destruct Hk as (H1 & H2 & H3 & _ & H4).
Qed.

(** Adding accesses one after the other. *)
Lemma keep_all {A} (step : ConcreteAccesses → A → ConcreteAccesses) (Q : A → ConcreteAccesses → Prop) l c :
  (∀ x c, x ∈ l → kept_ok reached c → kept_ok reached (step c x) ∧ kept_le c (step c x) ∧ Q x (step c x)) →
  (∀ x c c', Q x c → kept_le c c' → Q x c') → kept_ok reached c →
  kept_ok reached (foldl step c l) ∧ kept_le c (foldl step c l) ∧ ∀ x, x ∈ l → Q x (foldl step c l).
Proof.
  intros Hstep Hle Hc. induction l as [|x l IH] using rev_ind.
  { split_and!; [done|done|]. by intros ? ?%elem_of_nil. }
  destruct IH as (H1 & H2 & H3); [intros; apply Hstep; set_solver|]. rewrite foldl_snoc.
  destruct (Hstep x (foldl step c l) ltac:(set_solver) H1) as (H4 & H5 & H6).
  split_and!; [done|by etrans|]. intros y [Hy| ->%list_elem_of_singleton]%elem_of_app; [|done].
  eapply Hle; [by apply H3|done].
Qed.

(** The access of the thread of an entry started on an object. *)
Definition bound (f : string) (object : SharedObjectBinding) (access : ParameterizedAccess) (c : ConcreteAccesses)
  : Prop :=
  rb_kind (px_root access) = RootBindingKind_Argument →
  rb_argumentIndex (px_root access) = so_argumentIndex object →
  kept_in (kp_items c) (accessOfThread f object access).

Lemma bindToThreads_ok st :
  carry_ok st →
  let c := bindToThreads sharedObjectBindings st in
  kept_ok reached c ∧ kept_le (as_concrete st) c ∧
  ∀ f object access, sharedObjectBindings !! f = Some object → access ∈ items_of st f → bound f object access c.
Proof.
  intros [Hs Hc]. unfold bindToThreads.
  destruct (keep_all (bindSummary sharedObjectBindings) (λ item c, ∀ object access,
      sharedObjectBindings !! item.1 = Some object → access ∈ kp_items item.2 → bound item.1 object access c)
    (hash_items (as_summaries st)) (as_concrete st)) as (H1 & H2 & H3); [| |done|].
  - intros [f summary] c Hitem Hok. apply elem_of_hash_items in Hitem. unfold bindSummary. cbn [fst snd].
    destruct (sharedObjectBindings !! f) as [object|] eqn:Eo; [|by split_and!].
    assert (∀ a, a ∈ kp_items summary → summarised f a) as Ha.
    { specialize (Hs f). unfold summaryOf in Hs. rewrite Hitem in Hs. apply Hs. }
    match goal with |- context [foldl ?step c _] => destruct (keep_all step (bound f object) (kp_items summary) c)
      as (H1 & H2 & H3); [| |done|] end.
    + intros access c' Hin Hok'. unfold bound. case_bool_decide as Hk; case_bool_decide as Hi; cbn [andb];
        try (by split_and!).
      destruct (keep_reached c' (accessOfThread f object access) Hok') as (H1 & H2 & H3 & _);
        [by apply reached_thread; auto|done].
    + intros access c1 c2 Hb Hle Hk Hi. eapply kept_in_le; [exact Hle|auto].
    + split_and!; [done|done|]. intros object' access [= <-]. auto.
  - intros item c1 c2 Hb Hle object access Ho Ha Hk Hi. eapply kept_in_le; [exact Hle|by eapply Hb].
  - split_and!; [done|done|]. intros f object access Ho Ha.
    destruct (as_summaries st !! f) as [summary|] eqn:Ef.
    + apply (H3 (f, summary)); [by apply elem_of_hash_items|done|]. unfold summaryOf in Ha. by rewrite Ef in Ha.
    + unfold summaryOf in Ha. rewrite Ef in Ha. by apply elem_of_nil in Ha.
Qed.

(** ** Projecting to the calls *)

Definition projected (binding : DirectCallBinding) (a : AccessFact) (c : ConcreteAccesses) : Prop :=
  projects binding a = true → kept_in (kp_items c) (remappedAccess binding a).

Definition project_step := step_ok (kept_ok reached) kept_le (λ _ : Empty_set, False)
  (λ c, weight (kp_items c)) same_items.

Lemma project_weight_mono c c' : kept_le c c' → weight (kp_items c) ≤ weight (kp_items c').
Proof. apply weight_le. Qed.

Lemma projectCall_ok current binding c :
  binding ∈ callBindings → (∀ a, a ∈ current → reached a) → kept_ok reached c →
  project_step (λ c', db_argumentBindings binding ≠ ∅ → ∀ a, a ∈ current → projected binding a c') c
    (projectCall current binding c).
Proof.
  intros Hb Hcurrent Hok. unfold projectCall. case_bool_decide as Hargs; [by split_and!|]. eapply step_ok_weaken.
  - apply (each_ok (kept_ok reached) kept_le (λ _ : Empty_set, False) (λ c, weight (kp_items c)) project_weight_mono
      same_items reached (projected binding)); [| |by apply Forall_forall|done].
    + intros a c' Ha Hok'. unfold projectAccess, projected. destruct (projects binding a) eqn:Ep; [|by split_and!].
      destruct (keep_reached c' (remappedAccess binding a) Hok') as (H1 & H2 & H3 & H4); [by apply reached_projected|].
      unfold step_ok. destruct (addConcreteAccess c' _) as [c'' []]; by split_and!.
    + intros a c1 c2 Hp E Hpr. rewrite E. by apply Hp.
  - cbn. intros c' _ _ Hall _. by apply Forall_forall.
Qed.

Definition call_projected (binding : DirectCallBinding) (c : ConcreteAccesses) : Prop :=
  db_argumentBindings binding ≠ ∅ → ∀ a, a ∈ kp_items c → projected binding a c.

Lemma projectRound_ok c :
  kept_ok reached c →
  project_step (λ c', Forall (λ binding, call_projected binding c') callBindings) c (projectRound callBindings c).
Proof.
  intros Hok. unfold projectRound. eapply step_ok_weaken.
  - apply (each_ok (kept_ok reached) kept_le (λ _ : Empty_set, False) (λ c, weight (kp_items c)) project_weight_mono
      same_items (λ binding, binding ∈ callBindings)
      (λ binding c', db_argumentBindings binding ≠ ∅ → ∀ a, a ∈ kp_items c → projected binding a c'));
      [| |by apply Forall_forall|done].
    + intros binding c' Hb Hok'. apply projectCall_ok; [done|apply Hok|done].
    + intros binding c1 c2 Hp E Hargs a Ha Hpr. rewrite E. by apply Hp.
  - intros c' _ E Hall. eapply Forall_impl; [exact Hall|]. intros binding Hb Hargs a. rewrite E. by apply Hb.
Qed.

Lemma project_weight_bounded : ∃ bound, ∀ c, kept_ok reached c → weight (kp_items c) ≤ bound.
Proof.
  destruct fact_key_finite as [keys Hkeys]. exists (length keys * S (2 * size all_threads)). intros c Hok.
  assert (length (kp_items c) ≤ length keys).
  { apply (kept_length reached c keys Hok). intros a Ha%reached_within. apply Hkeys. eauto. }
  etrans; [apply (weight_bound _ (2 * size all_threads))|apply Nat.mul_le_mono_r; done].
  intros a Ha. by apply threads_bound, reached_within, Hok.
Qed.

(** ** Both loops together *)

(** Nothing is left to do: every access kept is derivable, and every access of a function,
    every call carrying one, every thread reaching one and every call it is reported at
    has its result kept, beside at least its threads. *)
Record settled (st : AccessState) (c : ConcreteAccesses) : Prop := {
  sd_summarised : ∀ f access, access ∈ items_of st f → summarised f access;
  sd_reached : ∀ a, a ∈ kp_items c → reached a;
  sd_own : ∀ pending, pending ∈ pendings → pending_filed pending (MkAccessState (as_summaries st) c);
  sd_calls : ∀ binding access, binding ∈ callBindings → access ∈ items_of st (db_calleeFunctionId binding) →
    carried binding access (MkAccessState (as_summaries st) c);
  sd_threads : ∀ f object access, sharedObjectBindings !! f = Some object → access ∈ items_of st f →
    bound f object access c;
  sd_projected : ∀ binding, binding ∈ callBindings → call_projected binding c;
}.

Lemma loops_settle :
  ∃ enough, ∀ fuel, enough ≤ fuel → ∃ st c,
    rounds (each carry_call callBindings) fuel (foldl file_pending (MkAccessState ∅ nothing_kept) pendings)
      = Some (inl st) ∧
    rounds (projectRound callBindings) fuel (bindToThreads sharedObjectBindings st) = Some (inl c) ∧ settled st c.
Proof.
  destruct carry_weight_bounded as [b1 Hb1], project_weight_bounded as [b2 Hb2].
  exists (S (b1 + b2)). intros fuel Hfuel. destruct filePendings_ok as [Hfiled Hown].
  destruct (rounds_total _ _ _ _ _ _ _ carryRound_ok b1 fuel _ Hb1 Hfiled) as ([st|[]] & E1 & H1); [lia|].
  destruct H1 as (Hok & Hle & Hcalls).
  destruct (bindToThreads_ok st Hok) as (Hc & Hlec & Hthreads).
  destruct (rounds_total _ _ _ _ _ _ _ projectRound_ok b2 fuel _ Hb2 Hc) as ([c|[]] & E2 & H2); [lia|].
  destruct H2 as (Hokc & Hlep & Hprojected). exists st, c. split_and!; [done|done|].
  assert (carry_le st (MkAccessState (as_summaries st) c)) as Hend by (split; [done|]; cbn; by etrans).
  rewrite Forall_forall in Hcalls. rewrite Forall_forall in Hprojected. split.
  - intros f access Ha. by apply (kk_all _ _ (ck_summaries _ Hok f)).
  - apply Hokc.
  - intros pending Hp. eapply pending_filed_le; [by apply Hown|]. by etrans.
  - intros binding access Hb Ha. eapply carried_le; [by apply Hcalls|done].
  - intros f object access Ho Ha Hk Hi. eapply kept_in_le; [exact Hlep|by apply Hthreads].
  - done.
Qed.
End unit.

(** ** The unit *)

Lemma accesses_settle `{!HashOrder} callAt constructs lockPropagation taskConcurrency
    sharedObjectBindings beforeHandOver joined accessBytes sharedObjectIds localObjectIds ordering heldLocksByAccess
    entryConcurrency sites pendings :
  (N.of_nat (size (functionsOf (calleesByCaller sites))) ≤ 2 ^ 32)%N →
  ∃ callBindings enough,
    buildDirectCallBindings callAt constructs lockPropagation taskConcurrency
      (entriesByConstructedClass sharedObjectBindings) sites = Some callBindings ∧
  ∀ fuel, enough ≤ fuel → ∃ st c,
    accesses_of callAt constructs lockPropagation taskConcurrency sharedObjectBindings beforeHandOver joined
      accessBytes sharedObjectIds localObjectIds ordering heldLocksByAccess entryConcurrency sites fuel pendings
      = Some (eraseParameterLocks <$> filterProjectedConcreteAccesses (kp_items c)) ∧
    settled callAt constructs lockPropagation taskConcurrency sharedObjectBindings beforeHandOver joined
      accessBytes sharedObjectIds localObjectIds ordering heldLocksByAccess entryConcurrency sites pendings
      callBindings st c.
Proof.
  intros Hsmall. destruct (callsClosingCycles_spec _ Hsmall) as (cycleCalls & E & _).
  unfold accesses_of, buildDirectCallBindings. rewrite E. cbn [mbind option_bind].
  set (callBindings := omap _ sites).
  destruct (loops_settle callAt constructs lockPropagation taskConcurrency sharedObjectBindings beforeHandOver joined
    accessBytes sharedObjectIds localObjectIds ordering heldLocksByAccess entryConcurrency sites pendings callBindings)
    as [enough Henough].
  exists callBindings, enough. split; [done|]. intros fuel Hfuel.
  destruct (Henough fuel Hfuel) as (st & c & E1 & E2 & Hs). exists st, c. split; [|done].
  rewrite E1. cbn [mbind option_bind]. by rewrite E2.
Qed.

(** C18: carrying the accesses of a unit to the callers, binding them to the objects threads
    are handed and projecting them to the calls ends on every call graph of up to 2^32
    functions, recursion included, whatever order hash tables are visited in. Every access
    kept comes from one of a function's own by calls, threads and projections; at the end
    nothing is left to carry, bind or project. What is handed on is what the preference for
    projected accesses leaves, without the locks still named after a parameter. *)
Theorem access_projection_settles `{!HashOrder} callAt constructs lockPropagation taskConcurrency
    sharedObjectBindings beforeHandOver joined accessBytes sharedObjectIds localObjectIds ordering heldLocksByAccess
    entryConcurrency sites pendings :
  (N.of_nat (size (functionsOf (calleesByCaller sites))) ≤ 2 ^ 32)%N →
  ∃ callBindings enough,
    buildDirectCallBindings callAt constructs lockPropagation taskConcurrency
      (entriesByConstructedClass sharedObjectBindings) sites = Some callBindings ∧
  ∀ fuel, enough ≤ fuel → ∃ st c,
    accesses_of callAt constructs lockPropagation taskConcurrency sharedObjectBindings beforeHandOver joined
      accessBytes sharedObjectIds localObjectIds ordering heldLocksByAccess entryConcurrency sites fuel pendings
      = Some (eraseParameterLocks <$> filterProjectedConcreteAccesses (kp_items c)) ∧
    settled callAt constructs lockPropagation taskConcurrency sharedObjectBindings beforeHandOver joined
      accessBytes sharedObjectIds localObjectIds ordering heldLocksByAccess entryConcurrency sites pendings
      callBindings st c.
Proof. apply accesses_settle. Qed.

(** ** Calls that close a cycle *)

Lemma by_position_lookup {A B} (f : N → A → option B) (l : list A) n y :
  by_position f l !! n = Some y → ∃ x, x ∈ l ∧ f n x = Some y.
Proof.
  intros Hin%elem_of_list_to_map_2. apply list_elem_of_omap in Hin as ([m x] & Hx & E).
  apply elem_of_lookup_imap in Hx as (m' & x' & [= <- <-] & Hx). cbn in E.
  destruct (f (N.of_nat m) x) as [y'|] eqn:Ef; [|done]. injection E as <- <-.
  exists x. split; [by eapply list_elem_of_lookup_2|done].
Qed.

(** The objects such a call hands on start where the caller's parameter does, or anywhere. *)
Lemma cycle_argument operand object :
  argumentBinding true operand = Some object → rb_kind object = RootBindingKind_Argument →
  hasKnownOffset (rb_region object) = false ∨ byteOffset (rb_region object) = 0%Z.
Proof.
  unfold argumentBinding. destruct (match op_trackedRoot operand with Some _ => _ | None => _ end) as [root|]; cbn; [|done].
  case_bool_decide as Hk; cbn [andb].
  - destruct (hasKnownOffset (rb_region root)) eqn:Ek; cbn [negb orb]; [|by intros [= <-]; left].
    case_bool_decide as Ho; cbn [negb]; intros [= <-] _; [by right|by left].
  - by intros [= <-].
Qed.

(** The index it passes is the caller's own parameter, or unknown. *)
Lemma cycle_index call position operand index :
  indexArgument true call position operand = Some index →
  is_Some (li_parameter index) ∧ (li_widened index = true ∨ li_scale index = 1%Z ∧ li_offset index = 0%Z).
Proof.
  unfold indexArgument. destruct (op_isInteger operand); [|done]. cbn [andb].
  destruct (handsOnParameter (op_linearIndex operand)) eqn:Eh; cbn [negb].
  - intros E. rewrite E in Eh. cbn in Eh. apply andb_prop in Eh as [[?%bool_decide_eq_true ?%bool_decide_eq_true]%andb_prop
      ?%bool_decide_eq_true]. auto.
  - unfold widenedIndexArgument. destruct (op_sourceParameter operand) as [source|]; [intros [= <-]; cbn; eauto|].
    case_bool_decide; [|done]. intros [= <-]. cbn. eauto.
Qed.

(** Without a widening, the index is computed exactly. *)
Lemma substitute_exact outer inner index :
  substituteLinearIndex outer inner = Some index →
  li_widened index = true ∨
  (li_widened outer || li_widened inner) = false ∧
  li_scale index = (li_scale outer * li_scale inner)%Z ∧
  li_offset index = (li_offset outer + li_scale outer * li_offset inner)%Z.
Proof.
  unfold substituteLinearIndex. destruct (_ || _); [by intros [= <-]; left|].
  assert (∀ z z', checked_i64 z = Some z' → z' = z) as Hc.
  { unfold checked_i64. intros z z'. case_bool_decide; [|done]. by intros [= <-]. }
  destruct (checked_i64 (_ * li_scale inner)) as [scale|] eqn:E1; cbn; [|done].
  destruct (checked_i64 (_ * li_offset inner)) as [shift|] eqn:E2; cbn; [|done].
  destruct (checked_i64 (_ + _)) as [offset|] eqn:E3; cbn; [|done]. intros [= <-]. cbn.
  apply Hc in E1, E2, E3. subst. by right.
Qed.

Lemma substitute_unmoved outer inner index :
  (li_widened inner = true ∨ li_scale inner = 1%Z ∧ li_offset inner = 0%Z) →
  substituteLinearIndex outer inner = Some index →
  li_widened index = true ∨ li_scale index = li_scale outer ∧ li_offset index = li_offset outer.
Proof.
  intros Hi [?|(Hw & Hs & Ho)]%substitute_exact; [by left|right]. apply orb_false_iff in Hw as [_ Hw].
  destruct Hi as [?|[E1 E2]]; [congruence|]. rewrite Hs, Ho, E1, E2. split; lia.
Qed.

Lemma shift_unmoved inner index :
  substituteLinearIndex (MkLinearIndex None 1 0 false) inner = Some index →
  li_widened index = true ∨ li_scale index = li_scale inner ∧ li_offset index = li_offset inner.
Proof.
  intros [?|(_ & Hs & Ho)]%substitute_exact; [by left|right]. cbn [li_scale li_offset] in *. split; lia.
Qed.

(** C19: a call that closes a cycle moves nothing. An access it carries to the caller's own
    parameter is at the same offset, at an unknown one, or covers the object the argument
    designates; and the index it waits on is the same multiple of the caller's parameter
    or unknown. So an access carried around a cycle names no new place on the next round. *)
Theorem cycle_calls_move_nothing callAt constructs lockPropagation taskConcurrency entries cycleCalls
    site call binding access root :
  dcs_call site = Some call → call ∈ cycleCalls →
  callBindingOf callAt constructs lockPropagation taskConcurrency entries cycleCalls site = Some binding →
  rootAtCall access binding = Some root → rb_kind root = RootBindingKind_Argument →
  (hasKnownOffset (rb_region root) = false ∨
   byteOffset (rb_region root) = wrap_i64 (byteOffset (acc_region (px_fact access))) ∨
   ∃ n object, db_argumentBindings binding !! n = Some object ∧ rb_region root = rb_designated object) ∧
  ∀ index, rb_index root = Some index →
    li_widened index = true ∨
    ∃ own, rb_index (px_root access) = Some own ∧ li_scale index = li_scale own ∧ li_offset index = li_offset own.
Proof.
  intros Ec Hcycle Eb. unfold callBindingOf in Eb. rewrite Ec in Eb. cbn [mbind option_bind] in Eb.
  rewrite (bool_decide_true (call ∈ cycleCalls)) in Eb by done. set (b := MkCallBinding _ _ _ _ _ _ _ _ _ _ _) in Eb.
  destruct (_ || _); [|done]. injection Eb as <-. unfold rootAtCall.
  set (placed := match indexAtCall _ _ with Some _ => _ | None => _ end).
  assert (placed.1 = acc_region (px_fact access) ∧ ∀ index, placed.2 = Some index →
    li_widened index = true ∨ ∃ own, rb_index (px_root access) = Some own ∧
      li_scale index = li_scale own ∧ li_offset index = li_offset own) as [Hplace Hindex].
  { unfold placed, indexAtCall. destruct (rb_index (px_root access)) as [own|]; cbn; [|done].
    destruct (li_parameter own) as [parameter|]; cbn; [|done].
    destruct (by_position _ _ !! parameter) as [argument|] eqn:Ea; cbn; [|done].
    apply by_position_lookup in Ea as (operand & _ & [Hp Hi]%cycle_index).
    destruct (substituteLinearIndex own argument) as [index|] eqn:Es; [|done].
    apply substituteLinearIndex_spec in Es as Hs. destruct Hs as (Hpar & _ & _).
    rewrite bool_decide_false by (rewrite Hpar; destruct Hp as [? ->]; done). split; [done|].
    intros index' [= <-]. destruct (substitute_unmoved _ _ _ Hi Es) as [?|?]; [by left|right; eauto]. }
  destruct placed as [place index]. cbn [fst snd] in *. subst place. case_bool_decide as Hk.
  { intros [= <-] Hg. cbn in Hg. congruence. }
  destruct (db_argumentBindings b !! _) as [object|] eqn:Eo; cbn; [|done]. intros [= <-] Hkind. cbn in Hkind |- *.
  pose proof Eo as (operand & _ & Ha)%by_position_lookup. pose proof (cycle_argument _ _ Ha Hkind) as Hobject. split.
  - unfold rebasedOn. case_match; [right; right; eauto|]. cbn. destruct Hobject as [->| ->]; [left; apply andb_false_r|].
    right. left. by rewrite Z.add_0_r.
  - intros index' Hi. destruct index as [index|]; [|done].
    destruct (hasKnownOffset (rb_region object)) eqn:Ek; [|done]. destruct Hobject as [?|E0]; [congruence|].
    rewrite E0 in Hi. destruct (shift_unmoved _ _ Hi) as [?|[Hs Ho]]; [by left|].
    destruct (Hindex index eq_refl) as [Hw|(own & Eown & Hs' & Ho')].
    + left. unfold substituteLinearIndex in Hi. cbn [li_widened orb] in Hi. rewrite Hw in Hi. by injection Hi as <-.
    + right. exists own. split_and!; [done|congruence|congruence].
Qed.


(** ** A unit *)

(** [inc] writes through its parameter on line 2; [worker] has it write a global, and runs
    as a thread; [main] also calls [worker], on line 9, while the thread runs. *)
Definition unit_place (line : N) : SourceLocation := MkSourceLocation "unit.c" line 1 line 1 "".
Definition unit_write : PendingAccess :=
  MkPending 10 (RootBinding_argument 0 (MkRegion true 0 4 ElementOwner_None ""))
    (MkAccess "" (MkRegion true 0 4 ElementOwner_None "") "inc" AccessKind_Write AliasProvenance_Direct
       (unit_place 2) (unit_place 2) false false false false false false ∅ ∅ false "" ∅ ∅ ∅) false None.
Definition unit_global (symbol : string) : Operand :=
  MkOperand false None None (Some (RootBinding_global symbol (MkRegion true 0 4 ElementOwner_None ""))) None None.
Definition unit_call (call : nat) : CallInstruction :=
  MkCall [unit_global (match call with 0 => "counter" | _ => "argument" end)] [].
Definition unit_sites : list DirectCallSite :=
  [MkDirectCallSite (Some 0) "worker" "inc" (unit_place 5) (unit_place 5) false;
   MkDirectCallSite (Some 1) "main" "worker" (unit_place 9) (unit_place 9) false].
Definition unit_tasks : TaskConcurrencyResult :=
  MkTaskConcurrency {["main"; "worker"; "inc"]}
    {[0 := {["worker"]}; 1 := {["worker"]}; 10 := {["worker"]}]} ∅ ∅ ∅ ∅.
Definition unit_entries : gmap string EntryConcurrencyInfo := {["worker" := MkEntryConcurrency 1 false]}.

Definition unit_accesses : option (list AccessFact) :=
  @accesses_of sorted_hash_order unit_call (λ _, None) (MkPropagation ∅ ∅) unit_tasks ∅ (λ _ _ _ _ _, false)
    (λ _ _ _ _ _, false) (λ _, None) ∅ ∅ ∅ ∅ unit_entries unit_sites 10 [unit_write].

(** The facts of the unit with given accesses. *)
Definition unit_facts (accesses : list AccessFact) : TUFacts :=
  MkTUFacts [] accesses [] [] [] [] [] [] [] [] [] false false unit_entries ∅ ∅ ∅
    {["worker" := {["worker"]}; "inc" := {["worker"]}]} ∅ ∅ no_symbols.

Definition unit_concrete (function : string) (userLine : N) : AccessFact :=
  MkAccess "counter" (MkRegion true 0 4 ElementOwner_None "") function AccessKind_Write AliasProvenance_Direct
    (unit_place 2) (unit_place userLine) true false false false false true {["worker"]} ∅ false "" ∅ ∅ ∅.

(** The write of the thread and the write of the call are both derived, and race; the
    thread's, reported where it stands, is dropped for the call's, which no other task
    reaches, and the race with it. *)
Example projection_loses_the_thread :
  unit_accesses = Some [unit_concrete "main" 9] ∧
  filterProjectedConcreteAccesses [unit_concrete "worker" 2; unit_concrete "main" 9] = [unit_concrete "main" 9] ∧
  rep_diagnostics (DataRaceChecker_run (unit_facts [unit_concrete "worker" 2; unit_concrete "main" 9])) ≠ [] ∧
  rep_diagnostics (DataRaceChecker_run (unit_facts [unit_concrete "main" 9])) = [].
Proof.
  split_and!.
  - vm_compute. reflexivity.
  - vm_compute. reflexivity.
  - vm_compute. discriminate.
  - vm_compute. reflexivity.
Qed.

Lemma access_projection_settles_witness :
  ∃ callBindings enough, ∀ fuel, enough ≤ fuel → ∃ st c,
    @accesses_of sorted_hash_order unit_call (λ _, None) (MkPropagation ∅ ∅) unit_tasks ∅ (λ _ _ _ _ _, false)
      (λ _ _ _ _ _, false) (λ _, None) ∅ ∅ ∅ ∅ unit_entries unit_sites fuel [unit_write]
      = Some (eraseParameterLocks <$> filterProjectedConcreteAccesses (kp_items c)) ∧
    @settled sorted_hash_order unit_call (λ _, None) (MkPropagation ∅ ∅) unit_tasks ∅ (λ _ _ _ _ _, false)
      (λ _ _ _ _ _, false) (λ _, None) ∅ ∅ ∅ ∅ unit_entries unit_sites [unit_write] callBindings st c.
Proof.
  destruct (@access_projection_settles sorted_hash_order unit_call (λ _, None) (MkPropagation ∅ ∅) unit_tasks ∅
    (λ _ _ _ _ _, false) (λ _ _ _ _ _, false) (λ _, None) ∅ ∅ ∅ ∅ unit_entries unit_sites [unit_write])
    as (callBindings & enough & _ & H); [by vm_compute|].
  exists callBindings, enough. exact H.
Defined.

(** [walk(p, i)] calls [walk(p + 8, i + 1)]. *)
Definition walk_call (call : nat) : CallInstruction :=
  MkCall [MkOperand false None None (Some (RootBinding_argument 0 (MkRegion true 8 0 ElementOwner_None ""))) None None;
          MkOperand true None (Some 1%N) None None None] [false; true].
Definition walk_site : DirectCallSite :=
  MkDirectCallSite (Some 0) "walk" "walk" (unit_place 3) (unit_place 3) false.
Definition walk_access : ParameterizedAccess :=
  MkParameterized
    (MkRootBinding RootBindingKind_Argument "" 0 (MkRegion true 4 4 ElementOwner_None "") default_region None)
    (set_acc_region (MkRegion true 4 4 ElementOwner_None "") (pe_fact unit_write)).

Lemma cycle_calls_move_nothing_witness :
  ∃ binding root,
    callBindingOf walk_call (λ _, None) (MkPropagation ∅ ∅) unit_tasks ∅ {[0]} walk_site = Some binding ∧
    rootAtCall walk_access binding = Some root ∧ hasKnownOffset (rb_region root) = false ∧
    ((hasKnownOffset (rb_region root) = false ∨
      byteOffset (rb_region root) = wrap_i64 (byteOffset (acc_region (px_fact walk_access))) ∨
      ∃ n object, db_argumentBindings binding !! n = Some object ∧ rb_region root = rb_designated object) ∧
     ∀ index, rb_index root = Some index → li_widened index = true ∨
       ∃ own, rb_index (px_root walk_access) = Some own ∧ li_scale index = li_scale own ∧
         li_offset index = li_offset own).
Proof.
  destruct (callBindingOf walk_call (λ _, None) (MkPropagation ∅ ∅) unit_tasks ∅ {[0]} walk_site) as [binding|] eqn:Eb;
    [|vm_compute in Eb; discriminate].
  destruct (rootAtCall walk_access binding) as [root|] eqn:Er;
    [|vm_compute in Eb; injection Eb as <-; vm_compute in Er; discriminate].
  exists binding, root. split; [reflexivity|]. split; [exact Er|].
  assert (hasKnownOffset (rb_region root) = false ∧ rb_kind root = RootBindingKind_Argument) as [Hk Ha].
  { vm_compute in Eb. injection Eb as <-. vm_compute in Er. injection Er as <-. split; reflexivity. }
  split; [exact Hk|].
  apply (cycle_calls_move_nothing walk_call (λ _, None) (MkPropagation ∅ ∅) unit_tasks ∅ {[0]} walk_site 0 binding
    walk_access root); [reflexivity|set_solver|exact Eb|exact Er|exact Ha].
Defined.
