(* ===== verification/LiveUnits.v ===== *)
(** The gauge of live units (LiveUnitGauge and LiveUnitSlot of
    src/internal/analysis/cross_tu/inter_tu_coordinator.cpp).

    Workers of the pool share two atomic counters.  A step of the model is one
    atomic operation of one worker, so an execution is any interleaving of them.
    Counters are of type size_t and wrap at 2^64.  The weak compare-exchange may
    fail although the value it expects is there; [weak] says whether it does. *)

From S2P Require Import Prelude Diagnostics.

Definition size_modulus : N := 2 ^ 64.

Definition increment (n : N) : N := ((n + 1) `mod` size_modulus)%N.
Definition decrement (n : N) : N := ((n + (size_modulus - 1)) `mod` size_modulus)%N.

(** Where a worker is: outside [analyseUnit]; in [enter], having counted itself as
    the [now]-th; in its loop, with [peak] as last read and the number of failed
    exchanges so far; or holding its slot. *)
Inductive WorkerPhase :=
  | Outside
  | Counted (now : N)
  | Comparing (now peak failures : N)
  | InSlot.
#[global] Instance WorkerPhase_eq_dec : EqDecision WorkerPhase.
Proof. solve_decision. Defined.

Record LiveUnitGauge := MkGauge {
  g_live : N;
  g_peak : N;
  g_workers : list WorkerPhase;
}.

Inductive GaugeAction := CountIn | LoadPeak | Exchange | ExchangeFails | LeaveSlot.

Definition moveTo (w : nat) (phase : WorkerPhase) (g : LiveUnitGauge) : list WorkerPhase :=
  <[w := phase]> (g_workers g).

(** One atomic operation of worker [w]; [None] when it cannot make it. *)
Definition gaugeStep (weak : bool) (w : nat) (action : GaugeAction) (g : LiveUnitGauge)
  : option LiveUnitGauge :=
  phase ← g_workers g !! w;
  match action, phase with
  | CountIn, Outside =>
      let now := increment (g_live g) in
      Some (MkGauge now (g_peak g) (moveTo w (Counted now) g))
  | LoadPeak, Counted now =>
      Some (MkGauge (g_live g) (g_peak g) (moveTo w (Comparing now (g_peak g) 0) g))
  | Exchange, Comparing now peak _ =>
      if negb (now <=? peak)%N then
        if bool_decide (g_peak g = peak)
        then Some (MkGauge (g_live g) now (moveTo w InSlot g))
        else None
      else Some (MkGauge (g_live g) (g_peak g) (moveTo w InSlot g))
  | ExchangeFails, Comparing now peak failures =>
      if negb (now <=? peak)%N && (weak || negb (bool_decide (g_peak g = peak)))
      then Some (MkGauge (g_live g) (g_peak g) (moveTo w (Comparing now (g_peak g) (failures + 1)) g))
      else None
  | LeaveSlot, InSlot =>
      Some (MkGauge (decrement (g_live g)) (g_peak g) (moveTo w Outside g))
  | _, _ => None
  end.

Definition newGauge (workers : nat) : LiveUnitGauge := MkGauge 0 0 (replicate workers Outside).

(** The executions of [workers] workers, with the values [live_] took. *)
Inductive execution (weak : bool) (workers : nat) : list N → LiveUnitGauge → Prop :=
  | execution_start : execution weak workers [0%N] (newGauge workers)
  | execution_step history g w action g' :
      execution weak workers history g → gaugeStep weak w action g = Some g' →
      execution weak workers (history ++ [g_live g']) g'.

Definition liveUnitBound (options : AnalysisOptions) (hardware_concurrency : N) : N :=
  if negb (bool_decide (maxLiveUnits options = 0%N)) then maxLiveUnits options
  else if bool_decide (hardware_concurrency = 0%N) then 1%N else hardware_concurrency.

(** ** Lemmas *)

Definition insideCount (phases : list WorkerPhase) : nat :=
  length (List.filter (λ phase, negb (bool_decide (phase = Outside))) phases).

Definition pendingNow (phase : WorkerPhase) : option N :=
  match phase with
  | Counted now | Comparing now _ _ => Some now
  | Outside | InSlot => None
  end.

Record gauge_ok (workers : nat) (history : list N) (g : LiveUnitGauge) : Prop := {
  ok_workers : length (g_workers g) = workers;
  ok_live : g_live g = N.of_nat (insideCount (g_workers g));
  ok_bound : ∀ v, v ∈ history → (v ≤ N.of_nat workers)%N;
  ok_peak : g_peak g ∈ history;
  ok_pending : ∀ w phase now,
    g_workers g !! w = Some phase → pendingNow phase = Some now → now ∈ history;
  ok_read : ∀ w now peak failures,
    g_workers g !! w = Some (Comparing now peak failures) → (peak ≤ g_peak g)%N;
  ok_covered : ∀ v, v ∈ history → (v ≤ g_peak g)%N ∨
    ∃ w phase now, g_workers g !! w = Some phase ∧ pendingNow phase = Some now ∧ (v ≤ now)%N;
}.

Lemma insideCount_insert phases w old new :
  phases !! w = Some old →
  insideCount (<[w := new]> phases) + (if bool_decide (old = Outside) then 0 else 1) =
  insideCount phases + (if bool_decide (new = Outside) then 0 else 1).
Proof.
  revert w. induction phases as [|p phases IH]; intros [|w] Hw; simpl in Hw; [done..| |].
  - injection Hw as ->. unfold insideCount. simpl. repeat case_bool_decide; simpl; lia.
  - specialize (IH w Hw). unfold insideCount in *. simpl. repeat case_bool_decide; simpl; lia.
Qed.

Lemma filter_replicate_outside n :
  List.filter (λ phase, negb (bool_decide (phase = Outside))) (replicate n Outside) = [].
Proof. by induction n. Qed.

Lemma insideCount_le phases : insideCount phases ≤ length phases.
Proof. apply List.filter_length_le. Qed.

(** What a move of [w] leaves of the other workers. *)
Lemma moveTo_lookup g w old new v phase :
  g_workers g !! w = Some old → moveTo w new g !! v = Some phase →
  (v = w ∧ phase = new) ∨ (v ≠ w ∧ g_workers g !! v = Some phase).
Proof.
  unfold moveTo. intros Hw Hv. destruct (decide (v = w)) as [->|Hne].
  - rewrite list_lookup_insert_eq in Hv by (by eapply lookup_lt_Some). left. by simplify_eq.
  - rewrite list_lookup_insert_ne in Hv by done. auto.
Qed.

(** A worker that stays accounted for, by the peak or by itself, keeps the cover. *)
Lemma covered_move (history : list N) g w old new peak' :
  g_workers g !! w = Some old → (g_peak g ≤ peak')%N →
  (∀ now, pendingNow old = Some now → (now ≤ peak')%N ∨ pendingNow new = Some now) →
  (∀ v, v ∈ history → (v ≤ g_peak g)%N ∨
    ∃ u phase now, g_workers g !! u = Some phase ∧ pendingNow phase = Some now ∧ (v ≤ now)%N) →
  ∀ v, v ∈ history → (v ≤ peak')%N ∨
    ∃ u phase now, moveTo w new g !! u = Some phase ∧ pendingNow phase = Some now ∧ (v ≤ now)%N.
Proof.
  intros Hw Hp Hold Hc v Hv. destruct (Hc v Hv) as [?|(u & phase & now & Hu & Hn & ?)]; [left; lia|].
  destruct (decide (u = w)) as [->|Hne].
  - rewrite Hw in Hu. injection Hu as ->. destruct (Hold now Hn) as [?|Hn']; [left; lia|].
    right. exists w, new, now. unfold moveTo.
    by rewrite list_lookup_insert_eq by (by eapply lookup_lt_Some).
  - right. exists u, phase, now. unfold moveTo. by rewrite list_lookup_insert_ne by done.
Qed.

(** A move after which [live_] counts the workers inside and the new phase is
    supported by the history keeps the gauge right. *)
Lemma gauge_ok_move workers history g w old new live' peak' :
  gauge_ok workers history g → g_workers g !! w = Some old →
  live' = N.of_nat (insideCount (moveTo w new g)) →
  (g_peak g ≤ peak')%N → peak' ∈ history ++ [live'] →
  (∀ now, pendingNow new = Some now → now ∈ history ++ [live']) →
  (∀ now peak failures, new = Comparing now peak failures → (peak ≤ peak')%N) →
  (∀ now, pendingNow old = Some now → (now ≤ peak')%N ∨ pendingNow new = Some now) →
  (∃ v, v ∈ history ∧ live' ≤ v)%N ∨ pendingNow new = Some live' →
  gauge_ok workers (history ++ [live']) (MkGauge live' peak' (moveTo w new g)).
Proof.
  intros [Hlen Hlive Hbound Hpeak Hpend Hread Hcov] Hw Hin Hle Hp' Hnew Hcmp Hold Hl'.
  assert (length (moveTo w new g) = workers) as Hlen' by (unfold moveTo; by rewrite length_insert).
  pose proof (insideCount_le (moveTo w new g)) as Hic. pose proof (lookup_lt_Some _ _ _ Hw) as Hlt.
  split; simpl; [done|done| |done| | |].
  - intros v [Hv| ->%list_elem_of_singleton]%elem_of_app; [auto|]. lia.
  - intros u phase now Hu Hn. destruct (moveTo_lookup _ _ _ _ _ _ Hw Hu) as [[-> ->]|[_ Hu']]; [auto|].
    apply elem_of_app. left. by eapply Hpend.
  - intros u now peak failures Hu.
    destruct (moveTo_lookup _ _ _ _ _ _ Hw Hu) as [[_ E]|[_ Hu']]; [by eapply Hcmp|].
    specialize (Hread _ _ _ _ Hu'). lia.
  - pose proof (covered_move history g w old new peak' Hw Hle Hold Hcov) as Hcov'.
    intros v [Hv| ->%list_elem_of_singleton]%elem_of_app; [auto|].
    destruct Hl' as [(v & Hv & Hle')|Hl'].
    { destruct (Hcov' v Hv) as [?|(u & phase & now & ? & ? & ?)]; [left; lia|].
      right. exists u, phase, now. split_and!; [done..|lia]. }
    right. exists w, new, live'. unfold moveTo.
    by rewrite list_lookup_insert_eq by done.
Qed.

Lemma increment_small n : (n + 1 < size_modulus)%N → increment n = (n + 1)%N.
Proof. apply N.mod_small. Qed.

Lemma decrement_small n : (0 < n)%N → (n < size_modulus)%N → decrement n = (n - 1)%N.
Proof.
  intros H0 Hn. unfold decrement.
  replace (n + (size_modulus - 1))%N with (n - 1 + 1 * size_modulus)%N by lia.
  rewrite N.Div0.mod_add. apply N.mod_small. lia.
Qed.

(** The side conditions of [gauge_ok_move]. *)
Ltac gauge_side :=
  simpl; first
    [ eassumption | done | unfold moveTo; lia
    | apply elem_of_app; solve [left; eauto | right; set_solver]
    | intros ? [= <-]; solve [auto | left; lia | apply elem_of_app; eauto | set_solver]
    | intros ? ? ? [= <- <- <-]; lia
    | solve [auto]
    | match goal with Hv : _ ∈ _ |- _ => left; eexists; split; [exact Hv|lia] end ].

Lemma gaugeStep_ok weak workers history g w action g' :
  (N.of_nat workers < size_modulus)%N → gauge_ok workers history g → g_live g ∈ history →
  gaugeStep weak w action g = Some g' →
  gauge_ok workers (history ++ [g_live g']) g'.
Proof.
  intros Hsmall Hok Hlast Hstep. unfold gaugeStep in Hstep.
  destruct (g_workers g !! w) as [old|] eqn:Hw; [|done]. simpl in Hstep.
  pose proof (λ new, insideCount_insert (g_workers g) w old new Hw) as Hcount.
  pose proof (insideCount_le (g_workers g)) as Hle. rewrite (ok_workers _ _ _ Hok) in Hle.
  pose proof (ok_live _ _ _ Hok) as Hlive.
  assert (∀ new, insideCount (<[w := new]> (g_workers g)) ≤ workers) as Hle'.
  { intros new. rewrite <-(ok_workers _ _ _ Hok), <-(length_insert (g_workers g) w new).
    apply insideCount_le. }
  assert (∀ now, pendingNow old = Some now → now ∈ history) as Hpend
    by (intros now; by eapply ok_pending).
  assert (g_peak g ∈ history) as Hpeak by apply Hok.
  destruct action, old as [|now|now peak failures|]; try done; simpl in Hstep.
  - injection Hstep as <-. specialize (Hcount (Counted (increment (g_live g)))). simpl in Hcount.
    specialize (Hle' (Counted (increment (g_live g)))).
    assert (increment (g_live g) = (g_live g + 1)%N) as Hinc by (apply increment_small; lia).
    eapply gauge_ok_move; gauge_side.
  - injection Hstep as <-. specialize (Hcount (Comparing now (g_peak g) 0)). simpl in Hcount.
    eapply gauge_ok_move; gauge_side.
  - specialize (Hcount InSlot). simpl in Hcount. pose proof (ok_read _ _ _ Hok _ _ _ _ Hw).
    destruct (negb _) eqn:En; [apply negb_true_iff, N.leb_gt in En; case_bool_decide; [|done]
      |apply negb_false_iff, N.leb_le in En]; injection Hstep as <-; eapply gauge_ok_move; gauge_side.
  - destruct (_ && _); [|done]. injection Hstep as <-.
    specialize (Hcount (Comparing now (g_peak g) (failures + 1))). simpl in Hcount.
    eapply gauge_ok_move; gauge_side.
  - injection Hstep as <-. specialize (Hcount Outside). simpl in Hcount.
    assert (decrement (g_live g) = (g_live g - 1)%N) as Hdec by (apply decrement_small; lia).
    eapply gauge_ok_move; gauge_side.
Qed.

Lemma execution_ok weak workers history g :
  (N.of_nat workers < size_modulus)%N → execution weak workers history g →
  gauge_ok workers history g ∧ g_live g ∈ history.
Proof.
  intros Hsmall. induction 1 as [|history g w action g' _ [IH1 IH2] Hstep].
  - split; [|set_solver]. split; simpl.
    + apply length_replicate.
    + unfold insideCount. by rewrite filter_replicate_outside.
    + intros v ->%list_elem_of_singleton. lia.
    + set_solver.
    + intros w phase now [-> _]%lookup_replicate. done.
    + intros w now peak failures [? _]%lookup_replicate. done.
    + intros v ->%list_elem_of_singleton. by left.
  - split; [by eapply gaugeStep_ok|]. set_solver.
Qed.

(** Without spurious failures, each failed exchange of a worker has read a larger
    peak than the one before. *)
Lemma execution_failures workers history g w now peak failures :
  execution false workers history g →
  g_workers g !! w = Some (Comparing now peak failures) →
  (failures ≤ peak ∧ failures ≤ now ∧ peak ≤ g_peak g)%N.
Proof.
  intros He. revert w now peak failures.
  induction He as [|history g v action g' _ IH Hstep]; intros w now peak failures Hw.
  { by apply lookup_replicate in Hw as [? _]. }
  unfold gaugeStep in Hstep. destruct (g_workers g !! v) as [old|] eqn:Hv; [|done]. simpl in Hstep.
  assert (∀ new live' peak', (g_peak g ≤ peak')%N → g' = MkGauge live' peak' (moveTo v new g) →
    (∀ n p f, new = Comparing n p f → (f ≤ p ∧ f ≤ n ∧ p ≤ peak')%N) →
    (failures ≤ peak ∧ failures ≤ now ∧ peak ≤ g_peak g')%N) as Hmove.
  { intros new live' peak' Hp -> Hnew. simpl in *.
    destruct (moveTo_lookup _ _ _ _ _ _ Hv Hw) as [[_ <-]|[_ Hw']]; [by apply Hnew|].
    specialize (IH _ _ _ _ Hw'). lia. }
  destruct action, old as [|n|n p f|]; try done; simpl in Hstep.
  - injection Hstep as <-. by eapply Hmove.
  - injection Hstep as <-. eapply Hmove; [done..|]. intros ? ? ? [= <- <- <-]. lia.
  - destruct (negb _) eqn:En; [apply negb_true_iff, N.leb_gt in En; case_bool_decide; [|done]|];
      injection Hstep as <-; (eapply Hmove; [|done|done]); lia.
  - destruct (_ && _) eqn:En; [|done]. injection Hstep as <-. eapply Hmove; [done..|].
    apply andb_true_iff in En as [Hn%negb_true_iff%N.leb_gt Hp]. simpl in Hp.
    apply negb_true_iff, bool_decide_eq_false in Hp.
    intros ? ? ? [= <- <- <-]. destruct (IH _ _ _ _ Hv) as (? & ? & ?). lia.
  - injection Hstep as <-. by eapply Hmove.
Qed.

(** ** Properties *)

(** C29: the gauge is a high-water mark.  Whatever the interleaving of the workers'
    atomic operations, and whether or not exchanges fail spuriously: the live
    count is the number of workers with a slot and the peak is a value it took,
    neither above the number of workers; and once no worker is inside [enter], the
    peak is the largest value it ever took. *)
Theorem gauge_is_high_water_mark weak workers history g :
  (N.of_nat workers < size_modulus)%N → execution weak workers history g →
  g_live g = N.of_nat (insideCount (g_workers g)) ∧
  (g_live g ≤ N.of_nat workers)%N ∧ (g_peak g ≤ N.of_nat workers)%N ∧ g_peak g ∈ history ∧
  ((∀ phase, phase ∈ g_workers g → pendingNow phase = None) →
   ∀ v, v ∈ history → (v ≤ g_peak g)%N).
Proof.
  intros Hsmall He. destruct (execution_ok _ _ _ _ Hsmall He) as [Hok Hlast].
  split_and!; [apply Hok|by apply (ok_bound _ _ _ Hok)|apply (ok_bound _ _ _ Hok), Hok|apply Hok|].
  intros Hquiet v Hv. destruct (ok_covered _ _ _ Hok v Hv) as [?|(w & phase & now & Hw & Hn & _)]; [done|].
  rewrite (Hquiet phase) in Hn; [done|]. by eapply list_elem_of_lookup_2.
Qed.

(** C30: [enter] ends.  A worker in its loop can always make a step, whatever the
    others did; and without spurious failures its exchange fails at most as often
    as there are workers before it leaves the loop. *)
Theorem gauge_enter_ends workers history g w now peak failures :
  (N.of_nat workers < size_modulus)%N → execution false workers history g →
  g_workers g !! w = Some (Comparing now peak failures) →
  (failures ≤ N.of_nat workers)%N ∧
  ∃ action g', gaugeStep false w action g = Some g' ∧
    (g_workers g' !! w = Some InSlot ∨
     ∃ peak', g_workers g' !! w = Some (Comparing now peak' (failures + 1))).
Proof.
  intros Hsmall He Hw. destruct (execution_failures _ _ _ _ _ _ _ He Hw) as (_ & Hf & _).
  destruct (execution_ok _ _ _ _ Hsmall He) as [Hok _]. split.
  - assert (now ≤ N.of_nat workers)%N by (by eapply (ok_bound _ _ _ Hok), (ok_pending _ _ _ Hok)). lia.
  - assert (∀ new, moveTo w new g !! w = Some new) as Hat.
    { intros new. apply list_lookup_insert_eq. by eapply lookup_lt_Some. }
    destruct (decide (now ≤ peak)%N) as [Hle|Hgt]; [|destruct (decide (g_peak g = peak)) as [Hp|Hp]].
    + eexists Exchange, _. unfold gaugeStep. rewrite Hw. simpl.
      rewrite (proj2 (N.leb_le _ _)) by done. split; [done|]. left. apply Hat.
    + eexists Exchange, _. unfold gaugeStep. rewrite Hw. simpl.
      rewrite (proj2 (N.leb_gt _ _)), bool_decide_true by (done || lia). split; [done|]. left. apply Hat.
    + eexists ExchangeFails, _. unfold gaugeStep. rewrite Hw. simpl.
      rewrite (proj2 (N.leb_gt _ _)), bool_decide_false by (done || lia). split; [done|].
      right. eexists. apply Hat.
Qed.

(** ** Witnesses *)

(** Two workers count themselves in, the second raises the peak first, and the
    first finds that its exchange fails. *)
Definition sample_run : list (nat * GaugeAction) :=
  [(0, CountIn); (0, LoadPeak); (1, CountIn); (1, LoadPeak); (1, Exchange); (0, ExchangeFails)].

Definition runGauge (workers : nat) (run : list (nat * GaugeAction)) : option (list N * LiveUnitGauge) :=
  foldl (λ acc step,
      '(history, g) ← acc; g' ← gaugeStep false step.1 step.2 g;
      Some (history ++ [g_live g'], g'))
    (Some ([0%N], newGauge workers)) run.

Lemma runGauge_execution workers run history g :
  runGauge workers run = Some (history, g) → execution false workers history g.
Proof.
  revert history g. unfold runGauge. induction run as [|step run IH] using rev_ind; intros history g H.
  - injection H as <- <-. constructor.
  - rewrite foldl_snoc in H. destruct (foldl _ _ run) as [[history0 g0]|]; [|done]. simpl in H.
    destruct (gaugeStep false step.1 step.2 g0) as [g1|] eqn:E; [|done]. simpl in H.
    injection H as <- <-. by eapply execution_step; [apply IH|].
Qed.

Lemma gauge_is_high_water_mark_witness : (2 ≤ g_peak (MkGauge 2 2 [InSlot; InSlot]))%N.
Proof.
  refine (proj2 (proj2 (proj2 (proj2
    (gauge_is_high_water_mark false 2 [0; 1; 1; 2; 2; 2; 2; 2]%N (MkGauge 2 2 [InSlot; InSlot]) _ _)))) _ 2%N _).
  - vm_compute. reflexivity.
  - apply (runGauge_execution 2 (sample_run ++ [(0, Exchange)])). vm_compute. reflexivity.
  - intros phase H. change (phase ∈ [InSlot; InSlot]) in H. rewrite !elem_of_cons, elem_of_nil in H.
    destruct H as [->|[->|[]]]; reflexivity.
  - apply (list_elem_of_lookup_2 _ 3). reflexivity.
Defined.

Lemma gauge_enter_ends_witness : (1 ≤ N.of_nat 2)%N.
Proof.
  refine (proj1 (gauge_enter_ends 2 [0; 1; 1; 2; 2; 2; 2]%N (MkGauge 2 2 [Comparing 1 2 1; InSlot])
    0 1 2 1 _ _ _)).
  - vm_compute. reflexivity.
  - apply (runGauge_execution 2 sample_run). vm_compute. reflexivity.
  - reflexivity.
Defined.
