(* ===== verification/CompilerDiag.v ===== *)
(** The parser of the compiler's text output
    (src/internal/diagnostics/compiler_diagnostic_parser.cpp): a line
    [file:line:column: severity: message] opens a finding, a note or any other
    line is attached to the finding opened last.

    The source keeps [currentPrimary], a pointer into [report.diagnostics]; here
    it is the index of the element it points to. *)

From S2P Require Import Prelude Text Errors Diagnostics ReportBuilder.

(** ** The lines *)

Record ParsedDiagnosticLine := MkParsedLine {
  pl_location : SourceLocation;
  pl_severity : Severity;
  pl_severityLabel : string;
  pl_message : string;
  pl_hasStructuredLocation : bool;
}.

Definition trim (value : string) : string :=
  drop_suffix_while is_space (skip_while is_space value).

(** [unsigned] arithmetic wraps around at 32 bits. *)
Fixpoint parseDigits (value : N) (text : string) : option N :=
  match text with
  | "" => Some value
  | String ch rest =>
      if negb (is_digit ch) then None
      else parseDigits (wrap 32 (value * 10 + digit_value ch)) rest
  end.

Definition parseUnsigned (text : string) : option N :=
  if bool_decide (text = "") then None else parseDigits 0 text.

Definition splitLines (text : string) : list string :=
  if bool_decide (text = "") then [""] else linesOf text.

Definition toSeverityToken (value : string) : string :=
  if bool_decide (value = "fatal error") then value
  else if bool_decide (value = "error") then value
  else if bool_decide (value = "warning") then value
  else if bool_decide (value = "note") then value
  else if bool_decide (value = "remark") then value
  else "".

Definition mapSeverity (value : string) : Severity :=
  if bool_decide (value = "warning") then Severity_Warning
  else if bool_decide (value = "remark") || bool_decide (value = "note") then Severity_Info
  else Severity_Error.

Definition parseStructuredLine (line : string) : option ParsedDiagnosticLine :=
  '(file, afterFirst) ← cut ":" line;
  '(lineText, afterSecond) ← cut ":" afterFirst;
  '(columnText, afterThird) ← cut ":" afterSecond;
  '(severityText, afterFourth) ← cut ":" afterThird;
  lineNumber ← parseUnsigned lineText;
  columnNumber ← parseUnsigned columnText;
  let severity := trim severityText in
  let severityToken := toSeverityToken severity in
  if bool_decide (severityToken = "") then None
  else Some (MkParsedLine
    (MkSourceLocation file lineNumber columnNumber lineNumber columnNumber "")
    (mapSeverity severityToken) severity (trim afterFourth) true).

(** ** The report *)

(** The builder chain every finding of the parser goes through. *)
Definition compilerDiagnostic (location : SourceLocation) (sev : Severity)
    (text label raw : string) : Diagnostic :=
  DiagnosticBuilder RuleId_CompilerDiagnostic
    |> primaryLocation location
    |> severity sev
    |> message text
    |> property "compilerSeverity" (PString label)
    |> property "rawDiagnostic" (PString raw).

Definition file_location (file : string) : SourceLocation := MkSourceLocation file 0 0 0 0 "".

Definition addFallbackDiagnostic (report : DiagnosticReport) (error : CompileError)
    (inputFile rawDiagnostics : string) : DiagnosticReport :=
  let formattedError := formatCompileError error in
  emit report
    (compilerDiagnostic (file_location inputFile) Severity_Error
       (if bool_decide (err_message error = "") then ec_message (err_code error)
        else err_message error) "error" rawDiagnostics
     |> when (bool_decide (formattedError ≠ "")) (note formattedError)).

Definition summarize (report : DiagnosticReport) : DiagnosticSummary :=
  computeSummary (rep_diagnostics report).

Record ParseState := MkParseState {
  ps_report : DiagnosticReport;
  ps_currentPrimary : option nat;
}.

(** Emission, then [currentPrimary = &report.diagnostics.back()]. *)
Definition openPrimary (state : ParseState) (d : Diagnostic) : ParseState :=
  let report := emit (ps_report state) d in
  MkParseState report (Some (length (rep_diagnostics report) - 1)).

(** A change made through [currentPrimary]. *)
Definition updatePrimary (state : ParseState) (primary : nat) (f : Diagnostic → Diagnostic)
  : ParseState :=
  let report := ps_report state in
  MkParseState (MkReport (rep_functions report) (alter f primary (rep_diagnostics report))
                  (rep_summary report) (rep_notices report)) (ps_currentPrimary state).

(** The body of the loop over the lines. *)
Definition parseLine (inputFile : string) (state : ParseState) (rawLine : string) : ParseState :=
  let line := trim rawLine in
  if bool_decide (line = "") then state
  else match parseStructuredLine line with
  | None =>
      match ps_currentPrimary state with
      | Some primary => updatePrimary state primary (note line)
      | None =>
          openPrimary state
            (compilerDiagnostic (file_location inputFile) Severity_Error line "error" line)
      end
  | Some parsed =>
      let opened := compilerDiagnostic (pl_location parsed) (pl_severity parsed)
                      (pl_message parsed) (pl_severityLabel parsed) line in
      if bool_decide (pl_severityLabel parsed = "note") then
        match ps_currentPrimary state with
        | Some primary =>
            updatePrimary state primary (λ d, d
              |> note (pl_message parsed)
              |> relatedLocation "Compiler note" (pl_location parsed))
        | None => openPrimary state opened
        end
      else openPrimary state opened
  end.

Definition compiler_lt : Diagnostic → Diagnostic → bool :=
  lt_then (lt_on (λ d, loc_file (diag_location d)) str_lt)
   (lt_then (lt_on (λ d, loc_line (diag_location d)) N_lt)
     (lt_then (lt_on (λ d, loc_column (diag_location d)) N_lt)
       (lt_on diag_message str_lt))).

Definition parseCompilerDiagnostics `{!StdSort} (rawDiagnostics : string) (error : CompileError)
    (inputFile : string) : DiagnosticReport :=
  let report :=
    ps_report (foldl (parseLine inputFile) (MkParseState empty_report None)
                 (splitLines rawDiagnostics)) in
  let report := if bool_decide (rep_diagnostics report = [])
                then addFallbackDiagnostic report error inputFile rawDiagnostics else report in
  let diagnostics := numberDiagnostics (std_sort compiler_lt (rep_diagnostics report)) in
  let report := MkReport (rep_functions report) diagnostics (rep_summary report)
                  (rep_notices report) in
  MkReport (rep_functions report) (rep_diagnostics report) (summarize report)
    (rep_notices report).

(** ** Lemmas on the lines *)

Lemma trim_trimmed s : trimmed s = true → trim s = s.
Proof.
  unfold trimmed, trim. rewrite andb_true_iff. intros [Hh Hl].
  by rewrite skip_while_id, drop_suffix_while_id.
Qed.

Lemma trim_indented indent s :
  all_chars is_space indent = true → trimmed s = true → trim (indent +:+ s) = s.
Proof. intros Hi Hs. unfold trim. rewrite skip_while_app by done. by apply trim_trimmed. Qed.

Lemma parseDigits_spec value text :
  parseDigits value text =
  if all_chars is_digit text then Some (match text with "" => value | _ => wrap 32 (decimal_value value text) end)
  else None.
Proof.
  revert value. induction text as [|c text IH]; intros value; simpl; [done|].
  destruct (is_digit c); simpl; [|done]. rewrite IH.
  destruct (all_chars is_digit text); [|done]. f_equal.
  destruct text as [|d text]; [done|]. by rewrite decimal_value_wrap.
Qed.

(** [parseUnsigned] accepts exactly the non-empty digit strings, and reads them
    modulo 2^32. *)
Lemma parseUnsigned_spec text :
  parseUnsigned text =
  if negb (bool_decide (text = "")) && all_chars is_digit text
  then Some (wrap 32 (decimal_value 0 text)) else None.
Proof.
  unfold parseUnsigned. destruct text as [|c text]; [done|].
  rewrite bool_decide_false by done. simpl negb. rewrite andb_true_l. by rewrite parseDigits_spec.
Qed.

Lemma parseUnsigned_pretty (n : N) : (n < 2 ^ 32)%N → parseUnsigned (pretty n) = Some n.
Proof.
  intros Hn. rewrite parseUnsigned_spec, bool_decide_false by apply pretty_N_nonempty.
  rewrite pretty_N_digits, decimal_value_pretty. unfold wrap. by rewrite N.mod_small.
Qed.

Lemma splitLines_unlines lines :
  lines ≠ [] → Forall (λ l, all_chars (other_than newline) l = true) lines →
  splitLines (unlines lines) = lines.
Proof.
  intros Hne Hl. unfold splitLines. rewrite bool_decide_false.
  - by apply linesOf_unlines.
  - destruct lines as [|l lines]; [done|]. simpl. rewrite append_eq_empty. intros [_ H]. discriminate H.
Qed.

(** ** What a compiler prints

    The abstract side of the round trip: messages, each followed by notes and by
    lines of source text or carets. *)

Inductive Attachment :=
| ANote (location : SourceLocation) (text : string)
| ASnippet (indent text : string).

Record CompilerMessage := MkCompilerMessage {
  cm_location : SourceLocation;
  cm_label : string;
  cm_text : string;
  cm_attachments : list Attachment;
}.

Definition print_header (l : SourceLocation) (label text : string) : string :=
  loc_file l +:+ ":" +:+ pretty (loc_line l) +:+ ":" +:+ pretty (loc_column l) +:+ ": "
  +:+ label +:+ ": " +:+ text.

Definition print_attachment (a : Attachment) : string :=
  match a with
  | ANote l text => print_header l "note" text
  | ASnippet indent text => indent +:+ text
  end.

Definition message_lines (m : CompilerMessage) : list string :=
  print_header (cm_location m) (cm_label m) (cm_text m) :: (print_attachment <$> cm_attachments m).

Definition print_messages (ms : list CompilerMessage) : string :=
  unlines (ms ≫= message_lines).

Definition attach (d : Diagnostic) (a : Attachment) : Diagnostic :=
  match a with
  | ANote l text => d |> note text |> relatedLocation "Compiler note" l
  | ASnippet _ text => d |> note text
  end.

Definition diagnostic_of (m : CompilerMessage) : Diagnostic :=
  foldl attach
    (compilerDiagnostic (cm_location m) (mapSeverity (cm_label m)) (cm_text m) (cm_label m)
       (print_header (cm_location m) (cm_label m) (cm_text m))) (cm_attachments m).

(** One line of text with nothing to trim. *)
Definition wf_text (s : string) : Prop :=
  s ≠ "" ∧ trimmed s = true ∧ all_chars (other_than newline) s = true.

Definition wf_location (l : SourceLocation) : Prop :=
  loc_file l ≠ "" ∧ head_not is_space (loc_file l) = true ∧
  all_chars (other_than ":") (loc_file l) = true ∧
  all_chars (other_than newline) (loc_file l) = true ∧
  (loc_line l < 2 ^ 32)%N ∧ (loc_column l < 2 ^ 32)%N ∧
  loc_endLine l = loc_line l ∧ loc_endColumn l = loc_column l ∧ loc_function l = "".

Definition wf_attachment (a : Attachment) : Prop :=
  match a with
  | ANote l text => wf_location l ∧ wf_text text
  | ASnippet indent text =>
      all_chars is_space indent = true ∧ all_chars (other_than newline) indent = true ∧
      wf_text text ∧ parseStructuredLine text = None
  end.

Definition wf_message (m : CompilerMessage) : Prop :=
  wf_location (cm_location m) ∧ wf_text (cm_text m) ∧
  cm_label m ∈ ["fatal error"; "error"; "warning"; "remark"] ∧
  Forall wf_attachment (cm_attachments m).

#[global] Instance wf_text_dec s : Decision (wf_text s).
Proof. unfold wf_text. apply _. Defined.
#[global] Instance wf_location_dec l : Decision (wf_location l).
Proof. unfold wf_location. apply _. Defined.
#[global] Instance ParsedDiagnosticLine_eq_dec : EqDecision ParsedDiagnosticLine.
Proof. solve_decision. Defined.
#[global] Instance wf_attachment_dec a : Decision (wf_attachment a).
Proof. destruct a; simpl; apply _. Defined.
#[global] Instance wf_message_dec m : Decision (wf_message m).
Proof. unfold wf_message. apply _. Defined.

Abbreviation severity_labels := ["fatal error"; "error"; "warning"; "remark"; "note"].

(** The severities hold no colon or newline, survive trimming and are tokens. *)
Lemma severity_label_facts label :
  label ∈ severity_labels →
  all_chars (other_than ":") label = true ∧ all_chars (other_than newline) label = true ∧
  trim (" " +:+ label) = label ∧ toSeverityToken label = label ∧ label ≠ "".
Proof.
  rewrite !elem_of_cons, elem_of_nil. intros H.
  destruct_or! H; subst; try done; split_and!; try reflexivity; discriminate.
Qed.

Lemma pretty_no_char (c : ascii) (n : N) : is_digit c = false → all_chars (other_than c) (pretty n) = true.
Proof.
  intros Hc. apply (all_chars_mono is_digit); [|apply pretty_N_digits].
  intros d Hd. by apply digit_other_than.
Qed.

(** A printed header is read back. *)
Lemma parse_print_header l label text :
  wf_location l → label ∈ severity_labels → wf_text text →
  parseStructuredLine (print_header l label text)
  = Some (MkParsedLine l (mapSeverity label) label text true).
Proof.
  intros (_ & _ & Hf & _ & Hl & Hc & El & Ec & Efn) Hlab (_ & Ht & _).
  destruct (severity_label_facts label Hlab) as (Hcol & _ & Htrim & Htok & Hne).
  unfold parseStructuredLine. change (print_header l label text) with
    (loc_file l +:+ String ":" (pretty (loc_line l) +:+ String ":" (pretty (loc_column l) +:+
       String ":" ((" " +:+ label) +:+ String ":" (" " +:+ text))))).
  rewrite cut_app by done. cbn [mbind option_bind].
  rewrite (cut_app ":" (pretty _)) by (by apply pretty_no_char). cbn [mbind option_bind].
  rewrite (cut_app ":" (pretty _)) by (by apply pretty_no_char). cbn [mbind option_bind].
  rewrite cut_app by (rewrite all_chars_app; done). cbn [mbind option_bind].
  rewrite !parseUnsigned_pretty by done. cbn [mbind option_bind].
  rewrite Htrim, Htok, bool_decide_false by done.
  rewrite (trim_indented " " text) by done.
  destruct l; simpl in *; subst. done.
Qed.

Lemma print_header_wf l label text :
  wf_location l → label ∈ severity_labels → wf_text text → wf_text (print_header l label text).
Proof.
  intros (Hf & Hsp & _ & Hnl & _) Hlab (Hne & Ht & Htn).
  destruct (severity_label_facts label Hlab) as (_ & Hlnl & _).
  unfold wf_text, trimmed in *. apply andb_true_iff in Ht as [Hth Htl]. unfold print_header.
  split_and!.
  - rewrite append_eq_empty. naive_solver.
  - rewrite head_not_app, Hsp by done.
    rewrite <-(append_assoc ": " label), <-!append_assoc, (last_not_app _ _ text) by done. done.
  - rewrite !all_chars_app, Hnl, Hlnl, Htn, !pretty_no_char; done.
Qed.

(** ** The loop over the lines *)

Abbreviation diagnostics_of st := (rep_diagnostics (ps_report st)).

(** [currentPrimary] is null while nothing was found and points to the last
    finding afterwards: it never dangles. *)
Definition primary_is_last (st : ParseState) : Prop :=
  ps_currentPrimary st =
  match length (diagnostics_of st) with 0 => None | S n => Some n end.

Lemma openPrimary_last st d : primary_is_last (openPrimary st d).
Proof.
  unfold primary_is_last, openPrimary. simpl. rewrite length_app. simpl.
  by rewrite Nat.add_1_r, Nat.sub_succ, Nat.sub_0_r.
Qed.

Lemma updatePrimary_last st i f : primary_is_last st → primary_is_last (updatePrimary st i f).
Proof. unfold primary_is_last, updatePrimary. simpl. by rewrite length_alter. Qed.

Lemma parseLine_last inputFile st line : primary_is_last st → primary_is_last (parseLine inputFile st line).
Proof.
  intros H. unfold parseLine. case_bool_decide; [done|].
  repeat case_match; auto using openPrimary_last, updatePrimary_last.
Qed.

Lemma parse_header inputFile st l label text :
  wf_location l → label ∈ ["fatal error"; "error"; "warning"; "remark"] → wf_text text →
  parseLine inputFile st (print_header l label text) =
  openPrimary st (compilerDiagnostic l (mapSeverity label) text label (print_header l label text)).
Proof.
  intros Hl Hlab Ht. assert (label ∈ severity_labels) as Hlab' by set_solver.
  destruct (print_header_wf l label text Hl Hlab' Ht) as (Hne & Htr & _).
  unfold parseLine. rewrite trim_trimmed, bool_decide_false, parse_print_header by done.
  simpl. rewrite bool_decide_false; [done|]. intros ->. set_solver.
Qed.

Lemma parse_attachment inputFile st ds d a :
  wf_attachment a → primary_is_last st → diagnostics_of st = ds ++ [d] →
  primary_is_last (parseLine inputFile st (print_attachment a)) ∧
  diagnostics_of (parseLine inputFile st (print_attachment a)) = ds ++ [attach d a].
Proof.
  intros Ha Hp Hds. split; [by apply parseLine_last|].
  assert (ps_currentPrimary st = Some (length ds + 0)) as Hcp.
  { unfold primary_is_last in Hp. rewrite Hp, Hds, length_app. simpl. by rewrite Nat.add_comm, Nat.add_0_r. }
  unfold parseLine. destruct a as [l text|indent text]; simpl in Ha |- *.
  - destruct Ha as [Hl Ht]. assert ("note" ∈ severity_labels) as Hlab by set_solver.
    destruct (print_header_wf l "note" text Hl Hlab Ht) as (Hne & Htr & _).
    rewrite trim_trimmed, bool_decide_false, parse_print_header, Hcp by done.
    simpl pl_severityLabel. rewrite bool_decide_true by done. unfold updatePrimary.
    cbn [ps_report rep_diagnostics].
    by rewrite Hds, alter_app_r.
  - destruct Ha as (Hi & _ & (Hne & Ht & _) & Hn).
    rewrite trim_indented, bool_decide_false, Hn, Hcp by done. simpl.
    by rewrite Hds, alter_app_r.
Qed.

Lemma parse_message inputFile st m :
  wf_message m → primary_is_last st →
  primary_is_last (foldl (parseLine inputFile) st (message_lines m)) ∧
  diagnostics_of (foldl (parseLine inputFile) st (message_lines m))
  = diagnostics_of st ++ [diagnostic_of m].
Proof.
  destruct m as [l label text attachments]. intros (Hl & Ht & Hlab & Ha) Hp.
  unfold message_lines, diagnostic_of. simpl in *. rewrite parse_header by done.
  set (d := compilerDiagnostic _ _ _ _ _). clearbody d.
  assert (primary_is_last (openPrimary st d)) as Hlast by apply openPrimary_last.
  assert (diagnostics_of (openPrimary st d) = diagnostics_of st ++ [d]) as Hds by done.
  revert d Hlast Hds. generalize (diagnostics_of st) as ds. intros ds d.
  generalize (openPrimary st d) as st'. clear Hp st. revert d.
  induction Ha as [|a attachments Ha Has IH]; intros d st Hlast Hds; simpl; [done|].
  destruct (parse_attachment inputFile st ds d a Ha Hlast Hds) as [Hlast' Hds'].
  by apply (IH (attach d a)).
Qed.

Lemma parse_messages inputFile st ms :
  Forall wf_message ms → primary_is_last st →
  diagnostics_of (foldl (parseLine inputFile) st (ms ≫= message_lines))
  = diagnostics_of st ++ (diagnostic_of <$> ms).
Proof.
  intros Hms. revert st. induction Hms as [|m ms Hm Hms IH]; intros st Hst.
  - simpl. by rewrite app_nil_r.
  - rewrite bind_cons, foldl_app. destruct (parse_message inputFile st m Hm Hst) as [Hlast Hds].
    rewrite IH, Hds, <-app_assoc by done. done.
Qed.

Lemma message_lines_no_newline m :
  wf_message m → Forall (λ l, all_chars (other_than newline) l = true) (message_lines m).
Proof.
  intros (Hl & Ht & Hlab & Ha). constructor.
  - apply print_header_wf; [done|set_solver|done].
  - apply Forall_fmap. eapply Forall_impl; [exact Ha|]. intros [l text|indent text]; simpl.
    + intros [??]. apply print_header_wf; [done|set_solver|done].
    + intros (_ & Hi & (_ & _ & Htn) & _). by rewrite all_chars_app, Hi, Htn.
Qed.

Lemma diagnostic_of_id m : diag_id (diagnostic_of m) = "".
Proof.
  unfold diagnostic_of. apply (foldl_inv (λ d, diag_id d = "")); [done|].
  by intros d [] _ Hd.
Qed.

Lemma with_id_self d : with_id (diag_id d) d = d.
Proof. by destruct d. Qed.

#[global] Instance compiler_lt_swo : StrictWeakOrder compiler_lt.
Proof. unfold compiler_lt. apply _. Qed.

(** ** Every line is accounted for *)

(** The lines of the compiler a finding carries: its own and its notes. *)
Definition carried (d : Diagnostic) : nat := S (length (diag_notes d)).

Definition nonblank (lines : list string) : list string :=
  filter (λ l, trim l ≠ "") lines.

Lemma updatePrimary_carried st primary f :
  primary_is_last st → ps_currentPrimary st = Some primary →
  (∀ d, carried (f d) = S (carried d)) →
  sum_list (carried <$> diagnostics_of (updatePrimary st primary f))
  = S (sum_list (carried <$> diagnostics_of st)).
Proof.
  intros Hp Hcp Hf. unfold primary_is_last in Hp. rewrite Hcp in Hp. simpl.
  destruct (diagnostics_of st) as [|d ds _] using rev_ind; [done|].
  rewrite length_app, Nat.add_comm in Hp. simpl in Hp. injection Hp as ->.
  rewrite <-(Nat.add_0_r (length ds)), alter_app_r, !fmap_app, !sum_list_with_app.
  change (alter f 0 [d]) with [f d]. specialize (Hf d). unfold carried in *. simpl. lia.
Qed.

Lemma openPrimary_carried st d :
  diag_notes d = [] →
  sum_list (carried <$> diagnostics_of (openPrimary st d))
  = S (sum_list (carried <$> diagnostics_of st)).
Proof. intros Hd. simpl. rewrite fmap_app, sum_list_with_app. unfold carried. simpl. rewrite Hd. simpl. lia. Qed.

Lemma parseLine_carried inputFile st line :
  primary_is_last st →
  sum_list (carried <$> diagnostics_of (parseLine inputFile st line))
  = length (nonblank [line]) + sum_list (carried <$> diagnostics_of st).
Proof.
  intros Hp. unfold parseLine, nonblank. rewrite filter_cons, filter_nil.
  case_bool_decide as E; [by rewrite decide_False by naive_solver|].
  rewrite decide_True by done. simpl length.
  repeat case_match; first [by apply openPrimary_carried|apply updatePrimary_carried; [done..|]].
  all: intros d; unfold carried; simpl; rewrite length_app; simpl; lia.
Qed.

Lemma parse_lines_carried inputFile lines st :
  primary_is_last st →
  sum_list (carried <$> diagnostics_of (foldl (parseLine inputFile) st lines))
  = length (nonblank lines) + sum_list (carried <$> diagnostics_of st).
Proof.
  revert st. induction lines as [|l lines IH]; intros st Hst; [done|]. simpl.
  rewrite IH by (by apply parseLine_last). rewrite parseLine_carried by done.
  unfold nonblank. rewrite (filter_app _ [l] lines : filter _ (l :: lines) = _), length_app. lia.
Qed.

Lemma carried_none ds : sum_list (carried <$> ds) = 0 ↔ ds = [].
Proof. split; [|by intros ->]. destruct ds; [done|]. simpl. unfold carried. lia. Qed.

Section report.
Context `{!StdSort}.

Lemma numbered_weight {A} (f : Diagnostic → A) ds :
  (∀ id d, f (with_id id d) = f d) → f <$> numberDiagnostics ds = f <$> ds.
Proof.
  intros Hf. unfold numberDiagnostics. rewrite fmap_imap. apply list_eq. intros i.
  rewrite list_lookup_imap, list_lookup_fmap. destruct (ds !! i); simpl; [|done]. by rewrite Hf.
Qed.

(** C39: The parser reads back what a compiler prints.  For messages with their
    notes and source excerpts, printed one per line with 32-bit line and column
    numbers and files without a colon, the report holds exactly the diagnostic of
    each message (its location, severity, text, the raw line, the notes and
    excerpts that follow it and the places the notes name) whatever the
    conforming sort. *)
Theorem compiler_output_roundtrip (ms : list CompilerMessage) (error : CompileError)
    (inputFile : string) :
  ms ≠ [] → Forall wf_message ms →
  with_id "" <$> rep_diagnostics (parseCompilerDiagnostics (print_messages ms) error inputFile)
  ≡ₚ (diagnostic_of <$> ms).
Proof.
  intros Hne Hms. unfold parseCompilerDiagnostics, print_messages.
  rewrite splitLines_unlines.
  - set (st := foldl _ _ _). assert (diagnostics_of st = diagnostic_of <$> ms) as Hst.
    { unfold st. by rewrite parse_messages. }
    rewrite bool_decide_false by (rewrite Hst; by destruct ms). simpl.
    rewrite with_id_numbered, std_sort_perm, Hst, <-list_fmap_compose by apply _.
    apply reflexive_eq, list_fmap_ext. intros i m _. simpl.
    rewrite <-(diagnostic_of_id m) at 1. apply with_id_self.
  - destruct ms; [done|]. rewrite bind_cons. done.
  - apply Forall_bind. eapply Forall_impl; [done|]. apply message_lines_no_newline.
Qed.

(** Nothing the compiler printed is lost.  The findings and their notes
    number the lines that are not blank; when every line is blank the report holds
    the one finding that stands for the failed compilation; the findings are in
    order of file, line, column and text, numbered, and the summary counts them. *)
Theorem compiler_report_accounts_for_lines (raw : string) (error : CompileError)
    (inputFile : string) :
  let report := parseCompilerDiagnostics raw error inputFile in
  let lines := nonblank (splitLines raw) in
  (if bool_decide (lines = [])
   then with_id "" <$> rep_diagnostics report
        = rep_diagnostics (addFallbackDiagnostic empty_report error inputFile raw)
   else sum_list (carried <$> rep_diagnostics report) = length lines) ∧
  rep_diagnostics report ≠ [] ∧
  StronglySorted (not_after compiler_lt) (rep_diagnostics report) ∧
  diag_id <$> rep_diagnostics report = diagnosticId <$> seq 0 (length (rep_diagnostics report)) ∧
  rep_summary report = computeSummary (rep_diagnostics report).
Proof.
  intros report lines.
  pose proof (parse_lines_carried inputFile (splitLines raw) (MkParseState empty_report None) eq_refl)
    as Hsum.
  unfold report, parseCompilerDiagnostics. set (st := foldl _ _ _) in *.
  simpl in Hsum. rewrite Nat.add_0_r in Hsum. fold lines in Hsum.
  set (report' := if bool_decide (diagnostics_of st = []) then _ else _).
  assert (rep_diagnostics report' ≠ []) as Hne.
  { unfold report'. case_bool_decide; [|done]. simpl. by destruct (diagnostics_of st). }
  cbn [rep_diagnostics rep_summary].
  split_and!.
  - rewrite with_id_numbered, (numbered_weight carried) by done.
    assert (lines = [] ↔ diagnostics_of st = []) as Hiff.
    { by rewrite <-carried_none, Hsum, length_zero_iff_nil. }
    unfold report'. case_bool_decide as E.
    + rewrite bool_decide_true by (by apply Hiff). simpl. apply Hiff in E. rewrite E. simpl.
      rewrite (proj1 (Permutation_singleton_r _ _) (std_sort_perm compiler_lt [_])). simpl.
      by case_bool_decide.
    + rewrite bool_decide_false by (by rewrite <-Hiff). by rewrite std_sort_perm by apply _.
  - intros E%(f_equal length). unfold numberDiagnostics in E.
    rewrite length_imap, std_sort_perm in E by apply _. by destruct (rep_diagnostics report').
  - apply numberDiagnostics_sorted; [done|]. apply std_sort_sorted, _.
  - rewrite numberDiagnostics_ids. unfold numberDiagnostics. by rewrite length_imap.
  - done.
Qed.
End report.

(** A warning with a note and a caret line, then an error. *)
Definition sample_messages : list CompilerMessage :=
  [MkCompilerMessage (MkSourceLocation "b.c" 12 4 12 4 "") "warning" "unused variable 'x'"
     [ASnippet "     " "12 | int x;"; ASnippet "     " "^";
      ANote (MkSourceLocation "b.h" 3 1 3 1 "") "declared here: see above"];
   MkCompilerMessage (MkSourceLocation "a.c" 7 9 7 9 "") "fatal error" "'z.h' file not found" []].

Lemma compiler_output_roundtrip_witness :
  with_id "" <$> rep_diagnostics
    (@parseCompilerDiagnostics merge_std_sort (print_messages sample_messages) no_error "main.c")
  ≡ₚ (diagnostic_of <$> sample_messages).
Proof.
  apply (@compiler_output_roundtrip merge_std_sort sample_messages no_error "main.c").
  - discriminate.
  - apply (bool_decide_unpack _). vm_compute. exact I.
Defined.

(** A line number beyond 32 bits is read modulo 2^32. *)
Lemma line_number_wraps :
  (pl_location <$> parseStructuredLine "a.c:4294967297:2: error: x")
  = Some (MkSourceLocation "a.c" 1 2 1 2 "").
Proof. reflexivity. Qed.

(** The drive letter of a Windows path ends the file name: the line is no longer
    read as a diagnostic and becomes a note of the finding before it. *)
Lemma drive_letter_line_is_unstructured :
  parseStructuredLine "C:\src\a.c:3:5: error: x" = None.
Proof. reflexivity. Qed.
