(* ===== verification/Json.v ===== *)
(** JSON values as the program handles them: [llvm::json::Value] is the tree
    [JsonValue]; an object is the list of its members, which the library keeps free
    of repeated keys.  The accessors are those of the library: a member of another
    type reads as absent. *)

From S2P Require Import Prelude.

(** ** JSON *)

Inductive JsonValue :=
| JNull
| JBool (b : bool)
| JInt (z : Z)
| JString (s : string)
| JArray (items : list JsonValue)
| JObject (members : list (string * JsonValue)).

Abbreviation JsonObject := (list (string * JsonValue)).

(** [Object::insert]: a key that is there already keeps its value. *)
Definition obj_insert (key : string) (value : JsonValue) (o : JsonObject) : JsonObject :=
  if bool_decide (key ∈ o.*1) then o else o ++ [(key, value)].

(** [object[key] = value]. *)
Fixpoint obj_set (key : string) (value : JsonValue) (o : JsonObject) : JsonObject :=
  match o with
  | [] => [(key, value)]
  | (k, v) :: o' =>
      if bool_decide (k = key) then (k, value) :: o' else (k, v) :: obj_set key value o'
  end.

Definition int_N (n : N) : JsonValue := JInt (Z.of_N n).
Definition int_nat (n : nat) : JsonValue := JInt (Z.of_nat n).

(** ** Reading *)

Definition members (v : JsonValue) : JsonObject :=
  match v with JObject ms => ms | _ => [] end.

Fixpoint find_member (key : string) (ms : JsonObject) : option JsonValue :=
  match ms with
  | [] => None
  | (k, v) :: rest => if bool_decide (k = key) then Some v else find_member key rest
  end.

Definition field (key : string) (v : JsonValue) : option JsonValue := find_member key (members v).

Definition as_string (v : JsonValue) : option string := match v with JString s => Some s | _ => None end.
Definition as_bool (v : JsonValue) : option bool := match v with JBool b => Some b | _ => None end.
Definition as_int (v : JsonValue) : option Z := match v with JInt z => Some z | _ => None end.
Definition as_items (v : JsonValue) : option (list JsonValue) :=
  match v with JArray l => Some l | _ => None end.

Definition string_field (key : string) (v : JsonValue) : option string := field key v ≫= as_string.
Definition bool_field (key : string) (v : JsonValue) : option bool := field key v ≫= as_bool.
Definition N_field (key : string) (v : JsonValue) : option N := Z.to_N <$> (field key v ≫= as_int).
Definition nat_field (key : string) (v : JsonValue) : option nat :=
  Z.to_nat <$> (field key v ≫= as_int).
Definition list_field {A} (key : string) (read : JsonValue → option A) (v : JsonValue)
  : option (list A) := items ← field key v ≫= as_items; mapM read items.
