(* ===== verification/Renderer.v ===== *)
(** The report renderer (src/internal/reporting/report_renderer.cpp): the human,
    JSON and SARIF output of a report.

    The documents are trees of Json.v.  Printing a document
    ([formatv("{0:2}", document)]), the MD5 digest, [std::filesystem::relative] and
    [path::generic_string] are parameters.  Dereferencing an empty
    [std::optional] is undefined in C++: the rendering of a function summary is
    [None] there. *)

From S2P Require Import Prelude Text Json Diagnostics Facts FactQueries ReportBuilder.

(** ** The context and the small helpers *)

Record RenderContext := MkRenderContext {
  ctx_toolName : string;
  ctx_inputFile : string;
  ctx_mode : string;
  ctx_analysisTimeMs : Z;
  ctx_sourceRoot : string;
}.

Definition severityUpper (severity : Severity) : string :=
  match severity with
  | Severity_Info => "INFO" | Severity_Warning => "WARNING" | Severity_Error => "ERROR"
  end.

Definition severityTitle (severity : Severity) : string :=
  match severity with
  | Severity_Info => "Info" | Severity_Warning => "Warning" | Severity_Error => "Error"
  end.

Definition confidenceUpper (confidence : ConfidenceLevel) : string :=
  match confidence with
  | Confidence_Low => "LOW" | Confidence_Medium => "MEDIUM" | Confidence_High => "HIGH"
  end.

Definition sarifLevel (severity : Severity) : string :=
  match severity with
  | Severity_Info => "note" | Severity_Warning => "warning" | Severity_Error => "error"
  end.

Definition propertyString (diagnostic : Diagnostic) (key : string) : option string :=
  match diag_properties diagnostic !! key with
  | Some (PString value) => Some value
  | _ => None
  end.

Definition effectiveFile (location : SourceLocation) (context : RenderContext) : string :=
  if bool_decide (loc_file location ≠ "") then loc_file location else ctx_inputFile context.

Definition formatLocationHeader (location : SourceLocation) (context : RenderContext) : string :=
  let file := effectiveFile location context in
  if bool_decide (loc_line location ≠ 0%N) && bool_decide (file ≠ "")
  then file +:+ ":" +:+ pretty (loc_line location) +:+ ":" +:+ pretty (loc_column location)
  else if bool_decide (file ≠ "") then file
  else "<unknown-location>".

Definition formatDetailedLocation (location : SourceLocation) (context : RenderContext) : string :=
  formatLocationHeader location context +:+
  (if bool_decide (loc_function location ≠ "") then " in " +:+ loc_function location else "").

Definition nl : string := String newline "".
Definition tab : string := String "009" "".

Definition renderDiagnosticBody (diagnostic : Diagnostic) : string :=
  "[!!!" +:+ severityTitle (diag_severity diagnostic) +:+ "] " +:+ diag_message diagnostic +:+
  join_with "" ((λ note, nl +:+ tab +:+ "     ↳ " +:+ note_text note) <$> diag_notes diagnostic)
  +:+ nl.

Fixpoint firstCwe (taxonomies : list TaxonomyRef) : option string :=
  match taxonomies with
  | [] => None
  | taxonomy :: rest =>
      if bool_decide (tax_scheme taxonomy = "CWE")
      then Some (tax_scheme taxonomy +:+ "-" +:+ tax_id taxonomy) else firstCwe rest
  end.

Definition firstCweIdentifier (diagnostic : Diagnostic) : option string :=
  firstCwe (diag_taxonomies diagnostic).

Definition primaryCweIdentifier (ruleId : RuleId) : option string :=
  match rm_primaryTaxonomy (lookupRuleMetadata ruleId) with
  | Some taxonomy =>
      if bool_decide (tm_scheme taxonomy = "CWE")
      then Some (tm_scheme taxonomy +:+ "-" +:+ tm_id taxonomy) else None
  | None => None
  end.

Definition toJsonValue (value : DiagnosticPropertyValue) : JsonValue :=
  match value with
  | PBool b => JBool b
  | PInt z => JInt z
  | PString s => JString s
  | PStrings items => JArray (JString <$> items)
  end.

(** [location.endLine == 0 ? location.line : location.endLine], and columns. *)
Definition orElse (value fallback : N) : N := if bool_decide (value = 0%N) then fallback else value.

Definition toJsonLocation (location : SourceLocation) (context : RenderContext) : JsonObject :=
  [("file", JString (effectiveFile location context));
   ("function", JString (loc_function location));
   ("startLine", int_N (loc_line location));
   ("startColumn", int_N (loc_column location));
   ("endLine", int_N (orElse (loc_endLine location) (loc_line location)));
   ("endColumn", int_N (orElse (loc_endColumn location) (loc_column location)))].

Definition propertiesObject (diagnostic : Diagnostic) : JsonObject :=
  foldl (λ o item, obj_insert item.1 (toJsonValue item.2) o) []
    (map_items (diag_properties diagnostic)).

Definition optional_string (value : option string) : JsonValue :=
  match value with Some s => JString s | None => JNull end.

(** ** The human report *)

Definition humanDiagnostic (context : RenderContext) (diagnostic : Diagnostic) : string :=
  let location := diag_location diagnostic in
  let body := renderDiagnosticBody diagnostic in
  let body_size := String.length body in
  (if bool_decide (loc_function location ≠ "")
   then nl +:+ "Function: " +:+ loc_function location +:+ nl
   else nl +:+ "Location: " +:+ formatLocationHeader location context +:+ nl) +:+
  tab +:+ "severity: " +:+ severityUpper (diag_severity diagnostic) +:+ nl +:+
  tab +:+ "ruleId: " +:+ toString_rule (diag_ruleId diagnostic) +:+ nl +:+
  (match firstCweIdentifier diagnostic with
   | Some cwe => tab +:+ "cwe: " +:+ cwe +:+ nl | None => "" end) +:+
  (match propertyString diagnostic "symbol" with
   | Some symbol => tab +:+ "symbol: " +:+ symbol +:+ nl | None => "" end) +:+
  (if bool_decide (loc_line location ≠ 0%N)
   then tab +:+ "at line " +:+ pretty (loc_line location) +:+ ", column "
        +:+ pretty (loc_column location) +:+ nl
   else if bool_decide (effectiveFile location context ≠ "")
   then tab +:+ "at " +:+ effectiveFile location context +:+ " (line unavailable)" +:+ nl
   else tab +:+ "at source location unavailable" +:+ nl) +:+
  (if bool_decide (body_size ≠ 0) && bool_decide (String.get (body_size - 1) body = Some newline)
   then tab +:+ String.substring 0 (body_size - 1) body +:+ nl
   else tab +:+ body +:+ nl) +:+
  join_with "" ((λ related, tab +:+ "related: " +:+ rel_label related +:+ " -> "
                   +:+ formatDetailedLocation (rel_location related) context +:+ nl)
                <$> diag_relatedLocations diagnostic).

Definition humanNotice (notice : AnalysisNotice) : string :=
  nl +:+ "Notice: " +:+ notice_id notice +:+ nl +:+
  tab +:+ "ruleId: " +:+ toString_rule (notice_ruleId notice) +:+ nl +:+
  tab +:+ notice_message notice +:+ nl.

Definition renderHuman (report : DiagnosticReport) (context : RenderContext) : string :=
  "Mode: " +:+ ctx_mode context +:+ nl +:+
  join_with "" (humanDiagnostic context <$> rep_diagnostics report) +:+
  join_with "" (humanNotice <$> rep_notices report) +:+
  nl +:+ "Diagnostics summary: info=" +:+ pretty (sum_info (rep_summary report)) +:+
  ", warning=" +:+ pretty (sum_warning (rep_summary report)) +:+
  ", error=" +:+ pretty (sum_error (rep_summary report)) +:+ nl.

(** ** The JSON document *)

(** [None]: an empty optional is dereferenced. *)
Definition jsonFunction (context : RenderContext) (f : FunctionSummary) : option JsonValue :=
  let entry :=
    [("file", JString (if bool_decide (fs_file f = "") then ctx_inputFile context else fs_file f));
     ("name", JString (fs_name f));
     ("threadReachable", JBool (fs_threadReachable f));
     ("threadEntries", JArray (JString <$> fs_threadEntries f));
     ("hasDiagnostics", JBool (fs_hasDiagnostics f))] in
  match fs_sharedAccessCount f with
  | None => Some (JObject entry)
  | Some shared =>
      protected ← fs_protectedAccessCount f;
      write ← fs_writeAccessCount f;
      let entry := obj_set "sharedAccessCount" (int_nat shared) entry in
      let entry := obj_set "protectedAccessCount" (int_nat protected) entry in
      Some (JObject (obj_set "writeAccessCount" (int_nat write) entry))
  end.

Definition jsonDiagnostic (context : RenderContext) (diagnostic : Diagnostic) : JsonValue :=
  let details := obj_insert "message" (JString (diag_message diagnostic)) [] in
  let details := obj_insert "notes"
                   (JArray ((λ note, JString (note_text note)) <$> diag_notes diagnostic)) details in
  let details := obj_insert "properties" (JObject (propertiesObject diagnostic)) details in
  JObject
    [("id", JString (diag_id diagnostic));
     ("severity", JString (severityUpper (diag_severity diagnostic)));
     ("ruleId", JString (toString_rule (diag_ruleId diagnostic)));
     ("confidence", optional_string (confidenceUpper <$> diag_confidence diagnostic));
     ("cwe", optional_string (firstCweIdentifier diagnostic));
     ("location", JObject (toJsonLocation (diag_location diagnostic) context));
     ("relatedLocations",
       JArray ((λ related, JObject
                  [("label", JString (rel_label related));
                   ("location", JObject (toJsonLocation (rel_location related) context))])
               <$> diag_relatedLocations diagnostic));
     ("details", JObject details)].

Definition jsonNotice (notice : AnalysisNotice) : JsonValue :=
  JObject
    [("id", JString (notice_id notice));
     ("ruleId", JString (toString_rule (notice_ruleId notice)));
     ("message", JString (notice_message notice))].

Definition renderJsonValue (report : DiagnosticReport) (context : RenderContext)
  : option JsonValue :=
  functions ← mapM (jsonFunction context) (rep_functions report);
  let document :=
    [("meta", JObject
        [("tool", JString (ctx_toolName context));
         ("inputFile", JString (ctx_inputFile context));
         ("mode", JString (ctx_mode context));
         ("analysisTimeMs", JInt (ctx_analysisTimeMs context))]);
     ("functions", JArray functions);
     ("diagnostics", JArray (jsonDiagnostic context <$> rep_diagnostics report));
     ("diagnosticsSummary", JObject
        [("info", int_nat (sum_info (rep_summary report)));
         ("warning", int_nat (sum_warning (rep_summary report)));
         ("error", int_nat (sum_error (rep_summary report)))])] in
  Some (JObject
    (if bool_decide (rep_notices report ≠ [])
     then obj_set "notices" (JArray (jsonNotice <$> rep_notices report)) document else document)).

(** ** The SARIF document *)

(** The state the lambda [describeRule] captures: the rules emitted so far, as a
    set and as the array of their descriptions. *)
Record RuleTable := MkRuleTable {
  rt_emitted : list RuleId;
  rt_rules : list JsonValue;
}.

Definition sarifRule (ruleId : RuleId) (cwe : option string) : JsonValue :=
  let metadata := lookupRuleMetadata ruleId in
  let tags := [JString "concurrency"] ++
              match cwe with Some c => [JString c] | None => [] end in
  JObject
    [("id", JString (toString_rule (rm_ruleId metadata)));
     ("name", JString (toString_rule (rm_ruleId metadata)));
     ("shortDescription", JObject [("text", JString (rm_title metadata))]);
     ("fullDescription", JObject [("text", JString (rm_shortDescription metadata))]);
     ("defaultConfiguration",
       JObject [("level", JString (sarifLevel (rm_defaultSeverity metadata)))]);
     ("properties", JObject [("tags", JArray tags)])].

(** The lambda [describeRule] of [renderSarif]. *)
Definition sarifDescribeRule (table : RuleTable) (ruleId : RuleId) (cwe : option string)
  : RuleTable :=
  if bool_decide (ruleId ∈ rt_emitted table) then table
  else MkRuleTable (ruleId :: rt_emitted table) (rt_rules table ++ [sarifRule ruleId cwe]).

(** The array [rules] after both loops. *)
Definition sarifRules (report : DiagnosticReport) : list JsonValue :=
  let table := foldl (λ t d, sarifDescribeRule t (diag_ruleId d) (firstCweIdentifier d))
                 (MkRuleTable [] []) (rep_diagnostics report) in
  let table := foldl (λ t n, sarifDescribeRule t (notice_ruleId n)
                                (primaryCweIdentifier (notice_ruleId n)))
                 table (rep_notices report) in
  rt_rules table.

Definition sarifNotification (notice : AnalysisNotice) : JsonValue :=
  JObject
    [("descriptor", JObject [("id", JString (notice_id notice))]);
     ("associatedRule", JObject [("id", JString (toString_rule (notice_ruleId notice)))]);
     ("level", JString "warning");
     ("message", JObject [("text", JString (notice_message notice))])].

(** [described_notices] and [notification_descriptors]. *)
Definition describeNotice (state : gset string * list JsonValue) (notice : AnalysisNotice)
  : gset string * list JsonValue :=
  let '(described, descriptors) := state in
  if bool_decide (notice_id notice ∈ described) then state
  else ({[notice_id notice]} ∪ described,
        descriptors ++ [JObject [("id", JString (notice_id notice))]]).

Section render.
Context (md5_hex : string → string).
Context (relative : string → string → option string).
Context (generic_string : string → string).
Context (print_json : JsonValue → string).

(** [relative] is [None] when [std::filesystem::relative] sets the error code. *)
Definition sarifUri (location : SourceLocation) (context : RenderContext) : string :=
  let file := effectiveFile location context in
  if bool_decide (file = "") then ""
  else
    match (if bool_decide (ctx_sourceRoot context ≠ "")
           then relative file (ctx_sourceRoot context) else None) with
    | Some path => if bool_decide (path ≠ "") then generic_string path else generic_string file
    | None => generic_string file
    end.

Definition toSarifLocation (location : SourceLocation) (context : RenderContext) : JsonObject :=
  let artifact := [("uri", JString (sarifUri location context))] in
  let region :=
    if bool_decide (loc_line location ≠ 0%N) then
      obj_insert "endColumn" (int_N (orElse (loc_endColumn location) (loc_column location)))
       (obj_insert "endLine" (int_N (orElse (loc_endLine location) (loc_line location)))
         (obj_insert "startColumn" (int_N (loc_column location))
           (obj_insert "startLine" (int_N (loc_line location)) [])))
    else [] in
  let physical_location := [("artifactLocation", JObject artifact)] in
  let physical_location := if bool_decide (length region ≠ 0)
                           then obj_insert "region" (JObject region) physical_location
                           else physical_location in
  let location_object := [("physicalLocation", JObject physical_location)] in
  if bool_decide (loc_function location ≠ "")
  then obj_insert "logicalLocations"
         (JArray [JObject [("name", JString (loc_function location)); ("kind", JString "function")]])
         location_object
  else location_object.

(** The digest is fed the pieces one after the other: the digest of their
    concatenation. *)
Definition fingerprintFor (diagnostic : Diagnostic) (context : RenderContext) : string :=
  let symbol := default "" (propertyString diagnostic "symbol") in
  md5_hex (toString_rule (diag_ruleId diagnostic) +:+
           effectiveFile (diag_location diagnostic) context +:+
           pretty (loc_line (diag_location diagnostic)) +:+
           pretty (loc_column (diag_location diagnostic)) +:+ symbol).

Definition sarifRelated (context : RenderContext) (related : RelatedLocation) : JsonValue :=
  JObject (obj_insert "message" (JObject [("text", JString (rel_label related))])
             (toSarifLocation (rel_location related) context)).

Definition sarifResultProperties (diagnostic : Diagnostic) : JsonObject :=
  let result_properties :=
    match diag_confidence diagnostic with
    | Some c => obj_insert "confidence" (JString (confidenceUpper c)) []
    | None => []
    end in
  let diagnostic_properties := propertiesObject diagnostic in
  let result_properties :=
    if bool_decide (length diagnostic_properties ≠ 0)
    then obj_insert "coretraceDiagnosticProperties" (JObject diagnostic_properties) result_properties
    else result_properties in
  if bool_decide (diag_notes diagnostic ≠ [])
  then obj_insert "notes" (JArray ((λ note, JString (note_text note)) <$> diag_notes diagnostic))
         result_properties
  else result_properties.

Definition sarifResult (context : RenderContext) (diagnostic : Diagnostic) : JsonValue :=
  JObject
    [("ruleId", JString (toString_rule (diag_ruleId diagnostic)));
     ("level", JString (sarifLevel (diag_severity diagnostic)));
     ("message", JObject [("text", JString (diag_message diagnostic))]);
     ("locations", JArray [JObject (toSarifLocation (diag_location diagnostic) context)]);
     ("relatedLocations", JArray (sarifRelated context <$> diag_relatedLocations diagnostic));
     ("partialFingerprints",
       JObject [("primaryLocationLineHash", JString (fingerprintFor diagnostic context))]);
     ("properties", JObject (sarifResultProperties diagnostic))].

Definition sarifDocument (report : DiagnosticReport) (context : RenderContext) : JsonValue :=
  let driver := [("name", JString (ctx_toolName context)); ("rules", JArray (sarifRules report))] in
  let '(run, driver) :=
    if bool_decide (rep_notices report ≠ []) then
      let '(_, notification_descriptors) := foldl describeNotice (∅, []) (rep_notices report) in
      let invocation :=
        [("executionSuccessful", JBool true);
         ("toolExecutionNotifications", JArray (sarifNotification <$> rep_notices report))] in
      (obj_insert "invocations" (JArray [JObject invocation]) [],
       obj_insert "notifications" (JArray notification_descriptors) driver)
    else ([], driver) in
  let run := obj_insert "tool" (JObject [("driver", JObject driver)]) run in
  let run := obj_insert "results" (JArray (sarifResult context <$> rep_diagnostics report)) run in
  JObject
    [("version", JString "2.1.0");
     ("$schema", JString
        "https://schemastore.azurewebsites.net/schemas/json/sarif-2.1.0-rtm.5.json");
     ("runs", JArray [JObject run])].

Definition renderJson (report : DiagnosticReport) (context : RenderContext) : option string :=
  print_json <$> renderJsonValue report context.

Definition renderSarif (report : DiagnosticReport) (context : RenderContext) : string :=
  print_json (sarifDocument report context).

Definition renderReport (report : DiagnosticReport) (context : RenderContext)
    (format : OutputFormat) : option string :=
  match format with
  | OutputFormat_Human => Some (renderHuman report context)
  | OutputFormat_Json => renderJson report context
  | OutputFormat_Sarif => Some (renderSarif report context)
  end.
End render.
