(* ===== verification/RendererProps.v ===== *)
(** Theorems on the renderer: the JSON document reads back to the report it was
    made from, both documents are well formed, the SARIF document describes every
    rule it refers to once, and every finalized report renders. *)

From S2P Require Import Prelude Text Json Diagnostics Facts FactQueries ReportBuilder Renderer.

(** ** Reading a JSON document back *)

Definition rules_known : list RuleId := RuleId_CompilerDiagnostic :: enabledRules allAvailable.

(** The value whose name is [s]. *)
Definition named {A} (name : A → string) (values : list A) (s : string) : option A :=
  find (λ a, bool_decide (name a = s)) values.

Definition read_rule (s : string) : option RuleId := named toString_rule rules_known s.
Definition read_severity (s : string) : option Severity :=
  named severityUpper [Severity_Info; Severity_Warning; Severity_Error] s.
Definition read_confidence (s : string) : option ConfidenceLevel :=
  named confidenceUpper [Confidence_Low; Confidence_Medium; Confidence_High] s.

(** A member that may be [null]. *)
Definition read_optional {A} (read : string → option A) (v : JsonValue) : option (option A) :=
  match v with JNull => Some None | JString s => Some <$> read s | _ => None end.

Definition read_location (v : JsonValue) : option SourceLocation :=
  file ← string_field "file" v;
  function ← string_field "function" v;
  startLine ← N_field "startLine" v;
  startColumn ← N_field "startColumn" v;
  endLine ← N_field "endLine" v;
  endColumn ← N_field "endColumn" v;
  Some (MkSourceLocation file startLine startColumn endLine endColumn function).

Definition read_related (v : JsonValue) : option RelatedLocation :=
  label ← string_field "label" v;
  location ← field "location" v ≫= read_location;
  Some (MkRelatedLocation label location).

Definition read_property (v : JsonValue) : option DiagnosticPropertyValue :=
  match v with
  | JBool b => Some (PBool b)
  | JInt z => Some (PInt z)
  | JString s => Some (PString s)
  | JArray items => PStrings <$> mapM as_string items
  | _ => None
  end.

Definition read_properties (v : JsonValue) : option (gmap string DiagnosticPropertyValue) :=
  list_to_map <$> mapM (λ m, (m.1,.) <$> read_property m.2) (members v).

(** A finding as the document shows it, and its CWE identifier. *)
Definition read_diagnostic (v : JsonValue) : option (Diagnostic * option string) :=
  id ← string_field "id" v;
  severity ← string_field "severity" v ≫= read_severity;
  ruleId ← string_field "ruleId" v ≫= read_rule;
  confidence ← field "confidence" v ≫= read_optional read_confidence;
  cwe ← field "cwe" v ≫= read_optional Some;
  location ← field "location" v ≫= read_location;
  related ← list_field "relatedLocations" read_related v;
  details ← field "details" v;
  message ← string_field "message" details;
  notes ← list_field "notes" as_string details;
  properties ← field "properties" details ≫= read_properties;
  Some (MkDiagnostic id severity ruleId confidence [] location related message
          (MkNote <$> notes) properties, cwe).

Definition read_function (v : JsonValue) : option FunctionSummary :=
  file ← string_field "file" v;
  name ← string_field "name" v;
  reachable ← bool_field "threadReachable" v;
  entries ← list_field "threadEntries" as_string v;
  hasDiagnostics ← bool_field "hasDiagnostics" v;
  Some (MkFunctionSummary file name reachable entries (nat_field "sharedAccessCount" v)
          (nat_field "protectedAccessCount" v) (nat_field "writeAccessCount" v) hasDiagnostics).

Definition read_notice (v : JsonValue) : option AnalysisNotice :=
  id ← string_field "id" v;
  ruleId ← string_field "ruleId" v ≫= read_rule;
  message ← string_field "message" v;
  Some (MkNotice id ruleId message).

(** A report as a document shows it. *)
Record ShownReport := MkShownReport {
  shown_tool : string;
  shown_inputFile : string;
  shown_mode : string;
  shown_timeMs : Z;
  shown_functions : list FunctionSummary;
  shown_diagnostics : list (Diagnostic * option string);
  shown_summary : DiagnosticSummary;
  shown_notices : list AnalysisNotice;
}.

Definition read_report (v : JsonValue) : option ShownReport :=
  meta ← field "meta" v;
  tool ← string_field "tool" meta;
  inputFile ← string_field "inputFile" meta;
  mode ← string_field "mode" meta;
  time ← field "analysisTimeMs" meta ≫= as_int;
  functions ← list_field "functions" read_function v;
  diagnostics ← list_field "diagnostics" read_diagnostic v;
  summary ← field "diagnosticsSummary" v;
  info ← nat_field "info" summary;
  warning ← nat_field "warning" summary;
  error ← nat_field "error" summary;
  notices ← match field "notices" v with
            | None => Some []
            | Some l => as_items l ≫= mapM read_notice
            end;
  Some (MkShownReport tool inputFile mode time functions diagnostics
          (MkSummary info warning error) notices).

(** ** What the document keeps of a report *)

Definition shown_location (context : RenderContext) (l : SourceLocation) : SourceLocation :=
  MkSourceLocation (effectiveFile l context) (loc_line l) (loc_column l)
    (orElse (loc_endLine l) (loc_line l)) (orElse (loc_endColumn l) (loc_column l))
    (loc_function l).

Definition shown_diagnostic (context : RenderContext) (d : Diagnostic) : Diagnostic * option string :=
  (MkDiagnostic (diag_id d) (diag_severity d) (diag_ruleId d) (diag_confidence d) []
     (shown_location context (diag_location d))
     ((λ r, MkRelatedLocation (rel_label r) (shown_location context (rel_location r)))
      <$> diag_relatedLocations d)
     (diag_message d) (diag_notes d) (diag_properties d),
   firstCweIdentifier d).

Definition shown_function (context : RenderContext) (f : FunctionSummary) : FunctionSummary :=
  let file := if bool_decide (fs_file f = "") then ctx_inputFile context else fs_file f in
  match fs_sharedAccessCount f with
  | Some _ => with_file file f
  | None => with_counts None None None (with_file file f)
  end.

Definition shown (context : RenderContext) (report : DiagnosticReport) : ShownReport :=
  MkShownReport (ctx_toolName context) (ctx_inputFile context) (ctx_mode context)
    (ctx_analysisTimeMs context)
    (shown_function context <$> rep_functions report)
    (shown_diagnostic context <$> rep_diagnostics report)
    (rep_summary report) (rep_notices report).

(** The counts of a summary are taken together. *)
Definition counts_together (f : FunctionSummary) : Prop :=
  is_Some (fs_sharedAccessCount f) →
  is_Some (fs_protectedAccessCount f) ∧ is_Some (fs_writeAccessCount f).

(** ** Lemmas *)

Lemma mapM_read {A B C} (write : A → B) (read : B → option C) (g : A → C) l :
  (∀ x, read (write x) = Some (g x)) → mapM read (write <$> l) = Some (g <$> l).
Proof. intros H. apply mapM_Some_2, Forall2_fmap_2, Forall_Forall2_diag, Forall_true. done. Qed.

Lemma mapM_read_id {A B} (write : A → B) (read : B → option A) l :
  (∀ x, read (write x) = Some x) → mapM read (write <$> l) = Some l.
Proof. intros H. rewrite (mapM_read write read (λ x, x)) by done. by rewrite list_fmap_id. Qed.

Lemma read_rule_name r : read_rule (toString_rule r) = Some r.
Proof. by destruct r. Qed.
Lemma read_severity_name s : read_severity (severityUpper s) = Some s.
Proof. by destruct s. Qed.
Lemma read_confidence_name c : read_confidence (confidenceUpper c) = Some c.
Proof. by destruct c. Qed.

Lemma read_property_value p : read_property (toJsonValue p) = Some p.
Proof. destruct p as [| | |l]; simpl; [done..|]. by rewrite mapM_read_id. Qed.

Lemma obj_insert_fresh key v o : key ∉ o.*1 → obj_insert key v o = o ++ [(key, v)].
Proof. intros H. unfold obj_insert. by rewrite bool_decide_false. Qed.

Lemma obj_insert_all {A} (f : A → JsonValue) (items : list (string * A)) (o : JsonObject) :
  NoDup (o.*1 ++ items.*1) →
  foldl (λ o item, obj_insert item.1 (f item.2) o) o items
  = o ++ ((λ item, (item.1, f item.2)) <$> items).
Proof.
  revert o. induction items as [|[k a] items IH]; intros o Hnd; simpl; [by rewrite app_nil_r|].
  simpl in Hnd. assert (k ∉ o.*1) as Hk.
  { apply NoDup_app in Hnd as (_ & Hd & _). intros Hk. apply (Hd k Hk). left. }
  rewrite obj_insert_fresh, IH by (rewrite ?fmap_app; simpl; rewrite <-?app_assoc; done).
  by rewrite <-app_assoc.
Qed.

Lemma propertiesObject_items d :
  propertiesObject d = (λ item, (item.1, toJsonValue item.2)) <$> map_items (diag_properties d).
Proof. apply (obj_insert_all toJsonValue _ []). apply NoDup_map_items_fst. Qed.

Lemma list_to_map_items {A} (m : gmap string A) : list_to_map (map_items m) = m.
Proof.
  rewrite <-(list_to_map_to_list m) at 2. apply list_to_map_proper; [apply NoDup_map_items_fst|].
  apply merge_sort_Permutation.
Qed.

Lemma read_properties_object d : read_properties (JObject (propertiesObject d)) = Some (diag_properties d).
Proof.
  unfold read_properties. simpl. rewrite propertiesObject_items, mapM_read_id.
  - simpl. by rewrite list_to_map_items.
  - intros [k p]. simpl. by rewrite read_property_value.
Qed.

#[local] Arguments propertiesObject : simpl never.
#[local] Arguments read_properties : simpl never.

#[local] Arguments read_rule : simpl never.

Lemma read_diagnostic_object context d :
  read_diagnostic (jsonDiagnostic context d) = Some (shown_diagnostic context d).
Proof.
  unfold read_diagnostic, jsonDiagnostic, list_field, string_field, field. simpl.
  rewrite read_severity_name. simpl. rewrite read_rule_name. simpl.
  assert (read_optional read_confidence (optional_string (confidenceUpper <$> diag_confidence d))
          = Some (diag_confidence d)) as ->.
  { by destruct (diag_confidence d) as [[]|]. }
  assert (read_optional Some (optional_string (firstCweIdentifier d))
          = Some (firstCweIdentifier d)) as -> by (by destruct (firstCweIdentifier d)).
  simpl. rewrite !N2Z.id.
  rewrite (mapM_read _ read_related
    (λ r, MkRelatedLocation (rel_label r) (shown_location context (rel_location r)))).
  - simpl. rewrite (mapM_read _ as_string note_text) by done. simpl.
    rewrite read_properties_object. simpl. unfold shown_diagnostic. do 3 f_equal.
    rewrite <-list_fmap_compose. rewrite <-(list_fmap_id (diag_notes d)) at 2.
    apply list_fmap_ext. by intros _ [] _.
  - intros r. unfold read_related, string_field, field. simpl. by rewrite !N2Z.id.
Qed.

Lemma read_notice_object n : read_notice (jsonNotice n) = Some n.
Proof. destruct n. unfold read_notice, string_field, field. simpl. by rewrite read_rule_name. Qed.

Lemma jsonFunction_defined context f : is_Some (jsonFunction context f) ↔ counts_together f.
Proof.
  unfold jsonFunction, counts_together.
  destruct (fs_sharedAccessCount f), (fs_protectedAccessCount f), (fs_writeAccessCount f);
    simpl; split; intros H; try done; try (by eexists).
  all: first [by destruct (H ltac:(by eexists)) as [[? ?] [? ?]]|by destruct H|idtac].
  all: try (intros _; split; by eexists).
Qed.

Lemma read_function_object context f v :
  jsonFunction context f = Some v → read_function v = Some (shown_function context f).
Proof.
  unfold jsonFunction, shown_function.
  destruct f as [file name reach entries [shared|] protected write has]; simpl.
  - destruct protected as [protected|]; [|done]. destruct write as [write|]; [|done]. simpl.
    intros [= <-]. unfold read_function, list_field, string_field, bool_field, nat_field, field.
    simpl. rewrite mapM_read_id by done. simpl. by rewrite !Nat2Z.id.
  - intros [= <-]. unfold read_function, list_field, string_field, bool_field, nat_field, field.
    simpl. by rewrite mapM_read_id.
Qed.

Lemma jsonFunctions_defined context fs :
  Forall counts_together fs →
  ∃ vs, mapM (jsonFunction context) fs = Some vs ∧
        mapM read_function vs = Some (shown_function context <$> fs).
Proof.
  induction 1 as [|f fs Hf Hfs IH]; [by exists []|].
  apply jsonFunction_defined with context f in Hf as [v Hv]. destruct IH as (vs & Hvs & Hr).
  exists (v :: vs). split.
  - apply mapM_Some_2. constructor; [done|]. by apply mapM_Some_1.
  - apply mapM_Some_2. constructor; [by apply read_function_object|]. by apply mapM_Some_1.
Qed.

(** C25: The JSON document keeps the report: whenever the counts of each function
    summary were taken together the document is defined and reads back to every
    finding with its severity, rule, confidence, CWE identifier, locations, text,
    notes and properties, every function summary, the totals and the notices, with
    the input file standing for an unknown file and the start of a range for an
    unknown end. *)
Theorem json_report_roundtrip (report : DiagnosticReport) (context : RenderContext) :
  Forall counts_together (rep_functions report) →
  ∃ document, renderJsonValue report context = Some document ∧
              read_report document = Some (shown context report).
Proof.
  intros (vs & Hvs & Hr)%(jsonFunctions_defined context).
  unfold renderJsonValue. rewrite Hvs. cbn [mbind option_bind]. eexists. split; [done|].
  unfold read_report, list_field, string_field, nat_field, field, shown, int_nat. simpl.
  case_bool_decide as E; simpl; rewrite Hr; simpl;
    rewrite (mapM_read _ read_diagnostic (shown_diagnostic context))
      by (apply read_diagnostic_object);
    simpl; rewrite !Nat2Z.id; destruct (rep_summary report); simpl.
  - rewrite mapM_read_id by apply read_notice_object. done.
  - destruct (rep_notices report); done.
Qed.

(** ** Well-formed documents *)

(** No object at any depth has a repeated key. *)
Fixpoint wf_json (v : JsonValue) : bool :=
  match v with
  | JArray items => forallb wf_json items
  | JObject ms => bool_decide (NoDup ms.*1) && forallb (λ m, wf_json m.2) ms
  | _ => true
  end.

Definition wf_members (o : JsonObject) : Prop :=
  NoDup o.*1 ∧ Forall (λ m, wf_json m.2 = true) o.

Lemma wf_object o : wf_json (JObject o) = true ↔ wf_members o.
Proof.
  simpl. unfold wf_members. rewrite andb_true_iff, bool_decide_eq_true, forallb_elem, Forall_forall.
  done.
Qed.

Lemma wf_array l : wf_json (JArray l) = true ↔ Forall (λ v, wf_json v = true) l.
Proof. simpl. by rewrite forallb_elem, Forall_forall. Qed.

Lemma wf_array_map {A} (f : A → JsonValue) l :
  (∀ x, wf_json (f x) = true) → wf_json (JArray (f <$> l)) = true.
Proof. intros H. apply wf_array, Forall_fmap, Forall_true, H. Qed.

Lemma wf_insert key v o : wf_json v = true → wf_members o → wf_members (obj_insert key v o).
Proof.
  intros Hv [Hnd Ho]. unfold obj_insert. case_bool_decide as Hk; [done|]. split.
  - rewrite fmap_app. apply NoDup_app. split_and!; [done| |apply NoDup_singleton].
    intros x Hx ->%list_elem_of_singleton. done.
  - apply Forall_app. split; [done|]. by repeat constructor.
Qed.

Lemma obj_set_keys key v o x : x ∈ (obj_set key v o).*1 → x = key ∨ x ∈ o.*1.
Proof.
  induction o as [|[k w] o IH]; simpl.
  - intros ->%list_elem_of_singleton. by left.
  - case_bool_decide; rewrite !fmap_cons, !elem_of_cons; naive_solver.
Qed.

Lemma wf_set key v o : wf_json v = true → wf_members o → wf_members (obj_set key v o).
Proof.
  intros Hv [Hnd Ho]. induction Ho as [|[k w] o Hw Ho IH]; simpl.
  - split; simpl; [apply NoDup_singleton|by repeat constructor].
  - rewrite fmap_cons in Hnd. apply NoDup_cons in Hnd as [Hk Hnd]. simpl in Hk.
    case_bool_decide as E; [by split; [apply NoDup_cons|constructor]|].
    destruct (IH Hnd) as [IH1 IH2]. split; [|by constructor].
    rewrite fmap_cons. apply NoDup_cons. split; [|done]. simpl. intros [->|?]%obj_set_keys; done.
Qed.

Lemma wf_nil : wf_members [].
Proof. split; constructor. Qed.

Lemma wf_single key v : wf_json v = true → wf_members [(key, v)].
Proof. intros Hv. split; [apply NoDup_singleton|by repeat constructor]. Qed.

Lemma wf_when (b : bool) o o' : wf_members o → wf_members o' → wf_members (if b then o else o').
Proof. by destruct b. Qed.

Lemma wf_properties d : wf_members (propertiesObject d).
Proof.
  unfold propertiesObject. apply (foldl_inv wf_members); [apply wf_nil|].
  intros o [k p] _ Ho. apply wf_insert; [|done].
  destruct p; [done..|]. by apply wf_array_map.
Qed.

(** An object written out in the source: the keys are literals. *)
Ltac wf_literal :=
  apply wf_object; split; [apply (bool_decide_unpack _); vm_compute; exact I|
    repeat (apply Forall_cons; split; [|]); [..|apply Forall_nil]; simpl snd].

Create HintDb wf_json discriminated.
#[local] Hint Resolve wf_nil wf_single wf_insert wf_set wf_when wf_properties : wf_json.
#[local] Hint Extern 1 (wf_json (JArray (_ <$> _)) = true) => apply wf_array_map; intros ? : wf_json.
#[local] Hint Extern 1 (wf_json (JString _) = true) => reflexivity : wf_json.
#[local] Hint Extern 1 (wf_json (int_N _) = true) => reflexivity : wf_json.
#[local] Hint Extern 1 (wf_json (int_nat _) = true) => reflexivity : wf_json.
#[local] Hint Extern 2 (wf_json (JObject _) = true) => apply wf_object : wf_json.

Lemma wf_json_location context l : wf_json (JObject (toJsonLocation l context)) = true.
Proof. wf_literal; done. Qed.

Lemma wf_optional_string o : wf_json (optional_string o) = true.
Proof. by destruct o. Qed.

#[local] Hint Resolve wf_json_location wf_optional_string : wf_json.

Lemma wf_json_diagnostic context d : wf_json (jsonDiagnostic context d) = true.
Proof.
  unfold jsonDiagnostic. wf_literal; auto 8 with wf_json.
Qed.

Lemma wf_json_function context f v : jsonFunction context f = Some v → wf_json v = true.
Proof.
  assert (∀ a b c d e, wf_members
    [("file", JString a); ("name", JString b); ("threadReachable", JBool c);
     ("threadEntries", JArray (JString <$> d)); ("hasDiagnostics", JBool e)]) as H.
  { intros. apply wf_object. wf_literal; auto with wf_json. }
  unfold jsonFunction. destruct (fs_sharedAccessCount f); [|intros [= <-]; by apply wf_object].
  destruct (fs_protectedAccessCount f); [|done]. destruct (fs_writeAccessCount f); [|done].
  cbn [mbind option_bind]. intros E. apply (inj Some) in E as <-. auto 8 with wf_json.
Qed.

Lemma wf_json_notice n : wf_json (jsonNotice n) = true.
Proof. wf_literal; done. Qed.

Lemma wf_sarif_rule r cwe : wf_json (sarifRule r cwe) = true.
Proof. destruct r, cwe; reflexivity. Qed.

Lemma wf_sarif_notification n : wf_json (sarifNotification n) = true.
Proof. wf_literal; done. Qed.

Lemma sarifDescribeRule_wf t r cwe :
  wf_json (JArray (rt_rules t)) = true → wf_json (JArray (rt_rules (sarifDescribeRule t r cwe))) = true.
Proof.
  intros H. unfold sarifDescribeRule. case_bool_decide; [done|].
  apply wf_array in H. apply wf_array, Forall_app. split; [done|].
  apply Forall_singleton, wf_sarif_rule.
Qed.

Lemma wf_sarif_rules report : wf_json (JArray (sarifRules report)) = true.
Proof.
  unfold sarifRules. do 2 (apply (foldl_inv (λ t, wf_json (JArray (rt_rules t)) = true));
    [|intros; by apply sarifDescribeRule_wf]). done.
Qed.

Lemma wf_sarif_descriptors notices : wf_json (JArray (foldl describeNotice (∅, []) notices).2) = true.
Proof.
  apply (foldl_inv (λ t, wf_json (JArray t.2) = true)); [done|].
  intros [described ds] n _ H. unfold describeNotice. case_bool_decide; [done|].
  simpl in *. by rewrite forallb_app, H.
Qed.

#[local] Hint Resolve wf_json_diagnostic wf_json_notice wf_sarif_notification wf_sarif_rules : wf_json.

Section sarif.
Context (md5_hex : string → string) (relative : string → string → option string).
Context (generic_string : string → string).

Lemma wf_sarif_location l context : wf_members (toSarifLocation relative generic_string l context).
Proof.
  unfold toSarifLocation. auto 20 with wf_json.
Qed.

Lemma wf_sarif_result context d :
  wf_json (sarifResult md5_hex relative generic_string context d) = true.
Proof.
  unfold sarifResult. wf_literal; try done.
  - apply wf_array, Forall_singleton, wf_object, wf_sarif_location.
  - apply wf_array_map. intros r. apply wf_object, wf_insert; [done|apply wf_sarif_location].
  - apply wf_object. unfold sarifResultProperties.
    destruct (diag_confidence d); auto 12 with wf_json.
Qed.

Lemma wf_sarif_document report context :
  wf_json (sarifDocument md5_hex relative generic_string report context) = true.
Proof.
  assert (wf_json (JArray (sarifResult md5_hex relative generic_string context
                             <$> rep_diagnostics report)) = true) as Hres.
  { apply wf_array_map, wf_sarif_result. }
  assert (wf_members [("name", JString (ctx_toolName context)); ("rules", JArray (sarifRules report))])
    as Hdriver. { apply wf_object. wf_literal; auto with wf_json. }
  pose proof (wf_sarif_descriptors (rep_notices report)) as Hdesc.
  unfold sarifDocument. case_bool_decide.
  - destruct (foldl describeNotice _ _) as [described descriptors]. simpl in Hdesc.
    wf_literal; try done. apply wf_array, Forall_singleton, wf_object.
    apply wf_insert; [done|]. apply wf_insert.
    + apply wf_object, wf_single, wf_object. auto with wf_json.
    + apply wf_insert; [|apply wf_nil]. apply wf_array, Forall_singleton. wf_literal; auto with wf_json.
  - wf_literal; try done. apply wf_array, Forall_singleton, wf_object.
    apply wf_insert; [done|]. apply wf_insert; [|apply wf_nil].
    apply wf_object, wf_single, wf_object. done.
Qed.

End sarif.

(** ** The rules a SARIF document describes *)

Definition first_item (v : JsonValue) : option JsonValue := as_items v ≫= head.

Definition sarif_run (document : JsonValue) : option JsonValue := field "runs" document ≫= first_item.
Definition sarif_driver (document : JsonValue) : option JsonValue :=
  run ← sarif_run document; tool ← field "tool" run; field "driver" tool.
(** [tool.driver.rules[*].id]. *)
Definition sarif_described (document : JsonValue) : option (list string) :=
  sarif_driver document ≫= list_field "rules" (string_field "id").
(** [results[*].ruleId]. *)
Definition sarif_result_rules (document : JsonValue) : option (list string) :=
  sarif_run document ≫= list_field "results" (string_field "ruleId").
(** [tool.driver.notifications[*].id]. *)
Definition sarif_notice_ids (document : JsonValue) : option (list string) :=
  sarif_driver document ≫= list_field "notifications" (string_field "id").
Definition nested_id (key : string) (v : JsonValue) : option string :=
  field key v ≫= string_field "id".
(** The rule and the descriptor of each notification of the run. *)
Definition sarif_notifications (key : string) (document : JsonValue) : option (list string) :=
  run ← sarif_run document;
  invocation ← field "invocations" run ≫= first_item;
  list_field "toolExecutionNotifications" (nested_id key) invocation.

(** The rules a report mentions. *)
Definition mentioned_rules (report : DiagnosticReport) : list RuleId :=
  (diag_ruleId <$> rep_diagnostics report) ++ (notice_ruleId <$> rep_notices report).

(** The array lists the rules of the set, each once, oldest first. *)
Definition table_ok (t : RuleTable) : Prop :=
  NoDup (rt_emitted t) ∧
  mapM (string_field "id") (rt_rules t) = Some (toString_rule <$> reverse (rt_emitted t)).

Lemma sarifRule_id r cwe : string_field "id" (sarifRule r cwe) = Some (toString_rule r).
Proof. by destruct r. Qed.

Lemma sarifDescribeRule_ok t r cwe : table_ok t → table_ok (sarifDescribeRule t r cwe).
Proof.
  intros [Hnd Hids]. unfold sarifDescribeRule. case_bool_decide as Hr; [done|].
  split; [by apply NoDup_cons|]. cbn [rt_rules rt_emitted]. rewrite reverse_cons, fmap_app.
  apply mapM_Some_2, Forall2_app; [by apply mapM_Some_1|].
  constructor; [apply sarifRule_id|constructor].
Qed.

Lemma describe_all {A} (rule : A → RuleId) (cwe : A → option string) (l : list A) t :
  table_ok t →
  let t' := foldl (λ t x, sarifDescribeRule t (rule x) (cwe x)) t l in
  table_ok t' ∧ ∀ r, r ∈ rt_emitted t' ↔ r ∈ rt_emitted t ∨ r ∈ rule <$> l.
Proof.
  revert t. induction l as [|x l IH]; intros t Ht t'.
  - split; [done|]. intros r. rewrite fmap_nil, elem_of_nil. naive_solver.
  - destruct (IH _ (sarifDescribeRule_ok t (rule x) (cwe x) Ht)) as [Hok Hin].
    split; [done|]. intros r. unfold t'. cbn [foldl]. rewrite Hin, fmap_cons, elem_of_cons. unfold sarifDescribeRule.
    case_bool_decide; cbn [rt_emitted]; [|rewrite elem_of_cons]; naive_solver.
Qed.

Lemma sarifRules_ids report :
  ∃ rules, mapM (string_field "id") (sarifRules report) = Some (toString_rule <$> rules) ∧
    NoDup rules ∧ ∀ r, r ∈ rules ↔ r ∈ mentioned_rules report.
Proof.
  assert (table_ok (MkRuleTable [] [])) as H0 by (split; [constructor|done]).
  unfold sarifRules, mentioned_rules.
  destruct (describe_all diag_ruleId firstCweIdentifier (rep_diagnostics report) _ H0) as [H1 Hin1].
  destruct (describe_all notice_ruleId (λ n, primaryCweIdentifier (notice_ruleId n))
              (rep_notices report) _ H1) as [[Hnd Hids] Hin2].
  eexists. split; [exact Hids|]. split; [by rewrite reverse_Permutation|].
  intros r. rewrite elem_of_reverse, Hin2, Hin1, elem_of_app. simpl. rewrite elem_of_nil. naive_solver.
Qed.

Lemma describeNotice_ids notices :
  let '(described, descriptors) := foldl describeNotice (∅, []) notices in
  ∃ ids, mapM (string_field "id") descriptors = Some ids ∧ NoDup ids ∧
    described = list_to_set ids ∧ ∀ id, id ∈ ids ↔ id ∈ notice_id <$> notices.
Proof.
  induction notices as [|n notices IH] using rev_ind.
  - simpl. exists []. by repeat constructor.
  - rewrite foldl_snoc. destruct (foldl _ _ _) as [described descriptors].
    destruct IH as (ids & Hm & Hnd & -> & Hin). unfold describeNotice.
    case_bool_decide as Hn; rewrite elem_of_list_to_set in Hn.
    + exists ids. split_and!; [done..|]. intros id. rewrite fmap_app, elem_of_app, <-Hin.
      simpl. rewrite list_elem_of_singleton. naive_solver.
    + exists (ids ++ [notice_id n]). split_and!.
      * apply mapM_Some_2, Forall2_app; [by apply mapM_Some_1|by repeat constructor].
      * apply NoDup_app. split_and!; [done| |apply NoDup_singleton].
        intros x Hx ->%list_elem_of_singleton. done.
      * rewrite list_to_set_app_L. set_solver.
      * intros id. rewrite fmap_app, !elem_of_app, Hin. done.
Qed.

Section sarif_rules.
Context (md5_hex : string → string) (relative : string → string → option string).
Context (generic_string : string → string).

(** A SARIF document describes what it refers to.  The rules of the driver are
    exactly those of the findings and notices of the report, each described once;
    the results follow the findings one for one; with notices, the notification
    descriptors are exactly their ids, each once, and every notification names its
    descriptor and rule. *)
Theorem sarif_describes_each_rule_once (report : DiagnosticReport) (context : RenderContext) :
  let document := sarifDocument md5_hex relative generic_string report context in
  (∃ rules, sarif_described document = Some (toString_rule <$> rules) ∧ NoDup rules ∧
     ∀ r, r ∈ rules ↔ r ∈ mentioned_rules report) ∧
  sarif_result_rules document
    = Some ((λ d, toString_rule (diag_ruleId d)) <$> rep_diagnostics report) ∧
  (rep_notices report ≠ [] →
   (∃ ids, sarif_notice_ids document = Some ids ∧ NoDup ids ∧
      ∀ id, id ∈ ids ↔ id ∈ notice_id <$> rep_notices report) ∧
   sarif_notifications "descriptor" document = Some (notice_id <$> rep_notices report) ∧
   sarif_notifications "associatedRule" document
     = Some ((λ n, toString_rule (notice_ruleId n)) <$> rep_notices report)).
Proof.
  intros document. destruct (sarifRules_ids report) as (rules & Hrules & Hnd & Hin).
  pose proof (describeNotice_ids (rep_notices report)) as Hnotices.
  unfold document, sarifDocument, sarif_described, sarif_result_rules, sarif_notice_ids,
    sarif_notifications, sarif_driver, sarif_run, list_field, field.
  destruct (foldl describeNotice _ _) as [described descriptors].
  destruct Hnotices as (ids & Hids & Hidnd & _ & Hidin).
  case_bool_decide as Hn; simpl; split_and!; eauto.
  - by apply mapM_read.
  - intros _. split_and!; [eauto|by apply mapM_read..].
  - by apply mapM_read.
  - intros ?. done.
Qed.
End sarif_rules.

(** ** Every finalized report renders *)

(** No function has its accesses counted. *)
Definition uncounted (m : Functions) : Prop :=
  ∀ k, fs_sharedAccessCount (functionAt k m) = None.

Lemma uncounted_insert k s m :
  uncounted m → fs_sharedAccessCount s = None → uncounted (<[k := s]> m).
Proof. intros Hm Hs k'. rewrite functionAt_insert. by case_decide. Qed.

Lemma uncounted_markFunction l m : uncounted m → uncounted (markFunction l m).
Proof.
  intros Hm. unfold markFunction. apply uncounted_insert; [done|]. simpl.
  repeat case_bool_decide; simpl; apply Hm.
Qed.

Lemma uncounted_lookup m k s : uncounted m → m !! k = Some s → fs_sharedAccessCount s = None.
Proof. intros Hm Hk. specialize (Hm k). unfold functionAt in Hm. by rewrite Hk in Hm. Qed.

Lemma collectFunctions_uncounted facts ds :
  accesses facts = [] → uncounted (collectFunctions facts ds false).
Proof.
  intros Hacc. unfold collectFunctions. rewrite Hacc. simpl.
  apply (foldl_inv uncounted); [apply (foldl_inv uncounted); [apply (foldl_inv uncounted)|]|].
  - intros k. unfold functionAt. by rewrite lookup_empty.
  - intros m o _ Hm k. by rewrite (noteLockOrder_reads fs_sharedAccessCount).
  - intros m [k entries] _ Hm. unfold noteReachable. apply uncounted_insert; [done|]. simpl.
    rewrite (ensureSummary_reads fs_sharedAccessCount) by done. apply Hm.
  - intros m d _ Hm. unfold markDiagnosticFunctions. apply (foldl_inv uncounted).
    + case_bool_decide; [by apply uncounted_markFunction|done].
    + intros m' r _ Hm'. case_bool_decide; [done|by apply uncounted_markFunction].
Qed.

Lemma fillCounts_together s : counts_together (fillCounts s).
Proof. intros _. split; by eexists. Qed.

Section finalized.
Context `{!StdSort}.
Context (md5_hex : string → string) (relative : string → string → option string).
Context (generic_string : string → string) (print_json : JsonValue → string).

Lemma finalizeReport_counts_together report facts computed :
  computed = true ∨ accesses facts = [] →
  Forall counts_together (rep_functions (finalizeReport report facts computed)).
Proof.
  intros Hc. unfold finalizeReport, buildFunctionSummaries. simpl.
  rewrite std_sort_perm by apply _. apply Forall_fmap, Forall_forall. intros [k s] Hks.
  apply elem_of_map_items in Hks. simpl. destruct computed.
  - unfold collectFunctions in Hks. rewrite lookup_fmap in Hks.
    apply fmap_Some in Hks as (s' & _ & ->). apply fillCounts_together.
  - destruct Hc as [|Hacc]; [done|].
    intros [n Hn]. by rewrite (uncounted_lookup _ _ _ (collectFunctions_uncounted _ _ Hacc) Hks) in Hn.
Qed.

(** Every report the analysis finalizes renders in every format without
    dereferencing an absent count, when the accesses were computed or there are
    none: the two cases the fact selection leaves. *)
Theorem finalized_report_renders (report : DiagnosticReport) (facts : TUFacts) (computed : bool)
    (context : RenderContext) (format : OutputFormat) :
  computed = true ∨ accesses facts = [] →
  is_Some (renderReport md5_hex relative generic_string print_json
             (finalizeReport report facts computed) context format).
Proof.
  intros (vs & Hvs & _)%(finalizeReport_counts_together report)%(jsonFunctions_defined context).
  destruct format; simpl; [by eexists| |by eexists].
  unfold renderJson, renderJsonValue. rewrite Hvs. by eexists.
Qed.
End finalized.

(** The fingerprint of a finding does not determine its place: line and column
    are hashed one after the other with nothing between them, so for every digest
    two findings of one rule and file at 1:12 and 11:2 share their fingerprint. *)
Theorem fingerprint_merges_places (md5_hex : string → string) (context : RenderContext) (d : Diagnostic) :
  let file := loc_file (diag_location d) in
  fingerprintFor md5_hex (primaryLocation (MkSourceLocation file 1 12 1 12 "") d) context
  = fingerprintFor md5_hex (primaryLocation (MkSourceLocation file 11 2 11 2 "") d) context.
Proof. reflexivity. Qed.

(** One finding with every optional part, and a counted function. *)
Definition sample_report : DiagnosticReport :=
  let d := DiagnosticBuilder RuleId_DataRaceGlobal
    |> primaryLocation (MkSourceLocation "" 4 2 0 0 "worker")
    |> confidence Confidence_High
    |> message "race on counter"
    |> note "first access is a write"
    |> relatedLocation "other access" (MkSourceLocation "b.c" 9 1 9 7 "main")
    |> property "symbol" (PString "counter")
    |> property "threadEntries" (PStrings ["worker"; "main"]) in
  MkReport [MkFunctionSummary "" "worker" true ["worker"] (Some 1) (Some 0) (Some 1) true] [d]
    (MkSummary 0 0 1) [MkNotice "search-limit" RuleId_DeadlockLockOrder "limit reached"].

Definition sample_context : RenderContext := MkRenderContext "coretrace" "a.c" "single" 12 "/src".

Lemma json_report_roundtrip_witness :
  ∃ document, renderJsonValue sample_report sample_context = Some document ∧
              read_report document = Some (shown sample_context sample_report).
Proof.
  apply (json_report_roundtrip sample_report sample_context).
  repeat constructor; by eexists.
Defined.

Lemma finalized_report_renders_witness :
  is_Some (renderReport (λ s, s) (λ _ _, None) (λ s, s) (λ _, "")
    (@finalizeReport merge_std_sort empty_report no_facts true) sample_context OutputFormat_Json).
Proof.
  apply (@finalized_report_renders merge_std_sort (λ s, s) (λ _ _, None) (λ s, s) (λ _, "")
    empty_report no_facts true sample_context OutputFormat_Json). by left.
Defined.
