(* ===== verification/CommandBuilder.v ===== *)
(** The compile command builder (src/internal/compile_command_builder.cpp): from
    the arguments of a request to the ones that emit LLVM IR.

    Two helpers compact the vector of arguments in place with a read and a write
    index, moving strings down.  The loops are modelled on the vector itself; a
    string that was moved from holds an unspecified text, the parameter
    [moved_from].  The theorems hold for every such text: no slot is read again. *)

From S2P Require Import Prelude Text.

Inductive IRFormat := IRFormat_LL | IRFormat_BC.
#[global] Instance IRFormat_eq_dec : EqDecision IRFormat.
Proof. solve_decision. Defined.

Record CompileRequest := MkCompileRequest {
  req_inputFile : string;
  req_extraCompileArgs : list string;
  req_format : IRFormat;
  req_instrument : bool;
}.

(** ** Operations *)

Definition hasExactToken (args : list string) (token : string) : bool := bool_decide (token ∈ args).

Definition appendIfMissing (args : list string) (flag : string) : list string :=
  if negb (hasExactToken args flag) then args ++ [flag] else args.

Section build.
Context (moved_from : string).

(** [args[target] = std::move(args[source])]. *)
Definition move_down (args : list string) (target source : nat) : list string :=
  match args !! source with
  | Some arg => <[source := moved_from]> (<[target := arg]> args)
  | None => args
  end.

(** The loop of [removeOutputPathArgs]; [None] when the fuel runs out. *)
Fixpoint removeOutputLoop (fuel : nat) (args : list string) (readIndex writeIndex : nat)
  : option (list string) :=
  match fuel with
  | 0 => None
  | S fuel =>
      match args !! readIndex with
      | None => Some (take writeIndex args)
      | Some arg =>
          if bool_decide (arg = "-o") then
            removeOutputLoop fuel args
              (if readIndex + 1 <? length args then readIndex + 2 else readIndex + 1) writeIndex
          else if starts_with arg "-o=" then removeOutputLoop fuel args (readIndex + 1) writeIndex
          else if (2 <? String.length arg) && starts_with arg "-o"
          then removeOutputLoop fuel args (readIndex + 1) writeIndex
          else
            let args := if bool_decide (writeIndex ≠ readIndex)
                        then move_down args writeIndex readIndex else args in
            removeOutputLoop fuel args (readIndex + 1) (writeIndex + 1)
      end
  end.

Definition removeOutputPathArgs (args : list string) : option (list string) :=
  removeOutputLoop (S (length args)) args 0 0.

Definition forceUnoptimizedCodegen (args : list string) : list string := args ++ ["-O0"].

Definition turnsWarningsIntoErrors (arg : string) : bool :=
  starts_with arg "-Werror" || bool_decide (arg = "-pedantic-errors").

(** The inner loop: [width] strings are moved down to [writeIndex]. *)
Fixpoint moveArguments (width offset readIndex writeIndex : nat) (args : list string)
  : list string * nat :=
  match width with
  | 0 => (args, writeIndex)
  | S width =>
      let args := if bool_decide (writeIndex ≠ readIndex + offset)
                  then move_down args writeIndex (readIndex + offset) else args in
      moveArguments width (offset + 1) readIndex (writeIndex + 1) args
  end.

Fixpoint removeWarningsLoop (fuel : nat) (args : list string) (readIndex writeIndex : nat)
  : option (list string) :=
  match fuel with
  | 0 => None
  | S fuel =>
      match args !! readIndex with
      | None => Some (take writeIndex args)
      | Some arg =>
          let handsOn := bool_decide (arg = "-Xclang") && (readIndex + 1 <? length args) in
          let width := if handsOn then 2 else 1 in
          examined ← args !! (readIndex + width - 1);
          let '(args, writeIndex) :=
            if negb (turnsWarningsIntoErrors examined)
            then moveArguments width 0 readIndex writeIndex args else (args, writeIndex) in
          removeWarningsLoop fuel args (readIndex + width) writeIndex
      end
  end.

Definition removeWarningsAsErrors (args : list string) : option (list string) :=
  removeWarningsLoop (S (length args)) args 0 0.

Definition buildLL (request : CompileRequest) : option (list string) :=
  let args := forceUnoptimizedCodegen (req_extraCompileArgs request) in
  args ← removeWarningsAsErrors args;
  args ← removeOutputPathArgs args;
  let args := appendIfMissing args "-emit-llvm" in
  let args := appendIfMissing args "-S" in
  let args := appendIfMissing args "-g" in
  Some (if negb (hasExactToken args (req_inputFile request))
        then args ++ [req_inputFile request] else args).

Definition buildBC (request : CompileRequest) : option (list string) :=
  let args := forceUnoptimizedCodegen (req_extraCompileArgs request) in
  args ← removeWarningsAsErrors args;
  let args := filter (λ arg, arg ≠ "-S") args in
  args ← removeOutputPathArgs args;
  let args := appendIfMissing args "-emit-llvm" in
  let args := appendIfMissing args "-c" in
  let args := appendIfMissing args "-g" in
  Some (if negb (hasExactToken args (req_inputFile request))
        then args ++ [req_inputFile request] else args).
End build.

(** ** The reference definitions

    What the compactions compute, on lists. *)

Definition isOutputPath (arg : string) : bool :=
  starts_with arg "-o=" || ((2 <? String.length arg) && starts_with arg "-o").

Fixpoint dropOutput (args : list string) : list string :=
  match args with
  | [] => []
  | arg :: rest =>
      if bool_decide (arg = "-o") then match rest with [] => [] | _ :: rest' => dropOutput rest' end
      else if isOutputPath arg then dropOutput rest else arg :: dropOutput rest
  end.

Fixpoint dropWarnings (args : list string) : list string :=
  match args with
  | [] => []
  | arg :: rest =>
      match rest with
      | value :: rest' =>
          if bool_decide (arg = "-Xclang")
          then if turnsWarningsIntoErrors value then dropWarnings rest'
               else arg :: value :: dropWarnings rest'
          else if turnsWarningsIntoErrors arg then dropWarnings rest else arg :: dropWarnings rest
      | [] => if turnsWarningsIntoErrors arg then [] else [arg]
      end
  end.

(** ** The compactions *)

(** The vector during a compaction: what was kept, the slots given up, and what
    is still to be read. *)
Lemma lookup_read {A} (kept junk : list A) x rest :
  (kept ++ junk ++ x :: rest) !! (length kept + length junk) = Some x.
Proof. rewrite app_assoc, <-length_app. apply list_lookup_middle. done. Qed.

Lemma lookup_read_end {A} (kept junk : list A) : (kept ++ junk ++ []) !! (length kept + length junk) = None.
Proof. apply lookup_ge_None. rewrite !length_app. simpl. lia. Qed.

Lemma move_down_compacts moved (kept junk : list string) x rest :
  ∃ junk', length junk' = length junk ∧
    (if bool_decide (length kept ≠ length kept + length junk)
     then move_down moved (kept ++ junk ++ x :: rest) (length kept) (length kept + length junk)
     else kept ++ junk ++ x :: rest) = (kept ++ [x]) ++ junk' ++ rest.
Proof.
  destruct junk as [|j junk].
  - exists []. split; [done|]. rewrite Nat.add_0_r, bool_decide_false by (intros H; by apply H).
    by rewrite <-app_assoc.
  - exists (junk ++ [moved]). split; [rewrite length_app; simpl; lia|].
    rewrite bool_decide_true by (simpl; lia). unfold move_down. rewrite lookup_read.
    rewrite <-(Nat.add_0_r (length kept)) at 2. rewrite insert_app_r. simpl.
    rewrite insert_app_r_alt by (simpl; lia).
    replace (length kept + S (length junk) - length kept) with (S (length junk)) by lia. simpl.
    rewrite <-(Nat.add_0_r (length junk)), insert_app_r. simpl. by rewrite <-!app_assoc.
Qed.

(** A slot given up, or skipped, joins the junk. *)
Lemma skip_slot {A} (kept junk : list A) x rest :
  kept ++ junk ++ x :: rest = kept ++ (junk ++ [x]) ++ rest.
Proof. by rewrite <-!app_assoc. Qed.

Lemma removeOutputLoop_spec moved fuel kept junk rest :
  length rest < fuel →
  removeOutputLoop moved fuel (kept ++ junk ++ rest) (length kept + length junk) (length kept)
  = Some (kept ++ dropOutput rest).
Proof.
  revert fuel kept junk. induction rest as [|arg rest IH Hpair] using list_pair_ind;
    intros [|fuel] kept junk Hf; simpl in Hf; try lia.
  - simpl removeOutputLoop. rewrite lookup_read_end. f_equal. simpl dropOutput.
    by rewrite take_app_length, app_nil_r.
  - cbn [removeOutputLoop]. rewrite lookup_read. cbn [dropOutput]. unfold isOutputPath.
    case_bool_decide as Eo.
    + destruct rest as [|value rest].
      * rewrite (proj2 (Nat.ltb_ge _ _)) by (rewrite !length_app; simpl; lia).
        rewrite skip_slot. replace (length kept + length junk + 1) with
          (length kept + length (junk ++ [arg])) by (rewrite length_app; simpl; lia).
        rewrite IH by (simpl; lia). done.
      * rewrite (proj2 (Nat.ltb_lt _ _)) by (rewrite !length_app; simpl; lia).
        rewrite !skip_slot. replace (length kept + length junk + 2) with
          (length kept + length ((junk ++ [arg]) ++ [value])) by (rewrite !length_app; simpl; lia).
        apply (Hpair value rest eq_refl). simpl in Hf. lia.
    + assert (∀ b : bool, (if b then removeOutputLoop moved fuel (kept ++ junk ++ arg :: rest)
                 (length kept + length junk + 1) (length kept) else None)
               = if b then Some (kept ++ dropOutput rest) else None) as Hskip.
      { intros []; [|done]. rewrite skip_slot, <-Nat.add_assoc.
        replace (length junk + 1) with (length (junk ++ [arg])) by (rewrite length_app; done).
        apply IH. lia. }
      destruct (starts_with arg "-o="); [apply (Hskip true)|].
      destruct ((2 <? String.length arg) && starts_with arg "-o"); [apply (Hskip true)|].
      destruct (move_down_compacts moved kept junk arg rest) as (junk' & Hlen & ->).
      replace (length kept + length junk + 1) with (length (kept ++ [arg]) + length junk')
        by (rewrite length_app; simpl; lia).
      replace (length kept + 1) with (length (kept ++ [arg])) by (rewrite length_app; done).
      rewrite IH by lia. by rewrite <-app_assoc.
Qed.

Lemma removeOutputPathArgs_spec moved args : removeOutputPathArgs moved args = Some (dropOutput args).
Proof. apply (removeOutputLoop_spec moved _ [] []). lia. Qed.

Lemma moveArguments_spec moved xs offset readIndex kept junk rest :
  readIndex + offset = length kept + length junk →
  ∃ junk', length junk' = length junk ∧
    moveArguments moved (length xs) offset readIndex (length kept) (kept ++ junk ++ xs ++ rest)
    = ((kept ++ xs) ++ junk' ++ rest, length (kept ++ xs)).
Proof.
  revert offset kept junk. induction xs as [|x xs IH]; intros offset kept junk Hr; simpl.
  - exists junk. by rewrite app_nil_r.
  - rewrite Hr. destruct (move_down_compacts moved kept junk x (xs ++ rest)) as (junk1 & Hlen & ->).
    replace (length kept + 1) with (length (kept ++ [x])) by (rewrite length_app; done).
    destruct (IH (offset + 1) (kept ++ [x]) junk1) as (junk' & Hlen' & ->).
    { rewrite length_app. simpl. lia. }
    exists junk'. split; [lia|]. by rewrite <-!(app_assoc kept [x]).
Qed.

(** One round of the loop over [xs], the argument or the pair it examines. *)
Lemma warnings_round moved (b : bool) fuel xs kept junk rest result :
  (∀ kept junk, removeWarningsLoop moved fuel (kept ++ junk ++ rest)
                  (length kept + length junk) (length kept) = Some (kept ++ result)) →
  (let '(args, writeIndex) :=
     if negb b
     then moveArguments moved (length xs) 0 (length kept + length junk) (length kept)
            (kept ++ junk ++ xs ++ rest)
     else (kept ++ junk ++ xs ++ rest, length kept) in
   removeWarningsLoop moved fuel args (length kept + length junk + length xs) writeIndex)
  = Some (kept ++ (if b then result else xs ++ result)).
Proof.
  intros H. destruct b; simpl.
  - rewrite (app_assoc junk), <-Nat.add_assoc, <-length_app. apply H.
  - destruct (moveArguments_spec moved xs 0 (length kept + length junk) kept junk rest)
      as (junk' & Hlen & ->); [lia|].
    replace (length kept + length junk + length xs) with (length (kept ++ xs) + length junk')
      by (rewrite length_app; lia).
    rewrite H. by rewrite <-app_assoc.
Qed.

Lemma removeWarningsLoop_spec moved fuel kept junk rest :
  length rest < fuel →
  removeWarningsLoop moved fuel (kept ++ junk ++ rest) (length kept + length junk) (length kept)
  = Some (kept ++ dropWarnings rest).
Proof.
  revert fuel kept junk. induction rest as [|arg rest IH Hpair] using list_pair_ind;
    intros [|fuel] kept junk Hf; simpl in Hf; try lia.
  - simpl removeWarningsLoop. rewrite lookup_read_end. f_equal. simpl dropWarnings.
    by rewrite take_app_length, app_nil_r.
  - assert (∀ b : bool, b = turnsWarningsIntoErrors arg →
      (let '(args, writeIndex) :=
         if negb b then moveArguments moved 1 0 (length kept + length junk) (length kept)
                          (kept ++ junk ++ arg :: rest)
         else (kept ++ junk ++ arg :: rest, length kept) in
       removeWarningsLoop moved fuel args (length kept + length junk + 1) writeIndex)
      = Some (kept ++ if b then dropWarnings rest else arg :: dropWarnings rest)) as Hone.
    { intros b _. apply (warnings_round moved b fuel [arg]). intros. apply IH. lia. }
    cbn [removeWarningsLoop]. rewrite lookup_read. destruct rest as [|value rest].
    + rewrite (proj2 (Nat.ltb_ge _ _)) by (rewrite !length_app; simpl; lia).
      rewrite andb_false_r. replace (length kept + length junk + 1 - 1) with
        (length kept + length junk) by lia. rewrite lookup_read. cbn [mbind option_bind].
      rewrite (Hone _ eq_refl). simpl. by case_match.
    + rewrite (proj2 (Nat.ltb_lt _ _)) by (rewrite !length_app; simpl; lia).
      rewrite andb_true_r. cbn [dropWarnings]. case_bool_decide as E.
      * replace (length kept + length junk + 2 - 1) with
          (length kept + length (junk ++ [arg])) by (rewrite length_app; simpl; lia).
        rewrite skip_slot, lookup_read, <-skip_slot. cbn [mbind option_bind].
        rewrite (warnings_round moved _ fuel [arg; value] kept junk rest (dropWarnings rest)).
        { simpl. by case_match. }
        intros. apply (Hpair value rest eq_refl). simpl in Hf. lia.
      * replace (length kept + length junk + 1 - 1) with (length kept + length junk) by lia.
        rewrite lookup_read. cbn [mbind option_bind]. rewrite (Hone _ eq_refl). by case_match.
Qed.

Lemma removeWarningsAsErrors_spec moved args :
  removeWarningsAsErrors moved args = Some (dropWarnings args).
Proof. apply (removeWarningsLoop_spec moved _ [] []). lia. Qed.

Lemma dropOutput_sublist args : dropOutput args `sublist_of` args.
Proof.
  induction args as [|arg rest IH Hpair] using list_pair_ind; simpl; [constructor|].
  case_bool_decide.
  - destruct rest as [|value rest]; [by repeat constructor|].
    do 2 apply sublist_cons. by apply (Hpair value).
  - case_match; by constructor.
Qed.

Lemma dropWarnings_sublist args : dropWarnings args `sublist_of` args.
Proof.
  induction args as [|arg rest IH Hpair] using list_pair_ind; simpl; [constructor|].
  destruct rest as [|value rest].
  - case_match; by repeat constructor.
  - specialize (Hpair value rest eq_refl). case_bool_decide.
    + case_match; repeat constructor; done.
    + case_match; by constructor.
Qed.

Lemma dropOutput_clean args arg :
  arg ∈ dropOutput args → arg ≠ "-o" ∧ isOutputPath arg = false.
Proof.
  induction args as [|a rest IH Hpair] using list_pair_ind; simpl; [by rewrite elem_of_nil|].
  case_bool_decide.
  - destruct rest as [|value rest]; [by rewrite elem_of_nil|]. by apply (Hpair value).
  - destruct (isOutputPath a) eqn:E; [done|]. rewrite elem_of_cons. intros [->|?]; auto.
Qed.

Lemma dropWarnings_clean args arg : arg ∈ dropWarnings args → turnsWarningsIntoErrors arg = false.
Proof.
  induction args as [|a rest IH Hpair] using list_pair_ind; simpl; [by rewrite elem_of_nil|].
  destruct rest as [|value rest].
  - destruct (turnsWarningsIntoErrors a) eqn:E; [by rewrite elem_of_nil|].
    by rewrite list_elem_of_singleton; intros ->.
  - specialize (Hpair value rest eq_refl). case_bool_decide as Ea.
    + destruct (turnsWarningsIntoErrors value) eqn:E; [done|].
      rewrite !elem_of_cons. intros [->|[->|?]]; [by subst|done|auto].
    + destruct (turnsWarningsIntoErrors a) eqn:E; [done|]. rewrite elem_of_cons.
      intros [->|?]; auto.
Qed.

(** C24: The in-place compactions of the argument vector compute their list
    specifications and never read a string they moved from: whatever such a string
    holds, [removeWarningsAsErrors] keeps or drops each argument, or [-Xclang] pair,
    as a whole and in order, and [removeOutputPathArgs] drops the output options
    with their values.  Nothing that turns warnings into errors and no output
    option is left. *)
Theorem argument_compactions_exact (moved_from : string) (args : list string) :
  (removeWarningsAsErrors moved_from args = Some (dropWarnings args) ∧
   removeOutputPathArgs moved_from args = Some (dropOutput args)) ∧
  (dropWarnings args `sublist_of` args ∧ dropOutput args `sublist_of` args) ∧
  (∀ arg, arg ∈ dropWarnings args → turnsWarningsIntoErrors arg = false) ∧
  (∀ arg, arg ∈ dropOutput args → arg ≠ "-o" ∧ isOutputPath arg = false).
Proof.
  split_and!; auto using removeWarningsAsErrors_spec, removeOutputPathArgs_spec,
    dropOutput_sublist, dropWarnings_sublist.
  - apply dropWarnings_clean.
  - apply dropOutput_clean.
Qed.

(** ** The commands *)

(** The arguments end with an [-o] that is waiting for its value. *)
Fixpoint openOutput (args : list string) : bool :=
  match args with
  | [] => false
  | arg :: rest =>
      if bool_decide (arg = "-o") then match rest with [] => true | _ :: rest' => openOutput rest' end
      else openOutput rest
  end.

Lemma dropOutput_snoc args arg :
  arg ≠ "-o" → isOutputPath arg = false →
  dropOutput (args ++ [arg]) = if openOutput args then dropOutput args else dropOutput args ++ [arg].
Proof.
  intros Ho Hp. induction args as [|a rest IH Hpair] using list_pair_ind; simpl.
  - by rewrite bool_decide_false, Hp.
  - case_bool_decide.
    + destruct rest as [|value rest]; [done|]. by apply (Hpair value).
    + rewrite IH. by destruct (isOutputPath a), (openOutput rest).
Qed.

Lemma dropWarnings_pair arg value rest :
  dropWarnings (arg :: value :: rest) =
  if bool_decide (arg = "-Xclang")
  then if turnsWarningsIntoErrors value then dropWarnings rest else arg :: value :: dropWarnings rest
  else if turnsWarningsIntoErrors arg then dropWarnings (value :: rest)
  else arg :: dropWarnings (value :: rest).
Proof. reflexivity. Qed.

Lemma dropWarnings_snoc args arg :
  arg ≠ "-Xclang" → turnsWarningsIntoErrors arg = false →
  dropWarnings (args ++ [arg]) = dropWarnings args ++ [arg].
Proof.
  intros Hx Hw. induction args as [|a rest IH Hpair] using list_pair_ind; [simpl; by rewrite Hw|].
  destruct rest as [|value rest].
  - simpl. rewrite Hw. case_bool_decide; [by subst|]. by case_match.
  - specialize (Hpair value rest eq_refl). cbn [app] in *. rewrite !dropWarnings_pair, Hpair, IH.
    destruct (bool_decide (a = _)), (turnsWarningsIntoErrors value), (turnsWarningsIntoErrors a); done.
Qed.

(** The last statements of both builders. *)
Definition finishCommand (args flags : list string) : list string := foldl appendIfMissing args flags.

Lemma finishCommand_spec args flags :
  ∃ tail, finishCommand args flags = args ++ tail ∧ tail `sublist_of` flags ∧
    ∀ flag, flag ∈ flags → flag ∈ args ++ tail.
Proof.
  unfold finishCommand. revert args. induction flags as [|flag flags IH]; intros args; simpl.
  - exists []. rewrite app_nil_r. split_and!; [done|constructor|by intros ? ?%elem_of_nil].
  - unfold appendIfMissing at 2, hasExactToken. case_bool_decide as Hin; simpl.
    + destruct (IH args) as (tail & -> & Hsub & Hall). exists tail.
      split_and!; [done|by constructor|]. intros f [->|?]%elem_of_cons; [|auto].
      apply elem_of_app. by left.
    + destruct (IH (args ++ [flag])) as (tail & -> & Hsub & Hall). exists (flag :: tail).
      rewrite <-app_assoc in *. split_and!; [done|by constructor|].
      intros f [->|?]%elem_of_cons; [set_solver|auto].
Qed.

(** The arguments kept of the request, by format. *)
Definition keptArguments (format : IRFormat) (request : CompileRequest) : list string :=
  match format with
  | IRFormat_LL => dropWarnings (req_extraCompileArgs request)
  | IRFormat_BC => filter (λ arg, arg ≠ "-S") (dropWarnings (req_extraCompileArgs request))
  end.

Definition commandFlags (format : IRFormat) (request : CompileRequest) : list string :=
  ["-emit-llvm"; match format with IRFormat_LL => "-S" | IRFormat_BC => "-c" end; "-g";
   req_inputFile request].

Definition buildCommand (moved_from : string) (format : IRFormat) (request : CompileRequest) :=
  match format with
  | IRFormat_LL => buildLL moved_from request
  | IRFormat_BC => buildBC moved_from request
  end.

Lemma buildCommand_eq moved format request :
  buildCommand moved format request
  = Some (finishCommand
      (dropOutput (keptArguments format request ++ ["-O0"])) (commandFlags format request)).
Proof.
  destruct format; unfold buildCommand, buildLL, buildBC, forceUnoptimizedCodegen, keptArguments;
    rewrite removeWarningsAsErrors_spec, dropWarnings_snoc by done; cbn [mbind option_bind];
    rewrite ?filter_app, removeOutputPathArgs_spec; done.
Qed.

(** The command handed to the compiler emits unoptimized LLVM IR.  Unless the
    arguments end with an [-o] without its value, it is the arguments kept of the
    request, then [-O0], then only the flags of the format and the input file; it
    has all of those, and apart from the input file nothing in it names an output
    or turns a warning into an error. *)
Theorem command_pins_code_generation (moved_from : string) (format : IRFormat)
    (request : CompileRequest) :
  openOutput (keptArguments format request) = false →
  ∃ tail,
    let args := dropOutput (keptArguments format request) ++ "-O0" :: tail in
    buildCommand moved_from format request = Some args ∧
    tail `sublist_of` commandFlags format request ∧
    (∀ flag, flag ∈ commandFlags format request → flag ∈ args) ∧
    (∀ arg, arg ∈ args → arg ≠ req_inputFile request →
       turnsWarningsIntoErrors arg = false ∧ arg ≠ "-o" ∧ isOutputPath arg = false).
Proof.
  intros Hopen. rewrite buildCommand_eq, dropOutput_snoc, Hopen by done.
  destruct (finishCommand_spec (dropOutput (keptArguments format request) ++ ["-O0"])
              (commandFlags format request)) as (tail & Heq & Hsub & Hall).
  rewrite <-app_assoc in *. exists tail. split_and!; [by rewrite Heq|done|done|].
  intros arg [Harg|[->|Harg]%elem_of_cons]%elem_of_app Hin; [|done|].
  - split; [|by eapply dropOutput_clean]. eapply sublist_subseteq in Harg; [|apply dropOutput_sublist].
    destruct format; simpl in Harg; [|apply list_elem_of_filter in Harg as [_ Harg]];
      by eapply dropWarnings_clean.
  - eapply sublist_subseteq in Harg; [|exact Hsub]. unfold commandFlags in Harg.
    rewrite !elem_of_cons, elem_of_nil in Harg.
    destruct Harg as [->|[->|[->|[->|[]]]]]; try done; by destruct format.
Qed.

Lemma command_pins_code_generation_witness :
  let request := MkCompileRequest "a.c" ["-O2"; "-Werror"; "-o"; "a.o"; "-S"] IRFormat_BC false in
  ∃ tail,
    let args := dropOutput (keptArguments IRFormat_BC request) ++ "-O0" :: tail in
    buildCommand "" IRFormat_BC request = Some args ∧
    tail `sublist_of` commandFlags IRFormat_BC request ∧
    (∀ flag, flag ∈ commandFlags IRFormat_BC request → flag ∈ args) ∧
    (∀ arg, arg ∈ args → arg ≠ req_inputFile request →
       turnsWarningsIntoErrors arg = false ∧ arg ≠ "-o" ∧ isOutputPath arg = false).
Proof.
  intros request. apply (command_pins_code_generation "" IRFormat_BC request). reflexivity.
Defined.

(** [-O0] is appended before the output options are dropped: an [-o] at the end of
    the arguments takes it for its value, and the caller's [-O2] stands. *)
Lemma trailing_output_option_unpins_optimization :
  buildBC "" (MkCompileRequest "a.c" ["-O2"; "-o"] IRFormat_BC false)
  = Some ["-O2"; "-emit-llvm"; "-c"; "-g"; "a.c"].
Proof. reflexivity. Qed.

(** The output options are dropped without regard to [-Xclang]: the option is left
    to take the flag after it. *)
Lemma xclang_pair_is_split :
  buildLL "" (MkCompileRequest "a.c" ["-Xclang"; "-o"; "a.ll"] IRFormat_LL false)
  = Some ["-Xclang"; "-O0"; "-emit-llvm"; "-S"; "-g"; "a.c"].
Proof. reflexivity. Qed.
