(* ===== verification/Paths.v ===== *)
(** The lexical operations of [std::filesystem::path] the program uses, on POSIX
    paths: a path is its text, a directory separator is a slash.  [lexically_normal]
    follows the steps of the C++ standard ([fs.path.generic]): separators are
    collapsed, dots dropped, a name followed by a double dot dropped with it, double
    dots dropped at the root, a trailing separator kept after a name only. *)

From Stdlib Require Import ZArith.
From S2P Require Import Prelude Text.

Definition slash : ascii := "/".

Definition is_absolute (p : string) : bool := starts_with p "/".

(** [directory / file]. *)
Definition path_append (directory file : string) : string :=
  if is_absolute file then file
  else if bool_decide (directory = "") || negb (last_not (Ascii.eqb slash) directory)
  then directory +:+ file
  else directory +:+ "/" +:+ file.

(** The names kept so far, innermost first, and whether a separator follows. *)
Definition normal_step (absolute : bool) (state : list string * bool) (name : string)
  : list string * bool :=
  let '(stack, _) := state in
  if bool_decide (name = "") || bool_decide (name = ".") then (stack, true)
  else if bool_decide (name = "..") then
    match stack with
    | [] => if absolute then ([], true) else ([".."], false)
    | top :: rest => if bool_decide (top = "..") then (".." :: stack, false) else (rest, true)
    end
  else (name :: stack, false).

Definition print_normal (absolute : bool) (stack : list string) (separator : bool) : string :=
  match stack with
  | [] => if absolute then "/" else "."
  | top :: _ =>
      (if absolute then "/" else "") +:+
      String.concat "/" (reverse stack ++ (if separator && negb (bool_decide (top = "..")) then [""] else []))
  end.

Definition lexically_normal (p : string) : string :=
  if bool_decide (p = "") then ""
  else
    let '(stack, separator) := foldl (normal_step (is_absolute p)) ([], false) (split_on slash p) in
    print_normal (is_absolute p) stack separator.

(** The elements an iterator over the path visits after the root directory: the
    names, and an empty one for a trailing separator. *)
Definition path_elements (p : string) : list string :=
  let pieces := split_on slash p in
  match filter (λ e, e ≠ "") pieces with
  | [] => []
  | names => names ++ (if bool_decide (last pieces = Some "") then [""] else [])
  end.

(** [path::compare]: the root directories, then the elements one by one. *)
Fixpoint elements_lt (l k : list string) : bool :=
  match l, k with
  | _, [] => false
  | [], _ => true
  | x :: l', y :: k' => str_lt x y || (bool_decide (x = y) && elements_lt l' k')
  end.

Definition path_lt (p q : string) : bool :=
  match is_absolute p, is_absolute q with
  | false, true => true
  | true, false => false
  | _, _ => elements_lt (path_elements p) (path_elements q)
  end.

Definition path_eq (p q : string) : bool :=
  bool_decide (is_absolute p = is_absolute q) && bool_decide (path_elements p = path_elements q).

(** The part of the text after the last slash. *)
Definition filename (p : string) : string := default "" (last (split_on slash p)).

Definition dot : ascii := ".".

(** [path::extension]: from the last dot of the file name, none when that dot is
    its first character or the name is a double dot. *)
Definition extension (p : string) : string :=
  let name := filename p in
  if bool_decide (name = "..") then ""
  else match reverse (split_on dot name) with
       | suffix :: before =>
           if forallb (λ piece, bool_decide (piece = "")) before && (length before <=? 1) then ""
           else "." +:+ suffix
       | [] => ""
       end.

(** [path::parent_path]: without the file name and the separators before it, the
    root directory excepted. *)
Definition parent_path (p : string) : string :=
  let parent := drop_suffix_while (Ascii.eqb slash)
    (String.concat "/" (take (length (split_on slash p) - 1) (split_on slash p))) in
  if bool_decide (parent = "") && is_absolute p then "/" else parent.

(** [std::mismatch]: what is left of both lists after their common beginning. *)
Fixpoint mismatch (l k : list string) : list string * list string :=
  match l, k with
  | x :: l', y :: k' => if bool_decide (x = y) then mismatch l' k' else (l, k)
  | _, _ => (l, k)
  end.

(** The names to leave [base] by, less those that lead out of it already. *)
Definition names_to_leave (base : list string) : Z :=
  foldl (λ n name,
    if bool_decide (name = "..") then (n - 1)%Z
    else if bool_decide (name = "") || bool_decide (name = ".") then n else (n + 1)%Z) 0%Z base.

(** [path::lexically_relative], as the elements of its result; an empty path has
    none. *)
Definition lexically_relative (p base : string) : list string :=
  if negb (bool_decide (is_absolute p = is_absolute base)) then []
  else
    let '(rest, others) := mismatch (path_elements p) (path_elements base) in
    let n := names_to_leave others in
    if bool_decide (rest = []) && bool_decide (others = []) then ["."]
    else if bool_decide (n = 0%Z) && bool_decide (default "" (head rest) = "") then ["."]
    else if bool_decide (n < 0)%Z then []
    else replicate (Z.to_nat n) ".." ++ rest.

(** ** Normal forms *)

Definition clean_name (name : string) : Prop :=
  name ≠ "" ∧ name ≠ "." ∧ all_chars (other_than slash) name = true.

(** Double dots are at the outer end only, and only in a relative path. *)
Fixpoint normal_stack (absolute : bool) (stack : list string) : Prop :=
  match stack with
  | [] => True
  | name :: rest =>
      clean_name name ∧ (name = ".." → absolute = false ∧ Forall (λ n, n = "..") rest) ∧
      normal_stack absolute rest
  end.

Lemma normal_step_stack absolute stack separator name :
  all_chars (other_than slash) name = true → normal_stack absolute stack →
  normal_stack absolute (normal_step absolute (stack, separator) name).1.
Proof.
  intros Hn Hs. unfold normal_step.
  destruct (bool_decide (name = "")) eqn:E1; [done|].
  destruct (bool_decide (name = ".")) eqn:E2; [done|]. simpl.
  apply bool_decide_eq_false in E1, E2. case_bool_decide as E3.
  - destruct stack as [|top rest].
    + destruct absolute; [done|]. simpl. split_and!; [done|done|]. by repeat constructor.
    + case_bool_decide as Et; [|simpl in Hs; tauto]. subst top. simpl in Hs |- *.
      destruct Hs as (Hc & Hd & Hr). destruct (Hd eq_refl). split_and!; try done.
      intros _. split; [done|by constructor].
  - simpl. split_and!; [by split_and!| |done]. done.
Qed.

Lemma normal_fold_stack absolute pieces state :
  Forall (λ w, all_chars (other_than slash) w = true) pieces → normal_stack absolute state.1 →
  normal_stack absolute (foldl (normal_step absolute) state pieces).1.
Proof.
  intros Hp. revert state. induction Hp as [|w pieces Hw Hp IH]; intros state Hs; simpl; [done|].
  apply IH. destruct state. by apply normal_step_stack.
Qed.

Lemma normal_stack_clean absolute stack : normal_stack absolute stack → Forall clean_name stack.
Proof. induction stack as [|n stack IH]; simpl; [constructor|]. intros (?&_&?). constructor; auto. Qed.

(** Reading the names of a normal stack rebuilds it. *)
Lemma normal_fold_reverse absolute stack b :
  normal_stack absolute stack →
  foldl (normal_step absolute) ([], b) (reverse stack)
  = (stack, match stack with [] => b | _ => false end).
Proof.
  induction stack as [|name stack IH]; [done|]. simpl. intros ((Hne & Hd & _) & Hdd & Hs).
  rewrite reverse_cons, foldl_snoc, IH by done. unfold normal_step.
  rewrite (bool_decide_false (name = "")), (bool_decide_false (name = ".")) by done. simpl.
  case_bool_decide as E; [|done]. subst. destruct (Hdd eq_refl) as [-> Hall].
  destruct stack as [|top stack]; [done|]. apply Forall_cons in Hall as [-> _]. done.
Qed.

Lemma split_print_normal absolute stack separator :
  normal_stack absolute stack → stack ≠ [] →
  split_on slash (print_normal absolute stack separator)
  = (if absolute then [""] else []) ++ reverse stack ++
    (if separator && negb (bool_decide (head stack = Some "..")) then [""] else []).
Proof.
  intros Hs Hne. destruct stack as [|top stack]; [done|]. unfold print_normal. cbn [head].
  replace (bool_decide (Some top = Some "..")) with (bool_decide (top = ".."))
    by (apply bool_decide_ext; naive_solver).
  set (words := reverse (top :: stack) ++ _).
  assert (split_on slash (String.concat "/" words) = words) as Hw.
  { apply split_on_concat.
    - unfold words. rewrite reverse_cons. by destruct (reverse stack).
    - unfold words. apply Forall_app. split.
      + apply Forall_reverse. eapply Forall_impl; [by eapply normal_stack_clean|]. by intros ? (?&?&?).
      + case_match; by repeat constructor. }
  destruct absolute; [|done]. change (split_on slash ("/" +:+ ?x)) with ("" :: split_on slash x).
  by rewrite Hw.
Qed.

Lemma is_absolute_split p : is_absolute p = true ↔ ∃ piece rest, split_on slash p = "" :: piece :: rest.
Proof.
  unfold is_absolute. destruct p as [|c p].
  { split; [done|]. by intros (piece & rest & [=]). }
  rewrite starts_with_cons, starts_with_nil, andb_true_r. cbn [split_on].
  change slash with "/"%char. destruct (Ascii.eqb c "/").
  - split; [|done]. intros _. destruct (split_on "/" p) as [|w ws] eqn:E; [|eauto].
    destruct p; cbn [split_on] in E; [done|]. repeat case_match; done.
  - split; [done|]. intros (piece & rest & E). destruct (split_on "/" p); discriminate E.
Qed.

Lemma is_absolute_print absolute stack separator :
  normal_stack absolute stack → is_absolute (print_normal absolute stack separator) = absolute.
Proof.
  intros Hs. destruct (decide (stack = [])) as [->|Hne]; [by destruct absolute|].
  destruct absolute.
  { destruct stack; [done|]. unfold print_normal, is_absolute.
    by rewrite append_cons, starts_with_cons, starts_with_nil. }
  apply not_true_iff_false. rewrite is_absolute_split, split_print_normal by done.
  intros (piece & rest & E). simpl in E.
  destruct stack as [|top stack _] using rev_ind; [done|].
  rewrite reverse_app in E. simpl in E. injection E as E _.
  apply normal_stack_clean, Forall_app in Hs as [_ Hs]. apply Forall_singleton in Hs as [Hc _]. done.
Qed.

Lemma print_normal_fixed absolute stack separator :
  normal_stack absolute stack →
  lexically_normal (print_normal absolute stack separator) = print_normal absolute stack separator.
Proof.
  intros Hs. destruct (decide (stack = [])) as [->|Hne]; [by destruct absolute|].
  pose proof (split_print_normal absolute stack separator Hs Hne) as Hsplit.
  unfold lexically_normal. rewrite is_absolute_print, Hsplit by done.
  rewrite bool_decide_false.
  - rewrite !foldl_app.
    assert (foldl (normal_step absolute) ([], false) (if absolute then [""] else []) = ([], absolute))
      as -> by (by destruct absolute).
    rewrite normal_fold_reverse by done. destruct stack as [|top stack]; [done|]. cbn [head].
    replace (bool_decide (Some top = Some "..")) with (bool_decide (top = ".."))
      by (apply bool_decide_ext; naive_solver).
    destruct separator; [|done].
    destruct (bool_decide (top = "..")) eqn:E; unfold print_normal; simpl; rewrite E; done.
  - intros E. rewrite E in Hsplit. destruct stack as [|top stack]; [done|].
    rewrite reverse_cons in Hsplit. change (split_on slash "") with [""] in Hsplit.
    assert (top ∈ [""]) as Htop by (rewrite Hsplit; set_solver).
    apply list_elem_of_singleton in Htop as ->. apply normal_stack_clean, Forall_cons in Hs as [[? _] _].
    done.
Qed.

(** A normal path is its own normal form. *)
Lemma lexically_normal_idemp p : lexically_normal (lexically_normal p) = lexically_normal p.
Proof.
  destruct (decide (p = "")) as [->|Hp]; [done|].
  unfold lexically_normal at 2 3. rewrite bool_decide_false by done.
  pose proof (normal_fold_stack (is_absolute p) (split_on slash p) ([], false)
    (split_on_pieces _ _) I) as Hs.
  destruct (foldl _ _ _) as [stack separator]. by apply print_normal_fixed.
Qed.

Definition is_normal (p : string) : Prop := lexically_normal p = p.

(** ** The order of paths *)

Lemma elements_lt_irrefl l : elements_lt l l = false.
Proof. induction l as [|x l IH]; simpl; [done|]. by rewrite str_lt_irrefl, IH, andb_false_r. Qed.

Lemma elements_lt_trichotomy l k : elements_lt l k = true ∨ l = k ∨ elements_lt k l = true.
Proof.
  revert k. induction l as [|x l IH]; intros [|y k]; simpl; auto.
  destruct (str_lt_trichotomy x y) as [H|[H|H]].
  - left. by rewrite H.
  - subst. destruct (IH k) as [H|[->|H]]; [left|auto|right; right];
      rewrite H, bool_decide_true, orb_true_r by done; done.
  - right; right. by rewrite H.
Qed.

#[global] Instance elements_lt_swo : StrictWeakOrder elements_lt.
Proof.
  split.
  - induction x as [|a l IH]; intros [|b k]; simpl; try done.
    rewrite orb_true_iff, andb_true_iff, orb_false_iff, andb_false_iff. intros [H|[H1 H2]].
    + split; [by apply swo_asym|left]. apply bool_decide_eq_false. intros ->.
      by rewrite str_lt_irrefl in H.
    + apply bool_decide_eq_true in H1 as ->. rewrite str_lt_irrefl. split; [done|right]. by apply IH.
  - induction x as [|a l IH]; intros [|b k] [|c m]; simpl; try done; try tauto.
    rewrite !orb_true_iff, !andb_true_iff, !bool_decide_eq_true. intros [H|[-> H]].
    + destruct (str_lt_trichotomy a b) as [Hab|[->|Hab]]; [tauto|tauto|].
      destruct (swo_cotrans a b c H) as [Hab'|Hbc]; [|tauto].
      rewrite (swo_asym _ _ Hab) in Hab'. done.
    + destruct (str_lt_trichotomy c b) as [Hcb|[->|Hcb]]; [tauto| |tauto].
      destruct (IH k m H); tauto.
Qed.

#[global] Instance path_lt_swo : StrictWeakOrder path_lt.
Proof.
  unfold path_lt. split.
  - intros x y. destruct (is_absolute x), (is_absolute y); try done; apply swo_asym.
  - intros x y z. destruct (is_absolute x), (is_absolute y), (is_absolute z); try tauto; try done;
      apply swo_cotrans.
Qed.

(** ** Equality of paths *)

Lemma path_elements_print absolute stack separator :
  normal_stack absolute stack → stack ≠ [] →
  path_elements (print_normal absolute stack separator)
  = reverse stack ++ (if separator && negb (bool_decide (head stack = Some "..")) then [""] else []).
Proof.
  intros Hs Hne. unfold path_elements. rewrite split_print_normal by done.
  set (sep := separator && _). clearbody sep.
  pose proof (normal_stack_clean _ _ Hs) as Hc. apply Forall_reverse in Hc.
  assert (filter (λ e, e ≠ "") (reverse stack) = reverse stack) as Hf.
  { apply filter_all. eapply Forall_impl; [exact Hc|]. by intros ? [? _]. }
  assert (filter (λ e : string, e ≠ "") (if absolute then [""] else []) = []) as H1 by (by destruct absolute).
  assert (filter (λ e : string, e ≠ "") (if sep then [""] else []) = []) as H2 by (by destruct sep).
  rewrite !filter_app, Hf, H1, H2, app_nil_r, app_nil_l.
  destruct stack as [|top stack]; [done|]. rewrite reverse_cons in *.
  assert (∀ l k : list string, l ≠ [] → match l with [] => [] | x :: l' => (x :: l') ++ k end = l ++ k)
    as Hm by (by intros [|? ?]).
  rewrite Hm by (by destruct (reverse stack)). f_equal. destruct sep.
  { by rewrite !app_assoc, last_snoc. }
  rewrite app_nil_r, app_assoc, last_snoc, bool_decide_false; [done|]. apply Forall_app in Hc as [_ Hc].
  apply Forall_singleton in Hc as [? _]. naive_solver.
Qed.

(** The text of a normal path is determined by its root directory and elements. *)
Lemma normal_path_text p :
  is_normal p →
  p = match path_elements p with
      | [] => if is_absolute p then "/" else ""
      | names => (if is_absolute p then "/" else "") +:+ String.concat "/" names
      end.
Proof.
  intros Hp. destruct (decide (p = "")) as [->|Hne]; [done|].
  unfold is_normal, lexically_normal in Hp. rewrite bool_decide_false in Hp by done.
  pose proof (normal_fold_stack (is_absolute p) (split_on slash p) ([], false)
    (split_on_pieces _ _) I) as Hs.
  destruct (foldl _ _ _) as [stack separator]. simpl in Hs.
  rewrite <-Hp at 2. destruct (decide (stack = [])) as [->|Hstack].
  { simpl in *. destruct (is_absolute p); by rewrite <-Hp. }
  rewrite path_elements_print by done. rewrite <-Hp at 1.
  destruct stack as [|top stack]; [done|]. unfold print_normal. cbn [head].
  replace (bool_decide (Some top = Some "..")) with (bool_decide (top = ".."))
    by (apply bool_decide_ext; naive_solver).
  rewrite reverse_cons. destruct ((reverse stack ++ [top]) ++ _) eqn:E; [|done].
  by destruct (reverse stack).
Qed.

(** Normal paths are equal as paths exactly when they are the same text. *)
Lemma path_eq_normal p q : is_normal p → is_normal q → path_eq p q = true ↔ p = q.
Proof.
  intros Hp Hq. unfold path_eq. rewrite andb_true_iff, !bool_decide_eq_true. split; [|by intros ->].
  intros [Ha He]. rewrite (normal_path_text p Hp), (normal_path_text q Hq). by rewrite Ha, He.
Qed.

Lemma path_lt_total p q : is_normal p → is_normal q → p ≠ q → path_lt p q = true ∨ path_lt q p = true.
Proof.
  intros Hp Hq Hne. unfold path_lt.
  destruct (is_absolute p) eqn:Ap, (is_absolute q) eqn:Aq; auto;
    (destruct (elements_lt_trichotomy (path_elements p) (path_elements q)) as [?|[E|?]]; [auto| |auto]).
  all: exfalso; apply Hne, path_eq_normal; [done..|].
  all: unfold path_eq; rewrite Ap, Aq, !bool_decide_true by done; done.
Qed.
