(* ===== verification/WaitFacts.v ===== *)
(** The facts of a unit that travel from callees to callers without a name to
    substitute (src/internal/analysis/tu_facts_builder.cpp): which forks lead to an
    exec, who has to loop around a bare wait, and which handles the program resolves;
    with the test for user code of ir_utils.cpp. *)

From S2P Require Import Prelude Text Diagnostics Facts ProgramIndex CallGraph Rounds Paths.

(** ** User code *)

(** A compile unit with a file: its name and its directory. *)
Definition primarySourceRoot (compileUnits : list (option (string * string))) : option string :=
  head (omap (λ unit,
    '(filename, directory) ← unit;
    let filePath := if negb (bool_decide (directory = "")) && negb (is_absolute filename)
                    then path_append directory filename else filename in
    let filePath := lexically_normal filePath in
    if bool_decide (filePath = "") then None else Some (parent_path filePath)) compileUnits).

Definition isLikelyUserLocation (location : SourceLocation) (sourceRoot : option string) : bool :=
  match sourceRoot with
  | None => false
  | Some root =>
      negb (bool_decide (loc_file location = "")) &&
      match lexically_relative (lexically_normal (loc_file location)) root with
      | [] => false
      | first :: _ => negb (bool_decide (first = ".."))
      end
  end.

(** ** Forks *)

Record ProcessLifecycleCollection := MkProcesses {
  pr_forks : list ProcessForkFact;
  pr_reapsChildren : bool;
  pr_functionsReachingExec : gset string;
}.

Definition execSite (site : DirectCallSite) (functions : gset string)
  : (gset string * bool) + Empty_set :=
  inl (if negb (bool_decide (dcs_calleeFunctionId site ∈ functions)) then (functions, false)
       else if bool_decide (dcs_callerFunctionId site ∈ functions) then (functions, false)
       else ({[dcs_callerFunctionId site]} ∪ functions, true)).

(** Every function that can be added, and one more round. *)
Definition callers (sites : list DirectCallSite) : gset string :=
  list_to_set (dcs_callerFunctionId <$> sites).

Definition functionsReachingExec (sites : list DirectCallSite) (direct : gset string)
  : option (gset string) :=
  match rounds (each execSite sites) (S (size (callers sites ∪ direct))) direct with
  | Some (inl functions) => Some functions
  | _ => None
  end.

Definition processForks_of (functions : gset string) (forks : list ProcessForkFact)
  : list ProcessForkFact :=
  (λ fork, MkFork (fork_functionId fork) (fork_location fork)
             (bool_decide (fork_functionId fork ∈ functions))) <$> forks.

(** ** Bare waits *)

Abbreviation Unguarded := (gmap string ConditionWaitFact).

Definition collectedUnguarded (waits : list ConditionWaitFact) : Unguarded :=
  foldl (λ unguarded fact,
    if cw_guardedByLoop fact then unguarded else emplace (cw_functionId fact) fact unguarded) ∅ waits.

Definition inheritedWait (site : DirectCallSite) (fact : ConditionWaitFact) : ConditionWaitFact :=
  MkConditionWait (dcs_callerFunctionId site) (dcs_userLocation site) (cw_loweredLocation fact)
    (cw_guardedByLoop fact) true.

Definition waitSite (site : DirectCallSite) (unguarded : Unguarded)
  : (Unguarded * bool) + Empty_set :=
  inl (if dcs_insideLoop site || bool_decide (is_Some (unguarded !! dcs_callerFunctionId site))
       then (unguarded, false)
       else match unguarded !! dcs_calleeFunctionId site with
            | None => (unguarded, false)
            | Some fact =>
                (emplace (dcs_callerFunctionId site) (inheritedWait site fact) unguarded, true)
            end).

Definition unguardedByFunction (sites : list DirectCallSite) (waits : list ConditionWaitFact)
  : option Unguarded :=
  let collected := collectedUnguarded waits in
  match rounds (each waitSite sites) (S (size (callers sites ∪ dom collected))) collected with
  | Some (inl unguarded) => Some unguarded
  | _ => None
  end.

Record WaitCalls := MkWaitCalls {
  wc_answered : gset string;
  wc_called : gset string;
  wc_calledOutsideALoop : gset string;
}.

Definition waitCall (unguarded : Unguarded) (acc : WaitCalls) (site : DirectCallSite) : WaitCalls :=
  let callee := dcs_calleeFunctionId site in
  if negb (bool_decide (is_Some (unguarded !! callee))) then acc
  else if dcs_insideLoop site
  then MkWaitCalls (wc_answered acc) ({[callee]} ∪ wc_called acc) (wc_calledOutsideALoop acc)
  else MkWaitCalls
         (if bool_decide (is_Some (unguarded !! dcs_callerFunctionId site))
          then {[callee]} ∪ wc_answered acc else wc_answered acc)
         ({[callee]} ∪ wc_called acc) ({[callee]} ∪ wc_calledOutsideALoop acc).

Definition answeredByACaller (unguarded : Unguarded) (sites : list DirectCallSite) : gset string :=
  let calls := foldl (waitCall unguarded) (MkWaitCalls ∅ ∅ ∅) sites in
  wc_answered calls ∪ (wc_called calls ∖ wc_calledOutsideALoop calls).

Definition wait_lt : ConditionWaitFact → ConditionWaitFact → bool :=
  lt_then (lt_on (λ fact, loc_file (cw_location fact)) str_lt)
    (lt_then (lt_on (λ fact, loc_line (cw_location fact)) N_lt)
      (lt_then (lt_on (λ fact, loc_column (cw_location fact)) N_lt)
        (lt_on cw_functionId str_lt))).

Definition conditionWaits_of `{!HashOrder, !StdSort} (sourceRoot : option string)
    (sites : list DirectCallSite) (waits : list ConditionWaitFact)
  : option (list ConditionWaitFact) :=
  unguarded ← unguardedByFunction sites waits;
  let answered := answeredByACaller unguarded sites in
  Some (std_sort wait_lt
    (List.filter (λ fact, isLikelyUserLocation (cw_location fact) sourceRoot)
      (List.filter (λ item, negb (bool_decide (item.1 ∈ answered))) (hash_items unguarded)).*2)).

(** ** Handles *)

(** The characters of a global's name; an access path may follow it. *)
Definition is_name_char (c : ascii) : bool :=
  let n := N_of_ascii c in
  ((97 <=? n)%N && (n <=? 122)%N) || ((65 <=? n)%N && (n <=? 90)%N) || is_digit c ||
  Ascii.eqb c "_" || Ascii.eqb c "." || Ascii.eqb c "$".

Fixpoint take_while (p : ascii → bool) (s : string) : string :=
  match s with
  | "" => ""
  | String c s' => if p c then String c (take_while p s') else ""
  end.

Section handles.
(** The globals of the module by name, internal ones included, as the symbols the
    program knows them by. *)
Context (getGlobalVariable : string → option string).

Definition globalOfStorageGroupId (handleGroupId : string) : option string :=
  if negb (starts_with handleGroupId "global:") then None
  else
    let name := take_while is_name_char (drop_prefix (String.length "global:") handleGroupId) in
    if bool_decide (name = "") then None else getGlobalVariable name.

Definition resolvesThread (fact : ThreadLifecycleFact) : bool :=
  bool_decide (tl_action fact = ThreadLifecycleAction_Join)
  || bool_decide (tl_action fact = ThreadLifecycleAction_Detach).

Definition resolvedGlobalHandleIds_of (lifecycles : list ThreadLifecycleFact) : gset string :=
  foldl (λ ids fact,
    if resolvesThread fact && bool_decide (is_Some (globalOfStorageGroupId (tl_handleGroupId fact)))
    then {[tl_handleGroupId fact]} ∪ ids else ids) ∅ lifecycles.

(** The creations the rest of the program resolves are dropped. *)
Definition outstandingLifecycles (program : ProgramSymbolIndex)
    (lifecycles : list ThreadLifecycleFact) : list ThreadLifecycleFact :=
  List.filter (λ fact,
    negb (bool_decide (tl_action fact = ThreadLifecycleAction_Create) &&
      match globalOfStorageGroupId (tl_handleGroupId fact) with
      | None => false
      | Some handle => resolvesHandleElsewhere program handle
      end)) lifecycles.
End handles.
