(* ===== verification/WaitFactsProps.v ===== *)
(** Exec reachability is reachability over the direct calls, and a bare wait is
    reported exactly at the functions that owe the loop and that no caller answers
    for, whatever order hash tables are visited in. *)

From S2P Require Import Prelude Text Diagnostics Facts ProgramIndex CallGraph Rounds Paths WaitFacts.

Section calls.
Context (sites : list DirectCallSite).

(** ** Forks *)

Definition direct_call (f g : string) : Prop :=
  ∃ site, site ∈ sites ∧ dcs_callerFunctionId site = f ∧ dcs_calleeFunctionId site = g.

Definition reaches (targets : gset string) (f : string) : Prop :=
  ∃ g, g ∈ targets ∧ rtc direct_call f g.

Definition exec_ok (direct functions : gset string) : Prop :=
  direct ⊆ functions ∧ functions ⊆ callers sites ∪ direct ∧ ∀ f, f ∈ functions → reaches direct f.

Definition no_error (error : Empty_set) : Prop := False.

Lemma caller_in site : site ∈ sites → dcs_callerFunctionId site ∈ callers sites.
Proof. intros Hs. apply elem_of_list_to_set, list_elem_of_fmap. by exists site. Qed.

Lemma execSite_ok direct site functions :
  site ∈ sites → exec_ok direct functions →
  step_ok (exec_ok direct) (⊆) no_error size eq
    (λ functions, dcs_calleeFunctionId site ∈ functions → dcs_callerFunctionId site ∈ functions)
    functions (execSite site functions).
Proof.
  intros Hs (Hd & Hu & Hr). unfold execSite, step_ok. do 2 case_bool_decide; cbn [negb];
    try (split_and!; [done|done|done|done]).
  pose proof (caller_in site Hs) as Hc.
  split_and!; [|set_solver|rewrite size_union by set_solver; rewrite size_singleton; lia].
  split_and!; [set_solver|set_solver|]. intros f [->%elem_of_singleton|Hf]%elem_of_union; [|by apply Hr].
  destruct (Hr (dcs_calleeFunctionId site)) as (g & Hg & Hpath); [done|].
  exists g. split; [done|]. eapply rtc_l; [|done]. by exists site.
Qed.

Lemma execRound_ok direct functions : exec_ok direct functions →
  step_ok (exec_ok direct) (⊆) no_error size eq
    (λ functions, Forall (λ site,
       dcs_calleeFunctionId site ∈ functions → dcs_callerFunctionId site ∈ functions) sites)
    functions (each execSite sites functions).
Proof.
  intros Hok. apply (each_ok _ _ _ _ subseteq_size _ (λ site, site ∈ sites)); try done.
  - intros site fs Hs. by apply execSite_ok.
  - by intros site fs ? ? <-.
  - by apply Forall_forall.
Qed.

Lemma functionsReachingExec_spec direct :
  ∃ functions, functionsReachingExec sites direct = Some functions ∧
    ∀ f, f ∈ functions ↔ reaches direct f.
Proof.
  destruct (rounds_total _ _ _ _ _ _ _ (execRound_ok direct) (size (callers sites ∪ direct))
    (S (size (callers sites ∪ direct))) direct) as ([functions|[]] & E & Ho).
  { intros fs (_ & Hu & _). by apply subseteq_size. }
  { split_and!; [done|set_solver|]. intros f Hf. by exists f. }
  { lia. }
  destruct Ho as ((Hd & _ & Hr) & _ & Hq). exists functions. unfold functionsReachingExec. rewrite E.
  split; [done|]. intros f. split; [by apply Hr|]. intros (g & Hg & Hpath).
  induction Hpath as [f|f h g (site & Hs & <- & <-) _ IH]; [by apply Hd|].
  rewrite Forall_forall in Hq. apply (Hq site Hs). auto.
Qed.

(** ** Bare waits *)

Context (waits : list ConditionWaitFact).

(** The functions that owe a loop: a bare wait of their own, or a call outside a
    loop of a function that owes one. *)
Inductive owes : string → Prop :=
  | owes_wait fact : fact ∈ waits → cw_guardedByLoop fact = false → owes (cw_functionId fact)
  | owes_call site : site ∈ sites → dcs_insideLoop site = false →
      owes (dcs_calleeFunctionId site) → owes (dcs_callerFunctionId site).

(** What is reported of a function that owes a loop: its first bare wait, or else
    one of the calls that hand it the obligation. *)
Definition first_wait (f : string) : option ConditionWaitFact :=
  head (List.filter (λ fact, negb (cw_guardedByLoop fact) && bool_decide (cw_functionId fact = f)) waits).

Definition obligation (f : string) (fact : ConditionWaitFact) : Prop :=
  cw_functionId fact = f ∧
  match first_wait f with
  | Some own => fact = own
  | None => cw_viaHelper fact = true ∧ ∃ site, site ∈ sites ∧ dcs_callerFunctionId site = f ∧
      dcs_insideLoop site = false ∧ owes (dcs_calleeFunctionId site) ∧
      cw_location fact = dcs_userLocation site
  end.

(** Some caller takes the obligation over, or every caller loops. *)
Definition answered (f : string) : Prop :=
  (∃ site, site ∈ sites ∧ dcs_calleeFunctionId site = f ∧ dcs_insideLoop site = false ∧
     owes (dcs_callerFunctionId site)) ∨
  ((∃ site, site ∈ sites ∧ dcs_calleeFunctionId site = f) ∧
   ∀ site, site ∈ sites → dcs_calleeFunctionId site = f → dcs_insideLoop site = true).

Lemma collectedUnguarded_lookup f : collectedUnguarded waits !! f = first_wait f.
Proof.
  unfold collectedUnguarded, first_wait. induction waits as [|fact l IH] using rev_ind; [done|].
  rewrite foldl_app, List.filter_app. cbn [foldl List.filter].
  set (own := List.filter _ l) in *. set (m := foldl _ ∅ l) in *.
  assert (∀ x : ConditionWaitFact, head (own ++ [x]) = Some (default x (head own))) as Hhead.
  { intros x. by destruct own. }
  destruct (cw_guardedByLoop fact); cbn [negb andb]; [by rewrite app_nil_r|].
  unfold emplace. destruct (decide (cw_functionId fact = f)) as [<-|Hne].
  - rewrite bool_decide_true, Hhead, <- IH by done.
    destruct (m !! cw_functionId fact) eqn:Em; [done|]. by rewrite lookup_insert_eq.
  - rewrite bool_decide_false, app_nil_r by done.
    destruct (m !! cw_functionId fact); [done|]. by rewrite lookup_insert_ne.
Qed.

Lemma first_wait_Some f own : first_wait f = Some own →
  own ∈ waits ∧ cw_guardedByLoop own = false ∧ cw_functionId own = f.
Proof.
  unfold first_wait. intros Hh%head_Some_elem_of.
  apply list_elem_of_In, filter_In in Hh as [Hin Hc]. breflect.
  split_and!; [by apply list_elem_of_In|done|done].
Qed.

Definition wait_ok (unguarded : Unguarded) : Prop :=
  collectedUnguarded waits ⊆ unguarded ∧
  dom unguarded ⊆ callers sites ∪ dom (collectedUnguarded waits) ∧
  ∀ f fact, unguarded !! f = Some fact → owes f ∧ obligation f fact.

Definition owing (unguarded : Unguarded) : nat := size (dom unguarded).
Lemma owing_mono m m' : m ⊆ m' → owing m ≤ owing m'.
Proof. intros Hm. unfold owing. by apply subseteq_size, subseteq_dom. Qed.

Definition wait_settled (site : DirectCallSite) (unguarded : Unguarded) : Prop :=
  dcs_insideLoop site = false → is_Some (unguarded !! dcs_calleeFunctionId site) →
  is_Some (unguarded !! dcs_callerFunctionId site).

Lemma waitSite_ok site unguarded :
  site ∈ sites → wait_ok unguarded →
  step_ok wait_ok (⊆) no_error owing eq (wait_settled site) unguarded (waitSite site unguarded).
Proof.
  intros Hs Hok. pose proof Hok as (Hc & Hd & Ho). unfold waitSite, step_ok.
  destruct (dcs_insideLoop site) eqn:El; cbn [orb].
  { split_and!; [done|done|done|]. intros ?. congruence. }
  case_bool_decide as Hcaller; [split_and!; [done|done|done|by intros _ _]|]. apply eq_None_not_Some in Hcaller.
  destruct (unguarded !! dcs_calleeFunctionId site) as [fact|] eqn:Ef.
  2:{ split_and!; [done|done|done|]. intros _ [? E]. congruence. }
  unfold emplace. rewrite Hcaller. pose proof (caller_in site Hs) as Hin.
  assert (unguarded ⊆ <[dcs_callerFunctionId site := inheritedWait site fact]> unguarded) as Hsub
    by (by apply insert_subseteq).
  destruct (Ho _ _ Ef) as [Hcallee _].
  split_and!; [split_and!|done|unfold owing; rewrite dom_insert, size_union, size_singleton].
  - by etrans.
  - rewrite dom_insert. set_solver.
  - intros f fact'. destruct (decide (f = dcs_callerFunctionId site)) as [->|Hne].
    + rewrite lookup_insert_eq. intros [= <-]. split; [by eapply owes_call|]. split; [done|].
      destruct (first_wait (dcs_callerFunctionId site)) as [own|] eqn:Eown.
      * rewrite <- collectedUnguarded_lookup in Eown. rewrite (lookup_weaken _ _ _ _ Eown Hc) in Hcaller. done.
      * split; [done|]. by exists site.
    + rewrite lookup_insert_ne by done. apply Ho.
  - lia.
  - apply not_elem_of_dom in Hcaller. set_solver.
Qed.

Lemma waitRound_ok unguarded : wait_ok unguarded →
  step_ok wait_ok (⊆) no_error owing eq (λ unguarded, Forall (λ site, wait_settled site unguarded) sites)
    unguarded (each waitSite sites unguarded).
Proof.
  intros Hok. apply (each_ok _ _ _ _ owing_mono _ (λ site, site ∈ sites)); try done.
  - intros site m Hs. by apply waitSite_ok.
  - by intros site m ? ? <-.
  - by apply Forall_forall.
Qed.

Lemma collected_wait_ok : wait_ok (collectedUnguarded waits).
Proof.
  split_and!; [done|set_solver|]. intros f fact. rewrite collectedUnguarded_lookup. intros Hf.
  pose proof (first_wait_Some f fact Hf) as (Hin & Hg & <-). split; [by constructor|].
  split; [done|]. by rewrite Hf.
Qed.

Lemma unguardedByFunction_spec :
  ∃ unguarded, unguardedByFunction sites waits = Some unguarded ∧
    (∀ f, is_Some (unguarded !! f) ↔ owes f) ∧
    ∀ f fact, unguarded !! f = Some fact → obligation f fact.
Proof.
  unfold unguardedByFunction. set (bound := size (callers sites ∪ dom (collectedUnguarded waits))).
  destruct (rounds_total _ _ _ _ _ _ _ waitRound_ok bound (S bound) (collectedUnguarded waits))
    as ([unguarded|[]] & E & Ho).
  { intros m (_ & Hu & _). unfold owing. by apply subseteq_size. }
  { apply collected_wait_ok. }
  { lia. }
  destruct Ho as ((Hc & _ & Hob) & _ & Hq). exists unguarded. rewrite E. split; [done|].
  rewrite Forall_forall in Hq. split; [|intros f fact Hf; by apply Hob].
  intros f. split; [intros [fact Hf]; by destruct (Hob _ _ Hf)|].
  induction 1 as [fact Hin Hg|site Hs Hl _ IH]; [|by apply (Hq site)].
  pose proof (collectedUnguarded_lookup (cw_functionId fact)) as Hf. unfold first_wait in Hf.
  destruct (List.filter _ waits) as [|own l] eqn:El.
  - assert (fact ∈ ([] : list ConditionWaitFact)) as Hnil%elem_of_nil; [|done].
    rewrite <- El. apply list_elem_of_In, filter_In. rewrite Hg, bool_decide_true by done.
    split; [by apply list_elem_of_In|done].
  - exists own. by apply (lookup_weaken _ _ _ _ Hf Hc).
Qed.

Lemma ex_elem_of_snoc {A} (P : A → Prop) l y :
  (∃ x, x ∈ l ++ [y] ∧ P x) ↔ (∃ x, x ∈ l ∧ P x) ∨ P y.
Proof.
  split.
  - intros (x & [Hx| ->%list_elem_of_singleton]%elem_of_app & HP); [left; by exists x|by right].
  - intros [(x & Hx & HP)|HP]; [exists x|exists y]; rewrite elem_of_app, list_elem_of_singleton; auto.
Qed.

(** The two loops over the calls. *)
Lemma waitCalls_spec unguarded l :
  let calls := foldl (waitCall unguarded) (MkWaitCalls ∅ ∅ ∅) l in
  ∀ f, is_Some (unguarded !! f) →
  (f ∈ wc_answered calls ↔ ∃ site, site ∈ l ∧ dcs_calleeFunctionId site = f ∧
     dcs_insideLoop site = false ∧ is_Some (unguarded !! dcs_callerFunctionId site)) ∧
  (f ∈ wc_called calls ↔ ∃ site, site ∈ l ∧ dcs_calleeFunctionId site = f) ∧
  (f ∈ wc_calledOutsideALoop calls ↔ ∃ site, site ∈ l ∧ dcs_calleeFunctionId site = f ∧
     dcs_insideLoop site = false).
Proof.
  cbn. intros f Hf. induction l as [|site l (IHa & IHc & IHo)] using rev_ind; [set_solver|].
  rewrite foldl_app. cbn [foldl]. unfold waitCall at 1 3 5. set (calls := foldl _ _ l) in *.
  rewrite !ex_elem_of_snoc, <- IHa, <- IHc, <- IHo. clear IHa IHc IHo.
  destruct (decide (dcs_calleeFunctionId site = f)) as [->|Hne].
  - rewrite (bool_decide_true (is_Some (unguarded !! f))) by done. cbn [negb].
    destruct (dcs_insideLoop site); [set_solver|]. case_bool_decide; set_solver.
  - assert (∀ (X : gset string), f ∈ {[dcs_calleeFunctionId site]} ∪ X ↔ f ∈ X) as HX by set_solver.
    destruct (negb _); [tauto|]. destruct (dcs_insideLoop site); cbn [wc_answered wc_called wc_calledOutsideALoop];
      [rewrite HX; tauto|]. rewrite !HX. destruct (bool_decide _); rewrite ?HX; tauto.
Qed.

Lemma answeredByACaller_spec unguarded f :
  (∀ f, is_Some (unguarded !! f) ↔ owes f) → owes f →
  f ∈ answeredByACaller unguarded sites ↔ answered f.
Proof.
  intros Hall Hf. apply Hall in Hf. unfold answeredByACaller.
  destruct (waitCalls_spec unguarded sites f Hf) as (Ha & Hc & Ho).
  set (calls := foldl _ _ sites) in *. rewrite elem_of_union, elem_of_difference, Ha, Hc, Ho.
  unfold answered. setoid_rewrite Hall. split.
  - intros [H|[H1 H2]]; [by left|]. right. split; [done|]. intros site Hs Hcallee.
    destruct (dcs_insideLoop site) eqn:El; [done|]. destruct H2. by exists site.
  - intros [H|[H1 H2]]; [by left|]. right. split; [done|]. intros (site & Hs & Hcallee & Hl).
    rewrite (H2 site Hs Hcallee) in Hl. done.
Qed.
End calls.

#[export] Instance wait_lt_swo : StrictWeakOrder wait_lt.
Proof. unfold wait_lt. apply _. Qed.

(** The facts kept, before the sort. *)
Definition keptWaits `{!HashOrder} (sourceRoot : option string) (sites : list DirectCallSite)
    (unguarded : Unguarded) : list ConditionWaitFact :=
  List.filter (λ fact, isLikelyUserLocation (cw_location fact) sourceRoot)
    (List.filter (λ item, negb (bool_decide (item.1 ∈ answeredByACaller unguarded sites)))
      (hash_items unguarded)).*2.

Lemma elem_of_keptWaits `{!HashOrder} sourceRoot sites unguarded fact :
  fact ∈ keptWaits sourceRoot sites unguarded ↔
  isLikelyUserLocation (cw_location fact) sourceRoot = true ∧
  ∃ f, f ∉ answeredByACaller unguarded sites ∧ unguarded !! f = Some fact.
Proof.
  unfold keptWaits. rewrite elem_of_filter_bool, list_elem_of_fmap. split.
  - intros [([f fact'] & -> & Hf) Hu]. apply elem_of_filter_bool in Hf as [Hf Ha].
    apply elem_of_hash_items in Hf. breflect. split; [done|]. by exists f.
  - intros (Hu & f & Ha & Hf). split; [|done]. exists (f, fact). split; [done|].
    apply elem_of_filter_bool. rewrite elem_of_hash_items. breflect. done.
Qed.

Lemma filter_bool_perm {A} (p : A → bool) (l k : list A) :
  l ≡ₚ k → List.filter p l ≡ₚ List.filter p k.
Proof.
  induction 1 as [|x l k _ IH|x y l|l k m _ IH1 _ IH2]; cbn [List.filter]; [done| | |by etrans].
  - by destruct (p x); [constructor|].
  - destruct (p x), (p y); try done. constructor.
Qed.

Lemma NoDup_fst_filter {A B} (p : A * B → bool) (l : list (A * B)) :
  NoDup l.*1 → NoDup (List.filter p l).*1.
Proof.
  induction l as [|x l IH]; cbn [List.filter]; [done|]. rewrite fmap_cons, NoDup_cons.
  intros [Hx Hl]. destruct (p x); [|auto]. rewrite fmap_cons, NoDup_cons. split; [|auto].
  intros (y & Hy & Hin)%list_elem_of_fmap. apply elem_of_filter_bool in Hin as [Hin _].
  apply Hx, list_elem_of_fmap. by exists y.
Qed.

(** Each function has one fact, filed under its name. *)
Definition filed (unguarded : Unguarded) : Prop :=
  ∀ f fact, unguarded !! f = Some fact → cw_functionId fact = f.

Lemma keptWaits_functions `{!HashOrder} sourceRoot sites unguarded :
  filed unguarded → NoDup (cw_functionId <$> keptWaits sourceRoot sites unguarded).
Proof.
  intros Hfiled. unfold keptWaits. set (l := List.filter _ (hash_items unguarded)).
  assert (NoDup l.*1) as Hl.
  { apply NoDup_fst_filter. rewrite hash_items_perm. apply NoDup_fst_map_to_list. }
  assert (∀ item, item ∈ l → cw_functionId item.2 = item.1) as Hkey.
  { intros [f fact] Hin. apply elem_of_filter_bool in Hin as [Hin _]. apply elem_of_hash_items in Hin.
    by apply Hfiled. }
  clearbody l. induction l as [|item l IH]; [constructor|]. rewrite !fmap_cons, NoDup_cons in *.
  cbn [List.filter]. destruct Hl as [Hnew Hl].
  assert (NoDup (cw_functionId <$> List.filter (λ fact, isLikelyUserLocation (cw_location fact) sourceRoot) l.*2))
    as Htail by (apply IH; [done|]; intros; apply Hkey; by right).
  destruct (isLikelyUserLocation _ _); [|done]. rewrite fmap_cons, NoDup_cons. split; [|done].
  intros (fact & Hid & Hin)%list_elem_of_fmap. apply elem_of_filter_bool in Hin as [Hin _].
  apply list_elem_of_fmap in Hin as (item' & -> & Hin). apply Hnew, list_elem_of_fmap. exists item'.
  rewrite (Hkey item) in Hid by left. rewrite (Hkey item') in Hid by (by right). done.
Qed.

Lemma wait_lt_functions x y : wait_lt x y = false → wait_lt y x = false → cw_functionId x = cw_functionId y.
Proof.
  unfold wait_lt, lt_then, lt_on. intros Hxy Hyx.
  destruct (str_lt_trichotomy (cw_functionId x) (cw_functionId y)) as [H|[H|H]]; [|done|];
    rewrite H in *; breflect; intuition congruence.
Qed.

Lemma keptWaits_sort `{!HashOrder} (S1 S2 : StdSort) sourceRoot sites unguarded l :
  filed unguarded → l ≡ₚ keptWaits sourceRoot sites unguarded →
  @std_sort S1 _ wait_lt (keptWaits sourceRoot sites unguarded) = @std_sort S2 _ wait_lt l.
Proof.
  intros Hf Hl. pose proof (keptWaits_functions sourceRoot sites unguarded Hf) as Hnd.
  apply (StronglySorted_unique_strong (λ x y, wait_lt y x = false)).
  - intros x y Hx Hy Hxy Hyx. rewrite std_sort_perm in Hx by apply _. rewrite std_sort_perm, Hl in Hy by apply _.
    apply list_elem_of_lookup in Hx as [i Hi], Hy as [j Hj].
    assert (i = j) as ->; [|congruence].
    eapply NoDup_lookup; [exact Hnd| |]; rewrite list_lookup_fmap, ?Hi, ?Hj; [done|].
    cbn. f_equal. by apply wait_lt_functions.
  - apply std_sort_sorted, _.
  - apply std_sort_sorted, _.
  - by rewrite !std_sort_perm, Hl by apply _.
Qed.


(** A function that owes a loop and can call itself again outside a loop has a caller
    that owes it too: nothing is reported of it. *)
Lemma recursive_wait_unreported sites waits f :
  owes sites waits f →
  tc (λ g h, ∃ site, site ∈ sites ∧ dcs_insideLoop site = false ∧
        dcs_callerFunctionId site = g ∧ dcs_calleeFunctionId site = h) f f →
  answered sites waits f.
Proof.
  intros Ho Hc. left.
  assert (∀ g h, tc (λ g h, ∃ site, site ∈ sites ∧ dcs_insideLoop site = false ∧
        dcs_callerFunctionId site = g ∧ dcs_calleeFunctionId site = h) g h → owes sites waits h →
    ∃ site, site ∈ sites ∧ dcs_calleeFunctionId site = h ∧ dcs_insideLoop site = false ∧
      owes sites waits (dcs_callerFunctionId site)) as Hlast; [|by eapply Hlast].
  clear. intros g h. induction 1 as [g h (site & Hs & Hl & <- & <-)|g h k _ _ IH]; [|by auto].
  intros Ho. exists site. split_and!; try done. by apply owes_call.
Qed.

(** ** A helper that waits once, called outside a loop *)

Definition bare_wait (f : string) (line : N) : ConditionWaitFact :=
  let location := MkSourceLocation "/p/a.c" line 1 line 1 f in
  MkConditionWait f location location false false.

Definition call_at (caller callee : string) (line : N) (insideLoop : bool) : DirectCallSite :=
  let location := MkSourceLocation "/p/a.c" line 1 line 1 caller in
  MkDirectCallSite (Some 0) caller callee location location insideLoop.

Example wait_reported_at_the_caller :
  option_map (fmap (λ fact, (cw_functionId fact, loc_line (cw_location fact), cw_viaHelper fact)))
    (@conditionWaits_of sorted_hash_order merge_std_sort (Some "/p")
      [call_at "consume" "pause" 20 false; call_at "poll" "pause" 30 true] [bare_wait "pause" 10])
  = Some [("consume", 20%N, true)].
Proof. vm_compute. reflexivity. Qed.

(** The same helper calling itself again hides the wait. *)
Example recursive_wait_lost :
  @conditionWaits_of sorted_hash_order merge_std_sort (Some "/p")
    [call_at "pause" "pause" 12 false] [bare_wait "pause" 10] = Some [].
Proof. vm_compute. reflexivity. Qed.
