(* ===== verification/RecursiveLocks.v ===== *)
(** The locks their owner may take again ([collectRecursiveLockIds] of
    src/internal/analysis/tu_facts_builder.cpp), which no reacquisition finding names. *)

From Stdlib Require Import ZArith.
From S2P Require Import Prelude LockEffects SymbolClassifier.

(** ** What is read of a module *)

(** A global: whether its type is a recursive lock's, and the lock it names. *)
Record LockGlobal := MkLockGlobal {
  lg_designatesRecursiveLockType : bool;
  lg_canonicalLockId : option string;
}.

(** An argument: its value when it is a constant integer, the storage it designates and the
    lock it names. *)
Record LockArgument := MkLockArgument {
  la_constant : option Z;
  la_storageGroupId : option string;
  la_lockId : option string;
}.

Record LockCall := MkLockCall {
  lc_arguments : list LockArgument;
  lc_effects : list LockEffect;
  lc_kind : CallKind;
}.

(** ** The collection *)

Definition kAttrOperandIndex : nat := 0.
Definition kAttrTypeOperandIndex : nat := 1.
Definition kMutexOperandIndex : nat := 0.
Definition kInitAttrOperandIndex : nat := 1.

Record RecursiveState := MkRecursive {
  rs_lockIds : gset string;
  rs_nonDefaultAttributeGroups : gset string;
  rs_mutexInitCalls : list LockCall;
}.

Definition insert_option (item : option string) (items : gset string) : gset string :=
  match item with Some item => {[item]} ∪ items | None => items end.

Definition globalLockIds (globals : list LockGlobal) : gset string :=
  foldl (λ ids global,
    if lg_designatesRecursiveLockType global then insert_option (lg_canonicalLockId global) ids else ids)
    ∅ globals.

Definition effectLockIds (call : LockCall) (ids : gset string) : gset string :=
  foldl (λ ids effect, if le_recursiveLock effect then list_to_set (le_lockIds effect) ∪ ids else ids)
    ids (lc_effects call).

(** The storage an attribute is given a type other than the default in. *)
Definition nonDefaultAttribute (call : LockCall) : option string :=
  attributeType ← lc_arguments call !! kAttrTypeOperandIndex;
  value ← la_constant attributeType;
  if bool_decide (value = 0%Z) then None
  else lc_arguments call !! kAttrOperandIndex ≫= la_storageGroupId.

Definition visitLockCall (st : RecursiveState) (call : LockCall) : RecursiveState :=
  if bool_decide (lc_arguments call = []) then st
  else
    let ids := effectLockIds call (rs_lockIds st) in
    if bool_decide (lc_kind call = CallKind_PThreadMutexAttrSetType) &&
       (kAttrTypeOperandIndex <? length (lc_arguments call))
    then MkRecursive ids (insert_option (nonDefaultAttribute call) (rs_nonDefaultAttributeGroups st))
           (rs_mutexInitCalls st)
    else if bool_decide (lc_kind call = CallKind_PThreadMutexInit) &&
            (kInitAttrOperandIndex <? length (lc_arguments call))
    then MkRecursive ids (rs_nonDefaultAttributeGroups st) (rs_mutexInitCalls st ++ [call])
    else MkRecursive ids (rs_nonDefaultAttributeGroups st) (rs_mutexInitCalls st).

(** A mutex initialized with such an attribute. *)
Definition initLock (groups : gset string) (ids : gset string) (call : LockCall) : gset string :=
  match lc_arguments call !! kInitAttrOperandIndex ≫= la_storageGroupId with
  | None => ids
  | Some attrGroup =>
      if bool_decide (attrGroup ∈ groups)
      then insert_option (lc_arguments call !! kMutexOperandIndex ≫= la_lockId) ids else ids
  end.

Definition collectRecursiveLockIds (globals : list LockGlobal) (calls : list LockCall) : gset string :=
  let st := foldl visitLockCall (MkRecursive (globalLockIds globals) ∅ []) calls in
  foldl (initLock (rs_nonDefaultAttributeGroups st)) (rs_lockIds st) (rs_mutexInitCalls st).

(** ** What it collects *)

(** A set grown by a loop holds what it held and what each element of the list adds. *)
Lemma foldl_grows {A} (step : gset string → A → gset string) (adds : A → string → Prop) (l : list A) start id :
  (∀ ids a, id ∈ step ids a ↔ adds a id ∨ id ∈ ids) →
  id ∈ foldl step start l ↔ (∃ a, a ∈ l ∧ adds a id) ∨ id ∈ start.
Proof.
  intros Hstep. induction l as [|a l IH] using rev_ind.
  { cbn. set_solver. }
  rewrite foldl_snoc, Hstep, IH. setoid_rewrite elem_of_app. setoid_rewrite list_elem_of_singleton. naive_solver.
Qed.

Lemma elem_of_insert_option item items id : id ∈ insert_option item items ↔ item = Some id ∨ id ∈ items.
Proof. destruct item; cbn; [rewrite elem_of_union, elem_of_singleton|]; naive_solver. Qed.

Definition setsType (call : LockCall) (group : string) : Prop :=
  lc_kind call = CallKind_PThreadMutexAttrSetType ∧ nonDefaultAttribute call = Some group.

Definition initializes (call : LockCall) (group id : string) : Prop :=
  lc_kind call = CallKind_PThreadMutexInit ∧
  lc_arguments call !! kInitAttrOperandIndex ≫= la_storageGroupId = Some group ∧
  lc_arguments call !! kMutexOperandIndex ≫= la_lockId = Some id.

Definition takesRecursive (call : LockCall) (id : string) : Prop :=
  lc_arguments call ≠ [] ∧
  ∃ effect, effect ∈ lc_effects call ∧ le_recursiveLock effect = true ∧ id ∈ le_lockIds effect.

Lemma effectLockIds_spec call ids id :
  id ∈ effectLockIds call ids ↔
  (∃ effect, effect ∈ lc_effects call ∧ le_recursiveLock effect = true ∧ id ∈ le_lockIds effect) ∨ id ∈ ids.
Proof.
  unfold effectLockIds. rewrite (foldl_grows _ (λ effect id, le_recursiveLock effect = true ∧ id ∈ le_lockIds effect)).
  - done.
  - intros ids' effect. destruct (le_recursiveLock effect); [rewrite elem_of_union, elem_of_list_to_set|]; naive_solver.
Qed.

Lemma nonDefaultAttribute_arguments call group :
  nonDefaultAttribute call = Some group → kAttrTypeOperandIndex <? length (lc_arguments call) = true.
Proof.
  unfold nonDefaultAttribute. destruct (lc_arguments call !! kAttrTypeOperandIndex) eqn:E; [|done]. intros _.
  apply Nat.ltb_lt. by eapply lookup_lt_Some.
Qed.

(** The loop over the calls. *)
Lemma visitLockCalls_spec calls ids0 :
  let st := foldl visitLockCall (MkRecursive ids0 ∅ []) calls in
  (∀ id, id ∈ rs_lockIds st ↔ (∃ call, call ∈ calls ∧ takesRecursive call id) ∨ id ∈ ids0) ∧
  (∀ group, group ∈ rs_nonDefaultAttributeGroups st ↔ ∃ call, call ∈ calls ∧ setsType call group) ∧
  (∀ call, call ∈ rs_mutexInitCalls st ↔ call ∈ calls ∧ lc_kind call = CallKind_PThreadMutexInit ∧
     kInitAttrOperandIndex < length (lc_arguments call)).
Proof.
  induction calls as [|call calls (IHi & IHg & IHc)] using rev_ind; [cbn; set_solver|].
  cbv zeta in *. rewrite foldl_snoc. set (st := foldl _ _ calls) in *.
  assert (∀ (P : LockCall → Prop), (∃ c, c ∈ calls ++ [call] ∧ P c) ↔ (∃ c, c ∈ calls ∧ P c) ∨ P call) as Hsnoc.
  { intros P. setoid_rewrite elem_of_app. setoid_rewrite list_elem_of_singleton. naive_solver. }
  setoid_rewrite Hsnoc. setoid_rewrite elem_of_app. setoid_rewrite list_elem_of_singleton.
  unfold visitLockCall. case_bool_decide as Hargs.
  { split_and!.
    - intros id. rewrite IHi. unfold takesRecursive. naive_solver.
    - intros group. rewrite IHg. split; [by left|]. intros [?|[_ ?%nonDefaultAttribute_arguments]]; [done|].
      by rewrite Hargs in *.
    - intros c. rewrite IHc. split; [naive_solver|]. intros [[?| ->] [? Hl]]; [done|]. rewrite Hargs in Hl. cbn in Hl. lia. }
  assert (∀ id, id ∈ effectLockIds call (rs_lockIds st) ↔
    ((∃ c, c ∈ calls ∧ takesRecursive c id) ∨ takesRecursive call id) ∨ id ∈ ids0) as Hids.
  { intros id. rewrite effectLockIds_spec, IHi. unfold takesRecursive. naive_solver. }
  case_bool_decide as Hset; [|case_bool_decide as Hinit]; cbn [andb].
  - destruct (kAttrTypeOperandIndex <? length (lc_arguments call)) eqn:El; cycle 1.
    { rewrite bool_decide_false by congruence. cbn [andb]. split_and!; [exact Hids| |].
      - intros group. cbn. rewrite IHg. split; [by left|].
        intros [?|[_ ?%nonDefaultAttribute_arguments]]; [done|congruence].
      - intros c. cbn. rewrite IHc. naive_solver congruence. }
    split_and!; [exact Hids| |].
    + intros group. cbn. rewrite elem_of_insert_option, IHg. unfold setsType. naive_solver.
    + intros c. cbn. rewrite IHc. naive_solver congruence.
  - destruct (kInitAttrOperandIndex <? length (lc_arguments call)) eqn:El.
    + apply Nat.ltb_lt in El. split_and!; [exact Hids| |].
      * intros group. cbn. rewrite IHg. unfold setsType. naive_solver congruence.
      * intros c. cbn. rewrite elem_of_app, IHc, list_elem_of_singleton. naive_solver.
    + apply Nat.ltb_ge in El. split_and!; [exact Hids| |].
      * intros group. cbn. rewrite IHg. unfold setsType. naive_solver congruence.
      * intros c. cbn. rewrite IHc. split; [naive_solver|]. intros [[?| ->] [? ?]]; [done|lia].
  - split_and!; [exact Hids| |].
    + intros group. cbn. rewrite IHg. unfold setsType. naive_solver congruence.
    + intros c. cbn. rewrite IHc. naive_solver congruence.
Qed.

(** A lock is recursive exactly when its type says so, when some call takes it as one, or
    when it is initialized, anywhere in the unit, with an attribute that is somewhere given
    a type other than the default. *)
Lemma recursive_locks_spec globals calls id :
  id ∈ collectRecursiveLockIds globals calls ↔
  (∃ global, global ∈ globals ∧ lg_designatesRecursiveLockType global = true ∧ lg_canonicalLockId global = Some id) ∨
  (∃ call, call ∈ calls ∧ takesRecursive call id) ∨
  (∃ init attribute group, init ∈ calls ∧ attribute ∈ calls ∧ setsType attribute group ∧ initializes init group id).
Proof.
  unfold collectRecursiveLockIds. destruct (visitLockCalls_spec calls (globalLockIds globals)) as (Hi & Hg & Hc).
  set (st := foldl visitLockCall _ calls) in *. cbv zeta.
  rewrite (foldl_grows _ (λ call id, ∃ group, group ∈ rs_nonDefaultAttributeGroups st ∧
    lc_arguments call !! kInitAttrOperandIndex ≫= la_storageGroupId = Some group ∧
    lc_arguments call !! kMutexOperandIndex ≫= la_lockId = Some id)).
  2: { intros ids call. unfold initLock. destruct (_ ≫= la_storageGroupId) as [group|]; [|naive_solver].
       case_bool_decide; [rewrite elem_of_insert_option|]; naive_solver. }
  rewrite Hi. unfold globalLockIds.
  rewrite (foldl_grows _ (λ global id, lg_designatesRecursiveLockType global = true ∧ lg_canonicalLockId global = Some id)).
  2: { intros ids global. destruct (lg_designatesRecursiveLockType global); [rewrite elem_of_insert_option|]; naive_solver. }
  setoid_rewrite Hc. setoid_rewrite Hg. unfold initializes. split.
  - intros [(init & (Hin & Hk & _) & group & (attribute & Ha & Hs) & H1 & H2)|[H|[H|H]]]; [|by right; left|by left|].
    + right. right. by exists init, attribute, group.
    + by apply elem_of_empty in H.
  - intros [H|[H|(init & attribute & group & Hin & Ha & Hs & Hk & H1 & H2)]]; [by right; right; left|by right; left|].
    left. exists init. split; [|eauto 10]. split_and!; [done|done|].
    destruct (lc_arguments init !! kInitAttrOperandIndex) eqn:E; [|done]. by eapply lookup_lt_Some.
Qed.
