(* ===== verification/UnitFacts.v ===== *)
(** The facts of a unit ([TUFactsBuilder::build] and [collectProgramSymbolFacts] of
    src/internal/analysis/tu_facts_builder.cpp): which collectors run for a selection, in
    what order, what each is given, and what the rest of the program adds.

    What the collectors read in LLVM's IR is the record [UnitModule]. *)

From S2P Require Import Prelude Text Diagnostics Facts LockIds FactQueries ProgramIndex CallGraph CallCycles Rounds KeyIndex Kept.
From S2P Require Import Lifecycles LockEffects LockScope LockPropagation LockOrderCollector LockOrderFacts AccessFacts.
From S2P Require Import SyncEffects LockWrappers RecursiveLocks Paths WaitFacts.

(** ** A module, as the collectors read it *)

Record ModuleFunction := MkModuleFunction {
  mf_id : string;
  mf_symbol : string;
  mf_isDeclaration : bool;
}.

Record ModuleGlobal := MkModuleGlobal {
  mg_symbol : string;
  mg_isDeclaration : bool;
  mg_canBeSharedState : bool;
}.

(** A call: how many arguments it has, whether it registers a destructor run at thread
    exit, and the function its first argument resolves to, with whether that is only
    declared. *)
Record ModuleCall := MkModuleCall {
  mc_argSize : nat;
  mc_registersExitDestructor : bool;
  mc_resolvesTo : option (string * bool);
}.

Abbreviation JoiningHelpers := (gmap string (list JoinedParameter)).

(** What the walk over the arguments of threads finds. *)
Record ThreadLifetimeFacts := MkLifetimes {
  lt_escapes : list ThreadArgumentEscapeFact;
  lt_frees : list ThreadArgumentFreeFact;
  lt_expiredThreadLocals : list ExpiredThreadLocalFact;
}.

Record PublicationAnalysis := MkPublications {
  pu_ordering : gmap nat (gset string * gset string);
  pu_weakPublications : list WeakPublicationFact;
}.

Record UnitModule (Completions : Type) := MkUnitModule {
  (** the module itself *)
  um_targetTriple : string;
  um_dataLayout : string;
  um_identifier : string;
  um_compileUnits : list (option (string * string));
  um_functions : list ModuleFunction;
  um_globals : list ModuleGlobal;
  um_guards : list GlobalVariable;
  um_globalSymbol : string → option string;
  um_objectSymbol : string → option string;
  (** the collectors *)
  um_directCallSites : list DirectCallSite;
  um_spawns : list DirectCallSite → bool → list SpawnFact * gmap string EntryConcurrencyInfo;
  um_wrapperFunctions : list WrapperFunction;
  um_lockEffects : LockWrapperSummaries → nat → list LockEffect;
  um_sharedObjects : list DirectCallSite → option (gset string) → gmap string EntryConcurrencyInfo → SharedObjectBindings;
  um_pendingAccesses : option (gset string) → gset string → gset string → list PendingAccess;
  um_lockFunctions : LockWrapperSummaries → SharedObjectBindings → list Function;
  um_joiningHelpers : JoiningHelpers → JoiningHelpers;
  um_completions : JoiningHelpers → Completions;
  um_noCompletions : Completions;
  um_tasks : list DirectCallSite → Completions → bool → TaskConcurrencyResult;
  um_calls : list (string * list ModuleCall);
  um_lifecycles : Completions → list ThreadLifecycleFact;
  um_lifetimes : Completions → ThreadLifetimeFacts;
  um_signalHandlers : list DirectCallSite → list SignalHandlerFact;
  um_processes : ProcessLifecycleCollection;
  um_conditionWaits : list ConditionWaitFact;
  um_lockGlobals : list LockGlobal;
  um_lockCalls : list LockCall;
  um_publications : list PendingAccess → list DirectCallSite → list SpawnFact → bool → PublicationAnalysis;
  um_collectOrders : LockWrapperSummaries → SharedObjectBindings → TaskConcurrencyResult →
    string → gset string → bool → list LockOrderFact;
  (** the operands of calls *)
  um_callsStandardLibrary : nat → bool;
  um_argumentGroups : nat → list (option string);
  um_argumentLocks : option SharedObjectBinding → nat → list (option string);
  um_callAt : option (gset string) → gset string → gset string → nat → CallInstruction;
  um_constructs : nat → option string;
  um_beforeHandOver : string → nat → option N → Z → Z → bool;
  um_joinedElement : Completions → string → nat → option N → Z → Z → bool;
  um_accessBytes : nat → option Z;
}.
Arguments MkUnitModule {Completions}.
Arguments um_targetTriple {Completions}. Arguments um_dataLayout {Completions}. Arguments um_identifier {Completions}. Arguments um_compileUnits {Completions}.
Arguments um_functions {Completions}. Arguments um_globals {Completions}. Arguments um_guards {Completions}.
Arguments um_globalSymbol {Completions}. Arguments um_objectSymbol {Completions}.
Arguments um_directCallSites {Completions}. Arguments um_spawns {Completions}.
Arguments um_wrapperFunctions {Completions}. Arguments um_lockEffects {Completions}. Arguments um_sharedObjects {Completions}.
Arguments um_pendingAccesses {Completions}. Arguments um_lockFunctions {Completions}.
Arguments um_joiningHelpers {Completions}. Arguments um_completions {Completions}. Arguments um_noCompletions {Completions}. Arguments um_tasks {Completions}.
Arguments um_calls {Completions}. Arguments um_lifecycles {Completions}. Arguments um_lifetimes {Completions}.
Arguments um_signalHandlers {Completions}. Arguments um_processes {Completions}.
Arguments um_conditionWaits {Completions}. Arguments um_lockGlobals {Completions}. Arguments um_lockCalls {Completions}.
Arguments um_publications {Completions}.
Arguments um_collectOrders {Completions}. Arguments um_callsStandardLibrary {Completions}.
Arguments um_argumentGroups {Completions}. Arguments um_argumentLocks {Completions}. Arguments um_callAt {Completions}.
Arguments um_constructs {Completions}. Arguments um_beforeHandOver {Completions}.
Arguments um_joinedElement {Completions}. Arguments um_accessBytes {Completions}.

(** ** The symbols of a unit *)

Section symbols.
Context {Completions : Type} (module : UnitModule Completions).

Definition recordGlobal (program : ProgramSymbolFacts) (global : ModuleGlobal) : ProgramSymbolFacts :=
  if negb (mg_canBeSharedState global) then program
  else MkProgramSymbols (abiKey program)
         (if mg_isDeclaration global then definedGlobals program
          else {[mg_symbol global]} ∪ definedGlobals program)
         (if mg_isDeclaration global then {[mg_symbol global]} ∪ declaredGlobals program
          else declaredGlobals program)
         (functionSymbolsById program) (declaredFunctions program) (settlingFunctions program)
         (handleSymbolsByGroupId program).

Definition recordFunction (program : ProgramSymbolFacts) (function : ModuleFunction) : ProgramSymbolFacts :=
  MkProgramSymbols (abiKey program) (definedGlobals program) (declaredGlobals program)
    (emplace (mf_id function) (mf_symbol function) (functionSymbolsById program))
    (if mf_isDeclaration function then {[mf_symbol function]} ∪ declaredFunctions program
     else declaredFunctions program)
    (settlingFunctions program) (handleSymbolsByGroupId program).

Definition recordHandle (program : ProgramSymbolFacts) (handleGroupId : string) : ProgramSymbolFacts :=
  MkProgramSymbols (abiKey program) (definedGlobals program) (declaredGlobals program)
    (functionSymbolsById program) (declaredFunctions program) (settlingFunctions program)
    (match globalOfStorageGroupId (um_globalSymbol module) handleGroupId with
     | Some symbol => emplace handleGroupId symbol (handleSymbolsByGroupId program)
     | None => handleSymbolsByGroupId program
     end).

Definition collectProgramSymbolFacts (resolved : gset string)
    (lifecycles : list ThreadLifecycleFact) : ProgramSymbolFacts :=
  let program := MkProgramSymbols (um_targetTriple module +:+ "|" +:+ um_dataLayout module) ∅ ∅ ∅ ∅ ∅ ∅ in
  let program := foldl recordGlobal program (um_globals module) in
  let program := foldl recordFunction program (um_functions module) in
  let program := foldl recordHandle program (elements resolved) in
  foldl recordHandle program
    (omap (λ fact, if bool_decide (tl_action fact = ThreadLifecycleAction_Create)
                   then Some (tl_handleGroupId fact) else None) lifecycles).
End symbols.

(** ** What the rest of the program adds *)

Section program.
Context {Completions : Type} (module : UnitModule Completions).

(** The summaries other units made of helpers this one only declares. *)
Definition addDeclaredSummaries {A} (summaryFor : string → option A) (summaries : gmap string A)
  : gmap string A :=
  foldl (λ summaries function,
    if negb (mf_isDeclaration function) then summaries
    else match summaryFor (mf_symbol function) with
         | Some summary => emplace (mf_id function) summary summaries
         | None => summaries
         end) summaries (um_functions module).

Definition sharedObjectNames (bindings : SharedObjectBindings) (kind : SharedObjectKind) : gset string :=
  list_to_set ((λ item, rb_symbol (so_object item.2)) <$>
    List.filter (λ item, bool_decide (so_kind item.2 = kind)) (map_to_list bindings)).

Definition reset_elements (binding : SharedObjectBinding) : SharedObjectBinding :=
  MkSharedObject (so_object binding) (so_kind binding) (so_argumentIndex binding) false
    (so_constructedClass binding) (so_keptForLackOfProof binding) (so_runByDirectCalls binding)
    (so_settledThrough binding).

(** A thread entry another unit starts, or calls a function carrying its object of. *)
Definition settleBinding (program : ProgramSymbolIndex) (acc : SharedObjectBindings * gset string)
    (function : ModuleFunction) : SharedObjectBindings * gset string :=
  let '(bindings, settling) := acc in
  match bindings !! mf_id function with
  | None => acc
  | Some binding =>
      let settledThrough :=
        fst <$> List.filter (λ settling, negb settling.2) (so_settledThrough binding) in
      (if existsb (appearsInSeveralUnits program) settledThrough
       then delete (mf_id function) bindings
       else if 1 <? spawnCount program (mf_symbol function)
       then <[mf_id function := reset_elements binding]> bindings
       else bindings,
       list_to_set settledThrough ∪ settling)
  end.

(** The instances that can be alive at once, in place of the spawn sites counted. *)
Definition correctedEntry (overlapping : gset string) (entryId : string) (info : EntryConcurrencyInfo)
  : EntryConcurrencyInfo :=
  MkEntryConcurrency
    (if bool_decide (entryId ∈ overlapping) then staticSpawnCount info `max` 2
     else staticSpawnCount info `min` 1)
    (hasSpawnInLoop info).

(** An entry other units start. *)
Definition addProgramSpawns (program : ProgramSymbolIndex) (entries : gmap string EntryConcurrencyInfo)
    (function : ModuleFunction) : gmap string EntryConcurrencyInfo :=
  if mf_isDeclaration function || negb (isThreadEntry program (mf_symbol function)) then entries
  else
    let info := default (MkEntryConcurrency 0 false) (entries !! mf_id function) in
    <[mf_id function :=
        MkEntryConcurrency (staticSpawnCount info `max` spawnCount program (mf_symbol function))
          (hasSpawnInLoop info || spawnedInLoop program (mf_symbol function))]> entries.

(** The locks held at each access, function by function. *)
Definition heldLocksByAccess_of `{!HashOrder} (summaries : LockWrapperSummaries) (bindings : SharedObjectBindings)
    (pendings : list PendingAccess) : option (gmap nat (gset string)) :=
  let tracked : gmap string (gset nat) :=
    foldl (λ tracked pending,
      let function := acc_functionId (pe_fact pending) in
      <[function := {[pe_instruction pending]} ∪ default ∅ (tracked !! function)]> tracked) ∅ pendings in
  let functions := um_lockFunctions module summaries bindings in
  foldl (λ held item,
      held ← held;
      match List.find (λ function, bool_decide (fn_id function = item.1)) functions with
      | None => Some held
      | Some function =>
          functionLocks ← collectHeldLocks (fn_reachable function) (fn_effects function) item.2 (fn_blocks function);
          Some (held ∪ functionLocks)
      end) (Some ∅) (hash_items tracked).
End program.

(** ** The builder *)

Section build.
Context `{!HashOrder, !AddressOrder, !StdSort} {Completions : Type} (module : UnitModule Completions).
Context (selection : FactSelection) (program : option ProgramSymbolIndex).

Definition crossTU : bool := bool_decide (is_Some program).

Definition directCallSites_of : list DirectCallSite :=
  if sel_directCallSites selection then um_directCallSites module else [].

Definition spawnFacts : list SpawnFact * gmap string EntryConcurrencyInfo :=
  if sel_spawns selection then um_spawns module directCallSites_of crossTU else ([], ∅).

(** [programDefined]. *)
Definition programDefined : option (gset string) := indexDefinedGlobals <$> program.

Definition lockWrapperSummaries_of : LockWrapperSummaries :=
  if sel_lockWrapperSummaries selection then
    let summaries := collectLockWrapperSummaries (um_lockEffects module) (um_wrapperFunctions module) in
    match program with
    | Some program => addDeclaredSummaries module (lockSummaryFor program) summaries
    | None => summaries
    end
  else ∅.

(** The bindings, and the functions that carry their objects. *)
Definition sharedObjects_of : SharedObjectBindings * gset string :=
  if sel_lockState selection then
    let bindings := um_sharedObjects module directCallSites_of programDefined spawnFacts.2 in
    match program with
    | Some program => foldl (settleBinding program) (bindings, ∅) (um_functions module)
    | None => (bindings, ∅)
    end
  else (∅, ∅).

Definition sharedObjectIds_of : gset string :=
  sharedObjectNames sharedObjects_of.1 SharedObjectKind_BehindPointer.
Definition localObjectIds_of : gset string := sharedObjectNames sharedObjects_of.1 SharedObjectKind_Local.

Definition pendingAccesses_of : list PendingAccess :=
  if sel_accesses selection
  then um_pendingAccesses module programDefined sharedObjectIds_of localObjectIds_of else [].

Definition readsCompletions : bool :=
  sel_taskConcurrency selection || sel_threadLifecycles selection || sel_threadArgumentEscapes selection ||
  sel_threadArgumentFrees selection || sel_expiredThreadLocals selection.

Definition joiningHelpers_of : JoiningHelpers :=
  if readsCompletions then
    um_joiningHelpers module
      (match program with
       | Some program =>
           if ch_helperJoins (sel_channels selection)
           then addDeclaredSummaries module (joinedParametersOf program) ∅ else ∅
       | None => ∅
       end)
  else ∅.

Definition completions_of : Completions :=
  if readsCompletions then um_completions module joiningHelpers_of else um_noCompletions module.

Definition no_tasks : TaskConcurrencyResult := MkTaskConcurrency ∅ ∅ ∅ ∅ ∅ ∅.
Definition taskConcurrency_of : TaskConcurrencyResult :=
  if sel_taskConcurrency selection then um_tasks module directCallSites_of completions_of crossTU else no_tasks.

(** The helpers of the unit, published to the others. *)
Definition publishedHelpers : JoiningHelpers :=
  if ch_helperJoins (sel_channels selection)
  then filter (λ item, bool_decide (item.1 ∈ mf_id <$>
         List.filter (λ function, mf_isDeclaration function) (um_functions module)) = false) joiningHelpers_of
  else ∅.

Definition entryConcurrency_of : gmap string EntryConcurrencyInfo :=
  let entries := spawnFacts.2 in
  let entries :=
    if sel_threadEntries selection
    then map_imap (λ id info, Some (correctedEntry (tc_overlappingSpawnEntries taskConcurrency_of) id info)) entries
    else entries in
  match program with
  | Some program => foldl (addProgramSpawns program) entries (um_functions module)
  | None => entries
  end.

Definition threadContexts_of : option (gmap string ThreadEntrySet) :=
  if sel_threadEntries selection
  then ThreadContextPropagator_collect mc_argSize mc_registersExitDestructor mc_resolvesTo (um_calls module)
         directCallSites_of entryConcurrency_of
  else Some ∅.

Definition lifecyclesCollected (fuel : nat) : option (list ThreadLifecycleFact + ConversionError) :=
  if sel_threadLifecycles selection then
    match collectLifecycles (um_argumentGroups module) fuel directCallSites_of
            (um_lifecycles module completions_of) with
    | Some (inl st) => Some (inl (lst_facts st))
    | Some (inr error) => Some (inr error)
    | None => None
    end
  else Some (inl []).

Definition lifecycles_of (collected : list ThreadLifecycleFact) : list ThreadLifecycleFact :=
  match program with
  | Some program => outstandingLifecycles (um_globalSymbol module) program collected
  | None => collected
  end.

(** The forks of the unit, whether the program reaps them, and whether it creates threads. *)
Definition processes_of : option (list ProcessForkFact * bool * bool) :=
  if sel_processLifecycle selection then
    let processes := um_processes module in
    functions ← functionsReachingExec directCallSites_of (pr_functionsReachingExec processes);
    Some (processForks_of functions (pr_forks processes),
          pr_reapsChildren processes ||
            match program with Some program => programReapsChildren program | None => false end,
          negb (bool_decide (spawnFacts.1 = [])) ||
            match program with Some program => index_programCreatesThreads program | None => false end)
  else Some ([], false, false).

Definition waits_of : option (list ConditionWaitFact) :=
  if sel_conditionWaits selection
  then conditionWaits_of (primarySourceRoot (um_compileUnits module)) directCallSites_of (um_conditionWaits module)
  else Some [].

Definition lockPropagation_of : option LockPropagationResult :=
  if sel_lockState selection
  then LockStatePropagator_collect (um_lockFunctions module lockWrapperSummaries_of sharedObjects_of.1)
         directCallSites_of
  else Some (MkPropagation ∅ ∅).

Definition lockOrderFacts_of (fuel : nat) : option (list LockOrderFact) :=
  if sel_lockOrders selection then
    lockPropagation ← lockPropagation_of;
    st ← lockOrders_of (um_callsStandardLibrary module) sharedObjects_of.1 lockPropagation taskConcurrency_of
           (um_argumentLocks module)
           (um_collectOrders module lockWrapperSummaries_of sharedObjects_of.1 taskConcurrency_of) fuel
           (mf_id <$> List.filter (λ function, negb (mf_isDeclaration function)) (um_functions module))
           directCallSites_of entryConcurrency_of;
    Some (kp_items (os_facts st))
  else Some [].

Definition publications_of : PublicationAnalysis :=
  um_publications module pendingAccesses_of directCallSites_of spawnFacts.1 crossTU.

Definition unitAccesses (fuel : nat) : option (list AccessFact) :=
  if sel_accesses selection then
    lockPropagation ← lockPropagation_of;
    heldLocksByAccess ← heldLocksByAccess_of module lockWrapperSummaries_of sharedObjects_of.1 pendingAccesses_of;
    accesses ← accesses_of (um_callAt module programDefined sharedObjectIds_of localObjectIds_of)
      (um_constructs module) lockPropagation taskConcurrency_of sharedObjects_of.1 (um_beforeHandOver module)
      (um_joinedElement module completions_of) (um_accessBytes module) sharedObjectIds_of localObjectIds_of
      (pu_ordering publications_of) heldLocksByAccess entryConcurrency_of directCallSites_of fuel pendingAccesses_of;
    Some (orderStaticInitialization (um_objectSymbol module) (um_identifier module) crossTU (um_guards module)
            accesses)
  else Some [].

Definition programFacts (resolved : gset string) (lifecycles : list ThreadLifecycleFact) : ProgramSymbolFacts :=
  if sel_program selection then
    let program := collectProgramSymbolFacts module resolved lifecycles in
    MkProgramSymbols (abiKey program) (definedGlobals program) (declaredGlobals program)
      (functionSymbolsById program) (declaredFunctions program) sharedObjects_of.2
      (handleSymbolsByGroupId program)
  else no_symbols.

(** [None] when a loop runs out of fuel, an error when a handle's name does. *)
Definition build (fuel : nat) : option (TUFacts + ConversionError) :=
  contexts ← threadContexts_of;
  collected ← lifecyclesCollected fuel;
  match collected with
  | inr error => Some (inr error)
  | inl collected =>
      processes ← processes_of;
      waits ← waits_of;
      orders ← lockOrderFacts_of fuel;
      accesses ← unitAccesses fuel;
      let resolved := resolvedGlobalHandleIds_of (um_globalSymbol module) collected in
      let lifecycles := lifecycles_of collected in
      Some (inl (MkTUFacts spawnFacts.1 accesses orders lifecycles waits processes.1.1
        (if sel_threadArgumentEscapes selection then lt_escapes (um_lifetimes module completions_of) else [])
        (if sel_threadArgumentFrees selection then lt_frees (um_lifetimes module completions_of) else [])
        (if sel_expiredThreadLocals selection
         then lt_expiredThreadLocals (um_lifetimes module completions_of) else [])
        (if sel_signalHandlers selection then um_signalHandlers module directCallSites_of else [])
        (if sel_accesses selection && sel_weakPublications selection
         then pu_weakPublications publications_of else [])
        processes.1.2 processes.2 entryConcurrency_of lockWrapperSummaries_of publishedHelpers resolved
        contexts (if sel_recursiveLockIds selection
          then collectRecursiveLockIds (um_lockGlobals module) (um_lockCalls module) else ∅)
        (tc_sequencedEntryPairs taskConcurrency_of) (programFacts resolved lifecycles)))
  end.
End build.
