(* ===== verification/UnitFactsProps.v ===== *)
(** Building only the facts the selected rules read changes no finding of theirs: the
    gates of the builder keep every fact a selected rule reads, and everything it is
    built from. *)

From S2P Require Import Prelude Text Diagnostics Facts LockIds FactQueries DataRace LockOrder MissingJoin Checkers.
From S2P Require Import ReportBuilder ProgramIndex SingleTU CallGraph CallCycles Rounds KeyIndex Kept Lifecycles.
From S2P Require Import LockEffects LockScope LockPropagation LockPropagationProps LockOrderCollector LockOrderFacts AccessFacts.
From S2P Require Import SyncEffects LockWrappers LockWrappersProps Paths WaitFacts UnitFacts DataRaceProps LockOrderProps MissingJoinProps.

(** ** Selections *)

Abbreviation joined rules := (foldl (λ s rule, join_selection s (rule_selection rule)) no_selection rules).

Definition joins (flag : FactSelection → bool) : Prop :=
  (∀ a b, flag (join_selection a b) = flag a || flag b) ∧ flag no_selection = false.

Lemma flag_of_rule flag rules rule :
  joins flag → rule ∈ rules → flag (rule_selection rule) = true → flag (joined rules) = true.
Proof.
  intros [Hj _] Hr Hf. rewrite (fold_selection_flag flag rules no_selection Hj).
  apply orb_true_iff. right. apply existsb_elem. eauto.
Qed.

Lemma implied_flag a b rules :
  joins a → joins b → (∀ rule, a (rule_selection rule) = true → b (rule_selection rule) = true) →
  a (joined rules) = true → b (joined rules) = true.
Proof.
  intros [Ha Ha0] Hb Himp. rewrite (fold_selection_flag a rules no_selection Ha), Ha0. cbn [orb].
  intros (rule & Hr & Hf)%existsb_elem. eapply flag_of_rule; [done|done|auto].
Qed.

(** What a fact is built from is selected with it. *)
Record coherent (projectAnalysis : bool) (s : FactSelection) : Prop := {
  ch_accesses : sel_accesses s = true → sel_threadEntries s = true;
  ch_lockOrders : sel_lockOrders s = true → sel_threadEntries s = true;
  ch_weak : sel_weakPublications s = true → sel_accesses s = true;
  ch_joins : readsCompletions s = true → ch_helperJoins (sel_channels s) = projectAnalysis;
}.

(** Setting [a] sets [b], in every case of the switch. *)
Ltac sets_too a b H := revert H; by apply (implied_flag a b); [split|split|intros []].

Lemma forRules_coherent rules projectAnalysis : coherent projectAnalysis (forRules rules projectAnalysis).
Proof.
  assert (∀ flag, flag ∈ [sel_accesses; sel_lockOrders; sel_threadEntries; sel_threadLifecycles;
      sel_threadArgumentEscapes; sel_threadArgumentFrees; sel_expiredThreadLocals;
      (λ s, ch_entryConcurrency (sel_channels s)); (λ s, ch_resolvedHandles (sel_channels s))] →
    flag (joined rules) = true → ch_helperJoins (sel_channels (joined rules)) = true) as Hjoins.
  { intros flag Hin. apply (implied_flag flag (λ s, ch_helperJoins (sel_channels s)));
      repeat (apply elem_of_cons in Hin as [->|Hin]; [first [by split|by intros []]|]); by apply elem_of_nil in Hin. }
  split; unfold forRules, readsCompletions, sel_taskConcurrency; destruct projectAnalysis; cbn; intros H.
  - apply orb_true_iff. left. sets_too sel_accesses sel_threadEntries H.
  - sets_too sel_accesses sel_threadEntries H.
  - apply orb_true_iff. left. sets_too sel_lockOrders sel_threadEntries H.
  - sets_too sel_lockOrders sel_threadEntries H.
  - sets_too sel_weakPublications sel_accesses H.
  - sets_too sel_weakPublications sel_accesses H.
  - rewrite !orb_true_iff in H.
    repeat (destruct H as [H|H]); revert H;
      [apply (Hjoins sel_threadEntries)|apply (Hjoins (λ s, ch_entryConcurrency (sel_channels s)))
      |apply (Hjoins sel_accesses)|apply (Hjoins sel_lockOrders)|apply (Hjoins sel_threadLifecycles)
      |apply (Hjoins (λ s, ch_resolvedHandles (sel_channels s)))|apply (Hjoins sel_threadArgumentEscapes)
      |apply (Hjoins sel_threadArgumentFrees)|apply (Hjoins sel_expiredThreadLocals)]; set_solver.
  - done.
Qed.

(** ** What two selections build alike *)

Section agree.
Context `{Hash : !HashOrder, Address : !AddressOrder, Sort : !StdSort} {Completions : Type} (module : UnitModule Completions).
Context (program : option ProgramSymbolIndex) (s t : FactSelection).
Hypothesis coherent_s : coherent (crossTU program) s.
Hypothesis coherent_t : coherent (crossTU program) t.

Abbreviation both flag := (flag s = true ∧ flag t = true).

Lemma completions_agree :
  both readsCompletions → completions_of module s program = completions_of module t program.
Proof.
  intros [Hs Ht]. unfold completions_of, joiningHelpers_of. rewrite Hs, Ht.
  by rewrite (ch_joins _ _ coherent_s Hs), (ch_joins _ _ coherent_t Ht).
Qed.

Lemma entries_select flag : flag = sel_threadEntries → both flag →
  both sel_directCallSites ∧ both sel_spawns ∧ both sel_taskConcurrency ∧ both readsCompletions.
Proof.
  intros -> [Hs Ht]. unfold sel_directCallSites, sel_spawns, readsCompletions, sel_taskConcurrency.
  rewrite Hs, Ht, !orb_true_r. done.
Qed.

(** Thread entries are built from the spawns, the calls, the completions and the tasks. *)
Lemma thread_entries_agree :
  both sel_threadEntries →
  directCallSites_of module s = directCallSites_of module t ∧
  spawnFacts module s program = spawnFacts module t program ∧
  taskConcurrency_of module s program = taskConcurrency_of module t program ∧
  entryConcurrency_of module s program = entryConcurrency_of module t program ∧
  threadContexts_of module s program = threadContexts_of module t program.
Proof.
  intros Hboth. destruct (entries_select _ eq_refl Hboth) as ([C1 C2] & [S1 S2] & [T1 T2] & HR).
  pose proof (completions_agree HR) as Hc. destruct Hboth as [Hs Ht].
  assert (directCallSites_of module s = directCallSites_of module t) as Hsites.
  { unfold directCallSites_of. by rewrite C1, C2. }
  assert (taskConcurrency_of module s program = taskConcurrency_of module t program) as Htasks.
  { unfold taskConcurrency_of. by rewrite T1, T2, Hc, Hsites. }
  assert (spawnFacts module s program = spawnFacts module t program) as Hspawns.
  { unfold spawnFacts. by rewrite S1, S2, Hsites. }
  assert (entryConcurrency_of module s program = entryConcurrency_of module t program) as Hentries.
  { unfold entryConcurrency_of. by rewrite Hs, Ht, Htasks, Hspawns. }
  split_and!; [done..|]. unfold threadContexts_of. by rewrite Hs, Ht, Hentries, Hsites.
Qed.

(** The lock state is built from the summaries and the shared objects. *)
Lemma lock_state_agree :
  both sel_threadEntries → both sel_lockState → both sel_lockWrapperSummaries →
  lockWrapperSummaries_of module s program = lockWrapperSummaries_of module t program ∧
  sharedObjects_of module s program = sharedObjects_of module t program ∧
  lockPropagation_of module s program = lockPropagation_of module t program.
Proof.
  intros (Hsites & Hspawns & _)%thread_entries_agree [L1 L2] [W1 W2].
  assert (lockWrapperSummaries_of module s program = lockWrapperSummaries_of module t program) as Hw.
  { unfold lockWrapperSummaries_of. by rewrite W1, W2. }
  assert (sharedObjects_of module s program = sharedObjects_of module t program) as Ho.
  { unfold sharedObjects_of. by rewrite L1, L2, Hspawns, Hsites. }
  split_and!; [done|done|]. unfold lockPropagation_of. by rewrite L1, L2, Hw, Ho, Hsites.
Qed.

Lemma accesses_agree fuel :
  both sel_accesses →
  unitAccesses module s program fuel = unitAccesses module t program fuel ∧
  publications_of module s program = publications_of module t program.
Proof.
  intros [Hs Ht].
  assert (both sel_threadEntries) as HE by (split; [by apply (ch_accesses _ _ coherent_s)|by apply (ch_accesses _ _ coherent_t)]).
  destruct (thread_entries_agree HE) as (Hsites & Hspawns & Htasks & Hentries & _).
  destruct (entries_select _ eq_refl HE) as (_ & _ & _ & Hcomp%completions_agree).
  destruct (lock_state_agree HE) as (Hw & Ho & Hp).
  { unfold sel_lockState. by rewrite Hs, Ht. }
  { unfold sel_lockWrapperSummaries. by rewrite Hs, Ht. }
  assert (pendingAccesses_of module s program = pendingAccesses_of module t program) as Hpending.
  { unfold pendingAccesses_of, sharedObjectIds_of, localObjectIds_of. by rewrite Hs, Ht, Ho. }
  assert (publications_of module s program = publications_of module t program) as Hpub.
  { unfold publications_of. by rewrite Hpending, Hspawns, Hsites. }
  split; [|done]. unfold unitAccesses, sharedObjectIds_of, localObjectIds_of.
  by rewrite Hs, Ht, Ho, Hp, Htasks, Hcomp, Hpub, Hw, Hentries, Hsites, Hpending.
Qed.

Lemma lock_orders_agree fuel :
  both sel_lockOrders → lockOrderFacts_of module s program fuel = lockOrderFacts_of module t program fuel.
Proof.
  intros [Hs Ht].
  assert (both sel_threadEntries) as HE by (split; [by apply (ch_lockOrders _ _ coherent_s)|by apply (ch_lockOrders _ _ coherent_t)]).
  destruct (thread_entries_agree HE) as (Hsites & _ & Htasks & Hentries & _).
  destruct (lock_state_agree HE) as (Hw & Ho & Hp).
  { unfold sel_lockState. rewrite Hs, Ht. split; apply orb_true_r. }
  { unfold sel_lockWrapperSummaries. rewrite Hs, Ht, !orb_true_r. done. }
  unfold lockOrderFacts_of. by rewrite Hs, Ht, Ho, Hp, Htasks, Hw, Hentries, Hsites.
Qed.

Lemma sites_agree : both sel_directCallSites → directCallSites_of module s = directCallSites_of module t.
Proof. intros [Hs Ht]. unfold directCallSites_of. by rewrite Hs, Ht. Qed.

Lemma lifecycles_agree fuel :
  both sel_threadLifecycles → lifecyclesCollected module s program fuel = lifecyclesCollected module t program fuel.
Proof.
  intros [Hs Ht]. unfold lifecyclesCollected. rewrite Hs, Ht. rewrite sites_agree, completions_agree; [done|..].
  - unfold readsCompletions. rewrite Hs, Ht, !orb_true_r. done.
  - unfold sel_directCallSites. rewrite Hs, Ht, !orb_true_r. done.
Qed.

Lemma processes_agree : both sel_processLifecycle → processes_of module s program = processes_of module t program.
Proof.
  intros [Hs Ht]. unfold processes_of, spawnFacts, sel_spawns. rewrite Hs, Ht, !orb_true_r. rewrite sites_agree; [done|].
  unfold sel_directCallSites. rewrite Hs, Ht, !orb_true_r. done.
Qed.

Lemma waits_agree : both sel_conditionWaits → waits_of module s = waits_of module t.
Proof.
  intros [Hs Ht]. unfold waits_of. rewrite Hs, Ht. rewrite sites_agree; [done|].
  unfold sel_directCallSites. rewrite Hs, Ht, !orb_true_r. done.
Qed.
End agree.

(** ** What each checker reads *)

(** The fields read are the same: the two sides compute to the same term. *)
Ltac same_fields := match goal with |- ?lhs = _ => exact_no_check (eq_refl lhs) end.

Lemma data_race_reads f f' :
  accesses f = accesses f' → entryConcurrency f = entryConcurrency f' →
  reachableThreadEntriesByFunction f = reachableThreadEntriesByFunction f' →
  sequencedEntryPairs f = sequencedEntryPairs f' → DataRaceChecker_run f = DataRaceChecker_run f'.
Proof. destruct f, f'. cbn. intros -> -> -> ->. same_fields. Qed.

Lemma lock_order_reads f f' :
  lockOrders f = lockOrders f' → entryConcurrency f = entryConcurrency f' →
  reachableThreadEntriesByFunction f = reachableThreadEntriesByFunction f' →
  sequencedEntryPairs f = sequencedEntryPairs f' → recursiveLockIds f = recursiveLockIds f' →
  LockOrderAnalyzer_run f = LockOrderAnalyzer_run f'.
Proof. destruct f, f'. cbn. intros -> -> -> -> ->. same_fields. Qed.

Lemma missing_join_reads f f' :
  threadLifecycles f = threadLifecycles f' → MissingJoinDetector_run f = MissingJoinDetector_run f'.
Proof. destruct f, f'. cbn. intros ->. same_fields. Qed.

Lemma condition_wait_reads f f' :
  conditionWaits f = conditionWaits f' → ConditionWaitChecker_run f = ConditionWaitChecker_run f'.
Proof. destruct f, f'. cbn. intros ->. same_fields. Qed.

Lemma publication_reads f f' :
  weakPublications f = weakPublications f' → entryConcurrency f = entryConcurrency f' →
  reachableThreadEntriesByFunction f = reachableThreadEntriesByFunction f' →
  sequencedEntryPairs f = sequencedEntryPairs f' →
  PublicationOrderingChecker_run f = PublicationOrderingChecker_run f'.
Proof. destruct f, f'. cbn. intros -> -> -> ->. same_fields. Qed.

(** ** The facts a selection asks for *)

Record serves (s : FactSelection) (facts full : TUFacts) : Prop := {
  sv_accesses : sel_accesses s = true → accesses facts = accesses full;
  sv_lockOrders : sel_lockOrders s = true → lockOrders facts = lockOrders full;
  sv_entries : sel_threadEntries s = true → entryConcurrency facts = entryConcurrency full ∧
    reachableThreadEntriesByFunction facts = reachableThreadEntriesByFunction full ∧
    sequencedEntryPairs facts = sequencedEntryPairs full;
  sv_recursive : sel_recursiveLockIds s = true → recursiveLockIds facts = recursiveLockIds full;
  sv_lifecycles : sel_threadLifecycles s = true → threadLifecycles facts = threadLifecycles full;
  sv_waits : sel_conditionWaits s = true → conditionWaits facts = conditionWaits full;
  sv_processes : sel_processLifecycle s = true → processForks facts = processForks full ∧
    reapsChildProcesses facts = reapsChildProcesses full ∧ programCreatesThreads facts = programCreatesThreads full;
  sv_escapes : sel_threadArgumentEscapes s = true → threadArgumentEscapes facts = threadArgumentEscapes full;
  sv_frees : sel_threadArgumentFrees s = true → threadArgumentFrees facts = threadArgumentFrees full;
  sv_expired : sel_expiredThreadLocals s = true → expiredThreadLocals facts = expiredThreadLocals full;
  sv_handlers : sel_signalHandlers s = true → signalHandlers facts = signalHandlers full;
  sv_weak : sel_weakPublications s = true → weakPublications facts = weakPublications full;
}.

(** A stage that a flag gates, and that two selections with the flag run alike. *)
Lemma stage_serves {A} (s t : FactSelection) (flag : FactSelection → bool) (stage : FactSelection → option A)
    (nothing x : A) :
  (flag s = false → stage s = Some nothing) → (flag s = true → stage s = stage t) → stage t = Some x →
  ∃ y, stage s = Some y ∧ (flag s = true → y = x) ∧ (y = x ∨ y = nothing).
Proof.
  intros Hno Hyes Ht. destruct (flag s) eqn:E; [exists x|exists nothing].
  - rewrite Hyes by done. auto.
  - rewrite Hno by done. split_and!; [done|done|by right].
Qed.

(** The flags that gate what checkers read. *)
Definition checker_flags : list (FactSelection → bool) :=
  [sel_accesses; sel_lockOrders; sel_recursiveLockIds; sel_threadLifecycles; sel_conditionWaits;
   sel_processLifecycle; sel_threadArgumentEscapes; sel_threadArgumentFrees; sel_expiredThreadLocals;
   sel_signalHandlers; sel_weakPublications; sel_threadEntries].

Section serve.
Context `{Hash : !HashOrder, Address : !AddressOrder, Sort : !StdSort} {Completions : Type} (module : UnitModule Completions).
Context (program : option ProgramSymbolIndex) (s t : FactSelection) (fuel : nat).
Hypothesis coherent_s : coherent (crossTU program) s.
Hypothesis coherent_t : coherent (crossTU program) t.
Hypothesis selected_t : ∀ flag, flag ∈ checker_flags → flag t = true.

Lemma both_selected flag : flag ∈ checker_flags → flag s = true → flag s = true ∧ flag t = true.
Proof. intros Hin Hs. split; [done|by apply selected_t]. Qed.

Ltac both := apply both_selected; [unfold checker_flags; set_solver|done].

(** Every stage that everything goes through, a part goes through or skips. *)
Lemma stages_serve contexts collected processes waits orders accs :
  threadContexts_of module t program = Some contexts →
  lifecyclesCollected module t program fuel = Some (inl collected) →
  processes_of module t program = Some processes → waits_of module t = Some waits →
  lockOrderFacts_of module t program fuel = Some orders → unitAccesses module t program fuel = Some accs →
  ∃ contexts' collected' processes' waits' orders' accs',
    threadContexts_of module s program = Some contexts' ∧
    lifecyclesCollected module s program fuel = Some (inl collected') ∧
    processes_of module s program = Some processes' ∧ waits_of module s = Some waits' ∧
    lockOrderFacts_of module s program fuel = Some orders' ∧ unitAccesses module s program fuel = Some accs' ∧
    (sel_threadEntries s = true → contexts' = contexts) ∧
    (sel_threadLifecycles s = true → collected' = collected) ∧
    (sel_processLifecycle s = true → processes' = processes) ∧ (sel_conditionWaits s = true → waits' = waits) ∧
    (sel_lockOrders s = true → orders' = orders) ∧ (sel_accesses s = true → accs' = accs).
Proof.
  intros Ec El Ep Ew Eo Ea.
  destruct (stage_serves s t sel_threadEntries (λ s, threadContexts_of module s program) ∅ contexts)
    as (contexts' & E0 & Hc & _); [by unfold threadContexts_of; intros ->|intros; apply thread_entries_agree; auto; both|done|].
  destruct (stage_serves s t sel_threadLifecycles (λ s, lifecyclesCollected module s program fuel) (inl []) (inl collected))
    as (collected' & E1 & Hl & Hl'); [by unfold lifecyclesCollected; intros ->|intros; apply lifecycles_agree; auto; both|done|].
  destruct (stage_serves s t sel_processLifecycle (λ s, processes_of module s program) ([], false, false) processes)
    as (processes' & E2 & Hp & _); [by unfold processes_of; intros ->|intros; apply processes_agree; both|done|].
  destruct (stage_serves s t sel_conditionWaits (λ s, waits_of module s) [] waits)
    as (waits' & E3 & Hw & _); [by unfold waits_of; intros ->|intros; apply waits_agree; both|done|].
  destruct (stage_serves s t sel_lockOrders (λ s, lockOrderFacts_of module s program fuel) [] orders)
    as (orders' & E4 & Ho & _); [by unfold lockOrderFacts_of; intros ->|intros; apply lock_orders_agree; auto; both|done|].
  destruct (stage_serves s t sel_accesses (λ s, unitAccesses module s program fuel) [] accs)
    as (accs' & E5 & Ha & _); [by unfold unitAccesses; intros ->|intros; apply accesses_agree; auto; both|done|].
  destruct collected' as [collected'|]; [|by destruct Hl'].
  exists contexts', collected', processes', waits', orders', accs'. split_and!; try done.
  intros H'. specialize (Hl H'). by injection Hl.
Qed.

Lemma lifetimes_agree flag :
  flag ∈ [sel_threadArgumentEscapes; sel_threadArgumentFrees; sel_expiredThreadLocals] → flag s = true →
  completions_of module s program = completions_of module t program.
Proof.
  intros Hin Hf. apply completions_agree; [done|done|]. unfold readsCompletions.
  assert (flag t = true) as Hft by (apply selected_t; unfold checker_flags; set_solver).
  repeat (apply elem_of_cons in Hin as [->|Hin]; [rewrite Hf, Hft, !orb_true_r; done|]). by apply elem_of_nil in Hin.
Qed.

(** Building everything succeeds only if building a part does, with the same facts. *)
Lemma build_serves full :
  build module t program fuel = Some (inl full) →
  ∃ facts, build module s program fuel = Some (inl facts) ∧ serves s facts full.
Proof.
  unfold build at 1.
  destruct (threadContexts_of module t program) as [contexts|] eqn:Ec; cbn [mbind option_bind]; [|done].
  destruct (lifecyclesCollected module t program fuel) as [[collected|]|] eqn:El; cbn [mbind option_bind]; [|done|done].
  destruct (processes_of module t program) as [processes|] eqn:Ep; cbn [mbind option_bind]; [|done].
  destruct (waits_of module t) as [waits|] eqn:Ew; cbn [mbind option_bind]; [|done].
  destruct (lockOrderFacts_of module t program fuel) as [orders|] eqn:Eo; cbn [mbind option_bind]; [|done].
  destruct (unitAccesses module t program fuel) as [accs|] eqn:Ea; cbn [mbind option_bind]; [|done].
  intros [= <-]. unfold build.
  destruct (stages_serve _ _ _ _ _ _ Ec El Ep Ew Eo Ea) as (contexts' & collected' & processes' & waits' & orders' & accs' &
    -> & -> & -> & -> & -> & -> & Hc & Hl & Hp & Hw & Ho & Ha).
  cbn [mbind option_bind]. eexists. split; [done|].
  split; cbn; intros Hf.
  - by apply Ha.
  - by apply Ho.
  - destruct (thread_entries_agree module program s t coherent_s coherent_t) as (_ & _ & Et & Ee & _); [both|].
    split_and!; [done|by apply Hc|by rewrite Et].
  - rewrite Hf, (selected_t sel_recursiveLockIds) by (unfold checker_flags; set_solver). done.
  - by rewrite Hl.
  - by apply Hw.
  - by rewrite Hp.
  - rewrite Hf, (selected_t sel_threadArgumentEscapes), (lifetimes_agree sel_threadArgumentEscapes) by
      (done || unfold checker_flags; set_solver). done.
  - rewrite Hf, (selected_t sel_threadArgumentFrees), (lifetimes_agree sel_threadArgumentFrees) by
      (done || unfold checker_flags; set_solver). done.
  - rewrite Hf, (selected_t sel_expiredThreadLocals), (lifetimes_agree sel_expiredThreadLocals) by
      (done || unfold checker_flags; set_solver). done.
  - rewrite Hf, (selected_t sel_signalHandlers) by (unfold checker_flags; set_solver).
    rewrite (sites_agree module s t); [done|]. unfold sel_directCallSites.
    rewrite Hf, (selected_t sel_signalHandlers), !orb_true_r by (unfold checker_flags; set_solver). done.
  - pose proof (ch_weak _ _ coherent_s Hf) as Hacc.
    destruct (accesses_agree module program s t coherent_s coherent_t fuel) as [_ Epub]; [both|].
    rewrite Hf, Hacc, (selected_t sel_accesses), (selected_t sel_weakPublications), Epub by
      (unfold checker_flags; set_solver). done.
Qed.
End serve.

(** ** The findings of selected rules *)

(** The flags a selected rule sets stay set. *)
Lemma selected_flag options projectAnalysis rule flag :
  flag ∈ checker_flags → isEnabled options rule = true → flag (rule_selection rule) = true →
  flag (forRules (enabledRules options) projectAnalysis) = true.
Proof.
  intros Hin Hr%isEnabled_spec Hf. unfold checker_flags in Hin.
  repeat (apply elem_of_cons in Hin as [->|Hin];
    [eapply flag_of_rule in Hf; [|by split|exact Hr]; unfold forRules; destruct projectAnalysis; cbn;
     by rewrite ?Hf|]).
  by apply elem_of_nil in Hin.
Qed.

Definition of_rules (rules : list RuleId) (ds : list Diagnostic) : Prop := ∀ d, d ∈ ds → diag_ruleId d ∈ rules.

(** Findings of some rules, the same when one of the rules is selected. *)
Lemma findings_agree options rules ds ds' :
  of_rules rules ds → of_rules rules ds' → (∀ rule, rule ∈ rules → isEnabled options rule = true → ds = ds') →
  enabledOnly options ds = enabledOnly options ds'.
Proof.
  intros H1 H2 Heq. destruct (existsb (isEnabled options) rules) eqn:E.
  - apply existsb_elem in E as (rule & Hin & He). by rewrite (Heq rule).
  - assert (∀ ds, of_rules rules ds → enabledOnly options ds = []) as Hnone.
    { intros l Hl. apply elem_of_nil_inv. intros d Hd.
      apply list_elem_of_In, List.filter_In in Hd as [Hd He]. rewrite <-list_elem_of_In in Hd.
      assert (existsb (isEnabled options) rules = true) by (apply existsb_elem; eauto). congruence. }
    by rewrite !Hnone.
Qed.

Lemma of_one_rule rule ds : of_rule rule ds → of_rules [rule] ds.
Proof. intros H d Hd. apply list_elem_of_singleton. by apply H. Qed.

Lemma findings_agree_rule options rule ds ds' :
  of_rule rule ds → of_rule rule ds' → (isEnabled options rule = true → ds = ds') →
  enabledOnly options ds = enabledOnly options ds'.
Proof.
  intros H1%of_one_rule H2%of_one_rule Heq. apply (findings_agree options [rule]); [done..|].
  by intros r ->%list_elem_of_singleton.
Qed.

Lemma findings_agree_fmap {A} options rule (f : A → Diagnostic) l l' :
  (∀ a, diag_ruleId (f a) = rule) → (isEnabled options rule = true → l = l') →
  enabledOnly options (f <$> l) = enabledOnly options (f <$> l').
Proof.
  intros Hf Heq. apply (findings_agree_rule options rule); [by intros d (a & -> & _)%list_elem_of_fmap..|].
  intros He. by rewrite Heq.
Qed.

Definition forkRules : list RuleId := [RuleId_ForkAfterThreadCreation; RuleId_UnreapedChildProcess].

Lemma fork_rules facts : of_rules forkRules (processForks facts ≫= forkDiagnostics facts).
Proof.
  intros d (f & Hd & _)%list_elem_of_bind. unfold forkDiagnostics in Hd.
  destruct (fork_execReachable f); [by apply elem_of_nil in Hd|].
  apply elem_of_app in Hd as [Hd|Hd]; case_match;
    (apply list_elem_of_singleton in Hd as -> || by apply elem_of_nil in Hd); unfold forkRules; set_solver.
Qed.

Section findings.
Context (options : AnalysisOptions) (projectAnalysis : bool) (facts full : TUFacts).
Hypothesis served : serves (forRules (enabledRules options) projectAnalysis) facts full.

(** A flag of [served] is set by the rule that is selected. *)
Ltac selected := eapply selected_flag; [unfold checker_flags; set_solver|eassumption|done].

Lemma entries_served rule :
  isEnabled options rule = true → sel_threadEntries (rule_selection rule) = true →
  entryConcurrency facts = entryConcurrency full ∧
  reachableThreadEntriesByFunction facts = reachableThreadEntriesByFunction full ∧
  sequencedEntryPairs facts = sequencedEntryPairs full.
Proof. intros He Hf. apply (sv_entries _ _ _ served). selected. Qed.

Lemma process_findings_agree :
  enabledOnly options (rep_diagnostics (ProcessLifecycleChecker_run facts)) =
  enabledOnly options (rep_diagnostics (ProcessLifecycleChecker_run full)).
Proof.
  rewrite !process_diagnostics, !List.filter_app.
  rewrite (findings_agree options forkRules _ _ (fork_rules facts) (fork_rules full)).
  2: { intros rule Hin He. unfold forkRules in Hin.
       destruct (sv_processes _ _ _ served) as (-> & Hr & Hc).
       { repeat (apply elem_of_cons in Hin as [->|Hin]; [selected|]). by apply elem_of_nil in Hin. }
       unfold forkDiagnostics. by rewrite Hr, Hc. }
  f_equal. f_equal; [|f_equal; [|f_equal]].
  - apply (findings_agree_fmap _ _ _ _ _ argumentEscape_rule). intros He. apply (sv_escapes _ _ _ served). selected.
  - apply (findings_agree_fmap _ _ _ _ _ argumentFree_rule). intros He. apply (sv_frees _ _ _ served). selected.
  - apply (findings_agree_fmap _ RuleId_ThreadLocalOutlivesThread); [done|]. intros He.
    apply (sv_expired _ _ _ served). selected.
  - apply (findings_agree_fmap _ RuleId_UnsafeSignalHandler); [done|]. intros He.
    apply (sv_handlers _ _ _ served). selected.
Qed.

Lemma all_findings_agree : enabledOnly options (allFindings facts) = enabledOnly options (allFindings full).
Proof.
  unfold allFindings. rewrite !List.filter_app, process_findings_agree.
  destruct (run_spec facts) as (lo & _ & Hlo & _), (run_spec full) as (lo' & _ & Hlo' & _).
  destruct (run_missing_join_spec facts) as (mj & Hmj & _), (run_missing_join_spec full) as (mj' & Hmj' & _).
  rewrite (findings_agree_rule options _ _ _ (data_race_rule facts) (data_race_rule full)).
  2: { intros He. destruct (entries_served _ He eq_refl) as (? & ? & ?).
       rewrite (data_race_reads facts full); try done. apply (sv_accesses _ _ _ served). selected. }
  rewrite Hlo, Hlo', Hmj, Hmj'. simpl default.
  rewrite (findings_agree_rule options _ _ _ (lock_order_rule _ _ Hlo) (lock_order_rule _ _ Hlo')).
  2: { intros He. destruct (entries_served _ He eq_refl) as (? & ? & ?).
       rewrite (lock_order_reads facts full) in Hlo; [congruence|..]; try done.
       - apply (sv_lockOrders _ _ _ served). selected.
       - apply (sv_recursive _ _ _ served). selected. }
  rewrite (findings_agree_rule options _ _ _ (missing_join_rule _ _ Hmj) (missing_join_rule _ _ Hmj')).
  2: { intros He. rewrite (missing_join_reads facts full) in Hmj; [congruence|].
       apply (sv_lifecycles _ _ _ served). selected. }
  rewrite (findings_agree_rule options _ _ _ (condition_wait_rule facts) (condition_wait_rule full)).
  2: { intros He. rewrite (condition_wait_reads facts full); [done|]. apply (sv_waits _ _ _ served). selected. }
  rewrite (findings_agree_rule options _ _ _ (publication_rule facts) (publication_rule full)); [done|].
  intros He. destruct (entries_served _ He eq_refl) as (? & ? & ?).
  rewrite (publication_reads facts full); try done. apply (sv_weak _ _ _ served). selected.
Qed.
End findings.

Lemma everything_selected projectAnalysis flag :
  flag ∈ checker_flags → flag (forRules (enabledRules allAvailable) projectAnalysis) = true.
Proof.
  intros Hin. unfold checker_flags in Hin.
  repeat (apply elem_of_cons in Hin as [->|Hin]; [by destruct projectAnalysis|]). by apply elem_of_nil in Hin.
Qed.

(** ** Properties *)

(** C21: building only the facts the selected rules ask for loses no finding of theirs.
    When the facts of every rule are built of a unit, alone or with what the rest of the
    program says, so are the facts of any selection of rules, and the findings of a
    run of the selected checkers on the latter are exactly the findings of the selected
    rules in a full run on the former, in the same order. *)
Theorem selected_facts_suffice `{Hash : !HashOrder, Address : !AddressOrder, Sort : !StdSort} {Completions}
    (module : UnitModule Completions) program options fuel full report :
  build module (forRules (enabledRules allAvailable) (crossTU program)) program fuel = Some (inl full) →
  runCheckers allAvailable full = Some report →
  ∃ facts selected,
    build module (forRules (enabledRules options) (crossTU program)) program fuel = Some (inl facts) ∧
    runCheckers options facts = Some selected ∧
    rep_diagnostics selected = enabledOnly options (rep_diagnostics report).
Proof.
  intros Hb Hr.
  destruct (build_serves module program (forRules (enabledRules options) (crossTU program)) _ fuel
    (forRules_coherent _ _) (forRules_coherent _ _) (everything_selected _) full Hb) as (facts & Hb' & Hs).
  destruct (runCheckers_total options facts) as (selected & Hr').
  exists facts, selected. split_and!; [done|done|].
  rewrite (runCheckers_findings _ _ _ Hr), (runCheckers_findings _ _ _ Hr'), filter_all_available.
  by apply (all_findings_agree options (crossTU program)).
Qed.

(** ** A unit *)

(** [main] starts [worker] on line 3, which nothing joins, both write [counter], and [main]
    then calls [report]. *)
Definition counter_place (line : N) : SourceLocation := MkSourceLocation "unit.c" line 1 line 1 "".
Definition counter_write (instruction : nat) (function : string) (line : N) : PendingAccess :=
  MkPending instruction (RootBinding_global "counter" (MkRegion true 0 4 ElementOwner_None ""))
    (MkAccess "counter" (MkRegion true 0 4 ElementOwner_None "") function AccessKind_Write AliasProvenance_Direct
       (counter_place line) (counter_place line) false false false false false false ∅ ∅ false "" ∅ ∅ ∅) false None.
Definition counter_functions : list Function :=
  [one_block "main" [MkInstruction 11 false; MkInstruction 12 true] (λ _, []);
   one_block "worker" [MkInstruction 10 false] (λ _, [])].
Definition counter_module : UnitModule unit :=
  MkUnitModule "x86_64-linux-gnu" "e-m:e" "unit.c" [] [MkModuleFunction "main" "main" false; MkModuleFunction "worker" "worker" false]
    [MkModuleGlobal "counter" false true] [] (λ _, None) (λ _, None)
    [MkDirectCallSite (Some 12) "main" "report" (counter_place 5) (counter_place 5) false]
    (λ _ _, ([MkSpawn "worker" (counter_place 3) false], {["worker" := MkEntryConcurrency 1 false]}))
    [] (λ _ _, []) (λ _ _ _, ∅) (λ _ _ _, [counter_write 10 "worker" 8; counter_write 11 "main" 4])
    (λ _ _, counter_functions) (λ helpers, helpers) (λ _, tt) tt
    (λ _ _ _, MkTaskConcurrency {["main"]} {[11 := {["worker"]}]} ∅ ∅ ∅ ∅) []
    (λ _, [MkLifecycle ThreadHandleKind_PThread ThreadLifecycleAction_Create "local:t" None "main" (counter_place 3)
             false false false false])
    (λ _, MkLifetimes [] [] []) (λ _, []) (MkProcesses [] false ∅) [] [] [] (λ _ _ _ _, MkPublications ∅ [])
    (λ _ _ _ _ _ _, []) (λ _, false) (λ _, []) (λ _ _, []) (λ _ _ _ _, MkCall [] [])
    (λ _, None) (λ _ _ _ _ _, false) (λ _ _ _ _ _ _, false) (λ _, None).

Definition counter_full : TUFacts :=
  match @build sorted_hash_order map_address_order merge_std_sort _ counter_module (forRules (enabledRules allAvailable) false) None 10 with
  | Some (inl facts) => facts
  | _ => no_facts
  end.

Definition only_data_race : AnalysisOptions := MkOptions [RuleId_DataRaceGlobal] 0.

Lemma selected_facts_suffice_witness :
  (diag_ruleId <$> rep_diagnostics (default empty_report (runCheckers allAvailable counter_full))) =
    [RuleId_DataRaceGlobal; RuleId_MissingJoin] ∧
  ∃ facts selected,
    @build sorted_hash_order map_address_order merge_std_sort _ counter_module (forRules [RuleId_DataRaceGlobal] false) None 10
      = Some (inl facts) ∧
    runCheckers only_data_race facts = Some selected ∧
    rep_diagnostics selected = enabledOnly only_data_race
      (rep_diagnostics (default empty_report (runCheckers allAvailable counter_full))).
Proof.
  split; [vm_compute; reflexivity|].
  apply (@selected_facts_suffice sorted_hash_order map_address_order merge_std_sort unit counter_module None only_data_race 10 counter_full);
    vm_compute; reflexivity.
Defined.
