(* ===== verification/UnitFactsTotal.v ===== *)
(** The builder ends: every loop it goes through, one after the other, settles. *)

From S2P Require Import Prelude Text Diagnostics Facts LockIds FactQueries ProgramIndex CallGraph CallCycles Rounds KeyIndex Kept.
From S2P Require Import Lifecycles LifecyclesProps LockEffects LockScope LockScopeProps LockPropagation LockPropagationProps.
From S2P Require Import CallCyclesProps LockOrderCollector LockOrderFacts LockOrderFactsProps AccessFacts AccessFactsProps.
From S2P Require Import SyncEffects LockWrappers LockWrappersProps Paths WaitFacts WaitFactsProps UnitFacts UnitFactsProps.

(** ** The functions of the call graph *)

Definition siteFunctions (sites : list DirectCallSite) : gset string :=
  list_to_set ((dcs_callerFunctionId <$> sites) ++ (dcs_calleeFunctionId <$> sites)).

Lemma functionsOf_sites sites : functionsOf (calleesByCaller sites) ⊆ siteFunctions sites.
Proof.
  assert (∀ f g, calls (calleesByCaller sites) f g → f ∈ siteFunctions sites ∧ g ∈ siteFunctions sites) as Hcalls.
  { intros f g (site & Hs & <- & <-)%calleesByCaller_calls. unfold siteFunctions.
    split; apply elem_of_list_to_set, elem_of_app; [left|right]; by apply list_elem_of_fmap_2. }
  assert (∀ f l, calleesByCaller sites !! f = Some l → f ∈ siteFunctions sites) as Hdom.
  { unfold calleesByCaller, siteFunctions. clear Hcalls.
    induction sites as [|site l IH] using rev_ind; [by intros f l; cbn; rewrite lookup_empty|].
    intros f l'. rewrite foldl_snoc. unfold addCallee at 1. rewrite !fmap_app.
    destruct (decide (dcs_callerFunctionId site = f)) as [<-|Hne]; [set_solver|].
    rewrite lookup_insert_ne by done. intros Hf%IH. set_solver. }
  intros f. unfold functionsOf. rewrite elem_of_union. intros [[l Hl]%elem_of_dom|Hf]; [by eapply Hdom|].
  unfold allCallees in Hf. apply elem_of_list_to_set, list_elem_of_bind in Hf as (l & Hf & Hl).
  apply list_elem_of_fmap in Hl as ([g l'] & -> & Hl%elem_of_map_to_list).
  eapply (Hcalls g). unfold calls, calleesOf. by rewrite Hl.
Qed.

Lemma few_functions (sites sites' : list DirectCallSite) n :
  sites' ⊆ sites → (N.of_nat (size (siteFunctions sites)) ≤ n)%N →
  (N.of_nat (size (functionsOf (calleesByCaller sites'))) ≤ n)%N.
Proof.
  intros Hsub Hn. assert (functionsOf (calleesByCaller sites') ⊆ siteFunctions sites) as ?%subseteq_size; [|lia].
  rewrite functionsOf_sites. unfold siteFunctions.
  intros f. rewrite !elem_of_list_to_set, !elem_of_app, !list_elem_of_fmap. set_solver.
Qed.

(** ** Every stage ends *)

Section ends.
Context `{Hash : !HashOrder, Address : !AddressOrder, Sort : !StdSort} {Completions : Type}.
Context (module : UnitModule Completions) (selection : FactSelection) (program : option ProgramSymbolIndex).
Hypothesis few : (N.of_nat (size (siteFunctions (um_directCallSites module))) ≤ 2 ^ 32)%N.
(** Modules as LLVM makes them. *)
Hypothesis formed : ∀ summaries bindings, well_formed (um_lockFunctions module summaries bindings).
Hypothesis bodies : ∀ summaries bindings function,
  function ∈ um_lockFunctions module summaries bindings → fn_isDeclaration function = true → fn_blocks function = [].

Lemma few_selected sites' : sites' ⊆ directCallSites_of module selection →
  (N.of_nat (size (functionsOf (calleesByCaller sites'))) ≤ 2 ^ 32)%N.
Proof.
  intros Hsub. apply (few_functions (um_directCallSites module)); [|done]. etrans; [exact Hsub|].
  unfold directCallSites_of. case_match; set_solver.
Qed.

Lemma contexts_end : is_Some (threadContexts_of module selection program).
Proof.
  unfold threadContexts_of. case_match; [|done].
  destruct (thread_contexts_spec mc_argSize mc_registersExitDestructor mc_resolvesTo (um_calls module)
    (directCallSites_of module selection) (entryConcurrency_of module selection program)) as (reach & -> & _). done.
Qed.

Lemma held_ends summaries bindings function tracked :
  function ∈ um_lockFunctions module summaries bindings →
  is_Some (collectHeldLocks (fn_reachable function) (fn_effects function) tracked (fn_blocks function)).
Proof.
  intros Hin. destruct (fn_isDeclaration function) eqn:Ed.
  { rewrite (bodies _ _ _ Hin Ed). unfold collectHeldLocks. by case_bool_decide. }
  apply list_elem_of_lookup in Hin as Hn. destruct Hn as [n Hn].
  destruct (held_exact (fn_reachable function) (fn_effects function) tracked (fn_blocks function)) as (held & -> & _).
  - by apply (wf_reach _ (formed summaries bindings)).
  - intros b c k m i j Hi Hj E. by destruct (wf_unique _ (formed summaries bindings) n n function function b c k m i j).
  - done.
Qed.

Lemma held_by_access_ends summaries bindings pendings :
  is_Some (heldLocksByAccess_of module summaries bindings pendings).
Proof.
  unfold heldLocksByAccess_of. cbv zeta. induction (hash_items _) as [|item l IH] using rev_ind; [done|].
  rewrite foldl_snoc. destruct IH as [held ->]. cbn [mbind option_bind].
  destruct (List.find _ _) as [function|] eqn:E; [|done].
  apply List.find_some in E as [Hin _]. rewrite <-list_elem_of_In in Hin.
  by destruct (held_ends _ _ _ item.2 Hin) as [locks ->].
Qed.

Lemma propagation_ends : is_Some (lockPropagation_of module selection program).
Proof.
  unfold lockPropagation_of. case_match; [|done].
  destruct (lock_propagation_spec (um_lockFunctions module (lockWrapperSummaries_of module selection program)
    (sharedObjects_of module selection program).1) (directCallSites_of module selection) (formed _ _))
    as (result & -> & _). done.
Qed.

Lemma processes_end : is_Some (processes_of module selection program).
Proof.
  unfold processes_of. case_match; [|done].
  by destruct (functionsReachingExec_spec (directCallSites_of module selection)
    (pr_functionsReachingExec (um_processes module))) as (functions & -> & _).
Qed.

Lemma waits_end : is_Some (waits_of module selection).
Proof.
  unfold waits_of, conditionWaits_of. case_match; [|done].
  by destruct (unguardedByFunction_spec (directCallSites_of module selection) (um_conditionWaits module))
    as (unguarded & -> & _).
Qed.

Lemma orders_end : ∃ enough, ∀ fuel, enough ≤ fuel → is_Some (lockOrderFacts_of module selection program fuel).
Proof.
  unfold lockOrderFacts_of. case_match; [|by exists 0]. destruct propagation_ends as [propagation ->].
  cbn [mbind option_bind]. edestruct lock_orders_settle as (recursionCalls & enough & _ & H').
  { apply few_selected. intros site [Hs _]%list_elem_of_In%List.filter_In. by apply list_elem_of_In. }
  exists enough. intros fuel Hfuel. destruct (H' fuel Hfuel) as (st & -> & _). done.
Qed.

Lemma accesses_end : ∃ enough, ∀ fuel, enough ≤ fuel → is_Some (unitAccesses module selection program fuel).
Proof.
  unfold unitAccesses. case_match; [|by exists 0]. destruct propagation_ends as [propagation ->].
  cbn [mbind option_bind]. edestruct held_by_access_ends as [held ->]. cbn [mbind option_bind].
  edestruct accesses_settle as (callBindings & enough & _ & H').
  { by apply few_selected. }
  exists enough. intros fuel Hfuel. destruct (H' fuel Hfuel) as (st & c & -> & _). done.
Qed.

(** Calls without a cycle, where lifecycles are followed. *)
Hypothesis acyclic : sel_threadLifecycles selection = true → ∃ rank : string → nat,
  ∀ site, site ∈ um_directCallSites module → dcs_call site ≠ None →
    rank (dcs_calleeFunctionId site) < rank (dcs_callerFunctionId site).

Lemma lifecycles_end : ∃ enough, ∀ fuel, enough ≤ fuel → is_Some (lifecyclesCollected module selection program fuel).
Proof.
  unfold lifecyclesCollected. destruct (sel_threadLifecycles selection) eqn:E; [|by exists 0].
  destruct (acyclic eq_refl) as [rank Hrank]. eexists. intros fuel Hfuel.
  edestruct (collectLifecycles_ends (um_argumentGroups module) (directCallSites_of module selection)) as [outcome ->];
    [|exact Hfuel|by destruct outcome].
  unfold directCallSites_of. case_match; [done|]. by intros site ?%elem_of_nil.
Qed.
End ends.

(** ** Properties *)


(** ** Witness *)

Lemma counter_well_formed : well_formed counter_functions.
Proof.
  split.
  - intros function Hf _ b. unfold counter_functions in Hf. rewrite !elem_of_cons, elem_of_nil in Hf.
    destruct Hf as [->|[->|[]]]; apply one_block_reach.
  - intros n m fn fm b c k l i j Hn Hm Hi Hj E.
    destruct b as [|b]; [|by destruct n as [|[|n]]; simplify_eq/=; unfold instructionsOf in Hi].
    destruct c as [|c]; [|by destruct m as [|[|m]]; simplify_eq/=; unfold instructionsOf in Hj].
    destruct n as [|[|n]], m as [|[|m]]; simplify_eq/=; destruct k as [|[|k]], l as [|[|l]]; by simplify_eq/=.
Qed.

