(* ===== verification/CompDb.v ===== *)
(** The compilation database (src/internal/compilation_database.cpp): reading
    compile_commands.json, the arguments worth replaying, and one command per
    source.

    Reading a file, LLVM's JSON parser and its command-line tokenizer are
    parameters.  A function of the source that returns an empty optional and sets
    [error] returns the error here, on the right of a sum. *)

From S2P Require Import Prelude Text Json Paths CommandBuilder.


Record CompileCommand := MkCompileCommand {
  cmd_file : string;
  cmd_directory : string;
  cmd_arguments : list string;
}.

(** ** Options *)

Definition kSemanticOptionPrefixes : list string :=
  ["-I"; "-isystem"; "-D"; "-std="; "--sysroot"; "-f"; "-m"; "-include"].

Definition isOutputOrDependencyOption (argument : string) : bool :=
  bool_decide (argument ∈ ["-o"; "-c"; "-MD"; "-MMD"; "-MF"; "-MT"; "-MQ"; "-MP"]).

Definition takesSeparateValue (argument : string) : bool :=
  bool_decide (argument ∈ ["-o"; "-MF"; "-MT"; "-MQ"]).

Definition isSemanticOption (argument : string) : bool :=
  existsb (λ prefix, starts_with argument prefix) kSemanticOptionPrefixes.

Definition countSemanticOptions (arguments : list string) : nat :=
  length (filter (λ argument, isSemanticOption argument = true) arguments).

Definition absolutePath (file directory : string) : string :=
  lexically_normal (if is_absolute file then file else path_append directory file).

(** [argument.substr(2)]. *)
Definition after_two (argument : string) : string :=
  String.substring 2 (String.length argument - 2) argument.

Definition isOptimizationOption (argument : string) : bool :=
  if bool_decide (argument = "-flto") || starts_with argument "-flto=" then true
  else if negb (starts_with argument "-O") then false
  else
    let level := after_two argument in
    bool_decide (level = "") || bool_decide (level = "fast") ||
    match level with
    | String c "" => is_digit c || Ascii.eqb c "s" || Ascii.eqb c "z" || Ascii.eqb c "g"
    | _ => false
    end.

(** The body of the loop over the arguments after the compiler's name. *)
Fixpoint replayFrom (raw : list string) (file directory : string) : list string :=
  match raw with
  | [] => []
  | argument :: rest =>
      if isOutputOrDependencyOption argument then
        if takesSeparateValue argument
        then match rest with [] => [] | _ :: rest' => replayFrom rest' file directory end
        else replayFrom rest file directory
      else if starts_with argument "-o" && (2 <? String.length argument)
      then replayFrom rest file directory
      else if isOptimizationOption argument then replayFrom rest file directory
      else if path_eq (absolutePath argument directory) file then replayFrom rest file directory
      else argument :: replayFrom rest file directory
  end.

Definition replayableArguments (raw : list string) (file directory : string) : list string :=
  replayFrom (tail raw) file directory.

Section load.
Context (read_file : string → option string).
Context (parse_json : string → JsonValue + string).
Context (tokenize : string → list string).

Definition readArguments (entry : JsonValue) : list string + string :=
  match field "arguments" entry ≫= as_items with
  | Some arguments =>
      match mapM as_string arguments with
      | Some parsed => inl parsed
      | None => inr "compilation database: 'arguments' must hold strings"
      end
  | None =>
      match string_field "command" entry with
      | Some command => inl (tokenize command)
      | None => inr "compilation database: entry has neither 'arguments' nor 'command'"
      end
  end.

(** The part of the loop that reads one entry. *)
Definition readEntry (value : JsonValue) : CompileCommand + string :=
  match value with
  | JObject _ =>
      match string_field "file" value, string_field "directory" value with
      | Some file, Some directory =>
          raw ←! readArguments value;
          let directory := lexically_normal directory in
          let file := absolutePath file directory in
          inl (MkCompileCommand file directory (replayableArguments raw file directory))
      | _, _ => inr "compilation database: entry is missing 'file' or 'directory'"
      end
  | _ => inr "compilation database: entries must be objects"
  end.

Definition keepBest (best : gmap string CompileCommand) (command : CompileCommand)
  : gmap string CompileCommand :=
  match best !! cmd_file command with
  | None => <[cmd_file command := command]> best
  | Some existing =>
      if countSemanticOptions (cmd_arguments existing) <? countSemanticOptions (cmd_arguments command)
      then <[cmd_file command := command]> best else best
  end.

Fixpoint loadEntries (best : gmap string CompileCommand) (entries : list JsonValue)
  : gmap string CompileCommand + string :=
  match entries with
  | [] => inl best
  | value :: rest => command ←! readEntry value; loadEntries (keepBest best command) rest
  end.

Definition command_lt (c d : CompileCommand) : bool := path_lt (cmd_file c) (cmd_file d).

(** Iterating [std::map<std::filesystem::path, CompileCommand>]: in path order. *)
Definition inPathOrder (best : gmap string CompileCommand) : list CompileCommand :=
  merge_sort (not_after command_lt) (map_to_list best).*2.

Definition loadFromFile (path : string) : list CompileCommand + string :=
  match read_file path with
  | None => inr ("compilation database: cannot read " +:+ path)
  | Some buffer =>
      match parse_json buffer with
      | inr message => inr ("compilation database: " +:+ message)
      | inl parsed =>
          match as_items parsed with
          | None => inr "compilation database: top level must be an array"
          | Some entries => best ←! loadEntries ∅ entries; inl (inPathOrder best)
          end
      end
  end.
End load.

Definition supportedExtensions : list string := [".c"; ".C"; ".cc"; ".cpp"; ".cxx"; ".c++"; ".cp"].

Definition isAnalyzable (includeDependencies : bool) (command : CompileCommand) : bool :=
  if negb (bool_decide (extension (cmd_file command) ∈ supportedExtensions)) then false
  else if negb includeDependencies
       && bool_decide (is_Some (String.index 0 "/_deps/" (cmd_file command))) then false
  else true.

Definition analyzableSources (commands : list CompileCommand) (includeDependencies : bool)
  : list CompileCommand :=
  filter (λ command, isAnalyzable includeDependencies command = true) commands.

Definition find_command (commands : list CompileCommand) (file : string) : option CompileCommand :=
  find (λ command, path_eq (cmd_file command) (lexically_normal file)) commands.

(** ** The arguments replayed *)

(** What [replayableArguments] must not let through. *)
Definition replayable (file directory argument : string) : Prop :=
  isOutputOrDependencyOption argument = false ∧
  starts_with argument "-o" && (2 <? String.length argument) = false ∧
  isOptimizationOption argument = false ∧
  path_eq (absolutePath argument directory) file = false.

Lemma replayFrom_replayable raw file directory :
  Forall (replayable file directory) (replayFrom raw file directory).
Proof.
  induction raw as [|argument rest IH Hpair] using list_pair_ind; simpl; [constructor|].
  destruct (isOutputOrDependencyOption argument) eqn:E1.
  - destruct (takesSeparateValue argument); [|done].
    destruct rest as [|value rest]; [constructor|]. by apply (Hpair value).
  - destruct (starts_with argument "-o" && _) eqn:E2; [done|].
    destruct (isOptimizationOption argument) eqn:E3; [done|].
    destruct (path_eq _ file) eqn:E4; [done|]. constructor; [|done]. by split_and!.
Qed.

Lemma replayFrom_sublist raw file directory : replayFrom raw file directory `sublist_of` raw.
Proof.
  induction raw as [|argument rest IH Hpair] using list_pair_ind; simpl; [constructor|].
  destruct (isOutputOrDependencyOption argument).
  - destruct (takesSeparateValue argument); [|by constructor].
    destruct rest as [|value rest]; [by repeat constructor|].
    do 2 apply sublist_cons. by apply (Hpair value).
  - repeat case_match; by constructor.
Qed.

(** ** One command per source *)

Abbreviation richness c := (countSemanticOptions (cmd_arguments c)).

(** The first of the richest commands of its source. *)
Definition is_best (cmds : list CompileCommand) (c : CompileCommand) : Prop :=
  ∃ before after, cmds = before ++ c :: after ∧
    (∀ c', c' ∈ before → cmd_file c' = cmd_file c → richness c' < richness c) ∧
    (∀ c', c' ∈ after → cmd_file c' = cmd_file c → richness c' ≤ richness c).

Lemma is_best_elem cmds c : is_best cmds c → c ∈ cmds.
Proof. intros (before & after & -> & _). set_solver. Qed.

Lemma is_best_max cmds c c' :
  is_best cmds c → c' ∈ cmds → cmd_file c' = cmd_file c → richness c' ≤ richness c.
Proof.
  intros (before & after & -> & Hb & Ha) [Hc'|[->|Hc']%elem_of_cons]%elem_of_app Hf; [|lia|auto].
  specialize (Hb c' Hc' Hf). lia.
Qed.

Lemma is_best_snoc cmds d c :
  is_best (cmds ++ [d]) c ↔
  (is_best cmds c ∧ (cmd_file d = cmd_file c → richness d ≤ richness c)) ∨
  (c = d ∧ ∀ c', c' ∈ cmds → cmd_file c' = cmd_file d → richness c' < richness d).
Proof.
  split.
  - intros (before & after & E & Hb & Ha).
    destruct after as [|x after _] using rev_ind.
    + apply app_inj_tail in E as [-> ->]. by right.
    + change (before ++ c :: after ++ [x]) with (before ++ (c :: after) ++ [x]) in E.
      rewrite app_assoc in E. apply app_inj_tail in E as [-> ->]. left. split.
      * exists before, after. split_and!; [done|done|set_solver].
      * apply Ha. set_solver.
  - intros [[(before & after & -> & Hb & Ha) Hd]|[-> Hd]].
    + exists before, (after ++ [d]). rewrite <-app_assoc. split_and!; [done|done|].
      intros c' Hc'. apply elem_of_app in Hc' as [?|Hc']; [auto|].
      apply list_elem_of_singleton in Hc' as ->. auto.
    + exists cmds, []. split_and!; [done|done|by intros ? ?%elem_of_nil].
Qed.

Lemma keepBest_lookup best d f :
  keepBest best d !! f =
  if decide (cmd_file d = f) then
    Some (match best !! f with
          | Some e => if richness e <? richness d then d else e
          | None => d
          end)
  else best !! f.
Proof.
  unfold keepBest. case_decide as Hf.
  - subst f. destruct (best !! cmd_file d) as [e|] eqn:Ee.
    + case_match; [by rewrite lookup_insert_eq|done].
    + by rewrite lookup_insert_eq.
  - repeat case_match; rewrite ?lookup_insert_ne; done.
Qed.

Lemma keepBest_spec cmds :
  (∀ f c, foldl keepBest ∅ cmds !! f = Some c ↔ cmd_file c = f ∧ is_best cmds c) ∧
  (∀ c, c ∈ cmds → is_Some (foldl keepBest ∅ cmds !! cmd_file c)).
Proof.
  induction cmds as [|d cmds [IH1 IH2]] using rev_ind.
  { split; [|by intros ? ?%elem_of_nil]. intros f c. simpl. rewrite lookup_empty.
    split; [done|]. by intros [_ ?%is_best_elem%elem_of_nil]. }
  rewrite foldl_snoc. set (best := foldl keepBest ∅ cmds) in *. split.
  - intros f c. rewrite is_best_snoc, keepBest_lookup. case_decide as Hf; [subst f|rewrite IH1; naive_solver].
    destruct (best !! cmd_file d) as [e|] eqn:Ee.
    + destruct (proj1 (IH1 _ _) Ee) as [Hfe He].
      assert (∀ x, cmd_file x = cmd_file d → is_best cmds x → x = e) as Huniq.
      { intros x Hx1 Hx2. apply (inj Some). rewrite <-Ee. symmetry. by apply IH1. }
      destruct (Nat.ltb_spec (richness e) (richness d)) as [Hlt|Hge]; split.
      * intros [= <-]. split; [done|]. right. split; [done|]. intros c' Hc' Hf'.
        pose proof (is_best_max _ _ c' He Hc'). rewrite Hfe in *. naive_solver lia.
      * intros [Hfc [[Hc Hle]|[-> _]]]; [|done]. exfalso. rewrite (Huniq c) in Hle by done.
        specialize (Hle (eq_sym Hfe)). lia.
      * intros [= <-]. split; [done|]. left. split; [done|]. lia.
      * intros [Hfc [[Hc _]|[-> Hd]]]; [by rewrite (Huniq c)|]. exfalso.
        specialize (Hd e (is_best_elem _ _ He) Hfe). lia.
    + assert (∀ c', c' ∈ cmds → cmd_file c' ≠ cmd_file d) as Hnone.
      { intros c' Hc' Hf'. destruct (IH2 c' Hc') as [x Hx]. by rewrite Hf', Ee in Hx. }
      split.
      * intros [= <-]. split; [done|]. right. split; [done|]. intros c' Hc' Hf'. by destruct (Hnone c').
      * intros [Hfc [[Hc _]|[-> _]]]; [|done]. by destruct (Hnone c (is_best_elem _ _ Hc)).
  - intros c Hc. rewrite keepBest_lookup. case_decide; [eauto|].
    apply elem_of_app in Hc as [Hc|Hc]; [auto|].
    by apply list_elem_of_singleton in Hc as ->.
Qed.

(** ** Loading *)

Section loading.
Context (read_file : string → option string) (parse_json : string → JsonValue + string).
Context (tokenize : string → list string).

Abbreviation readEntry := (readEntry tokenize).
Abbreviation loadEntries := (loadEntries tokenize).
Abbreviation loadFromFile := (loadFromFile read_file parse_json tokenize).

Lemma loadEntries_ok best entries cmds :
  Forall2 (λ v c, readEntry v = inl c) entries cmds →
  loadEntries best entries = inl (foldl keepBest best cmds).
Proof.
  intros H. revert best. induction H as [|v c entries cmds Hv H IH]; intros best; simpl; [done|].
  rewrite Hv. apply IH.
Qed.

Lemma loadEntries_error best before v after cmds e :
  Forall2 (λ v c, readEntry v = inl c) before cmds → readEntry v = inr e →
  loadEntries best (before ++ v :: after) = inr e.
Proof.
  intros H Hv. revert best. induction H as [|v' c entries cmds Hv' H IH]; intros best; simpl.
  - by rewrite Hv.
  - rewrite Hv'. apply IH.
Qed.

Lemma readEntry_normal v c : readEntry v = inl c → is_normal (cmd_file c).
Proof.
  unfold CompDb.readEntry. destruct v; try done.
  destruct (string_field "file" _); [|done]. destruct (string_field "directory" _); [|done].
  destruct (readArguments _ _); simpl; [|done]. intros [= <-]. apply lexically_normal_idemp.
Qed.

#[local] Instance command_lt_swo : StrictWeakOrder command_lt.
Proof. unfold command_lt. apply (lt_on_swo cmd_file path_lt), _. Qed.

Lemma elem_of_inPathOrder best c : c ∈ inPathOrder best ↔ ∃ f, best !! f = Some c.
Proof.
  unfold inPathOrder. rewrite merge_sort_Permutation, list_elem_of_fmap. split.
  - intros ([f c'] & -> & H). apply elem_of_map_to_list in H. eauto.
  - intros (f & H). exists (f, c). by rewrite elem_of_map_to_list.
Qed.

(** Distinct normal files make the order strict. *)
Lemma inPathOrder_strict best :
  (∀ f c, best !! f = Some c → cmd_file c = f ∧ is_normal f) →
  StronglySorted (λ c d, command_lt c d = true) (inPathOrder best).
Proof.
  intros Hbest.
  pose proof (merge_sort_not_after_sorted command_lt (map_to_list best).*2) as Hs.
  assert (NoDup (cmd_file <$> inPathOrder best)) as Hnd.
  { unfold inPathOrder. rewrite merge_sort_Permutation, <-list_fmap_compose.
    replace ((cmd_file ∘ snd) <$> map_to_list best) with (map_to_list best).*1.
    - apply NoDup_fst_map_to_list.
    - apply list_fmap_ext. intros i [f c] Hi. apply list_elem_of_lookup_2, elem_of_map_to_list in Hi.
      by destruct (Hbest f c Hi). }
  assert (Forall (λ c, is_normal (cmd_file c)) (inPathOrder best)) as Hn.
  { apply Forall_forall. intros c (f & Hf)%elem_of_inPathOrder. by destruct (Hbest f c Hf) as [-> ?]. }
  fold (inPathOrder best) in Hs. induction Hs as [|c cs Hs IH Hc]; [constructor|].
  rewrite fmap_cons in Hnd. apply NoDup_cons in Hnd as [Hc' Hnd]. apply Forall_cons in Hn as [Hnc Hn].
  constructor; [auto|]. rewrite !Forall_forall in *. intros d Hd.
  destruct (path_lt_total (cmd_file c) (cmd_file d)) as [?|Hlt]; [done|auto| |done|].
  - intros E. apply Hc'. rewrite E. by apply list_elem_of_fmap_2.
  - pose proof (Hc d Hd) as Hdc. unfold not_after, command_lt in Hdc. congruence.
Qed.

Lemma loadEntries_success best entries result :
  loadEntries best entries = inl result →
  ∃ cmds, Forall2 (λ v c, readEntry v = inl c) entries cmds ∧ result = foldl keepBest best cmds.
Proof.
  revert best. induction entries as [|v entries IH]; intros best; simpl.
  - intros [= <-]. exists []. by split; [constructor|].
  - destruct (readEntry v) as [c|e] eqn:E; simpl; [|done]. intros (cmds & Hc & ->)%IH.
    exists (c :: cmds). split; [by constructor|done].
Qed.

(** What loading guarantees of the commands. *)
Lemma loadFromFile_success path commands :
  loadFromFile path = inl commands →
  StronglySorted (λ c d, command_lt c d = true) commands ∧
  Forall (λ c, is_normal (cmd_file c)) commands.
Proof.
  unfold CompDb.loadFromFile. destruct (read_file path) as [buffer|]; [|done].
  destruct (parse_json buffer) as [parsed|]; [|done]. destruct (as_items parsed) as [entries|]; [|done].
  destruct (loadEntries ∅ entries) as [best|] eqn:E; [|done]. intros [= <-].
  apply loadEntries_success in E as (cmds & Hcmds & ->). destruct (keepBest_spec cmds) as [Hbest _].
  assert (∀ f c, foldl keepBest ∅ cmds !! f = Some c → cmd_file c = f ∧ is_normal f) as H.
  { intros f c [<- Hc]%Hbest. split; [done|]. apply is_best_elem, list_elem_of_lookup in Hc as [i Hi].
    destruct (Forall2_lookup_r _ _ _ _ _ Hcmds Hi) as (v & _ & Hv). by eapply readEntry_normal. }
  split; [by apply inPathOrder_strict|]. apply Forall_forall.
  intros c (f & Hf)%elem_of_inPathOrder. by destruct (H f c Hf) as [-> ?].
Qed.

(** C37: The database keeps one command per source: when every entry of the file
    reads, loading succeeds with, in strictly increasing path order, exactly the
    commands that have the most options that matter among those of their source,
    the first such one, for every source.  When some entry does not read, the error
    of the first one is returned and nothing is loaded. *)
Theorem database_keeps_richest_commands (path buffer : string) (entries : list JsonValue)
    (cmds : list CompileCommand) :
  read_file path = Some buffer → parse_json buffer = inl (JArray entries) →
  (Forall2 (λ v c, readEntry v = inl c) entries cmds →
   ∃ commands, loadFromFile path = inl commands ∧
     StronglySorted (λ c d, command_lt c d = true) commands ∧
     ∀ c, c ∈ commands ↔ is_best cmds c) ∧
  (∀ before v after e, entries = before ++ v :: after →
     Forall2 (λ v c, readEntry v = inl c) before cmds → readEntry v = inr e →
     loadFromFile path = inr e).
Proof.
  intros Hread Hparse.
  assert (loadFromFile path = best ←! loadEntries ∅ entries; inl (inPathOrder best)) as Hload
    by (unfold CompDb.loadFromFile; by rewrite Hread, Hparse).
  split.
  - intros H. pose proof (loadFromFile_success path) as Hs. rewrite Hload in Hs |- *.
    rewrite (loadEntries_ok ∅ _ cmds) in Hs |- * by done. simpl in Hs |- *.
    eexists. split; [done|]. split; [by apply Hs|]. intros c.
    rewrite elem_of_inPathOrder. setoid_rewrite (proj1 (keepBest_spec cmds)). naive_solver.
  - intros before v after e -> Hb Hv. by rewrite Hload, (loadEntries_error ∅ before v after cmds e).
Qed.

(** A command of a loaded database is found again: looking up a file, however
    its path is written, returns the command whose source is that file after
    normalization, and every command is found under its own source. *)
Theorem database_finds_its_commands (path : string) (commands : list CompileCommand) :
  loadFromFile path = inl commands →
  (∀ c, c ∈ commands → find_command commands (cmd_file c) = Some c) ∧
  (∀ file c, find_command commands file = Some c ↔
     c ∈ commands ∧ cmd_file c = lexically_normal file).
Proof.
  intros [Hs Hn]%loadFromFile_success.
  enough (∀ file c, find_command commands file = Some c ↔
            c ∈ commands ∧ cmd_file c = lexically_normal file) as H.
  { split; [|done]. intros c Hc. apply H. split; [done|]. rewrite Forall_forall in Hn.
    symmetry. by apply Hn. }
  intros file c. unfold find_command. set (target := lexically_normal file).
  assert (is_normal target) as Ht by apply lexically_normal_idemp. clearbody target.
  induction Hs as [|d ds Hs IH Hd]; simpl; [rewrite elem_of_nil; naive_solver|].
  apply Forall_cons in Hn as [Hnd Hn]. specialize (IH Hn).
  destruct (path_eq (cmd_file d) target) eqn:E; rewrite elem_of_cons.
  - apply path_eq_normal in E; [|done..]. split; [intros [= <-]; auto|].
    intros [[->|Hc] Hf]; [done|]. exfalso. rewrite Forall_forall in Hd. specialize (Hd c Hc).
    unfold command_lt in Hd. rewrite Hf, E in Hd. by rewrite (swo_asym _ _ Hd) in Hd.
  - rewrite IH. split; [naive_solver|]. intros [[->|Hc] Hf]; [|done].
    exfalso. apply not_true_iff_false in E. apply E. by apply path_eq_normal.
Qed.
End loading.

(** ** Replaying a command *)

Lemma no_output_not_open args : "-o" ∉ args → openOutput args = false.
Proof.
  induction args as [|arg args IH]; simpl; [done|]. intros H.
  rewrite bool_decide_false by set_solver. apply IH. set_solver.
Qed.

Lemma keptArguments_sublist format request :
  keptArguments format request `sublist_of` req_extraCompileArgs request.
Proof.
  destruct format; simpl; [apply dropWarnings_sublist|].
  etrans; [apply sublist_filter|apply dropWarnings_sublist].
Qed.

(** A command replayed from the database is compiled unoptimized: the only
    option about optimization the compiler is handed is the [-O0] of the builder,
    and nothing the build wrote about outputs or dependency files is left, whatever
    the recorded command was. *)
Theorem replayed_command_is_unoptimized (moved_from : string) (raw : list string)
    (file directory : string) (format : IRFormat) (instrument : bool) :
  let request := MkCompileRequest file (replayableArguments raw file directory) format instrument in
  ∃ args, buildCommand moved_from format request = Some args ∧ "-O0" ∈ args ∧ file ∈ args ∧
    (∀ arg, arg ∈ args → isOptimizationOption arg = true → arg = "-O0" ∨ arg = file) ∧
    (∀ arg, arg ∈ args → isOutputOrDependencyOption arg = true → arg = "-c" ∨ arg = file).
Proof.
  intros request. pose proof (replayFrom_replayable (tail raw) file directory) as Hrep.
  fold (replayableArguments raw file directory) in Hrep. rewrite Forall_forall in Hrep.
  assert (∀ arg, arg ∈ keptArguments format request → replayable file directory arg) as Hkept.
  { intros arg Harg. apply Hrep. eapply sublist_subseteq; [apply (keptArguments_sublist format request)|done]. }
  assert (openOutput (keptArguments format request) = false) as Hopen.
  { apply no_output_not_open. intros H%Hkept. by destruct H. }
  rewrite buildCommand_eq, dropOutput_snoc, Hopen by done.
  destruct (finishCommand_spec (dropOutput (keptArguments format request) ++ ["-O0"])
              (commandFlags format request)) as (tail & -> & Hsub & Hall).
  eexists. split; [done|].
  assert (∀ arg, arg ∈ (dropOutput (keptArguments format request) ++ ["-O0"]) ++ tail →
    replayable file directory arg ∨ arg ∈ ["-O0"; "-emit-llvm"; "-S"; "-c"; "-g"; file]) as Hargs.
  { intros arg [[Harg|Harg]%elem_of_app|Harg]%elem_of_app.
    - left. apply Hkept. eapply sublist_subseteq; [apply dropOutput_sublist|done].
    - right. set_solver.
    - right. eapply sublist_subseteq in Harg; [|exact Hsub]. unfold commandFlags in Harg. simpl in Harg.
      destruct format; set_solver. }
  split_and!; [set_solver|apply Hall; set_solver| |].
  - intros arg [(_ & _ & H & _)|H]%Hargs Hopt; [by rewrite H in Hopt|].
    rewrite !elem_of_cons, elem_of_nil in H. destruct_or! H; subst; auto; done.
  - intros arg [(H & _)|H]%Hargs Hopt; [by rewrite H in Hopt|].
    rewrite !elem_of_cons, elem_of_nil in H. destruct_or! H; subst; auto; done.
Qed.

(** Two targets compile a.c, the second with more options. *)
Definition sample_entry (file : string) (arguments : list string) : JsonValue :=
  JObject [("directory", JString "/p/build"); ("file", JString file);
           ("arguments", JArray (JString <$> arguments))].

Definition sample_entries : list JsonValue :=
  [sample_entry "../src/b.c" ["cc"; "-c"; "../src/b.c"];
   sample_entry "../src/a.c" ["cc"; "-O2"; "-o"; "a.o"; "../src/a.c"];
   sample_entry "../src/a.c" ["cc"; "-DX"; "-Iinc"; "-c"; "../src/a.c"]].

Definition sample_commands : list CompileCommand :=
  [MkCompileCommand "/p/src/b.c" "/p/build" []; MkCompileCommand "/p/src/a.c" "/p/build" [];
   MkCompileCommand "/p/src/a.c" "/p/build" ["-DX"; "-Iinc"]].

Abbreviation sample_load :=
  (loadFromFile (λ _, Some "") (λ _, inl (JArray sample_entries)) (λ _, [])).

Lemma database_keeps_richest_commands_witness :
  ∃ commands, sample_load "compile_commands.json" = inl commands ∧
     StronglySorted (λ c d, command_lt c d = true) commands ∧
     ∀ c, c ∈ commands ↔ is_best sample_commands c.
Proof.
  apply (database_keeps_richest_commands (λ _, Some "") (λ _, inl (JArray sample_entries)) (λ _, [])
           "compile_commands.json" "" sample_entries sample_commands); try reflexivity.
  repeat constructor.
Defined.

Definition sample_loaded : list CompileCommand :=
  [MkCompileCommand "/p/src/a.c" "/p/build" ["-DX"; "-Iinc"];
   MkCompileCommand "/p/src/b.c" "/p/build" []].

Lemma database_finds_its_commands_witness :
  find_command sample_loaded "/p/./src/a.c"
  = Some (MkCompileCommand "/p/src/a.c" "/p/build" ["-DX"; "-Iinc"]).
Proof.
  assert (sample_load "compile_commands.json" = inl sample_loaded) as H by (vm_compute; reflexivity).
  apply (proj2 (database_finds_its_commands (λ _, Some "") (λ _, inl (JArray sample_entries)) (λ _, [])
           "compile_commands.json" sample_loaded H)).
  split; [left|vm_compute; reflexivity].
Defined.
