(* ===== verification/IRCache.v ===== *)
(** The cache of compiled bitcode (src/internal/ir_cache.cpp) over a file system
    that maps the path of each regular file to its contents.

    The digest and what the file system refuses are parameters.  Feeding a hash in
    pieces is hashing their concatenation.  Every operation that writes returns
    the file system it leaves, also when it fails on the way. *)

From S2P Require Import Prelude Text Paths CompDb.

Abbreviation FileSystem := (gmap string string).

(** What the system lets succeed: opening a file for writing, writing it, renaming
    it; and what a failed write leaves in the file. *)
Record Faults := MkFaults {
  can_open : string → bool;
  can_write : string → bool;
  can_rename : string → bool;
  partial_write : string → string;
}.

Definition no_faults : Faults := MkFaults (λ _, true) (λ _, true) (λ _, true) (λ _, "").

(** ** Hexadecimal *)

Definition kDigits : string := "0123456789abcdef".

Definition hex_digit (n : N) : ascii := default "0"%char (String.get (N.to_nat n) kDigits).

Fixpoint toHex (digest : list N) : string :=
  match digest with
  | [] => ""
  | byte :: rest =>
      String (hex_digit (N.shiftr byte 4)) (String (hex_digit (N.land byte 15)) (toHex rest))
  end.

(** ** Files *)

Definition readFile (fs : FileSystem) (path : string) : option string := fs !! path.

Definition writeFileAtomically (faults : Faults) (fs : FileSystem) (path contents : string)
  : bool * FileSystem :=
  let temporary := path +:+ ".tmp" in
  if negb (can_open faults temporary) then (false, fs)
  else if negb (can_write faults temporary)
  then (false, <[temporary := partial_write faults contents]> fs)
  else
    let fs := <[temporary := contents]> fs in
    if negb (can_rename faults path) then (false, delete temporary fs)
    else (true, <[path := contents]> (delete temporary fs)).

(** ** Dependency files *)

Definition is_blank (c : ascii) : bool :=
  Ascii.eqb c " " || Ascii.eqb c "009" || Ascii.eqb c newline || Ascii.eqb c "013".

Definition is_escapable (c : ascii) : bool :=
  Ascii.eqb c " " || Ascii.eqb c "\" || Ascii.eqb c "#".

(** The lambda [flush]. *)
Definition flush (current : string) (prerequisites : list string) : list string :=
  if bool_decide (current ≠ "") then prerequisites ++ [current] else prerequisites.

(** The loop from [index] on; [contents] is what is left to read. *)
Fixpoint parsePrerequisites (contents current : string) (prerequisites : list string)
  : list string :=
  match contents with
  | "" => flush current prerequisites
  | String character rest =>
      let otherwise :=
        if is_blank character then parsePrerequisites rest "" (flush current prerequisites)
        else parsePrerequisites rest (current +:+ String character "") prerequisites in
      match rest with
      | String escaped rest' =>
          if Ascii.eqb character "\" then
            if Ascii.eqb escaped newline then parsePrerequisites rest' "" (flush current prerequisites)
            else if is_escapable escaped
            then parsePrerequisites rest' (current +:+ String escaped "") prerequisites
            else otherwise
          else otherwise
      | "" => otherwise
      end
  end.

Definition parseDependencyFile (contents : string) : list string :=
  match cut ":" contents with
  | None => []
  | Some (_, after) => parsePrerequisites after "" []
  end.

(** ** The cache *)

Record IRCache := MkIRCache { directory_ : string }.

(** [create_directories] returns the error; [is_directory] is asked when it failed. *)
Definition IRCache_open (creation_failed is_directory : string → bool) (directory : string)
  : option IRCache :=
  if creation_failed directory && negb (is_directory directory) then None
  else Some (MkIRCache directory).

Definition nul : ascii := "000".

(** What is hashed into the key of a command. *)
Definition keyMaterial (command : CompileCommand) : string :=
  foldl (λ material argument, material +:+ argument +:+ String nul "")
    (cmd_file command +:+ String nul "") (cmd_arguments command).

(** Reads the files in order and hashes them; [None] when one is missing. *)
Fixpoint readAll (fs : FileSystem) (paths : list string) : option string :=
  match paths with
  | [] => Some ""
  | path :: rest =>
      contents ← readFile fs path;
      others ← readAll fs rest;
      Some (contents +:+ others)
  end.

Section cache.
Context (sha256 : string → list N).

Definition keyFor (command : CompileCommand) : string := toHex (sha256 (keyMaterial command)).

Definition entryPath (cache : IRCache) (command : CompileCommand) (suffix : string) : string :=
  path_append (directory_ cache) (keyFor command +:+ suffix).

Definition depfilePathFor (cache : IRCache) (command : CompileCommand) : string :=
  entryPath cache command ".d".

Definition lookupPath (cache : IRCache) (fs : FileSystem) (command : CompileCommand)
  : option string :=
  dependencyList ← readFile fs (entryPath cache command ".deps");
  storedStamp ← readFile fs (entryPath cache command ".stamp");
  stamped ← readAll fs (filter (λ path, path ≠ "") (linesOf dependencyList));
  if bool_decide (toHex (sha256 stamped) ≠ storedStamp) then None
  else
    let bitcode := entryPath cache command ".bc" in
    if bool_decide (is_Some (fs !! bitcode)) then Some bitcode else None.

Definition lookup_bitcode (cache : IRCache) (fs : FileSystem) (command : CompileCommand)
  : option string :=
  bitcode ← lookupPath cache fs command;
  readFile fs bitcode.

(** [store] returns the path of the bitcode, and the file system it leaves. *)
Definition store (faults : Faults) (cache : IRCache) (fs : FileSystem) (command : CompileCommand)
    (bitcode depfile : string) : option string * FileSystem :=
  match readFile fs depfile with
  | None => (None, fs)
  | Some fragment =>
      let dependencies := parseDependencyFile fragment in
      if bool_decide (dependencies = []) then (None, fs)
      else match readAll fs dependencies with
      | None => (None, fs)
      | Some stamped =>
          let dependencyList := unlines dependencies in
          let '(ok, fs) := writeFileAtomically faults fs (entryPath cache command ".bc") bitcode in
          if negb ok then (None, fs)
          else
            let '(ok, fs) :=
              writeFileAtomically faults fs (entryPath cache command ".deps") dependencyList in
            if negb ok then (None, fs)
            else
              let '(ok, fs) :=
                writeFileAtomically faults fs (entryPath cache command ".stamp")
                  (toHex (sha256 stamped)) in
              if negb ok then (None, fs)
              else (Some (entryPath cache command ".bc"), fs)
      end
  end.
End cache.

(** ** Keys *)

Lemma hex_digit_inj n m : (n < 16)%N → (m < 16)%N → hex_digit n = hex_digit m → n = m.
Proof.
  intros Hn Hm.
  assert (∀ k, (k < 16)%N → k ∈ [0;1;2;3;4;5;6;7;8;9;10;11;12;13;14;15]%N) as Hall.
  { intros k Hk. rewrite !elem_of_cons. lia. }
  apply Hall in Hn, Hm. rewrite !elem_of_cons, elem_of_nil in Hn, Hm.
  destruct_or! Hn; subst n; destruct_or! Hm; subst m; done.
Qed.

Lemma byte_halves b c :
  N.shiftr b 4 = N.shiftr c 4 → N.land b 15 = N.land c 15 → b = c.
Proof.
  intros H1 H2. rewrite (N.shiftr_div_pow2 b), (N.shiftr_div_pow2 c) in H1.
  change 15%N with (N.ones 4) in H2. rewrite !N.land_ones in H2.
  rewrite (N.div_mod b (2 ^ 4)), (N.div_mod c (2 ^ 4)) by done. congruence.
Qed.

(** Digests of bytes are told apart by their hexadecimal form. *)
Lemma toHex_inj d e :
  Forall (λ b, b < 256)%N d → Forall (λ b, b < 256)%N e → toHex d = toHex e → d = e.
Proof.
  intros Hd. revert e. induction Hd as [|b d Hb Hd IH]; intros [|c e] He E; try discriminate E; [done|].
  apply Forall_cons in He as [Hc He]. cbn [toHex] in E. injection E as E1 E2 E3.
  assert (∀ x, (x < 256)%N → (N.shiftr x 4 < 16)%N ∧ (N.land x 15 < 16)%N) as Hbound.
  { intros x Hx. change 15%N with (N.ones 4). rewrite N.land_ones, N.shiftr_div_pow2. split.
    - apply N.Div0.div_lt_upper_bound. simpl. lia.
    - by apply N.mod_lt. }
  destruct (Hbound b Hb), (Hbound c Hc). f_equal; [|by apply IH].
  apply byte_halves; by apply hex_digit_inj.
Qed.

(** No NUL byte, which ends C strings. *)
Abbreviation no_nul := (all_chars (other_than nul)).

Definition clean_command (c : CompileCommand) : Prop :=
  no_nul (cmd_file c) = true ∧ Forall (λ a, no_nul a = true) (cmd_arguments c).

Fixpoint nul_ended (pieces : list string) : string :=
  match pieces with [] => "" | piece :: rest => piece +:+ String nul (nul_ended rest) end.

Lemma keyMaterial_pieces c : keyMaterial c = nul_ended (cmd_file c :: cmd_arguments c).
Proof.
  unfold keyMaterial. assert (∀ args s, foldl (λ material argument, material +:+ argument +:+ String nul "")
    s args = s +:+ nul_ended args) as H.
  { induction args as [|a args IH]; intros s; simpl; [by rewrite append_nil_r|].
    rewrite IH, !append_assoc. done. }
  rewrite H. simpl. by rewrite append_assoc.
Qed.

Lemma nul_ended_inj l k :
  Forall (λ a, no_nul a = true) l → Forall (λ a, no_nul a = true) k →
  nul_ended l = nul_ended k → l = k.
Proof.
  intros Hl. revert k. induction Hl as [|x l Hx Hl IH]; intros k Hk E.
  - destruct k as [|y k]; [done|]. simpl in E. symmetry in E. apply append_eq_empty in E as [_ E]. discriminate E.
  - destruct Hk as [|y k Hy Hk]; simpl in E.
    + apply append_eq_empty in E as [_ E]. discriminate E.
    + apply (f_equal (cut nul)) in E. rewrite !cut_app in E by done. injection E as -> E.
      f_equal. by apply IH.
Qed.

(** The cache key separates commands: for commands without NUL bytes, two keys
    agree only when the digests of the hashed texts do, and the hashed texts agree
    only when the source and the whole list of arguments do, however the same
    characters are split into arguments. *)
Theorem cache_key_separates_commands (sha256 : string → list N) (c d : CompileCommand) :
  (∀ s, Forall (λ b, b < 256)%N (sha256 s)) → clean_command c → clean_command d →
  (keyFor sha256 c = keyFor sha256 d → sha256 (keyMaterial c) = sha256 (keyMaterial d)) ∧
  (keyMaterial c = keyMaterial d → cmd_file c = cmd_file d ∧ cmd_arguments c = cmd_arguments d).
Proof.
  intros Hbytes [Hcf Hca] [Hdf Hda]. split; [by apply toHex_inj|].
  rewrite !keyMaterial_pieces. intros E%nul_ended_inj; [|by constructor..]. by injection E.
Qed.

Lemma cache_key_separates_commands_witness :
  let digest := λ s : string, [N.of_nat (String.length s) mod 256]%N in
  let c := MkCompileCommand "a.c" "/p" ["-DX"; "-I."] in
  let d := MkCompileCommand "a.c" "/p" ["-DX -I."] in
  (keyFor digest c = keyFor digest d → digest (keyMaterial c) = digest (keyMaterial d)) ∧
  (keyMaterial c = keyMaterial d → cmd_file c = cmd_file d ∧ cmd_arguments c = cmd_arguments d).
Proof.
  intros digest c d. apply (cache_key_separates_commands digest c d).
  - intros s. constructor; [by apply N.mod_lt|constructor].
  - split; [reflexivity|by repeat constructor].
  - split; [reflexivity|by repeat constructor].
Defined.

(** ** Dependency files *)

(** A path as the compiler writes it: spaces, backslashes and hashes escaped. *)
Fixpoint escape_path (path : string) : string :=
  match path with
  | "" => ""
  | String c rest =>
      if is_escapable c then String "\" (String c (escape_path rest)) else String c (escape_path rest)
  end.

(** The fragment: one prerequisite per continued line. *)
Definition print_dependencies (target : string) (dependencies : list string) : string :=
  target +:+ ":" +:+
  String.concat "" ((λ d, " " +:+ escape_path d +:+ " \" +:+ String newline "") <$> dependencies).

(** A path with no tab, newline or carriage return; blanks that can be escaped are
    allowed. *)
Definition path_char (c : ascii) : bool := is_escapable c || negb (is_blank c).

Definition wf_dependency (d : string) : Prop := d ≠ "" ∧ all_chars path_char d = true.

Lemma escapable_not_newline c : is_escapable c = true → Ascii.eqb c newline = false.
Proof.
  unfold is_escapable. intros H. destruct (Ascii.eqb_spec c newline) as [->|]; [|done].
  vm_compute in H. done.
Qed.

Lemma parse_plain c rest current acc :
  Ascii.eqb c "\" = false → is_blank c = false →
  parsePrerequisites (String c rest) current acc
  = parsePrerequisites rest (current +:+ String c "") acc.
Proof. intros H1 H2. cbn [parsePrerequisites]. rewrite H1, H2. by destruct rest. Qed.

Lemma parse_blank c rest current acc :
  Ascii.eqb c "\" = false → is_blank c = true →
  parsePrerequisites (String c rest) current acc = parsePrerequisites rest "" (flush current acc).
Proof. intros H1 H2. cbn [parsePrerequisites]. rewrite H1, H2. by destruct rest. Qed.

Lemma parse_escape c rest current acc :
  is_escapable c = true →
  parsePrerequisites (String "\" (String c rest)) current acc
  = parsePrerequisites rest (current +:+ String c "") acc.
Proof.
  intros H. cbn [parsePrerequisites]. rewrite Ascii.eqb_refl, escapable_not_newline, H by done. done.
Qed.

Lemma parse_escaped path rest current acc :
  all_chars path_char path = true →
  parsePrerequisites (escape_path path +:+ rest) current acc
  = parsePrerequisites rest (current +:+ path) acc.
Proof.
  revert current. induction path as [|c path IH]; intros current; [by rewrite append_nil_r|].
  cbn [escape_path all_chars]. rewrite andb_true_iff. intros [Hc Hp].
  destruct (is_escapable c) eqn:E; rewrite !append_cons.
  - rewrite parse_escape, IH, append_assoc by done. done.
  - unfold path_char in Hc. rewrite E in Hc. apply negb_true_iff in Hc.
    rewrite parse_plain, IH, append_assoc; [done|done| |done].
    unfold is_escapable in E. apply orb_false_iff in E as [E _]. by apply orb_false_iff in E as [_ ?].
Qed.

Lemma parse_printed dependencies acc :
  Forall wf_dependency dependencies →
  parsePrerequisites
    (String.concat "" ((λ d, " " +:+ escape_path d +:+ " \" +:+ String newline "") <$> dependencies))
    "" acc = acc ++ dependencies.
Proof.
  intros Hd. revert acc. induction Hd as [|d dependencies [Hne Hd] _ IH]; intros acc.
  { simpl. by rewrite app_nil_r. }
  assert (∀ x xs, String.concat "" (x :: xs) = x +:+ String.concat "" xs) as Hconcat.
  { intros x [|y xs]; [by rewrite append_nil_r|done]. }
  rewrite fmap_cons, Hconcat. set (rest := String.concat "" (_ <$> _)) in *.
  replace ((" " +:+ _) +:+ rest)
    with (String " " (escape_path d +:+ String " " (String "\" (String newline rest))))
    by (rewrite !append_assoc; reflexivity).
  rewrite parse_blank, parse_escaped, parse_blank by done.
  cbn [parsePrerequisites]. rewrite !Ascii.eqb_refl.
  change (flush "" ?x) with x. change ("" +:+ d) with d. rewrite IH.
  unfold flush. rewrite bool_decide_true by done. by rewrite <-app_assoc.
Qed.

(** The dependency list survives the compiler's escaping: the prerequisites
    of a printed fragment, one per continued line, are read back in order and
    unchanged, spaces, backslashes and hashes in them included. *)
Theorem dependency_file_roundtrip (target : string) (dependencies : list string) :
  all_chars (other_than ":") target = true → Forall wf_dependency dependencies →
  parseDependencyFile (print_dependencies target dependencies) = dependencies.
Proof.
  intros Ht Hd. unfold parseDependencyFile, print_dependencies.
  change (":" +:+ ?x) with (String ":" x). rewrite cut_app by done. by apply (parse_printed _ []).
Qed.

Lemma dependency_file_roundtrip_witness :
  parseDependencyFile (print_dependencies "a.o" ["src/my file.c"; "c#\d.h"])
  = ["src/my file.c"; "c#\d.h"].
Proof.
  apply (dependency_file_roundtrip "a.o" ["src/my file.c"; "c#\d.h"]); [reflexivity|].
  repeat constructor; discriminate.
Defined.

(** What is read from a dependency file is listed one per line without loss. *)
Definition listable (d : string) : Prop := d ≠ "" ∧ all_chars (other_than newline) d = true.

Lemma flush_listable current acc :
  all_chars (other_than newline) current = true → Forall listable acc →
  Forall listable (flush current acc).
Proof.
  intros Hc Ha. unfold flush. case_bool_decide; [|done]. apply Forall_app. split; [done|].
  by apply Forall_singleton.
Qed.

Lemma parsePrerequisites_listable n contents current acc :
  String.length contents ≤ n →
  all_chars (other_than newline) current = true → Forall listable acc →
  Forall listable (parsePrerequisites contents current acc).
Proof.
  assert (∀ s c, Ascii.eqb c newline = false → all_chars (other_than newline) s = true →
            all_chars (other_than newline) (s +:+ String c "") = true) as Hpush.
  { intros s c Hc Hs. rewrite all_chars_app, Hs. simpl. unfold other_than. by rewrite Hc. }
  revert contents current acc. induction n as [|n IH]; intros [|c rest] current acc Hn Hc Ha;
    simpl in Hn; try lia; try by apply flush_listable.
  set (P := Forall listable).
  assert (P (if is_blank c then parsePrerequisites rest "" (flush current acc)
             else parsePrerequisites rest (current +:+ String c "") acc)) as Hother.
  { destruct (is_blank c) eqn:Eb; apply IH; try lia; auto using flush_listable.
    apply Hpush; [|done]. unfold is_blank in Eb. by repeat apply orb_false_iff in Eb as [Eb ?]. }
  cbn [parsePrerequisites]. destruct rest as [|d rest]; [exact Hother|].
  destruct (Ascii.eqb c "\"); [|exact Hother].
  destruct (Ascii.eqb d newline) eqn:En; [apply IH; simpl in Hn; auto using flush_listable; lia|].
  destruct (is_escapable d); [|exact Hother]. apply IH; simpl in Hn; auto. lia.
Qed.

Lemma parseDependencyFile_listable contents : Forall listable (parseDependencyFile contents).
Proof.
  unfold parseDependencyFile. destruct (cut ":" contents) as [[_ after]|]; [|constructor].
  by apply (parsePrerequisites_listable (String.length after)).
Qed.

Lemma read_back_dependencies deps :
  Forall listable deps → filter (λ path, path ≠ "") (linesOf (unlines deps)) = deps.
Proof.
  intros H. rewrite linesOf_unlines.
  - apply filter_all. eapply Forall_impl; [done|]. by intros ? [? _].
  - eapply Forall_impl; [done|]. by intros ? [_ ?].
Qed.

(** ** The files of an entry *)

Lemma hex_digit_not_slash n : Ascii.eqb (hex_digit n) "/" = false.
Proof.
  unfold hex_digit. generalize (N.to_nat n) as k. intros k.
  do 16 (destruct k as [|k]; [reflexivity|]). reflexivity.
Qed.

Lemma key_relative digest suffix : is_absolute (toHex digest +:+ String "." suffix) = false.
Proof.
  unfold is_absolute. destruct digest as [|b digest]; cbn [toHex]; rewrite ?append_cons.
  - change ("" +:+ ?x) with x. by rewrite starts_with_cons.
  - by rewrite starts_with_cons, hex_digit_not_slash.
Qed.

Section entries.
Context (sha256 : string → list N) (cache : IRCache) (command : CompileCommand).
Abbreviation entry := (entryPath sha256 cache command).

(** Every file of an entry is one stem and a suffix. *)
Lemma entryPath_stem : ∃ stem, ∀ suffix, entry (String "." suffix) = stem +:+ String "." suffix.
Proof.
  unfold entryPath, path_append, keyFor.
  destruct (bool_decide (directory_ cache = "") || _) eqn:E.
  - exists (directory_ cache +:+ toHex (sha256 (keyMaterial command))). intros s.
    rewrite key_relative. by rewrite append_assoc.
  - exists (directory_ cache +:+ "/" +:+ toHex (sha256 (keyMaterial command))). intros s.
    rewrite key_relative. by rewrite !append_assoc.
Qed.

Definition cacheFiles : list string :=
  [entry ".bc"; entry ".bc" +:+ ".tmp"; entry ".deps"; entry ".deps" +:+ ".tmp";
   entry ".stamp"; entry ".stamp" +:+ ".tmp"].

Lemma cacheFiles_NoDup : NoDup cacheFiles.
Proof.
  unfold cacheFiles. destruct entryPath_stem as [stem H]. rewrite !H, !append_assoc.
  change (NoDup (String.append stem <$>
    [".bc"; ".bc.tmp"; ".deps"; ".deps.tmp"; ".stamp"; ".stamp.tmp"])).
  apply NoDup_fmap_2; [intros x y; apply append_inj_l|].
  apply (bool_decide_unpack _). vm_compute. exact I.
Qed.

(** The contents of the entry's three files and the files an update leaves alone. *)
Definition entry_is (fs : FileSystem) (bitcode deps stamp : string) : Prop :=
  fs !! entry ".bc" = Some bitcode ∧ fs !! entry ".deps" = Some deps ∧
  fs !! entry ".stamp" = Some stamp.

Lemma readAll_ext fs fs' paths :
  (∀ p, p ∈ paths → fs' !! p = fs !! p) → readAll fs' paths = readAll fs paths.
Proof.
  intros H. induction paths as [|p paths IH]; simpl; [done|]. unfold readFile.
  rewrite H by left. rewrite IH; [done|]. intros q Hq. apply H. by right.
Qed.

(** Rewriting the files of an entry one after the other. *)
Lemma write_ok fs path contents :
  writeFileAtomically no_faults fs path contents
  = (true, <[path := contents]> (delete (path +:+ ".tmp") (<[path +:+ ".tmp" := contents]> fs))).
Proof. done. Qed.

Lemma lookup_after_write (fs : FileSystem) path contents p :
  p ≠ path +:+ ".tmp" →
  <[path := contents]> (delete (path +:+ ".tmp") (<[path +:+ ".tmp" := contents]> fs)) !! p
  = if decide (p = path) then Some contents else fs !! p.
Proof.
  intros Hp. case_decide as E; [subst; by rewrite lookup_insert_eq|].
  rewrite lookup_insert_ne, lookup_delete_ne, lookup_insert_ne; done.
Qed.

(** A complete store writes exactly its entry. *)
Lemma store_ok fs bitcode depfile fragment stamped :
  fs !! depfile = Some fragment → parseDependencyFile fragment ≠ [] →
  readAll fs (parseDependencyFile fragment) = Some stamped →
  ∃ fs', store sha256 no_faults cache fs command bitcode depfile = (Some (entry ".bc"), fs') ∧
    entry_is fs' bitcode (unlines (parseDependencyFile fragment)) (toHex (sha256 stamped)) ∧
    ∀ p, p ∉ cacheFiles → fs' !! p = fs !! p.
Proof.
  intros Hd Hne Hall. unfold store, readFile. rewrite Hd, bool_decide_false, Hall by done.
  rewrite !write_ok. cbn [negb]. eexists. split; [done|].
  pose proof cacheFiles_NoDup as Hnd. unfold cacheFiles in *. unfold entry_is.
  rewrite !NoDup_cons, !not_elem_of_cons in Hnd. split.
  - split_and!; rewrite !lookup_after_write by naive_solver; repeat case_decide; naive_solver.
  - intros p Hp. rewrite !not_elem_of_cons in Hp.
    rewrite !lookup_after_write by naive_solver. repeat case_decide; naive_solver.
Qed.

(** What a complete entry answers. *)
Lemma lookup_entry fs bitcode deps stamp :
  Forall listable deps → entry_is fs bitcode (unlines deps) stamp →
  lookup_bitcode sha256 cache fs command =
  match readAll fs deps with
  | Some stamped => if bool_decide (toHex (sha256 stamped) = stamp) then Some bitcode else None
  | None => None
  end.
Proof.
  intros Hl (Hbc & Hdeps & Hstamp). unfold lookup_bitcode, lookupPath, readFile.
  rewrite Hdeps, Hstamp. cbn [mbind option_bind]. rewrite read_back_dependencies by done.
  destruct (readAll fs deps) as [stamped|]; cbn [mbind option_bind]; [|done].
  destruct (decide (toHex (sha256 stamped) = stamp)) as [E|E].
  - rewrite (bool_decide_false (_ ≠ _)), (bool_decide_true (_ = _)) by (try done; by intros []).
    rewrite bool_decide_true by (rewrite Hbc; eauto). done.
  - rewrite (bool_decide_true (_ ≠ _)), (bool_decide_false (_ = _)) by done. done.
Qed.
End entries.

(** C23: The cache answers for what was stored.  After a store whose writes succeed,
    and for any later file system that left the files of the entry alone, a lookup
    returns the stored bitcode exactly when every dependency can be read and their
    concatenated contents hash as they did; in particular right after the store.
    Files outside the entry are untouched. *)
Theorem cache_lookup_after_store (sha256 : string → list N) (cache : IRCache) (fs : FileSystem)
    (command : CompileCommand) (bitcode depfile fragment stamped : string) :
  let deps := parseDependencyFile fragment in
  fs !! depfile = Some fragment → deps ≠ [] → readAll fs deps = Some stamped →
  (∀ d, d ∈ deps → d ∉ cacheFiles sha256 cache command) →
  ∃ fs', store sha256 no_faults cache fs command bitcode depfile
           = (Some (entryPath sha256 cache command ".bc"), fs') ∧
    lookup_bitcode sha256 cache fs' command = Some bitcode ∧
    (∀ p, p ∉ cacheFiles sha256 cache command → fs' !! p = fs !! p) ∧
    ∀ later, (∀ p, p ∈ cacheFiles sha256 cache command → later !! p = fs' !! p) →
      lookup_bitcode sha256 cache later command =
      match readAll later deps with
      | Some contents =>
          if bool_decide (toHex (sha256 contents) = toHex (sha256 stamped)) then Some bitcode else None
      | None => None
      end.
Proof.
  intros deps Hd Hne Hall Hout.
  destruct (store_ok sha256 cache command fs bitcode depfile fragment stamped Hd Hne Hall)
    as (fs' & Hstore & Hentry & Hframe).
  exists fs'. split; [done|]. pose proof (parseDependencyFile_listable fragment) as Hl.
  split_and!; [|done|].
  - rewrite (lookup_entry _ _ _ _ _ _ _ Hl Hentry).
    rewrite (readAll_ext fs) by (intros p Hp; by apply Hframe, Hout).
    fold deps. by rewrite Hall, bool_decide_true.
  - intros later Hlater. apply (lookup_entry _ _ _ _ _ _ _ Hl).
    destruct Hentry as (H1 & H2 & H3). unfold entry_is.
    rewrite !Hlater by (unfold cacheFiles; set_solver). done.
Qed.

(** A unit of two files, its dependency file, and a cache in /cache. *)
Definition sample_cache : IRCache := MkIRCache "/cache".
Definition sample_command : CompileCommand := MkCompileCommand "a.c" "/p" ["-DX"].
Definition sample_fs (source header : string) : FileSystem :=
  list_to_map [("a.d", "a.o: a.c a.h"); ("a.c", source); ("a.h", header)].

Lemma sample_outside sha256 p :
  head_not (Ascii.eqb slash) p = true → p ∉ cacheFiles sha256 sample_cache sample_command.
Proof.
  intros Hp. unfold cacheFiles, entryPath, path_append, keyFor.
  rewrite !(key_relative _ _ : is_absolute (_ +:+ String "." _) = false).
  rewrite !not_elem_of_cons. repeat split; try by apply not_elem_of_nil.
  all: intros ->; discriminate Hp.
Qed.

Lemma cache_lookup_after_store_witness :
  let digest := λ s : string, [N.of_nat (String.length s) mod 256]%N in
  ∃ fs', store digest no_faults sample_cache (sample_fs "int x;" "y") sample_command "BC" "a.d"
           = (Some (entryPath digest sample_cache sample_command ".bc"), fs') ∧
    lookup_bitcode digest sample_cache fs' sample_command = Some "BC".
Proof.
  intros digest.
  destruct (cache_lookup_after_store digest sample_cache (sample_fs "int x;" "y") sample_command "BC"
              "a.d" "a.o: a.c a.h" "int x;y") as (fs' & H1 & H2 & _).
  - reflexivity.
  - discriminate.
  - reflexivity.
  - intros d Hd. apply sample_outside. vm_compute in Hd.
    repeat (apply elem_of_cons in Hd as [->|Hd]; [reflexivity|]). by apply elem_of_nil in Hd.
  - exists fs'. by split.
Defined.

(** A change can go unnoticed: the stamp hashes the dependencies one after the
    other with nothing between them, so bytes that move from the start of one file
    to the end of the file before it leave, for every digest, a hit on bitcode
    compiled from other sources. *)
Theorem cache_misses_moved_bytes (sha256 : string → list N) (bitcode : string) :
  ∃ fs', store sha256 no_faults sample_cache (sample_fs "int x;" "int y;") sample_command bitcode "a.d"
           = (Some (entryPath sha256 sample_cache sample_command ".bc"), fs') ∧
    lookup_bitcode sha256 sample_cache (<["a.c" := "int x;int y;"]> (<["a.h" := ""]> fs')) sample_command
    = Some bitcode.
Proof.
  assert (∀ p, p ∈ ["a.c"; "a.h"] → p ∉ cacheFiles sha256 sample_cache sample_command) as Hout.
  { intros p Hp. apply sample_outside.
    repeat (apply elem_of_cons in Hp as [->|Hp]; [reflexivity|]). by apply elem_of_nil in Hp. }
  destruct (store_ok sha256 sample_cache sample_command (sample_fs "int x;" "int y;") bitcode
              "a.d" "a.o: a.c a.h" "int x;int y;") as (fs' & H1 & (Hbc & Hdeps & Hst) & _);
    [reflexivity|discriminate|reflexivity|].
  exists fs'. split; [done|].
  rewrite (lookup_entry _ _ _ _ bitcode ["a.c"; "a.h"] (toHex (sha256 "int x;int y;"))).
  - unfold readAll, readFile. rewrite lookup_insert_eq, lookup_insert_ne, lookup_insert_eq by done.
    cbn [mbind option_bind]. by rewrite bool_decide_true.
  - repeat constructor; discriminate.
  - assert (∀ p s, p ∈ ["a.c"; "a.h"] → s ∈ [".bc"; ".deps"; ".stamp"] →
      p ≠ entryPath sha256 sample_cache sample_command s) as Hneq.
    { intros p s Hp Hs ->. apply (Hout _ Hp). unfold cacheFiles. rewrite !elem_of_cons, elem_of_nil in *.
      naive_solver. }
    unfold entry_is. by rewrite !lookup_insert_ne by (apply Hneq; rewrite !elem_of_cons; tauto).
Qed.

(** The system refuses to open one file for writing: a full disk, a lost mount. *)
Definition refusing (path : string) : Faults :=
  MkFaults (λ p, negb (bool_decide (p = path))) (λ _, true) (λ _, true) (λ _, "").

(** A store stopped after its first file has replaced the bitcode of the entry. *)
Lemma store_stopped sha256 cache command fs bitcode depfile fragment stamped :
  fs !! depfile = Some fragment → parseDependencyFile fragment ≠ [] →
  readAll fs (parseDependencyFile fragment) = Some stamped →
  ∃ fs', store sha256 (refusing (entryPath sha256 cache command ".deps" +:+ ".tmp")) cache fs command
           bitcode depfile = (None, fs') ∧
    fs' !! entryPath sha256 cache command ".bc" = Some bitcode ∧
    ∀ p, p ≠ entryPath sha256 cache command ".bc" →
      p ≠ entryPath sha256 cache command ".bc" +:+ ".tmp" → fs' !! p = fs !! p.
Proof.
  intros Hd Hne Hall. unfold store, readFile. rewrite Hd, bool_decide_false, Hall by done.
  pose proof (cacheFiles_NoDup sha256 cache command) as Hnd. unfold cacheFiles in Hnd.
  rewrite !NoDup_cons, !not_elem_of_cons in Hnd.
  unfold writeFileAtomically at 1. cbn [refusing can_open can_write can_rename].
  rewrite bool_decide_false by naive_solver. cbn [negb].
  unfold writeFileAtomically at 1. cbn [refusing can_open]. rewrite bool_decide_true by done.
  cbn [negb]. eexists. split; [done|]. split.
  - by rewrite lookup_insert_eq.
  - intros p Hp1 Hp2. by rewrite lookup_after_write, decide_False.
Qed.

(** A store that fails half-way can serve the bitcode of other sources: the
    entry of the sources is complete, the source changes, storing its bitcode stops
    after the first file, the source is changed back, and the lookup returns the
    bitcode of the changed source, for every digest. *)
Theorem stopped_store_poisons_entry (sha256 : string → list N) (v1 v2 header b1 b2 : string) :
  ∃ fs1 fs2,
    store sha256 no_faults sample_cache (sample_fs v1 header) sample_command b1 "a.d"
      = (Some (entryPath sha256 sample_cache sample_command ".bc"), fs1) ∧
    store sha256 (refusing (entryPath sha256 sample_cache sample_command ".deps" +:+ ".tmp"))
      sample_cache (<["a.c" := v2]> fs1) sample_command b2 "a.d" = (None, fs2) ∧
    lookup_bitcode sha256 sample_cache (<["a.c" := v1]> fs2) sample_command = Some b2.
Proof.
  set (entry := entryPath sha256 sample_cache sample_command).
  assert (∀ p, p ∈ ["a.c"; "a.h"; "a.d"] → p ∉ cacheFiles sha256 sample_cache sample_command) as Hout.
  { intros p Hp. apply sample_outside.
    repeat (apply elem_of_cons in Hp as [->|Hp]; [reflexivity|]). by apply elem_of_nil in Hp. }
  destruct (store_ok sha256 sample_cache sample_command (sample_fs v1 header) b1 "a.d"
              "a.o: a.c a.h" (v1 +:+ header +:+ "")) as (fs1 & H1 & (Hbc & Hdeps & Hst) & Hframe);
    [reflexivity|discriminate|reflexivity|].
  assert (fs1 !! "a.d" = Some "a.o: a.c a.h" ∧ fs1 !! "a.h" = Some header) as [Hd Hh].
  { rewrite !Hframe by (apply Hout; rewrite !elem_of_cons; tauto). done. }
  destruct (store_stopped sha256 sample_cache sample_command (<["a.c" := v2]> fs1) b2 "a.d"
              "a.o: a.c a.h" (v2 +:+ header +:+ "")) as (fs2 & H2 & Hbc2 & Hframe2).
  { by rewrite lookup_insert_ne. }
  { discriminate. }
  { change (parseDependencyFile "a.o: a.c a.h") with ["a.c"; "a.h"]. unfold readAll, readFile.
    by rewrite lookup_insert_eq, lookup_insert_ne, Hh. }
  exists fs1, fs2. split_and!; [done|done|].
  assert (∀ p s, p ∈ ["a.c"; "a.h"; "a.d"] → s ∈ cacheFiles sha256 sample_cache sample_command → p ≠ s)
    as Hneq by (intros p s Hp Hs ->; by apply (Hout _ Hp)).
  rewrite (lookup_entry _ _ _ _ b2 ["a.c"; "a.h"] (toHex (sha256 (v1 +:+ header +:+ "")))).
  - unfold readAll, readFile. rewrite lookup_insert_eq, lookup_insert_ne, Hframe2, lookup_insert_ne, Hh;
      [by cbn [mbind option_bind]; rewrite bool_decide_true|done| | |done];
      apply Hneq; unfold cacheFiles; rewrite !elem_of_cons; tauto.
  - repeat constructor; discriminate.
  - pose proof (cacheFiles_NoDup sha256 sample_cache sample_command) as Hnd.
    unfold cacheFiles in Hnd. rewrite !NoDup_cons, !not_elem_of_cons in Hnd.
    unfold entry_is. rewrite !(lookup_insert_ne _ "a.c")
      by (apply Hneq; unfold cacheFiles; rewrite !elem_of_cons; tauto).
    split; [done|]. rewrite !Hframe2 by naive_solver.
    by rewrite !lookup_insert_ne by (apply Hneq; unfold cacheFiles; rewrite !elem_of_cons; tauto).
Qed.
