(* ===== verification/Compiler.v ===== *)
(** The in-memory compiler (src/coretrace_concurrency_analyzer.cpp), with the two
    interfaces it is built from: the backend that runs the compiler
    (src/internal/compilation_backend.cpp) and the loader that parses IR
    (src/internal/ir_loader.cpp).

    The interfaces are type classes, and [compile] is written against them.  The
    implementations the program installs call compilerlib and LLVM's parsers,
    which are parameters of the instances.  What the operating system says about
    the input file is a record. *)

From S2P Require Import Prelude Text Errors CommandBuilder.

(** ** Interfaces *)

Record BackendCompileOutput := MkBackendOutput {
  bo_success : bool;
  bo_diagnostics : string;
  bo_llvmIR : string;
  bo_llvmBitcode : string;
}.

Class ICompilationBackend := {
  compileLLToMemory : list string → bool → BackendCompileOutput;
  compileBCToMemory : list string → bool → BackendCompileOutput;
}.

(** A loader returns the module, or nothing and sets [error]; the error a caller
    passes in is left alone when there is a module. *)
Class IIRLoader (Module : Type) := {
  parseLL : string → CompileError → option Module * CompileError;
  parseBC : string → CompileError → option Module * CompileError;
  parseLL_keeps_error : ∀ text error, is_Some (parseLL text error).1 → (parseLL text error).2 = error;
  parseBC_keeps_error : ∀ bytes error, is_Some (parseBC bytes error).1 → (parseBC bytes error).2 = error;
}.

(** ** The implementations the program installs *)

Inductive OutputMode := ToMemory | ToMemoryBitcode.

(** [toBackendOutput] copies compilerlib's result field by field. *)
Definition toBackendOutput (raw : BackendCompileOutput) : BackendCompileOutput :=
  MkBackendOutput (bo_success raw) (bo_diagnostics raw) (bo_llvmIR raw) (bo_llvmBitcode raw).

Definition CompilerLibBackend
    (compilerlib_compile : list string → OutputMode → bool → BackendCompileOutput)
  : ICompilationBackend := {|
  compileLLToMemory args instrument := toBackendOutput (compilerlib_compile args ToMemory instrument);
  compileBCToMemory args instrument :=
    toBackendOutput (compilerlib_compile args ToMemoryBitcode instrument);
|}.

(** [setError] of the loader. *)
Definition loaderError (code : CompileErrc) (message : string) : CompileError :=
  MkCompileError (make_error_code code) CompilePhase_IRParse message.

Section loader.
Context {Module : Type}.
(** LLVM's parsers: a module, or the text of the failure. *)
Context (llvm_parseIR : string → Module + string).
Context (llvm_parseBitcodeFile : string → string → Module + string).

Definition loader_parseLL (llvmIR : string) (error : CompileError) : option Module * CompileError :=
  match llvm_parseIR llvmIR with
  | inl module => (Some module, error)
  | inr message => (None, loaderError CompileErrc_IRParseFailed message)
  end.

Definition loader_parseBC (llvmBitcode bufferName : string) (error : CompileError)
  : option Module * CompileError :=
  match llvm_parseBitcodeFile llvmBitcode bufferName with
  | inl module => (Some module, error)
  | inr message => (None, loaderError CompileErrc_BitcodeParseFailed message)
  end.

#[refine] Definition LLVMIRLoader : IIRLoader Module := {|
  parseLL := loader_parseLL;
  parseBC llvmBitcode error := loader_parseBC llvmBitcode "in_memory_bc" error;
|}.
Proof.
  - intros text error. unfold loader_parseLL. destruct (llvm_parseIR text); [done|]. by intros [].
  - intros bytes error. unfold loader_parseBC.
    destruct (llvm_parseBitcodeFile bytes _); [done|]. by intros [].
Defined.
End loader.

(** ** Validating the input *)

(** What [exists] and [is_regular_file] answer, each with the message of the error
    code when the system could not tell, and whether the file opens. *)
Record FileStatus := MkFileStatus {
  st_exists : bool * option string;
  st_regular : bool * option string;
  st_readable : bool;
}.

Definition inputError (code : CompileErrc) (message : string) : CompileError :=
  MkCompileError (make_error_code code) CompilePhase_ValidateInput message.

(** The error set on the way out with [false]; nothing when the file is usable. *)
Definition validateInputFile (status : string → FileStatus) (inputFile : string)
  : option CompileError :=
  let s := status inputFile in
  if negb (st_exists s).1 then
    Some (match (st_exists s).2 with
          | Some ec => inputError CompileErrc_InputFileAccessFailed ("'" +:+ inputFile +:+ "': " +:+ ec)
          | None => inputError CompileErrc_InputFileDoesNotExist inputFile
          end)
  else if negb (st_regular s).1 then
    Some (match (st_regular s).2 with
          | Some ec => inputError CompileErrc_InputFileAccessFailed ("'" +:+ inputFile +:+ "': " +:+ ec)
          | None => inputError CompileErrc_InputFileNotRegular inputFile
          end)
  else if negb (st_readable s) then Some (inputError CompileErrc_InputFileNotReadable inputFile)
  else None.

(** ** Compiling *)

Record CompileResult (Module : Type) := MkCompileResult {
  res_success : bool;
  res_diagnostics : string;
  res_error : CompileError;
  res_llvmIRText : string;
  res_llvmBitcode : string;
  res_module : option Module;
}.
Arguments MkCompileResult {Module}.
Arguments res_success {Module}.
Arguments res_diagnostics {Module}.
Arguments res_error {Module}.
Arguments res_llvmIRText {Module}.
Arguments res_llvmBitcode {Module}.
Arguments res_module {Module}.

(** A result that carries an error and nothing else but the diagnostics and what
    was produced before. *)
Definition failed_result {Module} (diagnostics : string) (error : CompileError)
    (llvmIRText llvmBitcode : string) : CompileResult Module :=
  MkCompileResult false diagnostics error llvmIRText llvmBitcode None.

(** [setCompileError]. *)
Definition compileError (phase : CompilePhase) (code : CompileErrc) (message : string)
  : CompileError := MkCompileError (make_error_code code) phase message.

Section compile.
Context {Module : Type} `{!ICompilationBackend, !IIRLoader Module}.
Context (moved_from : string) (status : string → FileStatus).

(** The end of both modes: the module the loader returned, or its error, or the
    one named here when the loader set none. *)
Definition loaded (diagnostics llvmIRText llvmBitcode : string)
    (parsed : option Module * CompileError) (unparsed : CompileError) : CompileResult Module :=
  match parsed with
  | (Some module, error) =>
      MkCompileResult true diagnostics error llvmIRText llvmBitcode (Some module)
  | (None, error) =>
      failed_result diagnostics (if hasError error then error else unparsed) llvmIRText llvmBitcode
  end.

(** [None] when a loop of the command builder runs out of fuel. *)
Definition compile (request : CompileRequest) : option (CompileResult Module) :=
  if bool_decide (req_inputFile request = "") then
    Some (failed_result ""
      (compileError CompilePhase_ValidateInput CompileErrc_InvalidRequest "input file is required")
      "" "")
  else match validateInputFile status (req_inputFile request) with
  | Some error => Some (failed_result "" error "" "")
  | None =>
      match req_format request with
      | IRFormat_LL =>
          args ← buildLL moved_from request;
          let backendResult := compileLLToMemory args (req_instrument request) in
          let diagnostics := bo_diagnostics backendResult in
          Some (
            if negb (bo_success backendResult) then
              failed_result diagnostics
                (compileError CompilePhase_BackendCompile CompileErrc_BackendCompilationFailed
                   "backend failed in ll mode") "" ""
            else if bool_decide (bo_llvmIR backendResult = "") then
              failed_result diagnostics
                (compileError CompilePhase_BackendCompile CompileErrc_MissingIROutput
                   "compiler backend returned an empty IR payload in ll mode") "" ""
            else
              loaded diagnostics (bo_llvmIR backendResult) "" (parseLL (bo_llvmIR backendResult) no_error)
                (compileError CompilePhase_IRParse CompileErrc_IRParseFailed
                   "failed to parse LLVM IR in ll mode"))
      | IRFormat_BC =>
          args ← buildBC moved_from request;
          let backendResult := compileBCToMemory args (req_instrument request) in
          let diagnostics := bo_diagnostics backendResult in
          Some (
            if negb (bo_success backendResult) then
              failed_result diagnostics
                (compileError CompilePhase_BackendCompile CompileErrc_BackendCompilationFailed
                   "backend failed in bc mode") "" ""
            else if bool_decide (bo_llvmBitcode backendResult = "") then
              failed_result diagnostics
                (compileError CompilePhase_BackendCompile CompileErrc_MissingIROutput
                   "compiler backend returned an empty bitcode payload in bc mode") "" ""
            else
              loaded diagnostics "" (bo_llvmBitcode backendResult)
                (parseBC (bo_llvmBitcode backendResult) no_error)
                (compileError CompilePhase_IRParse CompileErrc_BitcodeParseFailed
                   "failed to parse LLVM bitcode in bc mode"))
      end
  end.
End compile.

(** ** Lemmas and theorems *)

Lemma made_error_hasError code phase message :
  code ≠ CompileErrc_Success → hasError (MkCompileError (make_error_code code) phase message) = true.
Proof. by destruct code. Qed.

Lemma validateInputFile_error status file error :
  validateInputFile status file = Some error →
  hasError error = true ∧ err_phase error = CompilePhase_ValidateInput.
Proof.
  unfold validateInputFile. intros H.
  repeat case_match; simplify_eq; (split; [by apply made_error_hasError|done]).
Qed.

Section theorems.
Context {Module : Type} `{!ICompilationBackend, !IIRLoader Module}.
Context (moved_from : string) (status : string → FileStatus).

(** A result is a success with a module and no error, or a failure with an error
    and no module. *)
Definition consistent (result : CompileResult Module) : Prop :=
  if res_success result
  then is_Some (res_module result) ∧ hasError (res_error result) = false
  else res_module result = None ∧ hasError (res_error result) = true.

Lemma loaded_consistent diagnostics text bytes parsed unparsed :
  (is_Some parsed.1 → parsed.2 = no_error) → hasError unparsed = true →
  consistent (loaded diagnostics text bytes parsed unparsed).
Proof.
  intros Hp Hu. destruct parsed as [[module|] error]; simpl in *.
  - split; simpl; [by eexists|]. by rewrite Hp by (by eexists).
  - split; simpl; [done|]. by destruct (hasError error) eqn:E.
Qed.

(** The three ways out after the backend has run. *)
Lemma stage_result (success : bool) diagnostics content text bytes e1 e2 parsed unparsed :
  err_phase e1 = CompilePhase_BackendCompile → hasError e1 = true →
  err_phase e2 = CompilePhase_BackendCompile → hasError e2 = true →
  (is_Some parsed.1 → parsed.2 = no_error) → hasError unparsed = true →
  let result :=
    if negb success then failed_result diagnostics e1 "" ""
    else if bool_decide (content = "") then failed_result diagnostics e2 "" ""
    else loaded diagnostics text bytes parsed unparsed in
  consistent result ∧ res_diagnostics result = diagnostics ∧
  if negb success || bool_decide (content = "")
  then err_phase (res_error result) = CompilePhase_BackendCompile
  else res_llvmIRText result = text ∧ res_llvmBitcode result = bytes.
Proof.
  intros H1 H1' H2 H2' Hp Hu. destruct success; simpl; [|done].
  destruct (bool_decide (content = "")); [done|]. split; [by apply loaded_consistent|].
  by destruct parsed as [[]].
Qed.

(** Where the compilation was decided. *)
Definition backendOutput (request : CompileRequest) (args : list string) : BackendCompileOutput :=
  match req_format request with
  | IRFormat_LL => compileLLToMemory args (req_instrument request)
  | IRFormat_BC => compileBCToMemory args (req_instrument request)
  end.

Definition payload (request : CompileRequest) (output : BackendCompileOutput) : string :=
  match req_format request with IRFormat_LL => bo_llvmIR output | IRFormat_BC => bo_llvmBitcode output end.

Lemma compile_spec (request : CompileRequest) :
  ∃ result, compile moved_from status request = Some result ∧ consistent result ∧
  if bool_decide (req_inputFile request = "")
     || bool_decide (is_Some (validateInputFile status (req_inputFile request)))
  then err_phase (res_error result) = CompilePhase_ValidateInput ∧ res_diagnostics result = ""
  else ∃ args, buildCommand moved_from (req_format request) request = Some args ∧
    let output := backendOutput request args in
    res_diagnostics result = bo_diagnostics output ∧
    if negb (bo_success output) || bool_decide (payload request output = "")
    then err_phase (res_error result) = CompilePhase_BackendCompile
    else match req_format request with
         | IRFormat_LL => res_llvmIRText result
         | IRFormat_BC => res_llvmBitcode result
         end = payload request output.
Proof.
  unfold compile. destruct (bool_decide (req_inputFile request = "")) eqn:Ei.
  { eexists. split; [done|]. by split. }
  destruct (validateInputFile status (req_inputFile request)) as [error|] eqn:Ev.
  { rewrite bool_decide_true by eauto. simpl.
    destruct (validateInputFile_error _ _ _ Ev) as [He Hp]. eexists. split; [done|]. by split. }
  rewrite bool_decide_false by (by intros [? [=]]). cbn [orb].
  pose proof (buildCommand_eq moved_from (req_format request) request) as Hargs.
  unfold backendOutput, payload. destruct (req_format request) eqn:Ef;
    unfold buildCommand in Hargs |- *; rewrite Hargs; cbn [mbind option_bind];
    set (args := finishCommand _ _) in *; clearbody args; eexists; (split; [done|]).
  - destruct (stage_result (bo_success (compileLLToMemory args (req_instrument request)))
      (bo_diagnostics (compileLLToMemory args (req_instrument request)))
      (bo_llvmIR (compileLLToMemory args (req_instrument request)))
      (bo_llvmIR (compileLLToMemory args (req_instrument request))) ""
      (compileError CompilePhase_BackendCompile CompileErrc_BackendCompilationFailed
         "backend failed in ll mode")
      (compileError CompilePhase_BackendCompile CompileErrc_MissingIROutput
         "compiler backend returned an empty IR payload in ll mode")
      (parseLL (bo_llvmIR (compileLLToMemory args (req_instrument request))) no_error)
      (compileError CompilePhase_IRParse CompileErrc_IRParseFailed
         "failed to parse LLVM IR in ll mode")) as (Hc & Hd & Hp);
      [done..|apply parseLL_keeps_error|done|].
    split; [exact Hc|]. exists args. split; [done|]. split; [exact Hd|].
    destruct (_ || _) in Hp |- *; [exact Hp|exact (proj1 Hp)].
  - destruct (stage_result (bo_success (compileBCToMemory args (req_instrument request)))
      (bo_diagnostics (compileBCToMemory args (req_instrument request)))
      (bo_llvmBitcode (compileBCToMemory args (req_instrument request))) ""
      (bo_llvmBitcode (compileBCToMemory args (req_instrument request)))
      (compileError CompilePhase_BackendCompile CompileErrc_BackendCompilationFailed
         "backend failed in bc mode")
      (compileError CompilePhase_BackendCompile CompileErrc_MissingIROutput
         "compiler backend returned an empty bitcode payload in bc mode")
      (parseBC (bo_llvmBitcode (compileBCToMemory args (req_instrument request))) no_error)
      (compileError CompilePhase_IRParse CompileErrc_BitcodeParseFailed
         "failed to parse LLVM bitcode in bc mode")) as (Hc & Hd & Hp);
      [done..|apply parseBC_keeps_error|done|].
    split; [exact Hc|]. exists args. split; [done|]. split; [exact Hd|].
    destruct (_ || _) in Hp |- *; [exact Hp|exact (proj2 Hp)].
Qed.
End theorems.
