(* ===== verification/CliOptions.v ===== *)
(** The command line of the program (src/main.cpp, up to the options being read):
    the parsers of the option values, the loop over the arguments, the help text,
    the summary of a request and the exit code of a report.

    What the program writes is a list of texts, each to one of the two streams.  The
    version is a macro the build defines, a parameter. *)

From S2P Require Import Prelude Text Diagnostics CommandBuilder.

Inductive Output := Stdout (text : string) | Stderr (text : string).

(** How the process ends: its exit code and what it wrote. *)
Record Exit := MkExit { exit_code : Z; exit_output : list Output }.

Definition kFindingsExitCode : Z := 2.

(** The text of [printHelp], line by line. *)
Definition helpLines : list string :=
  ["CoreTrace Concurrency Analyzer bootstrap CLI";
   "";
   "Usage:";
   "  coretrace_concurrency_analyzer <file.c|cpp> [options]";
   "";
   "Options:";
   "  --ir-format=ll|bc        Compilation output mode (default: bc)";
   "  --compile-arg=<arg>      Forward a compile argument (repeatable)";
   "  --instrument             Enable compilerlib instrumentation mode";
   "  --compile-commands=PATH  Analyse a whole project from a compile_commands.json";
   "                           instead of a single file (implies --analyze)";
   "  --no-cache               Recompile every unit, and neither read nor write the";
   "                           IR cache; the bitcode is then kept in memory";
   "  --max-live-units=N       Most units held in memory at once during a project";
   "                           analysis (default: one per hardware thread)";
   "";
   "Sources are always compiled unoptimized: the analysis describes the program as";
   "written, and an optimizer removes the very structure the rules read.";
   "  --analyze                Run selected single-TU concurrency checks on the IR module";
   "  --rules=<comma-separated>|all";
   "                           Rule selection for --analyze. Available: data-race,";
   "                           missing-join, deadlock-lock-order, condition-wait,";
   "                           fork-after-thread, unreaped-child, thread-arg-escape,";
   "                           unsafe-signal-handler, weak-publication,";
   "                           thread-arg-freed, thread-local-escape, or `all`";
   "                           (default: every rule)";
   "  --format=human|json|sarif";
   "                           Diagnostic output format for --analyze (default: human)";
   "  --verbose                Print request details for debugging";
   "  --                       Forward all following args to compilerlib";
   "  -h, --help               Show this help message";
   "  --version                Print the analyzer version and exit";
   "  --fail-on=none|error|warning";
   "                           Exit " +:+ pretty kFindingsExitCode +:+ " when the analysis reports at that severity or";
   "                           above (default: none). Exit 1 still means the";
   "                           analysis could not run.";
   "";
   "Examples:";
   "  coretrace_concurrency_analyzer test.c --ir-format=ll";
   "  coretrace_concurrency_analyzer test.c --ir-format=bc --compile-arg=-Iinclude";
   "  coretrace_concurrency_analyzer test.c --analyze --format=human";
   "  coretrace_concurrency_analyzer test.c --analyze --rules=all --format=human";
   "  coretrace_concurrency_analyzer test.c --analyze --format=sarif";
   "  coretrace_concurrency_analyzer test.c -- --std=gnu11 -Wall";
   "  coretrace_concurrency_analyzer --compile-commands=build/compile_commands.json"].

Definition printHelp : list Output := [Stdout (unlines helpLines)].

Definition toString_irFormat (format : IRFormat) : string :=
  match format with IRFormat_LL => "ll" | IRFormat_BC => "bc" end.

(** ** Option values *)

Definition parseFormat (value : string) : option IRFormat :=
  if bool_decide (value = "ll") then Some IRFormat_LL
  else if bool_decide (value = "bc") then Some IRFormat_BC
  else None.

Definition parseOutputFormat (value : string) : option OutputFormat :=
  if bool_decide (value = "human") then Some OutputFormat_Human
  else if bool_decide (value = "json") then Some OutputFormat_Json
  else if bool_decide (value = "sarif") then Some OutputFormat_Sarif
  else None.

Definition ruleOptionLabel (ruleId : RuleId) : string :=
  match ruleId with
  | RuleId_DataRaceGlobal => "data-race"
  | RuleId_MissingJoin => "missing-join"
  | RuleId_DeadlockLockOrder => "deadlock-lock-order"
  | RuleId_ConditionWaitWithoutPredicate => "condition-wait"
  | RuleId_ForkAfterThreadCreation => "fork-after-thread"
  | RuleId_UnreapedChildProcess => "unreaped-child"
  | RuleId_ThreadArgumentEscapesFrame => "thread-arg-escape"
  | RuleId_UnsafeSignalHandler => "unsafe-signal-handler"
  | RuleId_WeakPublicationOrdering => "weak-publication"
  | RuleId_ThreadArgumentFreedEarly => "thread-arg-freed"
  | RuleId_ThreadLocalOutlivesThread => "thread-local-escape"
  | RuleId_CompilerDiagnostic => "compiler-diagnostic"
  end.

Definition parseAnalysisRule (value : string) : option RuleId :=
  if bool_decide (value = "data-race") then Some RuleId_DataRaceGlobal
  else if bool_decide (value = "missing-join") then Some RuleId_MissingJoin
  else if bool_decide (value = "deadlock-lock-order") then Some RuleId_DeadlockLockOrder
  else if bool_decide (value = "condition-wait") then Some RuleId_ConditionWaitWithoutPredicate
  else if bool_decide (value = "fork-after-thread") then Some RuleId_ForkAfterThreadCreation
  else if bool_decide (value = "unreaped-child") then Some RuleId_UnreapedChildProcess
  else if bool_decide (value = "thread-arg-escape") then Some RuleId_ThreadArgumentEscapesFrame
  else if bool_decide (value = "unsafe-signal-handler") then Some RuleId_UnsafeSignalHandler
  else if bool_decide (value = "weak-publication") then Some RuleId_WeakPublicationOrdering
  else if bool_decide (value = "thread-arg-freed") then Some RuleId_ThreadArgumentFreedEarly
  else if bool_decide (value = "thread-local-escape") then Some RuleId_ThreadLocalOutlivesThread
  else None.

Definition appendRuleIfMissing (enabledRules : list RuleId) (ruleId : RuleId) : list RuleId :=
  if bool_decide (ruleId ∈ enabledRules) then enabledRules else enabledRules ++ [ruleId].

(** The loop over the tokens between commas. *)
Fixpoint parseRuleTokens (tokens : list string) (enabledRules : list RuleId)
  : option (list RuleId) :=
  match tokens with
  | [] => Some enabledRules
  | token :: rest =>
      if bool_decide (token = "") then None
      else match parseAnalysisRule token with
           | None => None
           | Some ruleId => parseRuleTokens rest (appendRuleIfMissing enabledRules ruleId)
           end
  end.

(** The options after a successful parse; [maxLiveUnits] of the new options is that
    of a default-constructed record. *)
Definition parseAnalysisRules (value : string) : option AnalysisOptions :=
  if bool_decide (value = "all") then Some allAvailable
  else
    rules ← parseRuleTokens (split_on "," value) [];
    if bool_decide (rules = []) then None else Some (MkOptions rules 0).

Inductive FailOn := FailOn_None | FailOn_Error | FailOn_Warning.

Definition parseFailOn (value : string) : option FailOn :=
  if bool_decide (value = "none") then Some FailOn_None
  else if bool_decide (value = "error") then Some FailOn_Error
  else if bool_decide (value = "warning") then Some FailOn_Warning
  else None.

Definition gateExitCode (policy : FailOn) (summary : DiagnosticSummary) : Z :=
  match policy with
  | FailOn_None => 0
  | FailOn_Error => if 0 <? sum_error summary then kFindingsExitCode else 0
  | FailOn_Warning =>
      if (0 <? sum_error summary) || (0 <? sum_warning summary) then kFindingsExitCode else 0
  end.

(** The test on the result of [std::from_chars] into a [std::size_t]: the whole
    value is digits, it fits in 64 bits, and it is not zero. *)
Definition parseMaxLiveUnits (value : string) : option N :=
  if bool_decide (value ≠ "") && all_chars is_digit value
     && (decimal_value 0 value <? 2 ^ 64)%N && negb (decimal_value 0 value =? 0)%N
  then Some (decimal_value 0 value) else None.

(** ** The loop over the arguments *)

(** The local variables of [main]. *)
Record CliState := MkCli {
  cli_request : CompileRequest;
  cli_analyze : bool;
  cli_passthroughMode : bool;
  cli_verbose : bool;
  cli_failOn : FailOn;
  cli_outputFormatExplicit : bool;
  cli_rulesExplicit : bool;
  cli_compileCommandsPath : string;
  cli_useCache : bool;
  cli_outputFormat : OutputFormat;
  cli_analysisOptions : AnalysisOptions;
}.

Definition initial_cli : CliState := {|
  cli_request := MkCompileRequest "" [] IRFormat_BC false;
  cli_analyze := false;
  cli_passthroughMode := false;
  cli_verbose := false;
  cli_failOn := FailOn_None;
  cli_outputFormatExplicit := false;
  cli_rulesExplicit := false;
  cli_compileCommandsPath := "";
  cli_useCache := true;
  cli_outputFormat := OutputFormat_Human;
  cli_analysisOptions := allAvailable;
|}.

(** Assignments to one variable. *)
Definition set_request (f : CompileRequest → CompileRequest) (s : CliState) : CliState :=
  MkCli (f (cli_request s)) (cli_analyze s) (cli_passthroughMode s) (cli_verbose s) (cli_failOn s)
    (cli_outputFormatExplicit s) (cli_rulesExplicit s) (cli_compileCommandsPath s) (cli_useCache s)
    (cli_outputFormat s) (cli_analysisOptions s).
Definition set_analyze (s : CliState) : CliState :=
  MkCli (cli_request s) true (cli_passthroughMode s) (cli_verbose s) (cli_failOn s)
    (cli_outputFormatExplicit s) (cli_rulesExplicit s) (cli_compileCommandsPath s) (cli_useCache s)
    (cli_outputFormat s) (cli_analysisOptions s).
Definition set_passthrough (s : CliState) : CliState :=
  MkCli (cli_request s) (cli_analyze s) true (cli_verbose s) (cli_failOn s)
    (cli_outputFormatExplicit s) (cli_rulesExplicit s) (cli_compileCommandsPath s) (cli_useCache s)
    (cli_outputFormat s) (cli_analysisOptions s).
Definition set_verbose (s : CliState) : CliState :=
  MkCli (cli_request s) (cli_analyze s) (cli_passthroughMode s) true (cli_failOn s)
    (cli_outputFormatExplicit s) (cli_rulesExplicit s) (cli_compileCommandsPath s) (cli_useCache s)
    (cli_outputFormat s) (cli_analysisOptions s).
Definition set_failOn (f : FailOn) (s : CliState) : CliState :=
  MkCli (cli_request s) (cli_analyze s) (cli_passthroughMode s) (cli_verbose s) f
    (cli_outputFormatExplicit s) (cli_rulesExplicit s) (cli_compileCommandsPath s) (cli_useCache s)
    (cli_outputFormat s) (cli_analysisOptions s).
Definition set_outputFormat (f : OutputFormat) (s : CliState) : CliState :=
  MkCli (cli_request s) (cli_analyze s) (cli_passthroughMode s) (cli_verbose s) (cli_failOn s)
    true (cli_rulesExplicit s) (cli_compileCommandsPath s) (cli_useCache s) f
    (cli_analysisOptions s).
Definition set_rules (o : AnalysisOptions) (s : CliState) : CliState :=
  MkCli (cli_request s) (cli_analyze s) (cli_passthroughMode s) (cli_verbose s) (cli_failOn s)
    (cli_outputFormatExplicit s) true (cli_compileCommandsPath s) (cli_useCache s)
    (cli_outputFormat s) o.
Definition set_maxLiveUnits (n : N) (s : CliState) : CliState :=
  MkCli (cli_request s) (cli_analyze s) (cli_passthroughMode s) (cli_verbose s) (cli_failOn s)
    (cli_outputFormatExplicit s) (cli_rulesExplicit s) (cli_compileCommandsPath s) (cli_useCache s)
    (cli_outputFormat s) (MkOptions (enabledRules (cli_analysisOptions s)) n).
Definition set_noCache (s : CliState) : CliState :=
  MkCli (cli_request s) (cli_analyze s) (cli_passthroughMode s) (cli_verbose s) (cli_failOn s)
    (cli_outputFormatExplicit s) (cli_rulesExplicit s) (cli_compileCommandsPath s) false
    (cli_outputFormat s) (cli_analysisOptions s).
Definition set_compileCommands (path : string) (s : CliState) : CliState :=
  MkCli (cli_request s) true (cli_passthroughMode s) (cli_verbose s) (cli_failOn s)
    (cli_outputFormatExplicit s) (cli_rulesExplicit s) path (cli_useCache s)
    (cli_outputFormat s) (cli_analysisOptions s).

Definition add_compileArg (arg : string) (r : CompileRequest) : CompileRequest :=
  MkCompileRequest (req_inputFile r) (req_extraCompileArgs r ++ [arg]) (req_format r) (req_instrument r).
Definition with_format (format : IRFormat) (r : CompileRequest) : CompileRequest :=
  MkCompileRequest (req_inputFile r) (req_extraCompileArgs r) format (req_instrument r).
Definition with_instrument (r : CompileRequest) : CompileRequest :=
  MkCompileRequest (req_inputFile r) (req_extraCompileArgs r) (req_format r) true.
Definition with_input (file : string) (r : CompileRequest) : CompileRequest :=
  MkCompileRequest file (req_extraCompileArgs r) (req_format r) (req_instrument r).

(** The rest of the argument after the prefix, when it has it. *)
Fixpoint after_prefix (prefix arg : string) : option string :=
  match prefix, arg with
  | "", _ => Some arg
  | String p prefix', String a arg' => if Ascii.eqb p a then after_prefix prefix' arg' else None
  | _, "" => None
  end.

(** [return 1] after a message. *)
Definition usageError (message : string) : CliState + Exit :=
  inr (MkExit 1 [Stderr (message +:+ String newline "")]).

(** The tail of the loop's body: options without a value come before and after the
    ones with a prefix, in the order of the source. *)
Definition plainArgument (arg : string) (s : CliState) : CliState + Exit :=
  if bool_decide (arg = "--instrument") then inl (set_request with_instrument s)
  else if starts_with arg "-" then usageError ("Unknown option: " +:+ arg)
  else if bool_decide (req_inputFile (cli_request s) = "") then inl (set_request (with_input arg) s)
  else usageError ("Unexpected positional argument: " +:+ arg).

Section loop.
Context (version : string).

Definition parseArgument (s : CliState) (arg : string) : CliState + Exit :=
  if cli_passthroughMode s then inl (set_request (add_compileArg arg) s)
  else if bool_decide (arg = "--") then inl (set_passthrough s)
  else if bool_decide (arg = "-h") || bool_decide (arg = "--help") then inr (MkExit 0 printHelp)
  else if bool_decide (arg = "--version")
  then inr (MkExit 0 [Stdout ("coretrace_concurrency_analyzer " +:+ version +:+ String newline "")])
  else if bool_decide (arg = "--verbose") then inl (set_verbose s)
  else if bool_decide (arg = "--analyze") then inl (set_analyze s)
  else match after_prefix "--ir-format=" arg with
  | Some value =>
      match parseFormat value with
      | Some format => inl (set_request (with_format format) s)
      | None => usageError ("Unsupported --ir-format value: " +:+ arg)
      end
  | None => match after_prefix "--max-live-units=" arg with
  | Some value =>
      match parseMaxLiveUnits value with
      | Some parsed => inl (set_maxLiveUnits parsed s)
      | None => usageError ("Unsupported --max-live-units value: " +:+ arg
                            +:+ " (expected a positive integer)")
      end
  | None => match after_prefix "--fail-on=" arg with
  | Some value =>
      match parseFailOn value with
      | Some policy => inl (set_failOn policy s)
      | None => usageError ("Unsupported --fail-on value: " +:+ arg)
      end
  | None => match after_prefix "--format=" arg with
  | Some value =>
      match parseOutputFormat value with
      | Some format => inl (set_outputFormat format s)
      | None => usageError ("Unsupported --format value: " +:+ arg)
      end
  | None => match after_prefix "--rules=" arg with
  | Some value =>
      match parseAnalysisRules value with
      | Some options => inl (set_rules options s)
      | None => usageError ("Unsupported --rules value: " +:+ arg)
      end
  | None =>
  if bool_decide (arg = "--no-cache") then inl (set_noCache s)
  else match after_prefix "--compile-commands=" arg with
  | Some path =>
      if bool_decide (path = "") then usageError "--compile-commands requires a path"
      else inl (set_compileCommands path s)
  | None => match after_prefix "--compile-arg=" arg with
  | Some value => inl (set_request (add_compileArg value) s)
  | None => plainArgument arg s
  end end end end end end end.

Fixpoint parseArguments (s : CliState) (args : list string) : CliState + Exit :=
  match args with
  | [] => inl s
  | arg :: rest =>
      match parseArgument s arg with
      | inl s' => parseArguments s' rest
      | inr exit => inr exit
      end
  end.
End loop.

(** The lambda [ruleLabel] of the summary has the cases of [ruleOptionLabel]. *)
Definition printRequestSummary (request : CompileRequest) (analyze : bool)
    (analysisOptions : AnalysisOptions) (outputFormat : OutputFormat) : string :=
  let bool_text (b : bool) := if b then "true" else "false" in
  unlines (
    ["request.input-file: " +:+ req_inputFile request;
     "request.ir-format: " +:+ toString_irFormat (req_format request);
     "request.instrument: " +:+ bool_text (req_instrument request);
     "request.analyze: " +:+ bool_text analyze] ++
    (if analyze then
       ["request.output-format: " +:+ toString_format outputFormat;
        "request.rules:" +:+
          join_with "" ((λ ruleId, " " +:+ ruleOptionLabel ruleId) <$> enabledRules analysisOptions)]
     else []) ++
    ["request.extra-args-count: " +:+ pretty (length (req_extraCompileArgs request))] ++
    ((λ arg, "request.extra-arg: " +:+ arg) <$> req_extraCompileArgs request)).

(** ** Round trips *)

(** The rules an option can name. *)
Definition selectable (r : RuleId) : Prop := r ≠ RuleId_CompilerDiagnostic.

Lemma parse_rule_label r : selectable r → parseAnalysisRule (ruleOptionLabel r) = Some r.
Proof. by destruct r. Qed.

Lemma rule_label_facts r :
  all_chars (other_than ",") (ruleOptionLabel r) = true ∧ ruleOptionLabel r ≠ "".
Proof. by destruct r. Qed.

Definition printRules (rules : list RuleId) : string :=
  String.concat "," (ruleOptionLabel <$> rules).

Lemma parseRuleTokens_labels rules seen :
  Forall selectable rules → NoDup (seen ++ rules) →
  parseRuleTokens (ruleOptionLabel <$> rules) seen = Some (seen ++ rules).
Proof.
  intros Hr. revert seen. induction Hr as [|r rules Hr Hrs IH]; intros seen Hnd; simpl.
  - by rewrite app_nil_r.
  - rewrite bool_decide_false by apply rule_label_facts. rewrite parse_rule_label by done.
    unfold appendRuleIfMissing. rewrite bool_decide_false.
    + rewrite IH by (by rewrite <-app_assoc). by rewrite <-app_assoc.
    + apply NoDup_app in Hnd as (_ & Hd & _). intros Hin. apply (Hd r Hin). by left.
Qed.

Lemma parse_printed_rules rules :
  rules ≠ [] → Forall selectable rules → NoDup rules →
  parseAnalysisRules (printRules rules) = Some (MkOptions rules 0).
Proof.
  intros Hne Hr Hnd. unfold parseAnalysisRules, printRules.
  rewrite bool_decide_false.
  - rewrite (split_on_concat ","), (parseRuleTokens_labels rules []); [|done|done| |].
    + cbn [mbind option_bind]. by rewrite bool_decide_false.
    + by destruct rules.
    + apply Forall_fmap, Forall_true. intros r. apply rule_label_facts.
  - destruct rules as [|r [|r' rules]]; [done|by destruct r|]. rewrite !fmap_cons.
    rewrite concat_cons by done. by destruct r.
Qed.

Definition print_failOn (policy : FailOn) : string :=
  match policy with FailOn_None => "none" | FailOn_Error => "error" | FailOn_Warning => "warning" end.

Lemma parseMaxLiveUnits_pretty (n : N) :
  (0 < n < 2 ^ 64)%N → parseMaxLiveUnits (pretty n) = Some n.
Proof.
  intros Hn. unfold parseMaxLiveUnits. rewrite pretty_N_digits, decimal_value_pretty.
  rewrite bool_decide_true by apply pretty_N_nonempty.
  rewrite (proj2 (N.ltb_lt _ _)), (proj2 (N.eqb_neq _ _)) by lia. done.
Qed.

Lemma after_prefix_app prefix rest : after_prefix prefix (prefix +:+ rest) = Some rest.
Proof.
  induction prefix as [|c prefix IH]; [by destruct rest|]. rewrite append_cons. simpl.
  by rewrite Ascii.eqb_refl.
Qed.

(** A positional argument is no option. *)
Lemma positional_no_option prefix arg :
  head_not (Ascii.eqb "-") arg = true → after_prefix (String "-" prefix) arg = None.
Proof. destruct arg as [|c arg]; [done|]. cbn [head_not after_prefix]. by destruct (Ascii.eqb "-" c). Qed.

Lemma positional_not_option_name name arg :
  head_not (Ascii.eqb "-") arg = true → bool_decide (arg = String "-" name) = false.
Proof. intros H. apply bool_decide_eq_false. intros ->. discriminate H. Qed.

(** A command line for given options.  The rules come before the number of live
    units, which they would reset. *)
Definition option_if (b : bool) (arg : string) : list string := if b then [arg] else [].

Definition printGeneral (s : CliState) : list string :=
  ("--ir-format=" +:+ toString_irFormat (req_format (cli_request s))) ::
  ("--fail-on=" +:+ print_failOn (cli_failOn s)) ::
  option_if (req_instrument (cli_request s)) "--instrument" ++
  option_if (cli_verbose s) "--verbose" ++
  option_if (negb (cli_useCache s)) "--no-cache".

Definition printAnalysis (s : CliState) : list string :=
  let options := cli_analysisOptions s in
  option_if (cli_outputFormatExplicit s) ("--format=" +:+ toString_format (cli_outputFormat s)) ++
  option_if (cli_rulesExplicit s) ("--rules=" +:+ printRules (enabledRules options)) ++
  option_if (bool_decide (maxLiveUnits options ≠ 0%N))
    ("--max-live-units=" +:+ pretty (maxLiveUnits options)) ++
  option_if (cli_analyze s) "--analyze".

Definition printInput (s : CliState) : list string :=
  option_if (bool_decide (cli_compileCommandsPath s ≠ ""))
    ("--compile-commands=" +:+ cli_compileCommandsPath s) ++
  option_if (bool_decide (req_inputFile (cli_request s) ≠ "")) (req_inputFile (cli_request s)) ++
  (if cli_passthroughMode s then "--" :: req_extraCompileArgs (cli_request s)
   else (λ arg, "--compile-arg=" +:+ arg) <$> req_extraCompileArgs (cli_request s)).

Definition printCli (s : CliState) : list string := printGeneral s ++ printAnalysis s ++ printInput s.

(** The options a command line can state. *)
Definition wf_cli (s : CliState) : Prop :=
  head_not (Ascii.eqb "-") (req_inputFile (cli_request s)) = true ∧
  (if cli_rulesExplicit s
   then enabledRules (cli_analysisOptions s) ≠ [] ∧
        Forall selectable (enabledRules (cli_analysisOptions s)) ∧
        NoDup (enabledRules (cli_analysisOptions s))
   else enabledRules (cli_analysisOptions s) = enabledRules allAvailable) ∧
  (maxLiveUnits (cli_analysisOptions s) < 2 ^ 64)%N ∧
  (cli_outputFormatExplicit s = false → cli_outputFormat s = OutputFormat_Human) ∧
  (cli_compileCommandsPath s ≠ "" → cli_analyze s = true).

Section args.
Context (version : string).
Abbreviation parseArgument := (parseArgument version).
Abbreviation parseArguments := (parseArguments version).

Lemma parse_positional s file :
  head_not (Ascii.eqb "-") file = true → cli_passthroughMode s = false →
  req_inputFile (cli_request s) = "" →
  parseArgument s file = inl (set_request (with_input file) s).
Proof.
  intros Hf Hp Hi. unfold CliOptions.parseArgument, plainArgument. rewrite Hp.
  rewrite !(positional_not_option_name _ file Hf), !(positional_no_option _ file Hf). cbn [orb].
  rewrite Hi, bool_decide_true by done. destruct file as [|c file]; [done|].
  rewrite starts_with_cons. cbn [head_not] in Hf. apply negb_true_iff in Hf.
  rewrite Ascii.eqb_sym, Hf. done.
Qed.

(** After [--] every argument is forwarded. *)
Lemma parse_passthrough s args :
  cli_passthroughMode s = true →
  parseArguments s args
  = inl (set_request (λ r, MkCompileRequest (req_inputFile r) (req_extraCompileArgs r ++ args)
                             (req_format r) (req_instrument r)) s).
Proof.
  revert s. induction args as [|arg args IH]; intros s Hs; simpl.
  - unfold set_request. destruct s as [[] ? ? ? ? ? ? ? ? ? ?]; simpl. by rewrite app_nil_r.
  - unfold CliOptions.parseArgument. rewrite Hs. rewrite IH by done.
    unfold set_request, add_compileArg. simpl. by rewrite <-app_assoc.
Qed.

Lemma parseArguments_app s s' args rest :
  parseArguments s args = inl s' → parseArguments s (args ++ rest) = parseArguments s' rest.
Proof.
  revert s. induction args as [|arg args IH]; intros s; simpl; [by intros [= <-]|].
  destruct (parseArgument s arg); [apply IH|done].
Qed.

Lemma parse_option_if s (b : bool) arg s' :
  (b = true → parseArgument s arg = inl s') → (b = false → s = s') →
  parseArguments s (option_if b arg) = inl s'.
Proof.
  intros H1 H2. destruct b; simpl; [by rewrite H1|by rewrite H2].
Qed.

(** One option with a value: the prefixes tested before its own do not match. *)
Lemma parse_value_options s value :
  cli_passthroughMode s = false →
  parseArgument s ("--ir-format=" +:+ value)
    = match parseFormat value with
      | Some format => inl (set_request (with_format format) s)
      | None => usageError ("Unsupported --ir-format value: " +:+ "--ir-format=" +:+ value)
      end ∧
  parseArgument s ("--fail-on=" +:+ value)
    = match parseFailOn value with
      | Some policy => inl (set_failOn policy s)
      | None => usageError ("Unsupported --fail-on value: " +:+ "--fail-on=" +:+ value)
      end ∧
  parseArgument s ("--format=" +:+ value)
    = match parseOutputFormat value with
      | Some format => inl (set_outputFormat format s)
      | None => usageError ("Unsupported --format value: " +:+ "--format=" +:+ value)
      end ∧
  parseArgument s ("--rules=" +:+ value)
    = match parseAnalysisRules value with
      | Some options => inl (set_rules options s)
      | None => usageError ("Unsupported --rules value: " +:+ "--rules=" +:+ value)
      end ∧
  parseArgument s ("--max-live-units=" +:+ value)
    = match parseMaxLiveUnits value with
      | Some parsed => inl (set_maxLiveUnits parsed s)
      | None => usageError ("Unsupported --max-live-units value: " +:+ "--max-live-units=" +:+ value
                            +:+ " (expected a positive integer)")
      end ∧
  parseArgument s ("--compile-commands=" +:+ value)
    = (if bool_decide (value = "") then usageError "--compile-commands requires a path"
       else inl (set_compileCommands value s)) ∧
  parseArgument s ("--compile-arg=" +:+ value) = inl (set_request (add_compileArg value) s).
Proof.
  intros H. unfold CliOptions.parseArgument. rewrite H. split_and!; reflexivity.
Qed.

Lemma parse_compileArgs s args :
  cli_passthroughMode s = false →
  parseArguments s ((λ arg, "--compile-arg=" +:+ arg) <$> args)
  = inl (set_request (λ r, MkCompileRequest (req_inputFile r) (req_extraCompileArgs r ++ args)
                             (req_format r) (req_instrument r)) s).
Proof.
  revert s. induction args as [|arg args IH]; intros s Hs.
  - unfold set_request. destruct s as [[] ? ? ? ? ? ? ? ? ? ?]; simpl. by rewrite app_nil_r.
  - rewrite fmap_cons. cbn [CliOptions.parseArguments].
    destruct (parse_value_options s arg Hs) as (_ & _ & _ & _ & _ & _ & ->). rewrite IH by done.
    unfold set_request, add_compileArg. simpl. by rewrite <-app_assoc.
Qed.

(** The last segment of a printed command line. *)
Lemma parse_forwarded s (b : bool) args :
  cli_passthroughMode s = false → req_extraCompileArgs (cli_request s) = [] →
  parseArguments s (if b then "--" :: args else (λ arg, "--compile-arg=" +:+ arg) <$> args)
  = inl (set_request (λ r, MkCompileRequest (req_inputFile r) args (req_format r) (req_instrument r))
           (if b then set_passthrough s else s)).
Proof.
  intros Hs Hr. destruct b.
  - cbn [CliOptions.parseArguments].
    assert (parseArgument s "--" = inl (set_passthrough s)) as ->
      by (unfold CliOptions.parseArgument; by rewrite Hs).
    rewrite parse_passthrough by done. unfold set_request. simpl. by rewrite Hr.
  - rewrite parse_compileArgs by done. unfold set_request. by rewrite Hr.
Qed.

Lemma parse_general s :
  parseArguments initial_cli (printGeneral s)
  = inl (MkCli (MkCompileRequest "" [] (req_format (cli_request s)) (req_instrument (cli_request s)))
           false false (cli_verbose s) (cli_failOn s) false false "" (cli_useCache s)
           OutputFormat_Human allAvailable).
Proof.
  destruct s as [[? ? format instrument] ? ? verbose failOn ? ? ? cache ? ?]. unfold printGeneral.
  cbn [cli_request req_format req_instrument cli_failOn cli_verbose cli_useCache].
  by destruct format, failOn, instrument, verbose, cache.
Qed.

Lemma parse_analysis s r verbose failOn cache :
  wf_cli s →
  parseArguments (MkCli r false false verbose failOn false false "" cache OutputFormat_Human allAvailable)
    (printAnalysis s)
  = inl (MkCli r (cli_analyze s) false verbose failOn (cli_outputFormatExplicit s)
           (cli_rulesExplicit s) "" cache (cli_outputFormat s) (cli_analysisOptions s)).
Proof.
  destruct s as [r' analyze pass ? ? ofe re path ? ofmt [rules live]].
  intros (_ & Hrules & Hlive & Hofmt & _). simpl in Hrules, Hlive, Hofmt. unfold printAnalysis.
  cbn [cli_analysisOptions cli_outputFormatExplicit cli_rulesExplicit cli_outputFormat cli_analyze
       enabledRules maxLiveUnits].
  rewrite (parseArguments_app _ (MkCli r false false verbose failOn ofe false "" cache ofmt allAvailable))
    by (destruct ofe; [by destruct ofmt|by rewrite Hofmt]).
  rewrite (parseArguments_app _ (MkCli r false false verbose failOn ofe re "" cache ofmt (MkOptions rules 0))).
  - rewrite (parseArguments_app _ (MkCli r false false verbose failOn ofe re "" cache ofmt
      (MkOptions rules live))); [by destruct analyze|].
    apply parse_option_if; intros E.
    + destruct (parse_value_options (MkCli r false false verbose failOn ofe re "" cache ofmt
        (MkOptions rules 0)) (pretty live) eq_refl) as (_ & _ & _ & _ & -> & _).
      apply bool_decide_eq_true in E. by rewrite parseMaxLiveUnits_pretty by lia.
    + apply bool_decide_eq_false, dec_stable in E. by rewrite E.
  - apply parse_option_if; intros ->; [|by rewrite Hrules].
    destruct (parse_value_options (MkCli r false false verbose failOn ofe false "" cache ofmt
      allAvailable) (printRules rules) eq_refl) as (_ & _ & _ & -> & _).
    destruct Hrules as (? & ? & ?). by rewrite parse_printed_rules.
Qed.

Lemma parse_input s verbose failOn ofe re cache ofmt options :
  wf_cli s →
  parseArguments (MkCli (MkCompileRequest "" [] (req_format (cli_request s)) (req_instrument (cli_request s)))
    (cli_analyze s) false verbose failOn ofe re "" cache ofmt options) (printInput s)
  = inl (MkCli (cli_request s) (cli_analyze s) (cli_passthroughMode s) verbose failOn ofe re
           (cli_compileCommandsPath s) cache ofmt options).
Proof.
  destruct s as [[file extra format instrument] analyze pass ? ? ? ? path ? ? ?].
  intros (Hfile & _ & _ & _ & Hpath). simpl in Hfile, Hpath. unfold printInput.
  cbn [cli_request req_format req_instrument req_inputFile req_extraCompileArgs cli_analyze
       cli_passthroughMode cli_compileCommandsPath].
  set (r := MkCompileRequest "" [] format instrument).
  rewrite (parseArguments_app _ (MkCli r analyze false verbose failOn ofe re path cache ofmt options)).
  - rewrite (parseArguments_app _ (MkCli (MkCompileRequest file [] format instrument) analyze false
      verbose failOn ofe re path cache ofmt options)).
    + rewrite parse_forwarded by done. by destruct pass.
    + apply parse_option_if; intros E.
      * by rewrite parse_positional.
      * apply bool_decide_eq_false, dec_stable in E. by subst file.
  - apply parse_option_if; intros E.
    + destruct (parse_value_options (MkCli r analyze false verbose failOn ofe re "" cache ofmt options)
        path eq_refl) as (_ & _ & _ & _ & _ & -> & _).
      apply bool_decide_eq_true in E. rewrite bool_decide_false by done. by rewrite Hpath.
    + apply bool_decide_eq_false, dec_stable in E. by subst path.
Qed.

(** C35: A command line states its options: for every choice of format, output, rules,
    limits, policy, input and forwarded arguments, reading the command line printed
    for it gives back exactly that choice. *)
Theorem command_line_roundtrip (s : CliState) :
  wf_cli s → parseArguments initial_cli (printCli s) = inl s.
Proof.
  intros Hs. unfold printCli.
  rewrite (parseArguments_app _ _ _ _ (parse_general s)).
  rewrite (parseArguments_app _ _ _ _ (parse_analysis s _ _ _ _ Hs)).
  rewrite parse_input by done. by destruct s.
Qed.
End args.

Lemma command_line_roundtrip_witness :
  let s := MkCli (MkCompileRequest "a.c" ["-Wall"] IRFormat_LL true) true true true FailOn_Error true
             true "" false OutputFormat_Sarif
             (MkOptions [RuleId_MissingJoin; RuleId_DataRaceGlobal] 8) in
  parseArguments "1.0" initial_cli (printCli s) = inl s.
Proof.
  intros s. apply (command_line_roundtrip "1.0" s). split; [reflexivity|]. split.
  - split_and!; [discriminate|by repeat constructor|]. apply (bool_decide_unpack _). vm_compute. exact I.
  - split_and!; [done|discriminate|done].
Defined.

(** Selecting rules after the number of live units forgets the number. *)
Lemma rules_reset_live_units version :
  (λ s, maxLiveUnits (cli_analysisOptions s)) <$>
    match parseArguments version initial_cli ["--max-live-units=4"; "--rules=all"] with
    | inl s => Some s | inr _ => None end = Some 0%N ∧
  (λ s, maxLiveUnits (cli_analysisOptions s)) <$>
    match parseArguments version initial_cli ["--rules=all"; "--max-live-units=4"] with
    | inl s => Some s | inr _ => None end = Some 4%N.
Proof. by split. Qed.
