(* ===== verification/Main.v ===== *)
(** The program (src/main.cpp): the analysis of one file, the analysis of a project
    from its compilation database, and the exit code.

    The definitions compose those of the other files.  What lies outside the
    repository is a parameter: the fact builder over LLVM's IR, LLVM's parsers, the
    compiler library and the files it writes, the digests, the printing of JSON, the
    working directory, and what the clock and the system measure.  Every step that
    touches files takes the file system and returns the one it leaves. *)

From S2P Require Import Prelude Text Errors Diagnostics Facts FactQueries ReportBuilder ProgramIndex.
From S2P Require Import SingleTU InterTU CompilerDiag Json Renderer CommandBuilder Paths CompDb IRCache.
From S2P Require Import Compiler CliOptions.

Definition line (text : string) : string := text +:+ String newline "".

Definition hasStructuredLocations (report : DiagnosticReport) : bool :=
  existsb (λ d, bool_decide (loc_line (diag_location d) ≠ 0%N)
             || bool_decide (loc_column (diag_location d) ≠ 0%N)) (rep_diagnostics report).

(** The state of the loop over the commands of the database. *)
Record BuildState := MkBuildState {
  bs_files : FileSystem;
  bs_units : ProjectUnitSource;
  bs_failedSources : list string;
  bs_reusedUnits : nat;
  bs_compiledUnits : nat;
  bs_output : list Output;
}.

Section program.
Context `{!StdSort, !HashOrder, !PoolSchedule} {Module : Type}.
Context (build : Module → FactSelection → option ProgramSymbolIndex → TUFacts).
Context (llvm_parseIR : string → Module + string).
Context (llvm_parseBitcodeFile : string → string → Module + string).
Context (compilerlib : FileSystem → list string → OutputMode → bool → BackendCompileOutput).
Context (compiler_writes : FileSystem → CompileRequest → FileSystem).
Context (status_at : FileSystem → string → FileStatus).
Context (read_error : string → string).
Context (sha256 : string → list N) (xxh3 : string → Z).
Context (md5_hex : string → string) (relative : string → string → option string).
Context (generic_string : string → string) (print_json : JsonValue → string).
Context (parse_json : string → JsonValue + string) (tokenize : string → list string).
Context (creation_failed is_directory : string → bool) (faults : Faults).
Context (current_path : option string) (elapsed : Z) (measurements : string).
Context (defined_functions : Module → nat) (moved_from version : string).
(** The file system a pass of the analysis finds: other programs may change it. *)
Context (later : Pass → FileSystem → FileSystem).

(** [compiler.compile], at the files there are. *)
Definition compileAt (files : FileSystem) (request : CompileRequest)
  : option (CompileResult Module) :=
  @compile Module (CompilerLibBackend (compilerlib files))
    (LLVMIRLoader llvm_parseIR llvm_parseBitcodeFile) moved_from (status_at files) request.

Definition makeRenderContext (inputFile : string) (analysisTimeMs : Z) : RenderContext :=
  MkRenderContext "coretrace-concurrency-analyzer" inputFile "IR" analysisTimeMs
    (default "" current_path).

Definition emitStructuredReport (report : DiagnosticReport) (context : RenderContext)
    (outputFormat : OutputFormat) : option (list Output) :=
  rendered ← renderReport md5_hex relative generic_string print_json report context outputFormat;
  Some (Stdout rendered ::
        (if bool_decide (rendered ≠ "") && last_not (Ascii.eqb newline) rendered
         then [Stdout (String newline "")] else [])).

Definition buildCompileFailureReport (files : FileSystem) (request : CompileRequest)
    (result : CompileResult Module) : option DiagnosticReport :=
  let report := parseCompilerDiagnostics (res_diagnostics result) (res_error result)
                  (req_inputFile request) in
  if bool_decide (req_format request ≠ IRFormat_BC) || hasStructuredLocations report
  then Some report
  else
    llResult ← compileAt files (with_format IRFormat_LL request);
    if res_success llResult then Some report
    else
      let recovered := parseCompilerDiagnostics (res_diagnostics llResult) (res_error llResult)
                         (req_inputFile request) in
      if hasStructuredLocations recovered then Some recovered
      else if bool_decide (res_diagnostics llResult ≠ "") then Some recovered
      else Some report.

(** ** A project *)

Definition readBitcodeFile (files : FileSystem) (path : string) : string + string :=
  match files !! path with Some bytes => inl bytes | None => inr (read_error path) end.

(** A cached entry that is there and parses. *)
Definition usableEntry (cache : option IRCache) (files : FileSystem) (command : CompileCommand)
  : option string :=
  c ← cache;
  entry ← lookupPath sha256 c files command;
  bytes ← files !! entry;
  match llvm_parseBitcodeFile bytes "in_memory_bc" with
  | inl _ => Some entry
  | inr _ => None
  end.

(** The request of a unit, with the dependency file asked for when there is a
    cache. *)
Definition unitRequest (cache : option IRCache) (command : CompileCommand) : CompileRequest :=
  MkCompileRequest (cmd_file command)
    (cmd_arguments command ++
     match cache with
     | Some c => ["-MD"; "-MF"; depfilePathFor sha256 c command]
     | None => []
     end) IRFormat_BC false.

(** The body of the loop over the commands. *)
Definition buildUnit (cache : option IRCache) (verbose : bool) (st : BuildState)
    (command : CompileCommand) : option BuildState :=
  match usableEntry cache (bs_files st) command with
  | Some entry =>
      Some (MkBuildState (bs_files st)
              (source_addFile xxh3 (readBitcodeFile (bs_files st)) (cmd_file command) entry (bs_units st))
              (bs_failedSources st) (S (bs_reusedUnits st)) (bs_compiledUnits st) (bs_output st))
  | None =>
      let request := unitRequest cache command in
      result ← compileAt (bs_files st) request;
      let files := compiler_writes (bs_files st) request in
      if negb (res_success result)
         || match res_module result with None => true | Some _ => false end then
        Some (MkBuildState files (bs_units st) (bs_failedSources st ++ [cmd_file command])
                (bs_reusedUnits st) (bs_compiledUnits st)
                (bs_output st ++ (if verbose && bool_decide (res_diagnostics result ≠ "")
                                  then [Stderr (res_diagnostics result)] else [])))
      else
        let '(stored, files) :=
          match cache with
          | Some c =>
              let depfile := depfilePathFor sha256 c command in
              let '(stored, files) :=
                store sha256 faults c files command (res_llvmBitcode result) depfile in
              (stored, delete depfile files)
          | None => (None, files)
          end in
        let units :=
          match stored with
          | Some path =>
              source_addFile xxh3 (readBitcodeFile files) (cmd_file command) path (bs_units st)
          | None => source_add (cmd_file command) (res_llvmBitcode result) (bs_units st)
          end in
        Some (MkBuildState files units (bs_failedSources st) (bs_reusedUnits st)
                (S (bs_compiledUnits st)) (bs_output st))
  end.

Fixpoint buildUnits (cache : option IRCache) (verbose : bool) (commands : list CompileCommand)
    (st : BuildState) : option BuildState :=
  match commands with
  | [] => Some st
  | command :: rest => st' ← buildUnit cache verbose st command; buildUnits cache verbose rest st'
  end.

(** [ProjectConcurrencyAnalyzer::analyze]: the units of the source loaded where the
    coordinator asks for them. *)
Definition Project_analyze (analysisOptions : AnalysisOptions) (files : FileSystem)
    (units : ProjectUnitSource) : option ProjectAnalysis :=
  let load pass index :=
    default (inr no_error)
      (source_load xxh3 (λ bytes name,
         match llvm_parseBitcodeFile bytes name with
         | inl module => inl module
         | inr message => inr (loaderError CompileErrc_BitcodeParseFailed message)
         end) (readBitcodeFile (later pass files)) units index) in
  InterTU_analyze build load (λ index, default "" (unit_identifier <$> units !! index))
    (length units) analysisOptions.

(** What a project analysis that ran writes, and its exit code. *)
Definition projectMessages (verbose : bool) (st : BuildState) (analysis : ProjectAnalysis)
  : list Output :=
  (if verbose then
     [Stderr (line ("units: " +:+ pretty (bs_compiledUnits st) +:+ " compiled, "
        +:+ pretty (bs_reusedUnits st) +:+ " reused, "
        +:+ pretty (length (bs_failedSources st) + length (pa_failedUnits analysis)) +:+ " failed")
        +:+ measurements)] else []) ++
  ((λ source, Stderr (line ("skipped (compilation failed): " +:+ source))) <$> bs_failedSources st) ++
  ((λ unit, Stderr (line ("skipped (bitcode failed to load): " +:+ failed_identifier unit +:+ ": "
      +:+ err_message (failed_error unit)))) <$> pa_failedUnits analysis) ++
  ((λ module, Stderr (line ("skipped (target ABI differs from the project): " +:+ module)))
     <$> pa_skippedIncompatibleModules analysis).

Definition projectExitCode (failOn : FailOn) (st : BuildState) (analysis : ProjectAnalysis) : Z :=
  if bool_decide (bs_failedSources st ≠ []) || negb (pa_complete analysis) then 1
  else gateExitCode failOn (rep_summary (pa_report analysis)).

Definition analyzeProject (files : FileSystem) (databasePath : string)
    (analysisOptions : AnalysisOptions) (outputFormat : OutputFormat) (verbose useCache : bool)
    (failOn : FailOn) : option (Exit * FileSystem) :=
  match loadFromFile (λ path, files !! path) parse_json tokenize databasePath with
  | inr loadError =>
      Some (MkExit 1 [Stderr (line ("failed to read compilation database '" +:+ databasePath
                                    +:+ "': " +:+ loadError))], files)
  | inl database =>
      let commands := analyzableSources database false in
      if bool_decide (commands = []) then
        Some (MkExit 1 [Stderr (line ("compilation database '" +:+ databasePath
                                      +:+ "' contains no analyzable source"))], files)
      else
        let cache := if useCache
                     then IRCache_open creation_failed is_directory
                            (path_append (parent_path databasePath) ".coretrace-ir-cache")
                     else None in
        st ← buildUnits cache verbose commands (MkBuildState files [] [] 0 0 []);
        if bool_decide (bs_units st = []) then
          Some (MkExit 1 (bs_output st ++ [Stderr (line ("no unit of '" +:+ databasePath
                                           +:+ "' could be compiled"))]), bs_files st)
        else
          analysis ← Project_analyze analysisOptions (bs_files st) (bs_units st);
          rendered ← emitStructuredReport (pa_report analysis)
                       (makeRenderContext databasePath elapsed) outputFormat;
          Some (MkExit (projectExitCode failOn st analysis)
                  (bs_output st ++ projectMessages verbose st analysis ++ rendered), bs_files st)
  end.

(** ** The program *)

(** The analysis of one file, or its compilation alone. *)
Definition runFile (files : FileSystem) (s : CliState) : option (Exit * FileSystem) :=
  let request := cli_request s in
  let summary :=
    if cli_verbose s then
      let text := printRequestSummary request (cli_analyze s) (cli_analysisOptions s)
                    (cli_outputFormat s) in
      [if cli_analyze s && bool_decide (cli_outputFormat s ≠ OutputFormat_Human)
       then Stderr text else Stdout text]
    else [] in
  result ← compileAt files request;
  let files' := compiler_writes files request in
  let diagnostics :=
    if negb (cli_analyze s) && bool_decide (res_diagnostics result ≠ "")
    then [Stderr (res_diagnostics result)] else [] in
  if negb (res_success result) then
    if cli_analyze s then
      report ← buildCompileFailureReport files' request result;
      rendered ← emitStructuredReport report (makeRenderContext (req_inputFile request) (-1))
                   (cli_outputFormat s);
      Some (MkExit 1 (summary ++ diagnostics ++ rendered), files')
    else
      let renderedError := formatCompileError (res_error result) in
      Some (MkExit 1 (summary ++ diagnostics ++
              [Stderr (line (if bool_decide (renderedError ≠ "") then renderedError
                             else "unknown_compile_failure"))]), files')
  else
    module ← res_module result;
    if cli_analyze s then
      report ← SingleTU_analyze build (cli_analysisOptions s) module;
      rendered ← emitStructuredReport report (makeRenderContext (req_inputFile request) elapsed)
                   (cli_outputFormat s);
      Some (MkExit (gateExitCode (cli_failOn s) (rep_summary report))
              (summary ++ diagnostics ++ rendered), files')
    else
      let payloadBytes := match req_format request with
                          | IRFormat_BC => String.length (res_llvmBitcode result)
                          | IRFormat_LL => String.length (res_llvmIRText result)
                          end in
      Some (MkExit 0 (summary ++ diagnostics ++
              [Stdout (unlines
                 ["IR compilation succeeded";
                  "format: " +:+ toString_irFormat (req_format request);
                  "payload-bytes: " +:+ pretty payloadBytes;
                  "defined-functions: " +:+ pretty (defined_functions module)])]), files').

(** [main], from the arguments after the program's name. *)
Definition main (files : FileSystem) (args : list string) : option (Exit * FileSystem) :=
  match parseArguments version initial_cli args with
  | inr exit => Some (exit, files)
  | inl s =>
      if bool_decide (cli_compileCommandsPath s ≠ "") then
        if bool_decide (req_inputFile (cli_request s) ≠ "") then
          Some (MkExit 1 [Stderr (line "--compile-commands and a positional input file are exclusive")],
                files)
        else if bool_decide (req_extraCompileArgs (cli_request s) ≠ []) then
          Some (MkExit 1 [Stderr (line ("--compile-arg does not apply to --compile-commands: each unit uses "
                                        +:+ "the flags recorded in the database"))], files)
        else analyzeProject files (cli_compileCommandsPath s) (cli_analysisOptions s)
               (cli_outputFormat s) (cli_verbose s) (cli_useCache s) (cli_failOn s)
      else if bool_decide (req_inputFile (cli_request s) = "") then Some (MkExit 1 printHelp, files)
      else if cli_outputFormatExplicit s && negb (cli_analyze s) then
        Some (MkExit 1 [Stderr (line "--format requires --analyze")], files)
      else if cli_rulesExplicit s && negb (cli_analyze s) then
        Some (MkExit 1 [Stderr (line "--rules requires --analyze")], files)
      else runFile files s
  end.
End program.
