(* ===== verification/MainProps.v ===== *)
(** Theorems on the whole program: it always ends with an exit code and a report it
    can render, the exit code tells findings from failures, a project accounts for
    every command of its database, and running without the cache leaves it alone. *)

From S2P Require Import Prelude Text Errors Diagnostics Facts FactQueries ReportBuilder ProgramIndex.
From S2P Require Import SingleTU InterTU InterTUProps CompilerDiag Json Renderer RendererProps.
From S2P Require Import CommandBuilder Paths CompDb IRCache Compiler CliOptions Main.

(** ** Exit codes *)

(** The findings a policy fails a build over. *)
Definition worth_failing (policy : FailOn) (d : Diagnostic) : bool :=
  match policy with
  | FailOn_None => false
  | FailOn_Error => bool_decide (diag_severity d = Severity_Error)
  | FailOn_Warning => negb (bool_decide (diag_severity d = Severity_Info))
  end.

Lemma severityCount_positive s ds :
  (0 <? severityCount s ds) = existsb (λ d, bool_decide (diag_severity d = s)) ds.
Proof.
  unfold severityCount. induction ds as [|d ds IH]; [done|]. rewrite filter_cons. simpl.
  destruct (decide (diag_severity d = s)) as [E|E].
  - by rewrite bool_decide_true.
  - by rewrite bool_decide_false.
Qed.

Lemma gateExitCode_findings policy ds :
  gateExitCode policy (computeSummary ds)
  = if existsb (worth_failing policy) ds then kFindingsExitCode else 0%Z.
Proof.
  rewrite computeSummary_counts. destruct policy; simpl; rewrite ?severityCount_positive.
  - by induction ds.
  - done.
  - assert (existsb (worth_failing FailOn_Warning) ds
            = existsb (λ d, bool_decide (diag_severity d = Severity_Error)) ds
              || existsb (λ d, bool_decide (diag_severity d = Severity_Warning)) ds) as ->; [|done].
    induction ds as [|d ds IH]; [done|]. simpl. rewrite IH.
    destruct (diag_severity d); simpl; rewrite ?orb_true_r; done.
Qed.

(** ** The reports render *)

Lemma parseCompilerDiagnostics_functions `{!StdSort} raw error inputFile :
  rep_functions (parseCompilerDiagnostics raw error inputFile) = [].
Proof.
  unfold parseCompilerDiagnostics. cbn [rep_functions].
  assert (rep_functions (ps_report (foldl (parseLine inputFile) (MkParseState empty_report None)
            (splitLines raw))) = []) as Hf.
  { apply (foldl_inv (λ st, rep_functions (ps_report st) = [])); [done|].
    intros st l _ Hst. unfold parseLine. by repeat case_match. }
  by case_bool_decide.
Qed.

Section merge.
Context `{!StdSort, !HashOrder, !PoolSchedule} {Module : Type}.
Context (build : Module → FactSelection → option ProgramSymbolIndex → TUFacts).
Hypothesis build_selected : ∀ module selection index,
  sel_accesses selection = false → accesses (build module selection index) = [].
Context (load : Pass → nat → Module + CompileError) (identifier : nat → string).
Context (unitCount : nat) (options : AnalysisOptions).

(** The accesses were computed, or there are none. *)
Definition facts_selected (facts : TUFacts) : Prop :=
  sel_accesses (selection options) = true ∨ accesses facts = [].

Lemma runPass_selected pass index tasks table :
  Forall facts_selected (ut_facts table) →
  Forall facts_selected (ut_facts (runPass build load identifier options pass index tasks table)).
Proof.
  intros Ht0. unfold runPass.
  apply (foldl_inv (λ t, Forall facts_selected (ut_facts t))); [done|].
  intros t u _ Ht. unfold analyseUnit. destruct (load pass u); simpl.
  - apply Forall_insert; [done|]. unfold facts_selected.
    destruct (sel_accesses (selection options)) eqn:E; [by left|right]. by apply build_selected.
  - apply Forall_insert; [done|]. by right.
Qed.

Lemma factsAt_selected table u :
  Forall facts_selected (ut_facts table) → facts_selected (factsAt table u).
Proof.
  intros Hall. unfold factsAt. destruct (ut_facts table !! u) as [facts|] eqn:E; [|by right].
  rewrite Forall_forall in Hall. by apply Hall, list_elem_of_lookup_2 with u.
Qed.

Lemma mergeReport_functions st report :
  rep_functions (ms_report (mergeReport st report))
  = rep_functions (ms_report st) ++ rep_functions report.
Proof.
  unfold mergeReport. simpl. f_equal.
  apply (foldl_inv (λ r, rep_functions r = rep_functions (ms_report st))).
  - apply (foldl_inv (λ s, rep_functions (ms_report s) = rep_functions (ms_report st))); [done|].
    intros s d _ Hs. unfold mergeDiagnostic. by case_bool_decide.
  - intros r n _ Hr. unfold mergeNotice. by case_bool_decide.
Qed.

Lemma mergedState_counts table units st :
  Forall facts_selected (ut_facts table) → mergedState options table units = Some st →
  Forall counts_together (rep_functions (ms_report st)).
Proof.
  intros Ht. unfold mergedState. revert st. induction units as [|u units IH] using rev_ind; intros st.
  - intros [= <-]. constructor.
  - rewrite foldl_snoc. unfold mergeUnit at 1.
    destruct (foldl _ _ units) as [st'|]; [|done]. cbn [mbind option_bind].
    destruct (runCheckers options (factsAt table u)) as [r|]; [|done]. intros [= <-].
    rewrite mergeReport_functions. apply Forall_app. split; [by apply IH|].
    apply finalizeReport_counts_together. by apply factsAt_selected.
Qed.

(** The project analysis returns a report that renders, and its summary counts it. *)
Lemma InterTU_analyze_renders :
  ∃ analysis, InterTU_analyze build load identifier unitCount options = Some analysis ∧
    Forall counts_together (rep_functions (pa_report analysis)) ∧
    rep_summary (pa_report analysis) = computeSummary (rep_diagnostics (pa_report analysis)).
Proof.
  unfold InterTU_analyze. case_bool_decide; [by eexists|].
  destruct (maxElement _) as [[abi n]|]; [|by eexists].
  destruct (merged_total options (tableB build load identifier unitCount options
    (compatibleUnits build load identifier unitCount options abi))
    (contributingUnits build load identifier unitCount options
      (compatibleUnits build load identifier unitCount options abi))) as [st Hst].
  rewrite Hst. cbn [mbind option_bind]. eexists. split; [done|]. split; [|done].
  simpl. eapply mergedState_counts; [|done]. unfold tableB, tableA. do 2 apply runPass_selected.
  unfold newTable. simpl. apply Forall_replicate. by right.
Qed.
End merge.

(** ** The program *)

Section program.
Context `{!StdSort, !HashOrder, !PoolSchedule} {Module : Type}.
Context (build : Module → FactSelection → option ProgramSymbolIndex → TUFacts).
Hypothesis build_selected : ∀ module selection index,
  sel_accesses selection = false → accesses (build module selection index) = [].
Context (llvm_parseIR : string → Module + string).
Context (llvm_parseBitcodeFile : string → string → Module + string).
Context (compilerlib : FileSystem → list string → OutputMode → bool → BackendCompileOutput).
Context (compiler_writes : FileSystem → CompileRequest → FileSystem).
Context (status_at : FileSystem → string → FileStatus).
Context (read_error : string → string).
Context (sha256 : string → list N) (xxh3 : string → Z).
Context (md5_hex : string → string) (relative : string → string → option string).
Context (generic_string : string → string) (print_json : JsonValue → string).
Context (parse_json : string → JsonValue + string) (tokenize : string → list string).
Context (creation_failed is_directory : string → bool) (faults : Faults).
Context (current_path : option string) (elapsed : Z) (measurements : string).
Context (defined_functions : Module → nat) (moved_from version : string).
Context (later : Pass → FileSystem → FileSystem).

Abbreviation compileAt :=
  (compileAt llvm_parseIR llvm_parseBitcodeFile compilerlib status_at moved_from).
Abbreviation emitStructuredReport :=
  (emitStructuredReport md5_hex relative generic_string print_json).
Abbreviation buildUnit :=
  (buildUnit llvm_parseIR llvm_parseBitcodeFile compilerlib compiler_writes status_at read_error
     sha256 xxh3 faults moved_from).
Abbreviation buildUnits :=
  (buildUnits llvm_parseIR llvm_parseBitcodeFile compilerlib compiler_writes status_at read_error
     sha256 xxh3 faults moved_from).
Abbreviation Project_analyze :=
  (Project_analyze build llvm_parseBitcodeFile read_error xxh3 later).
Abbreviation analyzeProject :=
  (analyzeProject build llvm_parseIR llvm_parseBitcodeFile compilerlib compiler_writes status_at
     read_error sha256 xxh3 md5_hex relative generic_string print_json parse_json tokenize
     creation_failed is_directory faults current_path elapsed measurements moved_from later).
Abbreviation main :=
  (main build llvm_parseIR llvm_parseBitcodeFile compilerlib compiler_writes status_at
     read_error sha256 xxh3 md5_hex relative generic_string print_json parse_json tokenize
     creation_failed is_directory faults current_path elapsed measurements defined_functions
     moved_from version later).

Lemma compileAt_spec files request :
  ∃ result, compileAt files request = Some result ∧ consistent result.
Proof.
  destruct (@compile_spec Module (CompilerLibBackend (compilerlib files))
    (LLVMIRLoader llvm_parseIR llvm_parseBitcodeFile) moved_from (status_at files) request)
    as (result & Hr & Hc & _). by exists result.
Qed.

Lemma emit_total report context format :
  Forall counts_together (rep_functions report) →
  is_Some (emitStructuredReport report context format).
Proof.
  intros (vs & Hvs & _)%(jsonFunctions_defined context). unfold Main.emitStructuredReport.
  destruct format; simpl; [by eexists| |by eexists].
  unfold renderJson, renderJsonValue. rewrite Hvs. by eexists.
Qed.

Lemma buildUnit_total cache verbose st command : is_Some (buildUnit cache verbose st command).
Proof.
  unfold Main.buildUnit. destruct (usableEntry _ _ _ _ _) as [entry|]; [by eexists|].
  destruct (compileAt_spec (bs_files st) (unitRequest sha256 cache command)) as (result & -> & _).
  cbn [mbind option_bind]. destruct (negb _ || _); [by eexists|].
  destruct cache as [c|]; [|by eexists]. destruct (store _ _ _ _ _ _ _). by eexists.
Qed.

Lemma buildUnits_total cache verbose commands st : is_Some (buildUnits cache verbose commands st).
Proof.
  revert st. induction commands as [|command commands IH]; intros st; simpl; [by eexists|].
  destruct (buildUnit_total cache verbose st command) as [st' ->]. apply IH.
Qed.

Lemma failure_report_total files request result :
  ∃ report, buildCompileFailureReport llvm_parseIR llvm_parseBitcodeFile compilerlib status_at
    moved_from files request result = Some report ∧ rep_functions report = [].
Proof.
  unfold buildCompileFailureReport. destruct (_ || _).
  { eexists. split; [done|apply parseCompilerDiagnostics_functions]. }
  destruct (compileAt_spec files (with_format IRFormat_LL request)) as (ll & -> & _).
  cbn [mbind option_bind]. repeat case_match;
    (eexists; split; [done|apply parseCompilerDiagnostics_functions]).
Qed.

Lemma gateExitCode_range policy summary : gateExitCode policy summary ∈ [0; 1; 2]%Z.
Proof. destruct policy; simpl; repeat case_match; set_solver. Qed.

Lemma SingleTU_renders options module :
  ∃ report, SingleTU_analyze build options module = Some report ∧
    Forall counts_together (rep_functions report) ∧
    rep_summary report = computeSummary (rep_diagnostics report).
Proof.
  unfold SingleTU_analyze. destruct (runCheckers_total options
    (build module (forRules (enabledRules options) false) None)) as [r ->].
  cbn [mbind option_bind]. eexists. split; [done|]. split; [|done].
  apply finalizeReport_counts_together.
  destruct (sel_accesses _) eqn:E; [by left|right; by apply build_selected].
Qed.

Lemma parseArgument_exit s arg exit :
  parseArgument version s arg = inr exit → exit_code exit ∈ [0; 1; 2]%Z.
Proof.
  unfold parseArgument, plainArgument, usageError. intros E.
  repeat case_match; simplify_eq; simpl; set_solver.
Qed.

Lemma parseArguments_exit s args exit :
  parseArguments version s args = inr exit → exit_code exit ∈ [0; 1; 2]%Z.
Proof.
  revert s. induction args as [|arg args IH]; intros s; simpl; [done|].
  destruct (parseArgument version s arg) eqn:E; [apply IH|]. intros [= <-]. by eapply parseArgument_exit.
Qed.

Lemma analyzeProject_total files path options format verbose useCache failOn :
  ∃ exit files', analyzeProject files path options format verbose useCache failOn
    = Some (exit, files') ∧ exit_code exit ∈ [0; 1; 2]%Z.
Proof.
  unfold Main.analyzeProject. destruct (loadFromFile _ _ _ _) as [database|error].
  2: { do 2 eexists. split; [done|]. simpl. set_solver. }
  case_bool_decide; [do 2 eexists; split; [done|]; simpl; set_solver|].
  match goal with |- context [Main.buildUnits _ _ _ _ _ _ _ _ _ _ ?c ?v ?l ?s] =>
    destruct (buildUnits_total c v l s) as [st ->] end. cbn [mbind option_bind].
  case_bool_decide; [do 2 eexists; split; [done|]; simpl; set_solver|].
  unfold Main.Project_analyze.
  match goal with |- context [InterTU_analyze build ?load ?id ?n ?o] =>
    destruct (InterTU_analyze_renders build build_selected load id n o) as (analysis & -> & Hc & _) end.
  cbn [mbind option_bind].
  destruct (emit_total (pa_report analysis) (makeRenderContext current_path path elapsed) format Hc)
    as [out ->].
  do 2 eexists. split; [done|]. simpl. unfold projectExitCode.
  case_match; [set_solver|apply gateExitCode_range].
Qed.

Lemma runFile_total files s :
  ∃ exit files', runFile build llvm_parseIR llvm_parseBitcodeFile compilerlib compiler_writes status_at
      md5_hex relative generic_string print_json current_path elapsed defined_functions moved_from
      files s = Some (exit, files') ∧ exit_code exit ∈ [0; 1; 2]%Z.
Proof.
  unfold runFile. destruct (compileAt_spec files (cli_request s)) as (result & -> & Hc).
  cbn [mbind option_bind]. unfold consistent in Hc. destruct (res_success result); simpl.
  - destruct Hc as [[module ->] _]. cbn [mbind option_bind]. destruct (cli_analyze s).
    + destruct (SingleTU_renders (cli_analysisOptions s) module) as (report & -> & Hr & _).
      cbn [mbind option_bind].
      destruct (emit_total report (makeRenderContext current_path (req_inputFile (cli_request s)) elapsed)
        (cli_outputFormat s) Hr) as [out ->].
      do 2 eexists. split; [done|]. apply gateExitCode_range.
    + do 2 eexists. split; [done|]. simpl. set_solver.
  - destruct (cli_analyze s); [|do 2 eexists; split; [done|]; simpl; set_solver].
    destruct (failure_report_total (compiler_writes files (cli_request s)) (cli_request s) result)
      as (report & -> & Hr). cbn [mbind option_bind].
    destruct (emit_total report (makeRenderContext current_path (req_inputFile (cli_request s)) (-1))
      (cli_outputFormat s)) as [out ->]; [by rewrite Hr|].
    do 2 eexists. split; [done|]. simpl. set_solver.
Qed.


(** ** A project *)

(** Each command ends as one unit or as one failed source. *)
Definition accounted (commands : list CompileCommand) (st : BuildState) : Prop :=
  (unit_identifier <$> bs_units st) ++ bs_failedSources st ≡ₚ cmd_file <$> commands ∧
  bs_reusedUnits st + bs_compiledUnits st = length (bs_units st).

Lemma buildUnit_accounted cache verbose commands st command st' :
  accounted commands st → buildUnit cache verbose st command = Some st' →
  accounted (commands ++ [command]) st'.
Proof.
  intros [Hids Hcount] E.
  assert (∀ ids : list string, ids ++ bs_failedSources st ≡ₚ cmd_file <$> commands →
    (ids ++ [cmd_file command]) ++ bs_failedSources st ≡ₚ cmd_file <$> (commands ++ [command])) as Hadd.
  { intros ids H'. rewrite fmap_app, <-H', <-!app_assoc. simpl.
    apply Permutation_app_head. by rewrite Permutation_cons_append. }
  unfold Main.buildUnit in E. destruct (usableEntry _ _ _ _ _) as [entry|].
  { injection E as <-. unfold accounted, source_addFile. simpl. rewrite fmap_app, length_app.
    simpl. split; [by apply Hadd|lia]. }
  destruct (compileAt (bs_files st) _) as [result|]; [|done]. cbn [mbind option_bind] in E.
  destruct (negb _ || _).
  { injection E as <-. split; simpl; [|done].
    by rewrite app_assoc, Hids, fmap_app. }
  destruct (match cache with Some _ => _ | None => _ end) as [stored files].
  injection E as <-. unfold accounted, source_addFile, source_add. simpl.
  destruct stored; rewrite fmap_app, length_app; simpl; (split; [by apply Hadd|lia]).
Qed.

Lemma buildUnits_accounted cache verbose commands before st st' :
  accounted before st → buildUnits cache verbose commands st = Some st' →
  accounted (before ++ commands) st'.
Proof.
  revert before st. induction commands as [|command commands IH]; intros before st Hst; simpl.
  - intros [= <-]. by rewrite app_nil_r.
  - destruct (buildUnit cache verbose st command) as [st1|] eqn:E; [|done]. cbn [mbind option_bind].
    intros H'. apply (IH (before ++ [command])) in H'; [by rewrite <-app_assoc in H'|].
    by eapply buildUnit_accounted.
Qed.

(** A project accounts for its database: every analyzable command becomes exactly
    one unit, named after its source, or one failed source, and the numbers of reused
    and compiled units add up to the units analysed. *)
Theorem project_accounts_for_commands (cache : option IRCache) (verbose : bool)
    (commands : list CompileCommand) (files : FileSystem) :
  ∃ st, buildUnits cache verbose commands (MkBuildState files [] [] 0 0 []) = Some st ∧
    (unit_identifier <$> bs_units st) ++ bs_failedSources st ≡ₚ cmd_file <$> commands ∧
    bs_reusedUnits st + bs_compiledUnits st = length (bs_units st).
Proof.
  destruct (buildUnits_total cache verbose commands (MkBuildState files [] [] 0 0 [])) as [st Hst].
  exists st. split; [done|]. by apply (buildUnits_accounted cache verbose commands [] _ _) in Hst.
Qed.

(** Without the cache nothing of it is read or written: the files after the units
    are built are what the compiler left, compiling each command with the flags of
    the database alone, no unit is reused and every unit holds its bitcode. *)
Theorem no_cache_leaves_files_alone (verbose : bool) (commands : list CompileCommand)
    (files : FileSystem) :
  ∃ st, buildUnits None verbose commands (MkBuildState files [] [] 0 0 []) = Some st ∧
    bs_files st = foldl (λ fs c, compiler_writes fs
      (MkCompileRequest (cmd_file c) (cmd_arguments c) IRFormat_BC false)) files commands ∧
    bs_reusedUnits st = 0 ∧ Forall (λ u, unit_file u = None) (bs_units st).
Proof.
  assert (∀ st, bs_reusedUnits st = 0 → Forall (λ u, unit_file u = None) (bs_units st) →
    ∃ st', buildUnits None verbose commands st = Some st' ∧
      bs_files st' = foldl (λ fs c, compiler_writes fs
        (MkCompileRequest (cmd_file c) (cmd_arguments c) IRFormat_BC false)) (bs_files st) commands ∧
      bs_reusedUnits st' = 0 ∧ Forall (λ u, unit_file u = None) (bs_units st')) as Hgen.
  { induction commands as [|command commands IH]; intros st Hr Hu; simpl; [eauto|].
    unfold Main.buildUnit. cbn [usableEntry mbind option_bind].
    unfold unitRequest. rewrite app_nil_r.
    destruct (compileAt_spec (bs_files st)
      (MkCompileRequest (cmd_file command) (cmd_arguments command) IRFormat_BC false))
      as (result & -> & _). cbn [mbind option_bind].
    destruct (negb _ || _); cbn [mbind option_bind]; apply IH; simpl; try done.
    unfold source_add. apply Forall_app. split; [done|]. by apply Forall_singleton. }
  apply Hgen; [done|constructor].
Qed.

(** C11: A project is not reported clean unless it was analysed: an exit code other
    than 1 means that every analyzable command of the database compiled or was
    reused, that every unit loaded in both passes, and that the report was written;
    the code is then 2 exactly when the report has a finding the policy fails on,
    and 0 otherwise. *)
Theorem clean_exit_means_complete_analysis (files files' : FileSystem) (path : string)
    (options : AnalysisOptions) (format : OutputFormat) (verbose useCache : bool) (failOn : FailOn)
    (exit : Exit) :
  analyzeProject files path options format verbose useCache failOn = Some (exit, files') →
  exit_code exit ≠ 1%Z →
  ∃ database units analysis rendered,
    loadFromFile (λ p, files !! p) parse_json tokenize path = inl database ∧
    unit_identifier <$> units ≡ₚ cmd_file <$> analyzableSources database false ∧ units ≠ [] ∧
    Project_analyze options files' units = Some analysis ∧ pa_failedUnits analysis = [] ∧
    emitStructuredReport (pa_report analysis) (makeRenderContext current_path path elapsed) format
      = Some rendered ∧
    (∀ o, o ∈ rendered → o ∈ exit_output exit) ∧
    exit_code exit = if existsb (worth_failing failOn) (rep_diagnostics (pa_report analysis))
                     then kFindingsExitCode else 0%Z.
Proof.
  unfold Main.analyzeProject. destruct (loadFromFile _ _ _ _) as [database|error] eqn:Eload.
  2: { intros [= <- <-] Hcode. by destruct Hcode. }
  case_bool_decide; [intros [= <- <-] Hcode; by destruct Hcode|].
  match goal with |- context [Main.buildUnits _ _ _ _ _ _ _ _ _ _ ?c ?v ?l ?s] =>
    destruct (buildUnits c v l s) as [st|] eqn:Est end; [|done]. cbn [mbind option_bind].
  case_bool_decide as Hu; [intros [= <- <-] Hcode; by destruct Hcode|].
  destruct (Project_analyze options (bs_files st) (bs_units st)) as [analysis|] eqn:Ea; [|done].
  cbn [mbind option_bind].
  destruct (emitStructuredReport _ _ _) as [rendered|] eqn:Eo; [|done]. cbn [mbind option_bind].
  intros [= <- <-]. simpl. unfold projectExitCode, pa_complete.
  destruct (bool_decide (bs_failedSources st ≠ [])) eqn:Ef; [by intros []|].
  apply bool_decide_eq_false, dec_stable in Ef.
  destruct (pa_failedUnits analysis) as [|] eqn:Efu; [|by intros []]. simpl. intros _.
  apply (buildUnits_accounted _ _ _ [] _ _) in Est as [Hids _]; [|done].
  rewrite Ef, app_nil_r in Hids. simpl in Hids.
  assert (rep_summary (pa_report analysis) = computeSummary (rep_diagnostics (pa_report analysis)))
    as Hsum.
  { unfold Main.Project_analyze in Ea. match type of Ea with InterTU_analyze build ?load ?id ?n ?o = _ =>
      destruct (InterTU_analyze_renders build build_selected load id n o) as (a & Ha & _ & Hs) end.
    rewrite Ha in Ea. by injection Ea as <-. }
  exists database, (bs_units st), analysis, rendered. split_and!; try done.
  - intros o Ho. rewrite !elem_of_app. auto.
  - by rewrite Hsum, gateExitCode_findings.
Qed.
End program.

(** ** Witnesses

    Modules are their bitcode, the fact builder finds one wait without a predicate,
    and every source compiles. *)

Definition sample_build (_ : string) (_ : FactSelection) (_ : option ProgramSymbolIndex) : TUFacts :=
  unit_with_waits [header_wait].

Definition sample_files : FileSystem := {["db/compile_commands.json" := "[]"]}.

Definition sample_compilerlib (_ : FileSystem) (_ : list string) (_ : OutputMode) (_ : bool)
  : BackendCompileOutput := MkBackendOutput true "" "IR" "BC".

Abbreviation sample_analyzeProject :=
  (@analyzeProject merge_std_sort sorted_hash_order in_order string sample_build inl (λ bytes _, inl bytes)
     sample_compilerlib (λ fs _, fs) (λ _ _, MkFileStatus (true, None) (true, None) true) (λ _, "missing")
     (λ _, []) (λ _, 0%Z) (λ s, s) (λ _ _, None) (λ s, s) (λ _, "{}")
     (λ _, inl (JArray sample_entries)) (λ _, []) (λ _, false) (λ _, true) no_faults None 3%Z "" ""
     (λ _ fs, fs) sample_files "db/compile_commands.json" allAvailable OutputFormat_Json false false).

Lemma sample_build_selected module selection index :
  sel_accesses selection = false → accesses (sample_build module selection index) = [].
Proof. done. Qed.

Lemma sample_exit_code : exit_code <$> (fst <$> sample_analyzeProject FailOn_Error) = Some 2%Z.
Proof. vm_compute. reflexivity. Qed.

Lemma sample_sources :
  match loadFromFile (λ p, sample_files !! p) (λ _, inl (JArray sample_entries)) (λ _, [])
          "db/compile_commands.json" with
  | inl database => cmd_file <$> analyzableSources database false
  | inr _ => []
  end = ["/p/src/a.c"; "/p/src/b.c"].
Proof. vm_compute. reflexivity. Qed.

Lemma clean_exit_means_complete_analysis_witness :
  ∃ units : ProjectUnitSource,
    unit_identifier <$> units ≡ₚ ["/p/src/a.c"; "/p/src/b.c"] ∧
    (exit_code <$> (fst <$> sample_analyzeProject FailOn_Error)) = Some 2%Z.
Proof.
  pose proof sample_exit_code as Hcode.
  destruct (sample_analyzeProject FailOn_Error) as [[exit files']|] eqn:E; [|discriminate Hcode].
  assert (exit_code exit = 2%Z) as Hexit by (injection Hcode as H; exact H).
  destruct (@clean_exit_means_complete_analysis merge_std_sort sorted_hash_order in_order string
    sample_build sample_build_selected inl (λ bytes _, inl bytes) sample_compilerlib (λ fs _, fs)
    (λ _ _, MkFileStatus (true, None) (true, None) true) (λ _, "missing") (λ _, []) (λ _, 0%Z)
    (λ s, s) (λ _ _, None) (λ s, s) (λ _, "{}") (λ _, inl (JArray sample_entries)) (λ _, [])
    (λ _, false) (λ _, true) no_faults None 3%Z "" "" (λ _ fs, fs) sample_files files'
    "db/compile_commands.json" allAvailable OutputFormat_Json false false FailOn_Error exit E)
    as (database & units & analysis & rendered & Hload & Hunits & _).
  - rewrite Hexit. discriminate.
  - exists units. split.
    + pose proof sample_sources as Hs. rewrite Hload in Hs. by rewrite Hunits, Hs.
    + exact Hcode.
Defined.


(** [ProjectAnalysisReport::complete] holds although a unit was left out: units
    skipped for their target do not count. *)
Lemma complete_ignores_skipped_units :
  let unit abi := MkTUFacts [] [] [] [] [] [] [] [] [] [] [] false false ∅ ∅ ∅ ∅ ∅ ∅ ∅
                    (MkProgramSymbols abi ∅ ∅ ∅ ∅ ∅ ∅) in
  (λ a, (pa_complete a, pa_skippedIncompatibleModules a)) <$>
    analyze_sample in_order [inl (unit "x86"); inl (unit "x86"); inl (unit "arm")]
  = Some (true, ["unit2"]).
Proof. vm_compute. reflexivity. Qed.
